(* ===== verification/_CoqProject ===== *)
-Q . S2P
Prelude.v
Bytes.v
Http.v
Format.v
Json.v
Metrics.v
Wal.v
SkipList.v
MemTable.v
MemStore.v
Codec.v
Command.v
StateMachine.v
SmSnapshot.v
AtomicFile.v
RaftLog.v
RaftFormat.v
RaftPersist.v
RaftNode.v
RaftElection.v
RaftDurable.v
RaftGhost.v
RaftSafety.v
RaftSteps.v
RaftAgreement.v
RaftCommit.v
SnapshotTransfer.v
Applier.v
Replica.v
Lifecycle.v
InvariantTracker.v
Checker.v
Report.v
ReplayFile.v
SstFormat.v
SsTable.v
Manifest.v
Heap.v
Merge.v
Tracker.v
Compaction.v
Transport.v
Grpc.v
Gateway.v
Configuration.v
DbNode.v
Chaos.v
Harness.v
Api.v
Observability.v
Client.v
ApiJson.v
EndToEnd.v
ClusterService.v
Commands.v
