(* ===== verification/Prelude.v ===== *)
(** * ForgeDB: a verification development

    ForgeDB is a replicated key-value store in Go: a storage engine
    (write-ahead log, MemTable, SSTables, manifest, compaction), a Raft
    implementation, a deduplicating state machine on top of both, nodes that
    serve it over HTTP and gRPC, a gateway that finds the leader, a command
    line client, metrics, a linearizability checker for histories of client
    operations, and a chaos harness that breaks clusters and watches them.
    This library
    models these parts as Rocq functions translated from the source and
    proves what makes them correct. All paths below are under src/.

    ** The parts, and the files that model them

    Foundations.
    - Prelude.v: the result type for Go's [(T, error)], machine words with
      their wrap-around, lengths, automation. Bytes.v: byte strings,
      little-endian integers, [bytes.Compare], CRC-32C (computed, not
      assumed: a change of one byte is proved to change the checksum).
      Codec.v: decoders as parsers that end in [Done], [Fail] or [Panic],
      with round-trip and no-panic combinators, and trailing checksums.

    Storage engine (internal/storage).
    - Wal.v: wal/record.go and wal/wal.go. A log is its bytes, the write
      position and how much is synced; a crash keeps the synced prefix and any
      part of the rest; [wal_life] are its histories through the package's
      calls.
    - SkipList.v, MemTable.v: memtable/skiplist.go and memtable.go, with the
      forward pointers of every level.
    - MemStore.v: memstore.go, the log and the table together, against a map;
      the [Store] interface of storage.go is a class with laws.
    - AtomicFile.v: atomicfile.go, with a failure at every step.
    - SstFormat.v, SsTable.v: sstable/, blocks, index, metadata, footer, Bloom
      filter, writer, reader, iterator.
    - Manifest.v: manifest/, the file format and the version set's updates.
    - Heap.v, Merge.v, Tracker.v, Compaction.v: compaction/, Go's
      container/heap on a slice, the k-way merge, the reference-counted file
      tracker and [Compact] itself on a directory of files.

    State machine (internal/statemachine).
    - Command.v: command.go. StateMachine.v: statemachine.go, result.go,
      errors.go over any [Store], against one function on maps and against
      what a sequence of commands is owed ([answered]). SmSnapshot.v:
      snapshot.go. Applier.v: applier.go, between a Raft node and a state
      machine, with other calls on the node in between.
    - Replica.v: an applier and a state machine at every node of the Raft
      cluster, call by call, with stores that outlive crashes and snapshots
      that travel. Lifecycle.v: the goroutines of one process in that system:
      [Run], [Stop] and [Drain] of raft.go, [Run] and [Stop] of applier.go,
      [Run] and [Close] of dbnode/node.go.

    Raft (internal/raft).
    - RaftLog.v: log.go. RaftFormat.v: format.go. RaftPersist.v: persist.go
      with the memory and the file persister as instances of one class.
    - RaftNode.v: raft.go, election.go, replication.go, apply.go,
      snapshot.go, read.go: a node's state and one function per handler,
      timer tick and reply, each whole, returning the messages it sends;
      [NewNode] loads from a persister and returns its errors, then builds
      the node from what was loaded ([newNode]). A node's field [persister]
      is what its successful saves have written; RaftPersist.v ties that to
      the bytes of the two files.
    - RaftElection.v: a cluster of nodes and a network as a step relation,
      with AppendEntries and InstallSnapshot traffic over-approximated.
      RaftDurable.v, RaftCommit.v: one node's life with failed saves and
      restarts. SnapshotTransfer.v: chunked snapshot transfer between two.
    - RaftGhost.v, RaftSafety.v, RaftSteps.v, RaftAgreement.v: the same
      cluster with every message one that was really sent: logs without
      their compaction, the step relation [wstep] and its invariant, that
      every step keeps it, and what follows.
    - Transport.v: transport.go, the in-memory network with partitions; the
      RPC handler interface is a class. Grpc.v: internal/transport, the
      protobuf conversions, the gRPC server and client with their limits.

    Service (internal/dbnode, internal/api, internal/gateway,
    internal/config).
    - DbNode.v: node.go and the status observers. Api.v: authentication,
      cross-origin headers, routing, every handler. Http.v: the strings,
      headers and requests of net/http that are used. Gateway.v: proxy.go.
      Configuration.v: config.go, load.go, gateway.go.
    - Json.v: the part of encoding/json that is used: the texts it writes,
      with their escapes and indentation, the whole reader, UTF-8, and storing
      what was read in structs. ApiJson.v: the bodies api/server.go and kv.go
      write, as bytes. EndToEnd.v: the gateway in front of the nodes'
      handlers, with the URLs between them. ClusterService.v: that service
      over the runs of the replicated cluster of Replica.v, which keep the
      promise of DbNode.v that the handlers' theorems are proved against.
    - Format.v: the decimal and list formatting of strconv, strings and fmt
      that is used. Metrics.v: internal/metrics, counters, gauges and
      histograms over IEEE doubles, the registry, the text format, the
      catalog. Observability.v: dbnode/metrics.go, [instrument] of
      api/server.go and the routes with it.

    Commands (cmd).
    - Client.v: forge-client. Commands.v: forgedb, forge-gateway and
      forge-chaos: what start-up acquires and clean-up releases.

    Tools (correctness, chaos).
    - InvariantTracker.v: chaos/invariants.go. Chaos.v: cluster.go, wait.go,
      observe.go, eventlog.go, faults.go, random.go. Harness.v:
      correctness/harness.go and random.go. The nodes a harness drives are the
      class [Fleet] of operations with laws, with an instance made of the
      models above.
    - Checker.v: operation.go, model.go, checker.go, reducer.go: the
      linearizability checker against its definition. Report.v: result.go,
      the diagnosis of a violation and its text. ReplayFile.v: replay.go,
      histories in files.

    ** What the theorems show

    - Durability: what the log, the store and a Raft node acknowledged
      survives a crash; damage is detected; a persister returns what its last
      successful saves wrote, a node restarts from files that hold that and
      refuses files that do not decode.
    - Refinement: the store is a map; the state machine executes exactly the
      commands whose number is new for their client and answers retries,
      conflicts and stale requests as specified (so replicas agree and a
      request is applied at most once); the version
      set is what its successful updates specify, a compaction of the newest
      tables is invisible to readers; every replica of a cluster holds the
      state the specification gives to a prefix of the one committed log.
    - Processes: after [Close] nothing writes to the closed store, [Close] can
      always return, and an applier asleep with no token has applied all that
      is committed; a process releases everything it acquired, whichever step
      of its start-up fails.
    - Raft: a cluster refines one log that is only appended to and of which
      every node shows a prefix; so committed entries never differ, between
      nodes or over time, logs match and leaders are complete, through lost,
      delayed, reordered and duplicated messages, compaction, snapshots,
      failed saves, crashes and restarts. A term has one leader over a
      cluster's whole history, votes are final, the commit rule, genuine and
      complete snapshot transfer, application in log order.
    - Service: a write answered with success has taken effect, if its entry
      is the one committed at its index; a read sees at least what its node
      had committed; no protected route is reachable without the token; the
      gateway contacts only configured nodes, none twice, and finds the
      leader of up to five; a validated configuration describes one
      membership; messages arrive unchanged, exactly between unpartitioned
      nodes; the client asks at most six distinct nodes; the address in a
      "not the leader" answer reaches gateway and client through its JSON;
      through the gateway, every run of the cluster serves one log: a PUT
      answered with 200 was proposed with the client's key and value and
      waited for, and has taken effect if its entry is the one committed at
      its index; a GET returns the value of that log's map at a point its
      node knew to be committed; and a request without the
      token changes no node; metrics change
      nothing about the answers, are shown as they were declared and counted
      exactly.
    - Harnesses: the invariant tracker reports a violation exactly when the
      observed history is illegal, so never on a run of the modelled cluster;
      waits are bounded; every operation of a random run is recorded once.
    - Formats: every encoder and decoder pair is a round trip (JSON texts
      too, up to bytes that are not UTF-8; for saved histories what comes back
      is stated for all of them), most binary ones
      bijections on what is accepted, and no input makes a decoder read out
      of range.
    - Equivalences: the skip list and the heap merge against sorted lists and
      "the newest table wins"; the checker's verdicts against
      linearizability, and its diagnosis of a violation against the history.
    - Where the code does not do what it says, a theorem or an example shows
      a concrete run: a read that misses a committed write, two overlapping
      writes of which one is lost, a checker that accepts a violation, a
      compaction that loses newer data, a snapshot that takes commands back
      or runs ahead of its index, a lost write that the harness records as
      successful, a tick that outlives [Close], a retried write that puts an
      older value back, a violation that a saved history no longer shows.

    ** Conventions

    Integers are [Z] with the wrap-around of their width written out where
    the code computes; file system failures, lost messages, random timeouts
    and coin flips are arguments of the functions; the scheduler is the order
    of steps. JSON values nest at most 10,000 deep, the limit of encoding/json,
    which is the reader's fuel. Loops that are not structural take fuel, and the fuel is either
    derived from the input (with a lemma that it is enough) or the theorem
    says which fuel is enough; no theorem holds because fuel ran out.

    Code outside the repository is a parameter: the network below the HTTP
    client and the gRPC connection (any reply, or none), the sizes of encoded
    messages (with bounds), [time.ParseDuration], the two floating-point formulas of
    the Bloom filter, the quoting and the float printing of strconv, the
    texts of errors, the seeded random source, the environment and the
    listeners of a process. What other goroutines do between two lock regions of a
    handler is a function argument (the gaps of Applier.v, DbNode.v, Api.v).

    The agreement theorems assume that terms and indices stay below 2^64 and
    that, while a snapshot is installed, the save of the log does not fail
    after the save of the snapshot ([RaftAgreement.torn_install_keeps_conflict]
    shows what then happens). Replica.v, Lifecycle.v and ClusterService.v
    assume besides that a snapshot that is installed reaches beyond what its
    receiver has committed and is not installed between the applier's look
    for one and its read of the committed entries, and that snapshots are
    taken by replicas that have caught up with what their store kept
    ([Applier.late_snapshot_loses_command],
    [Applier.quiet_snapshot_sends_no_token] and
    [Replica.snapshot_during_replay_is_ahead] show why). The histories of a
    log in Wal.v and the lives of a store in MemStore.v end, but for syncs
    and restarts, with an append that failed part way
    ([Wal.Append_after_partial_write_corrupts] shows why). Encoded Raft
    states, table names and URLs are within the limits that their readers
    check; the theorems say so, and name the example of what happens beyond
    ([RaftFormat.oversized_state_unreadable],
    [Manifest.AddTable_empty_name_unreadable], [Gateway.forward_truncates_key]).

    ** Not modelled

    Goroutines, channels and mutexes appear as atomic steps. Left out are
    what only moves data to the outside (sockets, log lines, usage texts,
    signals), code generated by protoc, and the
    dashboard, which is not Go. *)

From stdpp Require Import base tactics list numbers gmap sorting.
From Stdlib Require Import Strings.Byte.
From Stdlib Require Import ZArith Lia.

#[global] Open Scope Z_scope.

(** ** Results with an error value

    Go functions that return [(T, error)] return a [result]: [Ok v] for
    [(v, nil)] and [Err e] for [(zero, e)]. *)

Inductive result (E A : Type) : Type :=
| Ok (a : A)
| Err (e : E).
Arguments Ok {E A} a.
Arguments Err {E A} e.

#[export] Instance result_ret {E} : MRet (result E) := fun A a => Ok a.
#[export] Instance result_bind {E} : MBind (result E) := fun A B f r =>
  match r with Ok a => f a | Err e => Err e end.
#[export] Instance result_fmap {E} : FMap (result E) := fun A B f r =>
  match r with Ok a => Ok (f a) | Err e => Err e end.

#[export] Instance result_eq_dec {E A} `{EqDecision E, EqDecision A} :
  EqDecision (result E A).
Proof. solve_decision. Defined.

Definition is_ok {E A} (r : result E A) : bool :=
  match r with Ok _ => true | Err _ => false end.

(** ** Machine words

    [uint64] values are [Z]s in [[0, 2^64)]; every arithmetic operation of
    the source is followed by [u64], Go's wrap-around. *)

Definition u64 (x : Z) : Z := x mod 2 ^ 64.
Definition u32 (x : Z) : Z := x mod 2 ^ 32.
Definition is_u64 (x : Z) : Prop := 0 <= x < 2 ^ 64.
Definition is_u32 (x : Z) : Prop := 0 <= x < 2 ^ 32.

Create HintDb forge.

Lemma u64_small x : is_u64 x -> u64 x = x.
Proof. intros H. apply Z.mod_small, H. Qed.

Lemma u32_small x : is_u32 x -> u32 x = x.
Proof. intros H. apply Z.mod_small, H. Qed.

Lemma u64_range x : is_u64 (u64 x).
Proof. apply Z.mod_pos_bound. lia. Qed.

Lemma u32_range x : is_u32 (u32 x).
Proof. apply Z.mod_pos_bound. lia. Qed.

#[export] Hint Resolve u64_range u32_range : forge.

(** ** Lengths

    [zlen l] is Go's [len(l)] as an integer. *)

Definition zlen {A} (l : list A) : Z := Z.of_nat (length l).

Lemma zlen_nonneg {A} (l : list A) : 0 <= zlen l.
Proof. unfold zlen. lia. Qed.

Lemma zlen_nil {A} : zlen (@nil A) = 0.
Proof. reflexivity. Qed.

Lemma zlen_cons {A} (x : A) l : zlen (x :: l) = 1 + zlen l.
Proof. unfold zlen. simpl length. lia. Qed.

Lemma zlen_app {A} (l k : list A) : zlen (l ++ k) = zlen l + zlen k.
Proof. unfold zlen. rewrite length_app. lia. Qed.

Lemma zlen_take_le {A} n (l : list A) : zlen (take n l) <= zlen l.
Proof. unfold zlen. rewrite length_take. lia. Qed.

Lemma to_nat_zlen {A} (l : list A) : Z.to_nat (zlen l) = length l.
Proof. unfold zlen. lia. Qed.

Create Rewrite HintDb zlen.
#[export] Hint Rewrite @zlen_nil @zlen_cons @zlen_app @to_nat_zlen : zlen.

(** [zlen_lia] turns a goal about lengths into linear arithmetic. *)
Ltac zlen_norm := autorewrite with zlen in *.
Ltac zlen_lia :=
  zlen_norm;
  repeat match goal with
  | |- context [zlen ?l] => lazymatch goal with
                            | _ : 0 <= zlen l |- _ => fail
                            | _ => pose proof (zlen_nonneg l)
                            end
  | _ : context [zlen ?l] |- _ => lazymatch goal with
                            | _ : 0 <= zlen l |- _ => fail
                            | _ => pose proof (zlen_nonneg l)
                            end
  end; unfold is_u64, is_u32 in *; lia.

(** [case_ifs] splits on every boolean test of the goal, keeping its
    arithmetic content; [zbool] turns boolean comparisons into [Prop]. *)
Ltac zbool :=
  repeat match goal with
  | H : (_ && _)%bool = true |- _ => apply andb_true_iff in H as [? ?]
  | H : (_ || _)%bool = false |- _ => apply orb_false_iff in H as [? ?]
  | H : negb _ = true |- _ => apply negb_true_iff in H
  | H : negb _ = false |- _ => apply negb_false_iff in H
  | H : (_ =? _) = true |- _ => apply Z.eqb_eq in H
  | H : (_ =? _) = false |- _ => apply Z.eqb_neq in H
  | H : (_ <? _) = true |- _ => apply Z.ltb_lt in H
  | H : (_ <? _) = false |- _ => apply Z.ltb_ge in H
  | H : (_ <=? _) = true |- _ => apply Z.leb_le in H
  | H : (_ <=? _) = false |- _ => apply Z.leb_gt in H
  | H : (_ >? _) = _ |- _ => rewrite Z.gtb_ltb in H
  | H : (_ >=? _) = _ |- _ => rewrite Z.geb_leb in H
  | H : bool_decide _ = true |- _ => apply bool_decide_eq_true in H
  | H : bool_decide _ = false |- _ => apply bool_decide_eq_false in H
  end.

Ltac case_if :=
  match goal with
  | |- context [if ?b then _ else _] =>
      lazymatch type of b with
      | bool => let E := fresh "E" in destruct b eqn:E
      | _ => let E := fresh "E" in destruct b as [E|E]
      end
  end.

Lemma take_drop_app_exact {A} (l k : list A) n :
  n = length l -> take n (l ++ k) = l /\ drop n (l ++ k) = k.
Proof.
  intros ->. split; [apply take_app_length | apply drop_app_length].
Qed.
