(* ===== verification/Bytes.v ===== *)
(** * Byte strings, little-endian integers and the CRC-32C checksum

    What every ForgeDB format takes from Go's standard library: [[]byte] and
    [string] values, [bytes.Compare], [binary.LittleEndian] and
    [crc32.Checksum] with the Castagnoli table (the [crcTable] of
    internal/storage/wal/record.go, internal/storage/sstable/sstable.go,
    internal/storage/manifest/manifest.go, internal/raft/format.go and
    internal/statemachine/snapshot.go). *)

From S2P Require Import Prelude.
From stdpp Require Import base tactics list numbers countable sorting.
From Stdlib Require Import Strings.Byte.
From Stdlib Require Import ZArith Lia.
#[local] Open Scope Z_scope.

(** ** Bytes *)

#[export] Instance byte_eq_decision : EqDecision byte := Byte.byte_eq_dec.
#[export] Program Instance byte_countable : Countable byte :=
  inj_countable Byte.to_N Byte.of_N _.
Next Obligation. intros b. apply Byte.of_to_N. Qed.
#[export] Instance byte_inhabited : Inhabited byte := populate x00.

(** A Go [[]byte] or [string]; [nil] and the empty slice are both [[]]. *)
Abbreviation bytes := (list byte).

Definition byte_val (b : byte) : Z := Z.of_N (Byte.to_N b).
Definition byte_of (z : Z) : byte := default x00 (Byte.of_N (Z.to_N (z mod 256))).

Lemma byte_val_range b : 0 <= byte_val b < 256.
Proof. unfold byte_val. pose proof (Byte.to_N_bounded b). lia. Qed.

Lemma byte_val_of z : byte_val (byte_of z) = z mod 256.
Proof.
  unfold byte_val, byte_of.
  pose proof (Z.mod_pos_bound z 256 ltac:(lia)) as Hz.
  destruct (Byte.of_N (Z.to_N (z mod 256))) as [b|] eqn:E; simpl.
  - apply Byte.to_of_N in E. rewrite E. lia.
  - apply Byte.of_N_None_iff in E. lia.
Qed.

Lemma byte_val_inj a b : byte_val a = byte_val b -> a = b.
Proof.
  unfold byte_val. intros H. assert (Byte.to_N a = Byte.to_N b) as E by lia.
  pose proof (Byte.of_to_N a) as Ha. rewrite E, Byte.of_to_N in Ha. congruence.
Qed.

Lemma byte_of_val b : byte_of (byte_val b) = b.
Proof.
  apply byte_val_inj. rewrite byte_val_of.
  apply Z.mod_small, byte_val_range.
Qed.

(** ** Little-endian integers: [binary.LittleEndian.PutUintN] and [UintN] *)

Fixpoint le_put (n : nat) (z : Z) : bytes :=
  match n with
  | O => []
  | S n => byte_of z :: le_put n (z / 256)
  end.

Fixpoint le_get (l : bytes) : Z :=
  match l with
  | [] => 0
  | b :: l => byte_val b + 256 * le_get l
  end.

Abbreviation put_u32 := (le_put 4).
Abbreviation put_u64 := (le_put 8).

Lemma le_put_length n z : length (le_put n z) = n.
Proof. revert z; induction n; intros z; simpl; auto. Qed.

Lemma le_put_zlen n z : zlen (le_put n z) = Z.of_nat n.
Proof. unfold zlen. by rewrite le_put_length. Qed.
#[export] Hint Rewrite le_put_zlen : zlen.

Lemma le_get_put n z : le_get (le_put n z) = z mod 256 ^ Z.of_nat n.
Proof.
  revert z; induction n as [|n IH]; intros z; [by rewrite Z.mod_1_r|].
  simpl le_put. simpl le_get. rewrite IH, byte_val_of, Nat2Z.inj_succ.
  rewrite Z.pow_succ_r by lia.
  rewrite Z.rem_mul_r by lia. done.
Qed.

Lemma le_get_put_u32 z : is_u32 z -> le_get (put_u32 z) = z.
Proof.
  intros H. rewrite le_get_put. apply Z.mod_small.
  change (256 ^ Z.of_nat 4) with (2 ^ 32). exact H.
Qed.

Lemma le_get_put_u64 z : is_u64 z -> le_get (put_u64 z) = z.
Proof.
  intros H. rewrite le_get_put. apply Z.mod_small.
  change (256 ^ Z.of_nat 8) with (2 ^ 64). exact H.
Qed.

Lemma le_get_range l : 0 <= le_get l < 256 ^ zlen l.
Proof.
  induction l as [|b l IH]; [vm_compute; split; congruence|].
  simpl. pose proof (zlen_nonneg l).
  rewrite zlen_cons, Z.pow_add_r, Z.pow_1_r by lia.
  pose proof (byte_val_range b). nia.
Qed.

Lemma le_get_inj l k : length l = length k -> le_get l = le_get k -> l = k.
Proof.
  revert k; induction l as [|a l IH]; intros [|b k] Hlen H; simpl in *; try lia; [done|].
  pose proof (byte_val_range a). pose proof (byte_val_range b).
  assert (byte_val a = byte_val b /\ le_get l = le_get k) as [E1 E2] by lia.
  f_equal; [by apply byte_val_inj | apply IH; lia].
Qed.

(** ** [bytes.Compare]: lexicographic order on byte strings *)

Fixpoint bytes_compare (a b : bytes) : comparison :=
  match a, b with
  | [], [] => Eq
  | [], _ :: _ => Lt
  | _ :: _, [] => Gt
  | x :: a, y :: b =>
      match byte_val x ?= byte_val y with
      | Eq => bytes_compare a b
      | c => c
      end
  end.

Definition blt (a b : bytes) : Prop := bytes_compare a b = Lt.

#[export] Instance blt_dec : RelDecision blt.
Proof. intros a b. unfold blt. apply _. Defined.

Lemma bytes_compare_refl a : bytes_compare a a = Eq.
Proof. induction a; simpl; [done|]. by rewrite Z.compare_refl. Qed.

Lemma bytes_compare_eq a b : bytes_compare a b = Eq <-> a = b.
Proof.
  split; [|intros ->; apply bytes_compare_refl].
  revert b; induction a as [|x a IH]; intros [|y b]; simpl; try done.
  destruct (byte_val x ?= byte_val y) eqn:E; try done. intros H.
  apply Z.compare_eq in E. f_equal; [by apply byte_val_inj | auto].
Qed.

Lemma bytes_compare_antisym a b : bytes_compare b a = CompOpp (bytes_compare a b).
Proof.
  revert b; induction a as [|x a IH]; intros [|y b]; simpl; try done.
  rewrite Z.compare_antisym. destruct (byte_val x ?= byte_val y); simpl; auto.
Qed.

Lemma blt_irrefl a : ~ blt a a.
Proof. unfold blt. rewrite bytes_compare_refl. done. Qed.

Lemma blt_trans a b c : blt a b -> blt b c -> blt a c.
Proof.
  unfold blt. revert b c; induction a as [|x a IH]; intros [|y b] [|z c]; simpl; try done.
  destruct (byte_val x ?= byte_val y) eqn:E1, (byte_val y ?= byte_val z) eqn:E2;
    rewrite ?Z.compare_eq_iff, ?Z.compare_lt_iff in *; try done; intros H1 H2.
  - rewrite E1, E2, Z.compare_refl. eauto.
  - rewrite (proj2 (Z.compare_lt_iff _ _)); [done|lia].
  - rewrite (proj2 (Z.compare_lt_iff _ _)); [done|lia].
  - rewrite (proj2 (Z.compare_lt_iff _ _)); [done|lia].
Qed.

#[export] Instance blt_strict : StrictOrder blt.
Proof. split; [exact blt_irrefl | exact blt_trans]. Qed.

Lemma bytes_compare_gt a b : bytes_compare a b = Gt <-> blt b a.
Proof.
  unfold blt. rewrite (bytes_compare_antisym a b).
  destruct (bytes_compare a b); simpl; intuition congruence.
Qed.

Lemma blt_trichotomy a b : blt a b \/ a = b \/ blt b a.
Proof.
  destruct (bytes_compare a b) eqn:E; [right; left|left|right; right].
  - by apply bytes_compare_eq.
  - done.
  - by apply bytes_compare_gt.
Qed.

(** Go's [a <= b] on byte strings, [bytes.Compare(a, b) <= 0]. *)
Definition ble (a b : bytes) : Prop := a = b \/ blt a b.

Lemma not_blt_ble a b : ~ blt a b <-> ble b a.
Proof.
  unfold ble. destruct (blt_trichotomy a b) as [H|[->|H]].
  - split; [done|]. intros [->|H']; [by apply blt_irrefl in H|].
    exfalso. apply (blt_irrefl a). by eapply blt_trans.
  - split; [by left|]. intros _. apply blt_irrefl.
  - split; [by right|]. intros _ H'. apply (blt_irrefl a). by eapply blt_trans.
Qed.

(** ** CRC-32C: [crc32.Checksum(data, crc32.MakeTable(crc32.Castagnoli))] *)

(** The Castagnoli polynomial in reversed bit order, Go's
    [crc32.Castagnoli]. *)
Definition castagnoli : Z := 0x82f63b78.

(** One bit of [simplePopulateTable]'s inner loop. *)
Definition crc_bit (c : Z) : Z :=
  if Z.odd c then Z.lxor (Z.shiftr c 1) castagnoli else Z.shiftr c 1.

(** Entry [i] of the 256-entry table. *)
Definition crc_table (i : Z) : Z := Nat.iter 8 crc_bit i.

(** One byte of [simpleUpdate]'s loop:
    [crc = tab[byte(crc)^v] ^ (crc >> 8)]. *)
Definition crc_byte (c : Z) (b : byte) : Z :=
  Z.lxor (crc_table (Z.lxor (Z.land c 255) (byte_val b))) (Z.shiftr c 8).

Definition crc_update (c : Z) (data : bytes) : Z := fold_left crc_byte data c.

Definition checksum (data : bytes) : Z :=
  Z.lxor (crc_update 0xffffffff data) 0xffffffff.

(** The published check value of CRC-32C: the checksum of "123456789". *)
Example checksum_check_value :
  checksum [x31; x32; x33; x34; x35; x36; x37; x38; x39] = 0xe3069283.
Proof. vm_compute. reflexivity. Qed.


Lemma lxor_range n a b :
  0 <= n -> 0 <= a < 2 ^ n -> 0 <= b < 2 ^ n -> 0 <= Z.lxor a b < 2 ^ n.
Proof.
  intros Hn Ha Hb. assert (Z.lxor a b mod 2 ^ n = Z.lxor a b) as <-;
    [|apply Z.mod_pos_bound; lia].
  apply Z.bits_inj_iff. intros i.
  destruct (Z.lt_ge_cases i 0); [by rewrite !Z.testbit_neg_r|].
  destruct (Z.lt_ge_cases i n); [by rewrite Z.mod_pow2_bits_low|].
  rewrite Z.mod_pow2_bits_high, Z.lxor_spec by lia.
  rewrite <- (Z.mod_small a (2 ^ n)), <- (Z.mod_small b (2 ^ n)) by lia.
  by rewrite !Z.mod_pow2_bits_high by lia.
Qed.

Lemma crc_bit_range c : is_u32 c -> is_u32 (crc_bit c).
Proof.
  intros H. unfold crc_bit.
  assert (is_u32 (Z.shiftr c 1)).
  { unfold is_u32 in *. rewrite Z.shiftr_div_pow2 by lia. change (2 ^ 1) with 2.
    split; [apply Z.div_pos; lia|]. apply Z.div_lt_upper_bound; lia. }
  case_if; [|done]. apply lxor_range; unfold castagnoli; unfold is_u32 in *; lia.
Qed.

Lemma crc_table_range i : is_u32 i -> is_u32 (crc_table i).
Proof.
  intros H. unfold crc_table. generalize 8%nat. intros n.
  induction n; simpl; auto using crc_bit_range.
Qed.

Lemma land_255_range c : 0 <= Z.land c 255 < 2 ^ 8.
Proof.
  change 255 with (Z.ones 8). rewrite Z.land_ones by lia. apply Z.mod_pos_bound. lia.
Qed.

Lemma crc_index_range c b : 0 <= Z.lxor (Z.land c 255) (byte_val b) < 2 ^ 8.
Proof. apply lxor_range; [lia|apply land_255_range|apply byte_val_range]. Qed.

Lemma crc_byte_range c b : is_u32 c -> is_u32 (crc_byte c b).
Proof.
  intros H. unfold crc_byte. apply lxor_range; [lia| |].
  - apply crc_table_range. pose proof (crc_index_range c b). unfold is_u32. lia.
  - unfold is_u32 in *. rewrite Z.shiftr_div_pow2 by lia.
    split; [apply Z.div_pos; lia|]. apply Z.div_lt_upper_bound; lia.
Qed.

Lemma crc_update_range c data : is_u32 c -> is_u32 (crc_update c data).
Proof.
  unfold crc_update. revert c; induction data; intros c H; simpl; auto using crc_byte_range.
Qed.

Lemma checksum_range data : is_u32 (checksum data).
Proof.
  apply lxor_range; [lia|apply crc_update_range; unfold is_u32; lia|lia].
Qed.
#[export] Hint Resolve checksum_range : forge.

(** The top byte of a table entry determines its index: the whole table is
    enumerated. *)
Lemma crc_table_top_nodup :
  NoDup ((fun i => Z.shiftr (crc_table (Z.of_nat i)) 24) <$> seq 0 256).
Proof. apply (bool_decide_unpack _). vm_compute. exact I. Qed.

Lemma crc_table_top_inj i j :
  0 <= i < 2 ^ 8 -> 0 <= j < 2 ^ 8 ->
  Z.shiftr (crc_table i) 24 = Z.shiftr (crc_table j) 24 -> i = j.
Proof.
  intros Hi Hj H.
  assert (Z.to_nat i = Z.to_nat j); [|lia].
  eapply (proj1 (NoDup_alt _) crc_table_top_nodup _ _ (Z.shiftr (crc_table i) 24));
    apply list_lookup_fmap_Some.
  - exists (Z.to_nat i). rewrite Z2Nat.id by lia. split; [done|].
    apply lookup_seq. lia.
  - exists (Z.to_nat j). rewrite Z2Nat.id by lia. split; [done|].
    apply lookup_seq. lia.
Qed.

(** One update step loses nothing: it determines the old register's upper
    three bytes and the table index. *)
Lemma crc_byte_inj c b c' b' :
  is_u32 c -> is_u32 c' -> crc_byte c b = crc_byte c' b' ->
  Z.shiftr c 8 = Z.shiftr c' 8 /\
  Z.lxor (Z.land c 255) (byte_val b) = Z.lxor (Z.land c' 255) (byte_val b').
Proof.
  intros Hc Hc' H. unfold crc_byte in H.
  assert (forall x, is_u32 x -> Z.shiftr (Z.shiftr x 8) 24 = 0) as Htop.
  { intros x Hx. rewrite Z.shiftr_shiftr, Z.shiftr_div_pow2 by lia.
    apply Z.div_small. exact Hx. }
  assert (Z.lxor (Z.land c 255) (byte_val b) = Z.lxor (Z.land c' 255) (byte_val b')) as Hi.
  { apply crc_table_top_inj; [apply crc_index_range..|].
    apply (f_equal (fun x => Z.shiftr x 24)) in H.
    rewrite !Z.shiftr_lxor, !Htop, !Z.lxor_0_r in H by done. exact H. }
  split; [|done]. rewrite Hi in H.
  apply (f_equal (Z.lxor (crc_table (Z.lxor (Z.land c' 255) (byte_val b'))))) in H.
  rewrite <- !Z.lxor_assoc, !Z.lxor_nilpotent, !Z.lxor_0_l in H. exact H.
Qed.

Lemma split_low_byte c c' :
  Z.shiftr c 8 = Z.shiftr c' 8 -> Z.land c 255 = Z.land c' 255 -> c = c'.
Proof.
  change 255 with (Z.ones 8). rewrite !Z.land_ones, !Z.shiftr_div_pow2 by lia.
  intros H1 H2. rewrite (Z.div_mod c (2 ^ 8)), (Z.div_mod c' (2 ^ 8)) by lia. congruence.
Qed.

Lemma lxor_cancel_r a b x : Z.lxor a x = Z.lxor b x -> a = b.
Proof.
  intros H. apply (f_equal (fun y => Z.lxor y x)) in H.
  by rewrite !Z.lxor_assoc, !Z.lxor_nilpotent, !Z.lxor_0_r in H.
Qed.

Lemma lxor_cancel_l a b x : Z.lxor x a = Z.lxor x b -> a = b.
Proof. rewrite !(Z.lxor_comm x). apply lxor_cancel_r. Qed.

Lemma crc_byte_inj_reg c c' b :
  is_u32 c -> is_u32 c' -> crc_byte c b = crc_byte c' b -> c = c'.
Proof.
  intros Hc Hc' H. apply crc_byte_inj in H as [H1 H2]; [|done..].
  apply split_low_byte; [done|]. by eapply lxor_cancel_r.
Qed.

Lemma crc_byte_inj_data c b b' :
  is_u32 c -> crc_byte c b = crc_byte c b' -> b = b'.
Proof.
  intros Hc H. apply crc_byte_inj in H as [_ H]; [|done..].
  apply byte_val_inj. by eapply lxor_cancel_l.
Qed.

Lemma crc_update_inj_reg c c' data :
  is_u32 c -> is_u32 c' -> crc_update c data = crc_update c' data -> c = c'.
Proof.
  unfold crc_update. revert c c'; induction data as [|b data IH]; intros c c' Hc Hc' H;
    simpl in H; [done|].
  apply IH in H; [|by apply crc_byte_range..]. by eapply crc_byte_inj_reg.
Qed.

Lemma crc_update_app c p q : crc_update c (p ++ q) = crc_update (crc_update c p) q.
Proof. unfold crc_update. apply fold_left_app. Qed.

(** A corruption confined to one byte always changes the checksum. *)
Lemma checksum_detects_byte p x y q :
  x <> y -> checksum (p ++ x :: q) <> checksum (p ++ y :: q).
Proof.
  intros Hxy H. unfold checksum in H. apply lxor_cancel_r in H.
  rewrite !crc_update_app in H. simpl in H.
  assert (is_u32 (crc_update 0xffffffff p)) by (apply crc_update_range; unfold is_u32; lia).
  apply crc_update_inj_reg in H; [|by apply crc_byte_range..].
  apply crc_byte_inj_data in H; done.
Qed.

Lemma checksum_detects_insert (l : bytes) i b b0 :
  l !! i = Some b0 -> b <> b0 -> checksum (<[i:=b]> l) <> checksum l.
Proof.
  intros Hl Hb. apply lookup_lt_Some in Hl as Hlt.
  rewrite insert_take_drop by done. rewrite <- (take_drop_middle l i b0) at 3 by done.
  by apply checksum_detects_byte.
Qed.

(** ** Slices: Go's [l[a:b]] for [a <= b <= len(l)] *)

Definition slice {A} (a b : nat) (l : list A) : list A := take (b - a) (drop a l).

Lemma slice_app_skip {A} a b (l k : list A) :
  (length l <= a)%nat -> slice a b (l ++ k) = slice (a - length l) (b - length l) k.
Proof.
  intros H. unfold slice. rewrite drop_app_ge by done. f_equal. lia.
Qed.

Lemma slice_app_exact {A} b (l k : list A) :
  b = length l -> slice 0 b (l ++ k) = l.
Proof.
  intros ->. unfold slice. rewrite drop_0, Nat.sub_0_r. apply take_app_length.
Qed.

Lemma slice_exact {A} b (l : list A) : b = length l -> slice 0 b l = l.
Proof. intros ->. unfold slice. rewrite drop_0, Nat.sub_0_r. apply take_ge. done. Qed.

Lemma slice_cons_skip {A} a b (x : A) k :
  slice (S a) (S b) (x :: k) = slice a b k.
Proof. reflexivity. Qed.

(** [slices] evaluates constant slices of a concatenation of fields. *)
Ltac slices :=
  repeat first
    [ rewrite slice_cons_skip
    | rewrite slice_app_skip by (rewrite ?le_put_length; simpl; lia);
      rewrite ?le_put_length; simpl Nat.sub
    | rewrite slice_app_exact by (rewrite ?le_put_length; reflexivity)
    | rewrite slice_exact by (rewrite ?le_put_length; reflexivity) ].

#[global] Arguments le_put : simpl never.
#[global] Arguments le_get : simpl never.
#[global] Arguments slice : simpl never.
#[global] Arguments checksum : simpl never.
#[global] Arguments byte_of : simpl never.
#[global] Arguments byte_val : simpl never.
