(* ===== verification/Http.v ===== *)
(** * Byte strings and HTTP messages

    The parts of Go's strings and net/http packages the gateway and the HTTP
    API use. A header is the [http.Header] map, keys in canonical form. *)

From S2P Require Import Prelude Bytes.
From Stdlib Require Import Strings.Byte.
From stdpp Require Import base tactics numbers sets list.
From Stdlib Require Import ZArith Lia.
From Stdlib Require String.
Import String.StringSyntax.
#[local] Open Scope Z_scope.

(** ** Strings *)

(** The bytes of a string literal. *)
Definition lit (s : String.string) : bytes := String.list_byte_of_string s.
Arguments lit s%_string_scope.

Definition lower (b : byte) : byte :=
  if (65 <=? byte_val b) && (byte_val b <=? 90) then byte_of (byte_val b + 32) else b.

(** [strings.EqualFold] on the ASCII names of headers. *)
Definition EqualFold (a b : bytes) : bool := bool_decide ((lower <$> a) = (lower <$> b)).

(** [strings.TrimRight(addr, "/")]. *)
Fixpoint drop_while {A} (p : A -> bool) (l : list A) : list A :=
  match l with
  | x :: l' => if p x then drop_while p l' else l
  | [] => []
  end.
Definition TrimRight_slash (a : bytes) : bytes := reverse (drop_while (fun b => bool_decide (b = x2f)) (reverse a)).

(** The white space of [strings.TrimSpace], in UTF-8. *)
Definition spaces : list bytes :=
  [[x09]; [x0a]; [x0b]; [x0c]; [x0d]; [x20]; [xc2; x85]; [xc2; xa0]; [xe1; x9a; x80]; [xe2; x80; x80]; [xe2; x80; x81];
   [xe2; x80; x82]; [xe2; x80; x83]; [xe2; x80; x84]; [xe2; x80; x85]; [xe2; x80; x86]; [xe2; x80; x87]; [xe2; x80; x88];
   [xe2; x80; x89]; [xe2; x80; x8a]; [xe2; x80; xa8]; [xe2; x80; xa9]; [xe2; x80; xaf]; [xe2; x81; x9f]; [xe3; x80; x80]].

Fixpoint strip_one (table : list bytes) (l : bytes) : option bytes :=
  match table with
  | [] => None
  | s :: table => if bool_decide (take (length s) l = s) then Some (drop (length s) l) else strip_one table l
  end.

(** Every turn removes at least one byte. *)
Fixpoint strip_all (fuel : nat) (table : list bytes) (l : bytes) : bytes :=
  match fuel with
  | O => l
  | S fuel => match strip_one table l with Some l => strip_all fuel table l | None => l end
  end.

Definition TrimSpace (l : bytes) : bytes :=
  let l := strip_all (length l) spaces l in
  reverse (strip_all (length l) (reverse <$> spaces) (reverse l)).

(** [strings.Contains]. *)
Fixpoint Contains (l sub : bytes) : bool :=
  bool_decide (take (length sub) l = sub) || match l with [] => false | _ :: l => Contains l sub end.

(** [strings.Cut] and [strings.IndexByte] on one byte: the text before and
    after its first occurrence. *)
Fixpoint cut_at (b : byte) (s : bytes) : option (bytes * bytes) :=
  match s with
  | [] => None
  | x :: s => if bool_decide (x = b) then Some ([], s)
              else match cut_at b s with Some (l, r) => Some (x :: l, r) | None => None end
  end.

Lemma cut_at_app b l r : b ∉ l -> cut_at b (l ++ b :: r) = Some (l, r).
Proof.
  induction l as [|x l IH]; simpl; intros Hl; [by rewrite bool_decide_true|].
  rewrite bool_decide_false by set_solver. by rewrite IH by set_solver.
Qed.

Lemma cut_at_None b s : cut_at b s = None <-> b ∉ s.
Proof.
  induction s as [|x s IH]; simpl; [split; [intros _; apply not_elem_of_nil|done]|]. rewrite not_elem_of_cons, <- IH.
  case_bool_decide; [naive_solver|]. destruct (cut_at b s) as [[]|]; naive_solver.
Qed.

Lemma cut_at_spec b s l r : cut_at b s = Some (l, r) <-> s = l ++ b :: r /\ b ∉ l.
Proof.
  split; [|by intros [-> Hl]; apply cut_at_app].
  revert l. induction s as [|x s IH]; intros l; simpl; [done|]. case_bool_decide as Hx.
  - intros [= <- <-]. subst. split; [done|apply not_elem_of_nil].
  - destruct (cut_at b s) as [[l1 r1]|]; [|done]. intros [= <- <-].
    destruct (IH l1 eq_refl) as [-> Hl]. split; [done|set_solver].
Qed.

(** ** Requests and responses *)

Definition header := list (bytes * list bytes).

(** [r_path] is the decoded [URL.Path], [r_query] the raw query; the body is
    [None] when reading it fails. *)
Record request := MkRequest {
  r_method : bytes; r_path : bytes; r_query : bytes; r_header : header; r_body : option bytes }.

(** A header as a map from canonical names to values. *)
Definition header_Get (h : header) (name : bytes) : bytes :=
  match find (fun kv => bool_decide (kv.1 = name)) h with
  | Some (_, v :: _) => v
  | _ => []
  end.

Definition Authorization : bytes := lit "Authorization".
Definition MethodGet : bytes := lit "GET".
Definition MethodPut : bytes := lit "PUT".
Definition MethodDelete : bytes := lit "DELETE".
Definition MethodPost : bytes := lit "POST".
Definition MethodOptions : bytes := lit "OPTIONS".
