(* ===== verification/Format.v ===== *)
(** * Formatting

    What the code uses of fmt, strings and strconv to build its texts:
    decimal numbers, lists of strings, joining. *)

From S2P Require Import Prelude Bytes Http.
From stdpp Require Import base tactics list numbers.
From Stdlib Require Import Strings.Byte Strings.String Decimal DecimalString DecimalPos DecimalZ.
From Stdlib Require Import ZArith Lia.
#[local] Open Scope Z_scope.

(** [%d], and [strconv.FormatUint(n, 10)]. *)
Definition itoa (z : Z) : bytes := list_byte_of_string (NilZero.string_of_int (Z.to_int z)).

Lemma list_byte_of_string_inj s t : list_byte_of_string s = list_byte_of_string t -> s = t.
Proof.
  intros E. rewrite <- (string_of_list_byte_of_string s), <- (string_of_list_byte_of_string t). by rewrite E.
Qed.

Lemma to_int_nonnil z : Z.to_int z <> Pos Nil /\ Z.to_int z <> Neg Nil.
Proof. destruct z as [|p|p]; cbn; (split; [|done || idtac]); intros [= E]; by apply Unsigned.to_uint_nonnil in E. Qed.

Lemma itoa_inj a b : itoa a = itoa b -> a = b.
Proof.
  intros E%list_byte_of_string_inj. apply (f_equal NilZero.int_of_string) in E.
  destruct (to_int_nonnil a), (to_int_nonnil b). rewrite !NilZero.isi in E by done.
  injection E as E. by apply to_int_inj in E.
Qed.

(** [strings.Join]. *)
Fixpoint strings_Join (sep : bytes) (l : list bytes) : bytes :=
  match l with
  | [] => []
  | [x] => x
  | x :: l => x ++ sep ++ strings_Join sep l
  end.

(** [%v] of a slice of strings. *)
Definition brackets (l : list bytes) : bytes := lit "[" ++ strings_Join (lit " ") l ++ lit "]".
