(* ===== verification/Json.v ===== *)
(** * JSON texts

    What the code uses of encoding/json: the texts [Marshal], [Encoder.Encode]
    and [MarshalIndent] write, the values [Unmarshal] reads, and the UTF-8
    decoding both rest on. A text is read to a value of type [json] first, as
    [Unmarshal] checks the whole text before it stores anything; the members
    of an object are then matched to the fields of a struct in the order they
    come. *)

From S2P Require Import Prelude Bytes Http Format.
From stdpp Require Import base tactics list numbers gmap.
From Stdlib Require Import Strings.Byte.
From Stdlib Require DecimalString Decimal DecimalFacts DecimalPos DecimalZ.
From Stdlib Require Import ZArith Lia.
From Stdlib Require String.
Import String.StringSyntax.
#[local] Open Scope Z_scope.

(** ** UTF-8 *)

(** One step of [utf8.DecodeRune]: a code point's bytes, or a byte that starts
    none. *)
Inductive rune := Good (bs : bytes) | Bad (b : byte).

Definition in_range (lo hi : Z) (b : byte) : bool := (lo <=? byte_val b) && (byte_val b <=? hi).
Definition continuation : byte -> bool := in_range 128 191.

Definition two_bytes (b c : byte) : bool := in_range 194 223 b && continuation c.
Definition three_bytes (b c d : byte) : bool :=
  ((in_range 224 224 b && in_range 160 191 c) || (in_range 225 236 b && continuation c) ||
   (in_range 237 237 b && in_range 128 159 c) || (in_range 238 239 b && continuation c)) && continuation d.
Definition four_bytes (b c d e : byte) : bool :=
  ((in_range 240 240 b && in_range 144 191 c) || (in_range 241 243 b && continuation c) ||
   (in_range 244 244 b && in_range 128 143 c)) && continuation d && continuation e.

Definition DecodeRune (s : bytes) : option (rune * bytes) :=
  match s with
  | [] => None
  | b :: s1 =>
      if byte_val b <? 128 then Some (Good [b], s1)
      else match s1 with
           | c :: s2 =>
               if two_bytes b c then Some (Good [b; c], s2)
               else match s2 with
                    | d :: s3 =>
                        if three_bytes b c d then Some (Good [b; c; d], s3)
                        else match s3 with
                             | e :: s4 => if four_bytes b c d e then Some (Good [b; c; d; e], s4) else Some (Bad b, s1)
                             | [] => Some (Bad b, s1)
                             end
                    | [] => Some (Bad b, s1)
                    end
           | [] => Some (Bad b, s1)
           end
  end.

(** Every step takes at least one byte. *)
Fixpoint runes_within (fuel : nat) (s : bytes) : list rune :=
  match fuel with
  | O => []
  | S fuel => match DecodeRune s with None => [] | Some (r, s) => r :: runes_within fuel s end
  end.
Definition runes (s : bytes) : list rune := runes_within (length s) s.

(** U+FFFD, which stands for a byte that is not UTF-8. *)
Definition replacement : bytes := [xef; xbf; xbd].
Definition shown (r : rune) : bytes := match r with Good bs => bs | Bad _ => replacement end.
(** [strings.ToValidUTF8] with a replacement for every single byte. *)
Definition sanitize (s : bytes) : bytes := concat (shown <$> runes s).
Definition ValidString (s : bytes) : bool := forallb (fun r => match r with Good _ => true | Bad _ => false end) (runes s).

(** [utf8.AppendRune]; a surrogate or a number out of range is U+FFFD. *)
Definition AppendRune (c : Z) : bytes :=
  if c <? 128 then [byte_of c]
  else if c <? 2048 then [byte_of (192 + c / 64); byte_of (128 + c mod 64)]
  else if (55296 <=? c) && (c <=? 57343) || (1114111 <? c) then replacement
  else if c <? 65536 then [byte_of (224 + c / 4096); byte_of (128 + c / 64 mod 64); byte_of (128 + c mod 64)]
  else [byte_of (240 + c / 262144); byte_of (128 + c / 4096 mod 64); byte_of (128 + c / 64 mod 64); byte_of (128 + c mod 64)].

(** ** Writing strings *)

Definition hex_digit (n : Z) : byte := byte_of (if n <? 10 then 48 + n else 87 + n).
(** [\u] and four hexadecimal digits, for a code below 256. *)
Definition u_escape (c : Z) : bytes := [x5c; x75; x30; x30; hex_digit (c / 16); hex_digit (c mod 16)].

(** The escapes of one character, with those for HTML. *)
Definition escape_ascii (b : byte) : bytes :=
  if bool_decide (b = x5c) then [x5c; x5c]
  else if bool_decide (b = x22) then [x5c; x22]
  else if bool_decide (b = x08) then lit "\b"
  else if bool_decide (b = x0c) then lit "\f"
  else if bool_decide (b = x0a) then lit "\n"
  else if bool_decide (b = x0d) then lit "\r"
  else if bool_decide (b = x09) then lit "\t"
  else if (byte_val b <? 32) || bool_decide (b ∈ [x3c; x3e; x26]) then u_escape (byte_val b)
  else [b].

Definition escape (r : rune) : bytes :=
  match r with
  | Bad _ => lit "\ufffd"
  | Good [b] => escape_ascii b
  | Good bs => if bool_decide (bs = [xe2; x80; xa8]) then lit "\u2028"
               else if bool_decide (bs = [xe2; x80; xa9]) then lit "\u2029" else bs
  end.

Definition quoted (s : bytes) : bytes := [x22] ++ concat (escape <$> runes s) ++ [x22].

(** ** Reading strings *)

Definition hex_val (b : byte) : option Z :=
  let c := byte_val b in
  if (48 <=? c) && (c <=? 57) then Some (c - 48)
  else if (97 <=? c) && (c <=? 102) then Some (c - 87)
  else if (65 <=? c) && (c <=? 70) then Some (c - 55)
  else None.

(** Four hexadecimal digits. *)
Definition getu4 (s : bytes) : option (Z * bytes) :=
  match s with
  | a :: b :: c :: d :: s =>
      match hex_val a, hex_val b, hex_val c, hex_val d with
      | Some a, Some b, Some c, Some d => Some (((a * 16 + b) * 16 + c) * 16 + d, s)
      | _, _, _, _ => None
      end
  | _ => None
  end.

(** After [\u]: a pair of surrogates is one code point. *)
Definition unicode_escape (s : bytes) : option (bytes * bytes) :=
  match getu4 s with
  | None => None
  | Some (c, s1) =>
      if (55296 <=? c) && (c <=? 57343) then
        match (if bool_decide (take 2 s1 = [x5c; x75]) then getu4 (drop 2 s1) else None) with
        | Some (c2, s3) =>
            if (c <=? 56319) && (56320 <=? c2) && (c2 <=? 57343)
            then Some (AppendRune ((c - 55296) * 1024 + (c2 - 56320) + 65536), s3)
            else Some (replacement, s1)
        | None => Some (replacement, s1)
        end
      else Some (AppendRune c, s1)
  end.

(** What a backslash and one character stand for. *)
Definition simple_escape (b : byte) : option byte :=
  match b with
  | x22 => Some x22 | x5c => Some x5c | x2f => Some x2f
  | x62 => Some x08 | x66 => Some x0c | x6e => Some x0a | x72 => Some x0d | x74 => Some x09
  | _ => None
  end.

(** One character of a string, after its opening quote. *)
Definition read_char (s : bytes) : option (bytes * bytes) :=
  match s with
  | [] => None
  | b :: s1 =>
      if bool_decide (b = x5c) then
        match s1 with
        | [] => None
        | e :: s2 =>
            if bool_decide (e = x75) then unicode_escape s2
            else match simple_escape e with Some c => Some ([c], s2) | None => None end
        end
      else if byte_val b <? 32 then None
      else match DecodeRune s with Some (r, s) => Some (shown r, s) | None => None end
  end.

(** Up to the closing quote; every turn takes at least one byte. *)
Fixpoint read_string (fuel : nat) (s : bytes) : option (bytes * bytes) :=
  match fuel with
  | O => None
  | S fuel =>
      if bool_decide (head s = Some x22) then Some ([], tail s)
      else match read_char s with
           | None => None
           | Some (c, s) => match read_string fuel s with Some (cs, s) => Some (c ++ cs, s) | None => None end
           end
  end.

(** ** Values *)

(** A number is its literal. *)
Unset Elimination Schemes.
Inductive json :=
| JNull
| JBool (b : bool)
| JNum (literal : bytes)
| JStr (s : bytes)
| JArr (l : list json)
| JObj (l : list (bytes * json)).
Set Elimination Schemes.

Lemma json_ind (P : json -> Prop) :
  P JNull -> (forall b, P (JBool b)) -> (forall n, P (JNum n)) -> (forall s, P (JStr s)) ->
  (forall l, Forall P l -> P (JArr l)) -> (forall l, Forall (fun m => P m.2) l -> P (JObj l)) -> forall j, P j.
Proof.
  intros Hn Hb Hm Hs Ha Ho. fix IH 1. intros [|b|n|s|l|l]; [done..| |].
  - apply Ha. induction l as [|j l IHl]; [constructor|constructor; [apply IH|done]].
  - apply Ho. induction l as [|[k j] l IHl]; [constructor|constructor; [apply IH|done]].
Qed.

Definition is_space (b : byte) : bool := bool_decide (b ∈ [x20; x09; x0a; x0d]).
Definition skip_space (s : bytes) : bytes := drop_while is_space s.

Definition is_digit : byte -> bool := in_range 48 57.

Fixpoint take_while (p : byte -> bool) (s : bytes) : bytes * bytes :=
  match s with
  | b :: s' => if p b then let '(l, r) := take_while p s' in (b :: l, r) else ([], s)
  | [] => ([], [])
  end.

(** At least one digit. *)
Definition some_digits (s : bytes) : option (bytes * bytes) :=
  match take_while is_digit s with ([], _) => None | (l, r) => Some (l, r) end.

Definition starts (bs : list byte) (s : bytes) : bool := match s with b :: _ => bool_decide (b ∈ bs) | [] => false end.

Definition int_part (s : bytes) : option (bytes * bytes) :=
  if starts [x30] s then Some ([x30], tail s) else some_digits s.

Definition frac_part (s : bytes) : option (bytes * bytes) :=
  if starts [x2e] s then match some_digits (tail s) with Some (l, r) => Some (x2e :: l, r) | None => None end
  else Some ([], s).

Definition exp_part (s : bytes) : option (bytes * bytes) :=
  if starts [x65; x45] s then
    let e := take 1 s in
    let s := drop 1 s in
    let '(sign, s) := if starts [x2b; x2d] s then (take 1 s, drop 1 s) else ([], s) in
    match some_digits s with Some (l, r) => Some (e ++ sign ++ l, r) | None => None end
  else Some ([], s).

Definition read_number (s : bytes) : option (bytes * bytes) :=
  let '(sign, s) := if starts [x2d] s then ([x2d], drop 1 s) else ([], s) in
  match int_part s with
  | None => None
  | Some (i, s) =>
      match frac_part s with
      | None => None
      | Some (f, s) => match exp_part s with None => None | Some (e, s) => Some (sign ++ i ++ f ++ e, s) end
      end
  end.

Definition strip (w s : bytes) : option bytes :=
  if bool_decide (take (length w) s = w) then Some (drop (length w) s) else None.

(** A punctuation mark after white space. *)
Definition token (b : byte) (s : bytes) : option bytes :=
  let s := skip_space s in if starts [b] s then Some (tail s) else None.

(** A string after white space. *)
Definition read_key (s : bytes) : option (bytes * bytes) :=
  match token x22 s with Some s => read_string (length s) s | None => None end.

(** Items up to a closing mark, with commas between them, from the first item
    on. *)
Fixpoint read_items {A} (item : bytes -> option (A * bytes)) (close : byte) (n : nat) (s : bytes) : option (list A * bytes) :=
  match n with
  | O => None
  | S n =>
      match item s with
      | None => None
      | Some (j, s) =>
          match token close s, token x2c s with
          | Some s, _ => Some ([j], s)
          | None, Some s => match read_items item close n s with Some (l, s) => Some (j :: l, s) | None => None end
          | None, None => None
          end
      end
  end.

(** A member of an object; [rec] reads its value. *)
Definition read_member (rec : bytes -> option (json * bytes)) (s : bytes) : option (bytes * json * bytes) :=
  match read_key s with
  | None => None
  | Some (k, s) =>
      match token x3a s with
      | None => None
      | Some s => match rec s with Some (j, s) => Some (k, j, s) | None => None end
      end
  end.

Definition words : list (bytes * json) := [(lit "null", JNull); (lit "true", JBool true); (lit "false", JBool false)].

Fixpoint read_word (ws : list (bytes * json)) (s : bytes) : option (json * bytes) :=
  match ws with
  | [] => None
  | (w, j) :: ws => match strip w s with Some s => Some (j, s) | None => read_word ws s end
  end.

(** A value with at most [depth - 1] arrays and objects around or in it. *)
Fixpoint read_value (depth : nat) (s : bytes) : option (json * bytes) :=
  match depth with
  | O => None
  | S depth =>
      let s := skip_space s in
      if starts [x7b] s then
        let s := tail s in
        match depth, token x7d s with
        | O, _ => None
        | _, Some s => Some (JObj [], s)
        | _, None => match read_items (read_member (read_value depth)) x7d (length s) s with Some (l, s) => Some (JObj l, s) | None => None end
        end
      else if starts [x5b] s then
        let s := tail s in
        match depth, token x5d s with
        | O, _ => None
        | _, Some s => Some (JArr [], s)
        | _, None => match read_items (read_value depth) x5d (length s) s with Some (l, s) => Some (JArr l, s) | None => None end
        end
      else if starts [x22] s then match read_key s with Some (t, s) => Some (JStr t, s) | None => None end
      else match read_word words s with
           | Some r => Some r
           | None => match read_number s with Some (n, s) => Some (JNum n, s) | None => None end
           end
  end.

Definition maxNestingDepth : nat := Z.to_nat 10000.

(** A whole text. *)
Definition read_json (s : bytes) : option json :=
  match read_value (S maxNestingDepth) s with
  | Some (j, s) => if bool_decide (skip_space s = []) then Some j else None
  | None => None
  end.

(** ** Writing values *)

Section Layout.
(** What separates the parts of a text: nothing, or the line breaks and
    indentation of [MarshalIndent] at a depth, and the space after a colon. *)
Context (line : nat -> bytes) (gap : bytes).

Fixpoint print (d : nat) (j : json) : bytes :=
  match j with
  | JNull => lit "null"
  | JBool true => lit "true"
  | JBool false => lit "false"
  | JNum n => n
  | JStr s => quoted s
  | JArr [] => lit "[]"
  | JArr l => [x5b] ++ strings_Join [x2c] (map (fun j => line (S d) ++ print (S d) j) l) ++ line d ++ [x5d]
  | JObj [] => lit "{}"
  | JObj l =>
      [x7b] ++ strings_Join [x2c] (map (fun m => line (S d) ++ quoted m.1 ++ [x3a] ++ gap ++ print (S d) m.2) l) ++
      line d ++ [x7d]
  end.
End Layout.

Definition Marshal (j : json) : bytes := print (fun _ => []) [] 0 j.
(** [MarshalIndent(v, "", "  ")]. *)
Definition MarshalIndent (j : json) : bytes := print (fun d => x0a :: concat (replicate d [x20; x20])) [x20] 0 j.
(** [json.NewEncoder(w).Encode(v)]. *)
Definition Encode (j : json) : bytes := Marshal j ++ [x0a].

Definition JInt (z : Z) : json := JNum (itoa z).

(** Members with [omitempty]: none for the zero value. *)
Definition omit_string (name v : bytes) : list (bytes * json) := if bool_decide (v = []) then [] else [(name, JStr v)].
Definition omit_int (name : bytes) (v : Z) : list (bytes * json) := if v =? 0 then [] else [(name, JInt v)].
Definition omit_bool (name : bytes) (v : bool) : list (bytes * json) := if v then [(name, JBool true)] else [].

(** What is left of a value once its strings have been through a text. *)
Fixpoint clean_json (j : json) : json :=
  match j with
  | JStr s => JStr (sanitize s)
  | JArr l => JArr (map clean_json l)
  | JObj l => JObj (map (fun m => (sanitize m.1, clean_json m.2)) l)
  | j => j
  end.

(** Arrays and objects nested at most [n] deep, numbers that are JSON
    literals. *)
Fixpoint nested (n : nat) (j : json) : Prop :=
  match j with
  | JNum l => read_number l = Some (l, [])
  | JArr l => match n with O => False | S n => Forall (nested n) l end
  | JObj l => match n with O => False | S n => Forall (fun m => nested n m.2) l end
  | _ => True
  end.

(** ** Runes *)

Ltac bytes_cases := repeat (case_match; simplify_eq/=; try done).

Ltac taken l := exists l; split_and!; [done|done|by eauto].

Lemma DecodeRune_split s r s' : DecodeRune s = Some (r, s') ->
  exists bs, s = bs ++ s' /\ bs <> [] /\ (r = Good bs \/ exists b, r = Bad b /\ bs = [b]).
Proof.
  unfold DecodeRune. destruct s as [|b s1]; [done|].
  destruct (byte_val b <? 128); [intros [= <- <-]; taken [b]|].
  destruct s1 as [|c s2]; [intros [= <- <-]; taken [b]|].
  destruct (two_bytes b c); [intros [= <- <-]; taken [b; c]|].
  destruct s2 as [|d s3]; [intros [= <- <-]; taken [b]|].
  destruct (three_bytes b c d); [intros [= <- <-]; taken [b; c; d]|].
  destruct s3 as [|e s4]; [intros [= <- <-]; taken [b]|].
  destruct (four_bytes b c d e); intros [= <- <-]; [taken [b; c; d; e]|taken [b]].
Qed.

(** A code point is read from its own bytes, whatever follows. *)
Lemma DecodeRune_good bs s s' rest : DecodeRune s = Some (Good bs, s') -> DecodeRune (bs ++ rest) = Some (Good bs, rest).
Proof.
  unfold DecodeRune. destruct s as [|b s1]; [done|].
  destruct (byte_val b <? 128) eqn:E1; [intros [= <- <-]; cbn [app]; by rewrite E1|].
  destruct s1 as [|c s2]; [done|].
  destruct (two_bytes b c) eqn:E2; [intros [= <- <-]; cbn [app]; by rewrite E1, E2|].
  destruct s2 as [|d s3]; [done|].
  destruct (three_bytes b c d) eqn:E3; [intros [= <- <-]; cbn [app]; by rewrite E1, E2, E3|].
  destruct s3 as [|e s4]; [done|].
  destruct (four_bytes b c d e) eqn:E4; intros [= <- <-]; cbn [app]. by rewrite E1, E2, E3, E4.
Qed.

(** The runes of a text, as a relation. *)
Inductive spells : bytes -> list rune -> Prop :=
| spells_nil : spells [] []
| spells_cons s r s' rs : DecodeRune s = Some (r, s') -> spells s' rs -> spells s (r :: rs).

Lemma runes_spells s : spells s (runes s).
Proof.
  unfold runes. remember (length s) as n eqn:E. assert (length s <= n)%nat as Hn by lia. clear E.
  revert s Hn. induction n as [|n IH]; intros s Hn; cbn.
  - destruct s; [constructor|cbn in Hn; lia].
  - destruct (DecodeRune s) as [[r s']|] eqn:E.
    + econstructor; [done|]. apply IH. apply DecodeRune_split in E as (bs & -> & Hb & _).
      rewrite length_app in Hn. destruct bs; [done|cbn in Hn; lia].
    + destruct s as [|b s]; [constructor|]. exfalso. revert E. unfold DecodeRune. repeat case_match; done.
Qed.

Lemma valid_sanitize s : ValidString s = true -> sanitize s = s.
Proof.
  unfold ValidString, sanitize. induction (runes_spells s) as [|s r s' rs E _ IH]; [done|]. cbn. rewrite andb_true_iff.
  intros [Hr Hrs]. apply DecodeRune_split in E as (bs & -> & _ & [->|(b & -> & _)]); [|done]. cbn. by rewrite IH.
Qed.

Lemma sanitize_nil s : sanitize s = [] -> s = [].
Proof.
  unfold sanitize. destruct (runes_spells s) as [|s r s' rs E _]; [done|]. cbn. intros [Hr _]%app_nil. exfalso.
  apply DecodeRune_split in E as (bs & _ & Hbs & [->|(b & -> & _)]); done.
Qed.

(** ** Strings come back *)

Lemma escape_ascii_read b : byte_val b < 128 -> forall rest,
  read_char (escape_ascii b ++ rest) = Some ([b], rest) /\ head (escape_ascii b ++ rest) <> Some x22.
Proof. intros Hb rest. destruct b; try (exfalso; vm_compute in Hb; discriminate); split; vm_compute; congruence. Qed.

Lemma DecodeRune_head s bs s' : DecodeRune s = Some (Good bs, s') ->
  exists b t, bs = b :: t /\ (byte_val b < 128 -> t = []) /\ (t = [] -> byte_val b < 128).
Proof.
  unfold DecodeRune. destruct s as [|b s1]; [done|].
  destruct (byte_val b <? 128) eqn:E; zbool; [intros [= <- <-]; by exists b, []|].
  repeat case_match; intros [= <- <-] || intros [=]; subst; (eexists b, _; split; [done|]; split; [lia|done]).
Qed.

Lemma escape_read s r s' rest : DecodeRune s = Some (r, s') ->
  read_char (escape r ++ rest) = Some (shown r, rest) /\ head (escape r ++ rest) <> Some x22.
Proof.
  intros E. destruct r as [bs|b]; [|split; vm_compute; congruence].
  destruct (DecodeRune_head _ _ _ E) as (b & t & -> & Hasc & Hone). cbn [escape shown].
  destruct t as [|c t]; [apply escape_ascii_read; auto|].
  case_bool_decide as E1; [rewrite E1; split; vm_compute; congruence|].
  case_bool_decide as E2; [rewrite E2; split; vm_compute; congruence|].
  assert (128 <= byte_val b) as Hb by (destruct (Z_lt_le_dec (byte_val b) 128); [by specialize (Hasc ltac:(done))|done]).
  assert (b <> x5c /\ b <> x22) as [Hn1 Hn2] by (split; intros ->; vm_compute in Hb; congruence).
  cbn [app head]. split; [|congruence]. unfold read_char. rewrite bool_decide_eq_false_2 by done.
  destruct (byte_val b <? 32) eqn:E3; zbool; [lia|].
  change (b :: c :: t ++ rest) with ((b :: c :: t) ++ rest). by rewrite (DecodeRune_good (b :: c :: t) s s' rest E).
Qed.

Lemma escape_nonempty s r s' : DecodeRune s = Some (r, s') -> escape r <> [].
Proof.
  intros E Hn. destruct (escape_read s r s' [] E) as [Hr _]. rewrite Hn in Hr. done.
Qed.

Lemma read_string_escaped s rs rest fuel : spells s rs -> (length rs < fuel)%nat ->
  read_string fuel (concat (escape <$> rs) ++ x22 :: rest) = Some (concat (shown <$> rs), rest).
Proof.
  intros Hs. revert fuel. induction Hs as [|s r s' rs E _ IH]; intros [|fuel] Hf; cbn in Hf; try lia; [done|].
  cbn [fmap list_fmap concat read_string]. rewrite <- app_assoc.
  destruct (escape_read s r s' (concat (escape <$> rs) ++ x22 :: rest) E) as [Hr Hh].
  rewrite bool_decide_eq_false_2 by done. rewrite Hr. by rewrite (IH fuel ltac:(lia)).
Qed.

Lemma escaped_length s rs : spells s rs -> (length rs <= length (concat (escape <$> rs)))%nat.
Proof.
  induction 1 as [|s r s' rs E _ IH]; [done|]. rewrite fmap_cons. cbn [concat length]. rewrite length_app.
  pose proof (escape_nonempty _ _ _ E). destruct (escape r); [done|]. cbn [length]. lia.
Qed.

(** ** White space and punctuation *)

Definition blank (w : bytes) : Prop := Forall (fun b => is_space b = true) w.

Lemma skip_blank w s : blank w -> skip_space (w ++ s) = skip_space s.
Proof. unfold skip_space. induction 1 as [|b w Hb _ IH]; [done|]. cbn. by rewrite Hb. Qed.

Lemma skip_solid b s : is_space b = false -> skip_space (b :: s) = b :: s.
Proof. intros Hb. unfold skip_space. cbn. by rewrite Hb. Qed.

Lemma token_here b w s : is_space b = false -> blank w -> token b (w ++ b :: s) = Some s.
Proof.
  intros Hb Hw. unfold token. rewrite skip_blank, skip_solid by done. cbn [starts].
  by rewrite bool_decide_eq_true_2 by set_solver.
Qed.

Lemma token_other b c w s : is_space c = false -> b <> c -> blank w -> token b (w ++ c :: s) = None.
Proof.
  intros Hb Hne Hw. unfold token. rewrite skip_blank, skip_solid by done. cbn [starts].
  by rewrite bool_decide_eq_false_2 by set_solver.
Qed.

Lemma token_now b s : is_space b = false -> token b (b :: s) = Some s.
Proof. intros Hb. apply (token_here b []); [done|constructor]. Qed.

Lemma token_not b c s : is_space c = false -> b <> c -> token b (c :: s) = None.
Proof. intros Hc Hne. apply (token_other b c []); [done|done|constructor]. Qed.

Lemma read_key_quoted w s rest : blank w -> read_key (w ++ quoted s ++ rest) = Some (sanitize s, rest).
Proof.
  intros Hw. unfold read_key, quoted. rewrite <- !app_assoc. cbn [app]. rewrite token_here by done.
  pose proof (runes_spells s) as Hs. apply (read_string_escaped s); [done|].
  pose proof (escaped_length _ _ Hs). rewrite length_app. cbn. lia.
Qed.

(** ** Numbers *)

Definition number_bytes : list byte := [x30; x31; x32; x33; x34; x35; x36; x37; x38; x39; x2e; x65; x45].

(** What may follow a number. *)
Definition ends_number (s : bytes) : Prop := starts number_bytes s = false.

Lemma digit_number b : is_digit b = true -> b ∈ number_bytes.
Proof. intros Hb. destruct b; try (vm_compute in Hb; discriminate); unfold number_bytes; set_solver. Qed.

Lemma starts_app bs l rest : starts bs rest = false -> starts bs (l ++ rest) = starts bs l.
Proof. by destruct l. Qed.

Lemma ends_starts bs rest : ends_number rest -> bs ⊆ number_bytes -> starts bs rest = false.
Proof.
  intros He Hb. unfold ends_number in He. destruct rest as [|b rest]; [done|]. cbn in *.
  apply bool_decide_eq_false in He. apply bool_decide_eq_false. set_solver.
Qed.

(** A reader that takes no more when more follows. *)
Definition steady (f : bytes -> option (bytes * bytes)) : Prop :=
  forall l a b rest, ends_number rest -> f l = Some (a, b) -> f (l ++ rest) = Some (a, b ++ rest).

Lemma take_while_app p l a b rest : take_while p l = (a, b) -> match rest with c :: _ => p c = false | [] => True end ->
  take_while p (l ++ rest) = (a, b ++ rest).
Proof.
  revert a b. induction l as [|c l IH]; intros a b; cbn.
  - intros [= <- <-] Hr. destruct rest as [|c rest]; [done|]. cbn. by rewrite Hr.
  - destruct (p c) eqn:Ep; [|by intros [= <- <-]]. destruct (take_while p l) as [a' b']. intros [= <- <-] Hr.
    by rewrite (IH a' b').
Qed.

Lemma steady_digits : steady some_digits.
Proof.
  intros l a b rest He. unfold some_digits. destruct (take_while is_digit l) as [a' b'] eqn:E.
  intros Ha. rewrite (take_while_app _ _ a' b'); [by destruct a'; simplify_eq|done|].
  destruct rest as [|c rest]; [done|]. apply not_true_is_false. intros Hc%digit_number.
  unfold ends_number in He. cbn in He. by apply bool_decide_eq_false in He.
Qed.

Lemma steady_int : steady int_part.
Proof.
  intros [|c l] a b rest He; [done|]. unfold int_part. cbn [app starts tail]. case_bool_decide; [by intros [= <- <-]|].
  by apply (steady_digits (c :: l)).
Qed.

Lemma steady_frac : steady frac_part.
Proof.
  intros l a b rest He. unfold frac_part. rewrite starts_app by (by eapply ends_starts; [|set_solver]).
  destruct (starts [x2e] l) eqn:E; [|by intros [= <- <-]]. destruct l as [|c l]; [done|]. cbn [tail app].
  destruct (some_digits l) as [[a' b']|] eqn:Ed; [|done]. intros [= <- <-]. by rewrite (steady_digits _ _ _ _ He Ed).
Qed.

Lemma steady_exp : steady exp_part.
Proof.
  intros l a b rest He. unfold exp_part. rewrite starts_app by (by eapply ends_starts; [|set_solver]).
  destruct (starts [x65; x45] l) eqn:E; [|by intros [= <- <-]]. destruct l as [|c l]; [done|]. cbn [take drop app].
  rewrite !take_0, !drop_0.
  destruct l as [|d l]; [done|]. cbn [starts app take drop]. rewrite !take_0, !drop_0. case_bool_decide;
    (destruct (some_digits _) as [[a' b']|] eqn:Ed; [|done]); intros [= <- <-].
  - by rewrite (steady_digits _ _ _ _ He Ed).
  - change (d :: l ++ rest) with ((d :: l) ++ rest). by rewrite (steady_digits (d :: l) _ _ _ He Ed).
Qed.

Lemma steady_number : steady read_number.
Proof.
  assert (forall sign l a b rest, ends_number rest ->
    match int_part l with
    | None => None
    | Some (i, s) => match frac_part s with None => None | Some (f, s) =>
        match exp_part s with None => None | Some (e, s) => Some (sign ++ i ++ f ++ e, s) end end
    end = Some (a, b) ->
    match int_part (l ++ rest) with
    | None => None
    | Some (i, s) => match frac_part s with None => None | Some (f, s) =>
        match exp_part s with None => None | Some (e, s) => Some (sign ++ i ++ f ++ e, s) end end
    end = Some (a, b ++ rest)) as Hu.
  { intros sign l a b rest He. destruct (int_part l) as [[i s]|] eqn:Ei; [|done]. rewrite (steady_int _ _ _ _ He Ei).
    destruct (frac_part s) as [[f s2]|] eqn:Ef; [|done]. rewrite (steady_frac _ _ _ _ He Ef).
    destruct (exp_part s2) as [[e s3]|] eqn:Ee; [|done]. rewrite (steady_exp _ _ _ _ He Ee). by intros [= <- <-]. }
  intros l a b rest He. unfold read_number. destruct l as [|c l]; [done|]. cbn [app starts drop].
  case_bool_decide; [rewrite !drop_0; by apply Hu|by apply (Hu [] (c :: l))].
Qed.

Lemma number_head l : read_number l = Some (l, []) -> exists b t, l = b :: t /\ (is_digit b = true \/ b = x2d).
Proof.
  unfold read_number. destruct l as [|c l]; [done|]. intros E. exists c, l. split; [done|]. cbn [starts] in E.
  case_bool_decide as H; [right; set_solver|]. left. unfold int_part in E. cbn [starts tail] in E.
  case_bool_decide as H0; [assert (c = x30) as -> by set_solver; done|].
  unfold some_digits in E. cbn [take_while] in E. by destruct (is_digit c).
Qed.

(** ** Values come back *)

Lemma solid_ends b s : b ∉ number_bytes -> ends_number (b :: s).
Proof. intros Hb. unfold ends_number. cbn. by apply bool_decide_eq_false. Qed.

Lemma space_ends b : is_space b = true -> b ∉ number_bytes.
Proof.
  intros Hb. apply (bool_decide_eq_false_1 (b ∈ number_bytes)). revert Hb. by destruct b; vm_compute.
Qed.

Lemma blank_ends w b s : blank w -> b ∉ number_bytes -> ends_number (w ++ b :: s).
Proof.
  intros Hw Hb. destruct Hw as [|c w Hc _]; [by apply solid_ends|].
  by apply solid_ends, space_ends.
Qed.

Section ReadItems.
Context {A B : Type} (item : bytes -> option (B * bytes)) (close : byte) (f : A -> bytes) (g : A -> B).
Context (Hclose : is_space close = false) (Hcomma : close <> x2c) (Hnum : close ∉ number_bytes).

(** An item is read back from its text, and its text is not empty. *)
Definition item_reads (x : A) : Prop := (forall rest, ends_number rest -> item (f x ++ rest) = Some (g x, rest)) /\ f x <> [].

Lemma Join_length l : Forall item_reads l -> (length l <= length (strings_Join [x2c] (map f l)))%nat.
Proof.
  induction 1 as [|x l [_ Hx] _ IH]; [done|]. assert (1 <= length (f x))%nat by (destruct (f x); [done|cbn; lia]).
  destruct l as [|y l]; [done|]. cbn [map strings_Join length] in *. rewrite !length_app. cbn [length]. lia.
Qed.

Lemma read_items_Join l w rest n : Forall item_reads l -> l <> [] -> blank w -> (length l <= n)%nat ->
  read_items item close n (strings_Join [x2c] (map f l) ++ w ++ close :: rest) = Some (map g l, rest).
Proof.
  intros Hl Hne Hw. revert n. induction Hl as [|x l [Hx _] Hl IH]; intros n Hn; [done|].
  destruct n as [|n]; [cbn in Hn; lia|]. cbn [read_items]. destruct l as [|y l].
  - cbn [map strings_Join]. rewrite Hx by (by apply blank_ends). by rewrite token_here.
  - cbn [map] in *. remember (f y) as fy. cbn [strings_Join] in *. rewrite <- !app_assoc. cbn [app] in *.
    rewrite Hx by (apply solid_ends; unfold number_bytes; set_solver).
    rewrite token_not, token_now by done. rewrite IH by (done || (cbn in *; lia)). done.
Qed.
End ReadItems.

Section Reads.
Context (line : nat -> bytes) (gap : bytes).
Context (Hline : forall d, blank (line d)) (Hgap : blank gap).

Lemma digit_solid b : is_digit b = true \/ b = x2d -> is_space b = false /\ b ∉ [x7b; x5b; x22; x5d; x6e; x74; x66].
Proof.
  intros [Hb| ->]; [|split; [done|set_solver]]. destruct b; try (vm_compute in Hb; discriminate); (split; [done|set_solver]).
Qed.

(** No text starts with a space or a bracket that closes. *)
Lemma print_head n d j : nested n j -> exists b t, print line gap d j = b :: t /\ is_space b = false /\ b <> x5d.
Proof.
  destruct j as [|[]|l|s|[|]|[|]]; intros Hn; try (eexists _, _; split; [reflexivity|]; split; done).
  destruct (number_head l ltac:(by destruct n)) as (b & t & -> & Hb). exists b, t. apply digit_solid in Hb as [Hs Hb].
  split; [done|]. split; [done|]. set_solver.
Qed.

Lemma read_word_number l rest : read_number l = Some (l, []) -> read_word words (l ++ rest) = None.
Proof.
  intros (b & t & -> & Hb)%number_head. apply digit_solid in Hb as [_ Hb].
  assert (forall c w, c ∈ [x6e; x74; x66] -> strip (c :: w) (b :: t ++ rest) = None) as Hs.
  { intros c w Hc. unfold strip. rewrite bool_decide_eq_false_2; [done|]. cbn. intros [= -> _]. set_solver. }
  unfold words, read_word. change (lit "null") with (x6e :: lit "ull"). change (lit "true") with (x74 :: lit "rue").
  change (lit "false") with (x66 :: lit "alse"). cbn [app]. by rewrite !Hs by set_solver.
Qed.

Lemma read_number_value n l w rest : read_number l = Some (l, []) -> ends_number rest -> blank w ->
  read_value (S n) (w ++ l ++ rest) = Some (JNum l, rest).
Proof.
  intros Hl He Hw. pose proof (read_word_number l rest Hl) as Hword. pose proof (steady_number _ _ _ _ He Hl) as Hn.
  destruct (number_head l Hl) as (b & t & -> & Hb). apply digit_solid in Hb as [Hs Hb].
  cbn [read_value]. rewrite skip_blank by done. cbn [app] in *. rewrite skip_solid by done. cbn [starts].
  rewrite !bool_decide_eq_false_2 by set_solver. rewrite Hword, Hn. done.
Qed.

Lemma Join_head l x t : strings_Join [x2c] (x :: l) ++ t = x ++ (match l with [] => [] | _ => x2c :: strings_Join [x2c] l end) ++ t.
Proof. destruct l; cbn [strings_Join]; [done|]. by rewrite <- !app_assoc. Qed.

Lemma read_array m (f : json -> bytes) d l w rest : l <> [] -> blank w -> Forall (item_reads (read_value (S m)) f clean_json) l ->
  (forall j, j ∈ l -> exists v b t, f j = v ++ b :: t /\ blank v /\ is_space b = false /\ b <> x5d) ->
  read_value (S (S m)) (w ++ [x5b] ++ strings_Join [x2c] (map f l) ++ line d ++ [x5d] ++ rest) = Some (JArr (map clean_json l), rest).
Proof.
  intros Hne Hw Hl Hf. remember (S m) as sm eqn:Em. cbn [read_value]. rewrite skip_blank by done. cbn [app].
  rewrite skip_solid by done. cbn [starts tail]. rewrite bool_decide_eq_false_2 by set_solver.
  rewrite bool_decide_eq_true_2 by set_solver. rewrite Em, <- Em.
  replace (token x5d (strings_Join [x2c] (map f l) ++ line d ++ x5d :: rest)) with (@None bytes).
  - rewrite (read_items_Join _ _ _ clean_json) by (done || (unfold number_bytes; set_solver) || (rewrite length_app; pose proof (Join_length _ _ _ _ Hl); lia)). done.
  - destruct l as [|j l]; [done|]. cbn [map]. rewrite Join_head.
    destruct (Hf j ltac:(set_solver)) as (v & b & t & -> & Hv & Hb & Hbx). rewrite <- app_assoc. cbn [app]. by rewrite token_other.
Qed.

Lemma read_object m (f : bytes * json -> bytes) d l w rest : l <> [] -> blank w ->
  Forall (item_reads (read_member (read_value (S m))) f (fun x => (sanitize x.1, clean_json x.2))) l ->
  (forall j, j ∈ l -> exists v t, f j = v ++ x22 :: t /\ blank v) ->
  read_value (S (S m)) (w ++ [x7b] ++ strings_Join [x2c] (map f l) ++ line d ++ [x7d] ++ rest) =
  Some (JObj (map (fun x => (sanitize x.1, clean_json x.2)) l), rest).
Proof.
  intros Hne Hw Hl Hf. remember (S m) as sm eqn:Em. cbn [read_value]. rewrite skip_blank by done. cbn [app].
  rewrite skip_solid by done. cbn [starts tail]. rewrite bool_decide_eq_true_2 by set_solver. rewrite Em, <- Em.
  replace (token x7d (strings_Join [x2c] (map f l) ++ line d ++ x7d :: rest)) with (@None bytes).
  - rewrite (read_items_Join _ _ _ (fun x => (sanitize x.1, clean_json x.2)))
      by (done || (unfold number_bytes; set_solver) || (rewrite length_app; pose proof (Join_length _ _ _ _ Hl); lia)). done.
  - destruct l as [|j l]; [done|]. cbn [map]. rewrite Join_head.
    destruct (Hf j ltac:(set_solver)) as (v & t & -> & Hv). rewrite <- app_assoc. cbn [app]. by rewrite token_other.
Qed.

Lemma read_print n d j w rest : nested n j -> ends_number rest -> blank w ->
  read_value (S n) (w ++ print line gap d j ++ rest) = Some (clean_json j, rest).
Proof.
  revert n d w rest. induction j as [|[]|l|s|l IH|l IH] using json_ind; intros n d w rest Hn He Hw.
  - cbn [read_value]. rewrite skip_blank by done. done.
  - cbn [read_value]. rewrite skip_blank by done. done.
  - cbn [read_value]. rewrite skip_blank by done. done.
  - apply read_number_value; [by destruct n|done..].
  - pose proof (read_key_quoted [] s rest ltac:(constructor)) as Hk. cbn [print read_value].
    rewrite skip_blank by done. unfold quoted in *. cbn [app] in *. rewrite skip_solid by done. cbn. by rewrite Hk.
  - destruct n as [|m]; [done|]. cbn in Hn. destruct l as [|j0 l]; [by cbn [read_value]; rewrite skip_blank by done|].
    cbn [print clean_json]. rewrite <- !app_assoc. apply read_array; [done|done| |].
    + rewrite Forall_forall in IH, Hn |- *. intros j Hj. split.
      * intros rest' Hr. rewrite <- app_assoc. apply IH; auto.
      * destruct (print_head m (S d) j (Hn j Hj)) as (b & t & -> & _). by destruct (line (S d)).
    + rewrite Forall_forall in Hn. intros j Hj. destruct (print_head m (S d) j (Hn j Hj)) as (b & t & E & Hb).
      exists (line (S d)), b, t. by rewrite E.
  - destruct n as [|m]; [done|]. cbn in Hn. destruct l as [|j0 l]; [by cbn [read_value]; rewrite skip_blank by done|].
    cbn [print clean_json]. rewrite <- !app_assoc. apply read_object; [done|done| |].
    + rewrite Forall_forall in IH, Hn |- *. intros [k j] Hj. cbn [fst snd]. split.
      * intros rest' Hr. rewrite <- !app_assoc. unfold read_member. rewrite read_key_quoted by done. cbn [app].
        rewrite token_now by done. by rewrite (IH (k, j) Hj m (S d) gap rest' (Hn (k, j) Hj)).
      * by destruct (line (S d)).
    + intros [k j] Hj. exists (line (S d)). eexists. split; [|done]. unfold quoted. cbn [app fst snd]. reflexivity.
Qed.
End Reads.

Lemma read_json_print line gap w j : (forall d, blank (line d)) -> blank gap -> blank w -> nested maxNestingDepth j ->
  read_json (print line gap 0 j ++ w) = Some (clean_json j).
Proof.
  intros Hl Hg Hw Hn. unfold read_json.
  assert (ends_number w) as He.
  { destruct Hw as [|b w Hb Hw]; [done|]. by apply solid_ends, space_ends. }
  rewrite (read_print line gap Hl Hg maxNestingDepth 0 j [] w Hn He ltac:(constructor) : read_value _ (print _ _ _ _ ++ _) = _).
  rewrite <- (app_nil_r w), skip_blank by done. done.
Qed.

(** What [Marshal], [Encode] and [MarshalIndent] write is read back, up to the
    bytes of its strings that are not UTF-8. *)
Lemma read_Marshal j : nested maxNestingDepth j -> read_json (Marshal j) = Some (clean_json j).
Proof.
  intros Hn. unfold Marshal. rewrite <- (app_nil_r (print _ _ _ _)). apply read_json_print; try done; intros; constructor.
Qed.

Lemma read_Encode j : nested maxNestingDepth j -> read_json (Encode j) = Some (clean_json j).
Proof.
  intros Hn. unfold Encode, Marshal. apply read_json_print; try done; intros; repeat constructor.
Qed.

Lemma read_MarshalIndent j : nested maxNestingDepth j -> read_json (MarshalIndent j) = Some (clean_json j).
Proof.
  intros Hn. unfold MarshalIndent. rewrite <- (app_nil_r (print _ _ _ _)). apply read_json_print; try done; try by repeat constructor.
  intros d. constructor; [done|]. induction d as [|d IH]; [constructor|]. cbn. constructor; [done|]. by constructor.
Qed.

(** ** Integers *)

(** [strconv.ParseInt(s, 10, 64)] and [strconv.ParseUint(s, 10, 64)] on a JSON
    literal: one with a fraction or an exponent is refused. *)
Definition literal_int (lo hi : Z) (l : bytes) : option Z :=
  match DecimalString.NilZero.int_of_string (String.string_of_list_byte l) with
  | Some i => let z := Z.of_int i in if (lo <=? z) && (z <? hi) then Some z else None
  | None => None
  end.
Definition literal_int64 : bytes -> option Z := literal_int (- 2 ^ 63) (2 ^ 63).
Definition literal_uint64 (l : bytes) : option Z := if starts [x2d] l then None else literal_int 0 (2 ^ 64) l.

Lemma literal_int_itoa lo hi z : lo <= z < hi -> literal_int lo hi (itoa z) = Some z.
Proof.
  intros Hz. unfold literal_int, itoa. rewrite String.string_of_list_byte_of_string.
  destruct (to_int_nonnil z). rewrite DecimalString.NilZero.isi, DecimalZ.of_to by done.
  by rewrite (proj2 (Z.leb_le lo z)), (proj2 (Z.ltb_lt z hi)) by lia.
Qed.

Definition uint_bytes (d : Decimal.uint) : bytes := String.list_byte_of_string (DecimalString.NilEmpty.string_of_uint d).

Lemma uint_digits d : take_while is_digit (uint_bytes d) = (uint_bytes d, []).
Proof.
  assert (forall b s, is_digit b = true -> take_while is_digit s = (s, []) -> take_while is_digit (b :: s) = (b :: s, [])) as Hc.
  { intros b s Hb Hs. cbn [take_while]. by rewrite Hb, Hs. }
  induction d; [done|..]; by apply Hc.
Qed.

(** A positive number's digits start with none that is zero. *)
Lemma to_uint_head p : (forall d, Pos.to_uint p <> Decimal.D0 d) /\ Pos.to_uint p <> Decimal.Nil.
Proof.
  split; [|apply DecimalPos.Unsigned.to_uint_nonnil].
  assert (Pos.to_uint p = Decimal.unorm (Pos.to_uint p)) as ->.
  { rewrite <- DecimalPos.Unsigned.to_of, DecimalPos.Unsigned.of_to. done. }
  intros d. unfold Decimal.unorm. destruct (Decimal.nzhead _) eqn:E; try done; [|by apply DecimalFacts.nzhead_nonzero in E].
  exfalso. apply (DecimalPos.Unsigned.to_uint_nonzero p).
  assert (Decimal.unorm (Pos.to_uint p) = Decimal.zero) as Hz by (unfold Decimal.unorm; by rewrite E).
  rewrite <- Hz, <- DecimalPos.Unsigned.to_of, DecimalPos.Unsigned.of_to. done.
Qed.

Lemma int_part_uint d : (forall d', d <> Decimal.D0 d') -> d <> Decimal.Nil -> int_part (uint_bytes d) = Some (uint_bytes d, []).
Proof.
  intros H0 Hn. unfold int_part. assert (starts [x30] (uint_bytes d) = false) as -> by (destruct d; [done|by destruct (H0 d)|done..]).
  unfold some_digits. rewrite uint_digits. by destruct d.
Qed.

Lemma read_number_itoa z : read_number (itoa z) = Some (itoa z, []).
Proof.
  destruct z as [|p|p]; [done|..]; destruct (to_uint_head p) as [H0 Hn]; pose proof (int_part_uint _ H0 Hn) as E.
  - assert (itoa (Zpos p) = uint_bytes (Pos.to_uint p)) as -> by (unfold itoa; cbn; by destruct (Pos.to_uint p)).
    unfold read_number. assert (starts [x2d] (uint_bytes (Pos.to_uint p)) = false) as -> by (by destruct (Pos.to_uint p)).
    rewrite E. cbn. by rewrite !app_nil_r.
  - assert (itoa (Zneg p) = x2d :: uint_bytes (Pos.to_uint p)) as -> by (unfold itoa; cbn; by destruct (Pos.to_uint p)).
    unfold read_number. cbn [starts]. rewrite bool_decide_eq_true_2 by set_solver. cbn [drop]. rewrite drop_0, E.
    cbn. by rewrite !app_nil_r.
Qed.

Lemma nested_JInt n z : nested n (JInt z).
Proof. destruct n; apply read_number_itoa. Qed.

Lemma nested_JNum n l : read_number l = Some (l, []) -> nested n (JNum l).
Proof. by destruct n. Qed.

Lemma nested_JStr n s : nested n (JStr s).
Proof. by destruct n. Qed.

Lemma nested_JBool n b : nested n (JBool b).
Proof. by destruct n. Qed.

Lemma nested_JObj n (l : list (bytes * json)) : Forall (fun m => nested n m.2) l -> nested (S n) (JObj l).
Proof. done. Qed.

Lemma nested_JArr n l : Forall (nested n) l -> nested (S n) (JArr l).
Proof. done. Qed.

Lemma nested_member n (k : bytes) j : nested n j -> nested n (k, j).2.
Proof. done. Qed.

Create HintDb json.
#[export] Hint Resolve nested_JInt nested_JNum nested_JStr nested_JBool nested_JObj nested_JArr nested_member : json.
#[export] Hint Resolve Forall_nil_2 Forall_cons_2 Forall_app_2 : json.

Lemma omit_string_nested n name v : Forall (fun m => nested n m.2) (omit_string name v).
Proof. unfold omit_string. case_bool_decide; auto with json. Qed.

Lemma omit_int_nested n name v : Forall (fun m => nested n m.2) (omit_int name v).
Proof. unfold omit_int. destruct (v =? 0); auto with json. Qed.

Lemma omit_bool_nested n name v : Forall (fun m => nested n m.2) (omit_bool name v).
Proof. destruct v; cbn; auto with json. Qed.

#[export] Hint Resolve omit_string_nested omit_int_nested omit_bool_nested : json.

Lemma nested_mono n j : forall m, (n <= m)%nat -> nested n j -> nested m j.
Proof.
  revert j. induction n as [|n IH]; intros j [|m] Hm; try lia; [done| |].
  - by destruct j.
  - destruct j; try done; cbn [nested]; intros Hl; (eapply Forall_impl; [exact Hl|]); intros x Hx; apply (IH _ m); (done || lia).
Qed.

Lemma nested_allowed n j : (n <= 10)%nat -> nested n j -> nested maxNestingDepth j.
Proof. intros Hn. apply nested_mono. unfold maxNestingDepth. lia. Qed.

(** ** Storing a value in a struct *)

(** [foldName] as far as a name of ASCII letters can tell: letters of either
    case, the long s and the Kelvin sign. *)
Fixpoint fold_name (k : bytes) : bytes :=
  match k with
  | xc5 :: xbf :: k => x73 :: fold_name k
  | xe2 :: x84 :: xaa :: k => x6b :: fold_name k
  | b :: k => lower b :: fold_name k
  | [] => []
  end.

(** Storing a value in a place of type [T]: the new content, and whether the
    value had the place's type. Decoding goes on after a value of another
    type, which leaves the place alone. *)
Definition decoder (T : Type) : Type := json -> T -> T * bool.

Definition decode_string : decoder bytes := fun j t =>
  match j with JStr s => (s, true) | JNull => (t, true) | _ => (t, false) end.
Definition decode_bool : decoder bool := fun j t =>
  match j with JBool b => (b, true) | JNull => (t, true) | _ => (t, false) end.
Definition decode_literal (parse : bytes -> option Z) : decoder Z := fun j t =>
  match j with
  | JNum l => match parse l with Some z => (z, true) | None => (t, false) end
  | JNull => (t, true)
  | _ => (t, false)
  end.
Definition decode_int : decoder Z := decode_literal literal_int64.
Definition decode_uint64 : decoder Z := decode_literal literal_uint64.

Section Struct.
Context {T : Type}.

(** A field: its name, and how a value is stored in it. *)
Definition fields : Type := list (bytes * decoder T).

(** The field of that very name, or the first one whose name differs only in
    case. *)
Definition find_field (fs : fields) (k : bytes) : option (decoder T) :=
  match find (fun f => bool_decide (f.1 = k)) fs with
  | Some f => Some f.2
  | None => snd <$> find (fun f => bool_decide (fold_name f.1 = fold_name k)) fs
  end.

(** The members in the order they come; one that names no field is skipped. *)
Fixpoint decode_members (fs : fields) (ms : list (bytes * json)) (t : T) : T * bool :=
  match ms with
  | [] => (t, true)
  | (k, j) :: ms =>
      let '(t, ok) := match find_field fs k with Some f => f j t | None => (t, true) end in
      let '(t, ok') := decode_members fs ms t in
      (t, ok && ok')
  end.

Definition decode_struct (fs : fields) : decoder T := fun j t =>
  match j with JObj ms => decode_members fs ms t | JNull => (t, true) | _ => (t, false) end.

(** An array stored in an empty slice: every element starts from [zero]. *)
Definition decode_slice (d : decoder T) (zero : T) : decoder (list T) := fun j l =>
  match j with
  | JArr js => let rs := map (fun j => d j zero) js in (map fst rs, forallb snd rs)
  | JNull => ([], true)
  | _ => (l, false)
  end.

(** [json.Unmarshal]: [None] is an error. *)
Definition Unmarshal (d : decoder T) (data : bytes) (t : T) : option T :=
  match read_json data with
  | None => None
  | Some j => match d j t with (t, true) => Some t | (_, false) => None end
  end.
End Struct.
Arguments fields T : clear implicits.

(** The decoder of a field of a struct, from that of its type. *)
Definition at_field {T F} (get : T -> F) (set : F -> T -> T) (d : decoder F) : decoder T := fun j t =>
  let '(f, ok) := d j (get t) in (set f t, ok).

(** ** Reading back the members of a struct *)

(** The members of an object, once they have been through a text. *)
Definition clean_members (ms : list (bytes * json)) : list (bytes * json) := map (fun m => (sanitize m.1, clean_json m.2)) ms.

Section Members.
Context {T : Type} (fs : fields T).

Lemma decode_member k j ms t t' f : find_field fs k = Some f -> f j t = (t', true) ->
  decode_members fs ((k, j) :: ms) t = decode_members fs ms t'.
Proof. intros Hf Hj. cbn [decode_members]. rewrite Hf, Hj. by destruct (decode_members fs ms t'). Qed.

(** A field with [omitempty] that still has its zero value. *)
Lemma decode_omit_string name get set v ms t :
  sanitize name = name -> find_field fs name = Some (at_field get set decode_string) -> set [] t = t ->
  decode_members fs (clean_members (omit_string name v) ++ ms) t = decode_members fs ms (set (sanitize v) t).
Proof.
  intros Hn Hf Hz. unfold omit_string. case_bool_decide as Hv; [subst v; change (sanitize []) with (@nil byte); by rewrite Hz|].
  cbn [clean_members map fst snd app clean_json]. rewrite Hn. by eapply decode_member.
Qed.

Lemma decode_omit_bool name get set v ms t :
  sanitize name = name -> find_field fs name = Some (at_field get set decode_bool) -> set false t = t ->
  decode_members fs (clean_members (omit_bool name v) ++ ms) t = decode_members fs ms (set v t).
Proof.
  intros Hn Hf Hz. destruct v; [|by rewrite Hz]. cbn [omit_bool clean_members map fst snd app clean_json]. rewrite Hn.
  by eapply decode_member.
Qed.

Lemma decode_string_member name get set v ms t : find_field fs name = Some (at_field get set decode_string) ->
  decode_members fs ((name, JStr v) :: ms) t = decode_members fs ms (set v t).
Proof. intros Hf. by eapply decode_member. Qed.

Lemma decode_int_member name get set z ms t : find_field fs name = Some (at_field get set decode_int) -> - 2 ^ 63 <= z < 2 ^ 63 ->
  decode_members fs ((name, JInt z) :: ms) t = decode_members fs ms (set z t).
Proof.
  intros Hf Hz. eapply decode_member; [done|]. unfold at_field, decode_int, decode_literal, JInt, literal_int64.
  by rewrite literal_int_itoa.
Qed.

Lemma decode_uint64_member name get set z ms t : find_field fs name = Some (at_field get set decode_uint64) -> 0 <= z < 2 ^ 64 ->
  decode_members fs ((name, JInt z) :: ms) t = decode_members fs ms (set z t).
Proof.
  intros Hf Hz. eapply decode_member; [done|]. unfold at_field, decode_uint64, decode_literal, JInt, literal_uint64.
  rewrite literal_int_itoa by done. destruct z as [|z|z]; [done| |lia].
  assert (starts [x2d] (itoa (Zpos z)) = false) as ->; [|done]. unfold itoa. cbn. by destruct (Pos.to_uint z).
Qed.

Lemma decode_omit_int name get set z ms t :
  sanitize name = name -> find_field fs name = Some (at_field get set decode_int) -> set 0 t = t -> - 2 ^ 63 <= z < 2 ^ 63 ->
  decode_members fs (clean_members (omit_int name z) ++ ms) t = decode_members fs ms (set z t).
Proof.
  intros Hn Hf H0 Hz. unfold omit_int. destruct (Z.eqb_spec z 0) as [->|]; [by rewrite H0|].
  cbn [clean_members map fst snd app clean_json JInt]. rewrite Hn. by eapply decode_int_member.
Qed.
End Members.
