(* ===== verification/Metrics.v ===== *)
(** * Metrics

    internal/metrics: registry.go (counters, gauges, histograms and the
    registry), render.go (the text of /metrics) and catalog.go (what the
    process registers when it starts). A [float64] is a [spec_float] of 53
    bits; a registered metric lives in its registry's entry, and the pointer
    its constructor returns is its name. Operations are atomic, as the code's
    are; the text of a float, [formatValue], and [%q], [quote], are
    parameters. *)

From S2P Require Import Prelude Bytes Http Format.
From stdpp Require Import base tactics list numbers gmap sorting.
From Stdlib Require Import Strings.Byte Floats.SpecFloat.
From Stdlib Require Import ZArith Lia.
From Stdlib Require String.
Import String.StringSyntax.
#[local] Open Scope Z_scope.

(** ** float64 *)

Abbreviation float64 := spec_float.

Definition f_zero : float64 := S754_zero false.
Definition f_add (x y : float64) : float64 := SFadd 53 1024 x y.
(** [float64(n)]. *)
Definition f_of_Z (z : Z) : float64 := binary_normalize 53 1024 z 0 false.
(** The constant [a / b], which the compiler rounds once. *)
Definition f_ratio (a b : Z) : float64 := SFdiv 53 1024 (f_of_Z a) (f_of_Z b).

Definition is_nan (x : float64) : bool := match x with S754_nan => true | _ => false end.

(** The order of [sort.Float64s]: NaN before the other values. *)
Definition f_less (x y : float64) : bool := SFltb x y || (is_nan x && negb (is_nan y)).
Definition f_ordered (x y : float64) : Prop := f_less y x = false.
#[export] Instance f_ordered_dec x y : Decision (f_ordered x y).
Proof. unfold f_ordered. apply _. Defined.

Definition sort_Float64s (l : list float64) : list float64 := merge_sort f_ordered l.

(** [sort.Search]: bisection, for at most [n] turns. *)
Fixpoint search_loop (fuel : nat) (f : nat -> bool) (i j : nat) : nat :=
  match fuel with
  | O => i
  | S fuel =>
      if bool_decide (i < j)%nat then
        let h := ((i + j) / 2)%nat in
        if negb (f h) then search_loop fuel f (h + 1) j else search_loop fuel f i h
      else i
  end.
Definition sort_Search (n : nat) (f : nat -> bool) : nat := search_loop n f 0 n.
Definition SearchFloat64s (a : list float64) (x : float64) : nat :=
  sort_Search (length a) (fun i => SFleb x (nth i a S754_nan)).

(** A value's place in the order of floats: NaN, then minus infinity, the
    negative values by falling exponent and mantissa, zero, the positive
    values, plus infinity. *)
Definition rank (x : float64) : Z * Z * Z :=
  match x with
  | S754_nan => (-3, 0, 0)
  | S754_infinity true => (-2, 0, 0)
  | S754_finite true m e => (-1, - e, - Zpos m)
  | S754_zero _ => (0, 0, 0)
  | S754_finite false m e => (1, e, Zpos m)
  | S754_infinity false => (2, 0, 0)
  end.

Definition rank_lt (a b : Z * Z * Z) : Prop :=
  let '(a1, a2, a3) := a in let '(b1, b2, b3) := b in a1 < b1 \/ (a1 = b1 /\ (a2 < b2 \/ (a2 = b2 /\ a3 < b3))).

Lemma SFcompare_rank x y : is_nan x = false -> is_nan y = false ->
  (SFcompare x y = Some Lt /\ rank_lt (rank x) (rank y)) \/ (SFcompare x y = Some Eq /\ rank x = rank y) \/
  (SFcompare x y = Some Gt /\ rank_lt (rank y) (rank x)).
Proof.
  intros Hx Hy. destruct x as [[]|[]| |[] m1 e1]; try done; destruct y as [[]|[]| |[] m2 e2]; try done; cbn;
    try (by left; split; [|left]); try (by right; left); try (by right; right; split; [|left]).
  - destruct (Z.compare_spec e1 e2); [|right; right; split; [done|right; lia]|left; split; [done|right; lia]].
    subst e2. change (Pos.compare_cont Eq m1 m2) with (Pos.compare m1 m2).
    destruct (Pos.compare_spec m1 m2); cbn; [right; left; by subst|right; right; split; [done|right; lia]|left; split; [done|right; lia]].
  - destruct (Z.compare_spec e1 e2); [|left; split; [done|right; lia]|right; right; split; [done|right; lia]].
    subst e2. change (Pos.compare_cont Eq m1 m2) with (Pos.compare m1 m2).
    destruct (Pos.compare_spec m1 m2); cbn; [right; left; by subst|left; split; [done|right; lia]|right; right; split; [done|right; lia]].
Qed.

Lemma rank_nan x : (-3 <= (rank x).1.1) /\ (is_nan x = false -> -3 < (rank x).1.1).
Proof. destruct x as [[]|[]| |[]]; cbn; split; intros; lia || done. Qed.

Lemma rank_irrefl a : ~ rank_lt a a.
Proof. destruct a as [[]]. cbn. lia. Qed.
Lemma rank_asym a b : rank_lt a b -> ~ rank_lt b a.
Proof. destruct a as [[]], b as [[]]. cbn. lia. Qed.

Lemma f_less_rank x y : f_less x y = true <-> rank_lt (rank x) (rank y).
Proof.
  unfold f_less, SFltb. destruct (is_nan x) eqn:Hx, (is_nan y) eqn:Hy.
  - destruct x; try done; destruct y; try done. cbn. split; [done|lia].
  - destruct x; try done. cbn [SFcompare]. split; [|done]. intros _.
    pose proof (proj2 (rank_nan y) Hy) as Hr. destruct (rank y) as [[]]. cbn in *. by left.
  - destruct y; try done. destruct x; cbn; (split; [done|]); try destruct s; cbn; lia.
  - destruct (SFcompare_rank x y Hx Hy) as [[-> H]|[[-> H]|[-> H]]]; cbn; (split; [|]); try done.
    + rewrite H. intros []%rank_irrefl.
    + intros H'. by apply rank_asym in H'.
Qed.

Lemma SFleb_rank x y : SFleb x y = true <-> is_nan x = false /\ is_nan y = false /\ ~ rank_lt (rank y) (rank x).
Proof.
  unfold SFleb. destruct (is_nan x) eqn:Hx; [destruct x; cbn; naive_solver|].
  destruct (is_nan y) eqn:Hy; [destruct y; try done; destruct x; cbn; naive_solver|].
  destruct (SFcompare_rank x y Hx Hy) as [[-> H]|[[-> H]|[-> H]]]; cbn.
  - split; [intros _|done]. by split_and!; [..|apply rank_asym].
  - rewrite H. split; [intros _|done]. by split_and!; [..|apply rank_irrefl].
  - split; [done|]. naive_solver.
Qed.

Lemma rank_trans a b c : ~ rank_lt b a -> ~ rank_lt c b -> ~ rank_lt c a.
Proof. destruct a as [[]], b as [[]], c as [[]]. cbn. lia. Qed.

#[export] Instance f_ordered_total : Total f_ordered.
Proof.
  intros x y. unfold f_ordered. destruct (f_less y x) eqn:E; [right|by left]. apply f_less_rank, rank_asym in E.
  destruct (f_less x y) eqn:E2; [|done]. by apply f_less_rank in E2.
Qed.

Lemma f_ordered_rank x y : f_ordered x y <-> ~ rank_lt (rank y) (rank x).
Proof. unfold f_ordered. rewrite <- f_less_rank. by destruct (f_less y x). Qed.

#[export] Instance f_ordered_trans : Transitive f_ordered.
Proof. intros x y z. rewrite !f_ordered_rank. apply rank_trans. Qed.

(** An upper bound stays one. *)
Lemma SFleb_ordered x u v : SFleb x u = true -> f_ordered u v -> SFleb x v = true.
Proof.
  rewrite !SFleb_rank, f_ordered_rank. intros (Hx & Hu & Hxu) Huv. split_and!; [done| |by eapply rank_trans].
  destruct (is_nan v) eqn:Hv; [|done]. destruct v; try done. pose proof (proj2 (rank_nan u) Hu) as Hr.
  destruct Huv. destruct (rank u) as [[]]. cbn in *. by left.
Qed.

Lemma search_loop_spec fuel f i j : (i <= j)%nat -> (j - i <= fuel)%nat ->
  (forall a b, (a <= b < j)%nat -> f a = true -> f b = true) ->
  let r := search_loop fuel f i j in
  (i <= r <= j)%nat /\ (forall k, (i <= k < r)%nat -> f k = false) /\ (forall k, (r <= k < j)%nat -> f k = true).
Proof.
  revert i j. induction fuel as [|fuel IH]; intros i j Hij Hf Hm; cbn [search_loop]; [split_and!; intros; lia|].
  case_bool_decide; [|split_and!; intros; lia]. set (h := ((i + j) / 2)%nat).
  assert (i <= h < j)%nat as Hh. { unfold h. split; [apply Nat.div_le_lower_bound; lia|apply Nat.div_lt_upper_bound; lia]. }
  destruct (f h) eqn:E; cbn [negb].
  - destruct (IH i h) as (H1 & H2 & H3); [lia..| |]. { intros a b Hab. apply Hm. lia. }
    split_and!; [lia|lia|done|]. intros k Hk. destruct (decide (k < h)%nat); [apply H3; lia|].
    apply (Hm h); [lia|done].
  - destruct (IH (h + 1)%nat j) as (H1 & H2 & H3); [lia..|done|]. split_and!; [lia|lia| |done].
    intros k Hk. destruct (decide (k < h + 1)%nat); [|apply H2; lia].
    destruct (f k) eqn:Ek; [|done]. rewrite (Hm k h) in E; [done|lia|done].
Qed.

Lemma StronglySorted_lookup_lt {A} (R : relation A) (l : list A) i j x y :
  StronglySorted R l -> (i < j)%nat -> l !! i = Some x -> l !! j = Some y -> R x y.
Proof.
  intros Hs. revert i j. induction Hs as [|z l Hl IH Hz]; intros i j Hij; [done|].
  destruct i as [|i], j as [|j]; cbn; try lia; [|apply IH; lia].
  intros [= ->] Hy. rewrite Forall_forall in Hz. by eapply Hz, list_elem_of_lookup_2.
Qed.

Lemma SearchFloat64s_spec (a : list float64) x : StronglySorted f_ordered a ->
  forall i u, a !! i = Some u -> SFleb x u = true <-> (SearchFloat64s a x <= i)%nat.
Proof.
  intros Hs i u Hi. set (f := fun i => SFleb x (nth i a S754_nan)).
  assert (forall k v, a !! k = Some v -> f k = SFleb x v) as Hf.
  { intros k v Hk. unfold f. by rewrite (nth_lookup_Some _ _ _ _ Hk). }
  destruct (search_loop_spec (length a) f 0 (length a)) as (H1 & H2 & H3); [lia..| |].
  { intros p q Hpq Hp. destruct (lookup_lt_is_Some_2 a p) as [v Hv]; [lia|].
    destruct (lookup_lt_is_Some_2 a q) as [w Hw]; [lia|]. rewrite (Hf _ _ Hv) in Hp. rewrite (Hf _ _ Hw).
    destruct (decide (p = q)) as [->|]; [congruence|]. eapply SFleb_ordered; [done|].
    eapply StronglySorted_lookup_lt; [done| |exact Hv|exact Hw]. lia. }
  change (search_loop (length a) f 0 (length a)) with (SearchFloat64s a x) in H1, H2, H3.
  pose proof (lookup_lt_Some _ _ _ Hi). rewrite <- (Hf _ _ Hi). split.
  - intros E. destruct (decide (SearchFloat64s a x <= i)%nat); [done|]. rewrite H2 in E; [done|lia].
  - intros Hk. apply H3. lia.
Qed.

(** ** Counters, gauges and histograms *)

Definition Counter : Type := Z.
Definition Counter_Add (c : Counter) (n : Z) : Counter := u64 (c + n).
Definition Counter_Inc (c : Counter) : Counter := Counter_Add c 1.

Definition Gauge : Type := float64.
Definition Gauge_Set (_ : Gauge) (v : float64) : Gauge := v.
Definition Gauge_Add (g : Gauge) (delta : float64) : Gauge := f_add g delta.
Definition Gauge_Inc (g : Gauge) : Gauge := Gauge_Add g (f_of_Z 1).
Definition Gauge_Dec (g : Gauge) : Gauge := Gauge_Add g (f_of_Z (-1)).

Definition DefaultLatencyBuckets : list float64 :=
  [f_ratio 1 10000; f_ratio 5 10000; f_ratio 1 1000; f_ratio 25 10000; f_ratio 5 1000; f_ratio 1 100; f_ratio 25 1000;
   f_ratio 5 100; f_ratio 1 10; f_ratio 25 100; f_ratio 5 10; f_of_Z 1; f_ratio 25 10; f_of_Z 5; f_of_Z 10].

Record Histogram := MkHist { h_buckets : list float64; h_counts : list Z; h_sum : float64; h_total : Z }.

Definition newHistogram (buckets : list float64) : Histogram :=
  let b := sort_Float64s buckets in MkHist b (replicate (length b + 1) 0) f_zero 0.

(** The bucket a value is counted in. *)
Definition slot (buckets : list float64) (v : float64) : nat :=
  let idx := SearchFloat64s buckets v in
  if bool_decide (idx < length buckets)%nat && SFltb (nth idx buckets S754_nan) v then (idx + 1)%nat else idx.

Definition Observe (h : Histogram) (v : float64) : Histogram :=
  MkHist (h_buckets h) (alter (fun c => u64 (c + 1)) (slot (h_buckets h) v) (h_counts h))
         (f_add (h_sum h) v) (u64 (h_total h + 1)).

Fixpoint running (acc : Z) (counts : list Z) : list Z :=
  match counts with
  | [] => []
  | c :: counts => let acc := u64 (acc + c) in acc :: running acc counts
  end.
Definition Histogram_Snapshot (h : Histogram) : list Z * float64 * Z := (running 0 (h_counts h), h_sum h, h_total h).

(** The second look in [Observe] never changes the bucket. *)
Lemma slot_search buckets v : StronglySorted f_ordered buckets -> slot buckets v = SearchFloat64s buckets v.
Proof.
  intros Hs. unfold slot. case_bool_decide as Hi; [|done]. destruct (lookup_lt_is_Some_2 _ _ Hi) as [u Hu].
  rewrite (nth_lookup_Some _ _ _ _ Hu). pose proof (proj2 (SearchFloat64s_spec buckets v Hs _ u Hu) (le_n _)) as Hle.
  apply SFleb_rank in Hle as (Hv & Hn & Hr). unfold SFltb.
  destruct (SFcompare_rank u v Hn Hv) as [[-> H]|[[-> H]|[-> H]]]; done.
Qed.

Lemma SearchFloat64s_le a x : (SearchFloat64s a x <= length a)%nat.
Proof.
  unfold SearchFloat64s, sort_Search. set (f := fun i => _). generalize (length a) at 1 as fuel. intros fuel.
  assert (forall i j, (i <= j)%nat -> (search_loop fuel f i j <= j)%nat) as H; [|apply H; lia].
  induction fuel as [|fuel IH]; intros i j Hij; cbn [search_loop]; [done|]. case_bool_decide; [|done].
  assert ((i + j) / 2 < j)%nat by (apply Nat.div_lt_upper_bound; lia).
  assert (i <= (i + j) / 2)%nat by (apply Nat.div_le_lower_bound; lia).
  destruct (f _); cbn [negb]; [etrans; [by apply IH|lia]|apply IH; lia].
Qed.

(** How many of the values fall in the slots up to [i]. *)
Definition upto (buckets : list float64) (vs : list float64) (i : nat) : Z :=
  zlen (filter (fun v => slot buckets v <= i)%nat vs).

Lemma u64_add_l a b : u64 (u64 a + b) = u64 (a + b).
Proof. unfold u64. by rewrite Zplus_mod_idemp_l. Qed.
Lemma u64_add_r a b : u64 (a + u64 b) = u64 (a + b).
Proof. unfold u64. by rewrite Zplus_mod_idemp_r. Qed.
Lemma u64_idem a : u64 (u64 a) = u64 a.
Proof. unfold u64. by rewrite Zmod_mod. Qed.

Lemma running_shift d acc cs : running (u64 (acc + d)) cs = (fun c => u64 (c + d)) <$> running acc cs.
Proof.
  revert acc. induction cs as [|c cs IH]; intros acc; [done|]. cbn. rewrite !u64_add_l.
  replace (acc + d + c) with (acc + c + d) by lia. f_equal. rewrite <- IH, u64_add_l. done.
Qed.

Lemma running_alter acc cs s i c : running acc cs !! i = Some c ->
  running acc (alter (fun c => u64 (c + 1)) s cs) !! i = Some (u64 (c + if bool_decide (s <= i)%nat then 1 else 0)).
Proof.
  revert acc s i. induction cs as [|x cs IH]; intros acc s i; [done|]. destruct s as [|s].
  - cbn. rewrite u64_add_r, Z.add_assoc, <- (u64_add_l (acc + x)), (running_shift 1). destruct i as [|i]; cbn.
    + by intros [= <-].
    + intros Hc. etrans; [apply list_lookup_fmap|]. by apply (f_equal (fmap (fun c => u64 (c + 1)))) in Hc.
  - cbn. destruct i as [|i]; cbn.
    + intros [= <-]. by rewrite Z.add_0_r, u64_idem.
    + intros Hc. erewrite IH by done. do 3 f_equal. by erewrite bool_decide_ext; [reflexivity|lia].
Qed.

Lemma running_length acc cs : length (running acc cs) = length cs.
Proof. revert acc. induction cs as [|c cs IH]; intros acc; cbn; [done|]. by rewrite IH. Qed.

Lemma running_zeros n i : (i < n)%nat -> running 0 (replicate n 0) !! i = Some 0.
Proof. revert i. induction n as [|n IH]; intros i Hi; [lia|]. destruct i as [|i]; [done|]. apply IH. lia. Qed.

Lemma Observe_all buckets vs : let h := fold_left Observe vs (newHistogram buckets) in
  h_buckets h = sort_Float64s buckets /\ length (h_counts h) = S (length buckets) /\
  h_sum h = fold_left f_add vs f_zero /\ h_total h = u64 (zlen vs) /\
  forall i, (i <= length buckets)%nat -> running 0 (h_counts h) !! i = Some (u64 (upto (sort_Float64s buckets) vs i)).
Proof.
  pose proof (merge_sort_Permutation f_ordered buckets) as Hp%Permutation_length.
  induction vs as [|v vs IH] using rev_ind; cbn zeta.
  - cbn. unfold sort_Float64s. rewrite length_replicate, Hp, Nat.add_1_r. split_and!; try done.
    intros i Hi. apply (running_zeros (S (length buckets))). lia.
  - rewrite !fold_left_app. cbn [fold_left Observe h_buckets h_counts h_sum h_total].
    cbn zeta in IH. destruct IH as (Hb & Hl & Hs & Ht & Hr). rewrite Hb, Hs, Ht. split_and!; [done|by rewrite length_alter|done| |].
    + rewrite u64_add_l. unfold zlen. rewrite length_app. cbn. f_equal. lia.
    + intros i Hi. erewrite running_alter by (by apply Hr). rewrite u64_add_l. unfold upto, zlen.
      rewrite filter_app, length_app. cbn. do 2 f_equal. unfold filter, list_filter.
      case_decide; case_bool_decide; cbn; try done; lia.
Qed.

(** ** The registry *)

Inductive metricKind := kindCounter | kindGauge | kindHistogram.
#[export] Instance metricKind_eq_dec : EqDecision metricKind.
Proof. solve_decision. Defined.

Section Registry.
(** What the collector functions read when they are called. *)
Context {A : Type}.

(** The one field of [entry] a constructor sets. *)
Inductive payload :=
| OfCollector (collect : A -> gmap bytes float64)
| OfCounter (c : Counter)
| OfGauge (g : Gauge)
| OfHistogram (h : Histogram)
| OfCounterVec (m : gmap bytes Counter)
| OfGaugeVec (m : gmap bytes Gauge)
| OfHistVec (m : gmap bytes Histogram) (histBuckets : list float64).

Record entry := MkEntry {
  e_name : bytes;
  e_help : bytes;
  e_kind : metricKind;
  e_labelNames : list bytes;
  e_payload : payload }.

Record Registry := MkRegistry { entries : gmap bytes entry; reg_order : list bytes }.

Definition NewRegistry : Registry := MkRegistry ∅ [].

(** [None] is the panic. *)
Definition register (r : Registry) (e : entry) : option Registry :=
  if bool_decide (is_Some (entries r !! e_name e)) then None
  else Some (MkRegistry (<[e_name e := e]> (entries r)) (reg_order r ++ [e_name e])).

Definition NewCounter (r : Registry) (name help : bytes) : option Registry :=
  register r (MkEntry name help kindCounter [] (OfCounter 0)).
Definition NewGauge (r : Registry) (name help : bytes) : option Registry :=
  register r (MkEntry name help kindGauge [] (OfGauge f_zero)).
Definition NewHistogram (r : Registry) (name help : bytes) (buckets : list float64) : option Registry :=
  register r (MkEntry name help kindHistogram [] (OfHistogram (newHistogram buckets))).
Definition NewCounterVec (r : Registry) (name help labelName : bytes) : option Registry :=
  register r (MkEntry name help kindCounter [labelName] (OfCounterVec ∅)).
Definition NewGaugeVec (r : Registry) (name help labelName : bytes) : option Registry :=
  register r (MkEntry name help kindGauge [labelName] (OfGaugeVec ∅)).
Definition NewHistogramVec (r : Registry) (name help labelName : bytes) (buckets : list float64) : option Registry :=
  register r (MkEntry name help kindHistogram [labelName] (OfHistVec ∅ buckets)).
Definition NewGaugeFunc (r : Registry) (name help : bytes) (fn : A -> float64) : option Registry :=
  register r (MkEntry name help kindGauge [] (OfCollector (fun a => {[ [] := fn a ]}))).
Definition NewGaugeVecFunc (r : Registry) (name help labelName : bytes) (fn : A -> gmap bytes float64) : option Registry :=
  register r (MkEntry name help kindGauge [labelName] (OfCollector fn)).

(** An operation through the pointer to the metric [name]. *)
Definition on_entry (r : Registry) (name : bytes) (f : payload -> payload) : Registry :=
  MkRegistry (alter (fun e => MkEntry (e_name e) (e_help e) (e_kind e) (e_labelNames e) (f (e_payload e))) name (entries r))
             (reg_order r).

Definition with_counter (f : Counter -> Counter) (p : payload) : payload :=
  match p with OfCounter c => OfCounter (f c) | p => p end.
Definition with_gauge (f : Gauge -> Gauge) (p : payload) : payload :=
  match p with OfGauge g => OfGauge (f g) | p => p end.
Definition with_histogram (f : Histogram -> Histogram) (p : payload) : payload :=
  match p with OfHistogram h => OfHistogram (f h) | p => p end.

(** The three [WithLabelValues], and an operation on what they return. *)
Definition WithLabelValues_counter (label : bytes) (f : Counter -> Counter) (p : payload) : payload :=
  match p with OfCounterVec m => OfCounterVec (<[label := f (default 0 (m !! label))]> m) | p => p end.
Definition WithLabelValues_gauge (label : bytes) (f : Gauge -> Gauge) (p : payload) : payload :=
  match p with OfGaugeVec m => OfGaugeVec (<[label := f (default f_zero (m !! label))]> m) | p => p end.
Definition WithLabelValues_histogram (label : bytes) (f : Histogram -> Histogram) (p : payload) : payload :=
  match p with
  | OfHistVec m bs => OfHistVec (<[label := f (default (newHistogram bs) (m !! label))]> m) bs
  | p => p
  end.

Definition ErrorsTotal : bytes := lit "forgedb_errors_total".
Definition RecordError (r : Registry) (component : bytes) : Registry :=
  on_entry r ErrorsTotal (WithLabelValues_counter component Counter_Inc).

(** ** Operations keep the registry well typed *)

(** A histogram with a count for each bucket and one for the rest. *)
Definition whole (h : Histogram) : Prop := length (h_counts h) = S (length (h_buckets h)).

(** What the constructors leave behind: the kind and the label names fit the
    payload. *)
Definition typed (e : entry) : Prop :=
  match e_payload e with
  | OfCollector collect => e_kind e = kindGauge /\
      ((e_labelNames e = [] /\ forall a, exists v, collect a = {[ [] := v ]}) \/ exists l, e_labelNames e = [l])
  | OfCounter _ => e_kind e = kindCounter /\ e_labelNames e = []
  | OfGauge _ => e_kind e = kindGauge /\ e_labelNames e = []
  | OfHistogram h => e_kind e = kindHistogram /\ e_labelNames e = [] /\ whole h
  | OfCounterVec _ => e_kind e = kindCounter /\ exists l, e_labelNames e = [l]
  | OfGaugeVec _ => e_kind e = kindGauge /\ exists l, e_labelNames e = [l]
  | OfHistVec m _ => e_kind e = kindHistogram /\ (exists l, e_labelNames e = [l]) /\ map_Forall (fun _ => whole) m
  end.

Record well_typed (r : Registry) : Prop := {
  wt_order : NoDup (reg_order r);
  wt_known : forall name, name ∈ reg_order r <-> is_Some (entries r !! name);
  wt_name : map_Forall (fun name e => e_name e = name /\ typed e) (entries r) }.


(** The calls a program makes, on the metric of a given name. *)
Inductive metric_call :=
| CallNewCounter (name help : bytes) | CallNewGauge (name help : bytes)
| CallNewHistogram (name help : bytes) (buckets : list float64)
| CallNewCounterVec (name help label : bytes) | CallNewGaugeVec (name help label : bytes)
| CallNewHistogramVec (name help label : bytes) (buckets : list float64)
| CallNewGaugeFunc (name help : bytes) (fn : A -> float64)
| CallNewGaugeVecFunc (name help label : bytes) (fn : A -> gmap bytes float64)
| CallCounter (name : bytes) (label : option bytes) (n : Z)
| CallGaugeSet (name : bytes) (label : option bytes) (v : float64)
| CallGaugeAdd (name : bytes) (label : option bytes) (v : float64)
| CallObserve (name : bytes) (label : option bytes) (v : float64)
| CallRecordError (component : bytes).

(** What a registration asks for, by the constructor that is called. *)
Record declaration := MkDecl {
  dc_name : bytes; dc_help : bytes; dc_kind : metricKind; dc_label : option bytes }.

Definition declared (c : metric_call) : option declaration :=
  match c with
  | CallNewCounter name help => Some (MkDecl name help kindCounter None)
  | CallNewGauge name help => Some (MkDecl name help kindGauge None)
  | CallNewHistogram name help _ => Some (MkDecl name help kindHistogram None)
  | CallNewCounterVec name help label => Some (MkDecl name help kindCounter (Some label))
  | CallNewGaugeVec name help label => Some (MkDecl name help kindGauge (Some label))
  | CallNewHistogramVec name help label _ => Some (MkDecl name help kindHistogram (Some label))
  | CallNewGaugeFunc name help _ => Some (MkDecl name help kindGauge None)
  | CallNewGaugeVecFunc name help label _ => Some (MkDecl name help kindGauge (Some label))
  | _ => None
  end.

Definition do_metric (r : Registry) (c : metric_call) : option Registry :=
  match c with
  | CallNewCounter name help => NewCounter r name help
  | CallNewGauge name help => NewGauge r name help
  | CallNewHistogram name help buckets => NewHistogram r name help buckets
  | CallNewCounterVec name help label => NewCounterVec r name help label
  | CallNewGaugeVec name help label => NewGaugeVec r name help label
  | CallNewHistogramVec name help label buckets => NewHistogramVec r name help label buckets
  | CallNewGaugeFunc name help fn => NewGaugeFunc r name help fn
  | CallNewGaugeVecFunc name help label fn => NewGaugeVecFunc r name help label fn
  | CallCounter name None n => Some (on_entry r name (with_counter (fun c => Counter_Add c n)))
  | CallCounter name (Some l) n => Some (on_entry r name (WithLabelValues_counter l (fun c => Counter_Add c n)))
  | CallGaugeSet name None v => Some (on_entry r name (with_gauge (fun g => Gauge_Set g v)))
  | CallGaugeSet name (Some l) v => Some (on_entry r name (WithLabelValues_gauge l (fun g => Gauge_Set g v)))
  | CallGaugeAdd name None v => Some (on_entry r name (with_gauge (fun g => Gauge_Add g v)))
  | CallGaugeAdd name (Some l) v => Some (on_entry r name (WithLabelValues_gauge l (fun g => Gauge_Add g v)))
  | CallObserve name None v => Some (on_entry r name (with_histogram (fun h => Observe h v)))
  | CallObserve name (Some l) v => Some (on_entry r name (WithLabelValues_histogram l (fun h => Observe h v)))
  | CallRecordError component => Some (RecordError r component)
  end.

Fixpoint do_metrics (r : Registry) (cs : list metric_call) : option Registry :=
  match cs with
  | [] => Some r
  | c :: cs => match do_metric r c with Some r => do_metrics r cs | None => None end
  end.

Lemma register_typed r e r' : typed e -> well_typed r -> register r e = Some r' -> well_typed r'.
Proof using Type.
  unfold register. intros He [Ho Hk Hn]. case_bool_decide as Hfree; [done|]. intros [= <-]. split; cbn.
  - rewrite <- Permutation_cons_append. constructor; [by rewrite Hk|done].
  - intros name. rewrite elem_of_app, list_elem_of_singleton, Hk. destruct (decide (name = e_name e)) as [->|Hne].
    + rewrite lookup_insert_eq. naive_solver.
    + rewrite lookup_insert_ne by done. naive_solver.
  - intros name e' [[<- <-]|[Hne He']]%lookup_insert_Some; [done|by apply Hn].
Qed.

Definition keeps_type (f : payload -> payload) : Prop := forall name help kind labels p,
  typed (MkEntry name help kind labels p) -> typed (MkEntry name help kind labels (f p)).

Lemma on_entry_typed r name f : keeps_type f -> well_typed r -> well_typed (on_entry r name f).
Proof using Type.
  intros Hf [Ho Hk Hn]. split; cbn; [done| |].
  - intros name'. rewrite Hk. destruct (decide (name = name')) as [->|Hne].
    + rewrite lookup_alter_eq, fmap_is_Some. done.
    + by rewrite lookup_alter_ne.
  - intros name' e' [[<- (e & He & ->)]|[Hne He']]%lookup_alter_Some; [|by apply Hn].
    destruct (Hn _ _ He) as [En Ht]. split; [done|]. apply Hf. by destruct e.
Qed.

Lemma Observe_whole h v : whole h -> whole (Observe h v).
Proof using Type. unfold whole. cbn. by rewrite length_alter. Qed.
Lemma newHistogram_whole bs : whole (newHistogram bs).
Proof using Type. unfold whole. cbn. rewrite length_replicate. lia. Qed.

Lemma payload_ops_keep l fc fg (v : float64) :
  keeps_type (with_counter fc) /\ keeps_type (WithLabelValues_counter l fc) /\
  keeps_type (with_gauge fg) /\ keeps_type (WithLabelValues_gauge l fg) /\
  keeps_type (with_histogram (fun h => Observe h v)) /\ keeps_type (WithLabelValues_histogram l (fun h => Observe h v)).
Proof using Type.
  split_and!; intros name help kind labels []; unfold typed; cbn; try done.
  { intros (Hk & Hl & Hw). split_and!; [done|done|]. by apply Observe_whole. }
  intros (Hk & Hl & Hm). split_and!; [done|done|]. apply map_Forall_insert_2; [|done]. apply Observe_whole.
  destruct (m !! l) as [h|] eqn:E; [by apply (Hm l)|apply newHistogram_whole].
Qed.

Lemma do_metric_typed r c r' : well_typed r -> do_metric r c = Some r' -> well_typed r'.
Proof using Type.
  intros Hr.
  assert (forall l fc fg v, keeps_type (with_counter fc) /\ keeps_type (WithLabelValues_counter l fc) /\
    keeps_type (with_gauge fg) /\ keeps_type (WithLabelValues_gauge l fg) /\
    keeps_type (with_histogram (fun h => Observe h v)) /\ keeps_type (WithLabelValues_histogram l (fun h => Observe h v))) as K
    by (intros; apply payload_ops_keep).
  destruct c as [| | | | | | | |name [l|]|name [l|]|name [l|]|name [l|]|component]; cbn.
  all: try (intros [= <-]; apply on_entry_typed; [|done]; apply K; (exact [] || exact f_zero || exact (fun x => x))).
  all: apply register_typed; [|done]; unfold typed; cbn; split_and!; try done; try (by eexists); try apply newHistogram_whole.
  - left. split; [done|]. intros a. by eexists.
  - right. by eexists.
Qed.

Lemma do_metrics_typed r cs r' : well_typed r -> do_metrics r cs = Some r' -> well_typed r'.
Proof using Type.
  revert r. induction cs as [|c cs IH]; intros r Hr; cbn; [by intros [= <-]|].
  destruct (do_metric r c) as [r1|] eqn:E; [|done]. apply IH. by eapply do_metric_typed.
Qed.

(** The registry holds an entry for every declaration, in their order. *)
Definition entry_for (d : declaration) (e : entry) : Prop :=
  e_name e = dc_name d /\ e_help e = dc_help d /\ e_kind e = dc_kind d /\ e_labelNames e = option_list (dc_label d).
Definition declares (r : Registry) (ds : list declaration) : Prop :=
  reg_order r = dc_name <$> ds /\
  Forall (fun d => exists e, entries r !! dc_name d = Some e /\ entry_for d e) ds.

Lemma register_declares r e r' d ds :
  declares r ds -> entry_for d e -> register r e = Some r' -> declares r' (ds ++ [d]).
Proof using Type.
  intros [Ho Hds] He. unfold register. case_bool_decide as Hfree; [done|]. intros [= <-].
  pose proof He as (Hn & _). split; cbn; [by rewrite Ho, fmap_app, Hn|]. apply Forall_app. split.
  - eapply Forall_impl; [exact Hds|]. intros d' (e' & He' & Hd'). exists e'. split; [|done].
    rewrite lookup_insert_ne; [done|]. intros Eq. apply Hfree. rewrite Eq. by exists e'.
  - constructor; [|done]. exists e. split; [|done]. by rewrite <- Hn, lookup_insert_eq.
Qed.

Lemma on_entry_declares r name f ds : declares r ds -> declares (on_entry r name f) ds.
Proof using Type.
  intros [Ho Hds]. split; cbn; [done|]. eapply Forall_impl; [exact Hds|]. intros d (e & He & Hd).
  destruct (decide (name = dc_name d)) as [->|Hne].
  - eexists. rewrite lookup_alter_eq, He. by split.
  - exists e. by rewrite lookup_alter_ne.
Qed.

Lemma do_metrics_declares r cs r' ds :
  declares r ds -> do_metrics r cs = Some r' -> declares r' (ds ++ omap declared cs).
Proof using Type.
  revert r ds. induction cs as [|c cs IH]; intros r ds Hr; cbn [do_metrics]; [intros [= <-]; by rewrite app_nil_r|].
  destruct (do_metric r c) as [r1|] eqn:E; [|done]. intros Hcs.
  assert (declares r1 (ds ++ option_list (declared c))) as H1.
  { destruct c as [| | | | | | | |name [l|]|name [l|]|name [l|]|name [l|]|component]; cbn in E |- *;
      try (injection E as <-; rewrite app_nil_r; by apply on_entry_declares);
      (eapply register_declares; [exact Hr| |exact E]; by split_and!). }
  specialize (IH r1 _ H1 Hcs). rewrite <- app_assoc in IH. by destruct (declared c) eqn:Ed; cbn; rewrite Ed.
Qed.

Lemma NewRegistry_typed : well_typed NewRegistry.
Proof using Type. split; cbn; [constructor| |done]. intros name. rewrite lookup_empty. set_solver. Qed.

(** ** Rendering *)

Definition typeName (k : metricKind) : bytes :=
  match k with kindCounter => lit "counter" | kindHistogram => lit "histogram" | kindGauge => lit "gauge" end.

Context (quote : bytes -> bytes) (formatValue : float64 -> bytes).

(** [sort.Strings] of a map's keys. *)
Definition sorted_keys {B} (m : gmap bytes B) : list bytes := merge_sort ble (map_to_list m).*1.

Definition writeSample (name : bytes) (labelNames : list bytes) (labelValue value : bytes) : bytes :=
  match labelNames with
  | [] => name ++ lit " " ++ value ++ [x0a]
  | l :: _ => name ++ lit "{" ++ l ++ lit "=" ++ quote labelValue ++ lit "} " ++ value ++ [x0a]
  end.

Definition writeLabeledBucket (name : bytes) (labelNames : list bytes) (labelValue le : bytes) (count : Z) : bytes :=
  let bucketName := name ++ lit "_bucket" in
  match labelNames with
  | [] => bucketName ++ lit "{le=" ++ quote le ++ lit "} " ++ itoa count ++ [x0a]
  | l :: _ => bucketName ++ lit "{" ++ l ++ lit "=" ++ quote labelValue ++ lit ",le=" ++ quote le ++ lit "} " ++
              itoa count ++ [x0a]
  end.

Definition writeHistogram (name : bytes) (labelNames : list bytes) (labelValue : bytes) (h : Histogram) : bytes :=
  let '(cumulative, sum, count) := Histogram_Snapshot h in
  concat (imap (fun i upper => writeLabeledBucket name labelNames labelValue (formatValue upper) (nth i cumulative 0))
               (h_buckets h)) ++
  writeLabeledBucket name labelNames labelValue (lit "+Inf") (List.last cumulative 0) ++
  writeSample (name ++ lit "_sum") labelNames labelValue (formatValue sum) ++
  writeSample (name ++ lit "_count") labelNames labelValue (itoa count).

Definition renderEntry (a : A) (e : entry) : bytes :=
  let sample {B} (m : gmap bytes B) (show : B -> bytes) (dft : B) :=
    concat ((fun l => writeSample (e_name e) (e_labelNames e) l (show (default dft (m !! l)))) <$> sorted_keys m) in
  match e_payload e with
  | OfCollector collect => sample (collect a) formatValue f_zero
  | OfCounter c => writeSample (e_name e) [] [] (formatValue (f_of_Z c))
  | OfGauge g => writeSample (e_name e) [] [] (formatValue g)
  | OfHistogram h => writeHistogram (e_name e) [] [] h
  | OfCounterVec m => sample m (fun c => formatValue (f_of_Z c)) 0
  | OfGaugeVec m => sample m formatValue f_zero
  | OfHistVec m bs =>
      concat ((fun l => writeHistogram (e_name e) (e_labelNames e) l (default (newHistogram bs) (m !! l))) <$> sorted_keys m)
  end.

Definition render_family (a : A) (e : entry) : bytes :=
  lit "# HELP " ++ e_name e ++ lit " " ++ e_help e ++ [x0a] ++
  lit "# TYPE " ++ e_name e ++ lit " " ++ typeName (e_kind e) ++ [x0a] ++ renderEntry a e.

Definition Render (r : Registry) (a : A) : bytes :=
  concat ((fun name => match entries r !! name with Some e => render_family a e | None => [] end) <$> reg_order r).

(** ** What a scrape shows *)

(** A series of a family: its label, if the family has one, and its value. *)
Inductive series_value := Scalar (v : float64) | Distribution (h : Histogram).
Record series := MkSeries { s_label : option (bytes * bytes); s_value : series_value }.
Record family := MkFamily { f_name : bytes; f_help : bytes; f_kind : metricKind; f_series : list series }.

Definition labelled {B} (label : bytes) (value : B -> series_value) (m : gmap bytes B) : list series :=
  omap (fun k => (fun v => MkSeries (Some (label, k)) (value v)) <$> m !! k) (sorted_keys m).

Definition series_of (a : A) (e : entry) : list series :=
  match e_payload e, e_labelNames e with
  | OfCollector collect, [] => (fun k => MkSeries None (Scalar (default f_zero (collect a !! k)))) <$> sorted_keys (collect a)
  | OfCollector collect, l :: _ => labelled l Scalar (collect a)
  | OfCounter c, _ => [MkSeries None (Scalar (f_of_Z c))]
  | OfGauge g, _ => [MkSeries None (Scalar g)]
  | OfHistogram h, _ => [MkSeries None (Distribution h)]
  | OfCounterVec m, l => labelled (default [] (head l)) (fun c => Scalar (f_of_Z c)) m
  | OfGaugeVec m, l => labelled (default [] (head l)) Scalar m
  | OfHistVec m _, l => labelled (default [] (head l)) Distribution m
  end.

Definition family_of (a : A) (e : entry) : family := MkFamily (e_name e) (e_help e) (e_kind e) (series_of a e).
Definition families (r : Registry) (a : A) : list family :=
  omap (fun name => family_of a <$> entries r !! name) (reg_order r).

Definition show_series (name : bytes) (s : series) : bytes :=
  let names := match s_label s with Some (l, _) => [l] | None => [] end in
  let label := match s_label s with Some (_, v) => v | None => [] end in
  match s_value s with
  | Scalar v => writeSample name names label (formatValue v)
  | Distribution h => writeHistogram name names label h
  end.
Definition show_family (f : family) : bytes :=
  lit "# HELP " ++ f_name f ++ lit " " ++ f_help f ++ [x0a] ++
  lit "# TYPE " ++ f_name f ++ lit " " ++ typeName (f_kind f) ++ [x0a] ++ concat (show_series (f_name f) <$> f_series f).

(** A family is what a declaration asked for: its name, help text and kind;
    distributions with a count per bucket and one for the rest if it is a
    histogram, single values otherwise; under the declared label, or as one
    series without a label; and no series twice. *)
Record family_ok (d : declaration) (f : family) : Prop := {
  fo_name : f_name f = dc_name d;
  fo_help : f_help f = dc_help d;
  fo_kind : f_kind f = dc_kind d;
  fo_type : Forall (fun s => match s_value s with
                             | Scalar _ => dc_kind d <> kindHistogram
                             | Distribution h => dc_kind d = kindHistogram /\ whole h end) (f_series f);
  fo_unique : NoDup (s_label <$> f_series f);
  fo_label : match dc_label d with
             | None => exists s, f_series f = [s] /\ s_label s = None
             | Some l => Forall (fun s => exists v, s_label s = Some (l, v)) (f_series f)
             end }.

Lemma sorted_keys_elem {B} (m : gmap bytes B) k : k ∈ sorted_keys m <-> is_Some (m !! k).
Proof using Type.
  unfold sorted_keys. rewrite merge_sort_Permutation, list_elem_of_fmap. split.
  - intros ([k' v] & -> & Hkv). apply elem_of_map_to_list in Hkv. by exists v.
  - intros [v Hv]. exists (k, v). split; [done|]. by apply elem_of_map_to_list.
Qed.

Lemma sorted_labels_NoDup {B} (m : gmap bytes B) : NoDup (sorted_keys m).
Proof using Type. unfold sorted_keys. rewrite merge_sort_Permutation. apply NoDup_fst_map_to_list. Qed.

Lemma labelled_shown {B} (label : bytes) (value : B -> series_value) (m : gmap bytes B) name (show : bytes -> B -> bytes) (dft : B) :
  (forall k v, show_series name (MkSeries (Some (label, k)) (value v)) = show k v) ->
  concat (show_series name <$> labelled label value m) = concat ((fun k => show k (default dft (m !! k))) <$> sorted_keys m).
Proof using Type.
  intros Hs. unfold labelled. pose proof (fun k => proj1 (sorted_keys_elem m k)) as Hin.
  induction (sorted_keys m) as [|k ks IH]; [done|]. cbn. destruct (Hin k) as [v Hv]; [by left|].
  rewrite Hv. cbn. rewrite Hs, IH; [done|]. intros k' Hk'. apply Hin. by right.
Qed.

Lemma labelled_labels {B} (label : bytes) (value : B -> series_value) (m : gmap bytes B) :
  s_label <$> labelled label value m = (fun k => Some (label, k)) <$> sorted_keys m.
Proof using Type.
  unfold labelled. pose proof (fun k => proj1 (sorted_keys_elem m k)) as Hin.
  induction (sorted_keys m) as [|k ks IH]; [done|]. cbn. destruct (Hin k) as [v Hv]; [by left|].
  rewrite Hv. cbn. rewrite IH; [done|]. intros k' Hk'. apply Hin. by right.
Qed.

Lemma labelled_values {B} (label : bytes) (value : B -> series_value) (m : gmap bytes B) s :
  s ∈ labelled label value m -> exists k v, m !! k = Some v /\ s = MkSeries (Some (label, k)) (value v).
Proof using Type.
  unfold labelled. rewrite list_elem_of_omap. intros (k & _ & (v & Hv & ->)%fmap_Some). by exists k, v.
Qed.

Lemma labelled_ok {B} (name help : bytes) (kind : metricKind) (label : bytes) (value : B -> series_value) (m : gmap bytes B) :
  (forall k v, m !! k = Some v -> match value v with
                             | Scalar _ => kind <> kindHistogram
                             | Distribution h => kind = kindHistogram /\ whole h end) ->
  family_ok (MkDecl name help kind (Some label)) (MkFamily name help kind (labelled label value m)).
Proof using Type.
  intros Hv. split; cbn; try done.
  - apply Forall_forall. intros s (k & v & Hm & ->)%labelled_values. by apply (Hv k).
  - rewrite labelled_labels. apply NoDup_fmap_2; [by intros ?? [= ->]|apply sorted_labels_NoDup].
  - apply Forall_forall. intros s (k & v & Hm & ->)%labelled_values. by exists k.
Qed.

Lemma alone_ok (name help : bytes) (kind : metricKind) s : s_label s = None ->
  match s_value s with Scalar _ => kind <> kindHistogram | Distribution h => kind = kindHistogram /\ whole h end ->
  family_ok (MkDecl name help kind None) (MkFamily name help kind [s]).
Proof using Type. intros Hl Hv. split; cbn; [done..|by constructor|apply NoDup_singleton|]. by exists s. Qed.

Lemma sorted_keys_single {B} k (v : B) : sorted_keys {[ k := v ]} = [k].
Proof using Type. unfold sorted_keys. rewrite map_to_list_singleton. done. Qed.

(** Rendering a well-typed entry prints its family. *)
Lemma family_of_ok a d e : entry_for d e -> typed e ->
  family_ok d (family_of a e) /\ render_family a e = show_family (family_of a e).
Proof using Type.
  destruct d as [dn dh dk dl]. intros (En & Eh & Ekd & Eld). cbn in En, Eh, Ekd, Eld.
  unfold family_of, show_family, render_family, renderEntry, series_of, typed. cbn [f_name f_help f_kind f_series].
  rewrite En, Eh. subst dk.
  assert (forall l, e_labelNames e = [l] -> dl = Some l) as Hsome by (intros l El; rewrite El in Eld; destruct dl; naive_solver).
  assert (e_labelNames e = [] -> dl = None) as Hnone by (intros El; rewrite El in Eld; by destruct dl).
  clear Eld. destruct (e_payload e) as [collect|c|g|h|m|m|m bs] eqn:Ep.
  - intros (Ek & [[El Hc]|[l El]]); rewrite Ek, El; [rewrite (Hnone El)|rewrite (Hsome l El)].
    + destruct (Hc a) as [v ->]. rewrite sorted_keys_single. cbn. rewrite lookup_singleton_eq. split; [by apply alone_ok|done].
    + split; [apply labelled_ok; by intros|].
      by rewrite (labelled_shown l Scalar _ dn (fun k v => writeSample dn [l] k (formatValue v)) f_zero) by done.
  - intros [Ek El]. rewrite Ek, (Hnone El). cbn. rewrite app_nil_r. split; [by apply alone_ok|done].
  - intros [Ek El]. rewrite Ek, (Hnone El). cbn. rewrite app_nil_r. split; [by apply alone_ok|done].
  - intros (Ek & El & Hw). rewrite Ek, (Hnone El). cbn [fmap list_fmap concat]. rewrite app_nil_r. split; [by apply alone_ok|done].
  - intros (Ek & l & El). rewrite Ek, El, (Hsome l El). split; [apply labelled_ok; by intros|].
    by rewrite (labelled_shown l (fun c => Scalar (f_of_Z c)) _ dn
      (fun k c => writeSample dn [l] k (formatValue (f_of_Z c))) 0) by done.
  - intros (Ek & l & El). rewrite Ek, El, (Hsome l El). split; [apply labelled_ok; by intros|].
    by rewrite (labelled_shown l Scalar _ dn (fun k v => writeSample dn [l] k (formatValue v)) f_zero) by done.
  - intros (Ek & (l & El) & Hw). rewrite Ek, El, (Hsome l El). split; [apply labelled_ok; intros k h Hh; split; [done|by apply (Hw k)]|].
    by rewrite (labelled_shown l Distribution _ dn (fun k h => writeHistogram dn [l] k h) (newHistogram bs)) by done.
Qed.

Lemma Render_families r ds a : well_typed r -> declares r ds ->
  Render r a = concat (show_family <$> families r a) /\ Forall2 family_ok ds (families r a).
Proof using Type.
  intros [_ Hk Hn] [Ho Hds]. unfold Render, families. rewrite Ho. clear Ho Hk.
  induction Hds as [|d ds (e & He & Hd) _ IH]; [done|]. cbn -[render_family show_family family_of].
  rewrite He. cbn -[render_family show_family family_of].
  destruct IH as [I1 I2]. destruct (Hn _ _ He) as [_ Ht].
  destruct (family_of_ok a d e Hd Ht) as [Hok ->]. split; [by f_equal|by constructor].
Qed.

End Registry.
Arguments payload : clear implicits.
Arguments entry : clear implicits.
Arguments Registry : clear implicits.
Arguments metric_call : clear implicits.

(** ** The catalog: catalog.go *)

Definition namespace : bytes := lit "forgedb_".

(** The package's variables in their order, then [init]. *)
Definition catalog {A} (uptime : A -> float64) : list (metric_call A) :=
  [CallNewGaugeVec (namespace ++ lit "node_info") (lit "Always 1; identifies this process by node_id.") (lit "node_id");
   CallNewCounterVec (namespace ++ lit "errors_total") (lit "Total failures recorded, by component.") (lit "component");
   CallNewCounter (namespace ++ lit "raft_elections_started_total") (lit "Elections this node has started as a candidate.");
   CallNewCounter (namespace ++ lit "raft_elections_won_total") (lit "Elections this node has won, becoming leader.");
   CallNewCounter (namespace ++ lit "raft_elections_lost_total") (lit "Elections this node started as a candidate but did not win.");
   CallNewCounter (namespace ++ lit "raft_leader_changes_total") (lit "Times this node observed its known leader change (including becoming leader itself).");
   CallNewCounter (namespace ++ lit "raft_higher_term_steps_down_total") (lit "Times this node stepped down to Follower after observing a higher term.");
   CallNewCounter (namespace ++ lit "raft_append_entries_sent_total") (lit "AppendEntries RPCs this node has sent as leader.");
   CallNewCounter (namespace ++ lit "raft_append_entries_success_total") (lit "AppendEntries RPCs that were acknowledged with Success=true.");
   CallNewCounter (namespace ++ lit "raft_append_entries_failed_total") (lit "AppendEntries RPCs that failed delivery or were rejected (Success=false).");
   CallNewCounter (namespace ++ lit "raft_entries_replicated_total") (lit "Log entries newly confirmed as matched on a follower.");
   CallNewCounter (namespace ++ lit "raft_entries_committed_total") (lit "Log entries newly committed on this node (leader or follower).");
   CallNewCounter (namespace ++ lit "raft_snapshots_created_total") (lit "Snapshots this node has created.");
   CallNewCounter (namespace ++ lit "raft_snapshots_installed_total") (lit "Snapshots this node has installed from a leader.");
   CallNewCounter (namespace ++ lit "raft_snapshot_failures_total") (lit "Snapshot create/install attempts that failed (e.g. a persistence error).");
   CallNewCounter (namespace ++ lit "raft_snapshot_bytes_total") (lit "Cumulative bytes across every snapshot this node has created or installed.");
   CallNewCounter (namespace ++ lit "raft_read_index_total") (lit "ReadIndex calls attempted.");
   CallNewCounter (namespace ++ lit "raft_read_index_success_total") (lit "ReadIndex calls that established a confirmed read barrier.");
   CallNewCounter (namespace ++ lit "raft_read_index_failure_total") (lit "ReadIndex calls that failed (not leader, or could not confirm quorum).");
   CallNewCounter (namespace ++ lit "consistent_get_total") (lit "ConsistentGet calls attempted.");
   CallNewCounter (namespace ++ lit "consistent_get_success_total") (lit "ConsistentGet calls that completed (including a resolved key-not-found).");
   CallNewCounter (namespace ++ lit "consistent_get_failure_total") (lit "ConsistentGet calls that failed before a storage read (not leader, read barrier unavailable, or context cancelled).");
   CallNewHistogram (namespace ++ lit "consistent_get_latency_seconds") (lit "ConsistentGet call latency in seconds.") DefaultLatencyBuckets;
   CallNewCounter (namespace ++ lit "state_machine_commands_total") (lit "Commands presented to the state machine via Apply.");
   CallNewCounter (namespace ++ lit "state_machine_apply_success_total") (lit "Apply calls that resolved (successfully or with a deterministic, resolved failure) without an unresolved storage fault.");
   CallNewCounter (namespace ++ lit "state_machine_apply_failure_total") (lit "Apply calls that returned an unresolved storage fault.");
   CallNewCounter (namespace ++ lit "state_machine_dedup_hits_total") (lit "Commands resolved as a replay of an already-applied (ClientID, RequestID).");
   CallNewCounter (namespace ++ lit "state_machine_dedup_conflicts_total") (lit "Commands rejected because a (ClientID, RequestID) was reused for a different command.");
   CallNewCounter (namespace ++ lit "storage_put_total") (lit "Put calls against the storage engine.");
   CallNewCounter (namespace ++ lit "storage_get_total") (lit "Get calls against the storage engine.");
   CallNewCounter (namespace ++ lit "storage_delete_total") (lit "Delete calls against the storage engine.");
   CallNewCounter (namespace ++ lit "storage_key_not_found_total") (lit "Get calls that found no live value for the requested key.");
   CallNewCounter (namespace ++ lit "wal_append_total") (lit "Records appended to the WAL.");
   CallNewCounter (namespace ++ lit "wal_bytes_written_total") (lit "Bytes written to the WAL (encoded record size, including header).");
   CallNewCounter (namespace ++ lit "wal_sync_total") (lit "fsync calls completed against the WAL.");
   CallNewCounter (namespace ++ lit "wal_recovery_total") (lit "WAL replay (recovery) passes performed, one per store open.");
   CallNewCounter (namespace ++ lit "wal_recovery_records_total") (lit "Records replayed from the WAL across every recovery pass.");
   CallNewCounter (namespace ++ lit "wal_corruption_errors_total") (lit "WAL replay passes that stopped early due to a checksum or header corruption.");
   CallNewCounterVec (namespace ++ lit "api_requests_total") (lit "HTTP requests handled, by " ++ [x22] ++ lit "method route status_class" ++ [x22] ++ lit ".") (lit "key");
   CallNewHistogramVec (namespace ++ lit "api_request_latency_seconds") (lit "HTTP request latency in seconds, by route.") (lit "route") DefaultLatencyBuckets;
   CallNewGaugeFunc (namespace ++ lit "node_uptime_seconds") (lit "Seconds since this process started.") uptime].

(** ** Theorems *)


(** C40. A histogram's snapshot is exact whatever the bounds and the values, NaN
    and infinities included: the bounds are the ones given, in increasing
    order; the cumulative count at a bound is the number of observed values
    at most it, the last one and the total are the number of observations,
    all modulo 2^64, and the sum adds the values in order. *)
Theorem Histogram_exact (bounds values : list float64) :
  let h := fold_left Observe values (newHistogram bounds) in
  let '(cumulative, sum, count) := Histogram_Snapshot h in
  h_buckets h ≡ₚ bounds /\ StronglySorted f_ordered (h_buckets h) /\ length cumulative = S (length bounds) /\
  (forall i u, h_buckets h !! i = Some u ->
     cumulative !! i = Some (u64 (zlen (filter (fun v => SFleb v u = true) values)))) /\
  last cumulative = Some (u64 (zlen values)) /\ count = u64 (zlen values) /\ sum = fold_left f_add values f_zero.
Proof.
  cbn zeta. destruct (Observe_all bounds values) as (Hb & Hl & Hs & Ht & Hr). unfold Histogram_Snapshot.
  rewrite Hb, Hs, Ht. pose proof (merge_sort_Permutation f_ordered bounds) as Hp.
  pose proof (StronglySorted_merge_sort f_ordered bounds) as Hso. fold (sort_Float64s bounds) in Hp, Hso.
  split_and!; [done|done|by rewrite running_length| | |done|done].
  - intros i u Hu. pose proof (lookup_lt_Some _ _ _ Hu) as Hi. rewrite Hp in Hi. rewrite Hr by lia. do 2 f_equal.
    unfold upto, zlen. f_equal. f_equal. apply list_filter_iff. intros v.
    rewrite slot_search by done. symmetry. by apply SearchFloat64s_spec.
  - rewrite last_lookup, running_length, Hl. cbn [pred]. rewrite Hr by lia. do 2 f_equal. unfold upto, zlen. f_equal.
    f_equal. clear -Hp Hso. induction values as [|v vs IH]; [done|]. rewrite filter_cons_True; [by f_equal|].
    rewrite slot_search by done. etrans; [apply SearchFloat64s_le|]. by rewrite Hp.
Qed.

(** ** Witnesses *)

Definition demo_calls : list (metric_call unit) :=
  [CallNewCounter (lit "a") (lit "A."); CallCounter (lit "a") None 3;
   CallNewHistogramVec (lit "b") (lit "B.") (lit "route") [f_of_Z 5; f_of_Z 1]; CallObserve (lit "b") (Some (lit "/x")) (f_of_Z 5);
   CallNewGaugeFunc (lit "c") (lit "C.") (fun _ => f_of_Z 7)].
Definition demo_registry : Registry unit := match do_metrics NewRegistry demo_calls with Some r => r | None => NewRegistry end.
(** A stand-in for [strconv.FormatFloat] on small integers. *)
Definition demo_format (x : float64) : bytes :=
  itoa (match x with S754_finite false m e => Z.shiftl (Zpos m) e | _ => 0 end).

Example demo_text :
  Render (fun s => [x22] ++ s ++ [x22]) demo_format demo_registry tt =
  strings_Join [x0a] [lit "# HELP a A."; lit "# TYPE a counter"; lit "a 3"; lit "# HELP b B."; lit "# TYPE b histogram";
    lit "b_bucket{route=" ++ [x22] ++ lit "/x" ++ [x22] ++ lit ",le=" ++ [x22] ++ lit "1" ++ [x22] ++ lit "} 0";
    lit "b_bucket{route=" ++ [x22] ++ lit "/x" ++ [x22] ++ lit ",le=" ++ [x22] ++ lit "5" ++ [x22] ++ lit "} 1";
    lit "b_bucket{route=" ++ [x22] ++ lit "/x" ++ [x22] ++ lit ",le=" ++ [x22] ++ lit "+Inf" ++ [x22] ++ lit "} 1";
    lit "b_sum{route=" ++ [x22] ++ lit "/x" ++ [x22] ++ lit "} 5"; lit "b_count{route=" ++ [x22] ++ lit "/x" ++ [x22] ++ lit "} 1";
    lit "# HELP c C."; lit "# TYPE c gauge"; lit "c 7"; []].
Proof. vm_compute. reflexivity. Qed.

