(* ===== verification/Wal.v ===== *)
(** * The write-ahead log

    internal/storage/wal: the record format of record.go and the log file of
    wal.go. The file is its content, the descriptor's offset and how much of
    the content has reached stable storage; every I/O call that can fail
    takes its outcome as an argument, so a theorem quantifies over faults. *)

From S2P Require Import Prelude Bytes.
From stdpp Require Import base tactics list numbers.
From Stdlib Require Import Strings.Byte.
From Stdlib Require Import ZArith Lia.
#[local] Open Scope Z_scope.

(** ** Records: record.go *)

Definition OpPut : byte := x01.
Definition OpDelete : byte := x02.

Record WalRecord := MkWalRecord {
  rec_Type : byte;
  rec_Key : bytes;
  rec_Value : bytes }.

#[export] Instance WalRecord_eq_dec : EqDecision WalRecord.
Proof. solve_decision. Defined.

Definition headerSize : nat := 13.
Definition maxKeySize : Z := 2 ^ 20.
Definition maxValueSize : Z := 2 ^ 26.

(** The errors of the package; [ErrIO] is any error the operating system
    returned, [ErrApply] one the replay callback returned. *)
Inductive wal_error :=
| ErrUnknownType | ErrKeyEmpty | ErrKeyTooLong | ErrValueTooLong
| ErrHeaderSize | ErrCorrupt | ErrIO | ErrApply.

#[export] Instance wal_error_eq_dec : EqDecision wal_error.
Proof. solve_decision. Defined.

Record header := MkHeader {
  h_checksum : Z;
  h_opType : byte;
  h_keyLen : Z;
  h_valLen : Z }.

Definition known_op (t : byte) : bool :=
  bool_decide (t = OpPut) || bool_decide (t = OpDelete).

(** The bytes the checksum covers, offsets 4 onward. *)
Definition record_body (r : WalRecord) : bytes :=
  [rec_Type r] ++ put_u32 (zlen (rec_Key r)) ++ put_u32 (zlen (rec_Value r))
  ++ rec_Key r ++ rec_Value r.

Definition encodeRecord (r : WalRecord) : result wal_error bytes :=
  if negb (known_op (rec_Type r)) then Err ErrUnknownType
  else if zlen (rec_Key r) =? 0 then Err ErrKeyEmpty
  else if zlen (rec_Key r) >? maxKeySize then Err ErrKeyTooLong
  else if zlen (rec_Value r) >? maxValueSize then Err ErrValueTooLong
  else Ok (put_u32 (checksum (record_body r)) ++ record_body r).

Definition decodeHeader (buf : bytes) : result wal_error header :=
  if negb (bool_decide (length buf = headerSize)) then Err ErrHeaderSize
  else
    let h := {| h_checksum := le_get (slice 0 4 buf);
                h_opType := default x00 (buf !! 4%nat);
                h_keyLen := le_get (slice 5 9 buf);
                h_valLen := le_get (slice 9 13 buf) |} in
    if negb (known_op (h_opType h)) then Err ErrUnknownType
    else if h_keyLen h =? 0 then Err ErrKeyEmpty
    else if h_keyLen h >? maxKeySize then Err ErrKeyTooLong
    else if h_valLen h >? maxValueSize then Err ErrValueTooLong
    else Ok h.

(** ** The log file: wal.go *)

Record WAL := MkWAL {
  w_data : bytes;    (* the file's content *)
  w_pos : nat;       (* the descriptor's offset *)
  w_synced : nat }.  (* the length of the prefix that is on stable storage *)

(** [os.File.Write] at the descriptor's offset: the bytes overwrite what
    is there, a gap past the end of the file reads as zeros. *)
Definition file_write (w : WAL) (b : bytes) : WAL :=
  let gap := replicate (w_pos w - length (w_data w)) x00 in
  {| w_data := take (w_pos w) (w_data w) ++ gap ++ b
               ++ drop (w_pos w + length b) (w_data w);
     w_pos := w_pos w + length b;
     w_synced := Nat.min (w_synced w) (w_pos w) |}.

(** [Open] of a path: an existing file keeps its content, the descriptor
    starts at 0. *)
Definition wal_open (content : bytes) : WAL :=
  {| w_data := content; w_pos := 0; w_synced := length content |}.

Definition seekTo (w : WAL) (offset : nat) : WAL :=
  {| w_data := w_data w; w_pos := offset; w_synced := w_synced w |}.

Definition truncateTornTail (w : WAL) (offset : nat) : WAL :=
  seekTo {| w_data := take offset (w_data w); w_pos := w_pos w;
            w_synced := Nat.min (w_synced w) offset |} offset.

(** [Append]'s write: [None] when it succeeds, [Some k] when it fails after
    [k] bytes reached the file. *)
Definition Append (w : WAL) (fault : option nat) (r : WalRecord) :
    WAL * result wal_error unit :=
  match encodeRecord r with
  | Err e => (w, Err e)
  | Ok data =>
      match fault with
      | Some k => (file_write w (take k data), Err ErrIO)
      | None => (file_write w data, Ok tt)
      end
  end.

(** [Sync]: when it succeeds, everything written so far is on stable
    storage, as fsync is specified, also what an earlier, failed call did not
    get there. *)
Definition Sync (w : WAL) (fails : bool) : WAL * result wal_error unit :=
  if fails then (w, Err ErrIO)
  else ({| w_data := w_data w; w_pos := w_pos w; w_synced := length (w_data w) |}, Ok tt).

(** A crash keeps the synced prefix and any number of the bytes after it. *)
Definition crash (w : WAL) (extra : nat) : bytes := take (w_synced w + extra) (w_data w).

(** ** Replay *)

(** How the read loop ends, with the number of records applied: at a record
    boundary, inside a record, at a corrupt record, or because the callback
    failed. *)
Inductive replay_end :=
| AtBoundary (offset : nat)
| AtTornTail (offset : nat)
| AtCorrupt
| AtApplyError.

Section Replay.
Context {S : Type} (fn : S -> WalRecord -> option S).

(** One iteration: [None] for [io.ReadFull]'s two end-of-file outcomes is
    split by the caller on whether any byte was left. *)
Fixpoint replay_loop (fuel : nat) (rest : bytes) (offset : nat) (s : S) :
    S * replay_end :=
  match fuel with
  | O => (s, AtCorrupt)
  | Datatypes.S fuel =>
      if bool_decide (rest = []) then (s, AtBoundary offset)
      else if bool_decide (length rest < headerSize)%nat then (s, AtTornTail offset)
      else
        let headerBuf := take headerSize rest in
        match decodeHeader headerBuf with
        | Err _ => (s, AtCorrupt)
        | Ok hdr =>
            let n := Z.to_nat (h_keyLen hdr + h_valLen hdr) in
            let rest' := drop headerSize rest in
            if bool_decide (length rest' < n)%nat then (s, AtTornTail offset)
            else
              let payload := take n rest' in
              let body := drop 4 headerBuf ++ payload in
              if negb (checksum body =? h_checksum hdr) then (s, AtCorrupt)
              else
                let r := {| rec_Type := h_opType hdr;
                            rec_Key := take (Z.to_nat (h_keyLen hdr)) payload;
                            rec_Value := drop (Z.to_nat (h_keyLen hdr)) payload |} in
                match fn s r with
                | None => (s, AtApplyError)
                | Some s' => replay_loop fuel (drop n rest') (offset + headerSize + n) s'
                end
        end
  end.

(** [Replay] reads the whole file from its start and leaves the descriptor
    at the end of the last complete record. Each iteration consumes at
    least a header, so the content's length is enough fuel. *)
Definition Replay (w : WAL) (s : S) : WAL * S * result wal_error unit :=
  match replay_loop (Datatypes.S (length (w_data w))) (w_data w) 0 s with
  | (s', AtBoundary offset) => (seekTo w offset, s', Ok tt)
  | (s', AtTornTail offset) => (truncateTornTail w offset, s', Ok tt)
  | (s', AtCorrupt) => (w, s', Err ErrCorrupt)
  | (s', AtApplyError) => (w, s', Err ErrApply)
  end.
End Replay.

(** ** Records as framed byte strings *)

(** The records [encodeRecord] accepts. *)
Definition valid_record (r : WalRecord) : Prop :=
  known_op (rec_Type r) = true /\ 0 < zlen (rec_Key r) <= maxKeySize /\
  zlen (rec_Value r) <= maxValueSize.

Definition frame (r : WalRecord) : bytes :=
  put_u32 (checksum (record_body r)) ++ record_body r.

(** The file content of a sequence of records. *)
Definition frames (rs : list WalRecord) : bytes := concat (frame <$> rs).

Lemma frames_cons r rs : frames (r :: rs) = frame r ++ frames rs.
Proof. reflexivity. Qed.

Lemma frames_app rs rs' : frames (rs ++ rs') = frames rs ++ frames rs'.
Proof. unfold frames. by rewrite fmap_app, concat_app. Qed.

#[global] Arguments frame : simpl never.
#[global] Arguments frames : simpl never.

Lemma encodeRecord_ok r b :
  encodeRecord r = Ok b <-> valid_record r /\ b = frame r.
Proof.
  unfold encodeRecord, valid_record, frame.
  pose proof (zlen_nonneg (rec_Key r)).
  repeat case_if; zbool; split; intros; destruct_and?; simplify_eq/=; try done; try lia.
  - congruence.
  - split; [|done]. split; [done|]. lia.
Qed.

Lemma encodeRecord_err r e : encodeRecord r = Err e -> e <> ErrIO.
Proof. unfold encodeRecord. repeat case_if; congruence. Qed.

Lemma frame_length r :
  length (frame r) = (headerSize + (length (rec_Key r) + length (rec_Value r)))%nat.
Proof.
  unfold frame, record_body. rewrite !length_app, !le_put_length. unfold headerSize. simpl. lia.
Qed.

(** The header of a record, split off its payload. *)
Definition frame_header (r : WalRecord) : bytes :=
  put_u32 (checksum (record_body r)) ++ [rec_Type r]
  ++ put_u32 (zlen (rec_Key r)) ++ put_u32 (zlen (rec_Value r)).

Lemma frame_split r : frame r = frame_header r ++ (rec_Key r ++ rec_Value r).
Proof. unfold frame, frame_header, record_body. by rewrite <- !app_assoc. Qed.

Lemma frame_header_length r : length (frame_header r) = headerSize.
Proof. unfold frame_header. rewrite !length_app, !le_put_length. reflexivity. Qed.

Lemma record_body_split r :
  record_body r = drop 4 (frame_header r) ++ (rec_Key r ++ rec_Value r).
Proof.
  unfold frame_header. rewrite drop_app_length' by (by rewrite le_put_length).
  unfold record_body. by rewrite <- !app_assoc.
Qed.

Lemma slice_key_len r : slice 5 9 (frame_header r) = put_u32 (zlen (rec_Key r)).
Proof. unfold frame_header. by slices. Qed.

Lemma slice_val_len r : slice 9 13 (frame_header r) = put_u32 (zlen (rec_Value r)).
Proof. unfold frame_header. by slices. Qed.

Lemma slice_sum r : slice 0 4 (frame_header r) = put_u32 (checksum (record_body r)).
Proof. unfold frame_header. by slices. Qed.

Lemma decode_frame_header r :
  valid_record r ->
  decodeHeader (frame_header r) =
  Ok {| h_checksum := checksum (record_body r); h_opType := rec_Type r;
        h_keyLen := zlen (rec_Key r); h_valLen := zlen (rec_Value r) |}.
Proof.
  intros (Hop & Hk & Hv). unfold decodeHeader. rewrite frame_header_length.
  rewrite bool_decide_eq_true_2, slice_key_len, slice_val_len, slice_sum by done.
  unfold frame_header. rewrite !le_get_put_u32 by
    (try apply checksum_range; unfold is_u32, maxKeySize, maxValueSize in *; zlen_lia).
  rewrite lookup_app_r, le_put_length by (rewrite le_put_length; lia). cbn.
  rewrite Hop. cbn. repeat case_if; zbool; try lia. done.
Qed.

(** ** The read loop on framed records *)

Section ReplayFacts.
Context {S : Type} (fn : S -> WalRecord -> option S).
Implicit Types (s : S) (r : WalRecord).

Lemma replay_loop_fuel n m rest off s :
  (length rest < n)%nat -> (length rest < m)%nat ->
  replay_loop fn n rest off s = replay_loop fn m rest off s.
Proof.
  revert m rest off s. induction n as [|n IH]; intros m rest off s Hn Hm; [lia|].
  destruct m as [|m]; [lia|]. simpl.
  repeat (case_if; try done). destruct (decodeHeader _) as [hdr|]; [|done].
  repeat (case_if; try done). zbool.
  destruct (fn _ _); [|done]. apply IH; rewrite !length_drop; unfold headerSize in *; lia.
Qed.

(** A complete record at the front is passed to the callback. *)
Lemma replay_loop_frame n r rest off s :
  valid_record r ->
  replay_loop fn (Datatypes.S n) (frame r ++ rest) off s =
  match fn s r with
  | None => (s, AtApplyError)
  | Some s' => replay_loop fn n rest (off + length (frame r)) s'
  end.
Proof.
  intros Hr. rewrite frame_length. rewrite frame_split, <- app_assoc.
  set (p := rec_Key r ++ rec_Value r). cbn [replay_loop].
  rewrite !(bool_decide_eq_false_2 (_ = [])) by
    (intros H%(f_equal length); rewrite length_app, frame_header_length in H; done).
  rewrite bool_decide_eq_false_2 by
    (rewrite !length_app, frame_header_length; lia).
  rewrite take_app_length' by (by rewrite frame_header_length).
  rewrite drop_app_length' by (by rewrite frame_header_length).
  rewrite decode_frame_header by done. cbn.
  assert (Z.to_nat (zlen (rec_Key r) + zlen (rec_Value r)) = length p) as ->
    by (unfold p, zlen; rewrite length_app; lia).
  rewrite bool_decide_eq_false_2 by (rewrite !length_app; lia).
  rewrite take_app_length, drop_app_length.
  unfold p at 1. rewrite <- record_body_split, Z.eqb_refl. cbn.
  rewrite to_nat_zlen. unfold p at 1 2. rewrite take_app_length, drop_app_length.
  replace {| rec_Type := _; rec_Key := _; rec_Value := _ |} with r by (by destruct r).
  destruct (fn s r); [|done]. f_equal. unfold p, headerSize. rewrite length_app. lia.
Qed.

(** A strict, non-empty prefix of a record is a torn tail. *)
Lemma replay_loop_torn n r k off s :
  valid_record r -> (0 < k < length (frame r))%nat ->
  replay_loop fn (Datatypes.S n) (take k (frame r)) off s = (s, AtTornTail off).
Proof.
  intros Hr Hk. cbn [replay_loop].
  assert (length (take k (frame r)) = k) as Hlen by (rewrite length_take; lia).
  rewrite bool_decide_eq_false_2 by (intros H%(f_equal length); simpl in H; lia).
  case_if; [done|]. zbool. rewrite Hlen in E.
  rewrite frame_split in *. rewrite length_app, frame_header_length in Hk.
  rewrite take_app_ge by (rewrite frame_header_length; lia).
  rewrite take_app_length' by (by rewrite frame_header_length).
  rewrite drop_app_length' by (by rewrite frame_header_length).
  rewrite decode_frame_header by done. cbn.
  rewrite bool_decide_eq_true_2; [done|].
  rewrite length_take, frame_header_length. rewrite length_app in Hk |- *. unfold zlen. lia.
Qed.

Definition apply_all (s : S) (rs : list WalRecord) : option S :=
  foldl (fun o r => match o with Some s => fn s r | None => None end) (Some s) rs.

Lemma apply_all_cons s r rs :
  apply_all s (r :: rs) = match fn s r with Some s' => apply_all s' rs | None => None end.
Proof.
  unfold apply_all. simpl. destruct (fn s r); [done|]. induction rs; simpl; auto.
Qed.

Lemma replay_loop_frames n rs rest off s s' :
  Forall valid_record rs -> apply_all s rs = Some s' ->
  replay_loop fn (length rs + n) (frames rs ++ rest) off s =
  replay_loop fn n rest (off + length (frames rs)) s'.
Proof.
  intros Hrs. revert off s. induction Hrs as [|r rs Hr _ IH]; intros off s H.
  { unfold apply_all in H. simpl in *. simplify_eq. by rewrite Nat.add_0_r. }
  rewrite apply_all_cons in H. rewrite frames_cons, <- app_assoc. cbn [length].
  change (Datatypes.S (length rs) + n)%nat with (Datatypes.S (length rs + n)).
  rewrite replay_loop_frame by done. destruct (fn s r) as [s1|]; [|done].
  rewrite IH, length_app by done. f_equal. lia.
Qed.

Lemma frames_length_ge rs : (length rs <= length (frames rs))%nat.
Proof.
  induction rs as [|r rs IH]; cbn [length]; [lia|].
  rewrite frames_cons, length_app, frame_length.
  unfold headerSize. lia.
Qed.

Lemma replay_loop_file fuel rs rest s s' :
  Forall valid_record rs -> apply_all s rs = Some s' ->
  (length (frames rs ++ rest) < fuel)%nat ->
  replay_loop fn fuel (frames rs ++ rest) 0 s =
  replay_loop fn (Datatypes.S (length rest)) rest (length (frames rs)) s'.
Proof.
  intros Hrs Hs Hfuel. pose proof (frames_length_ge rs). rewrite length_app in Hfuel.
  rewrite (replay_loop_fuel _ (length rs + (fuel - length rs))) by
    (rewrite length_app; lia).
  rewrite (replay_loop_frames _ _ _ _ _ _ Hrs Hs).
  apply replay_loop_fuel; lia.
Qed.
End ReplayFacts.

(** ** What recovery guarantees *)

(** What a crash can leave after the last complete record. *)
Definition torn_tail (tail : bytes) : Prop :=
  tail = [] \/
  exists r k, valid_record r /\ (0 < k < length (frame r))%nat /\ tail = take k (frame r).

Section Recovery.
Context {S : Type} (fn : S -> WalRecord -> option S).

Lemma replay_loop_tail n tail off s :
  torn_tail tail ->
  replay_loop fn (Datatypes.S n) tail off s =
  (s, if decide (tail = []) then AtBoundary off else AtTornTail off).
Proof.
  intros [->|(r & k & Hr & Hk & ->)]; [done|].
  rewrite replay_loop_torn by done. case_decide as H; [|done].
  apply (f_equal length) in H. rewrite length_take in H. simpl in H. lia.
Qed.

Lemma Replay_frames rs tail s s' :
  Forall valid_record rs -> apply_all fn s rs = Some s' -> torn_tail tail ->
  Replay fn (wal_open (frames rs ++ tail)) s =
  ({| w_data := frames rs;
      w_pos := length (frames rs);
      w_synced := length (frames rs) |}, s', Ok tt).
Proof.
  intros Hrs Hs Htail. unfold Replay. cbn [w_data wal_open].
  rewrite (replay_loop_file _ _ _ _ _ _ Hrs Hs) by lia.
  rewrite replay_loop_tail by done. case_decide as Ht.
  - subst. rewrite app_nil_r. done.
  - unfold truncateTornTail, seekTo. cbn. rewrite take_app_length.
    f_equal. f_equal. f_equal. rewrite length_app. lia.
Qed.
End Recovery.

(** Cutting a file of records anywhere leaves complete records and a torn
    tail; a cut at or after the end of the first [m] keeps those. *)
Lemma take_frames rs n m :
  Forall valid_record rs -> (m <= length rs)%nat ->
  (length (frames (take m rs)) <= n)%nat ->
  exists j tail, (m <= j <= length rs)%nat /\ torn_tail tail /\
    take n (frames rs) = frames (take j rs) ++ tail.
Proof.
  intros Hrs. revert n m. induction Hrs as [|r rs Hr Hrs IH]; intros n m Hm Hn.
  { exists 0%nat, []. simpl in *. split; [lia|]. split; [by left|]. unfold frames. simpl. by rewrite take_nil. }
  rewrite frames_cons. cbn [length] in *.
  assert (m = 0%nat \/ (0 < m /\ length (frame r) + length (frames (take (m - 1) rs)) <= n)%nat)
    as Hm0.
  { destruct m as [|m]; [by left|right]. split; [lia|]. cbn [take] in Hn.
    rewrite frames_cons, length_app in Hn. by rewrite Nat.sub_succ, Nat.sub_0_r. }
  destruct (decide (length (frame r) <= n)%nat) as [Hge|Hlt].
  - destruct (IH (n - length (frame r))%nat (m - 1)%nat) as (j & tail & Hj & Ht & E); [lia| |].
    { destruct Hm0 as [->|?]; [|lia]. unfold frames. simpl. lia. }
    exists (Datatypes.S j), tail. split; [lia|]. split; [done|].
    rewrite take_app_ge by lia. rewrite E. cbn [take]. by rewrite frames_cons, app_assoc.
  - exists 0%nat, (take n (frame r)). assert (m = 0%nat) as -> by lia.
    split; [lia|]. rewrite take_app_le by lia. split; [|done].
    destruct n as [|n]; [by left|]. right. exists r, (Datatypes.S n). split_and!; try done; lia.
Qed.

(** [w] holds exactly the records [rs], the descriptor is at the end of the
    file and the first [m] records have been synced. A file whose last
    write failed part way is not one; [wal_inv] below covers it. *)
Definition wal_holds (w : WAL) (rs : list WalRecord) (m : nat) : Prop :=
  Forall valid_record rs /\ (m <= length rs)%nat /\
  w_data w = frames rs /\ w_pos w = length (w_data w) /\
  (length (frames (take m rs)) <= w_synced w <= length (w_data w))%nat.

Lemma file_write_end w b :
  w_pos w = length (w_data w) ->
  file_write w b = {| w_data := w_data w ++ b; w_pos := length (w_data w ++ b);
                      w_synced := Nat.min (w_synced w) (length (w_data w)) |}.
Proof.
  intros H. unfold file_write. rewrite H, Nat.sub_diag, take_ge, drop_ge by lia. simpl.
  by rewrite app_nil_r, length_app.
Qed.

Lemma frames_snoc rs r : frames (rs ++ [r]) = frames rs ++ frame r.
Proof. rewrite frames_app, frames_cons. unfold frames. by rewrite app_nil_r. Qed.

Lemma Append_ok_valid w r w' : Append w None r = (w', Ok tt) -> valid_record r.
Proof.
  unfold Append. destruct (encodeRecord r) eqn:E; [|done]. by apply encodeRecord_ok in E as [? _].
Qed.

Lemma Append_holds w rs m r :
  wal_holds w rs m -> valid_record r ->
  exists w', Append w None r = (w', Ok tt) /\ wal_holds w' (rs ++ [r]) m.
Proof.
  intros (Hrs & Hm & Hd & Hp & Hs) Hr. unfold Append.
  rewrite (proj2 (encodeRecord_ok r _)) by (split; [done|reflexivity]).
  eexists; split; [reflexivity|]. rewrite file_write_end by done.
  unfold wal_holds. cbn. rewrite Hd, <- frames_snoc, take_app_le by done.
  rewrite frames_snoc, !length_app. rewrite Hd in *. simpl.
  split_and!; try done; try lia. apply Forall_app. split; [done|]. by constructor.
Qed.

Lemma Append_ok_grows w rs m r : wal_holds w rs m -> Append w None r <> (w, Ok tt).
Proof.
  intros Hw E. destruct (Append_holds w rs m r Hw (Append_ok_valid _ _ _ E)) as (w' & E' & Hw').
  rewrite E in E'. injection E' as <-. destruct Hw as (_ & _ & Hd & _), Hw' as (_ & _ & Hd' & _).
  rewrite Hd in Hd'. apply (f_equal length) in Hd'. rewrite frames_snoc, length_app, frame_length in Hd'.
  unfold headerSize in Hd'. lia.
Qed.

Lemma Sync_holds w rs m :
  wal_holds w rs m ->
  exists w', Sync w false = (w', Ok tt) /\ wal_holds w' rs (length rs).
Proof.
  intros (Hrs & Hm & Hd & Hp & Hs). eexists; split; [reflexivity|].
  unfold wal_holds. cbn. rewrite firstn_all, <- Hd. split_and!; try done; lia.
Qed.

(** ** Corruption *)

(** A header with the length fields of [r] in front of a payload of that
    length, whose checksum does not match, stops the loop before the
    callback sees it. *)
Lemma replay_loop_bad {S} (fn : S -> WalRecord -> option S) n r hdr p rest off s :
  valid_record r -> length hdr = headerSize ->
  length p = (length (rec_Key r) + length (rec_Value r))%nat ->
  slice 5 9 hdr = put_u32 (zlen (rec_Key r)) ->
  slice 9 13 hdr = put_u32 (zlen (rec_Value r)) ->
  checksum (drop 4 hdr ++ p) <> le_get (slice 0 4 hdr) ->
  replay_loop fn (Datatypes.S n) ((hdr ++ p) ++ rest) off s = (s, AtCorrupt).
Proof.
  intros Hr Hlen Hp Hk Hv Hsum. cbn [replay_loop]. rewrite <- app_assoc.
  rewrite !(bool_decide_eq_false_2 (_ = [])) by
    (intros H%(f_equal length); rewrite length_app, Hlen in H; done).
  rewrite bool_decide_eq_false_2 by (rewrite !length_app, Hlen; lia).
  rewrite take_app_length', drop_app_length' by done.
  unfold decodeHeader. rewrite Hlen, bool_decide_eq_true_2, Hk, Hv by done. cbn.
  destruct Hr as (_ & Hkr & Hvr).
  rewrite !le_get_put_u32 by (unfold is_u32, maxKeySize, maxValueSize in *; zlen_lia).
  case_if; [done|]. do 3 (case_if; [zbool; unfold maxKeySize, maxValueSize in *; lia|]).
  cbn. rewrite bool_decide_eq_false_2 by (rewrite length_app; unfold zlen; lia).
  rewrite take_app_length' by (unfold zlen; lia).
  rewrite (proj2 (Z.eqb_neq _ _)) by done. done.
Qed.

(** Changing one byte of a complete record, outside its two length fields,
    is reported as corruption: first a byte of the header, then one of the
    payload. *)
Lemma corrupt_header_sum r i b b0 :
  frame_header r !! i = Some b0 -> b <> b0 -> (i < 5)%nat ->
  checksum (drop 4 (<[i:=b]> (frame_header r)) ++ rec_Key r ++ rec_Value r) <>
  le_get (slice 0 4 (<[i:=b]> (frame_header r))).
Proof.
  intros Hi Hb Hi5. unfold slice. rewrite drop_0.
  destruct (decide (i < 4)%nat) as [Hi4|Hi4].
  - rewrite drop_insert_lt, <- record_body_split by lia. rewrite take_insert_lt by lia.
    unfold frame_header in *. rewrite take_app_length' by (by rewrite le_put_length).
    rewrite lookup_app_l in Hi by (by rewrite le_put_length). intros Heq.
    rewrite <- (le_get_put_u32 (checksum _)) in Heq at 1 by apply checksum_range.
    apply le_get_inj in Heq; [|by rewrite length_insert].
    rewrite Heq, list_lookup_insert_eq in Hi by (by rewrite le_put_length). congruence.
  - assert (i = 4%nat) as -> by lia. rewrite take_insert_ge, drop_insert_ge by lia.
    rewrite <- insert_app_l by
      (rewrite length_drop, frame_header_length; unfold headerSize; lia).
    rewrite <- record_body_split. unfold frame_header at 1.
    rewrite take_app_length', le_get_put_u32
      by (first [apply checksum_range | by rewrite le_put_length]).
    eapply checksum_detects_insert; [|done]. unfold frame_header in Hi.
    rewrite lookup_app_r, le_put_length in Hi by (by rewrite le_put_length). exact Hi.
Qed.

Lemma corrupt_payload_sum r j b b0 :
  (rec_Key r ++ rec_Value r) !! j = Some b0 -> b <> b0 ->
  checksum (drop 4 (frame_header r) ++ <[j:=b]> (rec_Key r ++ rec_Value r)) <>
  le_get (slice 0 4 (frame_header r)).
Proof.
  intros Hj Hb. rewrite <- insert_app_r, <- record_body_split, slice_sum.
  rewrite le_get_put_u32 by apply checksum_range.
  eapply checksum_detects_insert; [|done]. rewrite record_body_split.
  rewrite lookup_app_r by lia. by replace (_ + _ - _)%nat with j by lia.
Qed.

Lemma replay_loop_corrupt {S} (fn : S -> WalRecord -> option S) n r i b b0 rest off s :
  valid_record r -> frame r !! i = Some b0 -> b <> b0 -> (i < 5 \/ headerSize <= i)%nat ->
  replay_loop fn (Datatypes.S n) (<[i:=b]> (frame r) ++ rest) off s = (s, AtCorrupt).
Proof.
  intros Hr Hi Hb Hrange. rewrite frame_split in Hi |- *.
  destruct (decide (i < headerSize)%nat) as [Hh|Hh].
  - rewrite lookup_app_l in Hi by (by rewrite frame_header_length).
    rewrite insert_app_l by (by rewrite frame_header_length).
    apply (replay_loop_bad fn n r); [done| | | | |].
    + by rewrite length_insert, frame_header_length.
    + apply length_app.
    + unfold slice. rewrite drop_insert_lt by lia. apply (slice_key_len r).
    + unfold slice. rewrite drop_insert_lt by lia. apply (slice_val_len r).
    + eapply corrupt_header_sum; [done..|]. unfold headerSize in *. lia.
  - assert (headerSize <= i)%nat as Hge by lia.
    rewrite lookup_app_r in Hi by (by rewrite frame_header_length).
    rewrite insert_app_r_alt by (by rewrite frame_header_length).
    rewrite frame_header_length in Hi |- *.
    apply (replay_loop_bad fn n r); [done|apply frame_header_length| | | |].
    + rewrite length_insert. apply length_app.
    + apply slice_key_len.
    + apply slice_val_len.
    + by eapply corrupt_payload_sum.
Qed.

(** ** Histories of a log *)

(** A callback that collects the records it is given. *)
Definition collect (s : list WalRecord) (r : WalRecord) : option (list WalRecord) :=
  Some (s ++ [r]).

(** The histories of a log file, through the package's own calls: [rs] are
    the records whose [Append] succeeded and that no crash has lost, [o] is
    a record whose write failed part way, and the first [m] of [rs] were in
    the file when a [Sync] last succeeded. Between calls the machine may
    stop: any part of the bytes written since the last sync survives, and
    the log is opened again and replayed. A log that is appended to after a
    write failed part way is not a history: the code lets the caller do it,
    and [Append_after_partial_write_corrupts] below is what then happens. *)
Inductive wal_life : WAL -> list WalRecord -> option WalRecord -> nat -> Prop :=
| wl_open : wal_life (wal_open []) [] None 0
| wl_append w rs m r w' :
    wal_life w rs None m -> Append w None r = (w', Ok tt) -> wal_life w' (rs ++ [r]) None m
| wl_refused w rs o m fault r w' e :
    wal_life w rs o m -> Append w fault r = (w', Err e) -> e <> ErrIO -> wal_life w' rs o m
| wl_partial w rs m k r w' :
    wal_life w rs None m -> Append w (Some k) r = (w', Err ErrIO) -> wal_life w' rs (Some r) m
| wl_sync w rs o m w' :
    wal_life w rs o m -> Sync w false = (w', Ok tt) -> wal_life w' rs o (length rs)
| wl_sync_failed w rs o m w' e :
    wal_life w rs o m -> Sync w true = (w', Err e) -> wal_life w' rs o m
| wl_restart w rs o m extra w' rs' :
    wal_life w rs o m -> Replay collect (wal_open (crash w extra)) [] = (w', rs', Ok tt) ->
    wal_life w' rs' None m.

(** What every history keeps: the file is a cut of the written records at
    or after the end of the successful ones. *)
Definition wal_inv (w : WAL) (rs : list WalRecord) (o : option WalRecord) (m : nat) : Prop :=
  Forall valid_record (rs ++ option_list o) /\ (m <= length rs)%nat /\
  (exists n, w_data w = take n (frames (rs ++ option_list o)) /\
     (length (frames rs) <= n)%nat) /\
  w_pos w = length (w_data w) /\
  (length (frames (take m rs)) <= w_synced w <= length (w_data w))%nat.

Lemma wal_holds_inv w rs m : wal_holds w rs m <-> wal_inv w rs None m.
Proof.
  unfold wal_holds, wal_inv. simpl. rewrite app_nil_r. split.
  - intros (? & ? & Hd & ? & ?). split_and!; try done; try lia.
    exists (length (frames rs)). by rewrite firstn_all.
  - intros (? & ? & (n & Hd & ?) & ? & ?). rewrite take_ge in Hd by lia.
    split_and!; try done; lia.
Qed.

(** Opening what a crash left of such a file and replaying it. *)
Lemma Replay_after_crash {S} (fn : S -> WalRecord -> option S) w rs o m extra s :
  wal_inv w rs o m ->
  (forall j, is_Some (apply_all fn s (take j (rs ++ option_list o)))) ->
  exists j s', (m <= j <= length (rs ++ option_list o))%nat /\
    apply_all fn s (take j (rs ++ option_list o)) = Some s' /\
    Replay fn (wal_open (crash w extra)) s =
    ({| w_data := frames (take j (rs ++ option_list o));
        w_pos := length (frames (take j (rs ++ option_list o)));
        w_synced := length (frames (take j (rs ++ option_list o))) |}, s', Ok tt).
Proof.
  intros (Hrs & Hm & (n & Hd & Hn) & _ & Hs) Hfn. unfold crash. rewrite Hd, take_take.
  destruct (take_frames (rs ++ option_list o) (Nat.min (w_synced w + extra) n) m)
    as (j & tail & Hj & Ht & ->); [done|rewrite length_app; lia| |].
  { rewrite take_app_le by lia. rewrite Hd, length_take in Hs. lia. }
  destruct (Hfn j) as [s' Hs']. exists j, s'. split; [done|]. split; [done|].
  apply Replay_frames; [|done..]. by apply Forall_take.
Qed.

Lemma apply_all_collect s rs : apply_all collect s rs = Some (s ++ rs).
Proof.
  revert s. induction rs as [|r rs IH]; intros s; [by rewrite app_nil_r|].
  rewrite apply_all_cons. simpl. rewrite IH, <- app_assoc. done.
Qed.

Lemma Append_partial_inv w rs m k r w' :
  wal_inv w rs None m -> Append w (Some k) r = (w', Err ErrIO) -> wal_inv w' rs (Some r) m.
Proof.
  rewrite <- wal_holds_inv. intros (Hrs & Hm & Hd & Hp & Hs). unfold Append.
  destruct (encodeRecord r) as [b|e] eqn:E; [|by intros [= _ ->]; apply encodeRecord_err in E].
  apply encodeRecord_ok in E as [Hr ->]. intros [= <-]. rewrite file_write_end by done.
  unfold wal_inv. simpl. rewrite frames_snoc, <- Hd, !length_app. split_and!; try done; try lia.
  - apply Forall_app. split; [done|]. by constructor.
  - exists (length (w_data w) + k)%nat. split; [|lia]. by rewrite take_app_add.
Qed.

Lemma wal_life_inv w rs o m : wal_life w rs o m -> wal_inv w rs o m.
Proof.
  induction 1 as [|w rs m r w' _ IH E|w rs o m fault r w' e _ IH E He|w rs m k r w' _ IH E
    |w rs o m w' _ IH E|w rs o m w' e _ IH E|w rs o m extra w' rs' _ IH E].
  - split_and!; simpl; try lia; [constructor|by exists 0%nat].
  - apply wal_holds_inv. apply wal_holds_inv in IH.
    destruct (Append_holds w rs m r IH (Append_ok_valid _ _ _ E)) as (w2 & E2 & ?). rewrite E in E2. by injection E2 as <-.
  - unfold Append in E. destruct (encodeRecord r), fault; by simplify_eq.
  - by eapply Append_partial_inv.
  - destruct IH as (? & ? & (n & Hd & ?) & ? & ?). injection E as <-.
    assert (length (frames rs) <= length (w_data w))%nat
      by (rewrite Hd, length_take, frames_app, length_app; lia).
    split_and!; simpl; rewrite ?firstn_all; try done. by exists n.
  - by injection E as <- _.
  - destruct (Replay_after_crash collect w rs o m extra [] IH) as (j & s' & Hj & Hs & E2).
    { intros j. rewrite apply_all_collect. eauto. }
    rewrite E2 in E. rewrite apply_all_collect in Hs. simplify_eq/=.
    destruct IH as (Hrs & Hm & _). apply wal_holds_inv. unfold wal_holds. simpl.
    rewrite length_take, take_take.
    split_and!; try done; try lia; [by apply Forall_take|].
    rewrite <- (take_drop m (take j (rs ++ option_list o))), frames_app, length_app, take_take. lia.
Qed.

(** ** Theorems *)

(** C10. Crash recovery of the log, over its whole life: take any history of
    a log file built from successful appends, appends refused by the record
    limits, successful and failed syncs, crashes followed by a restart, and
    appends whose write fails part way, each followed only by syncs, refused
    appends or a restart. Then, whatever a crash keeps of the bytes written
    after the last successful [Sync], [Replay] succeeds and applies a prefix
    of the appended records (with a failed one as a possible last) that
    contains every record a successful [Sync] covered, cuts the file back to
    exactly those records and leaves the descriptor at its end. The callback
    is assumed to accept the records. Not covered: going on to append after a
    write that failed part way, which the code allows and after which the log
    no longer replays ([Append_after_partial_write_corrupts]). *)
Theorem Replay_crash_recovery {S} (fn : S -> WalRecord -> option S) w rs o m extra s :
  wal_life w rs o m ->
  (forall j, is_Some (apply_all fn s (take j (rs ++ option_list o)))) ->
  exists j s', (m <= j <= length (rs ++ option_list o))%nat /\
    apply_all fn s (take j (rs ++ option_list o)) = Some s' /\
    Replay fn (wal_open (crash w extra)) s =
    ({| w_data := frames (take j (rs ++ option_list o));
        w_pos := length (frames (take j (rs ++ option_list o)));
        w_synced := length (frames (take j (rs ++ option_list o))) |}, s', Ok tt).
Proof. intros H. apply Replay_after_crash. by apply wal_life_inv. Qed.

(** C39. Corruption is never skipped: if one byte of a complete record
    outside its two length fields is changed, [Replay] applies the records
    before it and returns [ErrCorrupt], whatever follows. *)
Theorem Replay_detects_corruption {S} (fn : S -> WalRecord -> option S) rs r i b b0 rest s s' :
  Forall valid_record rs -> valid_record r -> apply_all fn s rs = Some s' ->
  frame r !! i = Some b0 -> b <> b0 -> (i < 5 \/ headerSize <= i)%nat ->
  (Replay fn (wal_open (frames rs ++ <[i:=b]> (frame r) ++ rest)) s).1.2 = s' /\
  (Replay fn (wal_open (frames rs ++ <[i:=b]> (frame r) ++ rest)) s).2 = Err ErrCorrupt.
Proof.
  intros Hrs Hr Hs Hi Hb Hrange. unfold Replay. cbn [w_data wal_open].
  rewrite (replay_loop_file _ _ _ _ _ _ Hrs Hs) by lia.
  by rewrite (replay_loop_corrupt _ _ _ _ _ _ _ _ _ Hr Hi Hb Hrange).
Qed.

(** Sample records. *)
Definition sample_put : WalRecord := MkWalRecord OpPut [x61] [x31; x32].
Definition sample_delete : WalRecord := MkWalRecord OpDelete [x61] [].

(** A failed append is not undone: a write that fails after six bytes
    leaves them in the file, the next append goes after them, and the log
    can no longer be replayed although the second record was synced. *)
Theorem Append_after_partial_write_corrupts :
  exists w1 w2 w3 w4 s,
    Append (wal_open []) (Some 6%nat) sample_put = (w1, Err ErrIO) /\
    Append w1 None sample_delete = (w2, Ok tt) /\
    Sync w2 false = (w3, Ok tt) /\
    Replay collect (wal_open (crash w3 0)) [] = (w4, s, Err ErrCorrupt).
Proof.
  do 5 eexists. split; [vm_compute; reflexivity|]. split; [vm_compute; reflexivity|].
  split; [vm_compute; reflexivity|]. vm_compute. reflexivity.
Qed.

(** A record whose key-length field was damaged to a larger value is taken
    for a torn tail, together with every synced record after it. *)
Example length_damage_truncates :
  exists w s, Replay collect
    (wal_open (frame sample_delete ++ <[5%nat:=xff]> (frame sample_put) ++ frame sample_delete)) []
  = (w, s, Ok tt) /\ s = [sample_delete] /\ w_data w = frame sample_delete.
Proof. do 2 eexists. split; [vm_compute; reflexivity|]. split; vm_compute; reflexivity. Qed.

(** A history with a sync, a refused append and an append that fails after
    six bytes: the synced record is there after the crash. *)
Example Replay_crash_recovery_witness :
  exists w j s', wal_life w [sample_put; sample_delete] (Some sample_put) 1 /\
    (1 <= j <= 3)%nat /\
    apply_all collect [] (take j [sample_put; sample_delete; sample_put]) = Some s' /\
    Replay collect (wal_open (crash w 5)) [] =
    ({| w_data := frames (take j [sample_put; sample_delete; sample_put]);
        w_pos := length (frames (take j [sample_put; sample_delete; sample_put]));
        w_synced := length (frames (take j [sample_put; sample_delete; sample_put])) |}, s', Ok tt).
Proof.
  assert (exists w, wal_life w [sample_put; sample_delete] (Some sample_put) 1) as [w H].
  { eexists. eapply wl_partial with (k := 6%nat); [|vm_compute; reflexivity].
    eapply (wl_append _ [sample_put]); [|vm_compute; reflexivity].
    eapply wl_refused with (r := MkWalRecord OpPut [] []) (fault := None);
      [|vm_compute; reflexivity|discriminate].
    eapply (wl_sync _ [sample_put] None 0); [|reflexivity].
    eapply (wl_append _ []); [apply wl_open|vm_compute; reflexivity]. }
  exists w.
  destruct (Replay_crash_recovery collect w [sample_put; sample_delete] (Some sample_put) 1 5 [] H)
    as (j & s' & Hj & Hs & E).
  - intros j. rewrite apply_all_collect. eauto.
  - exists j, s'. split; [exact H|]. split; [exact Hj|]. split; [exact Hs|]. exact E.
Defined.

Example Replay_detects_corruption_witness :
  (Replay collect (wal_open (frames [sample_delete] ++ <[14%nat:=x33]> (frame sample_put)
     ++ frame sample_delete)) []).1.2 = [sample_delete] /\
  (Replay collect (wal_open (frames [sample_delete] ++ <[14%nat:=x33]> (frame sample_put)
     ++ frame sample_delete)) []).2 = Err ErrCorrupt.
Proof.
  apply (Replay_detects_corruption collect [sample_delete] sample_put 14 x33 x31).
  - repeat constructor; vm_compute; congruence.
  - split; [reflexivity|]. vm_compute. intuition congruence.
  - reflexivity.
  - vm_compute. reflexivity.
  - discriminate.
  - right. unfold headerSize. lia.
Defined.
