(* ===== verification/SkipList.v ===== *)
(** * The MemTable's skip list

    internal/storage/memtable/skiplist.go, at pointer level: the nodes live in
    a store indexed by allocation order, a pointer is an index into it, and
    index 0 is the header. [upsert] relinks the store node by node as the
    source does; the coin flips of [randomLevel] are an argument. *)

From S2P Require Import Prelude Bytes.
From stdpp Require Import base tactics list numbers sorting sets gmap.
From Stdlib Require Import Strings.Byte.
From Stdlib Require Import ZArith Lia.

Definition maxLevel : nat := 16.

Record skipListNode := MkNode {
  n_key : bytes;
  n_value : bytes;
  n_deleted : bool;
  n_forward : list (option nat) }.

Record skipList := MkSkipList {
  sl_nodes : list skipListNode;
  sl_level : nat }.

#[export] Instance skipListNode_inhabited : Inhabited skipListNode :=
  populate (MkNode [] [] false []).

Definition newSkipList : skipList :=
  {| sl_nodes := [MkNode [] [] false (replicate maxLevel None)]; sl_level := 1 |}.

(** [randomLevel]: each coin is one [rand.Float64() < p]. *)
Fixpoint randomLevel_loop (coins : list bool) (lvl : nat) : nat :=
  match coins with
  | true :: coins => if lvl <? maxLevel then randomLevel_loop coins (S lvl) else lvl
  | _ => lvl
  end.
Definition randomLevel (coins : list bool) : nat := randomLevel_loop coins 1.

(** Reading and writing through a pointer. *)
Definition node (s : skipList) (p : nat) : skipListNode := sl_nodes s !!! p.
Definition fwd (s : skipList) (p i : nat) : option nat :=
  default None (n_forward (node s p) !! i).
Definition key_of (s : skipList) (p : nat) : bytes := n_key (node s p).

Definition set_node (s : skipList) (p : nat) (f : skipListNode -> skipListNode) : skipList :=
  {| sl_nodes := alter f p (sl_nodes s); sl_level := sl_level s |}.

Definition set_fwd (s : skipList) (p i : nat) (v : option nat) : skipList :=
  set_node s p (fun n => MkNode (n_key n) (n_value n) (n_deleted n) (<[i:=v]> (n_forward n))).

(** The inner loop: follow level [i] while the next key is smaller. *)
Fixpoint advance (fuel : nat) (s : skipList) (x i : nat) (key : bytes) : nat :=
  match fuel with
  | O => x
  | S fuel =>
      match fwd s x i with
      | Some y => if bool_decide (blt (key_of s y) key) then advance fuel s y i key else x
      | None => x
      end
  end.

Definition walk (s : skipList) (x i : nat) (key : bytes) : nat :=
  advance (length (sl_nodes s)) s x i key.

(** The outer loop of [search], from level [i - 1] down to 0. *)
Fixpoint descend (s : skipList) (i x : nat) (key : bytes) : nat :=
  match i with
  | O => x
  | S i => descend s i (walk s x i key) key
  end.

Definition search (s : skipList) (key : bytes) : option nat :=
  match fwd s (descend s (sl_level s) 0 key) 0 with
  | Some y => if bool_decide (key_of s y = key) then Some y else None
  | None => None
  end.

(** The outer loop of [upsert]: the nodes it records in [update], from
    level 0 up, and where it ends. *)
Fixpoint find_update (s : skipList) (i x : nat) (key : bytes) : list nat * nat :=
  match i with
  | O => ([], x)
  | S i => let x' := walk s x i key in
           let '(update, last) := find_update s i x' key in
           (update ++ [x'], last)
  end.

(** The relinking loop, for [update[i]], [update[i+1]], ... *)
Fixpoint link_levels (s : skipList) (new i : nat) (update : list nat) : skipList :=
  match update with
  | [] => s
  | u :: update =>
      let s := set_fwd s new i (fwd s u i) in
      let s := set_fwd s u i (Some new) in
      link_levels s new (S i) update
  end.

Definition alloc (s : skipList) (n : skipListNode) : skipList * nat :=
  ({| sl_nodes := sl_nodes s ++ [n]; sl_level := sl_level s |}, length (sl_nodes s)).

Record upsert_info := MkUpsert { u_existed : bool; u_wasDeleted : bool; u_oldValueLen : nat }.

Definition upsert (s : skipList) (coins : list bool) (key value : bytes) (deleted : bool) :
    skipList * upsert_info :=
  let '(update, last) := find_update s (sl_level s) 0 key in
  let insert :=
    let newLevel := randomLevel coins in
    let update := take newLevel (update ++ replicate (newLevel - sl_level s) 0) in
    let s := {| sl_nodes := sl_nodes s; sl_level := Nat.max (sl_level s) newLevel |} in
    let '(s, new) := alloc s (MkNode key value deleted (replicate newLevel None)) in
    (link_levels s new 0 update, MkUpsert false false 0) in
  match fwd s last 0 with
  | Some x =>
      if bool_decide (key_of s x = key) then
        (set_node s x (fun n => MkNode (n_key n) value deleted (n_forward n)),
         MkUpsert true (n_deleted (node s x)) (length (n_value (node s x))))
      else insert
  | None => insert
  end.

(** [forEach]: the level-0 chain. *)
Fixpoint chain (fuel : nat) (s : skipList) (x : option nat) : list nat :=
  match fuel, x with
  | S fuel, Some y => y :: chain fuel s (fwd s y 0)
  | _, _ => []
  end.
Definition forEach (s : skipList) : list nat := chain (length (sl_nodes s)) s (fwd s 0 0).

(** ** The invariant *)

Definition height (s : skipList) (p : nat) : nat := length (n_forward (node s p)).

(** From [x], level [i] runs through exactly [l]. *)
Fixpoint linked (s : skipList) (i x : nat) (l : list nat) : Prop :=
  match l with
  | [] => fwd s x i = None
  | y :: l => fwd s x i = Some y /\ linked s i y l
  end.

(** The part of [L] that level [i] threads. *)
Definition at_level (s : skipList) (i : nat) (L : list nat) : list nat :=
  filter (fun p => (i < height s p)%nat) L.

Record wf (s : skipList) (L : list nat) : Prop := {
  wf_level : (1 <= sl_level s <= maxLevel)%nat;
  wf_header : height s 0 = maxLevel;
  wf_range : Forall (fun p => 0 < p < length (sl_nodes s))%nat L;
  wf_height : Forall (fun p => 1 <= height s p <= sl_level s)%nat L;
  wf_sorted : StronglySorted (fun p q => blt (key_of s p) (key_of s q)) L;
  wf_linked : forall i, (i < maxLevel)%nat -> linked s i 0 (at_level s i L) }.

Lemma randomLevel_loop_bounds coins lvl :
  (1 <= lvl <= maxLevel)%nat -> (1 <= randomLevel_loop coins lvl <= maxLevel)%nat.
Proof.
  revert lvl. induction coins as [|[] coins IH]; intros lvl H; simpl; [done| |done].
  destruct (Nat.ltb_spec lvl maxLevel); [|done]. apply IH. lia.
Qed.

Lemma randomLevel_bounds coins : (1 <= randomLevel coins <= maxLevel)%nat.
Proof. apply randomLevel_loop_bounds. unfold maxLevel. lia. Qed.

Lemma newSkipList_wf : wf newSkipList [].
Proof.
  split; try done; try constructor.
  - unfold newSkipList. simpl. lia.
  - unfold newSkipList, maxLevel. simpl. lia.
  - intros i Hi. cbn [at_level linked filter list_filter].
    change (default None (replicate maxLevel (@None nat) !! i) = None).
    by rewrite lookup_replicate_2.
Qed.

(** ** Walking a level *)

(** The last node before the first key that is not smaller than [key], on
    a level that runs through [A] and then [B]. *)
Definition pred_of (A : list nat) : nat := List.last A 0.

Definition below (s : skipList) (key : bytes) (A : list nat) : Prop :=
  Forall (fun p => blt (key_of s p) key) A.
Definition above (s : skipList) (key : bytes) (B : list nat) : Prop :=
  Forall (fun p => ~ blt (key_of s p) key) B.

Lemma last_cons_default (a : nat) A x : List.last (a :: A) x = List.last A a.
Proof.
  revert a x. induction A as [|b A IH]; intros a x; [done|].
  change (List.last (b :: A) x = List.last (b :: A) a). by rewrite !IH.
Qed.

Lemma linked_app_inv s i x A B : linked s i x (A ++ B) -> linked s i (List.last A x) B.
Proof.
  revert x; induction A as [|a A IH]; intros x H; [done|].
  destruct H as [_ H]. apply IH in H. by rewrite last_cons_default.
Qed.

Lemma advance_spec s key i fuel x A B :
  linked s i x (A ++ B) -> below s key A -> above s key B -> (length A < fuel)%nat ->
  advance fuel s x i key = List.last A x.
Proof.
  revert x A; induction fuel as [|fuel IH]; intros x A HL HA HB Hf; [lia|].
  cbn [advance]. destruct A as [|a A].
  - destruct B as [|b B]; cbn [app linked] in HL; [by rewrite HL|].
    destruct HL as [-> _]. rewrite bool_decide_eq_false_2; [done|].
    by inversion HB.
  - destruct HL as [-> HL]. inversion HA; subst.
    rewrite bool_decide_eq_true_2 by done.
    rewrite (IH a A); [|done..|simpl in Hf; lia]. by rewrite last_cons_default.
Qed.

Lemma at_level_app s i A B : at_level s i (A ++ B) = at_level s i A ++ at_level s i B.
Proof. apply filter_app. Qed.

Lemma below_at_level s key i A : below s key A -> below s key (at_level s i A).
Proof. intros H. apply Forall_forall. intros p [_ Hp]%list_elem_of_filter. by eapply Forall_forall in H. Qed.

Lemma above_at_level s key i A : above s key A -> above s key (at_level s i A).
Proof. intros H. apply Forall_forall. intros p [_ Hp]%list_elem_of_filter. by eapply Forall_forall in H. Qed.

Lemma split_at_key s key L :
  StronglySorted (fun p q => blt (key_of s p) (key_of s q)) L ->
  exists A B, L = A ++ B /\ below s key A /\ above s key B.
Proof.
  induction 1 as [|p L HL IH Hp].
  { exists [], []. repeat split; constructor. }
  destruct (decide (blt (key_of s p) key)) as [Hlt|Hge].
  - destruct IH as (A & B & -> & HA & HB). exists (p :: A), B.
    split; [done|]. split; [by constructor|done].
  - exists [], (p :: L). split; [done|]. split; [constructor|]. constructor; [done|].
    eapply Forall_impl; [exact Hp|]. intros q Hq Hqk. exact (Hge (blt_trans _ _ _ Hq Hqk)).
Qed.

Section Walk.
Context (s : skipList) (L A B : list nat) (key : bytes).
Context (Hwf : wf s L) (HL : L = A ++ B) (HA : below s key A) (HB : above s key B).

Lemma wf_NoDup : NoDup L.
Proof.
  pose proof (wf_sorted _ _ Hwf) as H. clear -H.
  induction H as [|p L HL IH Hp]; [constructor|]. constructor; [|done].
  intros Hin. eapply Forall_forall in Hp; [|exact Hin]. by apply blt_irrefl in Hp.
Qed.

Lemma wf_length : (length L < length (sl_nodes s))%nat.
Proof.
  assert (length L <= length (seq 1 (length (sl_nodes s) - 1)))%nat as H.
  { apply submseteq_length, NoDup_submseteq; [apply wf_NoDup|]. intros p Hp.
    pose proof (wf_range _ _ Hwf) as Hr. eapply Forall_forall in Hr; [|exact Hp].
    apply elem_of_seq. lia. }
  rewrite length_seq in H.
  assert (0 < length (sl_nodes s))%nat; [|lia].
  pose proof (wf_header _ _ Hwf) as Hh. unfold height, node in Hh.
  destruct (sl_nodes s); [done|simpl; lia].
Qed.

(** [x] is where a level-[i] walk towards [key] may start. *)
Definition on_path (i x : nat) : Prop :=
  exists A1 A2, at_level s i A = A1 ++ A2 /\ x = List.last A1 0.

Lemma on_path_header i : on_path i 0.
Proof. exists [], (at_level s i A). done. Qed.

Lemma on_path_down i : on_path i (pred_of (at_level s (S i) A)).
Proof.
  unfold pred_of. destruct (at_level s (S i) A) as [|p l] eqn:E using rev_ind.
  { apply on_path_header. }
  rewrite last_last. assert (p ∈ at_level s i A) as Hp.
  { assert (p ∈ at_level s (S i) A) as Hp by (rewrite E; set_solver).
    apply list_elem_of_filter in Hp as [? ?]. apply list_elem_of_filter. split; [lia|done]. }
  apply list_elem_of_split in Hp as (A1 & A2 & E2). exists (A1 ++ [p]), A2.
  rewrite E2, <- app_assoc, last_last. done.
Qed.

Lemma walk_spec i x :
  (i < maxLevel)%nat -> on_path i x -> walk s x i key = pred_of (at_level s i A).
Proof.
  intros Hi (A1 & A2 & E & ->). unfold walk, pred_of.
  pose proof (wf_linked _ _ Hwf i Hi) as Hl. rewrite HL, at_level_app, E, <- app_assoc in Hl.
  apply linked_app_inv in Hl.
  erewrite advance_spec; [|exact Hl| | |].
  - rewrite E. destruct A2 as [|p A2 _] using rev_ind; [by rewrite app_nil_r|].
    by rewrite app_assoc, !last_last.
  - pose proof (below_at_level _ _ i _ HA) as H. rewrite E in H. apply Forall_app in H as [_ H]. exact H.
  - by apply above_at_level.
  - pose proof wf_length as Hlen. apply (f_equal length) in HL, E.
    rewrite length_app in HL, E. pose proof (length_filter (fun p => (i < height s p)%nat) A).
    unfold at_level in E. lia.
Qed.

Lemma find_update_spec k x :
  (k <= maxLevel)%nat -> on_path (k - 1) x ->
  find_update s k x key =
  ((fun i => pred_of (at_level s i A)) <$> seq 0 k,
   match k with O => x | S _ => pred_of (at_level s 0 A) end).
Proof.
  revert x. induction k as [|k IH]; intros x Hk Hx; [done|]. cbn [find_update].
  rewrite Nat.sub_succ, Nat.sub_0_r in Hx. rewrite walk_spec by (done || lia).
  rewrite IH; [|lia|].
  - rewrite seq_S, fmap_app. simpl. f_equal. by destruct k.
  - destruct k; [simpl|rewrite Nat.sub_succ, Nat.sub_0_r]; [|apply on_path_down].
    exists (at_level s 0 A), []. by rewrite app_nil_r.
Qed.

Lemma descend_spec k x :
  descend s k x key = (find_update s k x key).2.
Proof.
  revert x. induction k as [|k IH]; intros x; [done|]. cbn [descend find_update].
  rewrite IH. by destruct (find_update _ _ _ _).
Qed.

(** Where both loops end: just before [B] on level 0. *)
Lemma descend_end : descend s (sl_level s) 0 key = pred_of (at_level s 0 A).
Proof.
  pose proof (wf_level _ _ Hwf). rewrite descend_spec, find_update_spec;
    [|lia|apply on_path_header]. simpl. destruct (sl_level s); [lia|done].
Qed.

Lemma at_level_0 K : (forall p, p ∈ K -> p ∈ L) -> at_level s 0 K = K.
Proof using Hwf.
  clear HL HA HB. intros HK. induction K as [|p K IH]; [done|]. unfold at_level. rewrite filter_cons_True.
  - f_equal. apply IH. set_solver.
  - pose proof (proj1 (Forall_forall _ _) (wf_height _ _ Hwf) p (HK p (list_elem_of_here _ _))) as Hh.
    cbn beta in Hh. lia.
Qed.

Lemma fwd_end : fwd s (pred_of (at_level s 0 A)) 0 = head B.
Proof using Hwf HL.
  clear HA HB.
  pose proof (wf_linked _ _ Hwf 0 ltac:(unfold maxLevel; lia)) as Hl.
  rewrite HL, at_level_app in Hl. apply linked_app_inv in Hl.
  rewrite (at_level_0 B) in Hl by set_solver.
  unfold pred_of. destruct B; simpl in *; [done|]. by destruct Hl.
Qed.
End Walk.

(** ** Stores that differ in one node *)

Lemma node_set_node s x f p :
  (x < length (sl_nodes s))%nat ->
  node (set_node s x f) p = if decide (p = x) then f (node s x) else node s p.
Proof.
  intros Hx. unfold node, set_node. cbn. case_decide as E; subst.
  - by rewrite list_lookup_total_alter, decide_True.
  - by rewrite list_lookup_total_alter_ne.
Qed.

Lemma length_set_node s x f : length (sl_nodes (set_node s x f)) = length (sl_nodes s).
Proof. unfold set_node. cbn. apply length_alter. Qed.

Definition payload (s : skipList) (p : nat) : bytes * (bytes * bool) :=
  (key_of s p, (n_value (node s p), n_deleted (node s p))).

Lemma payload_set_fwd s x i v p :
  (x < length (sl_nodes s))%nat -> payload (set_fwd s x i v) p = payload s p.
Proof.
  intros Hx. unfold payload, key_of, set_fwd. rewrite node_set_node by done.
  by case_decide; subst.
Qed.

Lemma height_set_fwd s x i v p :
  (x < length (sl_nodes s))%nat -> height (set_fwd s x i v) p = height s p.
Proof.
  intros Hx. unfold height, set_fwd. rewrite node_set_node by done.
  case_decide; subst; [|done]. cbn. apply length_insert.
Qed.

Lemma fwd_set_fwd s x i v p j :
  (x < length (sl_nodes s))%nat -> (i < height s x)%nat ->
  fwd (set_fwd s x i v) p j = if decide (p = x /\ j = i) then v else fwd s p j.
Proof.
  intros Hx Hi. unfold fwd, set_fwd. rewrite node_set_node by done.
  case_decide as E; subst; cbn.
  - destruct (decide (j = i)) as [->|Hj].
    + rewrite decide_True by done. by rewrite list_lookup_insert_eq.
    + rewrite decide_False by tauto. by rewrite list_lookup_insert_ne.
  - by rewrite decide_False by tauto.
Qed.

Lemma length_set_fwd s x i v : length (sl_nodes (set_fwd s x i v)) = length (sl_nodes s).
Proof. apply length_set_node. Qed.

(** The relinking loop: on the levels it covers the new node takes over the
    forward pointer of [update[j]], which then points to the new node. *)
Lemma link_levels_spec s new i us :
  (new < length (sl_nodes s))%nat -> (i + length us <= height s new)%nat ->
  (forall j u, us !! j = Some u -> u <> new /\ u < length (sl_nodes s) /\ i + j < height s u)%nat ->
  let s' := link_levels s new i us in
  length (sl_nodes s') = length (sl_nodes s) /\ sl_level s' = sl_level s /\
  (forall p, payload s' p = payload s p) /\ (forall p, height s' p = height s p) /\
  (forall p j, fwd s' p j =
    match us !! (j - i)%nat with
    | Some u => if decide (i <= j)%nat then
                  if decide (p = new) then fwd s u j
                  else if decide (p = u) then Some new else fwd s p j
                else fwd s p j
    | None => fwd s p j
    end).
Proof.
  revert s i. induction us as [|u us IH]; intros s i Hnew Hh Hus s'.
  { subst s'. simpl. repeat split. }
  destruct (Hus 0%nat u eq_refl) as (Hu & Hur & Huh). rewrite Nat.add_0_r in Huh.
  simpl in Hh. set (s1 := set_fwd s new i (fwd s u i)). set (s2 := set_fwd s1 u i (Some new)).
  assert (length (sl_nodes s1) = length (sl_nodes s)) as E1 by apply length_set_fwd.
  assert (length (sl_nodes s2) = length (sl_nodes s)) as E2 by (by rewrite <- E1; apply length_set_fwd).
  assert (forall p, payload s2 p = payload s p) as P2.
  { intros p. unfold s2, s1. rewrite !payload_set_fwd; [done|lia|fold s1; lia]. }
  assert (forall p, height s1 p = height s p) as H1 by (intros p; by apply height_set_fwd).
  assert (forall p, height s2 p = height s p) as H2.
  { intros p. unfold s2. rewrite height_set_fwd by lia. apply H1. }
  assert (forall p j, fwd s2 p j = if decide (j = i) then if decide (p = new) then fwd s u i
    else if decide (p = u) then Some new else fwd s p j else fwd s p j) as F2.
  { intros p j. unfold s2. rewrite fwd_set_fwd by (rewrite ?H1; lia).
    unfold s1. rewrite fwd_set_fwd by lia. repeat case_decide; intuition congruence. }
  destruct (IH s2 (S i)) as (Q1 & Q2 & Q3 & Q4 & Q5); [lia|rewrite H2; lia| |].
  { intros j v Hj. destruct (Hus (S j) v Hj) as (? & ? & ?). rewrite H2. split_and!; lia || done. }
  subst s'. cbn [link_levels]. fold s1. fold s2. split_and!.
  - lia.
  - exact Q2.
  - intros p. by rewrite Q3.
  - intros p. by rewrite Q4.
  - intros p j. rewrite Q5. destruct (decide (j < i)%nat) as [Hlt|Hge].
    { replace (j - S i)%nat with 0%nat by lia. replace (j - i)%nat with 0%nat by lia. cbn.
      rewrite (decide_False (P := i <= j)%nat) by lia.
      rewrite F2, decide_False by lia. destruct us; cbn; [done|].
      by rewrite (decide_False (P := S i <= j)%nat) by lia. }
    destruct (decide (j = i)) as [->|Hne].
    { rewrite Nat.sub_diag. cbn. rewrite (decide_True (P := i <= i)%nat) by lia.
      rewrite F2, decide_True by done. destruct (us !! _); [|done].
      by rewrite (decide_False (P := S i <= i)%nat) by lia. }
    replace (j - i)%nat with (S (j - S i)) by lia.
    change ((u :: us) !! S (j - S i)) with (us !! (j - S i)%nat).
    destruct (us !! (j - S i)%nat); [|by rewrite F2, decide_False].
    rewrite (decide_True (P := i <= j)%nat), (decide_True (P := S i <= j)%nat) by lia.
    rewrite !F2. by rewrite !(decide_False (P := j = i)).
Qed.

(** ** Stores with the same or one more node *)

Lemma linked_ext s s' i x l :
  (forall p, p ∈ x :: l -> fwd s' p i = fwd s p i) -> linked s i x l -> linked s' i x l.
Proof.
  revert x. induction l as [|y l IH]; intros x He Hl; simpl in *; rewrite He by set_solver; [done|].
  destruct Hl as [? Hl]. split; [done|]. apply IH; [|done]. intros p Hp. apply He. set_solver.
Qed.

Lemma linked_insert s s' i new x l k :
  linked s i x (l ++ k) -> NoDup (x :: l ++ k) ->
  fwd s' new i = fwd s (List.last l x) i -> fwd s' (List.last l x) i = Some new ->
  (forall p, p ∈ x :: l ++ k -> p <> List.last l x -> fwd s' p i = fwd s p i) ->
  linked s' i x (l ++ new :: k).
Proof.
  revert x. induction l as [|y l IH]; intros x Hl Hnd Hnew Hlast Hrest.
  - cbn in *. split; [done|]. destruct k as [|z k]; [cbn in *; congruence|].
    destruct Hl as [Hz Hl]. split; [congruence|].
    apply linked_ext with (s := s); [|done]. inversion Hnd; subst.
    intros p Hp. apply Hrest; [set_solver|]. intros ->. set_solver.
  - rewrite last_cons_default in *. destruct Hl as [Hy Hl]. inversion Hnd; subst. split.
    + rewrite Hrest; [done|set_solver|]. intros ->.
      assert (List.last l y ∈ y :: l); [|set_solver].
      destruct l as [|z l _] using rev_ind; [set_solver|]. rewrite last_last. set_solver.
    + apply IH; try done. intros p Hp. apply Hrest. set_solver.
Qed.

Lemma at_level_ext s s' i l :
  (forall p, p ∈ l -> height s' p = height s p) -> at_level s' i l = at_level s i l.
Proof.
  intros H. induction l as [|p l IH]; [done|]. unfold at_level in *. rewrite !filter_cons.
  rewrite (H p) by set_solver. rewrite IH by set_solver. done.
Qed.

Lemma sorted_ext s s' L :
  (forall p, p ∈ L -> key_of s' p = key_of s p) ->
  StronglySorted (fun p q => blt (key_of s p) (key_of s q)) L ->
  StronglySorted (fun p q => blt (key_of s' p) (key_of s' q)) L.
Proof.
  intros H. induction 1 as [|p L HL IH Hp]; constructor.
  - apply IH. set_solver.
  - apply Forall_forall. intros q Hq. eapply Forall_forall in Hp; [|exact Hq].
    rewrite !H by set_solver. done.
Qed.

Lemma sorted_insert {A} (R : A -> A -> Prop) (l k : list A) x :
  StronglySorted R (l ++ k) -> Forall (fun y => R y x) l -> Forall (R x) k ->
  StronglySorted R (l ++ x :: k).
Proof.
  induction l as [|y l IH]; intros Hs Hl Hk; [by constructor|].
  apply StronglySorted_inv in Hs as [Hs Hy]. inversion Hl; subst. simpl. constructor; [by apply IH|].
  apply Forall_app in Hy as [? ?]. apply Forall_app. split; [done|]. by constructor.
Qed.

(** Replacing the value of a node keeps every link. *)
Lemma wf_same_links s s' L :
  wf s L -> length (sl_nodes s') = length (sl_nodes s) -> sl_level s' = sl_level s ->
  (forall p, height s' p = height s p) -> (forall p, key_of s' p = key_of s p) ->
  (forall p i, fwd s' p i = fwd s p i) -> wf s' L.
Proof.
  intros [? ? Hr Hh Hs Hl] El Ev Eh Ek Ef. split.
  - by rewrite Ev.
  - by rewrite Eh.
  - by rewrite El.
  - eapply Forall_impl; [exact Hh|]. intros p. by rewrite Eh, Ev.
  - apply (sorted_ext s); [by intros; apply Ek|done].
  - intros i Hi. rewrite (at_level_ext s) by done. eapply linked_ext; [|by apply Hl]. done.
Qed.

(** Splicing a new node in, on the levels below its height. *)
Section Splice.
Context (s s' : skipList) (A B : list nat) (key : bytes) (new lvl : nat).
Context (Hwf : wf s (A ++ B)) (HA : below s key A)
        (HB : Forall (fun p => blt key (key_of s p)) B).
Context (Hnew : new = length (sl_nodes s)) (Hlvl : (1 <= lvl <= maxLevel)%nat).
Context (El : length (sl_nodes s') = S (length (sl_nodes s)))
        (Ev : sl_level s' = Nat.max (sl_level s) lvl)
        (Eh : forall p, height s' p = if decide (p = new) then lvl else height s p)
        (Ek : forall p, key_of s' p = if decide (p = new) then key else key_of s p)
        (Ef : forall p j, fwd s' p j =
           if decide (j < lvl)%nat then
             if decide (p = new) then fwd s (pred_of (at_level s j A)) j
             else if decide (p = pred_of (at_level s j A)) then Some new else fwd s p j
           else if decide (p = new) then None else fwd s p j).

Lemma old_ne_new p : p ∈ 0%nat :: A ++ B -> p <> new.
Proof.
  intros Hp ->. apply elem_of_cons in Hp as [Hp|Hp].
  - pose proof (wf_length _ _ Hwf). lia.
  - pose proof (proj1 (Forall_forall _ _) (wf_range _ _ Hwf) new Hp) as Hr.
    cbn beta in Hr. lia.
Qed.

Lemma header_level_NoDup j : NoDup (0%nat :: at_level s j A ++ at_level s j B).
Proof.
  constructor.
  - rewrite <- at_level_app. intros [_ Hp]%list_elem_of_filter.
    pose proof (proj1 (Forall_forall _ _) (wf_range _ _ Hwf) _ Hp) as Hr. cbn beta in Hr. lia.
  - rewrite <- at_level_app. apply NoDup_filter, (wf_NoDup _ _ Hwf).
Qed.

Lemma at_level_splice j :
  at_level s' j (A ++ new :: B) =
  at_level s j A ++ (if decide (j < lvl)%nat then [new] else []) ++ at_level s j B.
Proof.
  rewrite at_level_app. f_equal.
  - apply at_level_ext. intros p Hp. rewrite Eh, decide_False; [done|].
    apply old_ne_new. set_solver.
  - rewrite <- (at_level_ext s s' j B).
    2:{ intros p Hp. rewrite Eh, decide_False; [done|]. apply old_ne_new. set_solver. }
    assert (height s' new = lvl) as Hn by (by rewrite Eh, decide_True).
    unfold at_level. rewrite filter_cons, Hn. by case_decide.
Qed.

Lemma linked_splice j : (j < maxLevel)%nat -> linked s' j 0 (at_level s' j (A ++ new :: B)).
Proof.
  intros Hj. rewrite at_level_splice. pose proof (wf_linked _ _ Hwf j Hj) as Hl.
  rewrite at_level_app in Hl. pose proof (header_level_NoDup j) as Hnd.
  assert (forall p, p ∈ 0%nat :: at_level s j A ++ at_level s j B -> p <> new) as Hold.
  { intros p Hp. apply old_ne_new. rewrite <- at_level_app in Hp. apply elem_of_cons in Hp as [->|Hp]; [set_solver|].
    apply list_elem_of_filter in Hp as [_ Hp]. set_solver. }
  case_decide as E; simpl.
  - apply linked_insert with (s := s); try done.
    + rewrite Ef, !decide_True by done. done.
    + rewrite Ef, decide_True by done. unfold pred_of. rewrite (decide_True (P := _ = List.last _ _)) by done.
      rewrite decide_False; [done|]. apply Hold.
      destruct (at_level s j A) as [|z l _] using rev_ind; [set_solver|]. rewrite last_last. set_solver.
    + intros p Hp Hne. rewrite Ef, decide_True by done. unfold pred_of.
      rewrite !decide_False; auto.
  - eapply linked_ext; [|exact Hl]. intros p Hp. rewrite Ef, decide_False, decide_False; auto.
Qed.

Lemma wf_splice : wf s' (A ++ new :: B).
Proof.
  pose proof (wf_level _ _ Hwf) as Hlv. split.
  - rewrite Ev. lia.
  - rewrite Eh, decide_False; [apply (wf_header _ _ Hwf)|]. apply old_ne_new. set_solver.
  - rewrite El. pose proof (wf_range _ _ Hwf) as Hr. apply Forall_app in Hr as [Ha Hb].
    pose proof (wf_length _ _ Hwf).
    apply Forall_app. split; [|constructor; [lia|]]; (eapply Forall_impl; [eassumption|]; simpl; lia).
  - rewrite Ev. apply Forall_forall. intros p Hp. rewrite Eh. case_decide; [lia|].
    assert (p ∈ A ++ B) as Hp' by set_solver.
    pose proof (proj1 (Forall_forall _ _) (wf_height _ _ Hwf) _ Hp') as Hh. cbn beta in Hh. lia.
  - assert (forall p, p ∈ A ++ B -> key_of s' p = key_of s p) as Ek'.
    { intros p Hp. rewrite Ek, decide_False; [done|]. apply old_ne_new. set_solver. }
    apply sorted_insert.
    + eapply sorted_ext; [exact Ek'|]. apply (wf_sorted _ _ Hwf).
    + apply Forall_forall. intros p Hp. rewrite (Ek' p) by set_solver. rewrite Ek, decide_True by done.
      by eapply Forall_forall in HA.
    + apply Forall_forall. intros p Hp. rewrite (Ek' p) by set_solver. rewrite Ek, decide_True by done.
      by eapply Forall_forall in HB.
  - exact linked_splice.
Qed.
End Splice.

(** ** The skip list as a map *)

Lemma chain_linked fuel s x l :
  linked s 0 x l -> (length l <= fuel)%nat -> chain fuel s (fwd s x 0) = l.
Proof.
  revert fuel x. induction l as [|y l IH]; intros fuel x Hl Hf; simpl in Hl.
  - rewrite Hl. by destruct fuel.
  - destruct Hl as [-> Hl]. destruct fuel as [|fuel]; simpl in Hf; [lia|]. simpl. f_equal.
    apply IH; [done|lia].
Qed.

(** [forEach] visits exactly the threaded nodes, in order. *)
Lemma forEach_wf s L : wf s L -> forEach s = L.
Proof.
  intros Hwf. unfold forEach. pose proof (wf_length _ _ Hwf). apply chain_linked; [|lia].
  pose proof (wf_linked _ _ Hwf 0 ltac:(unfold maxLevel; lia)) as Hl.
  by rewrite (at_level_0 s L Hwf L) in Hl.
Qed.

(** What the list holds: its entries in key order, and as a map. *)
Definition entries (s : skipList) : list (bytes * (bytes * bool)) := payload s <$> forEach s.
Definition contents (s : skipList) : gmap bytes (bytes * bool) := list_to_map (entries s).

(** The representation invariant: the nodes [forEach] visits are threaded
    on every level, in strict key order. *)
Definition Inv (s : skipList) : Prop := wf s (forEach s).

Lemma wf_Inv s L : wf s L -> Inv s.
Proof. intros H. unfold Inv. by rewrite (forEach_wf s L). Qed.

Lemma newSkipList_Inv : Inv newSkipList.
Proof. eapply wf_Inv, newSkipList_wf. Qed.

Lemma newSkipList_entries : entries newSkipList = [].
Proof. reflexivity. Qed.

Lemma payload_keys s L : (payload s <$> L).*1 = key_of s <$> L.
Proof. rewrite <- list_fmap_compose. done. Qed.

Lemma keys_sorted s L : wf s L -> StronglySorted blt (key_of s <$> L).
Proof.
  intros Hwf. pose proof (wf_sorted _ _ Hwf) as H. clear Hwf.
  induction H as [|p L HL IH Hp]; simpl; constructor; [done|]. by apply Forall_fmap.
Qed.

Lemma entries_sorted s : Inv s -> StronglySorted blt (entries s).*1.
Proof. intros H. unfold entries. rewrite payload_keys. by apply keys_sorted. Qed.

Lemma sorted_keys_NoDup (ks : list bytes) : StronglySorted blt ks -> NoDup ks.
Proof.
  induction 1 as [|k ks Hs IH Hk]; constructor; [|done]. intros Hin.
  eapply Forall_forall in Hk; [|exact Hin]. by apply blt_irrefl in Hk.
Qed.

Lemma split_three s L key :
  wf s L -> exists A M B, L = A ++ M ++ B /\ below s key A /\
    Forall (fun p => blt key (key_of s p)) B /\
    ((M = [] /\ forall p, p ∈ L -> key_of s p <> key) \/ exists x, M = [x] /\ key_of s x = key).
Proof.
  intros Hwf. pose proof (wf_sorted _ _ Hwf) as Hs.
  destruct (split_at_key s key L Hs) as (A & B & -> & HA & HB).
  assert (forall B', Forall (fun p => blt key (key_of s p)) B' -> forall p, p ∈ A ++ B' -> key_of s p <> key) as Hne.
  { intros B' HB' p [Hp|Hp]%elem_of_app E.
    - eapply Forall_forall in HA; [|exact Hp]. rewrite E in HA. by apply blt_irrefl in HA.
    - eapply Forall_forall in HB'; [|exact Hp]. rewrite E in HB'. by apply blt_irrefl in HB'. }
  destruct B as [|x B].
  { exists A, [], []. split_and!; [done..|]. left. split; [done|]. by apply (Hne []). }
  apply StronglySorted_app_1_r in Hs. apply StronglySorted_inv in Hs as [_ Hx].
  inversion HB as [|? ? Hx' _]; subst. apply not_blt_ble in Hx'. destruct Hx' as [E|Hlt].
  - exists A, [x], B. split_and!; [done..| |right; by exists x].
    rewrite E. exact Hx.
  - assert (Forall (fun p => blt key (key_of s p)) (x :: B)) as HB'.
    { constructor; [done|]. eapply Forall_impl; [exact Hx|]. intros q Hq. by eapply blt_trans. }
    exists A, [], (x :: B). split_and!; [done..|]. left. split; [done|]. by apply Hne.
Qed.

Lemma above_weaken s key B : Forall (fun p => blt key (key_of s p)) B -> above s key B.
Proof.
  intros H. eapply Forall_impl; [exact H|]. intros p Hp Hp'.
  exact (blt_irrefl key (blt_trans _ _ _ Hp Hp')).
Qed.

(** [search] finds the node that holds [key], if there is one. *)
Lemma search_wf s L key :
  wf s L ->
  match search s key with
  | Some p => p ∈ L /\ key_of s p = key
  | None => forall p, p ∈ L -> key_of s p <> key
  end.
Proof.
  intros Hwf. destruct (split_three s L key Hwf) as (A & M & B & HL & HA & HB & HM).
  assert (above s key (M ++ B)) as HMB.
  { apply Forall_app. split; [|by apply above_weaken]. destruct HM as [[-> _]|(x & -> & E)]; [constructor|].
    constructor; [|constructor]. rewrite E. apply blt_irrefl. }
  unfold search. rewrite (descend_end s L A (M ++ B) key Hwf HL HA HMB).
  rewrite (fwd_end s L A (M ++ B) Hwf HL).
  destruct HM as [[-> Hne]|(x & -> & E)]; cbn [app head].
  - destruct B as [|b B]; cbn [head]; [done|].
    case_bool_decide as Eb; [|done]. exfalso. apply (Hne b); [set_solver|done].
  - rewrite bool_decide_eq_true_2 by done. split; [set_solver|done].
Qed.

Lemma search_contents s key :
  Inv s -> contents s !! key = (fun p => (n_value (node s p), n_deleted (node s p))) <$> search s key.
Proof.
  intros Hi. pose proof (search_wf s _ key Hi) as H. destruct (search s key) as [p|]; simpl.
  - apply elem_of_list_to_map_1; [by apply sorted_keys_NoDup, entries_sorted|].
    destruct H as [Hp <-]. apply list_elem_of_fmap. by exists p.
  - apply not_elem_of_list_to_map_1. unfold entries. rewrite payload_keys.
    intros (p & -> & Hp)%list_elem_of_fmap. by apply (H p).
Qed.

(** Replacing the payload of the node that holds [key]. *)
Lemma entries_replace s s' A x B key v :
  wf s (A ++ x :: B) -> key_of s x = key ->
  (forall p, payload s' p = if decide (p = x) then (key, v) else payload s p) ->
  (list_to_map (payload s' <$> (A ++ x :: B)) : gmap bytes (bytes * bool)) =
  <[key:=v]> (list_to_map (payload s <$> (A ++ x :: B))).
Proof.
  intros Hwf Hk Hp. pose proof (wf_NoDup _ _ Hwf) as Hnd.
  assert (forall l : list nat, x ∉ l -> payload s' <$> l = payload s <$> l) as Hl.
  { intros l Hx. apply list_fmap_ext. intros i p Hi. rewrite Hp, decide_False; [done|].
    intros ->. apply Hx. by eapply list_elem_of_lookup_2. }
  apply NoDup_app in Hnd as (HndA & HAB & HndB). apply NoDup_cons in HndB as [HxB _].
  assert (x ∉ A) as HxA by (intros HxA; apply (HAB x HxA); set_solver).
  rewrite !fmap_app, !fmap_cons, !Hl by done. rewrite Hp, decide_True by done.
  replace (payload s x) with (key, (n_value (node s x), n_deleted (node s x)))
    by (unfold payload; by rewrite Hk).
  rewrite !list_to_map_app, !list_to_map_cons.
  pose proof (sorted_keys_NoDup _ (keys_sorted _ _ Hwf)) as Hnd.
  rewrite fmap_app, fmap_cons, Hk in Hnd. apply NoDup_app in Hnd as (_ & HA & _).
  assert (forall v, list_to_map (payload s <$> A) ∪ <[key:=v]> (list_to_map (payload s <$> B)) =
    <[key:=v]> (list_to_map (payload s <$> A) ∪ list_to_map (payload s <$> B) : gmap bytes (bytes * bool))) as E.
  { intros w. symmetry. apply insert_union_r, not_elem_of_list_to_map_1. rewrite payload_keys.
    intros Hin. apply (HA key Hin). set_solver. }
  rewrite !E. by rewrite insert_insert_eq.
Qed.

Lemma entries_splice s s' A B new key v :
  (forall p, p ∈ A ++ B -> key_of s p <> key) -> new ∉ A ++ B ->
  (forall p, payload s' p = if decide (p = new) then (key, v) else payload s p) ->
  (list_to_map (payload s' <$> (A ++ new :: B)) : gmap bytes (bytes * bool)) =
  <[key:=v]> (list_to_map (payload s <$> (A ++ B))).
Proof.
  intros Hk Hn Hp.
  assert (forall l : list nat, new ∉ l -> payload s' <$> l = payload s <$> l) as Hl.
  { intros l Hx. apply list_fmap_ext. intros i p Hi. rewrite Hp, decide_False; [done|].
    intros ->. apply Hx. by eapply list_elem_of_lookup_2. }
  rewrite !fmap_app, !fmap_cons, !Hl by set_solver. rewrite Hp, decide_True by done.
  rewrite !list_to_map_app. simpl. symmetry. apply insert_union_r, not_elem_of_list_to_map_1.
  rewrite payload_keys. intros (p & E & Hin)%list_elem_of_fmap. apply (Hk p); [set_solver|done].
Qed.

(** ** [upsert] *)

Lemma take_update s A lvl :
  Forall (fun p => height s p <= sl_level s)%nat A ->
  take lvl (((fun i => pred_of (at_level s i A)) <$> seq 0 (sl_level s)) ++ replicate (lvl - sl_level s) 0%nat)
  = (fun i => pred_of (at_level s i A)) <$> seq 0 lvl.
Proof.
  intros HA. apply list_eq. intros i. destruct (decide (i < lvl)%nat) as [Hi|Hi].
  - rewrite lookup_take_lt by done. rewrite (list_lookup_fmap _ (seq 0 lvl)), lookup_seq_lt by done.
    destruct (decide (i < sl_level s)%nat) as [Hs|Hs].
    + rewrite lookup_app_l by (by rewrite length_fmap, length_seq).
      rewrite list_lookup_fmap, lookup_seq_lt by done. done.
    + rewrite lookup_app_r by (rewrite length_fmap, length_seq; lia).
      rewrite length_fmap, length_seq, lookup_replicate_2 by lia. simpl.
      assert (at_level s i A = []) as ->; [|done].
      destruct (at_level s i A) as [|q l] eqn:E; [done|].
      assert (q ∈ at_level s i A) as [Hq Hin]%list_elem_of_filter by (rewrite E; set_solver).
      eapply Forall_forall in HA; [|exact Hin]. cbn beta in HA. lia.
  - rewrite lookup_take_ge by lia. symmetry. apply lookup_ge_None_2. rewrite length_fmap, length_seq. lia.
Qed.

Definition old_info (o : option (bytes * bool)) : upsert_info :=
  match o with
  | Some (v, d) => MkUpsert true d (length v)
  | None => MkUpsert false false 0
  end.

Lemma contents_wf s L : wf s L -> contents s = list_to_map (payload s <$> L).
Proof. intros H. unfold contents, entries. by rewrite (forEach_wf s L). Qed.

Lemma wf_above s L A M B key :
  wf s L -> L = A ++ M ++ B -> Forall (fun p => blt key (key_of s p)) B ->
  (M = [] \/ exists x, M = [x] /\ key_of s x = key) -> above s key (M ++ B).
Proof.
  intros _ _ HB HM. apply Forall_app. split; [|by apply above_weaken].
  destruct HM as [->|(x & -> & E)]; [constructor|].
  constructor; [|constructor]. rewrite E. apply blt_irrefl.
Qed.

(** The update branch: the node exists, its value and tombstone flag are
    overwritten in place. *)
Lemma update_wf s A x B key value deleted :
  wf s (A ++ x :: B) -> key_of s x = key ->
  let s' := set_node s x (fun n => MkNode (n_key n) value deleted (n_forward n)) in
  wf s' (A ++ x :: B) /\ contents s' = <[key:=(value, deleted)]> (contents s).
Proof.
  intros Hwf Hk s'.
  assert (x < length (sl_nodes s))%nat as Hx.
  { pose proof (proj1 (Forall_forall _ _) (wf_range _ _ Hwf) x ltac:(set_solver)) as H. cbn beta in H. lia. }
  assert (forall p, node s' p = if decide (p = x) then MkNode (n_key (node s x)) value deleted (n_forward (node s x)) else node s p) as Hn.
  { intros p. unfold s'. by rewrite node_set_node. }
  assert (wf s' (A ++ x :: B)) as Hwf'.
  { apply wf_same_links with (s := s); [done|apply length_set_node|done| | |];
      [intros p; unfold height|intros p; unfold key_of|intros p i; unfold fwd];
      rewrite Hn; case_decide; subst; done. }
  split; [done|]. rewrite (contents_wf _ _ Hwf'), (contents_wf _ _ Hwf).
  apply entries_replace; [done|done|]. intros p. unfold payload, key_of. rewrite Hn.
  case_decide; [|done]. subst. done.
Qed.

(** Allocation appends one node; every other address reads as before. *)
Lemma node_alloc s n lvl p :
  node {| sl_nodes := sl_nodes s ++ [n]; sl_level := lvl |} p =
  if decide (p = length (sl_nodes s)) then n else node s p.
Proof.
  unfold node. cbn. case_decide as E; [subst; by rewrite lookup_total_app_r, Nat.sub_diag by lia|].
  rewrite !list_lookup_total_alt. destruct (decide (p < length (sl_nodes s))%nat).
  - by rewrite lookup_app_l.
  - rewrite !lookup_ge_None_2; [done|lia|]. rewrite length_app. simpl. lia.
Qed.

(** The nodes recorded in [update] are the header or smaller nodes that
    reach the level. *)
Lemma pred_of_at_level s i A :
  pred_of (at_level s i A) = 0%nat \/
  (pred_of (at_level s i A) ∈ A /\ i < height s (pred_of (at_level s i A)))%nat.
Proof.
  unfold pred_of. destruct (at_level s i A) as [|q l _] eqn:E using rev_ind; [by left|right].
  rewrite last_last. assert (q ∈ at_level s i A) as [? ?]%list_elem_of_filter by (rewrite E; set_solver). done.
Qed.

Section Insert.
Context (s : skipList) (A B : list nat) (key value : bytes) (deleted : bool) (lvl : nat).
Context (Hwf : wf s (A ++ B)) (HA : below s key A)
        (HB : Forall (fun p => blt key (key_of s p)) B)
        (Hne : forall p, p ∈ A ++ B -> key_of s p <> key) (Hlvl : (1 <= lvl <= maxLevel)%nat).

Let new := length (sl_nodes s).
Let update := (fun i => pred_of (at_level s i A)) <$> seq 0 lvl.
Let s1 := {| sl_nodes := sl_nodes s ++ [MkNode key value deleted (replicate lvl None)];
             sl_level := Nat.max (sl_level s) lvl |}.
Let s' := link_levels s1 new 0 update.

Lemma member_lt_new p : p ∈ A ++ B -> (p < new)%nat.
Proof.
  intros Hp. pose proof (proj1 (Forall_forall _ _) (wf_range _ _ Hwf) p Hp) as H.
  cbn beta in H. unfold new. lia.
Qed.

Lemma pred_lt_new i : (pred_of (at_level s i A) < new)%nat.
Proof.
  destruct (pred_of_at_level s i A) as [->|[Hin _]].
  - pose proof (wf_length _ _ Hwf). unfold new. lia.
  - apply member_lt_new. set_solver.
Qed.

Lemma height_s1 p : height s1 p = if decide (p = new) then lvl else height s p.
Proof.
  unfold height, s1. rewrite node_alloc. fold new. case_decide; [|done]. apply length_replicate.
Qed.

Lemma fwd_s1 p j : fwd s1 p j = if decide (p = new) then None else fwd s p j.
Proof.
  unfold fwd, s1. rewrite node_alloc. fold new. case_decide; [|done]. cbn.
  destruct (replicate lvl None !! j) eqn:E; [|done]. by apply lookup_replicate in E as [-> _].
Qed.

Lemma insert_links :
  length (sl_nodes s') = S new /\ sl_level s' = Nat.max (sl_level s) lvl /\
  (forall p, payload s' p = if decide (p = new) then (key, (value, deleted)) else payload s p) /\
  (forall p, height s' p = if decide (p = new) then lvl else height s p) /\
  (forall p j, fwd s' p j =
     if decide (j < lvl)%nat then
       if decide (p = new) then fwd s (pred_of (at_level s j A)) j
       else if decide (p = pred_of (at_level s j A)) then Some new else fwd s p j
     else if decide (p = new) then None else fwd s p j).
Proof.
  assert (length (sl_nodes s1) = S new) as Hl1.
  { unfold s1. cbn. rewrite length_app. simpl. unfold new. lia. }
  destruct (link_levels_spec s1 new 0 update) as (Q1 & Q2 & Q3 & Q4 & Q5).
  { lia. }
  { rewrite height_s1, decide_True by done. unfold update. rewrite length_fmap, length_seq. lia. }
  { intros j u Hj. apply list_lookup_fmap_Some in Hj as (i & -> & [-> Hi]%lookup_seq).
    pose proof (pred_lt_new (0 + j)) as Hu. split_and!; [lia|lia|].
    rewrite height_s1, decide_False by lia.
    destruct (pred_of_at_level s (0 + j) A) as [->|[_ ?]]; [rewrite (wf_header _ _ Hwf)|]; lia. }
  fold s' in Q1, Q2, Q3, Q4, Q5. split_and!; [by rewrite Q1|done| | |].
  - intros p. rewrite Q3. unfold payload, key_of, s1. rewrite node_alloc. fold new. by case_decide.
  - intros p. rewrite Q4. apply height_s1.
  - intros p j. rewrite Q5, Nat.sub_0_r. unfold update. rewrite list_lookup_fmap.
    pose proof (pred_lt_new j) as Hj. destruct (decide (j < lvl)%nat).
    + rewrite lookup_seq_lt by done. cbn [fmap option_fmap option_map].
      rewrite (decide_True (P := 0 <= j)%nat) by lia. rewrite !fwd_s1.
      rewrite (decide_False (P := pred_of (at_level s (0 + j) A) = new)) by (simpl; lia).
      by repeat case_decide.
    + rewrite lookup_seq_ge by lia. apply fwd_s1.
Qed.

(** The insert branch: a fresh node of height [lvl] spliced in between
    the smaller and the greater keys. *)
Lemma insert_wf :
  wf s' (A ++ new :: B) /\ contents s' = <[key:=(value, deleted)]> (contents s).
Proof.
  destruct insert_links as (El & Ev & Hpay & Eh & Ef).
  assert (wf s' (A ++ new :: B)) as Hwf'.
  { apply (wf_splice s s' A B key new lvl); try done.
    intros p. change (key_of s' p) with (payload s' p).1. rewrite Hpay. by case_decide. }
  split; [done|]. rewrite (contents_wf _ _ Hwf'), (contents_wf _ _ Hwf).
  apply entries_splice; [done| |done]. intros Hin%member_lt_new. lia.
Qed.
End Insert.

(** [upsert] keeps the invariant, implements the map update, and reports
    what the key held before. *)
Lemma upsert_spec s coins key value deleted :
  Inv s ->
  let '(s', info) := upsert s coins key value deleted in
  Inv s' /\ contents s' = <[key:=(value, deleted)]> (contents s) /\
  info = old_info (contents s !! key).
Proof.
  intros Hi. destruct (split_three s _ key Hi) as (A & M & B & HL & HA & HB & HM).
  assert (above s key (M ++ B)) as HMB.
  { eapply wf_above; [exact Hi|exact HL|done|]. destruct HM as [[-> _]|?]; [by left|by right]. }
  pose proof (wf_level _ _ Hi) as Hlv.
  unfold upsert. rewrite (find_update_spec s _ A (M ++ B) key Hi HL HA HMB);
    [|lia|apply (on_path_header s A)].
  replace (match sl_level s with 0%nat => 0%nat | S _ => pred_of (at_level s 0 A) end)
    with (pred_of (at_level s 0 A)) by (destruct (sl_level s); [lia|done]).
  rewrite (fwd_end s _ A (M ++ B) Hi HL).
  unfold Inv in Hi at 1. rewrite HL in Hi. destruct HM as [[-> Hne]|(x & -> & E)]; cbn [app head] in *.
  - assert (contents s !! key = None) as ->.
    { rewrite (contents_wf _ _ Hi). apply not_elem_of_list_to_map_1. rewrite payload_keys.
      intros (p & E & Hp)%list_elem_of_fmap. rewrite HL in Hne. by apply (Hne p). }
    rewrite HL in Hne.
    destruct (insert_wf s A B key value deleted (randomLevel coins)) as [Hw Hc];
      [done..|apply randomLevel_bounds|].
    rewrite take_update.
    2:{ pose proof (wf_height _ _ Hi) as Hh. apply Forall_app in Hh as [Hh _].
        eapply Forall_impl; [exact Hh|]. simpl. lia. }
    destruct B as [|b B]; cbn [head].
    + split_and!; [by eapply wf_Inv|done|done].
    + rewrite bool_decide_eq_false_2 by (apply Hne; set_solver).
      split_and!; [by eapply wf_Inv|done|done].
  - rewrite bool_decide_eq_true_2 by done. destruct (update_wf s A x B key value deleted Hi E) as [Hw Hc].
    split_and!; [by eapply wf_Inv|done|].
    assert (contents s !! key = Some (n_value (node s x), n_deleted (node s x))) as ->; [|done].
    rewrite (contents_wf _ _ Hi). apply elem_of_list_to_map_1.
    + rewrite payload_keys. by apply sorted_keys_NoDup, keys_sorted.
    + apply list_elem_of_fmap. exists x. split; [by rewrite <- E|set_solver].
Qed.
