(* ===== verification/MemTable.v ===== *)
(** * The MemTable

    internal/storage/memtable/memtable.go: the ordered table with tombstones
    over the skip list of [SkipList], and its incrementally maintained
    counters. The lock makes each method one step, so a method is a function
    of the state. The coin flips of the skip list's [randomLevel] are an
    argument of the methods that insert. *)

From S2P Require Import Prelude Bytes SkipList.
From stdpp Require Import base tactics list numbers sorting sets gmap.
From Stdlib Require Import Strings.Byte.
From Stdlib Require Import ZArith Lia.
#[local] Open Scope Z_scope.

Inductive memtable_error := ErrEmptyKey.

#[export] Instance memtable_error_eq_dec : EqDecision memtable_error.
Proof. solve_decision. Defined.

Record MemTable := MkMemTable {
  mt_list : skipList;
  mt_liveCount : Z;
  mt_liveBytes : Z }.

Definition New : MemTable := MkMemTable newSkipList 0 0.

Definition Put (m : MemTable) (coins : list bool) (key value : bytes) :
    MemTable * result memtable_error unit :=
  if zlen key =? 0 then (m, Err ErrEmptyKey)
  else
    let '(l, i) := upsert (mt_list m) coins key value false in
    if negb (u_existed i) || u_wasDeleted i then
      (MkMemTable l (mt_liveCount m + 1) (mt_liveBytes m + (zlen key + zlen value)), Ok tt)
    else
      (MkMemTable l (mt_liveCount m)
         (mt_liveBytes m + (zlen value - Z.of_nat (u_oldValueLen i))), Ok tt).

(** [Get]: [None] for [found = false]. *)
Definition Get (m : MemTable) (key : bytes) : option bytes :=
  if zlen key =? 0 then None
  else match search (mt_list m) key with
       | Some p => if n_deleted (node (mt_list m) p) then None
                   else Some (n_value (node (mt_list m) p))
       | None => None
       end.

Definition Delete (m : MemTable) (coins : list bool) (key : bytes) :
    MemTable * result memtable_error unit :=
  if zlen key =? 0 then (m, Err ErrEmptyKey)
  else
    let '(l, i) := upsert (mt_list m) coins key [] true in
    if u_existed i && negb (u_wasDeleted i) then
      (MkMemTable l (mt_liveCount m - 1)
         (mt_liveBytes m - (zlen key + Z.of_nat (u_oldValueLen i))), Ok tt)
    else (MkMemTable l (mt_liveCount m) (mt_liveBytes m), Ok tt).

Definition Len (m : MemTable) : Z := mt_liveCount m.
Definition Bytes (m : MemTable) : Z := mt_liveBytes m.

(** [All]: the live entries [forEach] visits, tombstones skipped. *)
Definition All (m : MemTable) : list (bytes * bytes) :=
  omap (fun p => let n := node (mt_list m) p in
                 if n_deleted n then None else Some (n_key n, n_value n))
       (forEach (mt_list m)).

(** ** The table as a map *)

Definition live_value (e : bytes * bool) : option bytes :=
  if e.2 then None else Some e.1.

(** The live keys and their values. *)
Definition live (m : MemTable) : gmap bytes bytes := omap live_value (contents (mt_list m)).

(** What [Bytes] counts. *)
Definition size_of (t : gmap bytes bytes) : Z :=
  map_fold (fun k v acc => zlen k + zlen v + acc) 0 t.

Lemma size_of_insert t k v :
  t !! k = None -> size_of (<[k:=v]> t) = zlen k + zlen v + size_of t.
Proof.
  intros H. unfold size_of. rewrite map_fold_insert_L; [done| |done]. intros; lia.
Qed.

Lemma size_of_delete t k v :
  t !! k = Some v -> size_of t = zlen k + zlen v + size_of (delete k t).
Proof.
  intros H. rewrite <- (insert_delete_id t k v H) at 1. apply size_of_insert, lookup_delete_eq.
Qed.

(** The invariant: a well-formed skip list, counters that equal what a
    scan of the live entries would give, and no empty key. *)
Record mt_ok (m : MemTable) : Prop := {
  ok_list : Inv (mt_list m);
  ok_count : mt_liveCount m = Z.of_nat (size (live m));
  ok_bytes : mt_liveBytes m = size_of (live m);
  ok_keys : contents (mt_list m) !! [] = None }.

Lemma New_ok : mt_ok New.
Proof. split; [apply newSkipList_Inv|reflexivity..]. Qed.

Lemma live_New : live New = ∅.
Proof. reflexivity. Qed.

Lemma live_lookup_old l key :
  omap live_value (contents l) !! key =
  match old_info (contents l !! key) with
  | MkUpsert true false _ => fst <$> contents l !! key
  | _ => None
  end.
Proof.
  rewrite lookup_omap. by destruct (contents l !! key) as [[v []]|].
Qed.

Lemma insert_live_step t key value :
  match t !! key with
  | None => Z.of_nat (size (<[key:=value]> t)) = Z.of_nat (size t) + 1 /\
            size_of (<[key:=value]> t) = size_of t + (zlen key + zlen value)
  | Some v => Z.of_nat (size (<[key:=value]> t)) = Z.of_nat (size t) /\
            size_of (<[key:=value]> t) = size_of t + (zlen value - zlen v)
  end.
Proof.
  destruct (t !! key) as [v|] eqn:E.
  - rewrite map_size_insert, E. split; [done|].
    rewrite (size_of_delete t key v E), <- insert_delete_eq, size_of_insert by apply lookup_delete_eq. lia.
  - rewrite map_size_insert, E, size_of_insert by done. cbn. split; lia.
Qed.

Lemma delete_live_step t key :
  match t !! key with
  | None => delete key t = t
  | Some v => Z.of_nat (size (delete key t)) = Z.of_nat (size t) - 1 /\
              size_of (delete key t) = size_of t - (zlen key + zlen v)
  end.
Proof.
  destruct (t !! key) as [v|] eqn:E; [|by apply delete_id].
  rewrite map_size_delete, E, (size_of_delete t key v E). cbn. split; [|lia].
  assert (0 < size t)%nat; [|lia]. apply Nat.neq_0_lt_0. intros H.
  apply map_size_empty_inv in H. subst. done.
Qed.

Lemma zlen_zero_nil {A} (l : list A) : zlen l =? 0 = true -> l = [].
Proof. destruct l; [done|]. intros H%Z.eqb_eq. zlen_lia. Qed.

Lemma zlen_nonzero {A} (l : list A) : l <> [] -> zlen l =? 0 = false.
Proof. destruct l; [done|]. intros _. apply Z.eqb_neq. zlen_lia. Qed.

(** [Put] implements map insertion and keeps the counters exact. *)
Lemma Put_spec m coins key value :
  mt_ok m -> key <> [] ->
  exists m', Put m coins key value = (m', Ok tt) /\ mt_ok m' /\ live m' = <[key:=value]> (live m).
Proof.
  intros [Hi Hc Hb Hk] Hne. unfold Put. rewrite (zlen_nonzero key) by done.
  pose proof (upsert_spec (mt_list m) coins key value false Hi) as Hu.
  destruct (upsert _ _ _ _ _) as [l i]. destruct Hu as (Hi' & Hcont & ->).
  assert (omap live_value (contents l) = <[key:=value]> (live m)) as Hl.
  { rewrite Hcont, omap_insert. done. }
  assert (contents l !! [] = None) as Hk' by (rewrite Hcont, lookup_insert_ne; done).
  pose proof (insert_live_step (live m) key value) as Hs.
  unfold live in Hs at 1. rewrite live_lookup_old in Hs.
  destruct (contents (mt_list m) !! key) as [[v []]|]; cbn in *;
    (eexists; split; [reflexivity|]; split; [|exact Hl]; split; [done| | |done]);
    unfold live; cbn; rewrite Hl; 
    first [rewrite (proj1 Hs) | rewrite (proj2 Hs)]; rewrite ?Hc, ?Hb; done.
Qed.

Lemma Put_empty m coins value : Put m coins [] value = (m, Err ErrEmptyKey).
Proof. reflexivity. Qed.

Lemma Delete_spec m coins key :
  mt_ok m -> key <> [] ->
  exists m', Delete m coins key = (m', Ok tt) /\ mt_ok m' /\ live m' = delete key (live m).
Proof.
  intros [Hi Hc Hb Hk] Hne. unfold Delete. rewrite (zlen_nonzero key) by done.
  pose proof (upsert_spec (mt_list m) coins key [] true Hi) as Hu.
  destruct (upsert _ _ _ _ _) as [l i]. destruct Hu as (Hi' & Hcont & ->).
  assert (omap live_value (contents l) = delete key (live m)) as Hl.
  { rewrite Hcont, omap_insert. done. }
  assert (contents l !! [] = None) as Hk' by (rewrite Hcont, lookup_insert_ne; done).
  pose proof (delete_live_step (live m) key) as Hs.
  unfold live in Hs at 1. rewrite live_lookup_old in Hs.
  destruct (contents (mt_list m) !! key) as [[v []]|]; cbn in *;
    (eexists; split; [reflexivity|]; split; [|exact Hl]; split; [done| | |done]);
    unfold live; cbn; rewrite Hl; 
    first [rewrite Hs | rewrite (proj1 Hs) | rewrite (proj2 Hs)]; rewrite ?Hc, ?Hb; done.
Qed.

Lemma Get_spec m key : mt_ok m -> Get m key = live m !! key.
Proof.
  intros [Hi _ _ Hk]. unfold Get, live. rewrite lookup_omap. destruct (zlen key =? 0) eqn:E.
  - apply zlen_zero_nil in E as ->. by rewrite Hk.
  - rewrite search_contents by done. destruct (search _ _); simpl; [|done].
    unfold live_value. simpl. by destruct (n_deleted _).
Qed.

Lemma All_entries m :
  All m = omap (fun e => (fun v => (e.1, v)) <$> live_value e.2) (entries (mt_list m)).
Proof.
  unfold All, entries. generalize (forEach (mt_list m)). intros l.
  induction l as [|p l IH]; [done|]. rewrite fmap_cons. cbn [omap list_omap].
  rewrite IH. unfold payload, live_value at 2, key_of. cbn. by destruct (n_deleted _).
Qed.

Lemma sorted_omap (l : list (bytes * (bytes * bool))) :
  StronglySorted blt l.*1 ->
  StronglySorted blt (omap (fun e => (fun v => (e.1, v)) <$> live_value e.2) l).*1 /\
  list_to_map (omap (fun e => (fun v => (e.1, v)) <$> live_value e.2) l) =
    omap live_value (list_to_map l : gmap bytes (bytes * bool)).
Proof.
  induction l as [|[k [v d]] l IH]; intros H; [done|].
  rewrite fmap_cons in H. apply StronglySorted_inv in H as [Hs Hk]. destruct (IH Hs) as [IH1 IH2].
  assert (k ∉ l.*1) as Hnk.
  { intros Hin. eapply Forall_forall in Hk; [|exact Hin]. by apply blt_irrefl in Hk. }
  cbn [omap list_omap fst snd]. rewrite list_to_map_cons, omap_insert. cbn [fst snd].
  destruct d; cbn [live_value fst snd fmap option_fmap option_map].
  - split; [done|]. rewrite IH2, delete_id; [done|].
    rewrite lookup_omap, (not_elem_of_list_to_map_1 l k); done.
  - rewrite fmap_cons, list_to_map_cons, IH2. split; [|done]. constructor; [done|].
    apply Forall_forall. intros k' ([k2 v2] & -> & Hin)%list_elem_of_fmap.
    apply list_elem_of_omap in Hin as ([k3 e3] & Hin & E). cbn in E.
    destruct (live_value e3); simplify_eq/=. eapply Forall_forall in Hk; [exact Hk|].
    apply list_elem_of_fmap. by exists (k2, e3).
Qed.

(** [All] lists exactly the live entries, in strictly ascending key order. *)
Lemma All_spec m :
  mt_ok m -> StronglySorted blt (All m).*1 /\ list_to_map (All m) = live m.
Proof.
  intros [Hi _ _ _]. rewrite All_entries. unfold live. apply sorted_omap, entries_sorted, Hi.
Qed.
