(* ===== verification/MemStore.v ===== *)
(** * The storage engine

    internal/storage/storage.go and memstore.go: the [Store] contract as a
    class, and [MemStore], a MemTable made durable by the write-ahead log.
    [Put] and [Delete] append and sync before they touch the MemTable. *)

From S2P Require Import Prelude Bytes Wal SkipList MemTable.
From stdpp Require Import base tactics list numbers sorting sets gmap.
From Stdlib Require Import Strings.Byte.
From Stdlib Require Import ZArith Lia.
#[local] Open Scope Z_scope.

Inductive store_error :=
| StoreErrEmptyKey | StoreErrKeyNotFound
| StoreErrAppend (e : wal_error) | StoreErrSync (e : wal_error)
| StoreErrMemTable (e : memtable_error) | StoreErrRecover (e : wal_error).

#[export] Instance store_error_eq_dec : EqDecision store_error.
Proof. solve_decision. Defined.

(** What a mutation meets outside the program: the skip list's coin flips,
    whether the log write fails and after how many bytes, whether the sync
    fails. *)
Record store_env := MkStoreEnv {
  env_coins : list bool;
  env_append : option nat;
  env_sync : bool }.

Definition calm (e : store_env) : Prop := env_append e = None /\ env_sync e = false.

(** ** The contract

    A [Store] is a finite map behind operations that may fail: a failed
    mutation leaves the visible content alone, a successful one is the map
    update, and with a working disk every storable pair is stored. *)

Definition storable (key value : bytes) : Prop :=
  0 < zlen key <= maxKeySize /\ zlen value <= maxValueSize.

Class Store (St Env : Type) := {
  store_Put : St -> Env -> bytes -> bytes -> St * result store_error unit;
  store_Get : St -> bytes -> result store_error bytes;
  store_Delete : St -> Env -> bytes -> St * result store_error unit;
  store_Snapshot : St -> list (bytes * bytes);
  store_view : St -> gmap bytes bytes;
  store_inv : St -> Prop;
  store_calm : Env -> Prop }.

Class StoreLaws (St Env : Type) `{Store St Env} := {
  store_Put_law s e k v s' r :
    store_inv s -> store_Put s e k v = (s', r) ->
    store_inv s' /\ store_view s' = match r with Ok _ => <[k:=v]> (store_view s)
                                               | Err _ => store_view s end;
  store_Put_ok s e k v :
    store_inv s -> store_calm e -> storable k v -> (store_Put s e k v).2 = Ok tt;
  store_Put_empty s e k v :
    (store_Put s e k v).2 = Err StoreErrEmptyKey <-> k = [];
  store_Delete_law s e k s' r :
    store_inv s -> store_Delete s e k = (s', r) ->
    store_inv s' /\ store_view s' = match r with Ok _ => delete k (store_view s)
                                               | Err _ => store_view s end;
  store_Delete_ok s e k :
    store_inv s -> store_calm e -> storable k [] -> (store_Delete s e k).2 = Ok tt;
  store_Delete_empty s e k :
    (store_Delete s e k).2 = Err StoreErrEmptyKey <-> k = [];
  store_Get_law s k :
    store_inv s -> k <> [] ->
    store_Get s k = match store_view s !! k with Some v => Ok v
                                               | None => Err StoreErrKeyNotFound end;
  store_view_storable s : store_inv s -> map_Forall storable (store_view s);
  store_Snapshot_law s :
    store_inv s -> StronglySorted blt (store_Snapshot s).*1 /\
                   list_to_map (store_Snapshot s) = store_view s }.

(** ** MemStore *)

Record MemStore := MkMemStore {
  ms_mt : MemTable;
  ms_log : WAL }.

Definition lift_mt {A} (r : result memtable_error A) : result store_error A :=
  match r with Ok a => Ok a | Err e => Err (StoreErrMemTable e) end.

(** [Put] and [Delete] differ in the record and in the MemTable call. *)
Definition Put (s : MemStore) (e : store_env) (key value : bytes) :
    MemStore * result store_error unit :=
  if zlen key =? 0 then (s, Err StoreErrEmptyKey)
  else match Append (ms_log s) (env_append e) (MkWalRecord OpPut key value) with
       | (log, Err err) => (MkMemStore (ms_mt s) log, Err (StoreErrAppend err))
       | (log, Ok _) =>
           match Sync log (env_sync e) with
           | (log, Err err) => (MkMemStore (ms_mt s) log, Err (StoreErrSync err))
           | (log, Ok _) =>
               let '(mt, r) := MemTable.Put (ms_mt s) (env_coins e) key value in
               (MkMemStore mt log, lift_mt r)
           end
       end.

Definition Get (s : MemStore) (key : bytes) : result store_error bytes :=
  if zlen key =? 0 then Err StoreErrEmptyKey
  else match MemTable.Get (ms_mt s) key with
       | Some value => Ok value
       | None => Err StoreErrKeyNotFound
       end.

Definition Delete (s : MemStore) (e : store_env) (key : bytes) :
    MemStore * result store_error unit :=
  if zlen key =? 0 then (s, Err StoreErrEmptyKey)
  else match Append (ms_log s) (env_append e) (MkWalRecord OpDelete key []) with
       | (log, Err err) => (MkMemStore (ms_mt s) log, Err (StoreErrAppend err))
       | (log, Ok _) =>
           match Sync log (env_sync e) with
           | (log, Err err) => (MkMemStore (ms_mt s) log, Err (StoreErrSync err))
           | (log, Ok _) =>
               let '(mt, r) := MemTable.Delete (ms_mt s) (env_coins e) key in
               (MkMemStore mt log, lift_mt r)
           end
       end.

Definition Snapshot (s : MemStore) : list (bytes * bytes) := All (ms_mt s).

(** [Stats]: the MemTable's two counters. *)
Definition Stats (s : MemStore) : Z * Z := (Len (ms_mt s), Bytes (ms_mt s)).

(** The replay callback of [NewMemStore]; each insertion draws its coin
    flips from the head of the list. *)
Definition recover_record (st : MemTable * list (list bool)) (r : WalRecord) :
    option (MemTable * list (list bool)) :=
  let '(mt, flips) := st in
  let coins := default [] (head flips) in
  let res := if bool_decide (rec_Type r = OpPut) then MemTable.Put mt coins (rec_Key r) (rec_Value r)
             else if bool_decide (rec_Type r = OpDelete) then MemTable.Delete mt coins (rec_Key r)
             else (mt, Err ErrEmptyKey) in
  match res with
  | (mt, Ok _) => Some (mt, tail flips)
  | (_, Err _) => None
  end.

Definition NewMemStore (flips : list (list bool)) (content : bytes) : result store_error MemStore :=
  match Replay recover_record (wal_open content) (New, flips) with
  | (log, (mt, _), Ok _) => Ok (MkMemStore mt log)
  | (_, _, Err e) => Err (StoreErrRecover e)
  end.

(** ** MemStore keeps the contract *)

Definition ms_view (s : MemStore) : gmap bytes bytes := live (ms_mt s).

#[export] Instance MemStore_Store : Store MemStore store_env := {
  store_Put := Put; store_Get := Get; store_Delete := Delete; store_Snapshot := Snapshot;
  store_view := ms_view;
  store_inv s := mt_ok (ms_mt s) /\ map_Forall storable (ms_view s); store_calm := calm }.

Lemma key_nonempty (key : bytes) : zlen key =? 0 = false -> key <> [].
Proof. intros H ->. done. Qed.

Lemma Put_memory s e key value s' r :
  mt_ok (ms_mt s) -> Put s e key value = (s', r) ->
  mt_ok (ms_mt s') /\
  ms_view s' = match r with Ok _ => <[key:=value]> (ms_view s) | Err _ => ms_view s end.
Proof.
  intros Hok. unfold Put. destruct (zlen key =? 0) eqn:Ek; [by intros [= <- <-]|].
  destruct (Append _ _ _) as [log [[]|err]]; [|by intros [= <- <-]].
  destruct (Sync _ _) as [log' [[]|err]]; [|by intros [= <- <-]].
  destruct (Put_spec (ms_mt s) (env_coins e) key value Hok (key_nonempty _ Ek)) as (mt' & -> & Hok' & Hl).
  by intros [= <- <-].
Qed.

Lemma Delete_memory s e key s' r :
  mt_ok (ms_mt s) -> Delete s e key = (s', r) ->
  mt_ok (ms_mt s') /\
  ms_view s' = match r with Ok _ => delete key (ms_view s) | Err _ => ms_view s end.
Proof.
  intros Hok. unfold Delete. destruct (zlen key =? 0) eqn:Ek; [by intros [= <- <-]|].
  destruct (Append _ _ _) as [log [[]|err]]; [|by intros [= <- <-]].
  destruct (Sync _ _) as [log' [[]|err]]; [|by intros [= <- <-]].
  destruct (Delete_spec (ms_mt s) (env_coins e) key Hok (key_nonempty _ Ek)) as (mt' & -> & Hok' & Hl).
  by intros [= <- <-].
Qed.

(** What was acknowledged fits the log's limits. *)
Lemma Put_ok_storable s e key value s' : Put s e key value = (s', Ok tt) -> storable key value.
Proof.
  unfold Put, Append. destruct (zlen key =? 0); [done|].
  destruct (encodeRecord _) as [b|err] eqn:E; [|done]. intros _.
  apply encodeRecord_ok in E as [(_ & Hk & Hv) _]. done.
Qed.

Lemma Append_calm w r : valid_record r -> Append w None r = (file_write w (frame r), Ok tt).
Proof.
  intros Hr. unfold Append. by rewrite (proj2 (encodeRecord_ok r _)) by (split; [done|reflexivity]).
Qed.

Lemma storable_record t key value :
  known_op t = true -> storable key value -> valid_record (MkWalRecord t key value).
Proof. intros Ht [Hk Hv]. done. Qed.

Lemma Put_empty_iff s e k v : (Put s e k v).2 = Err StoreErrEmptyKey <-> k = [].
Proof.
  split; [|by intros ->]. unfold Put. destruct (zlen k =? 0) eqn:E; [intros _; by apply zlen_zero_nil|].
  destruct (Append _ _ _) as [? [[]|]]; [|done]. destruct (Sync _ _) as [? [[]|]]; [|done].
  destruct (MemTable.Put _ _ _ _) as [? [[]|]]; done.
Qed.

Lemma Delete_empty_iff s e k : (Delete s e k).2 = Err StoreErrEmptyKey <-> k = [].
Proof.
  split; [|by intros ->]. unfold Delete. destruct (zlen k =? 0) eqn:E; [intros _; by apply zlen_zero_nil|].
  destruct (Append _ _ _) as [? [[]|]]; [|done]. destruct (Sync _ _) as [? [[]|]]; [|done].
  destruct (MemTable.Delete _ _ _) as [? [[]|]]; done.
Qed.

#[export] Instance MemStore_Laws : StoreLaws MemStore store_env.
Proof.
  split.
  - intros s e k v s' r [Hok Hst] E. destruct (Put_memory _ _ _ _ _ _ Hok E) as [Hok' Hv].
    split; [|done]. split; [done|]. rewrite Hv. destruct r as [[]|]; [|done].
    apply map_Forall_insert_2; [|done]. by eapply Put_ok_storable.
  - intros s e k v [Hok _] [Ha Hs] Hst. simpl. unfold Put. pose proof Hst as [Hk Hv].
    rewrite (proj2 (Z.eqb_neq _ _)) by lia. rewrite Ha, Hs.
    rewrite Append_calm by (by apply storable_record). cbn.
    destruct (Put_spec (ms_mt s) (env_coins e) k v Hok) as (mt' & -> & _); [|done].
    intros ->. zlen_lia.
  - apply Put_empty_iff.
  - intros s e k s' r [Hok Hst] E. destruct (Delete_memory _ _ _ _ _ Hok E) as [Hok' Hv].
    split; [|done]. split; [done|]. rewrite Hv. destruct r as [[]|]; [|done]. by apply map_Forall_delete.
  - intros s e k [Hok _] [Ha Hs] Hst. simpl. unfold Delete. pose proof Hst as [Hk Hv].
    rewrite (proj2 (Z.eqb_neq _ _)) by lia. rewrite Ha, Hs.
    rewrite Append_calm by (by apply storable_record). cbn.
    destruct (Delete_spec (ms_mt s) (env_coins e) k Hok) as (mt' & -> & _); [|done].
    intros ->. zlen_lia.
  - apply Delete_empty_iff.
  - intros s k [Hok _] Hk. simpl. unfold Get. rewrite zlen_nonzero by done.
    by rewrite (Get_spec _ _ Hok).
  - by intros s [_ Hst].
  - intros s [Hok _]. by apply All_spec.
Qed.

(** ** Durability *)

(** A mutation, its effect on the store and on the map. *)
Inductive mutation := MPut (key value : bytes) | MDelete (key : bytes).

Definition exec (s : MemStore) (e : store_env) (o : mutation) : MemStore * result store_error unit :=
  match o with MPut k v => Put s e k v | MDelete k => Delete s e k end.

Definition sem (o : mutation) (m : gmap bytes bytes) : gmap bytes bytes :=
  match o with MPut k v => <[k:=v]> m | MDelete k => delete k m end.

Definition to_record (o : mutation) : WalRecord :=
  match o with MPut k v => MkWalRecord OpPut k v | MDelete k => MkWalRecord OpDelete k [] end.

(** What a log's records amount to. *)
Definition record_sem (m : gmap bytes bytes) (r : WalRecord) : gmap bytes bytes :=
  if bool_decide (rec_Type r = OpPut) then <[rec_Key r:=rec_Value r]> m else delete (rec_Key r) m.
Definition history (rs : list WalRecord) : gmap bytes bytes := fold_left record_sem rs ∅.

Lemma history_snoc rs o : history (rs ++ [to_record o]) = sem o (history rs).
Proof. unfold history. rewrite fold_left_app. by destruct o. Qed.

(** Replaying records rebuilds their map. *)
Lemma recover_records rs mt flips :
  Forall valid_record rs -> mt_ok mt ->
  exists mt' flips', apply_all recover_record (mt, flips) rs = Some (mt', flips') /\
    mt_ok mt' /\ live mt' = fold_left record_sem rs (live mt).
Proof.
  intros Hrs. revert mt flips. induction Hrs as [|r rs Hr _ IH]; intros mt flips Hok.
  { by exists mt, flips. }
  rewrite apply_all_cons. cbn [fold_left]. destruct Hr as (Ht & Hk & _).
  assert (rec_Key r <> []) as Hne by (intros E; rewrite E in Hk; zlen_lia).
  unfold known_op in Ht. unfold recover_record at 1, record_sem at 2.
  destruct (bool_decide (rec_Type r = OpPut)) eqn:E1; cbn in Ht.
  - destruct (Put_spec mt (default [] (head flips)) _ (rec_Value r) Hok Hne) as (mt' & -> & Hok' & <-).
    by apply IH.
  - rewrite Ht. destruct (Delete_spec mt (default [] (head flips)) _ Hok Hne) as (mt' & -> & Hok' & <-).
    by apply IH.
Qed.

(** A new store on what a crash left of a log. *)
Lemma NewMemStore_crash flips w rs o n extra :
  wal_inv w rs o n ->
  exists s j, NewMemStore flips (crash w extra) = Ok s /\
    (n <= j <= length (rs ++ option_list o))%nat /\ mt_ok (ms_mt s) /\
    wal_holds (ms_log s) (take j (rs ++ option_list o)) j /\
    ms_view s = history (take j (rs ++ option_list o)).
Proof.
  intros Hw. pose proof Hw as (Hrs & _).
  assert (forall j, exists mt fl,
    apply_all recover_record (New, flips) (take j (rs ++ option_list o)) = Some (mt, fl) /\
    mt_ok mt /\ live mt = history (take j (rs ++ option_list o))) as Hrec.
  { intros j. apply (recover_records _ New flips); [by apply Forall_take|apply New_ok]. }
  destruct (Replay_after_crash recover_record w rs o n extra (New, flips) Hw) as (j & st & Hj & Hst & E).
  { intros j. destruct (Hrec j) as (mt & fl & E & _). eauto. }
  destruct (Hrec j) as (mt & fl & E' & Hok & Hl). rewrite E' in Hst. injection Hst as <-.
  exists (MkMemStore mt {| w_data := frames (take j (rs ++ option_list o));
    w_pos := length (frames (take j (rs ++ option_list o)));
    w_synced := length (frames (take j (rs ++ option_list o))) |}), j.
  unfold NewMemStore. rewrite E. split; [done|]. split; [done|]. split; [done|]. split; [|done].
  unfold wal_holds. simpl. rewrite length_take, take_take, Nat.min_id.
  split_and!; try done; try lia. by apply Forall_take.
Qed.

Lemma exec_memory s e o s' r :
  mt_ok (ms_mt s) -> exec s e o = (s', r) ->
  mt_ok (ms_mt s') /\ ms_view s' = match r with Ok _ => sem o (ms_view s) | Err _ => ms_view s end.
Proof. intros Hok. destruct o; [by apply Put_memory|by apply Delete_memory]. Qed.

(** What a mutation does to the log: nothing, an append that fails part
    way, an append with a failed sync, or an append and a sync. *)
Lemma exec_log s e o s' r :
  mt_ok (ms_mt s) -> exec s e o = (s', r) ->
  match r with
  | Ok _ => exists w, Append (ms_log s) None (to_record o) = (w, Ok tt) /\
      Sync w false = (ms_log s', Ok tt)
  | Err (StoreErrSync _) => Append (ms_log s) None (to_record o) = (ms_log s', Ok tt)
  | Err _ => ms_log s' = ms_log s \/
      exists k, Append (ms_log s) (Some k) (to_record o) = (ms_log s', Err ErrIO)
  end.
Proof.
  intros Hok. destruct o as [key value|key]; cbn [exec to_record]; unfold Put, Delete;
    (destruct (zlen key =? 0) eqn:Ek; [intros [= <- <-]; by left|]); unfold Append;
    (destruct (encodeRecord _) as [b|err] eqn:Eb; [|intros [= <- <-]; by left]);
    (destruct (env_append e) as [k|]; [intros [= <- <-]; right; by exists k|]);
    (destruct (env_sync e); cbn; [by intros [= <- <-]|]).
  - destruct (Put_spec (ms_mt s) (env_coins e) key value Hok (key_nonempty _ Ek)) as (mt' & -> & _ & _).
    intros [= <- <-]. eauto.
  - destruct (Delete_spec (ms_mt s) (env_coins e) key Hok (key_nonempty _ Ek)) as (mt' & -> & _ & _).
    intros [= <- <-]. eauto.
Qed.

(** A mutation a client made, with whether it was acknowledged, and the
    content after some of them: as promised, and as written to the log. *)
Notation attempt := (mutation * bool)%type.
Definition promised (m : gmap bytes bytes) (hs : list attempt) : gmap bytes bytes :=
  fold_left (fun m (h : attempt) => if h.2 then sem h.1 m else m) hs m.
Definition written (m : gmap bytes bytes) (os : list mutation) : gmap bytes bytes :=
  fold_left (fun m o => sem o m) os m.

(** With every attempt acknowledged, what was written is what was promised. *)
Lemma written_promised m hs : Forall (fun h : attempt => h.2 = true) hs -> written m hs.*1 = promised m hs.
Proof.
  intros H. revert m. induction H as [|[o b] hs Hb _ IH]; intros m; [done|].
  simpl in Hb. subst b. apply (IH (sem o m)).
Qed.

Lemma written_all_acked m hs o j :
  Forall (fun h : attempt => h.2 = true) hs ->
  (forall i o', hs !! i = Some (o', true) -> (i < j)%nat) ->
  written m (take j (hs.*1 ++ [o])) = promised m hs \/
  written m (take j (hs.*1 ++ [o])) = sem o (promised m hs).
Proof.
  intros Hall Ha. assert (length hs <= j)%nat as Hj.
  { destruct (last hs) as [[o' b]|] eqn:El; [|apply last_None in El; subst; simpl; lia].
    rewrite last_lookup in El. pose proof (Forall_lookup_1 _ _ _ _ Hall El) as Hb. simpl in Hb. subst b.
    apply Ha in El. lia. }
  rewrite take_app_ge, length_fmap by (by rewrite length_fmap).
  rewrite <- (written_promised m hs Hall). unfold written. rewrite fold_left_app.
  match goal with |- context [take ?n [o]] => destruct n end; [left|right]; simpl; by rewrite ?take_nil.
Qed.

(** The life of a store: opened on an empty directory, then mutations that
    are acknowledged, that are refused with the log as it was, or whose
    record was written but whose sync failed, after which the store goes
    on; and crashes at any point of a mutation, followed by a restart. The
    map is the content the last opening found, the list the mutations made
    since. A store that goes on after an append that failed part way is not
    a life: the code lets it, and [Wal.Append_after_partial_write_corrupts]
    is what becomes of its log. *)
Inductive life : MemStore -> gmap bytes bytes -> list attempt -> Prop :=
| life_open flips s :
    NewMemStore flips [] = Ok s -> life s ∅ []
| life_ack s m hs e o s' :
    life s m hs -> exec s e o = (s', Ok tt) -> life s' m (hs ++ [(o, true)])
| life_refused s m hs e o s' err :
    life s m hs -> exec s e o = (s', Err err) -> ms_log s' = ms_log s -> life s' m hs
| life_unsynced s m hs e o s' err :
    life s m hs -> exec s e o = (s', Err (StoreErrSync err)) -> life s' m (hs ++ [(o, false)])
| life_crash s m hs e o s' r extra flips s2 :
    life s m hs -> exec s e o = (s', r) ->
    NewMemStore flips (crash (ms_log s') extra) = Ok s2 -> life s2 (ms_view s2) [].

(** The store and its log agree: the log holds the records [rs] found at
    the last opening and those of [hs], the acknowledged ones are among
    the [n] synced ones, and the MemTable holds what was promised. *)
Record durable (s : MemStore) (rs : list WalRecord) (m : gmap bytes bytes) (hs : list attempt)
    (n : nat) : Prop := {
  d_ok : mt_ok (ms_mt s);
  d_log : wal_holds (ms_log s) (rs ++ (to_record <$> hs.*1)) n;
  d_base : (length rs <= n)%nat;
  d_acked : forall i o, hs !! i = Some (o, true) -> (length rs + i < n)%nat;
  d_found : m = history rs;
  d_view : ms_view s = promised m hs }.

Lemma history_written rs os : history (rs ++ (to_record <$> os)) = written (history rs) os.
Proof.
  induction os as [|o os IH] using rev_ind; simpl; [by rewrite app_nil_r|].
  rewrite fmap_app, app_assoc. simpl. rewrite history_snoc, IH. unfold written. by rewrite fold_left_app.
Qed.

Lemma promised_snoc m hs o b :
  promised m (hs ++ [(o, b)]) = if b then sem o (promised m hs) else promised m hs.
Proof. unfold promised. by rewrite fold_left_app. Qed.

Lemma durable_records rs hs o (b : bool) :
  rs ++ (to_record <$> (hs ++ [(o, b)]).*1) = (rs ++ (to_record <$> hs.*1)) ++ [to_record o].
Proof. by rewrite !fmap_app, app_assoc. Qed.

(** A mutation that the store goes on from, acknowledged or not. *)
Lemma exec_durable s rs m hs n e o s' r :
  durable s rs m hs n -> exec s e o = (s', r) ->
  match r with
  | Ok _ => durable s' rs m (hs ++ [(o, true)]) (length rs + length hs + 1)
  | Err (StoreErrSync _) => durable s' rs m (hs ++ [(o, false)]) n
  | Err _ => ms_log s' = ms_log s -> durable s' rs m hs n
  end.
Proof.
  intros [Hok Hw Hb Ha Hm Hv] He. destruct (exec_memory _ _ _ _ _ Hok He) as [Hok' Hv'].
  pose proof (exec_log _ _ _ _ _ Hok He) as Hl. pose proof Hw as (_ & Hn & _).
  rewrite length_app, !length_fmap in Hn.
  assert (forall w, Append (ms_log s) None (to_record o) = (w, Ok tt) ->
    wal_holds w ((rs ++ (to_record <$> hs.*1)) ++ [to_record o]) n) as Happ.
  { intros w Ew. pose proof (Append_ok_valid _ _ _ Ew) as Hr.
    destruct (Append_holds _ _ _ _ Hw Hr) as (w' & Ew' & H). rewrite Ew in Ew'. by injection Ew' as <-. }
  destruct r as [[]|[]]; try (intros E; constructor; by rewrite ?E, ?Hv').
  - destruct Hl as (w & Ew & Es). destruct (Sync_holds _ _ _ (Happ w Ew)) as (w' & Es' & Hw').
    rewrite Es in Es'. injection Es' as <-. rewrite !length_app, !length_fmap in Hw'. simpl in Hw'.
    constructor; [done| |lia| |done|rewrite promised_snoc; by rewrite Hv', Hv].
    + by rewrite durable_records.
    + intros i o' Hi%lookup_lt_Some. rewrite length_app in Hi. simpl in Hi. lia.
  - constructor; [done| |lia| |done|rewrite promised_snoc; by rewrite Hv', Hv].
    + rewrite durable_records. by apply Happ.
    + intros i o' [[_ Hi]|[_ Hi]]%lookup_snoc_Some; [by eapply Ha|done].
Qed.

(** Whatever becomes of a mutation, the log is then a file of the old
    records, followed by the new one or part of it, with the old synced
    ones, and the new one if it was acknowledged, on stable storage. *)
Lemma exec_wal s rs m hs n e o s' r :
  durable s rs m hs n -> exec s e o = (s', r) ->
  exists os n' ra oa, (os = [] \/ os = [o]) /\ (n <= n')%nat /\
    (r = Ok tt -> n' = (length rs + length hs + 1)%nat) /\
    ra ++ option_list oa = rs ++ (to_record <$> (hs.*1 ++ os)) /\ wal_inv (ms_log s') ra oa n'.
Proof.
  intros Hd He. pose proof Hd as [Hok Hw Hb Ha Hm Hv].
  pose proof (exec_log _ _ _ _ _ Hok He) as Hl. pose proof (exec_durable _ _ _ _ _ _ _ _ _ Hd He) as Hd'.
  assert (forall n' b, durable s' rs m (hs ++ [(o, b)]) n' ->
    (rs ++ (to_record <$> (hs ++ [(o, b)]).*1)) ++ option_list None = rs ++ (to_record <$> (hs.*1 ++ [o])) /\
    wal_inv (ms_log s') (rs ++ (to_record <$> (hs ++ [(o, b)]).*1)) None n') as Hgrown.
  { intros n' b [_ Hw' _ _ _ _]. split; [by rewrite app_nil_r, fmap_app|by apply wal_holds_inv]. }
  assert (n <= length rs + length hs)%nat as Hn.
  { destruct Hw as (_ & Hn & _). by rewrite length_app, !length_fmap in Hn. }
  assert ((exists err, r = Err (StoreErrSync err)) \/ r = Ok tt \/
    (ms_log s' = ms_log s \/ exists k, Append (ms_log s) (Some k) (to_record o) = (ms_log s', Err ErrIO)) /\
     r <> Ok tt) as [[err ->]|[->|[Hlog Hr]]] by (destruct r as [[]|[]]; eauto).
  - exists [o], n. do 2 eexists. split; [by right|]. split; [done|]. split; [done|]. by apply Hgrown.
  - eexists [o], _, _, _. split; [by right|]. split; [|split; [done|by apply Hgrown]]. lia.
  - destruct Hlog as [Hlog|[k Hlog]].
    + exists [], n, (rs ++ (to_record <$> hs.*1)), None. split_and!; [by left|done|done|by rewrite !app_nil_r|].
      apply wal_holds_inv. by rewrite Hlog.
    + exists [o], n, (rs ++ (to_record <$> hs.*1)), (Some (to_record o)).
      split_and!; [by right|done|done|by rewrite fmap_app, app_assoc|].
      eapply Append_partial_inv; [by apply wal_holds_inv|done].
Qed.

(** A crash at any point of a mutation, then a restart. *)
Lemma crash_restart s rs m hs n e o s' r extra flips :
  durable s rs m hs n -> exec s e o = (s', r) ->
  exists s2 j rs2, NewMemStore flips (crash (ms_log s') extra) = Ok s2 /\
    durable s2 rs2 (ms_view s2) [] (length rs2) /\ (j <= length hs + 1)%nat /\
    ms_view s2 = written m (take j (hs.*1 ++ [o])) /\
    (forall i o', hs !! i = Some (o', true) -> (i < j)%nat) /\
    (r = Ok tt -> j = (length hs + 1)%nat).
Proof.
  intros Hd He. pose proof Hd as [_ _ Hb Ha Hm _].
  destruct (exec_wal _ _ _ _ _ _ _ _ _ Hd He) as (os & n' & ra & oa & Hos & Hn' & Hr & Era & Hinv).
  destruct (NewMemStore_crash flips _ _ _ _ extra Hinv) as (s2 & j & E & Hj & Hok2 & Hw2 & Hv2).
  rewrite Era in Hj, Hw2, Hv2. rewrite length_app, length_fmap, length_app, length_fmap in Hj.
  assert (length os <= 1)%nat as Hos1 by (destruct Hos as [->| ->]; simpl; lia).
  rewrite take_app_ge in Hv2, Hw2 by lia. rewrite <- fmap_take in Hv2, Hw2.
  exists s2, (j - length rs)%nat, (rs ++ (to_record <$> take (j - length rs) (hs.*1 ++ os))).
  split; [done|]. split_and!; [|lia| | |].
  - constructor; simpl; try done.
    rewrite app_nil_r. rewrite length_app, length_fmap, length_take, length_app, length_fmap.
    by replace (_ + _)%nat with j by lia.
  - rewrite Hv2, history_written, Hm. f_equal.
    destruct Hos as [->| ->]; [|done]. simpl in Hj. rewrite app_nil_r, take_app_le by (rewrite length_fmap; lia). done.
  - intros i o' Hi. apply Ha in Hi. lia.
  - intros Hrr. specialize (Hr Hrr). lia.
Qed.

Lemma life_durable s m hs : life s m hs -> exists rs n, durable s rs m hs n.
Proof.
  induction 1 as [flips s E|s m hs e o s' _ (rs & n & Hd) He|s m hs e o s' err _ (rs & n & Hd) He Hl
    |s m hs e o s' err _ (rs & n & Hd) He|s m hs e o s' r extra flips s2 _ (rs & n & Hd) He Ho].
  - destruct (NewMemStore_crash flips (wal_open []) [] None 0 0) as (s' & j & E' & Hj & Hok & Hw & Hv).
    { apply wal_life_inv, wl_open. }
    change (crash (wal_open []) 0) with (@nil byte) in E'. rewrite E in E'. injection E' as <-.
    exists [], 0%nat. simpl in Hj, Hw, Hv. rewrite take_nil in Hw, Hv.
    assert (j = 0)%nat as -> by lia. by constructor.
  - do 2 eexists. exact (exec_durable _ _ _ _ _ _ _ _ _ Hd He).
  - pose proof (exec_durable _ _ _ _ _ _ _ _ _ Hd He) as H. exists rs, n.
    destruct err; try by apply H.
    pose proof (exec_log _ _ _ _ _ (d_ok _ _ _ _ _ Hd) He) as Hlog. simpl in Hlog.
    rewrite Hl in Hlog. by destruct (Append_ok_grows _ _ _ _ (d_log _ _ _ _ _ Hd) Hlog).
  - exists rs, n. apply (exec_durable _ _ _ _ _ _ _ _ _ Hd He).
  - destruct (crash_restart _ _ _ _ _ _ _ _ _ extra flips Hd He) as (s3 & j & rs2 & E & Hd3 & _).
    rewrite Ho in E. injection E as <-. eauto.
Qed.

(** C13. The store refines a map: over any life of a store, reads return the
    promised content (the acknowledged mutations, in order, on top of what
    the last opening found), listed in key order by [Snapshot], with the
    counters of [Stats] exact. Mutations may fail: one that is refused
    leaves no trace, and one whose sync fails is not visible until a
    restart. A store that goes on after an append that failed part way is
    outside ([Append_after_partial_write_corrupts]). *)
Theorem MemStore_refines_map s m hs :
  life s m hs ->
  (forall k, k <> [] -> Get s k = match promised m hs !! k with Some v => Ok v
                                                  | None => Err StoreErrKeyNotFound end) /\
  StronglySorted blt (Snapshot s).*1 /\ list_to_map (Snapshot s) = promised m hs /\
  Stats s = (Z.of_nat (size (promised m hs)), size_of (promised m hs)).
Proof.
  intros (rs & n & [Hok _ _ _ _ Hv])%life_durable. rewrite <- Hv. split_and!.
  - intros k Hk. unfold Get. rewrite zlen_nonzero by done. by rewrite (Get_spec _ _ Hok).
  - by apply All_spec.
  - by apply All_spec.
  - unfold Stats, Len, Bytes. by rewrite (ok_count _ Hok), (ok_bytes _ Hok).
Qed.

(** C33. Durability: over any life of a store, crash the machine at any
    point of any mutation, with any disk fault, and keep any part of the
    unsynced bytes. The restart succeeds, and the content is what the last
    opening found with a prefix of the mutations since applied (those whose
    record was written: the acknowledged ones, those whose sync failed, and
    last the interrupted one). The prefix contains every acknowledged
    mutation, and the interrupted one if it was acknowledged; so when none
    failed before, the content is exactly the promised one, with the
    interrupted mutation entirely or not at all. Outside: a store that goes
    on mutating after an append that failed part way
    ([Append_after_partial_write_corrupts] shows its log unreadable). *)
Theorem MemStore_crash_safety s m hs e o s' r extra flips :
  life s m hs -> exec s e o = (s', r) ->
  exists s2 j, NewMemStore flips (crash (ms_log s') extra) = Ok s2 /\
    (j <= length hs + 1)%nat /\ ms_view s2 = written m (take j (hs.*1 ++ [o])) /\
    (forall i o', hs !! i = Some (o', true) -> (i < j)%nat) /\
    (r = Ok tt -> j = (length hs + 1)%nat) /\
    (Forall (fun h : attempt => h.2 = true) hs ->
     ms_view s2 = promised m hs \/ ms_view s2 = sem o (promised m hs)).
Proof.
  intros (rs & n & Hd)%life_durable He.
  destruct (crash_restart _ _ _ _ _ _ _ _ _ extra flips Hd He) as (s2 & j & rs2 & E & _ & Hj & Hv & Ha & Hr).
  exists s2, j. do 5 (split; [done|]). intros Hall. rewrite Hv. by apply written_all_acked.
Qed.

Definition sample_env : store_env := MkStoreEnv [true; false] None false.
Definition sample_store : MemStore :=
  MkMemStore New {| w_data := []; w_pos := 0; w_synced := 0 |}.

Lemma sample_open : NewMemStore [] [] = Ok sample_store.
Proof. vm_compute. reflexivity. Qed.

Lemma sample_store_inv : store_inv sample_store.
Proof. split; [apply New_ok|]. intros k v Hk. change ((∅ : gmap bytes bytes) !! k = Some v) in Hk. by rewrite lookup_empty in Hk. Qed.

Example MemStore_refines_map_witness :
  let s' := (exec sample_store sample_env (MPut [x61] [x31])).1 in
  Get s' [x61] = Ok [x31] /\ list_to_map (Snapshot s') = (<[[x61]:=[x31]]> ∅ : gmap bytes bytes).
Proof.
  destruct (MemStore_refines_map (exec sample_store sample_env (MPut [x61] [x31])).1
              ∅ [(MPut [x61] [x31], true)]) as (Hg & _ & Hs & _).
  - apply (life_ack sample_store ∅ [] sample_env); [eapply life_open, sample_open|]. vm_compute. reflexivity.
  - split; [|exact Hs]. rewrite Hg by done. reflexivity.
Defined.

(** A put whose sync failed, then one that is cut off after nine bytes. *)
Definition unsynced_store : MemStore :=
  (exec sample_store (MkStoreEnv [] None true) (MPut [x62] [x32])).1.

Example MemStore_crash_safety_witness :
  exists s2 j, NewMemStore [] (crash (ms_log
      (exec unsynced_store (MkStoreEnv [] (Some 9%nat) false) (MPut [x61] [x31])).1) 7) = Ok s2 /\
    (j <= 2)%nat /\ ms_view s2 = written ∅ (take j [MPut [x62] [x32]; MPut [x61] [x31]]).
Proof.
  destruct (MemStore_crash_safety unsynced_store ∅ [(MPut [x62] [x32], false)]
    (MkStoreEnv [] (Some 9%nat) false) (MPut [x61] [x31])
    (exec unsynced_store (MkStoreEnv [] (Some 9%nat) false) (MPut [x61] [x31])).1
    (Err (StoreErrAppend ErrIO)) 7 []) as (s2 & j & E & Hj & Hv & _).
  - apply (life_unsynced sample_store ∅ [] (MkStoreEnv [] None true) _ _ ErrIO);
      [eapply life_open, sample_open|]. vm_compute. reflexivity.
  - vm_compute. reflexivity.
  - exists s2, j. split; [exact E|]. split; [exact Hj|exact Hv].
Defined.
