(* ===== verification/Codec.v ===== *)
(** * Reading and writing ForgeDB's binary formats

    Every decoder of the source walks a byte slice with an offset: it checks
    how much is left, reads a fixed-width integer or a length-prefixed field
    and moves on. A [parser] is such a decoder over the bytes that are left.
    It ends in [Done], in [Fail] (the decoder returned its error) or in
    [Panic] (an index or slice expression was out of range), so that "no
    input makes the decoder panic" is a theorem and not an assumption. *)

From S2P Require Import Prelude Bytes.
From stdpp Require Import base tactics list numbers.
From Stdlib Require Import Strings.Byte.
From Stdlib Require Import ZArith Lia.
#[local] Open Scope Z_scope.

Inductive outcome (A : Type) : Type := Done (a : A) | Fail | Panic.
Arguments Done {A} a.
Arguments Fail {A}.
Arguments Panic {A}.

Definition parser (A : Type) : Type := bytes -> outcome (A * bytes).

#[export] Instance parser_ret : MRet parser := fun A a l => Done (a, l).
#[export] Instance parser_bind : MBind parser := fun A B f p l =>
  match p l with
  | Done (a, l') => f a l'
  | Fail => Fail
  | Panic => Panic
  end.

(** [len(data)-off < n] guards an error return. *)
Definition p_need (n : nat) : parser unit := fun l =>
  if bool_decide (n <= length l)%nat then Done (tt, l) else Fail.
(** A condition on what has been read guards an error return. *)
Definition p_guard (b : bool) : parser unit := fun l => if b then Done (tt, l) else Fail.
(** Strict end of input. *)
Definition p_eof : parser unit := fun l => if bool_decide (l = []) then Done (tt, l) else Fail.

(** Reads that are not guarded: out of range, they panic. *)
Definition p_bytes (n : nat) : parser bytes := fun l =>
  if bool_decide (n <= length l)%nat then Done (take n l, drop n l) else Panic.
Definition p_int (n : nat) : parser Z := p_bytes n ≫= fun b => mret (le_get b).
Abbreviation p_u32 := (p_int 4).
Abbreviation p_u64 := (p_int 8).
Definition p_u8 : parser byte := fun l =>
  match l with b :: l => Done (b, l) | [] => Panic end.

(** [n] elements in a row. *)
Fixpoint p_repeat {A} (n : nat) (p : parser A) : parser (list A) :=
  match n with
  | O => mret []
  | S n => x ← p; xs ← p_repeat n p; mret (x :: xs)
  end.

(** ** Round trips: [p] reads [b] as [a], whatever follows *)

Definition encodes {A} (p : parser A) (a : A) (b : bytes) : Prop :=
  forall rest, p (b ++ rest) = Done (a, rest).

Lemma encodes_ret {A} (a : A) : encodes (mret a) a [].
Proof. intros rest. reflexivity. Qed.

Lemma encodes_bind {A B} (p : parser A) (f : A -> parser B) a c b1 b2 :
  encodes p a b1 -> encodes (f a) c b2 -> encodes (p ≫= f) c (b1 ++ b2).
Proof.
  intros H1 H2 rest. unfold mbind, parser_bind. rewrite <- app_assoc, H1. apply H2.
Qed.

(** The last read of a decoder. *)
Lemma encodes_last {A B} (p : parser A) (f : A -> B) a b :
  encodes p a b -> encodes (x ← p; mret (f x)) (f a) b.
Proof.
  intros H rest. unfold mbind, parser_bind. rewrite H. reflexivity.
Qed.

Lemma encodes_guard {B} (b : bool) (f : unit -> parser B) c bs :
  b = true -> encodes (f tt) c bs -> encodes (p_guard b ≫= f) c bs.
Proof. intros -> H rest. apply H. Qed.

Lemma encodes_need {B} n (f : unit -> parser B) c bs :
  (n <= length bs)%nat -> encodes (f tt) c bs -> encodes (p_need n ≫= f) c bs.
Proof.
  intros Hn H rest. unfold mbind, parser_bind, p_need.
  rewrite bool_decide_eq_true_2 by (rewrite length_app; lia). apply H.
Qed.

Lemma encodes_bytes n b : length b = n -> encodes (p_bytes n) b b.
Proof.
  intros <- rest. unfold p_bytes.
  rewrite bool_decide_eq_true_2 by (rewrite length_app; lia).
  by rewrite take_app_length, drop_app_length.
Qed.

Lemma encodes_int n z : 0 <= z < 256 ^ Z.of_nat n -> encodes (p_int n) z (le_put n z).
Proof.
  intros Hz rest. unfold p_int, mbind, parser_bind.
  rewrite (encodes_bytes n (le_put n z) (le_put_length n z) rest).
  unfold mret, parser_ret. by rewrite le_get_put, Z.mod_small.
Qed.

Lemma encodes_u32 z : is_u32 z -> encodes p_u32 z (put_u32 z).
Proof. intros H. apply encodes_int. exact H. Qed.

Lemma encodes_u64 z : is_u64 z -> encodes p_u64 z (put_u64 z).
Proof. intros H. apply encodes_int. exact H. Qed.

Lemma encodes_u8 b : encodes p_u8 b [b].
Proof. intros rest. reflexivity. Qed.

Lemma encodes_repeat {A} (p : parser A) (enc : A -> bytes) xs :
  Forall (fun x => encodes p x (enc x)) xs ->
  encodes (p_repeat (length xs) p) xs (concat (enc <$> xs)).
Proof.
  induction 1 as [|x xs Hx _ IH]; [apply encodes_ret|]. cbn [p_repeat length fmap list_fmap concat].
  eapply encodes_bind; [exact Hx|]. rewrite <- (app_nil_r (concat _)).
  eapply encodes_bind; [exact IH|]. apply encodes_ret.
Qed.

(** ** Accepted inputs: what a successful read says about the input *)

Lemma bind_Done {A B} (p : parser A) (f : A -> parser B) l c :
  (p ≫= f) l = Done c -> exists a l', p l = Done (a, l') /\ f a l' = Done c.
Proof.
  unfold mbind, parser_bind. destruct (p l) as [[a l']| |] eqn:E; try done. eauto.
Qed.

Lemma p_guard_Done b l r : p_guard b l = Done r -> b = true /\ r = (tt, l).
Proof. unfold p_guard. destruct b; naive_solver. Qed.

Lemma p_need_Done n l r : p_need n l = Done r -> (n <= length l)%nat /\ r = (tt, l).
Proof. unfold p_need. case_bool_decide; naive_solver. Qed.

Lemma p_eof_Done l r : p_eof l = Done r -> l = [] /\ r = (tt, []).
Proof. unfold p_eof. case_bool_decide; naive_solver. Qed.

Lemma p_bytes_Done n l b r :
  p_bytes n l = Done (b, r) -> l = b ++ r /\ length b = n.
Proof.
  unfold p_bytes. case_bool_decide; intros H1; simplify_eq. rewrite take_drop, length_take. split; [done|lia].
Qed.

Lemma p_int_Done n l z r :
  p_int n l = Done (z, r) -> l = le_put n z ++ r /\ 0 <= z < 256 ^ Z.of_nat n.
Proof.
  intros (b & l' & Hb & Hr)%bind_Done. unfold mret, parser_ret in Hr. simplify_eq.
  apply p_bytes_Done in Hb as [-> Hlen].
  pose proof (le_get_range b) as Hz. unfold zlen in Hz. rewrite Hlen in Hz. split; [|done].
  f_equal. apply le_get_inj; [by rewrite le_put_length|].
  by rewrite le_get_put, Z.mod_small.
Qed.

Lemma p_u8_Done l b r : p_u8 l = Done (b, r) -> l = b :: r.
Proof. destruct l; naive_solver. Qed.

(** [parse_inv H] turns [H : p l = Done c] into what was read. *)
Ltac parse_inv H :=
  lazymatch type of H with
  | (p_guard _) _ = Done _ => apply p_guard_Done in H as [? H]; simplify_eq
  | (p_need _) _ = Done _ => apply p_need_Done in H as [? H]; simplify_eq
  | p_eof _ = Done _ => apply p_eof_Done in H as [? H]; simplify_eq
  | (p_bytes _) _ = Done _ => apply p_bytes_Done in H as [? ?]
  | (p_int _) _ = Done _ => apply p_int_Done in H as [? ?]
  | p_u8 _ = Done _ => apply p_u8_Done in H
  | (mret _) _ = Done _ => unfold mret, parser_ret in H; simplify_eq
  | (_ ≫= _) _ = Done _ =>
      let a := fresh "a" in let l := fresh "l" in let H1 := fresh "H" in
      apply bind_Done in H as (a & l & H1 & H); parse_inv H1; parse_inv H
  | _ => idtac
  end.

(** ** No panic: with [k] bytes left, [p] stays in range *)

Definition safe {A} (k : nat) (p : parser A) : Prop :=
  forall l, (k <= length l)%nat -> p l <> Panic.

Lemma safe_ret {A} k (a : A) : safe k (mret a).
Proof. done. Qed.

Lemma safe_bind {A B} k (p : parser A) (f : A -> parser B) :
  safe k p -> (forall a, safe 0 (f a)) -> safe k (p ≫= f).
Proof.
  intros Hp Hf l Hl. unfold mbind, parser_bind. specialize (Hp l Hl).
  destruct (p l) as [[a l']| |]; [|done..]. apply Hf. lia.
Qed.

Lemma safe_guard {B} k b (f : unit -> parser B) :
  (b = true -> safe k (f tt)) -> safe k (p_guard b ≫= f).
Proof. intros Hf l Hl. unfold mbind, parser_bind, p_guard. destruct b; [|done]. by apply Hf. Qed.

Lemma safe_need {B} k n (f : unit -> parser B) : safe n (f tt) -> safe k (p_need n ≫= f).
Proof.
  intros Hf l Hl. unfold mbind, parser_bind, p_need. case_bool_decide; [|done]. by apply Hf.
Qed.

Lemma safe_bytes {B} k n (f : bytes -> parser B) :
  (n <= k)%nat -> (forall b, safe (k - n) (f b)) -> safe k (p_bytes n ≫= f).
Proof.
  intros Hn Hf l Hl. unfold mbind, parser_bind, p_bytes. case_bool_decide; [|lia].
  apply Hf. rewrite length_drop. lia.
Qed.

Lemma safe_int {B} k n (f : Z -> parser B) :
  (n <= k)%nat -> (forall z, 0 <= z < 256 ^ Z.of_nat n -> safe (k - n) (f z)) -> safe k (p_int n ≫= f).
Proof.
  intros Hn Hf l Hl. unfold p_int, mbind, parser_bind, p_bytes, mret, parser_ret. case_bool_decide; [|lia].
  apply Hf; [|rewrite length_drop; lia].
  pose proof (le_get_range (take n l)) as Hr. unfold zlen in Hr.
  rewrite length_take, Nat.min_l in Hr by lia. exact Hr.
Qed.

Lemma safe_u8 {B} k (f : byte -> parser B) :
  (1 <= k)%nat -> (forall b, safe (k - 1) (f b)) -> safe k (p_u8 ≫= f).
Proof.
  intros Hk Hf [|b l] Hl; simpl in Hl; [lia|]. apply Hf. lia.
Qed.

Lemma safe_bytes_end k n : (n <= k)%nat -> safe k (p_bytes n).
Proof. intros Hn l Hl. unfold p_bytes. case_bool_decide; [done|lia]. Qed.

Lemma safe_eof k : safe k p_eof.
Proof. intros l _. unfold p_eof. by case_bool_decide. Qed.

Lemma safe_weaken {A} k (p : parser A) : safe 0 p -> safe k p.
Proof. intros H l _. apply H. lia. Qed.

Lemma safe_repeat {A} n (p : parser A) : safe 0 p -> safe 0 (p_repeat n p).
Proof.
  intros Hp. induction n as [|n IH]; [apply safe_ret|].
  apply safe_bind; [done|]. intros a. apply safe_bind; [done|]. intros; apply safe_ret.
Qed.

#[global] Arguments p_need : simpl never.
#[global] Arguments p_guard : simpl never.
#[global] Arguments p_eof : simpl never.
#[global] Arguments p_bytes : simpl never.
#[global] Arguments p_int : simpl never.
#[global] Arguments p_u8 : simpl never.

(** ** Length-prefixed fields *)

(** The shape shared by the snapshot decoders: a length that must be present
    and at most [maxLen], then that many bytes. *)
Definition p_field (maxLen : Z) : parser bytes :=
  _ ← p_need 4; n ← p_u32;
  _ ← p_guard (n <=? maxLen); _ ← p_need (Z.to_nat n); p_bytes (Z.to_nat n).

Definition put_field (b : bytes) : bytes := put_u32 (zlen b) ++ b.

Lemma put_field_length b : length (put_field b) = (4 + length b)%nat.
Proof. unfold put_field. by rewrite length_app, le_put_length. Qed.

Lemma encodes_field maxLen b :
  maxLen < 2 ^ 32 -> zlen b <= maxLen -> encodes (p_field maxLen) b (put_field b).
Proof.
  intros Hm Hb. pose proof (zlen_nonneg b).
  apply encodes_need; [rewrite put_field_length; lia|].
  eapply encodes_bind; [apply encodes_u32; unfold is_u32; lia|].
  apply encodes_guard; [lia|]. rewrite to_nat_zlen. apply encodes_need; [done|]. by apply encodes_bytes.
Qed.

Lemma safe_field maxLen : safe 0 (p_field maxLen).
Proof.
  apply safe_need, safe_int; [lia|]. intros z _. apply safe_guard. intros _. apply safe_need.
  by apply safe_bytes_end.
Qed.

(** ** Whole inputs: nothing may follow what [p] reads *)

Definition p_all {A} (p : parser A) (l : bytes) : outcome A :=
  match (a ← p; _ ← p_eof; mret a) l with
  | Done (a, _) => Done a
  | Fail => Fail
  | Panic => Panic
  end.

Lemma p_all_encodes {A} (p : parser A) a b : encodes p a b -> p_all p b = Done a.
Proof.
  intros H. unfold p_all, mbind, parser_bind. rewrite <- (app_nil_r b), H. reflexivity.
Qed.

Lemma p_all_Done {A} (p : parser A) l a : p_all p l = Done a -> p l = Done (a, []).
Proof.
  unfold p_all. destruct ((a ← p; _ ← p_eof; mret a) l) as [[a' l']| |] eqn:E; intros [= <-].
  apply bind_Done in E as (a1 & l1 & H1 & H2). parse_inv H2. exact H1.
Qed.

Lemma p_all_safe {A} k (p : parser A) l : safe k p -> (k <= length l)%nat -> p_all p l <> Panic.
Proof.
  intros Hp Hl. unfold p_all.
  assert (safe k (a ← p; _ ← p_eof; mret a)) as Hs.
  { apply safe_bind; [done|]. intros a. apply safe_bind; [apply safe_eof|]. intros; apply safe_ret. }
  specialize (Hs l Hl). destruct ((a ← p; _ ← p_eof; mret a) l) as [[]| |]; done.
Qed.

(** ** Trailing checksums

    The snapshot, manifest and Raft-state formats end in the CRC-32C of
    everything before it. *)

Definition with_sum (body : bytes) : bytes := body ++ put_u32 (checksum body).
Definition sum_ok (data : bytes) : bool :=
  checksum (take (length data - 4) data) =? le_get (drop (length data - 4) data).

Lemma seal_length body : length (with_sum body) = (length body + 4)%nat.
Proof. unfold with_sum. by rewrite length_app, le_put_length. Qed.

Lemma take_seal body : take (length (with_sum body) - 4) (with_sum body) = body.
Proof. rewrite seal_length. unfold with_sum. apply take_app_length'. lia. Qed.

Lemma drop_seal body : drop (length (with_sum body) - 4) (with_sum body) = put_u32 (checksum body).
Proof. rewrite seal_length. unfold with_sum. apply drop_app_length'. lia. Qed.

Lemma sum_ok_seal body : sum_ok (with_sum body) = true.
Proof.
  unfold sum_ok. rewrite take_seal, drop_seal, le_get_put_u32 by apply checksum_range. apply Z.eqb_refl.
Qed.

(** Changing any one byte of a sealed string breaks the seal. *)
Lemma sum_ok_flip data i b b0 :
  (4 <= length data)%nat -> sum_ok data = true -> data !! i = Some b0 -> b <> b0 ->
  sum_ok (<[i:=b]> data) = false.
Proof.
  unfold sum_ok. intros Hlen Hs Hi Hb. apply Z.eqb_eq in Hs. apply Z.eqb_neq. rewrite length_insert.
  destruct (decide (i < length data - 4)%nat) as [Hlt|Hge].
  - rewrite drop_insert_lt, <- Hs by lia. rewrite take_insert_lt by lia.
    apply checksum_detects_insert with (b0 := b0); [|done]. by rewrite lookup_take_lt by lia.
  - rewrite take_insert_ge, drop_insert_ge, Hs by lia. intros E.
    apply le_get_inj in E; [|by rewrite length_insert].
    assert (drop (length data - 4) data !! (i - (length data - 4))%nat = Some b) as E2.
    { rewrite E. apply list_lookup_insert_eq. rewrite length_drop. apply lookup_lt_Some in Hi. lia. }
    rewrite lookup_drop in E2. replace (length data - 4 + (i - (length data - 4)))%nat with i in E2 by lia. congruence.
Qed.

Lemma slice_take {A} (l : list A) a c n : (c <= n)%nat -> slice a c (take n l) = slice a c l.
Proof.
  intros Hc. unfold slice. apply list_eq. intros i. destruct (decide (i < c - a)%nat).
  - rewrite !lookup_take_lt by done. rewrite !lookup_drop, lookup_take_lt by lia. done.
  - rewrite !lookup_take_ge by lia. done.
Qed.

(** A byte string with the preamble, cut behind it. *)
Lemma preamble_split (data magic : bytes) (version : Z) :
  (12 <= length data)%nat -> length magic = 8%nat -> slice 0 8 data = magic ->
  le_get (slice 8 12 data) = version -> data = magic ++ put_u32 version ++ drop 12 data.
Proof.
  intros Hl Hm H8 Hv.
  assert (slice 8 12 data = put_u32 version) as H12.
  { apply le_get_inj; [unfold slice; rewrite length_take, length_drop, le_put_length; lia|].
    rewrite <- Hv, le_get_put. symmetry. apply Z.mod_small.
    pose proof (le_get_range (slice 8 12 data)) as Hr. unfold zlen, slice in Hr.
    rewrite length_take, length_drop, Nat.min_l in Hr by lia. exact Hr. }
  rewrite <- H8, <- H12. unfold slice. rewrite <- (take_drop 8 data) at 1. f_equal.
  rewrite <- (take_drop 4 (drop 8 data)) at 1. f_equal. by rewrite drop_drop.
Qed.

Lemma sum_ok_split data : (4 <= length data)%nat -> sum_ok data = true ->
  data = with_sum (take (length data - 4) data).
Proof.
  intros Hl Hs. unfold sum_ok in Hs. apply Z.eqb_eq in Hs. unfold with_sum.
  rewrite <- (take_drop (length data - 4) data) at 1. f_equal.
  apply le_get_inj; [rewrite length_drop, le_put_length; lia|].
  by rewrite le_get_put_u32 by apply checksum_range.
Qed.
