(* ===== verification/Command.v ===== *)
(** * Client commands and their wire format

    internal/statemachine/command.go: the payload the state machine puts
    into a Raft log entry. *)

From S2P Require Import Prelude Bytes Codec.
From stdpp Require Import base tactics list numbers.
From Stdlib Require Import Strings.Byte.
From Stdlib Require Import ZArith Lia.
#[local] Open Scope Z_scope.

Definition OpPut : byte := x01.
Definition OpDelete : byte := x02.

Record Command := MkCommand {
  ClientID : bytes;
  RequestID : Z;
  Op : byte;
  Key : bytes;
  Value : bytes }.

#[export] Instance Command_eq_dec : EqDecision Command.
Proof. solve_decision. Defined.

Definition NewPutCommand (clientID : bytes) (requestID : Z) (key value : bytes) : Command :=
  MkCommand clientID requestID OpPut key value.
Definition NewDeleteCommand (clientID : bytes) (requestID : Z) (key : bytes) : Command :=
  MkCommand clientID requestID OpDelete key [].

Definition maxClientIDLen : Z := 4096.
Definition maxKeyLen : Z := 2 ^ 20.
Definition maxValueLen : Z := 2 ^ 20.
Definition commandHeaderLen : nat := 1 + 4 + 8 + 4 + 4.

Inductive command_error := ErrInvalidCommand.

Definition known_command_op (op : byte) : bool :=
  bool_decide (op = OpPut) || bool_decide (op = OpDelete).

Definition Encode (c : Command) : result command_error bytes :=
  if negb (known_command_op (Op c)) then Err ErrInvalidCommand
  else if zlen (ClientID c) >? maxClientIDLen then Err ErrInvalidCommand
  else if zlen (Key c) >? maxKeyLen then Err ErrInvalidCommand
  else if zlen (Value c) >? maxValueLen then Err ErrInvalidCommand
  else Ok ([Op c] ++ put_u32 (zlen (ClientID c)) ++ ClientID c ++ put_u64 (RequestID c)
           ++ put_u32 (zlen (Key c)) ++ Key c ++ put_u32 (zlen (Value c)) ++ Value c).

(** The body of [DecodeCommand] after the header-length check, up to the
    requirement that nothing follows the value. *)
Definition p_command : parser Command :=
  op ← p_u8;
  _ ← p_guard (known_command_op op);
  clientIDLen ← p_u32;
  _ ← p_guard (clientIDLen <=? maxClientIDLen);
  _ ← p_need (Z.to_nat clientIDLen + 8 + 4);
  clientID ← p_bytes (Z.to_nat clientIDLen);
  requestID ← p_u64;
  keyLen ← p_u32;
  _ ← p_guard (keyLen <=? maxKeyLen);
  _ ← p_need (Z.to_nat keyLen + 4);
  key ← p_bytes (Z.to_nat keyLen);
  valueLen ← p_u32;
  _ ← p_guard (valueLen <=? maxValueLen);
  _ ← p_need (Z.to_nat valueLen);
  value ← p_bytes (Z.to_nat valueLen);
  mret (MkCommand clientID requestID op key value).

Definition DecodeCommand (raw : bytes) : outcome Command :=
  if bool_decide (length raw < commandHeaderLen)%nat then Fail
  else p_all p_command raw.

(** ** The two functions are inverse to each other *)

Definition command_bytes (c : Command) : bytes :=
  [Op c] ++ put_u32 (zlen (ClientID c)) ++ ClientID c ++ put_u64 (RequestID c)
  ++ put_u32 (zlen (Key c)) ++ Key c ++ put_u32 (zlen (Value c)) ++ Value c.

Definition encodable (c : Command) : Prop :=
  known_command_op (Op c) = true /\ zlen (ClientID c) <= maxClientIDLen /\
  zlen (Key c) <= maxKeyLen /\ zlen (Value c) <= maxValueLen.

Lemma Encode_ok c b : Encode c = Ok b <-> encodable c /\ b = command_bytes c.
Proof.
  unfold Encode, encodable, command_bytes.
  repeat case_if; zbool; split; intros; destruct_and?; simplify_eq; try done; try lia.
  congruence.
Qed.

Lemma command_bytes_length c :
  length (command_bytes c) =
  (commandHeaderLen + length (ClientID c) + length (Key c) + length (Value c))%nat.
Proof.
  unfold command_bytes, commandHeaderLen. rewrite !length_app, !le_put_length. simpl. lia.
Qed.

Lemma p_command_encodes c :
  encodable c -> is_u64 (RequestID c) -> encodes p_command c (command_bytes c).
Proof.
  intros (Hop & Hc & Hk & Hv) Hr. unfold command_bytes, p_command.
  assert (forall b : bytes, zlen b <= 2 ^ 20 -> is_u32 (zlen b)) as Hu by (intros b; zlen_lia).
  unfold maxKeyLen, maxValueLen, maxClientIDLen in *.
  eapply encodes_bind; [apply encodes_u8|]. apply encodes_guard; [done|].
  eapply encodes_bind; [apply encodes_u32, Hu; lia|]. apply encodes_guard; [lia|].
  rewrite to_nat_zlen. apply encodes_need; [rewrite !length_app, !le_put_length; lia|].
  eapply encodes_bind; [by apply encodes_bytes|]. eapply encodes_bind; [by apply encodes_u64|].
  eapply encodes_bind; [by apply encodes_u32, Hu|]. apply encodes_guard; [lia|].
  rewrite to_nat_zlen. apply encodes_need; [rewrite !length_app, !le_put_length; lia|].
  eapply encodes_bind; [by apply encodes_bytes|].
  eapply encodes_bind; [by apply encodes_u32, Hu|]. apply encodes_guard; [lia|].
  rewrite to_nat_zlen. apply encodes_need; [done|]. destruct c.
  by apply (encodes_last (p_bytes _) (fun v => MkCommand _ _ _ _ v)), encodes_bytes.
Qed.

Lemma p_command_Done l c rest :
  p_command l = Done (c, rest) ->
  l = command_bytes c ++ rest /\ encodable c /\ is_u64 (RequestID c).
Proof.
  unfold p_command. intros H. parse_inv H. zbool. unfold encodable, command_bytes. cbn.
  repeat match goal with E : length ?b = Z.to_nat ?n |- _ =>
    assert (zlen b = n) by (unfold zlen; lia); clear E end.
  subst. rewrite <- !app_assoc. split; [done|]. split; [|done]. split_and!; done || lia.
Qed.

Lemma p_command_safe : safe 21 p_command.
Proof.
  unfold p_command. apply safe_u8; [lia|]. intros op. apply safe_guard. intros _.
  apply safe_int; [lia|]. intros n _. apply safe_guard. intros _. apply safe_need.
  apply safe_bytes; [lia|]. intros cid. apply safe_int; [lia|]. intros rid _.
  apply safe_int; [lia|]. intros k _. apply safe_guard. intros _. apply safe_need.
  apply safe_bytes; [lia|]. intros key. apply safe_int; [lia|]. intros v _.
  apply safe_guard. intros _. apply safe_need. apply safe_bytes; [lia|]. intros value. apply safe_ret.
Qed.

(** [Encode] and [DecodeCommand] are a bijection between the commands
    within the format's bounds and the byte strings the decoder accepts, and
    no byte string makes the decoder read out of range. *)
Theorem Encode_DecodeCommand_bijection :
  (forall c b, is_u64 (RequestID c) -> Encode c = Ok b -> DecodeCommand b = Done c) /\
  (forall raw c, DecodeCommand raw = Done c -> Encode c = Ok raw) /\
  (forall raw, DecodeCommand raw <> Panic).
Proof.
  unfold DecodeCommand. split_and!.
  - intros c b Hr [Hc ->]%Encode_ok. pose proof (command_bytes_length c).
    rewrite bool_decide_eq_false_2 by lia. by apply p_all_encodes, p_command_encodes.
  - intros raw c. case_bool_decide; [done|]. intros H1%p_all_Done.
    apply p_command_Done in H1 as (-> & Hc & _). apply Encode_ok. by rewrite app_nil_r.
  - intros raw. case_bool_decide as Hl; [done|]. apply (p_all_safe 21); [apply p_command_safe|].
    unfold commandHeaderLen in Hl. lia.
Qed.
