(* ===== verification/StateMachine.v ===== *)
(** * The replicated state machine

    internal/statemachine/statemachine.go: committed commands applied to a
    [Store], with a deduplication record of the last request per client.
    Everything is proved against the [Store] class, so it holds for any
    store that keeps the contract. *)

From S2P Require Import Prelude Bytes Codec Wal MemStore Command.
From stdpp Require Import base tactics list numbers gmap.
From Stdlib Require Import Strings.Byte.
From Stdlib Require Import ZArith Lia.
#[local] Open Scope Z_scope.

(** The errors a resolved result can carry, and the faults [Apply] itself
    returns. *)
Inductive resolved_error := ErrRequestIDConflict | ErrStaleRequest | ErrStorageEmptyKey.
Inductive apply_fault := FaultStorage (e : store_error) | FaultUnknownOp.

#[export] Instance resolved_error_eq_dec : EqDecision resolved_error.
Proof. solve_decision. Defined.

Record Result := MkResult {
  Applied : bool;
  Replayed : bool;
  ResultKey : bytes;
  ResultValue : bytes;
  ResultErr : option resolved_error }.

#[export] Instance Result_eq_dec : EqDecision Result.
Proof. solve_decision. Defined.

Record dedupEntry := MkDedup {
  d_requestID : Z;
  d_op : byte;
  d_key : bytes;
  d_value : bytes;
  d_result : Result }.

#[export] Instance dedupEntry_eq_dec : EqDecision dedupEntry.
Proof. solve_decision. Defined.

Definition matches (e : dedupEntry) (cmd : Command) : bool :=
  bool_decide (d_op e = Op cmd) && bool_decide (d_key e = Key cmd) && bool_decide (d_value e = Value cmd).

Definition failed (e : resolved_error) : Result := MkResult false false [] [] (Some e).
Definition replay (r : Result) : Result :=
  MkResult (Applied r) true (ResultKey r) (ResultValue r) (ResultErr r).

Definition record_of (cmd : Command) (res : Result) : dedupEntry :=
  MkDedup (RequestID cmd) (Op cmd) (Key cmd) (Value cmd) res.

Abbreviation dedup_table := (gmap bytes dedupEntry).

Section StateMachine.
Context {St Env : Type} `{Store St Env}.

Record KVStateMachine := MkKV {
  sm_store : St;
  sm_dedup : dedup_table }.

Definition NewKVStateMachine (store : St) : KVStateMachine := MkKV store ∅.

(** [execute]'s treatment of what the store returned. *)
Definition resolve (r : result store_error unit) (ok : Result) : result apply_fault Result :=
  match r with
  | Ok _ => Ok ok
  | Err StoreErrEmptyKey => Ok (failed ErrStorageEmptyKey)
  | Err e => Err (FaultStorage e)
  end.

Definition execute (store : St) (e : Env) (cmd : Command) : St * result apply_fault Result :=
  if bool_decide (Op cmd = OpPut) then
    let '(store, r) := store_Put store e (Key cmd) (Value cmd) in
    (store, resolve r (MkResult true false (Key cmd) (Value cmd) None))
  else if bool_decide (Op cmd = OpDelete) then
    let '(store, r) := store_Delete store e (Key cmd) in
    (store, resolve r (MkResult true false (Key cmd) [] None))
  else (store, Err FaultUnknownOp).

Definition apply_new (sm : KVStateMachine) (e : Env) (cmd : Command) :
    KVStateMachine * result apply_fault Result :=
  match execute (sm_store sm) e cmd with
  | (store, Err f) => (MkKV store (sm_dedup sm), Err f)
  | (store, Ok res) => (MkKV store (<[ClientID cmd := record_of cmd res]> (sm_dedup sm)), Ok res)
  end.

Definition Apply (sm : KVStateMachine) (e : Env) (cmd : Command) :
    KVStateMachine * result apply_fault Result :=
  match sm_dedup sm !! ClientID cmd with
  | Some prev =>
      if RequestID cmd =? d_requestID prev then
        if matches prev cmd then (sm, Ok (replay (d_result prev)))
        else (sm, Ok (failed ErrRequestIDConflict))
      else if RequestID cmd <? d_requestID prev then (sm, Ok (failed ErrStaleRequest))
      else apply_new sm e cmd
  | None => apply_new sm e cmd
  end.
End StateMachine.
Arguments KVStateMachine : clear implicits.

(** ** The pure machine: one function on maps

    [Apply] with no storage engine, no faults and no coins: what the rest of
    the development computes with. It follows the code's branches, also in
    keeping [Applied] in a replayed result; what a sequence of commands is
    owed is stated below, without a table ([answered]). *)

Definition spec_state : Type := gmap bytes bytes * dedup_table.

Definition spec_execute (m : gmap bytes bytes) (cmd : Command) : gmap bytes bytes * Result :=
  if bool_decide (Key cmd = []) then (m, failed ErrStorageEmptyKey)
  else if bool_decide (Op cmd = OpPut) then
    (<[Key cmd := Value cmd]> m, MkResult true false (Key cmd) (Value cmd) None)
  else (delete (Key cmd) m, MkResult true false (Key cmd) [] None).

Definition spec_apply (s : spec_state) (cmd : Command) : spec_state * Result :=
  let fresh := let '(m, res) := spec_execute s.1 cmd in
               ((m, <[ClientID cmd := record_of cmd res]> s.2), res) in
  match s.2 !! ClientID cmd with
  | Some prev =>
      if RequestID cmd =? d_requestID prev then
        if matches prev cmd then (s, replay (d_result prev)) else (s, failed ErrRequestIDConflict)
      else if RequestID cmd <? d_requestID prev then (s, failed ErrStaleRequest)
      else fresh
  | None => fresh
  end.

Fixpoint spec_run (s : spec_state) (cmds : list Command) : spec_state * list Result :=
  match cmds with
  | [] => (s, [])
  | c :: cmds => let '(s, r) := spec_apply s c in
                 let '(s, rs) := spec_run s cmds in (s, r :: rs)
  end.

Section Refinement.
Context {St Env : Type} `{Store St Env, !StoreLaws St Env}.
Implicit Types sm : KVStateMachine St.

Definition abs (sm : KVStateMachine St) : spec_state := (store_view (sm_store sm), sm_dedup sm).
Definition sm_inv (sm : KVStateMachine St) : Prop := store_inv (sm_store sm).

(** Commands applied one after the other, each with what its storage calls
    met; a fault leaves the machine where the fault left it. *)
Fixpoint run (sm : KVStateMachine St) (cmds : list (Env * Command)) :
    KVStateMachine St * list (result apply_fault Result) :=
  match cmds with
  | [] => (sm, [])
  | (e, c) :: cmds => let '(sm, r) := Apply sm e c in
                      let '(sm, rs) := run sm cmds in (sm, r :: rs)
  end.

Lemma execute_spec store e cmd store' r :
  store_inv store -> execute store e cmd = (store', r) ->
  store_inv store' /\
  match r with
  | Ok res => known_command_op (Op cmd) = true /\
              (store_view store', res) = spec_execute (store_view store) cmd
  | Err _ => store_view store' = store_view store
  end.
Proof.
  intros Hi. unfold execute, spec_execute, known_command_op, resolve. case_bool_decide as Eop; [|case_bool_decide].
  - destruct (store_Put store e (Key cmd) (Value cmd)) as [s' r'] eqn:E.
    destruct (store_Put_law _ _ _ _ _ _ Hi E) as [Hi' Hv].
    pose proof (store_Put_empty store e (Key cmd) (Value cmd)) as He. rewrite E in He. cbn in He.
    destruct r' as [[]|[]]; intros [= <- <-]; (split; [done|]); try done; (split; [done|]).
    + rewrite bool_decide_eq_false_2; [by rewrite Hv|]. intros Hk. by apply He in Hk.
    + rewrite bool_decide_eq_true_2 by (by apply He). by rewrite Hv.
  - destruct (store_Delete store e (Key cmd)) as [s' r'] eqn:E.
    destruct (store_Delete_law _ _ _ _ _ Hi E) as [Hi' Hv].
    pose proof (store_Delete_empty store e (Key cmd)) as He. rewrite E in He. cbn in He.
    destruct r' as [[]|[]]; intros [= <- <-]; (split; [done|]); try done; (split; [done|]).
    + rewrite bool_decide_eq_false_2; [by rewrite Hv|]. intros Hk. by apply He in Hk.
    + rewrite bool_decide_eq_true_2 by (by apply He). by rewrite Hv.
  - by intros [= <- <-].
Qed.

(** One step: a resolved [Apply] is the specification's step, a fault
    changes nothing visible. *)
Lemma Apply_spec sm e cmd sm' r :
  sm_inv sm -> Apply sm e cmd = (sm', r) ->
  sm_inv sm' /\
  match r with
  | Ok res => spec_apply (abs sm) cmd = (abs sm', res)
  | Err _ => abs sm' = abs sm
  end.
Proof.
  intros Hi. unfold Apply, spec_apply. cbn [abs snd].
  assert (forall sm' r, apply_new sm e cmd = (sm', r) ->
    sm_inv sm' /\ match r with
    | Ok res => (let '(m, res) := spec_execute (abs sm).1 cmd in
                 ((m, <[ClientID cmd := record_of cmd res]> (abs sm).2), res)) = (abs sm', res)
    | Err _ => abs sm' = abs sm end) as Hnew.
  { intros sm1 r1. unfold apply_new. destruct (execute _ _ _) as [st [res|f]] eqn:E;
      destruct (execute_spec _ _ _ _ _ Hi E) as [Hi' Hs]; intros [= <- <-]; (split; [exact Hi'|]).
    - destruct Hs as [_ Hs]. unfold abs. cbn. by rewrite <- Hs.
    - unfold abs. cbn. by rewrite Hs. }
  destruct (sm_dedup sm !! ClientID cmd) as [prev|]; [|apply Hnew].
  destruct (RequestID cmd =? d_requestID prev); [destruct (matches prev cmd); by intros [= <- <-]|].
  destruct (RequestID cmd <? d_requestID prev); [by intros [= <- <-]|]. apply Hnew.
Qed.

(** With a working disk, an encodable command is always resolved. *)
Lemma Apply_total sm e cmd :
  sm_inv sm -> store_calm e -> encodable cmd -> is_ok (Apply sm e cmd).2 = true.
Proof.
  intros Hi He (Hop & _ & Hk & Hv).
  assert (is_ok (apply_new sm e cmd).2 = true) as Hnew; [|unfold Apply; by repeat case_match].
  unfold known_command_op in Hop. unfold apply_new, execute.
  assert (Key cmd <> [] -> forall v, zlen v <= maxValueLen -> storable (Key cmd) v) as Hst.
  { intros Hne v Hv'. unfold storable, maxValueSize, maxKeySize, maxKeyLen, maxValueLen in *.
    destruct (Key cmd); [done|]. zlen_lia. }
  case_bool_decide; [|case_bool_decide; [|done]].
  - pose proof (store_Put_empty (sm_store sm) e (Key cmd) (Value cmd)) as Hem.
    pose proof (fun Hne => store_Put_ok (sm_store sm) e _ _ Hi He (Hst Hne _ Hv)) as Hok.
    destruct (store_Put _ _ _ _) as [s' r']. cbn in *. destruct (decide (Key cmd = [])) as [Hn|Hn].
    + by rewrite (proj2 Hem Hn).
    + by rewrite (Hok Hn).
  - pose proof (store_Delete_empty (sm_store sm) e (Key cmd)) as Hem.
    pose proof (fun Hne => store_Delete_ok (sm_store sm) e _ Hi He (Hst Hne [] ltac:(done))) as Hok.
    destruct (store_Delete _ _ _) as [s' r']. cbn in *. destruct (decide (Key cmd = [])) as [Hn|Hn].
    + by rewrite (proj2 Hem Hn).
    + by rewrite (Hok Hn).
Qed.

(** The commands of a run that were resolved, and their results. *)
Definition resolved (cmds : list (Env * Command)) (rs : list (result apply_fault Result)) :
    list (Command * Result) :=
  omap (fun '((_, c), r) => match r with Ok res => Some (c, res) | Err _ => None end) (zip cmds rs).

(** A run is the specification's run over the resolved commands: faults,
    wherever they happen, leave no trace. *)
Lemma run_spec sm cmds sm' rs :
  sm_inv sm -> run sm cmds = (sm', rs) ->
  sm_inv sm' /\ spec_run (abs sm) (resolved cmds rs).*1 = (abs sm', (resolved cmds rs).*2).
Proof.
  revert sm rs. induction cmds as [|[e c] cmds IH]; intros sm rs Hi; cbn [run].
  - by intros [= <- <-].
  - destruct (Apply sm e c) as [sm1 r] eqn:E, (run sm1 cmds) as [sm2 rs2] eqn:E2.
    intros [= <- <-]. destruct (Apply_spec _ _ _ _ _ Hi E) as [Hi1 Hs1].
    destruct (IH _ _ Hi1 E2) as [Hi2 Hs2]. split; [done|]. unfold resolved in *. cbn.
    destruct r as [res|f]; cbn.
    + by rewrite Hs1, Hs2.
    + by rewrite <- Hs1, Hs2.
Qed.

(** ** At most once *)

(** The request numbers recorded for a client only grow. *)
Definition seen (sm : KVStateMachine St) (c : bytes) (n : Z) : Prop :=
  exists d, sm_dedup sm !! c = Some d /\ n <= d_requestID d.

Lemma Apply_seen sm e cmd sm' r c n :
  Apply sm e cmd = (sm', r) -> seen sm c n -> seen sm' c n.
Proof.
  intros E (d & Hd & Hn). unfold Apply in E.
  assert (forall sm' r, apply_new sm e cmd = (sm', r) ->
    (forall prev, sm_dedup sm !! ClientID cmd = Some prev -> d_requestID prev <= RequestID cmd) ->
    seen sm' c n) as Hnew.
  { intros sm1 r1 E1 Hle. unfold apply_new in E1.
    destruct (execute _ _ _) as [st [res|f]]; simplify_eq; [|by exists d].
    unfold seen. cbn. destruct (decide (c = ClientID cmd)) as [->|Hne].
    - eexists. rewrite lookup_insert_eq. split; [done|]. cbn. specialize (Hle d Hd). lia.
    - exists d. by rewrite lookup_insert_ne. }
  destruct (sm_dedup sm !! ClientID cmd) as [prev|]; [|by apply (Hnew sm' r)].
  repeat case_match; zbool; try (simplify_eq; by exists d).
  apply (Hnew sm' r); [done|]. intros ? [= <-]. lia.
Qed.

Lemma Apply_ok_seen sm e cmd sm' res :
  Apply sm e cmd = (sm', Ok res) -> seen sm' (ClientID cmd) (RequestID cmd).
Proof.
  unfold Apply.
  assert (apply_new sm e cmd = (sm', Ok res) -> seen sm' (ClientID cmd) (RequestID cmd)) as Hnew.
  { unfold apply_new. destruct (execute _ _ _) as [st [r|f]]; intros E; simplify_eq.
    eexists. cbn. rewrite lookup_insert_eq. split; [done|]. cbn. lia. }
  destruct (sm_dedup sm !! ClientID cmd) as [prev|] eqn:Hp; [|done].
  repeat case_if; zbool; intros E'; simplify_eq; try (exists prev; split; [done|lia]). by apply Hnew.
Qed.

Lemma run_seen sm cmds c n : seen sm c n -> seen (run sm cmds).1 c n.
Proof.
  revert sm. induction cmds as [|[e cmd] cmds IH]; intros sm Hs; [done|]. cbn [run].
  destruct (Apply sm e cmd) as [sm1 r] eqn:E. specialize (IH sm1 (Apply_seen _ _ _ _ _ _ _ E Hs)).
  by destruct (run sm1 cmds).
Qed.

(** A request that was seen is resolved without touching anything. *)
Lemma Apply_seen_noop sm e cmd :
  seen sm (ClientID cmd) (RequestID cmd) -> exists res, Apply sm e cmd = (sm, Ok res) /\
    (Replayed res = true \/ ResultErr res = Some ErrRequestIDConflict \/ ResultErr res = Some ErrStaleRequest).
Proof.
  intros (d & Hd & Hle). unfold Apply. rewrite Hd.
  repeat case_if; zbool; try lia; eexists; (split; [reflexivity|]); cbn; auto.
Qed.
End Refinement.

(** ** What a sequence of commands is owed

    Stated over the whole sequence of resolved commands, with no table: a
    command is executed when its number is greater than that of every
    earlier command of its client. *)

Definition newest_request (before : list Command) (c : Command) : bool :=
  forallb (fun c' => negb (bool_decide (ClientID c' = ClientID c)) || (RequestID c' <? RequestID c)) before.

(** What executing a command does to the data, and its result. *)
Definition cmd_effect (c : Command) (m : gmap bytes bytes) : gmap bytes bytes :=
  if bool_decide (Key c = []) then m
  else if bool_decide (Op c = OpPut) then <[Key c := Value c]> m else delete (Key c) m.
Definition cmd_outcome (c : Command) : Result :=
  if bool_decide (Key c = []) then MkResult false false [] [] (Some ErrStorageEmptyKey)
  else MkResult true false (Key c) (if bool_decide (Op c = OpPut) then Value c else []) None.

(** The commands of [cs], which follow [before], that are executed. *)
Fixpoint executed_commands (before cs : list Command) : list Command :=
  match cs with
  | [] => []
  | c :: cs => (if newest_request before c then [c] else []) ++ executed_commands (before ++ [c]) cs
  end.

Definition same_request (c c' : Command) : Prop :=
  Op c = Op c' /\ Key c = Key c' /\ Value c = Value c'.

(** [r] answers command [c] at position [i]. A command of an executed
    number is a retry, answered with that execution's key, value and error,
    or a conflict; one of an older number is stale. What [Applied] is in a
    retry's answer is left open: result.go documents false, the code keeps
    the execution's ([replayed_result_keeps_Applied]). *)
Inductive answered (cs : list Command) (rs : list Result) (i : nat) (c : Command) : Result -> Prop :=
| ans_executed : newest_request (take i cs) c = true -> answered cs rs i c (cmd_outcome c)
| ans_retry j c' r' r :
    (j < i)%nat -> cs !! j = Some c' -> rs !! j = Some r' -> newest_request (take j cs) c' = true ->
    ClientID c' = ClientID c -> RequestID c' = RequestID c ->
    (forall c2, c2 ∈ take i cs -> ClientID c2 = ClientID c -> RequestID c2 <= RequestID c) ->
    same_request c' c ->
    Replayed r = true -> ResultKey r = ResultKey r' -> ResultValue r = ResultValue r' ->
    ResultErr r = ResultErr r' -> answered cs rs i c r
| ans_conflict j c' :
    (j < i)%nat -> cs !! j = Some c' -> newest_request (take j cs) c' = true ->
    ClientID c' = ClientID c -> RequestID c' = RequestID c ->
    (forall c2, c2 ∈ take i cs -> ClientID c2 = ClientID c -> RequestID c2 <= RequestID c) ->
    ~ same_request c' c ->
    answered cs rs i c (MkResult false false [] [] (Some ErrRequestIDConflict))
| ans_stale j c' :
    (j < i)%nat -> cs !! j = Some c' -> ClientID c' = ClientID c -> RequestID c < RequestID c' ->
    answered cs rs i c (MkResult false false [] [] (Some ErrStaleRequest)).

Lemma spec_execute_effect m c : spec_execute m c = (cmd_effect c m, cmd_outcome c).
Proof. unfold spec_execute, cmd_effect, cmd_outcome. by repeat case_bool_decide. Qed.

Lemma executed_snoc before cs c :
  executed_commands before (cs ++ [c]) = executed_commands before cs ++ (if newest_request (before ++ cs) c then [c] else []).
Proof.
  revert before. induction cs as [|c' cs IH]; intros before; simpl.
  - by rewrite !app_nil_r.
  - rewrite IH, <- !app_assoc. done.
Qed.

Lemma newest_spec before c :
  newest_request before c = true <->
  (forall c', c' ∈ before -> ClientID c' = ClientID c -> RequestID c' < RequestID c).
Proof.
  unfold newest_request. rewrite forallb_forall. setoid_rewrite <- list_elem_of_In. split; intros H c' Hc.
  - intros Hcl. specialize (H c' Hc). rewrite bool_decide_eq_true_2 in H by done. simpl in H. lia.
  - case_bool_decide as Hcl; [|done]. simpl. specialize (H c' Hc Hcl). lia.
Qed.

Lemma spec_run_snoc s cs c s1 rs s2 r :
  spec_run s cs = (s1, rs) -> spec_apply s1 c = (s2, r) -> spec_run s (cs ++ [c]) = (s2, rs ++ [r]).
Proof.
  revert s rs. induction cs as [|c' cs IH]; intros s rs; simpl.
  - intros [= -> <-] ->. done.
  - destruct (spec_apply s c') as [s' r'], (spec_run s' cs) as [s'' rs''] eqn:E.
    intros [= <- <-] Ha. by rewrite (IH _ _ E Ha).
Qed.

(** What the table remembers of a sequence: for each client the command
    with the greatest number, which was executed, and its result. *)
Definition remembers (cs : list Command) (rs : list Result) (d : dedup_table) : Prop :=
  forall cl, match d !! cl with
  | Some e => exists j c r, cs !! j = Some c /\ rs !! j = Some r /\ e = record_of c r /\ ClientID c = cl /\
      newest_request (take j cs) c = true /\ (forall c2, c2 ∈ cs -> ClientID c2 = cl -> RequestID c2 <= RequestID c)
  | None => forall c2, c2 ∈ cs -> ClientID c2 <> cl
  end.

Lemma matches_same c r c' : matches (record_of c r) c' = true <-> same_request c c'.
Proof. unfold matches, same_request, record_of. simpl. rewrite !andb_true_iff, !bool_decide_eq_true. tauto. Qed.

Lemma remembers_grow cs rs d c r :
  length rs = length cs -> remembers cs rs d ->
  (forall e, d !! ClientID c = Some e -> RequestID c <= d_requestID e) ->
  (d !! ClientID c <> None) -> remembers (cs ++ [c]) (rs ++ [r]) d.
Proof.
  intros Hlen H Hle Hne cl. specialize (H cl). destruct (d !! cl) as [e|] eqn:Ed.
  - destruct H as (j & c' & r' & Hj & Hr & -> & Hcl & Hnew & Hmax). exists j, c', r'.
    pose proof (lookup_lt_Some _ _ _ Hj). pose proof (lookup_lt_Some _ _ _ Hr).
    rewrite !lookup_app_l, take_app_le by lia. split_and!; try done.
    intros c2 [Hc2|Hc2%list_elem_of_singleton]%elem_of_app Hcl2; [by apply Hmax|]. subst c2 cl.
    rewrite Hcl2 in Hle. apply (Hle _ Ed).
  - intros c2 [Hc2|Hc2%list_elem_of_singleton]%elem_of_app; [by apply H|]. subst. congruence.
Qed.

Lemma remembers_new cs rs d c r :
  length rs = length cs -> remembers cs rs d -> newest_request cs c = true ->
  remembers (cs ++ [c]) (rs ++ [r]) (<[ClientID c := record_of c r]> d).
Proof.
  intros Hlen H Hnew cl. specialize (H cl). rewrite newest_spec in Hnew.
  destruct (decide (cl = ClientID c)) as [->|Hne].
  - rewrite lookup_insert_eq. exists (length cs), c, r.
    rewrite lookup_app_r, Nat.sub_diag, take_app_length by lia. rewrite <- Hlen at 1.
    rewrite lookup_app_r, Nat.sub_diag by lia. split_and!; try done; [by apply newest_spec|].
    intros c2 [Hc2|Hc2%list_elem_of_singleton]%elem_of_app Hcl2; [|subst; lia].
    specialize (Hnew c2 Hc2 Hcl2). lia.
  - rewrite lookup_insert_ne by done. destruct (d !! cl) as [e|].
    + destruct H as (j & c' & r' & Hj & Hr & -> & Hcl & Hn & Hmax). exists j, c', r'.
      pose proof (lookup_lt_Some _ _ _ Hj). pose proof (lookup_lt_Some _ _ _ Hr).
      rewrite !lookup_app_l, take_app_le by lia. split_and!; try done.
      intros c2 [Hc2|Hc2%list_elem_of_singleton]%elem_of_app Hcl2; [by apply Hmax|]. congruence.
    + intros c2 [Hc2|Hc2%list_elem_of_singleton]%elem_of_app; [by apply H|]. congruence.
Qed.

(** One more command: the pure machine keeps the table, executes exactly
    the new requests and answers what is owed. *)
Lemma spec_apply_answers cs rs m d c m' d' r :
  length rs = length cs -> remembers cs rs d -> spec_apply (m, d) c = ((m', d'), r) ->
  remembers (cs ++ [c]) (rs ++ [r]) d' /\ m' = (if newest_request cs c then cmd_effect c m else m) /\
  answered (cs ++ [c]) (rs ++ [r]) (length cs) c r.
Proof.
  intros Hlen Hrem. unfold spec_apply. rewrite spec_execute_effect. cbn [fst snd].
  assert (take (length cs) (cs ++ [c]) = cs) as Etake by apply take_app_length.
  assert (newest_request cs c = true -> remembers (cs ++ [c]) (rs ++ [cmd_outcome c])
            (<[ClientID c := record_of c (cmd_outcome c)]> d) /\
          cmd_effect c m = (if newest_request cs c then cmd_effect c m else m) /\
          answered (cs ++ [c]) (rs ++ [cmd_outcome c]) (length cs) c (cmd_outcome c)) as Hfresh.
  { intros Hn. rewrite Hn. split; [by apply remembers_new|]. split; [done|]. apply ans_executed. by rewrite Etake. }
  pose proof (Hrem (ClientID c)) as Hc. destruct (d !! ClientID c) as [e|] eqn:Ed.
  2:{ intros [= <- <- <-]. apply Hfresh. apply newest_spec. intros c' Hc' Hcl. by apply Hc in Hc'. }
  destruct Hc as (j & c' & r' & Hj & Hr & -> & Hcl & Hn & Hmax). cbn [record_of d_requestID d_result].
  pose proof (lookup_lt_Some _ _ _ Hj) as Hlt.
  assert (RequestID c <= RequestID c' -> newest_request cs c = false /\ forall r0, remembers (cs ++ [c]) (rs ++ [r0]) d) as Hold.
  { intros Hle. split.
    - apply not_true_iff_false. rewrite newest_spec. intros Hnew.
      specialize (Hnew c' (list_elem_of_lookup_2 _ _ _ Hj) Hcl). lia.
    - intros r0. apply remembers_grow; try done; rewrite Ed; [|done]. intros e [= <-]. done. }
  assert ((cs ++ [c]) !! j = Some c') as Hj' by (by rewrite lookup_app_l).
  assert ((rs ++ [r]) !! j = Some r') as Hr' by (rewrite lookup_app_l by lia; done).
  assert (take j (cs ++ [c]) = take j cs) as Ej by (apply take_app_le; lia).
  destruct (Z.eqb_spec (RequestID c) (RequestID c')) as [Heq|Hneq].
  - destruct (Hold ltac:(lia)) as [-> Hd]. rewrite Heq in Hold.
    destruct (matches _ c) eqn:Em; intros [= <- <- <-]; (split; [apply Hd|]; split; [done|]).
    + eapply (ans_retry _ _ _ _ j c' r'); rewrite ?Ej, ?Etake; try done; try lia.
      * intros c2 H1 H2. rewrite Heq. by apply Hmax.
      * by eapply matches_same.
    + eapply (ans_conflict _ _ _ _ j c'); rewrite ?Ej, ?Etake; try done; try lia.
      * intros c2 H1 H2. rewrite Heq. by apply Hmax.
      * by rewrite <- (matches_same _ r'), Em.
  - destruct (Z.ltb_spec (RequestID c) (RequestID c')) as [Hlt'|Hge].
    + intros [= <- <- <-]. destruct (Hold ltac:(lia)) as [-> Hd]. split; [apply Hd|]. split; [done|].
      by eapply (ans_stale _ _ _ _ j c').
    + intros [= <- <- <-]. apply Hfresh. apply newest_spec. intros c2 Hc2 Hcl2.
      specialize (Hmax c2 Hc2 Hcl2). lia.
Qed.

Lemma answered_app cs rs i c r cs' rs' :
  (i < length cs)%nat -> length rs = length cs -> answered cs rs i c r ->
  answered (cs ++ cs') (rs ++ rs') i c r.
Proof.
  intros Hi Hlen H. assert (take i (cs ++ cs') = take i cs) as Et by (apply take_app_le; lia).
  assert (forall j, (j < i)%nat -> (cs ++ cs') !! j = cs !! j /\ (rs ++ rs') !! j = rs !! j /\
    take j (cs ++ cs') = take j cs) as Hj.
  { intros j Hj. rewrite !lookup_app_l, take_app_le by lia. done. }
  destruct H as [H|j c' r' r Hji|j c' Hji|j c' Hji].
  - apply ans_executed. by rewrite Et.
  - destruct (Hj j Hji) as (E1 & E2 & E3). eapply (ans_retry _ _ _ _ j c' r'); by rewrite ?E1, ?E2, ?E3, ?Et.
  - destruct (Hj j Hji) as (E1 & E2 & E3). eapply (ans_conflict _ _ _ _ j c'); by rewrite ?E1, ?E2, ?E3, ?Et.
  - destruct (Hj j Hji) as (E1 & E2 & E3). eapply (ans_stale _ _ _ _ j c'); by rewrite ?E1, ?E2, ?E3, ?Et.
Qed.

(** The pure machine gives every sequence what it is owed. *)
Lemma spec_run_answers m cs :
  let '((m', d), rs) := spec_run (m, ∅) cs in
  length rs = length cs /\ remembers cs rs d /\
  m' = fold_left (fun m c => cmd_effect c m) (executed_commands [] cs) m /\
  (forall i c r, cs !! i = Some c -> rs !! i = Some r -> answered cs rs i c r).
Proof.
  induction cs as [|c cs IH] using rev_ind.
  - split_and!; try done. intros cl. rewrite lookup_empty. by intros c2 H%not_elem_of_nil.
  - destruct (spec_run (m, ∅) cs) as [[m1 d1] rs] eqn:E. destruct IH as (Hlen & Hrem & -> & Hans).
    destruct (spec_apply (fold_left (fun m c => cmd_effect c m) (executed_commands [] cs) m, d1) c) as [[m2 d2] r] eqn:Ea.
    rewrite (spec_run_snoc _ _ _ _ _ _ _ E Ea).
    destruct (spec_apply_answers _ _ _ _ _ _ _ _ Hlen Hrem Ea) as (Hrem' & -> & Hr).
    split; [rewrite !length_app; simpl; lia|]. split; [done|]. split.
    + rewrite executed_snoc. simpl. rewrite fold_left_app. by destruct (newest_request cs c).
    + intros i c' r' [[Hi Hc]|[-> ->]]%lookup_snoc_Some.
      * rewrite lookup_app_l by lia. intros Hr'. apply answered_app; [done|done|]. by apply Hans.
      * rewrite <- Hlen at 1. rewrite lookup_app_r, Nat.sub_diag by lia. intros [= <-]. done.
Qed.

(** ** Theorems *)

(** C11. What the state machine promises, over any run from an empty
    deduplication table, with any storage faults, for any store that keeps
    the [Store] contract. Only the commands that were resolved count: a
    storage fault leaves no trace. The data is the old data with, in order,
    the effects of exactly those commands whose number is greater than that
    of every earlier command of the same client; each such command is
    answered with its own outcome (the key and value, or the empty-key
    error). A command of the client's greatest number so far with the same
    operation, key and value is a retry, answered as replayed with the key,
    value and error of the execution; with other content it gets
    [ErrRequestIDConflict]; one of a smaller number gets [ErrStaleRequest].
    [Applied] in a retry's answer is not claimed: result.go documents
    false, the code keeps true. *)
Theorem StateMachine_refines_spec {St Env} `{Store St Env, !StoreLaws St Env}
    (store : St) (cmds : list (Env * Command)) sm' rs :
  store_inv store -> run (NewKVStateMachine store) cmds = (sm', rs) ->
  store_view (sm_store sm') =
    fold_left (fun m c => cmd_effect c m) (executed_commands [] (resolved cmds rs).*1) (store_view store) /\
  (forall i c r, resolved cmds rs !! i = Some (c, r) ->
     answered (resolved cmds rs).*1 (resolved cmds rs).*2 i c r).
Proof.
  intros Hi E. destruct (run_spec (NewKVStateMachine store) _ _ _ Hi E) as [_ Hs].
  pose proof (spec_run_answers (store_view store) (resolved cmds rs).*1) as Hrun.
  unfold abs in Hs. simpl in Hs. rewrite Hs in Hrun. destruct Hrun as (_ & _ & Hm & Hans). split; [exact Hm|].
  intros i c r Hl. apply Hans; by rewrite list_lookup_fmap, Hl.
Qed.

(** Replicas agree: two state machines, over different stores with
    different coins and different storage faults, that resolved the same
    commands in the same order hold the same data and deduplication table
    and returned the same results; and with working disks an encodable
    command is always resolved. *)
Theorem replicas_agree {St1 Env1 St2 Env2} `{Store St1 Env1, !StoreLaws St1 Env1}
    `{Store St2 Env2, !StoreLaws St2 Env2}
    (s1 : St1) (s2 : St2) (cmds1 : list (Env1 * Command)) (cmds2 : list (Env2 * Command)) sm1 rs1 sm2 rs2 :
  store_inv s1 -> store_inv s2 -> store_view s1 = store_view s2 ->
  run (NewKVStateMachine s1) cmds1 = (sm1, rs1) -> run (NewKVStateMachine s2) cmds2 = (sm2, rs2) ->
  (resolved cmds1 rs1).*1 = (resolved cmds2 rs2).*1 ->
  abs sm1 = abs sm2 /\ (resolved cmds1 rs1).*2 = (resolved cmds2 rs2).*2 /\
  (forall e c, store_calm e -> encodable c -> is_ok (Apply sm1 e c).2 = true).
Proof.
  intros Hi1 Hi2 Hv E1 E2 Hc.
  destruct (run_spec _ _ _ _ (Hi1 : sm_inv (NewKVStateMachine s1)) E1) as [Hi1' H1].
  destruct (run_spec _ _ _ _ (Hi2 : sm_inv (NewKVStateMachine s2)) E2) as [_ H2].
  unfold abs in H1 at 1, H2 at 1. cbn in H1, H2. rewrite Hc, Hv in H1. rewrite H1 in H2.
  split_and!; [congruence..|]. intros e c He Hcmd. by apply Apply_total.
Qed.

(** At most once: a command that was resolved is never executed again,
    whatever was applied in between; a retry changes nothing at all and is
    answered with the replayed result, a conflict or a stale-request error. *)
Theorem Apply_at_most_once {St Env} `{Store St Env} (sm : KVStateMachine St) e cmd sm1 res1 cmds e2 :
  Apply sm e cmd = (sm1, Ok res1) ->
  exists res, Apply (run sm1 cmds).1 e2 cmd = ((run sm1 cmds).1, Ok res) /\
    (Replayed res = true \/ ResultErr res = Some ErrRequestIDConflict \/ ResultErr res = Some ErrStaleRequest).
Proof. intros E. by eapply Apply_seen_noop, run_seen, Apply_ok_seen. Qed.

(** A replayed result reports [Applied = true] when the original did,
    although storage was not touched. *)
Theorem replayed_result_keeps_Applied {St Env} `{Store St Env} (sm : KVStateMachine St) e cmd sm1 res1 e2 :
  Apply sm e cmd = (sm1, Ok res1) -> ResultErr res1 = None ->
  Applied res1 = true -> Replayed res1 = false ->
  Apply sm1 e2 cmd = (sm1, Ok (replay res1)) /\ Applied (replay res1) = true.
Proof.
  intros E Herr Ha Hr.
  assert (sm_dedup sm1 !! ClientID cmd = Some (record_of cmd res1)) as Hd.
  { unfold Apply in E. assert (apply_new sm e cmd = (sm1, Ok res1) ->
      sm_dedup sm1 !! ClientID cmd = Some (record_of cmd res1)) as Hnew.
    { unfold apply_new. destruct (execute _ _ _) as [st [r|f]]; intros ?; simplify_eq.
      apply lookup_insert_eq. }
    repeat case_match; simplify_eq; by auto. }
  unfold Apply. rewrite Hd. cbn. rewrite Z.eqb_refl. unfold matches. cbn.
  by rewrite !bool_decide_eq_true_2.
Qed.

(** ** Witnesses *)

Definition sample_cmd : Command := NewPutCommand [x63] 1 [x61] [x31].
Definition sample_cmd2 : Command := NewDeleteCommand [x63] 2 [x61].
Definition broken_env : store_env := MkStoreEnv [] (Some 3%nat) false.

(** A put, the same put again, a put of the same number with another value
    and a delete of an older number, with a storage fault in between. *)
Definition sample_run : list (store_env * Command) :=
  [(broken_env, NewDeleteCommand [x63] 4 [x61]); (sample_env, NewPutCommand [x63] 5 [x61] [x31]);
   (sample_env, NewPutCommand [x63] 5 [x61] [x31]); (sample_env, NewPutCommand [x63] 5 [x61] [x32]);
   (sample_env, NewDeleteCommand [x63] 4 [x61])].
Definition sample_outs : list (result apply_fault Result) :=
  [Err (FaultStorage (StoreErrAppend ErrIO)); Ok (MkResult true false [x61] [x31] None);
   Ok (MkResult true true [x61] [x31] None); Ok (failed ErrRequestIDConflict); Ok (failed ErrStaleRequest)].

Example StateMachine_refines_spec_witness :
  store_view (sm_store (run (NewKVStateMachine sample_store) sample_run).1) = {[ [x61] := [x31] ]} /\
  answered (resolved sample_run sample_outs).*1 (resolved sample_run sample_outs).*2 3
    (NewDeleteCommand [x63] 4 [x61]) (failed ErrStaleRequest).
Proof.
  destruct (StateMachine_refines_spec sample_store sample_run
    (run (NewKVStateMachine sample_store) sample_run).1 sample_outs) as [Hm Ha].
  - exact sample_store_inv.
  - vm_compute. reflexivity.
  - split; [rewrite Hm; reflexivity|]. apply Ha. reflexivity.
Defined.

Example replicas_agree_witness :
  abs (run (NewKVStateMachine sample_store) [(sample_env, sample_cmd)]).1 =
  abs (run (NewKVStateMachine sample_store) [(MkStoreEnv [] None false, sample_cmd)]).1.
Proof.
  destruct (replicas_agree sample_store sample_store [(sample_env, sample_cmd)]
    [(MkStoreEnv [] None false, sample_cmd)]
    (run (NewKVStateMachine sample_store) [(sample_env, sample_cmd)]).1
    (run (NewKVStateMachine sample_store) [(sample_env, sample_cmd)]).2
    (run (NewKVStateMachine sample_store) [(MkStoreEnv [] None false, sample_cmd)]).1
    (run (NewKVStateMachine sample_store) [(MkStoreEnv [] None false, sample_cmd)]).2) as [E _].
  - exact sample_store_inv.
  - exact sample_store_inv.
  - reflexivity.
  - vm_compute. reflexivity.
  - vm_compute. reflexivity.
  - vm_compute. reflexivity.
  - exact E.
Defined.

Example Apply_at_most_once_witness :
  exists sm1 res, Apply (run sm1 [(sample_env, sample_cmd2)]).1 sample_env sample_cmd =
    ((run sm1 [(sample_env, sample_cmd2)]).1, Ok res).
Proof.
  pose (sm1 := (Apply (NewKVStateMachine sample_store) sample_env sample_cmd).1).
  destruct (Apply_at_most_once (NewKVStateMachine sample_store) sample_env sample_cmd sm1
    (MkResult true false [x61] [x31] None) [(sample_env, sample_cmd2)] sample_env) as (res & E & _).
  - vm_compute. reflexivity.
  - exists sm1, res. exact E.
Defined.

Example replayed_result_keeps_Applied_witness :
  exists sm1, Apply sm1 sample_env sample_cmd = (sm1, Ok (MkResult true true [x61] [x31] None)).
Proof.
  exists (Apply (NewKVStateMachine sample_store) sample_env sample_cmd).1.
  apply (replayed_result_keeps_Applied (NewKVStateMachine sample_store) sample_env sample_cmd
    _ (MkResult true false [x61] [x31] None) sample_env); vm_compute; reflexivity.
Defined.
