(* ===== verification/SmSnapshot.v ===== *)
(** * State-machine snapshots

    internal/statemachine/snapshot.go: the whole state of a [KVStateMachine]
    (its data and its deduplication table) as bytes, and restoring it over
    whatever another replica holds. Go's map iteration order is an argument
    of [CreateSnapshot]. *)

From S2P Require Import Prelude Bytes Codec Wal SkipList MemStore Command StateMachine.
From stdpp Require Import base tactics list numbers gmap sorting.
From Stdlib Require Import Strings.Byte.
From Stdlib Require Import ZArith Lia.
#[local] Open Scope Z_scope.

(** "ForgeSM1" *)
Definition smSnapshotMagic : bytes := [x46; x6f; x72; x67; x65; x53; x4d; x31].
Definition smSnapshotFormatVersion1 : Z := 1.
Definition smMaxEntries : Z := 2 ^ 20.
Definition smMaxDedupEntries : Z := 2 ^ 20.
Definition smMaxKeyLen : Z := 2 ^ 20.
Definition smMaxValueLen : Z := 2 ^ 20.
Definition smMaxClientIDLen : Z := 4096.
Definition smMaxSnapshotBytes : Z := 2 ^ 29.

Definition encodeResultErr (e : option resolved_error) : byte :=
  match e with
  | None => x00
  | Some ErrRequestIDConflict => x01
  | Some ErrStaleRequest => x02
  | Some ErrStorageEmptyKey => x03
  end.

Definition decodeResultErr (code : byte) : option (option resolved_error) :=
  match code with
  | x00 => Some None
  | x01 => Some (Some ErrRequestIDConflict)
  | x02 => Some (Some ErrStaleRequest)
  | x03 => Some (Some ErrStorageEmptyKey)
  | _ => None
  end.

Lemma decodeResultErr_encode e : decodeResultErr (encodeResultErr e) = Some e.
Proof. by destruct e as [[]|]. Qed.

(** ** Encoding *)

Definition bool_byte (b : bool) : byte := if b then x01 else x00.

Definition kv_bytes (e : bytes * bytes) : bytes := put_field e.1 ++ put_field e.2.

Definition row_bytes (r : bytes * dedupEntry) : bytes :=
  put_field r.1 ++ put_u64 (d_requestID r.2) ++ [d_op r.2] ++ put_field (d_key r.2)
  ++ put_field (d_value r.2) ++ [bool_byte (Applied (d_result r.2))]
  ++ [bool_byte (Replayed (d_result r.2))] ++ put_field (ResultKey (d_result r.2))
  ++ put_field (ResultValue (d_result r.2)) ++ [encodeResultErr (ResultErr (d_result r.2))].

Definition kv_in_bounds (e : bytes * bytes) : bool :=
  (zlen e.1 <=? smMaxKeyLen) && (zlen e.2 <=? smMaxValueLen).

Definition row_in_bounds (r : bytes * dedupEntry) : bool :=
  (zlen r.1 <=? smMaxClientIDLen) && (zlen (d_key r.2) <=? smMaxKeyLen)
  && (zlen (d_value r.2) <=? smMaxValueLen) && (zlen (ResultKey (d_result r.2)) <=? smMaxKeyLen)
  && (zlen (ResultValue (d_result r.2)) <=? smMaxValueLen).

Definition row_le (r s : bytes * dedupEntry) : Prop := ble r.1 s.1.
#[export] Instance row_le_dec : RelDecision row_le.
Proof. intros r s. unfold row_le, ble. apply _. Defined.

Inductive snapshot_error := TooManyKeys | TooManyClients | KVOutOfBounds | RowOutOfBounds | InvalidSnapshot
| RestoreFault (e : store_error).

(** Everything before the checksum. *)
Definition snapshot_body (kv : list (bytes * bytes)) (rows : list (bytes * dedupEntry)) : bytes :=
  smSnapshotMagic ++ put_u32 smSnapshotFormatVersion1 ++ put_u32 (zlen kv) ++ concat (kv_bytes <$> kv)
  ++ put_u32 (zlen rows) ++ concat (row_bytes <$> rows).

Definition encode_snapshot (kv : list (bytes * bytes)) (rows : list (bytes * dedupEntry)) :
    result snapshot_error bytes :=
  if zlen kv >? smMaxEntries then Err TooManyKeys
  else if zlen rows >? smMaxDedupEntries then Err TooManyClients
  else if negb (forallb kv_in_bounds kv) then Err KVOutOfBounds
  else if negb (forallb row_in_bounds rows) then Err RowOutOfBounds
  else Ok (with_sum (snapshot_body kv rows)).

(** ** Decoding *)

Definition p_kv : parser (bytes * bytes) :=
  key ← p_field smMaxKeyLen; value ← p_field smMaxValueLen; mret (key, value).

Definition nonzero (b : byte) : bool := negb (bool_decide (b = x00)).

Definition p_row : parser (bytes * dedupEntry) :=
  clientID ← p_field smMaxClientIDLen;
  _ ← p_need (8 + 1);
  requestID ← p_u64;
  op ← p_u8;
  _ ← p_guard (known_command_op op);
  key ← p_field smMaxKeyLen;
  value ← p_field smMaxValueLen;
  _ ← p_need 2;
  applied ← p_u8;
  replayed ← p_u8;
  resultKey ← p_field smMaxKeyLen;
  resultValue ← p_field smMaxValueLen;
  _ ← p_need 1;
  code ← p_u8;
  match decodeResultErr code with
  | None => p_guard false ≫= fun _ => mret ([], MkDedup 0 x00 [] [] (failed ErrStaleRequest))
  | Some err =>
      mret (clientID, MkDedup requestID op key value
                        (MkResult (nonzero applied) (nonzero replayed) resultKey resultValue err))
  end.

(** What follows the 12-byte preamble. *)
Definition p_snapshot : parser (list (bytes * bytes) * list (bytes * dedupEntry)) :=
  _ ← p_need 4;
  numKV ← p_u32;
  _ ← p_guard (numKV <=? smMaxEntries);
  kv ← p_repeat (Z.to_nat numKV) p_kv;
  _ ← p_need 4;
  numDedup ← p_u32;
  _ ← p_guard (numDedup <=? smMaxDedupEntries);
  rows ← p_repeat (Z.to_nat numDedup) p_row;
  mret (kv, rows).

(** The rows become a map, a later one replacing an earlier one. *)
Definition table_of (rows : list (bytes * dedupEntry)) : dedup_table :=
  fold_left (fun t r => <[r.1 := r.2]> t) rows ∅.

Definition decodeKVStateMachineSnapshot (data : bytes) :
    outcome (list (bytes * bytes) * dedup_table) :=
  if zlen data >? smMaxSnapshotBytes then Fail
  else if bool_decide (length data < 8 + 4 + 4)%nat then Fail
  else if negb (bool_decide (slice 0 8 data = smSnapshotMagic)) then Fail
  else if negb (le_get (slice 8 12 data) =? smSnapshotFormatVersion1) then Fail
  else if bool_decide (length data < 16 + 4)%nat then Fail
  else if negb (sum_ok data) then Fail
  else match p_all p_snapshot (drop 12 (take (length data - 4) data)) with
       | Done (kv, rows) => Done (kv, table_of rows)
       | Fail => Fail
       | Panic => Panic
       end.

(** ** Creating and restoring *)

Section Snapshots.
Context {St Env : Type} `{Store St Env}.

(** [order] is the order in which Go iterates over the table. *)
Definition CreateSnapshot (sm : KVStateMachine St) (order : list (bytes * dedupEntry)) :
    result snapshot_error bytes :=
  encode_snapshot (store_Snapshot (sm_store sm)) (merge_sort row_le order).

(** The two loops of [RestoreSnapshot]; [envs] is what each storage call
    meets. A failed call ends the loop. *)
Fixpoint delete_all (st : St) (envs : nat -> Env) (keys : list bytes) : St * result store_error unit :=
  match keys with
  | [] => (st, Ok tt)
  | k :: keys => match store_Delete st (envs 0%nat) k with
                 | (st, Ok _) => delete_all st (fun i => envs (S i)) keys
                 | (st, Err e) => (st, Err e)
                 end
  end.

Fixpoint put_all (st : St) (envs : nat -> Env) (kv : list (bytes * bytes)) : St * result store_error unit :=
  match kv with
  | [] => (st, Ok tt)
  | e :: kv => match store_Put st (envs 0%nat) e.1 e.2 with
               | (st, Ok _) => put_all st (fun i => envs (S i)) kv
               | (st, Err e) => (st, Err e)
               end
  end.

Definition RestoreSnapshot (sm : KVStateMachine St) (envs1 envs2 : nat -> Env) (data : bytes) :
    KVStateMachine St * result snapshot_error unit :=
  match decodeKVStateMachineSnapshot data with
  | Done (kv, dedup) =>
      let current := (store_Snapshot (sm_store sm)).*1 in
      let stale := filter (fun k => k ∉ kv.*1) current in
      match delete_all (sm_store sm) envs1 stale with
      | (st, Err e) => (MkKV st (sm_dedup sm), Err (RestoreFault e))
      | (st, Ok _) =>
          match put_all st envs2 kv with
          | (st, Err e) => (MkKV st (sm_dedup sm), Err (RestoreFault e))
          | (st, Ok _) => (MkKV st dedup, Ok tt)
          end
      end
  | _ => (sm, Err InvalidSnapshot)
  end.
End Snapshots.

(** ** The format *)

Lemma encodes_kv e : kv_in_bounds e = true -> encodes p_kv e (kv_bytes e).
Proof.
  unfold kv_in_bounds, smMaxKeyLen, smMaxValueLen. intros Hb. zbool. unfold p_kv, kv_bytes.
  eapply encodes_bind; [by apply encodes_field|].
  destruct e as [k v]. by apply (encodes_last (p_field _) (fun v => (k, v))), encodes_field.
Qed.

(** The rows whose fields the decoder can represent. *)
Definition good_row (r : bytes * dedupEntry) : Prop :=
  is_u64 (d_requestID r.2) /\ known_command_op (d_op r.2) = true.

Lemma nonzero_bool_byte b : nonzero (bool_byte b) = b.
Proof. by destruct b. Qed.

Lemma encodes_row r : row_in_bounds r = true -> good_row r -> encodes p_row r (row_bytes r).
Proof.
  unfold row_in_bounds, good_row, smMaxKeyLen, smMaxValueLen, smMaxClientIDLen.
  intros Hb [Hid Hop]. zbool. destruct r as [cid [rid op key value [ap re rk rv err]]].
  cbn [fst snd d_requestID d_op d_key d_value d_result Applied Replayed ResultKey ResultValue ResultErr] in *.
  unfold p_row, row_bytes. cbn [fst snd d_requestID d_op d_key d_value d_result Applied Replayed ResultKey ResultValue ResultErr].
  eapply encodes_bind; [by apply encodes_field|].
  apply encodes_need; [rewrite !length_app, le_put_length; simpl; lia|].
  eapply encodes_bind; [by apply encodes_u64|]. eapply encodes_bind; [apply encodes_u8|].
  apply encodes_guard; [done|]. eapply encodes_bind; [by apply encodes_field|].
  eapply encodes_bind; [by apply encodes_field|]. apply encodes_need; [rewrite !length_app; simpl; lia|].
  eapply encodes_bind; [apply encodes_u8|]. eapply encodes_bind; [apply encodes_u8|].
  eapply encodes_bind; [by apply encodes_field|]. eapply encodes_bind; [by apply encodes_field|].
  apply encodes_need; [done|]. rewrite <- (app_nil_r [encodeResultErr err]).
  eapply encodes_bind; [apply encodes_u8|]. rewrite decodeResultErr_encode, !nonzero_bool_byte. apply encodes_ret.
Qed.

Lemma encodes_snapshot kv rows :
  zlen kv <= smMaxEntries -> zlen rows <= smMaxDedupEntries ->
  forallb kv_in_bounds kv = true -> forallb row_in_bounds rows = true -> Forall good_row rows ->
  encodes p_snapshot (kv, rows)
    (put_u32 (zlen kv) ++ concat (kv_bytes <$> kv) ++ put_u32 (zlen rows) ++ concat (row_bytes <$> rows)).
Proof.
  unfold smMaxEntries, smMaxDedupEntries. intros Hk Hr Hkb Hrb Hg.
  pose proof (zlen_nonneg kv). pose proof (zlen_nonneg rows). unfold p_snapshot.
  apply encodes_need; [rewrite !length_app, !le_put_length; lia|].
  eapply encodes_bind; [apply encodes_u32; unfold is_u32; lia|]. apply encodes_guard; [by apply Z.leb_le|].
  rewrite to_nat_zlen. eapply encodes_bind.
  { apply encodes_repeat. apply Forall_forall. intros e He. apply encodes_kv.
    eapply forallb_forall in Hkb; [exact Hkb|]. by apply list_elem_of_In. }
  apply encodes_need; [rewrite !length_app, !le_put_length; lia|].
  eapply encodes_bind; [apply encodes_u32; unfold is_u32; lia|]. apply encodes_guard; [by apply Z.leb_le|].
  rewrite to_nat_zlen. apply (encodes_last (p_repeat _ p_row) (fun rows => (kv, rows))).
  apply encodes_repeat. apply Forall_forall. intros e He. apply encodes_row.
  - eapply forallb_forall in Hrb; [exact Hrb|]. by apply list_elem_of_In.
  - by eapply Forall_forall in Hg.
Qed.

Lemma encode_snapshot_ok kv rows b :
  encode_snapshot kv rows = Ok b ->
  zlen kv <= smMaxEntries /\ zlen rows <= smMaxDedupEntries /\
  forallb kv_in_bounds kv = true /\ forallb row_in_bounds rows = true /\
  b = with_sum (snapshot_body kv rows).
Proof. unfold encode_snapshot. repeat case_if; intros [= <-]; zbool. split_and!; done || lia. Qed.

(** What [encode_snapshot] wrote is read back. *)
Lemma decode_encode_snapshot kv rows b :
  encode_snapshot kv rows = Ok b -> Forall good_row rows -> zlen b <= smMaxSnapshotBytes ->
  decodeKVStateMachineSnapshot b = Done (kv, table_of rows).
Proof.
  intros (Hk & Hr & Hkb & Hrb & ->)%encode_snapshot_ok Hg Hlen. unfold decodeKVStateMachineSnapshot.
  pose proof (sum_ok_seal (snapshot_body kv rows)) as Hsum. rewrite Hsum, take_seal. clear Hsum.
  assert (20 <= length (with_sum (snapshot_body kv rows)))%nat as Hmin.
  { rewrite seal_length. unfold snapshot_body. rewrite !length_app, !le_put_length. simpl. lia. }
  case_if; zbool; [lia|]. rewrite bool_decide_eq_false_2 by lia.
  assert (slice 0 8 (with_sum (snapshot_body kv rows)) = smSnapshotMagic) as -> by reflexivity.
  rewrite bool_decide_eq_true_2 by done. cbn [negb].
  assert (slice 8 12 (with_sum (snapshot_body kv rows)) = put_u32 smSnapshotFormatVersion1) as -> by reflexivity.
  rewrite le_get_put_u32 by (unfold is_u32, smSnapshotFormatVersion1; lia). rewrite Z.eqb_refl. cbn [negb].
  rewrite bool_decide_eq_false_2 by lia.
  unfold snapshot_body. rewrite app_assoc, drop_app_length' by (rewrite length_app, le_put_length; done).
  by rewrite (p_all_encodes _ _ _ (encodes_snapshot kv rows Hk Hr Hkb Hrb Hg)).
Qed.

Lemma p_kv_safe : safe 0 p_kv.
Proof.
  apply safe_bind; [apply safe_field|]. intros k. apply safe_bind; [apply safe_field|]. intros v. apply safe_ret.
Qed.

Lemma p_row_safe : safe 0 p_row.
Proof.
  apply safe_bind; [apply safe_field|]. intros cid. apply safe_need. apply safe_int; [lia|]. intros rid _.
  apply safe_u8; [lia|]. intros op. apply safe_guard. intros _. apply safe_weaken.
  apply safe_bind; [apply safe_field|]. intros k. apply safe_bind; [apply safe_field|]. intros v.
  apply safe_need, safe_u8; [lia|]. intros a. apply safe_u8; [lia|]. intros r. apply safe_weaken.
  apply safe_bind; [apply safe_field|]. intros rk. apply safe_bind; [apply safe_field|]. intros rv.
  apply safe_need, safe_u8; [lia|]. intros c. destruct (decodeResultErr c); [apply safe_ret|].
  by apply safe_guard.
Qed.

Lemma p_snapshot_safe : safe 0 p_snapshot.
Proof.
  apply safe_need, safe_int; [lia|]. intros n _. apply safe_guard. intros _. apply safe_weaken.
  apply safe_bind; [apply safe_repeat, p_kv_safe|]. intros kv. apply safe_need, safe_int; [lia|]. intros m _.
  apply safe_guard. intros _. apply safe_weaken.
  apply safe_bind; [apply safe_repeat, p_row_safe|]. intros rows. apply safe_ret.
Qed.

Lemma decode_no_panic data : decodeKVStateMachineSnapshot data <> Panic.
Proof.
  unfold decodeKVStateMachineSnapshot. repeat (case_if; [done|]).
  pose proof (p_all_safe 0 p_snapshot (drop 12 (take (length data - 4) data)) p_snapshot_safe ltac:(lia)) as Hs.
  by destruct (p_all p_snapshot _) as [[]| |].
Qed.

(** ** Sorting makes the encoding independent of the iteration order *)

#[export] Instance row_le_total : Total row_le.
Proof.
  intros r s. unfold row_le, ble. destruct (blt_trichotomy r.1 s.1) as [?|[?|?]]; auto.
Qed.

#[export] Instance row_le_trans : Transitive row_le.
Proof.
  intros r s t [E|H1] [E2|H2]; unfold row_le, ble; rewrite ?E, ?E2 in *; auto.
  right. by eapply blt_trans.
Qed.

Definition row_lt (r s : bytes * dedupEntry) : Prop := blt r.1 s.1.

#[export] Instance row_lt_antisymm : AntiSymm eq row_lt.
Proof. intros r s H1 H2. exfalso. exact (blt_irrefl _ (blt_trans _ _ _ H1 H2)). Qed.

Lemma sorted_strict rows :
  StronglySorted row_le rows -> NoDup rows.*1 -> StronglySorted row_lt rows.
Proof.
  induction 1 as [|r rows Hs IH Hr]; cbn; intros Hnd; constructor.
  - apply IH. by inversion Hnd.
  - apply Forall_forall. intros s Hin. eapply Forall_forall in Hr; [|exact Hin].
    destruct Hr as [E|?]; [|done]. inversion Hnd as [|? ? Hn _]; subst. exfalso. apply Hn.
    rewrite E. apply list_elem_of_fmap. by exists s.
Qed.

Lemma merge_sort_strict (t : dedup_table) order :
  order ≡ₚ map_to_list t -> StronglySorted row_lt (merge_sort row_le order).
Proof.
  intros Hp. apply sorted_strict; [apply (StronglySorted_merge_sort row_le)|].
  rewrite (merge_sort_Permutation row_le order), Hp. apply NoDup_fst_map_to_list.
Qed.

Lemma merge_sort_unique (t : dedup_table) order1 order2 :
  order1 ≡ₚ map_to_list t -> order2 ≡ₚ map_to_list t ->
  merge_sort row_le order1 = merge_sort row_le order2.
Proof.
  intros H1 H2. apply (StronglySorted_unique row_lt).
  - by eapply merge_sort_strict.
  - by eapply merge_sort_strict.
  - by rewrite !(merge_sort_Permutation row_le), H1, H2.
Qed.

(** ** Rebuilding maps by successive insertion *)

Lemma fold_insert_list_to_map {A} (l : list (bytes * A)) (m : gmap bytes A) :
  NoDup l.*1 -> fold_left (fun t r => <[r.1 := r.2]> t) l m = list_to_map l ∪ m.
Proof.
  revert m. induction l as [|[k v] l IH]; intros m Hnd; [cbn; by rewrite (left_id_L ∅ (∪))|].
  cbn in *. apply NoDup_cons in Hnd as [Hk Hnd]. rewrite IH by done.
  rewrite <- insert_union_l. symmetry. rewrite insert_union_r; [done|].
  by apply not_elem_of_list_to_map_1.
Qed.

Lemma table_of_sorted (t : dedup_table) order :
  order ≡ₚ map_to_list t -> table_of (merge_sort row_le order) = t.
Proof.
  intros Hp. unfold table_of.
  assert (merge_sort row_le order ≡ₚ map_to_list t) as Hp' by (by rewrite (merge_sort_Permutation row_le)).
  rewrite fold_insert_list_to_map, (right_id_L ∅ (∪)).
  - rewrite (list_to_map_proper _ (map_to_list t)); [apply list_to_map_to_list| |done].
    rewrite Hp'. apply NoDup_fst_map_to_list.
  - rewrite Hp'. apply NoDup_fst_map_to_list.
Qed.

(** A corrupted byte is always rejected. *)
Lemma decode_flip data x i b b0 :
  decodeKVStateMachineSnapshot data = Done x -> data !! i = Some b0 -> b <> b0 ->
  decodeKVStateMachineSnapshot (<[i:=b]> data) = Fail.
Proof.
  unfold decodeKVStateMachineSnapshot, zlen. rewrite !length_insert. intros Hd Hi Hb.
  destruct (Z.of_nat (length data) >? smMaxSnapshotBytes); [done|].
  destruct (bool_decide (length data < 8 + 4 + 4)%nat); [done|].
  case_if; [done|]. case_if; [done|]. destruct (bool_decide (length data < 16 + 4)%nat) eqn:Hl; [done|].
  rewrite (sum_ok_flip data i b b0); try done.
  - apply bool_decide_eq_false in Hl; lia.
  - destruct (sum_ok data); [done|]. by repeat case_match.
Qed.

Section Restore.
Context {St Env : Type} `{Store St Env, !StoreLaws St Env}.

Lemma delete_all_spec st envs keys st' r :
  store_inv st -> delete_all st envs keys = (st', r) ->
  store_inv st' /\ (r = Ok tt -> store_view st' = filter (fun '(k, _) => k ∉ keys) (store_view st)).
Proof.
  revert st envs. induction keys as [|k keys IH]; intros st envs Hi; cbn.
  - intros [= <- <-]. split; [done|]. intros _. symmetry. apply map_filter_id. set_solver.
  - destruct (store_Delete st (envs 0%nat) k) as [st1 [[]|e]] eqn:E; intros E2;
      destruct (store_Delete_law _ _ _ _ _ Hi E) as [Hi1 Hv1].
    + destruct (IH _ _ Hi1 E2) as [Hi2 Hv2]. split; [done|]. intros Hr. rewrite (Hv2 Hr), Hv1.
      apply map_eq. intros j. rewrite !map_lookup_filter.
      destruct (decide (j = k)) as [->|Hne].
      * rewrite lookup_delete_eq. cbn. destruct (store_view st !! k); cbn; [|done].
        rewrite option_guard_False; [done|]. set_solver.
      * rewrite lookup_delete_ne by done. destruct (store_view st !! j); cbn; [|done].
        repeat case_guard; set_solver.
    + simplify_eq. done.
Qed.

Lemma put_all_spec st envs kv st' r :
  store_inv st -> put_all st envs kv = (st', r) ->
  store_inv st' /\ (r = Ok tt -> store_view st' = fold_left (fun t e => <[e.1 := e.2]> t) kv (store_view st)).
Proof.
  revert st envs. induction kv as [|[k v] kv IH]; intros st envs Hi; cbn.
  - by intros [= <- <-].
  - destruct (store_Put st (envs 0%nat) k v) as [st1 [[]|e]] eqn:E; intros E2;
      destruct (store_Put_law _ _ _ _ _ _ Hi E) as [Hi1 Hv1].
    + destruct (IH _ _ Hi1 E2) as [Hi2 Hv2]. split; [done|]. intros Hr. by rewrite (Hv2 Hr), Hv1.
    + by simplify_eq.
Qed.

Lemma delete_all_ok st envs keys :
  store_inv st -> (forall i, store_calm (envs i)) -> Forall (fun k => storable k []) keys ->
  (delete_all st envs keys).2 = Ok tt.
Proof.
  intros Hi He Hk. revert st envs Hi He. induction Hk as [|k keys Hk _ IH]; intros st envs Hi He; [done|].
  cbn. pose proof (store_Delete_ok st (envs 0%nat) k Hi (He 0%nat) Hk) as Hok.
  destruct (store_Delete st (envs 0%nat) k) as [st1 r] eqn:E. cbn in Hok. subst r.
  apply IH; [|by intros]. by destruct (store_Delete_law _ _ _ _ _ Hi E).
Qed.

Lemma put_all_ok st envs kv :
  store_inv st -> (forall i, store_calm (envs i)) -> Forall (fun e => storable e.1 e.2) kv ->
  (put_all st envs kv).2 = Ok tt.
Proof.
  intros Hi He Hk. revert st envs Hi He. induction Hk as [|k keys Hk _ IH]; intros st envs Hi He; [done|].
  cbn. pose proof (store_Put_ok st (envs 0%nat) _ _ Hi (He 0%nat) Hk) as Hok.
  destruct (store_Put st (envs 0%nat) k.1 k.2) as [st1 r] eqn:E. cbn in Hok. subst r.
  apply IH; [|by intros]. by destruct (store_Put_law _ _ _ _ _ _ Hi E).
Qed.

(** Deleting what the snapshot does not mention and writing what it does
    leaves exactly its content. *)
Lemma reconcile (m : gmap bytes bytes) (current : list bytes) (kv : list (bytes * bytes)) :
  (forall k, is_Some (m !! k) -> k ∈ current) -> NoDup kv.*1 ->
  fold_left (fun t e => <[e.1 := e.2]> t) kv
    (filter (fun '(k, _) => k ∉ filter (fun k => k ∉ kv.*1) current) m) = list_to_map kv.
Proof.
  intros Hc Hnd. rewrite fold_insert_list_to_map by done. apply map_eq. intros k.
  rewrite lookup_union. destruct (list_to_map kv !! k) as [v|] eqn:E; [by rewrite union_Some_l|].
  rewrite (left_id_L None (∪)), map_lookup_filter.
  destruct (m !! k) as [v|] eqn:Em; cbn; [|done]. rewrite option_guard_False; [done|].
  apply not_elem_of_list_to_map_2 in E. intros Hn. apply Hn, list_elem_of_filter. eauto.
Qed.

Lemma Snapshot_keys st k :
  store_inv st -> is_Some (store_view st !! k) <-> k ∈ (store_Snapshot st).*1.
Proof.
  intros Hi. destruct (store_Snapshot_law st Hi) as [_ <-].
  rewrite <- elem_of_dom, dom_list_to_map. set_solver.
Qed.

(** Restoring what decodes to [kv] and [dedup]. *)
Lemma RestoreSnapshot_spec sm envs1 envs2 data kv dedup sm' r :
  sm_inv sm -> decodeKVStateMachineSnapshot data = Done (kv, dedup) -> NoDup kv.*1 ->
  RestoreSnapshot sm envs1 envs2 data = (sm', r) ->
  (r = Ok tt -> abs sm' = (list_to_map kv, dedup)) /\
  ((forall i, store_calm (envs1 i) /\ store_calm (envs2 i)) ->
   Forall (fun e => storable e.1 e.2) kv -> r = Ok tt).
Proof.
  intros Hi Hdec Hnd Hrs. unfold RestoreSnapshot in Hrs. rewrite Hdec in Hrs.
  set (stale := filter (fun k => k ∉ kv.*1) (store_Snapshot (sm_store sm)).*1) in *.
  destruct (delete_all (sm_store sm) envs1 stale) as [st r1] eqn:E1.
  destruct (delete_all_spec _ _ _ _ _ Hi E1) as [Hi1 Hv1].
  destruct (put_all st envs2 kv) as [st' r2] eqn:E2.
  destruct (put_all_spec _ _ _ _ _ Hi1 E2) as [_ Hv2]. split.
  - intros ->. destruct r1 as [[]|e]; [|done]. destruct r2 as [[]|e]; [|done]. simplify_eq.
    unfold abs. cbn. rewrite Hv2, Hv1 by done. f_equal.
    apply reconcile; [|done]. intros k. by apply Snapshot_keys.
  - intros Hcalm Hst. assert (r1 = Ok tt) as ->.
    { change r1 with (st, r1).2. rewrite <- E1. apply delete_all_ok; [done|apply Hcalm|].
      apply Forall_forall. intros k [_ Hk]%list_elem_of_filter. apply Snapshot_keys in Hk as [v Hk]; [|done].
      apply (store_view_storable _ Hi) in Hk as [Hk _]. by split. }
    assert (r2 = Ok tt) as ->; [|by simplify_eq].
    change r2 with (st', r2).2. rewrite <- E2. apply put_all_ok; [done|apply Hcalm|done].
Qed.
End Restore.

(** ** The deduplication table stays encodable *)

Definition dedup_ok (t : dedup_table) : Prop := map_Forall (fun c d => good_row (c, d)) t.

Lemma Apply_dedup_ok {St Env} `{Store St Env} (sm : KVStateMachine St) e cmd sm' r :
  is_u64 (RequestID cmd) -> dedup_ok (sm_dedup sm) -> Apply sm e cmd = (sm', r) -> dedup_ok (sm_dedup sm').
Proof.
  intros Hr Hd. unfold Apply.
  assert (apply_new sm e cmd = (sm', r) -> dedup_ok (sm_dedup sm')) as Hnew.
  { unfold apply_new, execute. intros E. repeat case_match; simplify_eq; cbn; try done;
      (apply map_Forall_insert_2; [|done]); (split; [done|]); zbool;
      unfold known_command_op, record_of; cbn; by repeat case_bool_decide. }
  repeat case_match; intros E; simplify_eq; auto.
Qed.

Lemma run_dedup_ok {St Env} `{Store St Env} (sm : KVStateMachine St) cmds :
  Forall (fun ec => is_u64 (RequestID ec.2)) cmds -> dedup_ok (sm_dedup sm) ->
  dedup_ok (sm_dedup (run sm cmds).1).
Proof.
  intros Hc. revert sm. induction Hc as [|[e c] cmds Hc _ IH]; intros sm Hd; [done|]. cbn [run].
  destruct (Apply sm e c) as [sm1 r] eqn:E. specialize (IH sm1 (Apply_dedup_ok _ _ _ _ _ Hc Hd E)).
  by destruct (run sm1 cmds).
Qed.

Lemma sorted_rows_good (t : dedup_table) order :
  dedup_ok t -> order ≡ₚ map_to_list t -> Forall good_row (merge_sort row_le order).
Proof.
  intros Ht Hp. rewrite (merge_sort_Permutation row_le), Hp. apply Forall_forall. intros [c d] Hin.
  apply elem_of_map_to_list in Hin. by apply Ht in Hin.
Qed.

(** ** Theorems *)

(** Snapshot transfer: restoring on any replica, whatever it held, the
    snapshot of a state machine that has run any commands makes the two
    agree on the data and on the deduplication table; with a working disk
    the restore succeeds; and the bytes do not depend on the order in which
    Go iterates over the table. *)
Theorem snapshot_transfer {St Env} `{Store St Env, !StoreLaws St Env}
    (s1 : St) cmds (sm2 : KVStateMachine St) order data envs1 envs2 sm2' r :
  let sm1 := (run (NewKVStateMachine s1) cmds).1 in
  store_inv s1 -> Forall (fun ec => is_u64 (RequestID ec.2)) cmds -> sm_inv sm2 ->
  order ≡ₚ map_to_list (sm_dedup sm1) -> CreateSnapshot sm1 order = Ok data ->
  zlen data <= smMaxSnapshotBytes -> RestoreSnapshot sm2 envs1 envs2 data = (sm2', r) ->
  (r = Ok tt -> abs sm2' = abs sm1) /\
  ((forall i, store_calm (envs1 i) /\ store_calm (envs2 i)) -> r = Ok tt) /\
  (forall order', order' ≡ₚ map_to_list (sm_dedup sm1) -> CreateSnapshot sm1 order' = Ok data).
Proof.
  intros sm1 Hi1 Hc Hi2 Ho Hcr Hlen Hrs.
  assert (sm_inv sm1) as Hsm1.
  { unfold sm1. destruct (run (NewKVStateMachine s1) cmds) as [sm rs] eqn:E.
    exact (proj1 (run_spec _ _ _ _ (Hi1 : sm_inv (NewKVStateMachine s1)) E)). }
  assert (dedup_ok (sm_dedup sm1)) as Hd by (apply run_dedup_ok; [done|apply map_Forall_empty]).
  pose proof (decode_encode_snapshot _ _ _ Hcr (sorted_rows_good _ _ Hd Ho) Hlen) as Hdec.
  rewrite (table_of_sorted _ _ Ho) in Hdec.
  destruct (store_Snapshot_law (sm_store sm1) Hsm1) as [Hsorted Hmap].
  assert (NoDup (store_Snapshot (sm_store sm1)).*1) as Hnd by (by apply sorted_keys_NoDup).
  destruct (RestoreSnapshot_spec _ _ _ _ _ _ _ _ Hi2 Hdec Hnd Hrs) as [Hok Htot]. split_and!.
  - intros Hr. rewrite (Hok Hr), Hmap. done.
  - intros Hcalm. apply Htot; [done|]. apply Forall_forall. intros [k v] Hin.
    apply (store_view_storable _ Hsm1). rewrite <- Hmap. by apply elem_of_list_to_map_1.
  - intros order' Ho'. rewrite <- Hcr. unfold CreateSnapshot. by rewrite (merge_sort_unique _ order' order Ho' Ho).
Qed.

(** No input makes the snapshot decoder read out of range, and a
    snapshot with one corrupted byte, anywhere, is rejected. *)
Theorem snapshot_decoder_robust :
  (forall data, decodeKVStateMachineSnapshot data <> Panic) /\
  (forall data x i b b0, decodeKVStateMachineSnapshot data = Done x -> data !! i = Some b0 -> b <> b0 ->
     decodeKVStateMachineSnapshot (<[i:=b]> data) = Fail).
Proof. split; [exact decode_no_panic|exact decode_flip]. Qed.

Definition sample_sm : KVStateMachine MemStore :=
  (run (NewKVStateMachine sample_store) [(sample_env, sample_cmd)]).1.
Definition sample_rows : list (bytes * dedupEntry) :=
  [([x63], record_of sample_cmd (MkResult true false [x61] [x31] None))].
Definition sample_snapshot : bytes :=
  with_sum (snapshot_body [([x61], [x31])] sample_rows).

Example snapshot_transfer_witness :
  let r := RestoreSnapshot (NewKVStateMachine sample_store) (fun _ => sample_env) (fun _ => sample_env) sample_snapshot in
  r.2 = Ok tt /\ abs r.1 = abs (run (NewKVStateMachine sample_store) [(sample_env, sample_cmd)]).1.
Proof.
  intros r. assert (r.2 = Ok tt) as Hr by (vm_compute; reflexivity). split; [exact Hr|].
  apply (snapshot_transfer sample_store [(sample_env, sample_cmd)]
    (NewKVStateMachine sample_store) sample_rows sample_snapshot (fun _ => sample_env) (fun _ => sample_env) r.1 r.2).
  - exact sample_store_inv.
  - repeat constructor; vm_compute; congruence.
  - exact sample_store_inv.
  - vm_compute. reflexivity.
  - vm_compute. reflexivity.
  - vm_compute. congruence.
  - apply surjective_pairing.
  - exact Hr.
Defined.
