(* ===== verification/AtomicFile.v ===== *)
(** * Atomic file replacement

    internal/storage/atomicfile/atomicfile.go: write a temporary file, sync
    it, rename it over the target, sync the directory. *)

From S2P Require Import Prelude Bytes.
From stdpp Require Import base tactics list.
From Stdlib Require Import Strings.Byte.
From Stdlib Require Import ZArith Lia.
#[local] Open Scope Z_scope.

(** A directory entry as processes see it, what a machine crash would leave
    of it, and the temporary file next to it. *)
Record file := MkFile {
  f_target : option bytes;
  f_stable : option bytes;
  f_tmp : option bytes }.

(** Where a call fails, with how much of the data was written. *)
Inductive write_fault :=
| FailMkdir | FailOpen | FailWrite (n : nat) | FailSync | FailClose | FailRename.

Inductive atomicfile_error := ErrAtomicWrite (at_step : write_fault).

Definition with_tmp (f : file) (t : option bytes) : file := MkFile (f_target f) (f_stable f) t.

(** [os.Remove(tmp)] after a failure. *)
Definition abandon (f : file) (e : write_fault) : file * result atomicfile_error unit :=
  (with_tmp f None, Err (ErrAtomicWrite e)).

(** [Write]: [dir_synced] is whether the directory could be synced, a result
    the source ignores. *)
Definition Write (f : file) (fault : option write_fault) (dir_synced : bool) (data : bytes) :
    file * result atomicfile_error unit :=
  match fault with
  | Some FailMkdir => (f, Err (ErrAtomicWrite FailMkdir))
  | Some FailOpen => (f, Err (ErrAtomicWrite FailOpen))
  | Some (FailWrite n) => abandon (with_tmp f (Some (take n data))) (FailWrite n)
  | Some e => abandon (with_tmp f (Some data)) e
  | None =>
      let f := MkFile (Some data) (f_stable f) None in
      ((if dir_synced then MkFile (Some data) (Some data) None else f), Ok tt)
  end.

(** What a [Write] meets outside: where it fails, and whether the directory
    can be synced. *)
Record file_env := MkFileEnv { fe_fault : option write_fault; fe_dir_synced : bool }.

(** The states a concurrent reader or a crash can observe during a
    successful [Write]. *)
Definition write_states (f : file) (data : bytes) : list file :=
  [f] ++ ((fun n => with_tmp f (Some (take n data))) <$> seq 0 (S (length data)))
  ++ [MkFile (Some data) (f_stable f) None; MkFile (Some data) (Some data) None].

Lemma Write_outcome f fault dir_synced data f' r :
  Write f fault dir_synced data = (f', r) ->
  match r with
  | Ok _ => f_target f' = Some data /\ (dir_synced = true -> f_stable f' = Some data)
  | Err _ => f_target f' = f_target f /\ f_stable f' = f_stable f
  end.
Proof.
  unfold Write. destruct fault as [[]|]; intros [= <- <-]; cbn; try done. by destruct dir_synced.
Qed.

(** A reader of the path, and a crash at any point, sees the complete
    old content or the complete new content; an error leaves the old one,
    success the new one, durably so once the directory is synced. *)
Theorem Write_atomic f fault dir_synced data :
  f_stable f = f_target f ->
  (forall g, g ∈ write_states f data ->
     (f_target g = f_target f \/ f_target g = Some data) /\
     (f_stable g = f_target f \/ f_stable g = Some data)) /\
  (let '(f', r) := Write f fault dir_synced data in
   match r with
   | Ok _ => f_target f' = Some data /\ (f_stable f' = f_target f \/ f_stable f' = Some data) /\
             (dir_synced = true -> f_stable f' = Some data)
   | Err _ => f_target f' = f_target f /\ f_stable f' = f_target f
   end).
Proof.
  intros Hs. split.
  - intros g Hg. unfold write_states in Hg.
    apply elem_of_app in Hg as [Hg%list_elem_of_singleton|Hg]; [subst; auto|].
    apply elem_of_app in Hg as [(n & -> & _)%list_elem_of_fmap|Hg]; [auto|].
    apply elem_of_cons in Hg as [->|Hg%list_elem_of_singleton]; [|subst]; cbn; auto.
  - destruct (Write f fault dir_synced data) as [f' r] eqn:E. pose proof E as E2.
    apply Write_outcome in E. destruct r.
    + destruct E as [Ht Hd]. split; [done|]. split; [|done].
      unfold Write in E2. destruct fault as [[]|]; simplify_eq. destruct dir_synced; cbn; auto.
    + destruct E as [Ht Hd]. split; congruence.
Qed.

Example Write_atomic_witness :
  let '(f', r) := Write (MkFile (Some [x61]) (Some [x61]) None) (Some (FailWrite 1)) true [x62; x63] in
  match r with
  | Ok _ => f_target f' = Some [x62; x63] /\
            (f_stable f' = Some [x61] \/ f_stable f' = Some [x62; x63]) /\
            (true = true -> f_stable f' = Some [x62; x63])
  | Err _ => f_target f' = Some [x61] /\ f_stable f' = Some [x61]
  end.
Proof.
  apply (Write_atomic (MkFile (Some [x61]) (Some [x61]) None) (Some (FailWrite 1)) true [x62; x63]).
  reflexivity.
Defined.
