(* ===== verification/RaftLog.v ===== *)
(** * The Raft log

    internal/raft/log.go: the entries after a snapshot boundary. The first
    element is the boundary itself, (0, 0) before any snapshot; logical
    index [i] lives at physical offset [i - base]. Index arithmetic wraps at
    64 bits as in the source. *)

From S2P Require Import Prelude Bytes.
From stdpp Require Import base tactics list numbers.
From Stdlib Require Import Strings.Byte.
From Stdlib Require Import ZArith Lia.
#[local] Open Scope Z_scope.

Record LogEntry := MkEntry {
  e_Index : Z;
  e_Term : Z;
  e_Command : bytes }.

#[export] Instance LogEntry_eq_dec : EqDecision LogEntry.
Proof. solve_decision. Defined.
#[export] Instance LogEntry_inhabited : Inhabited LogEntry := populate (MkEntry 0 0 []).

(** [Log.entries]; never empty. *)
Abbreviation Log := (list LogEntry).

Definition NewLog : Log := [MkEntry 0 0 []].

Definition base (l : Log) : Z := e_Index (l !!! 0%nat).

Definition LastIndex (l : Log) : Z := u64 (base l + zlen l - 1).
Definition LastTerm (l : Log) : Z := e_Term (l !!! (length l - 1)%nat).

Definition TermAt (l : Log) (index : Z) : option Z :=
  if index <? base l then None
  else
    let offset := u64 (index - base l) in
    if offset >=? zlen l then None else Some (e_Term (l !!! Z.to_nat offset)).

Definition EntryAt (l : Log) (index : Z) : option LogEntry :=
  if index <=? base l then None
  else
    let offset := u64 (index - base l) in
    if offset >=? zlen l then None else Some (l !!! Z.to_nat offset).

Definition log_Append (l : Log) (e : LogEntry) : Log * Z :=
  let index := u64 (base l + zlen l) in
  (l ++ [MkEntry index (e_Term e) (e_Command e)], index).

Definition Slice (l : Log) (from : Z) : list LogEntry :=
  let from := if from <=? base l then u64 (base l + 1) else from in
  let offset := u64 (from - base l) in
  if offset >=? zlen l then [] else drop (Z.to_nat offset) l.

Definition Range (l : Log) (from to : Z) : list LogEntry :=
  let from := if from <=? base l then u64 (base l + 1) else from in
  let lastIdx := LastIndex l in
  let to := if to >? lastIdx then lastIdx else to in
  if from >? to then []
  else slice (Z.to_nat (u64 (from - base l))) (Z.to_nat (u64 (to - base l) + 1)) l.

Fixpoint appendFrom (l : Log) (startIdx : Z) (entries : list LogEntry) : Log :=
  match entries with
  | [] => l
  | e :: entries =>
      appendFrom (l ++ [MkEntry (u64 startIdx) (e_Term e) (e_Command e)]) (startIdx + 1) entries
  end.

(** The loop of [AppendAfter] from the entry that belongs at [idx]. *)
Fixpoint append_loop (l : Log) (idx : Z) (newEntries : list LogEntry) : Log * bool :=
  match newEntries with
  | [] => (l, false)
  | e :: rest =>
      let offset := u64 (idx - base l) in
      if offset <? zlen l then
        if e_Term (l !!! Z.to_nat offset) =? e_Term e then append_loop l (u64 (idx + 1)) rest
        else (appendFrom (take (Z.to_nat offset) l) idx newEntries, true)
      else (appendFrom l idx newEntries, true)
  end.

Definition AppendAfter (l : Log) (prevIndex : Z) (newEntries : list LogEntry) : Log * bool :=
  append_loop l (u64 (prevIndex + 1)) newEntries.

Definition compact (l : Log) (index : Z) : option Log :=
  match TermAt l index with
  | None => None
  | Some term => Some (MkEntry index term [] :: drop (Z.to_nat (u64 (index - base l) + 1)) l)
  end.

Definition installSnapshotBoundary (l : Log) (lastIncludedIndex lastIncludedTerm : Z) : Log :=
  match TermAt l lastIncludedIndex with
  | Some term =>
      if term =? lastIncludedTerm then
        MkEntry lastIncludedIndex lastIncludedTerm []
          :: drop (Z.to_nat (u64 (lastIncludedIndex - base l) + 1)) l
      else [MkEntry lastIncludedIndex lastIncludedTerm []]
  | None => [MkEntry lastIncludedIndex lastIncludedTerm []]
  end.

Definition logIsUpToDate (candidateLastIndex candidateLastTerm voterLastIndex voterLastTerm : Z) : bool :=
  if negb (candidateLastTerm =? voterLastTerm) then candidateLastTerm >? voterLastTerm
  else candidateLastIndex >=? voterLastIndex.

Definition newLogFromEntries (baseIndex baseTerm : Z) (entries : list LogEntry) : Log :=
  MkEntry baseIndex baseTerm [] :: entries.

(** ** Well-formed logs: contiguous indices from the boundary, below 2^64 *)

Definition numbered (start : Z) (l : list LogEntry) : Prop :=
  forall k e, l !! k = Some e -> e_Index e = start + Z.of_nat k.

Record log_wf (l : Log) : Prop := {
  wf_nonempty : l <> [];
  wf_base : 0 <= base l;
  wf_bound : base l + zlen l < 2 ^ 64;
  wf_numbered : numbered (base l) l }.

Lemma NewLog_wf : log_wf NewLog.
Proof.
  split; [done|by vm_compute..|]. intros [|k] e He; simplify_eq/=; done.
Qed.

Lemma numbered_app start l k :
  numbered start (l ++ k) <-> numbered start l /\ numbered (start + zlen l) k.
Proof.
  unfold numbered, zlen. split.
  - intros H. split; intros i e He.
    + apply H. by apply lookup_app_l_Some.
    + rewrite (H (length l + i)%nat e); [lia|]. rewrite lookup_app_r by lia. by rewrite Nat.add_comm, Nat.add_sub.
  - intros [H1 H2] i e [He|[Hge He]]%lookup_app_Some; [by apply H1|]. rewrite (H2 _ _ He). lia.
Qed.

Lemma numbered_take start l n : numbered start l -> numbered start (take n l).
Proof. intros H i e He. apply H. by apply lookup_take_Some in He as [? _]. Qed.

Lemma numbered_drop start l n :
  numbered start l -> numbered (start + Z.of_nat n) (drop n l).
Proof. intros H i e He. rewrite lookup_drop in He. rewrite (H _ _ He). lia. Qed.

Lemma base_app l k : l <> [] -> base (l ++ k) = base l.
Proof. intros H. unfold base. by destruct l. Qed.

Section Facts.
Context (l : Log) (Hwf : log_wf l).

Lemma zlen_pos : 0 < zlen l.
Proof. pose proof (wf_nonempty _ Hwf). destruct l; [done|]. zlen_lia. Qed.

Lemma LastIndex_wf : LastIndex l = base l + zlen l - 1.
Proof.
  unfold LastIndex. pose proof zlen_pos. pose proof (wf_base _ Hwf). pose proof (wf_bound _ Hwf).
  rewrite u64_small; unfold is_u64; lia.
Qed.

Lemma offset_wf i : base l <= i < 2 ^ 64 -> u64 (i - base l) = i - base l.
Proof. intros Hi. pose proof (wf_base _ Hwf). apply u64_small. unfold is_u64. lia. Qed.

Lemma EntryAt_lookup i : base l < i < 2 ^ 64 -> EntryAt l i = l !! Z.to_nat (i - base l).
Proof.
  intros Hi. unfold EntryAt. rewrite (proj2 (Z.leb_gt _ _)) by lia. rewrite offset_wf by lia.
  case_if; zbool; unfold zlen in *.
  - symmetry. apply lookup_ge_None. lia.
  - destruct (lookup_lt_is_Some_2 l (Z.to_nat (i - base l))) as [e He]; [lia|].
    by rewrite (list_lookup_total_correct _ _ _ He).
Qed.

(** [TermAt] answers exactly from the boundary to the last index. *)
Lemma TermAt_spec i :
  0 <= i < 2 ^ 64 ->
  TermAt l i = if decide (base l <= i <= LastIndex l)
               then Some (e_Term (l !!! Z.to_nat (i - base l))) else None.
Proof.
  intros Hi. rewrite LastIndex_wf. unfold TermAt. case_if; zbool.
  { rewrite decide_False; [done|lia]. }
  rewrite offset_wf by lia. case_if; zbool; case_decide; done || lia.
Qed.

Lemma TermAt_Some i t :
  0 <= i < 2 ^ 64 -> TermAt l i = Some t <->
  exists e, l !! Z.to_nat (i - base l) = Some e /\ base l <= i /\ e_Term e = t.
Proof.
  intros Hi. rewrite TermAt_spec, LastIndex_wf by done. pose proof (wf_base _ Hwf).
  pose proof zlen_pos. unfold zlen in *. case_decide as Hd.
  - destruct (lookup_lt_is_Some_2 l (Z.to_nat (i - base l))) as [e He]; [lia|].
    rewrite (list_lookup_total_correct _ _ _ He), He. split; [intros [= <-]; naive_solver lia|].
    intros (? & [= <-] & _ & <-). done.
  - split; [done|]. intros (e & He & ? & _). apply lookup_lt_Some in He. lia.
Qed.

Lemma Append_wf e :
  base l + zlen l + 1 < 2 ^ 64 ->
  log_wf (log_Append l e).1 /\ (log_Append l e).2 = LastIndex l + 1 /\
  LastIndex (log_Append l e).1 = LastIndex l + 1.
Proof.
  intros Hb. pose proof zlen_pos. pose proof (wf_base _ Hwf).
  assert (u64 (base l + zlen l) = base l + zlen l) as Hu by (apply u64_small; unfold is_u64; lia).
  assert (log_wf (log_Append l e).1) as Hwf'.
  { unfold log_Append. cbn. split.
    - by destruct l.
    - rewrite base_app by apply (wf_nonempty _ Hwf). done.
    - rewrite base_app by apply (wf_nonempty _ Hwf). zlen_lia.
    - rewrite base_app by apply (wf_nonempty _ Hwf). apply numbered_app. split; [apply (wf_numbered _ Hwf)|].
      intros [|k] e' He'; simplify_eq/=; lia. }
  split; [done|]. rewrite LastIndex_wf. unfold LastIndex, log_Append in *. cbn in *.
  rewrite base_app by apply (wf_nonempty _ Hwf). rewrite zlen_app, zlen_cons, zlen_nil, Hu, u64_small;
    unfold is_u64; lia.
Qed.
End Facts.

(** ** [AppendAfter]

    A reference: what the entries after [prevIndex] become. *)

Fixpoint renumber (start : Z) (es : list LogEntry) : list LogEntry :=
  match es with
  | [] => []
  | e :: es => MkEntry start (e_Term e) (e_Command e) :: renumber (start + 1) es
  end.

Fixpoint merge (old : list LogEntry) (start : Z) (es : list LogEntry) {struct es} : list LogEntry * bool :=
  match es, old with
  | [], _ => (old, false)
  | e :: es', o :: old' =>
      if e_Term o =? e_Term e then
        let '(r, changed) := merge old' (start + 1) es' in (o :: r, changed)
      else (renumber start es, true)
  | _ :: _, [] => (renumber start es, true)
  end.

Lemma renumber_length start es : length (renumber start es) = length es.
Proof. revert start. induction es; intros; simpl; auto. Qed.

Lemma renumber_numbered start es : numbered start (renumber start es).
Proof.
  revert start. induction es as [|e es IH]; intros start [|k] x Hx; simplify_eq/=; [lia|].
  rewrite (IH _ _ _ Hx). lia.
Qed.

Lemma appendFrom_renumber l start es :
  0 <= start -> start + zlen es <= 2 ^ 64 -> appendFrom l start es = l ++ renumber start es.
Proof.
  revert l start. induction es as [|e es IH]; intros l start H0 Hb; [by rewrite app_nil_r|].
  cbn [appendFrom renumber]. zlen_norm. pose proof (zlen_nonneg es).
  rewrite IH by lia. rewrite <- app_assoc, u64_small by (unfold is_u64; lia). done.
Qed.

Lemma append_loop_merge l n es :
  log_wf l -> (0 < n <= length l)%nat -> base l + Z.of_nat n + zlen es < 2 ^ 64 ->
  append_loop l (base l + Z.of_nat n) es =
  (take n l ++ (merge (drop n l) (base l + Z.of_nat n) es).1,
   (merge (drop n l) (base l + Z.of_nat n) es).2).
Proof.
  intros Hwf. revert n. induction es as [|e es IH]; intros n Hn Hb.
  { cbn. by rewrite take_drop. }
  pose proof (wf_base _ Hwf). pose proof (wf_bound _ Hwf). zlen_norm. pose proof (zlen_nonneg es).
  cbn [append_loop]. rewrite Z.add_simpl_l, (u64_small (Z.of_nat n)) by (unfold is_u64, zlen in *; lia).
  rewrite Nat2Z.id. case_if; zbool; unfold zlen in E.
  - destruct (lookup_lt_is_Some_2 l n) as [o Ho]; [lia|].
    rewrite (list_lookup_total_correct _ _ _ Ho), (drop_S _ _ _ Ho). cbn [merge].
    case_if; zbool.
    + rewrite u64_small by (unfold is_u64; lia).
      replace (base l + Z.of_nat n + 1) with (base l + Z.of_nat (S n)) by lia.
      rewrite IH by lia. rewrite (take_S_r _ _ _ Ho), <- app_assoc. by destruct (merge _ _ es).
    + rewrite appendFrom_renumber by (zlen_norm; lia). done.
  - assert (n = length l) as -> by lia. rewrite take_ge, drop_ge by done.
    rewrite appendFrom_renumber by (zlen_norm; lia). done.
Qed.

Lemma merge_numbered old start es :
  numbered start old -> numbered start (merge old start es).1.
Proof.
  revert old start. induction es as [|e es IH]; intros [|o old] start Ho; [done..|apply renumber_numbered|].
  cbn [merge]. case_if; [|apply renumber_numbered].
  specialize (IH old (start + 1)). destruct (merge old (start + 1) es) as [r c]. cbn in *.
  intros [|k] x Hx; simplify_eq/=; [by apply (Ho 0%nat)|]. rewrite (IH ltac:(
    intros i y Hy; rewrite (Ho (S i) y Hy); lia) _ _ Hx). lia.
Qed.

(** After the merge every position the leader filled holds the leader's
    entry, or the entry that was there, if that had the leader's term. *)
Lemma merge_entries old start es k e :
  es !! k = Some e -> exists e', (merge old start es).1 !! k = Some e' /\
    (e' = MkEntry (start + Z.of_nat k) (e_Term e) (e_Command e) \/
     old !! k = Some e' /\ e_Term e' = e_Term e).
Proof.
  assert (forall es start k e, es !! k = Some e ->
    renumber start es !! k = Some (MkEntry (start + Z.of_nat k) (e_Term e) (e_Command e))) as Hren.
  { intros es0. induction es0 as [|x es0 IH]; intros s0 [|k0] e0 He0; simplify_eq/=; [do 2 f_equal; lia|].
    rewrite (IH _ _ _ He0). do 2 f_equal. lia. }
  revert old start k. induction es as [|x es IH]; intros [|o old] start k He; [done..| |].
  { eexists. split; [by apply Hren|by left]. }
  cbn [merge]. case_if; zbool; [|eexists; split; [by apply Hren|by left]].
  specialize (IH old (start + 1)). destruct (merge old (start + 1) es) as [r c]. cbn in *.
  destruct k as [|k]; simplify_eq/=; [by eauto|].
  destruct (IH _ He) as (e' & He' & [->|H]); eexists; (split; [exact He'|]); [left; f_equal; lia|by right].
Qed.

Lemma merge_terms old start es k e :
  es !! k = Some e -> exists e', (merge old start es).1 !! k = Some e' /\ e_Term e' = e_Term e.
Proof. intros He. destruct (merge_entries old start es k e He) as (e' & H & [->|[_ Ht]]); eauto. Qed.

Lemma merge_length old start es :
  (length es <= length (merge old start es).1 <= Nat.max (length old) (length es))%nat.
Proof.
  revert old start. induction es as [|e es IH]; intros [|o old] start; cbn [merge]; try (cbn; lia).
  - cbn. rewrite renumber_length. lia.
  - case_if; [|cbn; rewrite renumber_length; lia].
    specialize (IH old (start + 1)). destruct (merge old (start + 1) es). cbn in *. lia.
Qed.

Lemma merge_unchanged old start es : (merge old start es).2 = false -> (merge old start es).1 = old.
Proof.
  revert old start. induction es as [|e es IH]; intros [|o old] start; try done. cbn [merge].
  case_if; [|done]. specialize (IH old (start + 1)). destruct (merge old (start + 1) es). cbn in *.
  intros Hc. f_equal. auto.
Qed.

(** An entry of the follower is dropped only at or after a position where
    its term differs from the leader's. *)
Lemma merge_keeps old start es j o :
  old !! j = Some o ->
  (forall i a e, (i <= j)%nat -> old !! i = Some a -> es !! i = Some e -> e_Term a = e_Term e) ->
  (merge old start es).1 !! j = Some o.
Proof.
  revert old start j. induction es as [|e es IH]; intros [|a old] start j Ho Hm; [done..|].
  cbn [merge]. rewrite (proj2 (Z.eqb_eq _ _)) by (apply (Hm 0%nat); [lia|done..]).
  specialize (IH old (start + 1)). destruct (merge old (start + 1) es) as [r c]. cbn in *.
  destruct j as [|j]; simplify_eq/=; [done|]. apply IH; [done|].
  intros i b e' Hi. apply (Hm (S i)). lia.
Qed.

(** If equal positions with equal terms hold equal commands, the merged log
    holds exactly the leader's entries. *)
Lemma merge_exact old start es :
  numbered start old ->
  (forall i a e, old !! i = Some a -> es !! i = Some e -> e_Term a = e_Term e -> e_Command a = e_Command e) ->
  take (length es) (merge old start es).1 = renumber start es.
Proof.
  revert old start. induction es as [|e es IH]; intros [|o old] start Ho Hm; cbn [merge]; try (by rewrite take_0).
  - cbn [fst]. rewrite take_ge; [done|by rewrite renumber_length].
  - case_if; zbool; [|cbn [fst]; rewrite take_ge; [done|by rewrite renumber_length]].
    specialize (IH old (start + 1)). destruct (merge old (start + 1) es) as [r c]. cbn in *. f_equal.
    + pose proof (Ho 0%nat o eq_refl). pose proof (Hm 0%nat o e eq_refl eq_refl E).
      destruct o. cbn in *. f_equal; [lia|done..].
    + apply IH.
      * intros i y Hy. rewrite (Ho (S i) y Hy). lia.
      * intros i. apply (Hm (S i)).
Qed.

(** The consistency check of AppendEntries passed at [prev]: what
    [AppendAfter] does in terms of the merge. *)
Lemma AppendAfter_merge l prev es :
  log_wf l -> base l <= prev <= LastIndex l -> prev + 1 + zlen es < 2 ^ 64 ->
  let n := Z.to_nat (prev - base l + 1) in
  AppendAfter l prev es =
  (take n l ++ (merge (drop n l) (prev + 1) es).1, (merge (drop n l) (prev + 1) es).2).
Proof.
  intros Hwf Hp Hb n. rewrite LastIndex_wf in Hp by done. pose proof (wf_base _ Hwf).
  pose proof (zlen_nonneg es). unfold zlen in *. unfold AppendAfter. rewrite u64_small by (unfold is_u64; lia).
  replace (prev + 1) with (base l + Z.of_nat n) by (unfold n; lia).
  apply append_loop_merge; [done|unfold n; lia|]. unfold zlen, n. lia.
Qed.

Lemma AppendAfter_wf l prev es :
  log_wf l -> base l <= prev <= LastIndex l -> prev + 1 + zlen es < 2 ^ 64 ->
  log_wf (AppendAfter l prev es).1 /\ base (AppendAfter l prev es).1 = base l /\
  prev + zlen es <= LastIndex (AppendAfter l prev es).1.
Proof.
  intros Hwf Hp Hb. rewrite AppendAfter_merge by done. cbn.
  set (n := Z.to_nat (prev - base l + 1)). set (m := merge _ _ _).
  rewrite LastIndex_wf in Hp by done. pose proof (wf_base _ Hwf) as H0.
  assert (0 < n <= length l)%nat as Hn by (unfold n, zlen in *; lia).
  assert (take n l <> []) as Hne by (destruct l, n; simpl in *; try lia; done).
  assert (base (take n l) = base l) as Hbase by (unfold base; destruct l, n; simpl in *; try lia; done).
  assert (zlen (take n l) = prev - base l + 1) as Hlen by (unfold zlen; rewrite length_take; lia).
  assert (log_wf (take n l ++ m.1)) as Hwf'.
  { split; [by destruct (take n l)|by rewrite base_app, Hbase| |].
    - rewrite base_app, Hbase, zlen_app, Hlen by done. pose proof (wf_bound _ Hwf).
      pose proof (merge_length (drop n l) (prev + 1) es) as Hm. fold m in Hm. rewrite length_drop in Hm.
      unfold zlen in *. lia.
    - rewrite base_app, Hbase by done. apply numbered_app. split; [apply numbered_take, (wf_numbered _ Hwf)|].
      rewrite Hlen. replace (base l + (prev - base l + 1)) with (prev + 1) by lia. apply merge_numbered.
      replace (prev + 1) with (base l + Z.of_nat n) by (unfold n; lia). apply numbered_drop, (wf_numbered _ Hwf). }
  split; [done|]. split; [by rewrite base_app|].
  rewrite LastIndex_wf by done. rewrite base_app, Hbase, zlen_app, Hlen by done.
  pose proof (merge_length (drop n l) (prev + 1) es). fold m in H. unfold zlen. lia.
Qed.

(** ** Moving the boundary *)

(** Keeping what comes after [index] behind a new boundary there. *)
Lemma cut_wf l index term :
  log_wf l -> base l <= index <= LastIndex l ->
  let l' := MkEntry index term [] :: drop (Z.to_nat (index - base l + 1)) l in
  log_wf l' /\ base l' = index /\ LastIndex l' = LastIndex l /\
  (forall i, index < i < 2 ^ 64 -> TermAt l' i = TermAt l i /\ EntryAt l' i = EntryAt l i).
Proof.
  intros Hwf Hi l'. pose proof (wf_base _ Hwf). pose proof (wf_bound _ Hwf).
  pose proof (LastIndex_wf l Hwf) as HL.
  set (n := Z.to_nat (index - base l + 1)) in *.
  assert (zlen (drop n l) = LastIndex l - index) as Hlen.
  { unfold zlen, n in *. rewrite length_drop. lia. }
  assert (log_wf l') as Hwf'.
  { split; [done|change (base l') with index; lia| |].
    - change (base l') with index. unfold l'. rewrite zlen_cons, Hlen. lia.
    - change (base l') with index. unfold l'. intros [|k] e He; simplify_eq/=; [lia|].
      rewrite (numbered_drop _ _ n (wf_numbered _ Hwf) _ _ He). unfold n. lia. }
  split; [done|]. split; [done|]. split.
  { rewrite (LastIndex_wf l' Hwf'). change (base l') with index. unfold l'. rewrite zlen_cons, Hlen. lia. }
  intros i Hri. assert (forall k, (0 < k)%nat -> l' !!! k = l !!! (k + n - 1)%nat) as Hk.
  { intros [|k] Hk; [lia|]. change (l' !!! S k) with (drop n l !!! k). rewrite lookup_total_drop. f_equal. lia. }
  unfold TermAt, EntryAt. rewrite (offset_wf l Hwf), (offset_wf l' Hwf') by (change (base l') with index; lia).
  change (base l') with index.
  assert (zlen l' = LastIndex l - index + 1) as -> by (unfold l'; rewrite zlen_cons; lia).
  rewrite (proj2 (Z.ltb_ge i index)), (proj2 (Z.ltb_ge i (base l))) by lia.
  rewrite (proj2 (Z.leb_gt i index)), (proj2 (Z.leb_gt i (base l))) by lia.
  rewrite Hk by lia. replace (Z.to_nat (i - index) + n - 1)%nat with (Z.to_nat (i - base l)) by (unfold n; lia).
  repeat case_if; zbool; done || lia.
Qed.

Lemma compact_spec l index :
  log_wf l -> base l <= index <= LastIndex l ->
  exists l', compact l index = Some l' /\ log_wf l' /\ base l' = index /\ LastIndex l' = LastIndex l /\
    TermAt l' index = TermAt l index /\
    (forall i, index < i < 2 ^ 64 -> TermAt l' i = TermAt l i /\ EntryAt l' i = EntryAt l i).
Proof.
  intros Hwf Hi. pose proof (wf_base _ Hwf). pose proof (wf_bound _ Hwf). pose proof (LastIndex_wf l Hwf) as HL.
  unfold compact. rewrite TermAt_spec, decide_True by (done || lia).
  rewrite (offset_wf l Hwf) by lia. set (t := e_Term _).
  destruct (cut_wf l index t Hwf Hi) as (Hwf' & Hb & HL' & Hrest).
  eexists. split; [reflexivity|]. split_and!; try done.
  rewrite TermAt_spec, Hb, HL', decide_True by (done || lia). by rewrite Z.sub_diag.
Qed.

Lemma installSnapshotBoundary_spec l index term :
  log_wf l -> base l < index -> index + 1 < 2 ^ 64 ->
  let l' := installSnapshotBoundary l index term in
  log_wf l' /\ base l' = index /\ TermAt l' index = Some term /\
  (TermAt l index = Some term -> LastIndex l' = LastIndex l /\
    forall i, index < i < 2 ^ 64 -> TermAt l' i = TermAt l i /\ EntryAt l' i = EntryAt l i) /\
  (TermAt l index <> Some term -> LastIndex l' = index).
Proof.
  intros Hwf Hi Hb l'. pose proof (wf_base _ Hwf).
  assert (TermAt l' index = Some term) as Ht.
  { unfold l', installSnapshotBoundary. repeat case_match; unfold TermAt; cbn;
      rewrite Z.ltb_irrefl, Z.sub_diag; case_if; zbool; try done; zlen_lia. }
  destruct (decide (TermAt l index = Some term)) as [E|E].
  - assert (base l <= index <= LastIndex l) as Hi'.
    { rewrite TermAt_spec in E by (done || lia). by case_decide. }
    destruct (cut_wf l index term Hwf Hi') as (Hwf' & Hb' & HL' & Hrest).
    assert (l' = MkEntry index term [] :: drop (Z.to_nat (index - base l + 1)) l) as El.
    { unfold l', installSnapshotBoundary. rewrite E, Z.eqb_refl, (offset_wf l Hwf) by lia. done. }
    rewrite <- El in *. split_and!; done.
  - assert (l' = [MkEntry index term []]) as El.
    { unfold l', installSnapshotBoundary. destruct (TermAt l index); [|done].
      case_if; zbool; [congruence|done]. }
    assert (log_wf l') as Hwf'.
    { rewrite El. split; [done|cbn; lia| |].
      - change (index + 1 < 2 ^ 64). done.
      - intros [|k] e He; simplify_eq/=. cbn. lia. }
    split_and!; try done; [by rewrite El|]. rewrite (LastIndex_wf l' Hwf'), El.
    change (base [MkEntry index term []]) with index. zlen_lia.
Qed.

(** ** Reading a range *)

Lemma Range_spec l from to :
  log_wf l -> base l < from -> from <= to -> to <= LastIndex l ->
  length (Range l from to) = Z.to_nat (to - from + 1) /\
  (forall k, 0 <= k <= to - from -> Range l from to !! Z.to_nat k = EntryAt l (from + k)) /\
  numbered from (Range l from to).
Proof.
  intros Hwf Hf Hft Ht. pose proof (wf_base _ Hwf). pose proof (wf_bound _ Hwf).
  pose proof (LastIndex_wf l Hwf) as HL. unfold Range.
  assert (from <=? base l = false) as -> by lia. assert (to >? LastIndex l = false) as -> by lia.
  assert (from >? to = false) as -> by lia.
  rewrite !(offset_wf l Hwf) by lia. unfold slice.
  set (a := Z.to_nat (from - base l)). set (b := Z.to_nat (to - base l + 1)).
  assert (length (take (b - a) (drop a l)) = Z.to_nat (to - from + 1)) as Hlen.
  { rewrite length_take, length_drop. unfold a, b, zlen in *. lia. }
  split; [done|]. split.
  - intros k Hk. unfold EntryAt. rewrite (proj2 (Z.leb_gt _ _)) by lia. rewrite (offset_wf l Hwf) by lia.
    rewrite Z.geb_leb, (proj2 (Z.leb_gt _ _)) by lia.
    rewrite lookup_take_lt by (unfold a, b; lia). rewrite lookup_drop.
    replace (a + Z.to_nat k)%nat with (Z.to_nat (from + k - base l)) by (unfold a; lia).
    apply list_lookup_lookup_total_lt. unfold zlen in *. lia.
  - apply numbered_take. replace from with (base l + Z.of_nat a) by (unfold a; lia).
    apply numbered_drop, (wf_numbered _ Hwf).
Qed.

(** ** Theorems *)

(** Log replication: when the consistency check passed at [prev],
    [AppendAfter] leaves everything up to [prev] alone, gives every later
    position the leader's term (and, where equal terms mean equal commands,
    exactly the leader's entries), drops a follower's entry only at or after
    a conflicting one, reports whether anything changed, and keeps the log
    contiguous. *)
Theorem AppendAfter_correct l prev es :
  log_wf l -> base l <= prev <= LastIndex l -> prev + 1 + zlen es < 2 ^ 64 ->
  let n := Z.to_nat (prev - base l + 1) in
  let '(l', changed) := AppendAfter l prev es in
  log_wf l' /\ base l' = base l /\ take n l' = take n l /\
  (forall k e, es !! k = Some e -> exists e', l' !! (n + k)%nat = Some e' /\ e_Term e' = e_Term e) /\
  ((forall k a e, l !! (n + k)%nat = Some a -> es !! k = Some e ->
      e_Term a = e_Term e -> e_Command a = e_Command e) ->
   take (length es) (drop n l') = renumber (prev + 1) es) /\
  (forall j o, l !! (n + j)%nat = Some o ->
     (forall i a e, (i <= j)%nat -> l !! (n + i)%nat = Some a -> es !! i = Some e -> e_Term a = e_Term e) ->
     l' !! (n + j)%nat = Some o) /\
  (changed = false -> l' = l).
Proof.
  intros Hwf Hp Hb n. destruct (AppendAfter_wf l prev es Hwf Hp Hb) as (Hwf' & Hbase & _).
  pose proof (AppendAfter_merge l prev es Hwf Hp Hb) as E. fold n in E. rewrite E in Hwf', Hbase |- *.
  set (m := merge (drop n l) (prev + 1) es) in *. cbn [fst] in *.
  rewrite LastIndex_wf in Hp by done. pose proof (wf_base _ Hwf).
  assert (length (take n l) = n) as Hn by (rewrite length_take; unfold n, zlen in *; lia).
  assert (forall k, (take n l ++ m.1) !! (n + k)%nat = m.1 !! k) as Hlk.
  { intros k. rewrite lookup_app_r by lia. f_equal. lia. }
  split; [done|]. split; [done|]. split; [by rewrite take_app_length'|]. split_and!.
  - intros k e He. rewrite Hlk. by apply merge_terms.
  - intros Hm. rewrite drop_app_length' by done. apply merge_exact.
    + replace (prev + 1) with (base l + Z.of_nat n) by (unfold n; lia). apply numbered_drop, (wf_numbered _ Hwf).
    + intros i a e Ha. apply Hm. by rewrite lookup_drop in Ha.
  - intros j o Ho Hm. rewrite Hlk. apply merge_keeps; [by rewrite lookup_drop|].
    intros i a e Hi Ha. apply Hm; [done|]. by rewrite lookup_drop in Ha.
  - intros Hc. apply merge_unchanged in Hc. fold m in Hc. rewrite Hc. apply take_drop.
Qed.

Definition sample_log : Log :=
  [MkEntry 5 1 []; MkEntry 6 1 [x61]; MkEntry 7 2 [x62]; MkEntry 8 2 [x63]].

Lemma sample_log_wf : log_wf sample_log.
Proof.
  split; [done|by vm_compute..|]. intros [|[|[|[|k]]]] e He; simplify_eq/=; done.
Qed.

Example AppendAfter_correct_witness :
  let '(l', changed) := AppendAfter sample_log 6 [MkEntry 7 3 [x64]] in
  log_wf l' /\ changed = true /\ l' = [MkEntry 5 1 []; MkEntry 6 1 [x61]; MkEntry 7 3 [x64]].
Proof.
  pose proof (AppendAfter_correct sample_log 6 [MkEntry 7 3 [x64]] sample_log_wf
    ltac:(split; vm_compute; congruence) ltac:(vm_compute; reflexivity)) as H.
  destruct (AppendAfter sample_log 6 [MkEntry 7 3 [x64]]) as [l' c] eqn:E. vm_compute in E. simplify_eq.
  split; [exact (proj1 H)|]. split; reflexivity.
Defined.
