(* ===== verification/RaftFormat.v ===== *)
(** * Raft's files

    internal/raft/format.go, persist.go and file_persister.go: the on-disk
    form of a node's persistent state and of its snapshot, and the file
    persister over atomically replaced files. *)

From S2P Require Import Prelude Bytes Codec RaftLog.
From stdpp Require Import base tactics list numbers gmap.
From Stdlib Require Import Strings.Byte.
From Stdlib Require Import ZArith Lia.
#[local] Open Scope Z_scope.

Record PersistentState := MkState {
  CurrentTerm : Z;
  VotedFor : bytes;
  StateLog : list LogEntry }.

Record Snapshot := MkSnapshot {
  LastIncludedIndex : Z;
  LastIncludedTerm : Z;
  SnapshotData : bytes }.

#[export] Instance PersistentState_eq_dec : EqDecision PersistentState.
Proof. solve_decision. Defined.
#[export] Instance Snapshot_eq_dec : EqDecision Snapshot.
Proof. solve_decision. Defined.

(** "ForgeRP1" *)
Definition raftMagic : bytes := [x46; x6f; x72; x67; x65; x52; x50; x31].
Definition raftFormatVersion1 : Z := 1.
Definition maxVotedForLen : Z := 4096.
Definition maxLogEntries : Z := 2 ^ 20.
Definition maxCommandSize : Z := 2 ^ 20.
Definition maxStateSize : Z := 2 ^ 30.
Definition raftHeaderSize : nat := 8 + 4 + 8 + 4.

Inductive format_error := VotedForTooLong | TooManyEntries | CommandTooLong | DataTooLong.

Definition entry_bytes (e : LogEntry) : bytes :=
  put_u64 (e_Index e) ++ put_u64 (e_Term e) ++ put_field (e_Command e).

Definition state_body (st : PersistentState) : bytes :=
  raftMagic ++ put_u32 raftFormatVersion1 ++ put_u64 (CurrentTerm st) ++ put_field (VotedFor st)
  ++ put_u32 (zlen (StateLog st)) ++ concat (entry_bytes <$> StateLog st).

Definition encodeState (st : PersistentState) : result format_error bytes :=
  if zlen (VotedFor st) >? maxVotedForLen then Err VotedForTooLong
  else if zlen (StateLog st) >? maxLogEntries then Err TooManyEntries
  else if existsb (fun e => zlen (e_Command e) >? maxCommandSize) (StateLog st) then Err CommandTooLong
  else Ok (with_sum (state_body st)).

(** One log entry, the next one due at [want] (any positive index for the
    first), its term at least [prevTerm]. *)
Definition p_entry (want : option Z) (prevTerm : Z) : parser LogEntry :=
  _ ← p_need (8 + 8 + 4);
  index ← p_u64;
  term ← p_u64;
  cmdLen ← p_u32;
  _ ← p_guard (cmdLen <=? maxCommandSize);
  _ ← p_need (Z.to_nat cmdLen);
  _ ← p_guard (match want with None => negb (index =? 0) | Some w => index =? w end);
  _ ← p_guard (negb (term <? prevTerm));
  command ← p_bytes (Z.to_nat cmdLen);
  mret (MkEntry index term command).

Fixpoint p_entries (n : nat) (want : option Z) (prevTerm : Z) : parser (list LogEntry) :=
  match n with
  | O => mret []
  | S n => e ← p_entry want prevTerm;
           es ← p_entries n (Some (u64 (e_Index e + 1))) (e_Term e);
           mret (e :: es)
  end.

(** The fields after magic and version. *)
Definition p_state : parser PersistentState :=
  currentTerm ← p_u64;
  votedForLen ← p_u32;
  _ ← p_guard (votedForLen <=? maxVotedForLen);
  _ ← p_need (Z.to_nat votedForLen);
  votedFor ← p_bytes (Z.to_nat votedForLen);
  _ ← p_need 4;
  numEntries ← p_u32;
  _ ← p_guard (numEntries <=? maxLogEntries);
  entries ← p_entries (Z.to_nat numEntries) None 0;
  mret (MkState currentTerm votedFor entries).

Definition last_term (es : list LogEntry) : Z := default 0 (e_Term <$> es !! (length es - 1)%nat).

Definition decodeState (data : bytes) : outcome PersistentState :=
  if zlen data >? maxStateSize then Fail
  else if bool_decide (length data < raftHeaderSize)%nat then Fail
  else if negb (bool_decide (slice 0 8 data = raftMagic)) then Fail
  else if negb (le_get (slice 8 12 data) =? raftFormatVersion1) then Fail
  else if bool_decide (length data < raftHeaderSize + 4)%nat then Fail
  else if negb (sum_ok data) then Fail
  else match p_all p_state (drop 12 (take (length data - 4) data)) with
       | Done st => if last_term (StateLog st) >? CurrentTerm st then Fail else Done st
       | Fail => Fail
       | Panic => Panic
       end.

(** "ForgeSS1" *)
Definition snapshotMagic : bytes := [x46; x6f; x72; x67; x65; x53; x53; x31].
Definition snapshotFormatVersion1 : Z := 1.
Definition maxSnapshotDataSize : Z := 2 ^ 28.
Definition maxSnapshotFileSize : Z := 2 ^ 29.
Definition snapshotHeaderSize : nat := 8 + 4 + 8 + 8 + 4.

Definition raft_snapshot_body (s : Snapshot) : bytes :=
  snapshotMagic ++ put_u32 snapshotFormatVersion1 ++ put_u64 (LastIncludedIndex s)
  ++ put_u64 (LastIncludedTerm s) ++ put_field (SnapshotData s).

Definition encodeSnapshot (s : Snapshot) : result format_error bytes :=
  if zlen (SnapshotData s) >? maxSnapshotDataSize then Err DataTooLong
  else Ok (with_sum (raft_snapshot_body s)).

Definition p_raft_snapshot : parser Snapshot :=
  lastIncludedIndex ← p_u64;
  lastIncludedTerm ← p_u64;
  data ← p_field maxSnapshotDataSize;
  mret (MkSnapshot lastIncludedIndex lastIncludedTerm data).

Definition decodeSnapshot (data : bytes) : outcome Snapshot :=
  if zlen data >? maxSnapshotFileSize then Fail
  else if bool_decide (length data < snapshotHeaderSize + 4)%nat then Fail
  else if negb (bool_decide (slice 0 8 data = snapshotMagic)) then Fail
  else if negb (le_get (slice 8 12 data) =? snapshotFormatVersion1) then Fail
  else if negb (sum_ok data) then Fail
  else p_all p_raft_snapshot (drop 12 (take (length data - 4) data)).

(** ** What the decoder accepts *)

(** Contiguous indices from [want] on, non-decreasing terms, 64-bit fields. *)
Fixpoint entries_ok (want : option Z) (prevTerm : Z) (es : list LogEntry) : Prop :=
  match es with
  | [] => True
  | e :: es =>
      is_u64 (e_Index e) /\ is_u64 (e_Term e) /\ zlen (e_Command e) <= maxCommandSize /\
      match want with None => e_Index e <> 0 | Some w => e_Index e = w end /\
      prevTerm <= e_Term e /\ entries_ok (Some (u64 (e_Index e + 1))) (e_Term e) es
  end.

Definition state_ok (st : PersistentState) : Prop :=
  is_u64 (CurrentTerm st) /\ zlen (VotedFor st) <= maxVotedForLen /\
  zlen (StateLog st) <= maxLogEntries /\ entries_ok None 0 (StateLog st) /\
  last_term (StateLog st) <= CurrentTerm st.

Lemma command_len_u32 (b : bytes) : zlen b <= maxCommandSize -> is_u32 (zlen b).
Proof. unfold maxCommandSize. zlen_lia. Qed.

Lemma encodes_entry want prev e :
  entries_ok want prev [e] -> encodes (p_entry want prev) e (entry_bytes e).
Proof.
  intros (Hi & Ht & Hc & Hw & Hp & _). unfold p_entry, entry_bytes, put_field.
  pose proof (command_len_u32 _ Hc).
  apply encodes_need; [rewrite !length_app, !le_put_length; lia|].
  eapply encodes_bind; [by apply encodes_u64|]. eapply encodes_bind; [by apply encodes_u64|].
  eapply encodes_bind; [by apply encodes_u32|]. apply encodes_guard; [lia|].
  rewrite to_nat_zlen. apply encodes_need; [done|].
  apply encodes_guard; [destruct want; [lia|apply negb_true_iff; lia]|].
  apply encodes_guard; [apply negb_true_iff; lia|]. destruct e.
  by apply (encodes_last (p_bytes _) (fun c => MkEntry _ _ c)), encodes_bytes.
Qed.

Lemma encodes_entries want prev es :
  entries_ok want prev es -> encodes (p_entries (length es) want prev) es (concat (entry_bytes <$> es)).
Proof.
  revert want prev. induction es as [|e es IH]; intros want prev Hok; [apply encodes_ret|].
  cbn [p_entries length fmap list_fmap concat]. eapply encodes_bind.
  { apply encodes_entry. destruct Hok as (? & ? & ? & ? & ? & _). by split_and!. }
  apply (encodes_last (p_entries _ _ _) (cons e)), IH. by destruct Hok as (_ & _ & _ & _ & _ & ?).
Qed.

Lemma encodes_state st :
  state_ok st -> encodes p_state st
    (put_u64 (CurrentTerm st) ++ put_field (VotedFor st) ++ put_u32 (zlen (StateLog st))
     ++ concat (entry_bytes <$> StateLog st)).
Proof.
  intros (Ht & Hv & Hl & He & _). unfold p_state, put_field. rewrite <- !app_assoc.
  unfold maxVotedForLen, maxLogEntries in *.
  pose proof (zlen_nonneg (VotedFor st)). pose proof (zlen_nonneg (StateLog st)).
  eapply encodes_bind; [by apply encodes_u64|].
  eapply encodes_bind; [apply encodes_u32; unfold is_u32; lia|]. apply encodes_guard; [lia|].
  rewrite to_nat_zlen. apply encodes_need; [rewrite !length_app; lia|].
  eapply encodes_bind; [by apply encodes_bytes|].
  apply encodes_need; [rewrite !length_app, le_put_length; lia|].
  eapply encodes_bind; [apply encodes_u32; unfold is_u32; lia|]. apply encodes_guard; [by apply Z.leb_le|].
  rewrite to_nat_zlen. destruct st.
  by apply (encodes_last (p_entries _ _ _) (fun es => MkState _ _ es)), encodes_entries.
Qed.

Lemma encodeState_ok st b :
  encodeState st = Ok b <->
  zlen (VotedFor st) <= maxVotedForLen /\ zlen (StateLog st) <= maxLogEntries /\
  Forall (fun e => zlen (e_Command e) <= maxCommandSize) (StateLog st) /\ b = with_sum (state_body st).
Proof.
  unfold encodeState. split.
  - repeat case_if; intros [= <-]; zbool. split_and!; [lia..| |done].
    apply Forall_forall. intros e He. destruct (zlen (e_Command e) >? maxCommandSize) eqn:Ec; [|zbool; lia].
    exfalso. rewrite <- not_true_iff_false in E1. apply E1, existsb_exists. exists e.
    split; [by apply list_elem_of_In|done].
  - intros (Hv & Hl & Hc & ->). repeat case_if; zbool; try lia; [|done].
    apply existsb_exists in E1 as (e & He & Hgt). apply list_elem_of_In in He.
    eapply Forall_forall in Hc; [|exact He]. zbool. cbn beta in Hc. lia.
Qed.

Lemma entries_ok_commands want prev es :
  entries_ok want prev es -> Forall (fun e => zlen (e_Command e) <= maxCommandSize) es.
Proof.
  revert want prev. induction es as [|e es IH]; intros want prev Hok; constructor.
  - by destruct Hok as (_ & _ & ? & _).
  - eapply IH. by destruct Hok as (_ & _ & _ & _ & _ & ?).
Qed.

(** The preamble checks of [decodeState] on a sealed body. *)
Lemma decodeState_sealed st :
  zlen (with_sum (state_body st)) <= maxStateSize ->
  decodeState (with_sum (state_body st)) =
  match p_all p_state (put_u64 (CurrentTerm st) ++ put_field (VotedFor st)
     ++ put_u32 (zlen (StateLog st)) ++ concat (entry_bytes <$> StateLog st)) with
  | Done st => if last_term (StateLog st) >? CurrentTerm st then Fail else Done st
  | Fail => Fail | Panic => Panic
  end.
Proof.
  intros Hlen. unfold decodeState. rewrite sum_ok_seal, take_seal.
  assert (28 <= length (with_sum (state_body st)))%nat as Hmin.
  { rewrite seal_length. unfold state_body. rewrite !length_app, !le_put_length, put_field_length. simpl. lia. }
  unfold raftHeaderSize. case_if; zbool; [lia|]. rewrite bool_decide_eq_false_2 by lia.
  assert (slice 0 8 (with_sum (state_body st)) = raftMagic) as -> by reflexivity.
  rewrite bool_decide_eq_true_2 by done. cbn [negb].
  assert (slice 8 12 (with_sum (state_body st)) = put_u32 raftFormatVersion1) as -> by reflexivity.
  rewrite le_get_put_u32 by (unfold is_u32, raftFormatVersion1; lia). rewrite Z.eqb_refl. cbn [negb].
  rewrite bool_decide_eq_false_2 by lia.
  unfold state_body. rewrite app_assoc, drop_app_length' by (rewrite length_app, le_put_length; done). done.
Qed.

Lemma p_entry_Done want prev l e rest :
  p_entry want prev l = Done (e, rest) -> l = entry_bytes e ++ rest /\ entries_ok want prev [e].
Proof.
  unfold p_entry. intros H. parse_inv H. zbool. unfold entry_bytes, put_field. cbn.
  match goal with E : length ?b = Z.to_nat ?n |- _ => assert (zlen b = n) as <- by (unfold zlen; lia) end.
  subst. rewrite <- !app_assoc. split; [done|]. split_and!; try done; try lia.
  destruct want; zbool; done.
Qed.

Lemma p_entries_Done n want prev l es rest :
  p_entries n want prev l = Done (es, rest) ->
  l = concat (entry_bytes <$> es) ++ rest /\ length es = n /\ entries_ok want prev es.
Proof.
  revert want prev l es. induction n as [|n IH]; intros want prev l es H; cbn [p_entries] in H; parse_inv H.
  { done. }
  repeat match goal with
  | E : p_entry _ _ _ = Done _ |- _ => apply p_entry_Done in E as [-> Hok]
  | E : p_entries _ _ _ _ = Done _ |- _ => apply IH in E as (-> & <- & Hoks)
  end. cbn. rewrite <- app_assoc.
  split; [done|]. split; [done|]. destruct Hok as (? & ? & ? & ? & ? & _). by split_and!.
Qed.

Lemma p_state_Done l st rest :
  p_state l = Done (st, rest) ->
  l = (put_u64 (CurrentTerm st) ++ put_field (VotedFor st) ++ put_u32 (zlen (StateLog st))
       ++ concat (entry_bytes <$> StateLog st)) ++ rest /\
  is_u64 (CurrentTerm st) /\ zlen (VotedFor st) <= maxVotedForLen /\
  zlen (StateLog st) <= maxLogEntries /\ entries_ok None 0 (StateLog st).
Proof.
  unfold p_state. intros H. parse_inv H. zbool. unfold put_field. cbn.
  match goal with E : p_entries _ _ _ _ = Done _ |- _ => apply p_entries_Done in E as (-> & Hn & Hok) end.
  match goal with E : length ?b = Z.to_nat ?n, _ : ?n <= maxVotedForLen |- _ =>
    assert (zlen b = n) as <- by (unfold zlen; lia) end.
  match goal with _ : ?n <= maxLogEntries |- context [concat (entry_bytes <$> ?es)] =>
    assert (zlen es = n) as <- by (unfold zlen; lia) end.
  subst. rewrite <- !app_assoc. by split_and!.
Qed.

Lemma p_entries_safe n want prev : safe 0 (p_entries n want prev).
Proof.
  revert want prev. induction n as [|n IH]; intros want prev; [apply safe_ret|]. cbn [p_entries].
  apply safe_bind; [|intros e; apply safe_bind; [apply IH|intros; apply safe_ret]].
  unfold p_entry. apply safe_need, safe_int; [lia|]. intros i _. apply safe_int; [lia|]. intros t _.
  apply safe_int; [lia|]. intros c _. apply safe_guard. intros _. apply safe_need.
  do 2 (apply safe_guard; intros _). apply safe_bytes; [lia|]. intros cmd. apply safe_ret.
Qed.

Lemma p_state_safe : safe 12 p_state.
Proof.
  unfold p_state. apply safe_int; [lia|]. intros t _. apply safe_int; [lia|]. intros v _.
  apply safe_guard. intros _. apply safe_need. apply safe_bytes; [lia|]. intros vf.
  apply safe_need, safe_int; [lia|]. intros m _. apply safe_guard. intros _. apply safe_weaken.
  apply safe_bind; [apply p_entries_safe|]. intros es. apply safe_ret.
Qed.

Lemma decodeState_no_panic data : decodeState data <> Panic.
Proof.
  unfold decodeState. case_if; [done|]. case_if; [done|]. case_if; [done|]. case_if; [done|].
  case_if; [done|]. case_if; [done|]. zbool.
  pose proof (p_all_safe 12 p_state (drop 12 (take (length data - 4) data)) p_state_safe) as Hs.
  rewrite length_drop, length_take in Hs. unfold raftHeaderSize in *. specialize (Hs ltac:(lia)).
  destruct (p_all p_state _); [|done..]. by case_if.
Qed.

Lemma decodeState_Done data st :
  decodeState data = Done st -> state_ok st /\ encodeState st = Ok data.
Proof.
  unfold decodeState, raftHeaderSize. case_if; [done|]. case_if; [done|]. case_if; [done|].
  case_if; [done|]. case_if; [done|]. case_if; [done|]. zbool.
  destruct (p_all p_state _) as [st'| |] eqn:Ep; [|done..]. case_if; [done|]. intros [= <-]. zbool.
  apply p_all_Done, p_state_Done in Ep as (Hbody & Ht & Hv & Hl & He). rewrite app_nil_r in Hbody.
  assert (state_ok st') as Hok by (by split_and!). split; [done|]. apply encodeState_ok.
  split_and!; try done; [by eapply entries_ok_commands|].
  rewrite (sum_ok_split data) at 1 by (done || lia). f_equal.
  rewrite (preamble_split (take _ data) raftMagic raftFormatVersion1);
    rewrite ?length_take, ?slice_take by lia; try done; [|lia].
  rewrite Hbody. reflexivity.
Qed.

Lemma decodeState_flip data st i b b0 :
  decodeState data = Done st -> data !! i = Some b0 -> b <> b0 -> decodeState (<[i:=b]> data) = Fail.
Proof.
  unfold decodeState, zlen. rewrite !length_insert. intros Hd Hi Hb.
  destruct (Z.of_nat (length data) >? maxStateSize); [done|].
  destruct (bool_decide (length data < raftHeaderSize)%nat); [done|].
  case_if; [done|]. case_if; [done|].
  destruct (bool_decide (length data < raftHeaderSize + 4)%nat) eqn:Hl; [done|].
  rewrite (sum_ok_flip data i b b0); try done.
  - apply bool_decide_eq_false in Hl. lia.
  - destruct (sum_ok data); [done|]. by repeat case_match.
Qed.

Lemma decode_encode_state st :
  state_ok st -> exists b, encodeState st = Ok b /\ (zlen b <= maxStateSize -> decodeState b = Done st).
Proof.
  intros Hok. exists (with_sum (state_body st)). pose proof Hok as (Ht & Hv & Hl & He & Hlt).
  split; [apply encodeState_ok; split_and!; try done; by eapply entries_ok_commands|].
  intros Hlen. rewrite decodeState_sealed, (p_all_encodes _ _ _ (encodes_state st Hok)) by done.
  case_if; zbool; [lia|done].
Qed.

(** The state file: what [encodeState] writes for a well-formed state
    is read back as the same state; conversely every file the decoder
    accepts is the encoding of the state it returns; no file makes it read
    out of range; and one corrupted byte, anywhere, is detected. *)
Theorem encodeState_decodeState_inverse :
  (forall st, state_ok st -> exists b, encodeState st = Ok b /\
     (zlen b <= maxStateSize -> decodeState b = Done st)) /\
  (forall data st, decodeState data = Done st -> state_ok st /\ encodeState st = Ok data) /\
  (forall data, decodeState data <> Panic) /\
  (forall data st i b b0, decodeState data = Done st -> data !! i = Some b0 -> b <> b0 ->
     decodeState (<[i:=b]> data) = Fail).
Proof.
  split_and!; [exact decode_encode_state|exact decodeState_Done|exact decodeState_no_panic|exact decodeState_flip].
Qed.

(** ** The snapshot file *)

Definition snapshot_ok (s : Snapshot) : Prop :=
  is_u64 (LastIncludedIndex s) /\ is_u64 (LastIncludedTerm s) /\ zlen (SnapshotData s) <= maxSnapshotDataSize.

Lemma encodes_raft_snapshot s :
  snapshot_ok s -> encodes p_raft_snapshot s
    (put_u64 (LastIncludedIndex s) ++ put_u64 (LastIncludedTerm s) ++ put_field (SnapshotData s)).
Proof.
  intros (Hi & Ht & Hd). unfold p_raft_snapshot.
  eapply encodes_bind; [by apply encodes_u64|]. eapply encodes_bind; [by apply encodes_u64|]. destruct s.
  by apply (encodes_last (p_field _) (fun d => MkSnapshot _ _ d)), encodes_field.
Qed.

(** The snapshot's own limits imply the file's. *)
Lemma decode_encode_raft_snapshot s :
  snapshot_ok s -> exists b, encodeSnapshot s = Ok b /\ decodeSnapshot b = Done s.
Proof.
  intros Hok. pose proof Hok as (Hi & Ht & Hd). unfold encodeSnapshot.
  case_if; zbool; [lia|]. eexists. split; [reflexivity|].
  assert (length (with_sum (raft_snapshot_body s)) = 36 + length (SnapshotData s))%nat as Hlen.
  { rewrite seal_length. unfold raft_snapshot_body.
    rewrite !length_app, !le_put_length, put_field_length. simpl. lia. }
  unfold decodeSnapshot. rewrite sum_ok_seal, take_seal. unfold snapshotHeaderSize.
  unfold zlen, maxSnapshotDataSize, maxSnapshotFileSize in *.
  case_if; zbool; [lia|]. rewrite bool_decide_eq_false_2 by lia.
  assert (slice 0 8 (with_sum (raft_snapshot_body s)) = snapshotMagic) as -> by reflexivity.
  rewrite bool_decide_eq_true_2 by done. cbn [negb].
  assert (slice 8 12 (with_sum (raft_snapshot_body s)) = put_u32 snapshotFormatVersion1) as -> by reflexivity.
  rewrite le_get_put_u32 by (unfold is_u32, snapshotFormatVersion1; lia). rewrite Z.eqb_refl. cbn [negb].
  unfold raft_snapshot_body. rewrite app_assoc, drop_app_length' by (rewrite length_app, le_put_length; done).
  by apply p_all_encodes, encodes_raft_snapshot.
Qed.

Lemma p_field_Done maxLen l b rest :
  p_field maxLen l = Done (b, rest) -> l = put_field b ++ rest /\ zlen b <= maxLen.
Proof.
  unfold p_field. intros H. parse_inv H. zbool. unfold put_field.
  match goal with E : length b = Z.to_nat ?n |- _ => assert (zlen b = n) as <- by (unfold zlen; lia) end.
  subst. by rewrite <- !app_assoc.
Qed.

Lemma decodeSnapshot_Done data s :
  decodeSnapshot data = Done s -> snapshot_ok s /\ encodeSnapshot s = Ok data.
Proof.
  unfold decodeSnapshot, snapshotHeaderSize. case_if; [done|]. case_if; [done|]. case_if; [done|].
  case_if; [done|]. case_if; [done|]. zbool. intros Hp. apply p_all_Done in Hp.
  unfold p_raft_snapshot in Hp. parse_inv Hp.
  match goal with E : p_field _ _ = Done _ |- _ => apply p_field_Done in E as [-> Hd] end.
  split; [by split_and!|]. unfold encodeSnapshot. cbn. case_if; zbool; [lia|]. f_equal.
  rewrite (sum_ok_split data) by (done || lia). f_equal.
  rewrite (preamble_split (take _ data) snapshotMagic snapshotFormatVersion1);
    rewrite ?length_take, ?slice_take by lia; try done; [|lia].
  match goal with E : drop 12 _ = _ |- _ => rewrite E end. unfold raft_snapshot_body. cbn.
  by rewrite app_nil_r.
Qed.

Lemma decodeSnapshot_no_panic data : decodeSnapshot data <> Panic.
Proof.
  unfold decodeSnapshot. do 5 (case_if; [done|]). zbool.
  apply (p_all_safe 20).
  - unfold p_raft_snapshot. apply safe_int; [lia|]. intros i _. apply safe_int; [lia|]. intros t _.
    apply safe_weaken, safe_bind; [apply safe_field|]. intros d. apply safe_ret.
  - rewrite length_drop, length_take. unfold snapshotHeaderSize in *. lia.
Qed.

(** The snapshot file: every snapshot within the format's bounds is
    read back as it was written, every accepted file is the encoding of what
    it decodes to, and no file makes the decoder read out of range. *)
Theorem encodeSnapshot_decodeSnapshot_inverse :
  (forall s, snapshot_ok s -> exists b, encodeSnapshot s = Ok b /\ decodeSnapshot b = Done s) /\
  (forall data s, decodeSnapshot data = Done s -> snapshot_ok s /\ encodeSnapshot s = Ok data) /\
  (forall data, decodeSnapshot data <> Panic).
Proof.
  split_and!; [exact decode_encode_raft_snapshot|exact decodeSnapshot_Done|exact decodeSnapshot_no_panic].
Qed.

(** ** A state that is written but cannot be read *)

Definition big_command : bytes := replicate (Z.to_nat maxCommandSize) x00.
Definition big_entries (start : Z) (n : nat) : list LogEntry :=
  (fun i => MkEntry (start + Z.of_nat i) 1 big_command) <$> seq 0 n.

Lemma big_entries_S start n :
  big_entries start (S n) = MkEntry start 1 big_command :: big_entries (start + 1) n.
Proof.
  unfold big_entries. cbn [seq]. rewrite fmap_cons, <- fmap_S_seq, <- list_fmap_compose. f_equal.
  - f_equal. lia.
  - apply list_fmap_ext. intros i x _. cbn. f_equal. lia.
Qed.

Lemma zlen_big_command : zlen big_command = maxCommandSize.
Proof. unfold big_command, zlen. rewrite length_replicate. unfold maxCommandSize. lia. Qed.

Lemma big_entries_ok want prev start n :
  1 <= start -> start + Z.of_nat n < 2 ^ 64 -> prev <= 1 ->
  match want with None => True | Some w => w = start end -> entries_ok want prev (big_entries start n).
Proof.
  revert want prev start. induction n as [|n IH]; intros want prev start Hs Hb Hp Hw; [done|].
  rewrite big_entries_S. cbn [entries_ok e_Index e_Term e_Command]. rewrite zlen_big_command.
  split_and!; unfold is_u64; try lia.
  - destruct want; lia.
  - apply IH; try lia. rewrite u64_small; unfold is_u64; lia.
Qed.

Lemma big_entries_bytes start n :
  zlen (concat (entry_bytes <$> big_entries start n)) = Z.of_nat n * (20 + maxCommandSize).
Proof.
  revert start. induction n as [|n IH]; intros start; [done|]. rewrite big_entries_S. cbn [fmap list_fmap concat].
  rewrite zlen_app. change (list_fmap ?A ?B ?f ?l) with (f <$> l). rewrite IH.
  assert (zlen (entry_bytes (MkEntry start 1 big_command)) = 20 + maxCommandSize) as ->; [|lia].
  unfold entry_bytes, put_field. cbn [e_Index e_Term e_Command].
  rewrite !zlen_app, !le_put_zlen, zlen_big_command. lia.
Qed.

(** [encodeState] does not enforce the size limit that [decodeState]
    checks: a well-formed state of 1025 entries with 1 MiB commands is
    encoded, and saved, without an error, and the file is then rejected. *)
Theorem oversized_state_unreadable :
  exists st b, state_ok st /\ encodeState st = Ok b /\ decodeState b = Fail.
Proof.
  set (st := MkState 1 [] (big_entries 1 (Z.to_nat 1025))).
  assert (state_ok st) as Hok.
  { split_and!; try (cbn; unfold is_u64, maxVotedForLen; try zlen_lia).
    - unfold zlen, big_entries. cbn [StateLog st]. rewrite length_fmap, length_seq. unfold maxLogEntries. lia.
    - apply big_entries_ok; try lia; done.
    - unfold last_term, big_entries. cbn [StateLog st CurrentTerm].
      destruct (_ !! _) as [e|] eqn:E; cbn; [|lia].
      apply list_lookup_fmap_Some in E as (i & -> & _). cbn. lia. }
  destruct (decode_encode_state st Hok) as (b & Eb & _). exists st, b. split; [done|]. split; [done|].
  apply encodeState_ok in Eb as (_ & _ & _ & ->). unfold decodeState. case_if; [done|]. exfalso. zbool.
  unfold with_sum, state_body in E. cbn [StateLog st] in E. rewrite !zlen_app, big_entries_bytes in E.
  pose proof (zlen_nonneg (put_field (VotedFor st))).
  pose proof (fun b : bytes => zlen_nonneg b) as Hnn. unfold maxStateSize, maxCommandSize in E. zlen_norm.
  pose proof (zlen_nonneg raftMagic). lia.
Qed.
