(* ===== verification/RaftPersist.v ===== *)
(** * Persisters

    internal/raft/persist.go, memory_persister.go and file_persister.go: the
    contract a Raft node has with its stable storage, as a class, and the
    two implementations. *)

From S2P Require Import Prelude Bytes Codec AtomicFile RaftLog RaftFormat.
From stdpp Require Import base tactics list numbers gmap.
From Stdlib Require Import Strings.Byte.
From Stdlib Require Import ZArith Lia.
#[local] Open Scope Z_scope.

Inductive load_error := ErrNoState | ErrNoSnapshot | ErrCorrupt.
Inductive save_error := ErrEncode (e : format_error) | ErrWrite | ErrSimulated.

(** What stable storage holds, the specification of a persister. *)
Record Disk := MkDisk {
  disk_state : option PersistentState;
  disk_snapshot : option Snapshot }.

Definition empty_disk : Disk := MkDisk None None.
Definition save_state (d : Disk) (st : PersistentState) : Disk := MkDisk (Some st) (disk_snapshot d).
Definition save_snapshot (d : Disk) (s : Snapshot) : Disk := MkDisk (disk_state d) (Some s).

Definition load_state (d : Disk) : result load_error PersistentState :=
  match disk_state d with Some st => Ok st | None => Err ErrNoState end.
Definition load_snapshot (d : Disk) : result load_error Snapshot :=
  match disk_snapshot d with Some s => Ok s | None => Err ErrNoSnapshot end.

(** The [Persister] interface; [Env] is what a save meets outside. *)
Class Persister (P Env : Type) := {
  SaveState : P -> Env -> PersistentState -> P * result save_error unit;
  LoadState : P -> result load_error PersistentState;
  SaveSnapshot : P -> Env -> Snapshot -> P * result save_error unit;
  LoadSnapshot : P -> result load_error Snapshot;
  represents : P -> Disk -> Prop }.

(** A successful save replaces exactly what it saves, a failed one nothing,
    and loading returns what was saved last. *)
Class PersisterLaws (P Env : Type) `{Persister P Env} := {
  SaveState_law p e st p' r d :
    represents p d -> state_ok st -> zlen (with_sum (state_body st)) <= maxStateSize ->
    SaveState p e st = (p', r) ->
    represents p' (match r with Ok _ => save_state d st | Err _ => d end);
  SaveSnapshot_law p e s p' r d :
    represents p d -> snapshot_ok s -> SaveSnapshot p e s = (p', r) ->
    represents p' (match r with Ok _ => save_snapshot d s | Err _ => d end);
  Load_law p d :
    represents p d -> LoadState p = load_state d /\ LoadSnapshot p = load_snapshot d }.

(** ** MemoryPersister *)

Record MemoryPersister := MkMemP {
  mp_state : PersistentState;
  mp_has : bool;
  mp_failNext : bool;
  mp_snapshot : Snapshot;
  mp_hasSnapshot : bool;
  mp_failNextSnapOp : bool }.

Definition NewMemoryPersister : MemoryPersister :=
  MkMemP (MkState 0 [] []) false false (MkSnapshot 0 0 []) false false.

Definition FailNextSave (p : MemoryPersister) : MemoryPersister :=
  MkMemP (mp_state p) (mp_has p) true (mp_snapshot p) (mp_hasSnapshot p) (mp_failNextSnapOp p).
Definition FailNextSnapshotSave (p : MemoryPersister) : MemoryPersister :=
  MkMemP (mp_state p) (mp_has p) (mp_failNext p) (mp_snapshot p) (mp_hasSnapshot p) true.

Definition mp_SaveState (p : MemoryPersister) (st : PersistentState) :
    MemoryPersister * result save_error unit :=
  if mp_failNext p then
    (MkMemP (mp_state p) (mp_has p) false (mp_snapshot p) (mp_hasSnapshot p) (mp_failNextSnapOp p),
     Err ErrSimulated)
  else (MkMemP st true false (mp_snapshot p) (mp_hasSnapshot p) (mp_failNextSnapOp p), Ok tt).

Definition mp_LoadState (p : MemoryPersister) : result load_error PersistentState :=
  if mp_has p then Ok (mp_state p) else Err ErrNoState.

Definition mp_SaveSnapshot (p : MemoryPersister) (s : Snapshot) :
    MemoryPersister * result save_error unit :=
  if mp_failNextSnapOp p then
    (MkMemP (mp_state p) (mp_has p) (mp_failNext p) (mp_snapshot p) (mp_hasSnapshot p) false,
     Err ErrSimulated)
  else (MkMemP (mp_state p) (mp_has p) (mp_failNext p) s true false, Ok tt).

Definition mp_LoadSnapshot (p : MemoryPersister) : result load_error Snapshot :=
  if mp_hasSnapshot p then Ok (mp_snapshot p) else Err ErrNoSnapshot.

Definition mp_disk (p : MemoryPersister) : Disk :=
  MkDisk (if mp_has p then Some (mp_state p) else None)
         (if mp_hasSnapshot p then Some (mp_snapshot p) else None).

#[export] Instance MemoryPersister_Persister : Persister MemoryPersister unit := {
  SaveState p _ st := mp_SaveState p st; LoadState := mp_LoadState;
  SaveSnapshot p _ s := mp_SaveSnapshot p s; LoadSnapshot := mp_LoadSnapshot;
  represents p d := mp_disk p = d }.

#[export] Instance MemoryPersister_Laws : PersisterLaws MemoryPersister unit.
Proof.
  split.
  - intros p e st p' r d <- _ _. simpl. unfold mp_SaveState, mp_disk.
    by destruct (mp_failNext p); intros [= <- <-].
  - intros p e s p' r d <- _. simpl. unfold mp_SaveSnapshot, mp_disk.
    by destruct (mp_failNextSnapOp p); intros [= <- <-].
  - intros p d <-. simpl. unfold mp_LoadState, mp_LoadSnapshot, load_state, load_snapshot, mp_disk. cbn.
    by destruct (mp_has p), (mp_hasSnapshot p).
Qed.

(** ** FilePersister: the state file and the snapshot file *)

Record FilePersister := MkFileP {
  fp_path : file;
  fp_snapshotPath : file }.

Definition fp_SaveState (p : FilePersister) (e : file_env) (st : PersistentState) :
    FilePersister * result save_error unit :=
  match encodeState st with
  | Err err => (p, Err (ErrEncode err))
  | Ok data =>
      match Write (fp_path p) (fe_fault e) (fe_dir_synced e) data with
      | (f, Ok _) => (MkFileP f (fp_snapshotPath p), Ok tt)
      | (f, Err _) => (MkFileP f (fp_snapshotPath p), Err ErrWrite)
      end
  end.

(** Reading the file; [Panic] would be a crash of the decoder. *)
Definition fp_LoadState (p : FilePersister) : result load_error PersistentState :=
  match f_target (fp_path p) with
  | None => Err ErrNoState
  | Some data => match decodeState data with Done st => Ok st | _ => Err ErrCorrupt end
  end.

Definition fp_SaveSnapshot (p : FilePersister) (e : file_env) (s : Snapshot) :
    FilePersister * result save_error unit :=
  match encodeSnapshot s with
  | Err err => (p, Err (ErrEncode err))
  | Ok data =>
      match Write (fp_snapshotPath p) (fe_fault e) (fe_dir_synced e) data with
      | (f, Ok _) => (MkFileP (fp_path p) f, Ok tt)
      | (f, Err _) => (MkFileP (fp_path p) f, Err ErrWrite)
      end
  end.

Definition fp_LoadSnapshot (p : FilePersister) : result load_error Snapshot :=
  match f_target (fp_snapshotPath p) with
  | None => Err ErrNoSnapshot
  | Some data => match decodeSnapshot data with Done s => Ok s | _ => Err ErrCorrupt end
  end.

(** The files hold the encodings of what is on the abstract disk. *)
Definition holds_state (f : file) (o : option PersistentState) : Prop :=
  match o with
  | None => f_target f = None
  | Some st => exists b, f_target f = Some b /\ decodeState b = Done st
  end.
Definition holds_snapshot (f : file) (o : option Snapshot) : Prop :=
  match o with
  | None => f_target f = None
  | Some s => exists b, f_target f = Some b /\ decodeSnapshot b = Done s
  end.

#[export] Instance FilePersister_Persister : Persister FilePersister file_env := {
  SaveState := fp_SaveState; LoadState := fp_LoadState;
  SaveSnapshot := fp_SaveSnapshot; LoadSnapshot := fp_LoadSnapshot;
  represents p d := holds_state (fp_path p) (disk_state d) /\
                    holds_snapshot (fp_snapshotPath p) (disk_snapshot d) }.

#[export] Instance FilePersister_Laws : PersisterLaws FilePersister file_env.
Proof.
  split.
  - intros p e st p' r d [Hst Hsn] Hok Hlen. simpl. unfold fp_SaveState.
    destruct (decode_encode_state st Hok) as (b & Eb & Hdec). rewrite Eb.
    destruct (Write _ _ _ b) as [f [[]|err]] eqn:Ew; apply Write_outcome in Ew; intros [= <- <-]; cbn.
    + split; [|done]. exists b. apply encodeState_ok in Eb as (_ & _ & _ & ->). split; [by destruct Ew|auto].
    + split; [|done]. unfold holds_state in *. destruct Ew as [-> _]. done.
  - intros p e s p' r d [Hst Hsn] Hok. simpl. unfold fp_SaveSnapshot.
    destruct (decode_encode_raft_snapshot s Hok) as (b & Eb & Hdec). rewrite Eb.
    destruct (Write _ _ _ b) as [f [[]|err]] eqn:Ew; apply Write_outcome in Ew; intros [= <- <-]; cbn.
    + split; [done|]. exists b. by destruct Ew.
    + split; [done|]. unfold holds_snapshot in *. destruct Ew as [-> _]. done.
  - intros p d [Hst Hsn]. simpl. unfold fp_LoadState, fp_LoadSnapshot, load_state, load_snapshot.
    unfold holds_state, holds_snapshot in *. split.
    + destruct (disk_state d); [destruct Hst as (b & -> & ->)|rewrite Hst]; done.
    + destruct (disk_snapshot d); [destruct Hsn as (b & -> & ->)|rewrite Hsn]; done.
Qed.

(** ** A sequence of saves, on any persister *)

Inductive save_op := OpState (st : PersistentState) | OpSnapshot (s : Snapshot).

Definition op_ok (o : save_op) : Prop :=
  match o with
  | OpState st => state_ok st /\ zlen (with_sum (state_body st)) <= maxStateSize
  | OpSnapshot s => snapshot_ok s
  end.

Definition do_save {P Env} `{Persister P Env} (p : P) (e : Env) (o : save_op) : P * result save_error unit :=
  match o with OpState st => SaveState p e st | OpSnapshot s => SaveSnapshot p e s end.

(** ** What the two persisters' own calls leave behind *)

(** What the last successful save of each kind wrote. *)
Definition last_state (done : list (save_op * result save_error unit)) : option PersistentState :=
  last (omap (fun '(o, r) => match o, r with OpState st, Ok _ => Some st | _, _ => None end) done).
Definition last_snapshot (done : list (save_op * result save_error unit)) : option Snapshot :=
  last (omap (fun '(o, r) => match o, r with OpSnapshot s, Ok _ => Some s | _, _ => None end) done).

(** Calls on the files, in a directory that starts out empty, each with
    what the file system does to it. *)
Definition no_files : FilePersister := MkFileP (MkFile None None None) (MkFile None None None).

Fixpoint fp_calls (p : FilePersister) (ops : list (file_env * save_op)) :
    FilePersister * list (save_op * result save_error unit) :=
  match ops with
  | [] => (p, [])
  | (e, o) :: ops =>
      let '(p, r) := match o with
                     | OpState st => fp_SaveState p e st
                     | OpSnapshot s => fp_SaveSnapshot p e s
                     end in
      let '(p, rs) := fp_calls p ops in (p, (o, r) :: rs)
  end.

(** The machine stops: each path is left with what is on stable storage. *)
Definition fp_crash (p : FilePersister) : FilePersister :=
  let after f := MkFile (f_stable f) (f_stable f) (f_tmp f) in
  MkFileP (after (fp_path p)) (after (fp_snapshotPath p)).

(** Calls on a memory persister, the tests' injected failures included. *)
Inductive mp_call := MpSave (o : save_op) | MpFailNextSave | MpFailNextSnapshotSave.

Fixpoint mp_calls (p : MemoryPersister) (cs : list mp_call) :
    MemoryPersister * list (save_op * result save_error unit) :=
  match cs with
  | [] => (p, [])
  | MpFailNextSave :: cs => mp_calls (FailNextSave p) cs
  | MpFailNextSnapshotSave :: cs => mp_calls (FailNextSnapshotSave p) cs
  | MpSave o :: cs =>
      let '(p, r) := match o with
                     | OpState st => mp_SaveState p st
                     | OpSnapshot s => mp_SaveSnapshot p s
                     end in
      let '(p, rs) := mp_calls p cs in (p, (o, r) :: rs)
  end.

Definition newer {A} (new old : option A) : option A := match new with Some _ => new | None => old end.

Lemma last_newer {A} (x : A) (l : list A) o : newer (last (x :: l)) o = newer (last l) (Some x).
Proof. destruct l as [|y l]; [done|]. rewrite last_cons_cons. by destruct (last (y :: l)) eqn:E; [|apply last_None in E]. Qed.

(** The disk after some calls, from a disk before them. *)
Definition disk_after (d : Disk) (done : list (save_op * result save_error unit)) : Disk :=
  MkDisk (newer (last_state done) (disk_state d)) (newer (last_snapshot done) (disk_snapshot d)).

Lemma disk_after_cons d o r done :
  disk_after d ((o, r) :: done) =
  disk_after (match r with
              | Ok _ => match o with OpState st => save_state d st | OpSnapshot s => save_snapshot d s end
              | Err _ => d
              end) done.
Proof.
  unfold disk_after, last_state, last_snapshot. destruct o, r as [[]|]; cbn [omap list_omap]; try done;
    by rewrite last_newer.
Qed.

Lemma fp_SaveState_ok p e st :
  op_ok (OpState st) -> (fp_SaveState p e st).2 = Ok tt <-> fe_fault e = None.
Proof.
  intros [Hok _]. unfold fp_SaveState. destruct (decode_encode_state st Hok) as (b & -> & _).
  unfold Write. by destruct (fe_fault e) as [[]|].
Qed.

Lemma fp_SaveSnapshot_ok p e s :
  op_ok (OpSnapshot s) -> (fp_SaveSnapshot p e s).2 = Ok tt <-> fe_fault e = None.
Proof.
  intros Hok. unfold fp_SaveSnapshot. destruct (decode_encode_raft_snapshot s Hok) as (b & -> & _).
  unfold Write. by destruct (fe_fault e) as [[]|].
Qed.

(** Everything that was saved is on stable storage. *)
Definition settled (p : FilePersister) : Prop :=
  f_stable (fp_path p) = f_target (fp_path p) /\
  f_stable (fp_snapshotPath p) = f_target (fp_snapshotPath p).

Lemma Write_settled f fault data :
  f_stable f = f_target f -> f_stable (Write f fault true data).1 = f_target (Write f fault true data).1.
Proof. intros H. unfold Write. by destruct fault as [[]|]. Qed.

Lemma fp_save_settled p e o :
  settled p -> fe_dir_synced e = true ->
  settled (match o with OpState st => fp_SaveState p e st | OpSnapshot s => fp_SaveSnapshot p e s end).1.
Proof.
  intros [H1 H2] He. destruct o as [st|s]; unfold fp_SaveState, fp_SaveSnapshot; rewrite He.
  - destruct (encodeState st) as [b|]; [|done]. pose proof (Write_settled _ (fe_fault e) b H1).
    by destruct (Write _ _ _ _) as [f []].
  - destruct (encodeSnapshot s) as [b|]; [|done]. pose proof (Write_settled _ (fe_fault e) b H2).
    by destruct (Write _ _ _ _) as [f []].
Qed.

Lemma fp_calls_spec p d ops :
  represents p d -> Forall (fun eo => op_ok eo.2) ops ->
  represents (fp_calls p ops).1 (disk_after d (fp_calls p ops).2) /\
  Forall2 (fun eo x => x.1 = eo.2 /\ (x.2 = Ok tt <-> fe_fault eo.1 = None)) ops (fp_calls p ops).2 /\
  (settled p -> Forall (fun eo => fe_dir_synced eo.1 = true) ops -> settled (fp_calls p ops).1).
Proof.
  intros Hp Ho. revert p d Hp. induction Ho as [|[e o] ops Hop _ IH]; intros p d Hp; cbn [fp_calls].
  { split; [by destruct d|]. split; [constructor|done]. }
  pose proof (fp_save_settled p e o) as Hset.
  destruct o as [st|s]; cbn in Hop.
  - pose proof (fp_SaveState_ok p e st Hop) as Hr. destruct (fp_SaveState p e st) as [p1 r] eqn:E.
    pose proof (SaveState_law _ _ _ _ _ _ Hp (proj1 Hop) (proj2 Hop) E) as Hp1.
    destruct (IH _ _ Hp1) as (H1 & H2 & H3). destruct (fp_calls p1 ops) as [p2 rs]. cbn [fst snd] in *.
    rewrite disk_after_cons. split; [done|]. split; [by constructor|].
    intros Hs Hd. apply Forall_cons in Hd as [? ?]. auto.
  - pose proof (fp_SaveSnapshot_ok p e s Hop) as Hr. destruct (fp_SaveSnapshot p e s) as [p1 r] eqn:E.
    pose proof (SaveSnapshot_law _ _ _ _ _ _ Hp Hop E) as Hp1.
    destruct (IH _ _ Hp1) as (H1 & H2 & H3). destruct (fp_calls p1 ops) as [p2 rs]. cbn [fst snd] in *.
    rewrite disk_after_cons. split; [done|]. split; [by constructor|].
    intros Hs Hd. apply Forall_cons in Hd as [? ?]. auto.
Qed.

Lemma mp_calls_spec p cs :
  mp_disk (mp_calls p cs).1 = disk_after (mp_disk p) (mp_calls p cs).2 /\
  (mp_failNext p = false -> mp_failNextSnapOp p = false -> MpFailNextSave ∉ cs -> MpFailNextSnapshotSave ∉ cs ->
   Forall (fun x => x.2 = Ok tt) (mp_calls p cs).2).
Proof.
  revert p. induction cs as [|c cs IH]; intros p; cbn [mp_calls].
  { split; [done|constructor]. }
  destruct c as [o| |].
  - destruct o as [st|s]; unfold mp_SaveState, mp_SaveSnapshot.
    + destruct (mp_failNext p) eqn:Ef; match goal with |- context [mp_calls ?q cs] => specialize (IH q) end;
        destruct (mp_calls _ cs) as [p2 rs]; cbn [fst snd] in *; rewrite disk_after_cons; destruct IH as [E H];
        (split; [exact E|]); intros H1 H2 H3 H4; [done|]. constructor; [done|]. apply H; set_solver.
    + destruct (mp_failNextSnapOp p) eqn:Ef; match goal with |- context [mp_calls ?q cs] => specialize (IH q) end;
        destruct (mp_calls _ cs) as [p2 rs]; cbn [fst snd] in *; rewrite disk_after_cons; destruct IH as [E H];
        (split; [exact E|]); intros H1 H2 H3 H4; [done|]. constructor; [done|]. apply H; set_solver.
  - destruct (IH (FailNextSave p)) as [E _]. split; [exact E|set_solver].
  - destruct (IH (FailNextSnapshotSave p)) as [E _]. split; [exact E|set_solver].
Qed.

(** C35. What the two persisters hold. Start with an empty directory and
    make any sequence of [SaveState] and [SaveSnapshot] calls on the files,
    each with any failure of the file system: a call succeeds exactly when
    nothing failed, and loading then returns the state and the snapshot of
    the last successful call of each kind, or [ErrNoState] and
    [ErrNoSnapshot] when there was none; the same holds after the machine
    stops, if the directory could be synced at every call (the code ignores
    that result). A fresh MemoryPersister does the same over any sequence of
    saves and injected failures, and refuses no save unless a failure was
    injected. The values saved are well-formed, with an encoded state of at
    most [maxStateSize] bytes: SaveState accepts a larger one, which the
    loader then refuses ([oversized_state_unreadable]). *)
Theorem persister_load_after_saves (ops : list (file_env * save_op)) (cs : list mp_call) :
  Forall (fun eo => op_ok eo.2) ops ->
  let '(p, done) := fp_calls no_files ops in
  let '(mp, mdone) := mp_calls NewMemoryPersister cs in
  let state_of done := match last_state done with Some st => Ok st | None => Err ErrNoState end in
  let snapshot_of done := match last_snapshot done with Some s => Ok s | None => Err ErrNoSnapshot end in
  (Forall2 (fun eo x => x.1 = eo.2 /\ (x.2 = Ok tt <-> fe_fault eo.1 = None)) ops done /\
   fp_LoadState p = state_of done /\ fp_LoadSnapshot p = snapshot_of done /\
   (Forall (fun eo => fe_dir_synced eo.1 = true) ops ->
    fp_LoadState (fp_crash p) = state_of done /\ fp_LoadSnapshot (fp_crash p) = snapshot_of done)) /\
  (mp_LoadState mp = state_of mdone /\ mp_LoadSnapshot mp = snapshot_of mdone /\
   (MpFailNextSave ∉ cs -> MpFailNextSnapshotSave ∉ cs -> Forall (fun x => x.2 = Ok tt) mdone)).
Proof.
  intros Ho. destruct (fp_calls_spec no_files empty_disk ops) as (Hp & Hr & Hset); [done|done|].
  destruct (mp_calls_spec NewMemoryPersister cs) as [Hm Hmr].
  destruct (fp_calls no_files ops) as [p done], (mp_calls NewMemoryPersister cs) as [mp mdone].
  cbn [fst snd] in *. destruct (Load_law _ _ Hp) as [E1 E2].
  change (represents mp (disk_after (mp_disk NewMemoryPersister) mdone)) in Hm.
  destruct (Load_law _ _ Hm) as [E3 E4].
  assert (forall l, newer (last_state l) None = last_state l /\ newer (last_snapshot l) None = last_snapshot l) as Hn.
  { intros l. unfold newer. by destruct (last_state l), (last_snapshot l). }
  unfold load_state, load_snapshot, disk_after in E1, E2, E3, E4. cbn in E1, E2, E3, E4.
  rewrite (proj1 (Hn done)) in E1. rewrite (proj2 (Hn done)) in E2.
  rewrite (proj1 (Hn mdone)) in E3. rewrite (proj2 (Hn mdone)) in E4.
  split; [|split_and!; [exact E3|exact E4|by apply Hmr]]. split; [exact Hr|]. split; [exact E1|]. split; [exact E2|].
  intros Hd. destruct (Hset (conj eq_refl eq_refl) Hd) as [S1 S2]. rewrite <- E1, <- E2.
  unfold fp_LoadState, fp_LoadSnapshot. cbn. by rewrite S1, S2.
Qed.

Definition sample_state : PersistentState := MkState 2 [x61] [MkEntry 1 1 [x62]; MkEntry 2 2 []].

Lemma sample_state_ok : op_ok (OpState sample_state).
Proof. split; [|vm_compute; congruence]. split_and!; vm_compute; try done; split_and!; done. Qed.

Example persister_load_after_saves_witness :
  let '(p, done) := fp_calls no_files
    [(MkFileEnv None true, OpState sample_state); (MkFileEnv (Some FailSync) true, OpState (MkState 9 [] []))] in
  fp_LoadState p = Ok sample_state /\ fp_LoadState (fp_crash p) = Ok sample_state.
Proof.
  pose proof (persister_load_after_saves
    [(MkFileEnv None true, OpState sample_state); (MkFileEnv (Some FailSync) true, OpState (MkState 9 [] []))]
    [MpFailNextSave; MpSave (OpState sample_state)]) as H.
  assert ((fp_calls no_files [(MkFileEnv None true, OpState sample_state);
      (MkFileEnv (Some FailSync) true, OpState (MkState 9 [] []))]).2 =
    [(OpState sample_state, Ok tt); (OpState (MkState 9 [] []), Err ErrWrite)]) as Hdone
    by (vm_compute; reflexivity).
  destruct (fp_calls no_files _) as [p done]. cbn in Hdone. subst done.
  destruct H as [(_ & E1 & _ & E2) _].
  - repeat constructor; try apply sample_state_ok; vm_compute; try done; split_and!; done.
  - split; [exact E1|]. apply E2. repeat constructor.
Defined.
