(* ===== verification/RaftNode.v ===== *)
(** * A Raft node

    internal/raft: raft.go, election.go, replication.go, apply.go,
    snapshot.go, read.go and message.go. A [Node] is the source's struct; the
    node's mutex makes every handler one step, so a handler is a function of
    the node, of its message, and of what the step meets outside the program
    ([faults]). RPCs a step starts are returned as a list: each is sent by a
    goroutine of its own, which later runs the reply handler ([on...Reply]).
    Metrics and log lines are left out. *)

From S2P Require Import Prelude Bytes RaftLog RaftFormat RaftPersist.
From stdpp Require Import base tactics list numbers gmap.
From Stdlib Require Import Strings.Byte.
From Stdlib Require Import ZArith Lia.
#[local] Open Scope Z_scope.

(** ** Messages: message.go *)

Record RequestVoteArgs := MkRVA {
  rv_Term : Z; rv_CandidateID : bytes; rv_LastLogIndex : Z; rv_LastLogTerm : Z }.
Record RequestVoteReply := MkRVR { rvr_Term : Z; rvr_VoteGranted : bool }.

Record AppendEntriesArgs := MkAEA {
  ae_Term : Z; ae_LeaderID : bytes; ae_PrevLogIndex : Z; ae_PrevLogTerm : Z;
  ae_Entries : list LogEntry; ae_LeaderCommit : Z }.
Record AppendEntriesReply := MkAER { aer_Term : Z; aer_Success : bool }.

Record InstallSnapshotArgs := MkISA {
  is_Term : Z; is_LeaderID : bytes; is_LastIncludedIndex : Z; is_LastIncludedTerm : Z;
  is_Data : bytes; is_Chunked : bool; is_Offset : Z; is_Final : bool;
  is_TotalSize : Z; is_Checksum : Z }.
Record InstallSnapshotReply := MkISR { isr_Term : Z; isr_Success : bool }.

(** ** The node: raft.go *)

Inductive Role := Follower | Candidate | Leader.
#[export] Instance Role_eq_dec : EqDecision Role.
Proof. solve_decision. Defined.

Record Config := MkConfig {
  c_id : bytes;
  c_peers : list bytes;
  c_electionTickMin : Z;
  c_electionTickMax : Z;
  c_heartbeatTick : Z;
  c_snapshotChunkSize : Z }.

Record inProgressSnapshotTransfer := MkTransfer {
  t_lastIncludedIndex : Z;
  t_lastIncludedTerm : Z;
  t_totalSize : Z;
  t_buf : bytes }.

(** [persister] is what the node's [Persister] holds; the two channels are
    whether a signal is buffered. *)
Record Node := MkNode {
  cfg : Config;
  currentTerm : Z;
  votedFor : bytes;
  log : Log;
  commitIndex : Z;
  lastApplied : Z;
  role : Role;
  leaderID : bytes;
  votesReceived : option (gset bytes);
  nextIndex : gmap bytes Z;
  matchIndex : gmap bytes Z;
  electionElapsed : Z;
  electionTimeout : Z;
  heartbeatElapsed : Z;
  persister : Disk;
  snapshotData : bytes;
  pendingSnapshot : option Snapshot;
  chunkTransfer : option inProgressSnapshotTransfer;
  commitCh : bool;
  appliedCh : bool }.

(** One setter per group of fields the source assigns together. *)
Definition set_term_vote (n : Node) (v0 : Z) (v1 : bytes) : Node :=
  MkNode (cfg n) v0 v1 (log n) (commitIndex n) (lastApplied n) (role n) (leaderID n) (votesReceived n) 
(nextIndex n) (matchIndex n) (electionElapsed n) (electionTimeout n) (heartbeatElapsed n) (persister n) 
(snapshotData n) (pendingSnapshot n) (chunkTransfer n) (commitCh n) (appliedCh n).
Definition set_log (n : Node) (v0 : Log) : Node :=
  MkNode (cfg n) (currentTerm n) (votedFor n) v0 (commitIndex n) (lastApplied n) (role n) (leaderID n) 
(votesReceived n) (nextIndex n) (matchIndex n) (electionElapsed n) (electionTimeout n) (heartbeatElapsed n) 
(persister n) (snapshotData n) (pendingSnapshot n) (chunkTransfer n) (commitCh n) (appliedCh n).
Definition set_commit (n : Node) (v0 : Z) (v1 : bool) : Node :=
  MkNode (cfg n) (currentTerm n) (votedFor n) (log n) v0 (lastApplied n) (role n) (leaderID n) (votesReceived 
n) (nextIndex n) (matchIndex n) (electionElapsed n) (electionTimeout n) (heartbeatElapsed n) (persister n) 
(snapshotData n) (pendingSnapshot n) (chunkTransfer n) v1 (appliedCh n).
Definition set_applied (n : Node) (v0 : Z) (v1 : bool) : Node :=
  MkNode (cfg n) (currentTerm n) (votedFor n) (log n) (commitIndex n) v0 (role n) (leaderID n) (votesReceived 
n) (nextIndex n) (matchIndex n) (electionElapsed n) (electionTimeout n) (heartbeatElapsed n) (persister n) 
(snapshotData n) (pendingSnapshot n) (chunkTransfer n) (commitCh n) v1.
Definition set_role (n : Node) (v0 : Role) (v1 : bytes) (v2 : option (gset bytes)) : Node :=
  MkNode (cfg n) (currentTerm n) (votedFor n) (log n) (commitIndex n) (lastApplied n) v0 v1 v2 (nextIndex n) 
(matchIndex n) (electionElapsed n) (electionTimeout n) (heartbeatElapsed n) (persister n) (snapshotData n) 
(pendingSnapshot n) (chunkTransfer n) (commitCh n) (appliedCh n).
Definition set_progress (n : Node) (v0 : gmap bytes Z) (v1 : gmap bytes Z) : Node :=
  MkNode (cfg n) (currentTerm n) (votedFor n) (log n) (commitIndex n) (lastApplied n) (role n) (leaderID n) 
(votesReceived n) v0 v1 (electionElapsed n) (electionTimeout n) (heartbeatElapsed n) (persister n) 
(snapshotData n) (pendingSnapshot n) (chunkTransfer n) (commitCh n) (appliedCh n).
Definition set_election (n : Node) (v0 : Z) (v1 : Z) : Node :=
  MkNode (cfg n) (currentTerm n) (votedFor n) (log n) (commitIndex n) (lastApplied n) (role n) (leaderID n) 
(votesReceived n) (nextIndex n) (matchIndex n) v0 v1 (heartbeatElapsed n) (persister n) (snapshotData n) 
(pendingSnapshot n) (chunkTransfer n) (commitCh n) (appliedCh n).
Definition set_heartbeat (n : Node) (v0 : Z) : Node :=
  MkNode (cfg n) (currentTerm n) (votedFor n) (log n) (commitIndex n) (lastApplied n) (role n) (leaderID n) 
(votesReceived n) (nextIndex n) (matchIndex n) (electionElapsed n) (electionTimeout n) v0 (persister n) 
(snapshotData n) (pendingSnapshot n) (chunkTransfer n) (commitCh n) (appliedCh n).
Definition set_persister (n : Node) (v0 : Disk) : Node :=
  MkNode (cfg n) (currentTerm n) (votedFor n) (log n) (commitIndex n) (lastApplied n) (role n) (leaderID n) 
(votesReceived n) (nextIndex n) (matchIndex n) (electionElapsed n) (electionTimeout n) (heartbeatElapsed n) 
v0 (snapshotData n) (pendingSnapshot n) (chunkTransfer n) (commitCh n) (appliedCh n).
Definition set_snapshot (n : Node) (v0 : bytes) (v1 : option Snapshot) : Node :=
  MkNode (cfg n) (currentTerm n) (votedFor n) (log n) (commitIndex n) (lastApplied n) (role n) (leaderID n) 
(votesReceived n) (nextIndex n) (matchIndex n) (electionElapsed n) (electionTimeout n) (heartbeatElapsed n) 
(persister n) v0 v1 (chunkTransfer n) (commitCh n) (appliedCh n).
Definition set_transfer (n : Node) (v0 : option inProgressSnapshotTransfer) : Node :=
  MkNode (cfg n) (currentTerm n) (votedFor n) (log n) (commitIndex n) (lastApplied n) (role n) (leaderID n) 
(votesReceived n) (nextIndex n) (matchIndex n) (electionElapsed n) (electionTimeout n) (heartbeatElapsed n) 
(persister n) (snapshotData n) (pendingSnapshot n) v0 (commitCh n) (appliedCh n).


Definition id (n : Node) : bytes := c_id (cfg n).
Definition peers (n : Node) : list bytes := c_peers (cfg n).

(** What a step meets: whether the save of a new term, the handler's own
    save and the save of a snapshot fail, and the results of [rnd.Intn]. *)
Record faults := MkFaults {
  fail_term : bool;
  fail_state : bool;
  fail_snapshot : bool;
  rnd_term : Z;
  rnd : Z }.

(** An RPC whose goroutine was started. *)
Inductive Rpc :=
| RpcRequestVote (peer : bytes) (args : RequestVoteArgs)
| RpcAppendEntries (peer : bytes) (args : AppendEntriesArgs)
| RpcInstallSnapshot (peer : bytes) (term : Z) (snap : Snapshot).

Definition majority (n : Node) : Z := (zlen (peers n) + 1) / 2 + 1.

Definition persistent (n : Node) : PersistentState :=
  MkState (currentTerm n) (votedFor n) (tail (log n)).

(** [persistLocked]; [None] when the save fails. *)
Definition persistLocked (n : Node) (fails : bool) : option Node :=
  if fails then None else Some (set_persister n (save_state (persister n) (persistent n))).

Definition resetElectionTimerLocked (n : Node) (r : Z) : Node :=
  let spread := c_electionTickMax (cfg n) - c_electionTickMin (cfg n) in
  set_election n 0 (if spread <=? 0 then c_electionTickMin (cfg n) else c_electionTickMin (cfg n) + r).

(** [becomeFollowerLocked]; [None] when the save fails, which leaves the
    node as it was. *)
Definition becomeFollowerLocked (n : Node) (f : faults) (term : Z) : option Node :=
  match persistLocked (set_term_vote n term []) (fail_term f) with
  | None => None
  | Some n => Some (resetElectionTimerLocked (set_role n Follower [] None) (rnd_term f))
  end.

(** ** Replication, leader side: replication.go *)

Definition notifyCommit (n : Node) (index : Z) : Node := set_commit n index true.

Definition match_of (n : Node) (p : bytes) : Z := default 0 (matchIndex n !! p).
Definition next_of (n : Node) (p : bytes) : Z := default 0 (nextIndex n !! p).

(** How many nodes, the leader included, hold the log up to [N]. *)
Definition replicated_count (n : Node) (N : Z) : Z :=
  1 + zlen (filter (fun p => match_of n p >= N) (peers n)).

(** The loop of [maybeAdvanceCommitIndexLocked], from [N] down. *)
Fixpoint advance_loop (fuel : nat) (n : Node) (N : Z) : option Z :=
  match fuel with
  | O => None
  | S fuel =>
      if N <=? commitIndex n then None
      else if bool_decide (TermAt (log n) N = Some (currentTerm n))
              && (replicated_count n N >=? majority n)
      then Some N
      else advance_loop fuel n (N - 1)
  end.

(** The loop runs from [LastIndex] to [commitIndex], so their distance is
    enough fuel. *)
Definition maybeAdvanceCommitIndexLocked (n : Node) : Node :=
  match advance_loop (Z.to_nat (LastIndex (log n) - commitIndex n)) n (LastIndex (log n)) with
  | Some N => notifyCommit n N
  | None => n
  end.

Definition append_args (n : Node) (p : bytes) : AppendEntriesArgs :=
  let prevIndex := u64 (next_of n p - 1) in
  MkAEA (currentTerm n) (id n) prevIndex (default 0 (TermAt (log n) prevIndex))
        (Slice (log n) (u64 (prevIndex + 1))) (commitIndex n).

Definition rpc_for (n : Node) (p : bytes) : Rpc :=
  if next_of n p <=? base (log n) then
    RpcInstallSnapshot p (currentTerm n)
      (MkSnapshot (base (log n)) (e_Term (log n !!! 0%nat)) (snapshotData n))
  else RpcAppendEntries p (append_args n p).

Definition broadcastAppendEntriesLocked (n : Node) : Node * list Rpc :=
  (maybeAdvanceCommitIndexLocked n, rpc_for n <$> peers n).

(** [sendAppendEntries] from the reply on; the boolean is its result. *)
Definition onAppendEntriesReply (n : Node) (f : faults) (peer : bytes) (term : Z)
    (args : AppendEntriesArgs) (reply : AppendEntriesReply) : Node * bool :=
  if aer_Term reply >? currentTerm n then
    (default n (becomeFollowerLocked n f (aer_Term reply)), false)
  else if negb (bool_decide (role n = Leader)) || negb (currentTerm n =? term) then (n, false)
  else if aer_Success reply then
    let newMatch := u64 (ae_PrevLogIndex args + zlen (ae_Entries args)) in
    let m := if newMatch >? match_of n peer then <[peer := newMatch]> (matchIndex n) else matchIndex n in
    let x := if u64 (newMatch + 1) >? next_of n peer then <[peer := u64 (newMatch + 1)]> (nextIndex n)
             else nextIndex n in
    (maybeAdvanceCommitIndexLocked (set_progress n x m), true)
  else
    ((if next_of n peer >? 1 then set_progress n (<[peer := next_of n peer - 1]> (nextIndex n)) (matchIndex n)
      else n), true).

(** ** Elections: election.go *)

Definition becomeLeaderLocked (n : Node) : Node * list Rpc :=
  let n := set_role n Leader (id n) None in
  let next := u64 (LastIndex (log n) + 1) in
  let n := set_progress n (list_to_map ((fun p => (p, next)) <$> peers n))
                          (list_to_map ((fun p => (p, 0)) <$> peers n)) in
  broadcastAppendEntriesLocked (set_heartbeat n 0).

Definition startElectionLocked (n : Node) (f : faults) : Node * list Rpc :=
  match persistLocked (set_term_vote n (u64 (currentTerm n + 1)) (id n)) (fail_state f) with
  | None => (n, [])
  | Some n =>
      let n := set_role n Candidate (leaderID n) (Some {[id n]}) in
      let n := resetElectionTimerLocked n (rnd f) in
      if 1 >=? majority n then becomeLeaderLocked n
      else (n, (fun p => RpcRequestVote p (MkRVA (currentTerm n) (id n) (LastIndex (log n)) (LastTerm (log n))))
               <$> peers n)
  end.

(** [sendRequestVote] from the reply on. Writing to a nil map panics, which
    [None] stands for. *)
Definition onRequestVoteReply (n : Node) (f : faults) (peer : bytes) (term : Z)
    (reply : RequestVoteReply) : option (Node * list Rpc) :=
  if rvr_Term reply >? currentTerm n then
    Some (default n (becomeFollowerLocked n f (rvr_Term reply)), [])
  else if negb (bool_decide (role n = Candidate)) || negb (currentTerm n =? term) then Some (n, [])
  else if negb (rvr_VoteGranted reply) then Some (n, [])
  else match votesReceived n with
       | None => None
       | Some votes =>
           let votes := votes ∪ {[peer]} in
           let n := set_role n (role n) (leaderID n) (Some votes) in
           if Z.of_nat (size votes) >=? majority n then Some (becomeLeaderLocked n) else Some (n, [])
       end.

Definition HandleRequestVote (n : Node) (f : faults) (args : RequestVoteArgs) : Node * RequestVoteReply :=
  let deny n := (n, MkRVR (currentTerm n) false) in
  match (if rv_Term args >? currentTerm n then becomeFollowerLocked n f (rv_Term args) else Some n) with
  | None => deny n
  | Some n =>
      if rv_Term args <? currentTerm n then deny n
      else
        let canVote := bool_decide (votedFor n = []) || bool_decide (votedFor n = rv_CandidateID args) in
        let upToDate := logIsUpToDate (rv_LastLogIndex args) (rv_LastLogTerm args)
                                      (LastIndex (log n)) (LastTerm (log n)) in
        if negb canVote || negb upToDate then deny n
        else match persistLocked (set_term_vote n (currentTerm n) (rv_CandidateID args)) (fail_state f) with
             | None => deny n
             | Some n => let n := resetElectionTimerLocked n (rnd f) in (n, MkRVR (currentTerm n) true)
             end
  end.

(** ** Replication, follower side *)

Definition HandleAppendEntries (n : Node) (f : faults) (args : AppendEntriesArgs) : Node * AppendEntriesReply :=
  let fail n := (n, MkAER (currentTerm n) false) in
  match (if ae_Term args >? currentTerm n then becomeFollowerLocked n f (ae_Term args) else Some n) with
  | None => fail n
  | Some n =>
      if ae_Term args <? currentTerm n then fail n
      else
        let n := set_role n Follower (ae_LeaderID args) (votesReceived n) in
        let n := resetElectionTimerLocked n (rnd f) in
        if negb (bool_decide (TermAt (log n) (ae_PrevLogIndex args) = Some (ae_PrevLogTerm args))) then fail n
        else
          let '(l, changed) := AppendAfter (log n) (ae_PrevLogIndex args) (ae_Entries args) in
          match (if changed then persistLocked (set_log n l) (fail_state f) else Some n) with
          | None => fail n
          | Some n =>
              let lastNew := u64 (ae_PrevLogIndex args + zlen (ae_Entries args)) in
              let newCommit := if lastNew <? ae_LeaderCommit args then lastNew else ae_LeaderCommit args in
              let n := if (ae_LeaderCommit args >? commitIndex n) && (newCommit >? commitIndex n)
                       then notifyCommit n newCommit else n in
              (n, MkAER (currentTerm n) true)
          end
  end.

Inductive raft_error := ErrNotLeader | ErrPersist | ErrBadIndex | ErrInvalidSnapshotIndex
| ErrReadBarrierUnavailable | ErrLoad (e : load_error).

Definition Propose (n : Node) (f : faults) (command : bytes) :
    Node * list Rpc * result raft_error (Z * Z) :=
  if negb (bool_decide (role n = Leader)) then (n, [], Err ErrNotLeader)
  else
    let '(l, index) := log_Append (log n) (MkEntry 0 (currentTerm n) command) in
    let term := currentTerm n in
    match persistLocked (set_log n l) (fail_state f) with
    | None => (n, [], Err ErrPersist)
    | Some n => let '(n, rpcs) := broadcastAppendEntriesLocked n in (n, rpcs, Ok (index, term))
    end.

Definition CommittedEntries (n : Node) (from : Z) : list LogEntry :=
  let from := if from =? 0 then 1 else from in
  if from >? commitIndex n then [] else Range (log n) from (commitIndex n).

Definition Tick (n : Node) (f : faults) : Node * list Rpc :=
  match role n with
  | Leader =>
      let n := set_heartbeat n (heartbeatElapsed n + 1) in
      if heartbeatElapsed n >=? c_heartbeatTick (cfg n)
      then broadcastAppendEntriesLocked (set_heartbeat n 0) else (n, [])
  | _ =>
      let n := set_election n (electionElapsed n + 1) (electionTimeout n) in
      if electionElapsed n >=? electionTimeout n then startElectionLocked n f else (n, [])
  end.

(** ** Application: apply.go *)

Definition MarkApplied (n : Node) (index : Z) : Node * result raft_error unit :=
  if index <=? lastApplied n then (n, Err ErrBadIndex)
  else if index >? commitIndex n then (n, Err ErrBadIndex)
  else (set_applied n index true, Ok tt).

(** ** Snapshots: snapshot.go *)

Definition CreateSnapshot (n : Node) (f : faults) (index : Z) (data : bytes) : Node * result raft_error unit :=
  if index =? 0 then (n, Err ErrInvalidSnapshotIndex)
  else if index <=? base (log n) then (n, Err ErrInvalidSnapshotIndex)
  else if index >? lastApplied n then (n, Err ErrInvalidSnapshotIndex)
  else if index >? commitIndex n then (n, Err ErrInvalidSnapshotIndex)
  else match TermAt (log n) index with
       | None => (n, Err ErrInvalidSnapshotIndex)
       | Some term =>
           if fail_snapshot f then (n, Err ErrPersist)
           else
             let n := set_persister n (save_snapshot (persister n) (MkSnapshot index term data)) in
             match compact (log n) index with
             | None => (n, Err ErrInvalidSnapshotIndex)
             | Some l =>
                 match persistLocked (set_log n l) (fail_state f) with
                 | None => (n, Err ErrPersist)
                 | Some n => (set_snapshot n data (pendingSnapshot n), Ok tt)
                 end
             end
       end.

Definition ConfirmSnapshotRestored (n : Node) (lastIncludedIndex : Z) : Node * result raft_error unit :=
  match pendingSnapshot n with
  | None => (n, Err ErrInvalidSnapshotIndex)
  | Some s =>
      if negb (LastIncludedIndex s =? lastIncludedIndex) then (n, Err ErrInvalidSnapshotIndex)
      else if lastIncludedIndex >? commitIndex n then (n, Err ErrBadIndex)
      else
        let n := if lastIncludedIndex >? lastApplied n then set_applied n lastIncludedIndex true else n in
        (set_snapshot n (snapshotData n) None, Ok tt)
  end.

(** [receiveSnapshotChunkLocked]: the transfer it leaves and its three
    results, as [None] for [ok = false] and [Some data] for the data so far
    complete or not. *)
Inductive chunk_result := ChunkRejected | ChunkAccepted | ChunkComplete (data : bytes).

Definition receiveSnapshotChunkLocked (cur : option inProgressSnapshotTransfer) (args : InstallSnapshotArgs) :
    option inProgressSnapshotTransfer * chunk_result :=
  if is_TotalSize args >? maxSnapshotDataSize then (cur, ChunkRejected)
  else
    let transfer :=
      if is_Offset args =? 0 then
        Some (MkTransfer (is_LastIncludedIndex args) (is_LastIncludedTerm args) (is_TotalSize args) [])
      else match cur with
           | None => None
           | Some t =>
               if negb (t_lastIncludedIndex t =? is_LastIncludedIndex args)
                  || negb (t_lastIncludedTerm t =? is_LastIncludedTerm args)
                  || negb (t_totalSize t =? is_TotalSize args)
                  || negb (zlen (t_buf t) =? is_Offset args)
               then None else Some t
           end in
    match transfer with
    | None => (None, ChunkRejected)
    | Some t =>
        if negb (checksum (is_Data args) =? is_Checksum args) then (None, ChunkRejected)
        else if u64 (zlen (t_buf t) + zlen (is_Data args)) >? t_totalSize t then (None, ChunkRejected)
        else
          let buf := t_buf t ++ is_Data args in
          let t := MkTransfer (t_lastIncludedIndex t) (t_lastIncludedTerm t) (t_totalSize t) buf in
          if negb (is_Final args) then (Some t, ChunkAccepted)
          else if negb (zlen buf =? t_totalSize t) then (None, ChunkRejected)
          else (Some t, ChunkComplete buf)
    end.

(** From the decision to install [data] on. *)
Definition installSnapshot (n : Node) (f : faults) (index term : Z) (data : bytes) :
    Node * InstallSnapshotReply :=
  let fail n := (set_transfer n None, MkISR (currentTerm n) false) in
  if fail_snapshot f then fail n
  else
    let n := set_persister n (save_snapshot (persister n) (MkSnapshot index term data)) in
    match persistLocked (set_log n (installSnapshotBoundary (log n) index term)) (fail_state f) with
    | None => fail n
    | Some n =>
        let n := set_snapshot n data (Some (MkSnapshot index term data)) in
        let n := set_transfer n None in
        let n := if index >? commitIndex n then notifyCommit n index else n in
        (n, MkISR (currentTerm n) true)
    end.

Definition HandleInstallSnapshot (n : Node) (f : faults) (args : InstallSnapshotArgs) :
    Node * InstallSnapshotReply :=
  match (if is_Term args >? currentTerm n then becomeFollowerLocked n f (is_Term args) else Some n) with
  | None => (n, MkISR (currentTerm n) false)
  | Some n =>
      if is_Term args <? currentTerm n then (n, MkISR (currentTerm n) false)
      else
        let n := set_role n Follower (is_LeaderID args) (votesReceived n) in
        let n := resetElectionTimerLocked n (rnd f) in
        if is_LastIncludedIndex args <=? base (log n) then
          let n := match chunkTransfer n with
                   | Some t => if is_LastIncludedIndex args >=? t_lastIncludedIndex t
                               then set_transfer n None else n
                   | None => n
                   end in
          (n, MkISR (currentTerm n) true)
        else if is_Chunked args then
          match receiveSnapshotChunkLocked (chunkTransfer n) args with
          | (t, ChunkRejected) => (set_transfer n t, MkISR (currentTerm n) false)
          | (t, ChunkAccepted) => (set_transfer n t, MkISR (currentTerm n) true)
          | (t, ChunkComplete data) =>
              installSnapshot (set_transfer n t) f (is_LastIncludedIndex args) (is_LastIncludedTerm args) data
          end
        else
          installSnapshot (set_transfer n None) f (is_LastIncludedIndex args) (is_LastIncludedTerm args)
            (is_Data args)
  end.

(** One iteration of [sendInstallSnapshot]'s loop: the chunk at [offset] and
    where the next one starts. *)
Definition snapshot_chunk (n : Node) (term : Z) (snap : Snapshot) (offset : Z) : InstallSnapshotArgs :=
  let total := zlen (SnapshotData snap) in
  let stop := u64 (offset + c_snapshotChunkSize (cfg n)) in
  let stop := if stop >? total then total else stop in
  let chunk := slice (Z.to_nat offset) (Z.to_nat stop) (SnapshotData snap) in
  MkISA term (id n) (LastIncludedIndex snap) (LastIncludedTerm snap) chunk true offset (stop =? total)
        total (checksum chunk).

(** The reply to a chunk; the boolean is whether the next one is sent. *)
Definition onInstallSnapshotReply (n : Node) (f : faults) (peer : bytes) (term : Z) (snap : Snapshot)
    (final : bool) (reply : InstallSnapshotReply) : Node * bool :=
  if isr_Term reply >? currentTerm n then
    (default n (becomeFollowerLocked n f (isr_Term reply)), false)
  else if negb (bool_decide (role n = Leader)) || negb (currentTerm n =? term) then (n, false)
  else if negb (isr_Success reply) then (n, false)
  else if final then
    let index := LastIncludedIndex snap in
    let m := if index >? match_of n peer then <[peer := index]> (matchIndex n) else matchIndex n in
    let x := if u64 (index + 1) >? next_of n peer then <[peer := u64 (index + 1)]> (nextIndex n)
             else nextIndex n in
    (maybeAdvanceCommitIndexLocked (set_progress n x m), false)
  else (n, true).

(** ** Linearizable reads: read.go *)

Record pendingRead := MkRead {
  pr_term : Z;
  pr_index : Z;
  pr_majority : Z;
  pr_calls : list (bytes * AppendEntriesArgs) }.

(** [ReadIndex] up to the RPCs. *)
Definition ReadIndex_begin (n : Node) : result raft_error pendingRead :=
  if negb (bool_decide (role n = Leader)) then Err ErrNotLeader
  else Ok (MkRead (currentTerm n) (commitIndex n) (majority n)
             ((fun p => (p, append_args n p)) <$> filter (fun p => base (log n) < next_of n p) (peers n))).

(** [ReadIndex] once every RPC has returned, [acked] counting the leader. *)
Definition ReadIndex_end (n : Node) (r : pendingRead) (acked : Z) : result raft_error Z :=
  if pr_majority r <=? 1 then Ok (pr_index r)
  else if negb (bool_decide (role n = Leader) && (currentTerm n =? pr_term r)) || (acked <? pr_majority r)
  then Err ErrReadBarrierUnavailable
  else Ok (pr_index r).

(** ** Starting: [NewNode] *)

(** Loading the state and the snapshot: any error but "none saved" is
    returned. *)
Definition load_disk {P Env} `{Persister P Env} (p : P) : result raft_error Disk :=
  match LoadState p with
  | Err ErrNoState =>
      match LoadSnapshot p with
      | Err ErrNoSnapshot => Ok (MkDisk None None)
      | Err e => Err (ErrLoad e)
      | Ok s => Ok (MkDisk None (Some s))
      end
  | Err e => Err (ErrLoad e)
  | Ok st =>
      match LoadSnapshot p with
      | Err ErrNoSnapshot => Ok (MkDisk (Some st) None)
      | Err e => Err (ErrLoad e)
      | Ok s => Ok (MkDisk (Some st) (Some s))
      end
  end.

(** Building the node from what was loaded. *)
Definition newNode (c : Config) (d : Disk) (r : Z) : result raft_error Node :=
  let '(term, vote, entries) :=
    match disk_state d with
    | Some st => (CurrentTerm st, VotedFor st, StateLog st)
    | None => (0, [], [])
    end in
  let make l data pending :=
    Ok (resetElectionTimerLocked
          (MkNode c term vote l 0 0 Follower [] None ∅ ∅ 0 0 0 d data pending None false false) r) in
  match disk_snapshot d with
  | Some s =>
      let suffix := filter (fun e => LastIncludedIndex s < e_Index e) entries in
      if match head suffix with
         | Some e => negb (e_Index e =? u64 (LastIncludedIndex s + 1))
         | None => false
         end
      then Err (ErrLoad ErrCorrupt)
      else make (newLogFromEntries (LastIncludedIndex s) (LastIncludedTerm s) suffix) (SnapshotData s) (Some s)
  | None => make (newLogFromEntries 0 0 entries) [] None
  end.

(** Loading and building, for a configuration with its defaults filled in. *)
Definition startNode {P Env} `{Persister P Env} (c : Config) (p : P) (r : Z) : result raft_error Node :=
  match load_disk p with
  | Err e => Err e
  | Ok d => newNode c d r
  end.

(** The defaults [NewNode] puts in for unset options. *)
Definition orDefault (v d : Z) : Z := if v =? 0 then d else v.

Definition NewNode {P Env} `{Persister P Env} (nid : bytes) (npeers : list bytes)
    (electionTickMin electionTickMax heartbeatTick snapshotChunkSize : Z) (p : P) (r : Z) :
    result raft_error Node :=
  startNode (MkConfig nid npeers (orDefault electionTickMin 10) (orDefault electionTickMax 20)
               (orDefault heartbeatTick 2)
               (if snapshotChunkSize <=? 0 then 2 ^ 20 else snapshotChunkSize)) p r.
