(* ===== verification/RaftElection.v ===== *)
(** * Election safety

    A cluster of Raft nodes ([RaftNode]) as a step relation: ticks, client
    calls, message deliveries in any order, any number of times or never,
    failing saves, crashes and restarts from stable storage. At most one
    node is ever leader in a term, over the whole history. *)

From S2P Require Import Prelude Bytes RaftLog RaftFormat RaftPersist RaftNode.
From stdpp Require Import base tactics list numbers gmap fin_sets.
From Stdlib Require Import Strings.Byte.
From Stdlib Require Import ZArith Lia.
#[local] Open Scope Z_scope.

(** ** What a step does to a node's term, vote and role *)

(** Stable storage always holds the term and the vote in memory. *)
Definition consistent (n : Node) : Prop :=
  match disk_state (persister n) with
  | Some st => CurrentTerm st = currentTerm n /\ VotedFor st = votedFor n
  | None => currentTerm n = 0 /\ votedFor n = []
  end.

(** A step that casts no vote: the term and the vote stay, or the node steps
    down into a later term without a vote. *)
Record quiet (n n' : Node) : Prop := {
  q_cfg : cfg n' = cfg n;
  q_consistent : consistent n -> consistent n';
  q_vote :
    (currentTerm n' = currentTerm n /\ votedFor n' = votedFor n /\
     ((role n' = role n /\ votesReceived n' = votesReceived n) \/ role n' = Follower)) \/
    (currentTerm n < currentTerm n' /\ votedFor n' = [] /\ role n' = Follower) }.

Lemma quiet_refl n : quiet n n.
Proof. split; [done|done|]. left. auto. Qed.

Lemma quiet_trans a b c : quiet a b -> quiet b c -> quiet a c.
Proof.
  intros [H1 H2 H3] [H4 H5 H6]. split; [congruence|auto|].
  destruct H3 as [(?&?&[[? ?]|?])|(?&?&?)], H6 as [(?&?&[[? ?]|?])|(?&?&?)];
    first [left; split_and!; [congruence|congruence|(left; split; congruence) || (right; congruence)]
          |right; split_and!; [lia|congruence|congruence]].
Qed.

(** Steps that touch none of these fields. *)
Lemma quiet_same n n' :
  cfg n' = cfg n -> currentTerm n' = currentTerm n -> votedFor n' = votedFor n -> role n' = role n ->
  votesReceived n' = votesReceived n -> disk_state (persister n') = disk_state (persister n) -> quiet n n'.
Proof.
  intros Hc Ht Hv Hr Hs Hd. split; [done| |by left; auto].
  unfold consistent. rewrite Hd, Ht, Hv. done.
Qed.

Lemma quiet_persist n fails n' : persistLocked n fails = Some n' -> quiet n n'.
Proof.
  unfold persistLocked. destruct fails; intros [= <-]. split; [done| |by left; auto]. intros _. done.
Qed.

Lemma quiet_follower n leader : quiet n (set_role n Follower leader (votesReceived n)).
Proof. split; [done|done|]. left. auto. Qed.

Lemma quiet_timer n r : quiet n (resetElectionTimerLocked n r).
Proof. by apply quiet_same. Qed.

Lemma quiet_set_log n l : quiet n (set_log n l).
Proof. by apply quiet_same. Qed.

Lemma quiet_step_down n f term n' :
  currentTerm n < term -> becomeFollowerLocked n f term = Some n' -> quiet n n' /\ currentTerm n' = term.
Proof.
  intros Ht. unfold becomeFollowerLocked. destruct (persistLocked _ _) as [n1|] eqn:E; [|done]. intros [= <-].
  unfold persistLocked in E. destruct (fail_term f); simplify_eq. split; [|done].
  split; [done|done|]. right. done.
Qed.

(** The common prologue of the three request handlers. *)
Lemma quiet_prologue n f term n1 :
  (if term >? currentTerm n then becomeFollowerLocked n f term else Some n) = Some n1 ->
  quiet n n1 /\ term <= currentTerm n1.
Proof.
  case_if; zbool.
  - intros H. destruct (quiet_step_down _ _ _ _ E H) as [? ?]. split; [done|lia].
  - intros [= <-]. split; [apply quiet_refl|lia].
Qed.

Lemma quiet_advance n : quiet n (maybeAdvanceCommitIndexLocked n).
Proof. unfold maybeAdvanceCommitIndexLocked. destruct (advance_loop _ _ _); by apply quiet_same. Qed.

Lemma quiet_default n f term :
  currentTerm n < term -> quiet n (default n (becomeFollowerLocked n f term)).
Proof.
  intros Ht. destruct (becomeFollowerLocked n f term) eqn:E; [|apply quiet_refl].
  by apply (quiet_step_down _ _ _ _ Ht) in E as [? _].
Qed.

Lemma quiet_onAppendEntriesReply n f peer term args reply :
  quiet n (onAppendEntriesReply n f peer term args reply).1.
Proof.
  unfold onAppendEntriesReply. case_if; zbool; [by apply quiet_default|]. case_if; [apply quiet_refl|].
  case_if.
  - cbn [fst]. eapply quiet_trans; [|apply quiet_advance]. by apply quiet_same.
  - cbn [fst]. case_if; by apply quiet_same.
Qed.

Lemma quiet_HandleAppendEntries n f args : quiet n (HandleAppendEntries n f args).1.
Proof.
  unfold HandleAppendEntries.
  destruct (if ae_Term args >? currentTerm n then _ else _) as [n1|] eqn:E; [|apply quiet_refl].
  apply quiet_prologue in E as [Hq _]. eapply quiet_trans; [exact Hq|]. clear Hq n.
  case_if; [apply quiet_refl|]. set (n2 := resetElectionTimerLocked _ _).
  assert (quiet n1 n2) as Hq by (eapply quiet_trans; [apply quiet_follower|apply quiet_timer]).
  eapply quiet_trans; [exact Hq|]. case_if; [apply quiet_refl|].
  destruct (AppendAfter _ _ _) as [l changed]. destruct changed.
  - destruct (persistLocked _ _) as [n3|] eqn:Ep; [|apply quiet_refl].
    eapply quiet_trans; [apply quiet_set_log|]. eapply quiet_trans; [by eapply quiet_persist|].
    cbn [fst]. case_if; by apply quiet_same.
  - cbn [fst]. case_if; by apply quiet_same.
Qed.

Lemma quiet_installSnapshot n f index term data : quiet n (installSnapshot n f index term data).1.
Proof.
  unfold installSnapshot. case_if; [by apply quiet_same|]. set (n1 := set_persister _ _).
  assert (quiet n n1) as Hq by (by apply quiet_same). eapply quiet_trans; [exact Hq|].
  destruct (persistLocked _ _) as [n3|] eqn:Ep; [|by apply quiet_same].
  eapply quiet_trans; [apply quiet_set_log|]. eapply quiet_trans; [by eapply quiet_persist|].
  cbn [fst]. case_if; by apply quiet_same.
Qed.

Lemma quiet_HandleInstallSnapshot n f args : quiet n (HandleInstallSnapshot n f args).1.
Proof.
  unfold HandleInstallSnapshot.
  destruct (if is_Term args >? currentTerm n then _ else _) as [n1|] eqn:E; [|apply quiet_refl].
  apply quiet_prologue in E as [Hq _]. eapply quiet_trans; [exact Hq|]. clear Hq n.
  case_if; [apply quiet_refl|]. set (n2 := resetElectionTimerLocked _ _).
  assert (quiet n1 n2) as Hq by (eapply quiet_trans; [apply quiet_follower|apply quiet_timer]).
  eapply quiet_trans; [exact Hq|]. case_if.
  { cbn [fst]. destruct (chunkTransfer n2); [case_if|]; by apply quiet_same. }
  case_if.
  - destruct (receiveSnapshotChunkLocked _ _) as [t [| |data]]; [by apply quiet_same..|].
    eapply quiet_trans; [|apply quiet_installSnapshot]. by apply quiet_same.
  - eapply quiet_trans; [|apply quiet_installSnapshot]. by apply quiet_same.
Qed.

Lemma quiet_onInstallSnapshotReply n f peer term snap final reply :
  quiet n (onInstallSnapshotReply n f peer term snap final reply).1.
Proof.
  unfold onInstallSnapshotReply. case_if; zbool; [by apply quiet_default|].
  case_if; [apply quiet_refl|]. case_if; [apply quiet_refl|]. case_if; [|apply quiet_refl].
  cbn [fst]. eapply quiet_trans; [|apply quiet_advance]. by apply quiet_same.
Qed.

Lemma quiet_Propose n f command : quiet n (Propose n f command).1.1.
Proof.
  unfold Propose. case_if; [apply quiet_refl|]. destruct (log_Append _ _) as [l index].
  destruct (persistLocked _ _) as [n1|] eqn:Ep; [|apply quiet_refl].
  eapply quiet_trans; [apply quiet_set_log|]. eapply quiet_trans; [by eapply quiet_persist|]. apply quiet_advance.
Qed.

Lemma quiet_CreateSnapshot n f index data : quiet n (CreateSnapshot n f index data).1.
Proof.
  unfold CreateSnapshot. do 4 (case_if; [apply quiet_refl|]).
  destruct (TermAt _ _) as [term|]; [|apply quiet_refl]. case_if; [apply quiet_refl|].
  set (n1 := set_persister _ _). assert (quiet n n1) as Hq by (by apply quiet_same).
  eapply quiet_trans; [exact Hq|]. destruct (compact _ _) as [l|]; [|apply quiet_refl].
  destruct (persistLocked _ _) as [n2|] eqn:Ep; [|apply quiet_refl].
  eapply quiet_trans; [apply quiet_set_log|]. eapply quiet_trans; [by eapply quiet_persist|]. by apply quiet_same.
Qed.

Lemma quiet_MarkApplied n index : quiet n (MarkApplied n index).1.
Proof. unfold MarkApplied. do 2 (case_if; [apply quiet_refl|]). by apply quiet_same. Qed.

Lemma quiet_ConfirmSnapshotRestored n index : quiet n (ConfirmSnapshotRestored n index).1.
Proof.
  unfold ConfirmSnapshotRestored. destruct (pendingSnapshot n); [|apply quiet_refl].
  do 2 (case_if; [apply quiet_refl|]). cbn [fst]. case_if; by apply quiet_same.
Qed.

(** ** Steps that cast votes *)

(** The fields that elections are about, unchanged. *)
Definition same_votes (n n' : Node) : Prop :=
  cfg n' = cfg n /\ currentTerm n' = currentTerm n /\ votedFor n' = votedFor n /\
  disk_state (persister n') = disk_state (persister n).

Lemma same_votes_advance n : same_votes n (maybeAdvanceCommitIndexLocked n).
Proof. unfold maybeAdvanceCommitIndexLocked. by destruct (advance_loop _ _ _). Qed.

Lemma becomeLeader_effect n :
  same_votes n (becomeLeaderLocked n).1 /\ role (becomeLeaderLocked n).1 = Leader.
Proof.
  unfold becomeLeaderLocked, broadcastAppendEntriesLocked. cbn [fst].
  set (m := set_heartbeat _ _). pose proof (same_votes_advance m) as (? & ? & ? & ?).
  split; [by split_and!|]. unfold maybeAdvanceCommitIndexLocked. by destruct (advance_loop _ _ _).
Qed.

(** A granted vote was for the current term, by a node free to vote for the
    candidate, and is on stable storage before the reply. *)
Lemma HandleRequestVote_effect n f args n' reply :
  HandleRequestVote n f args = (n', reply) ->
  (rvr_VoteGranted reply = false /\ quiet n n') \/
  (rvr_VoteGranted reply = true /\ exists n1, quiet n n1 /\ cfg n' = cfg n1 /\
     currentTerm n1 = rv_Term args /\ currentTerm n' = rv_Term args /\
     (votedFor n1 = [] \/ votedFor n1 = rv_CandidateID args) /\ votedFor n' = rv_CandidateID args /\
     consistent n' /\ role n' = role n1 /\ votesReceived n' = votesReceived n1).
Proof.
  unfold HandleRequestVote.
  destruct (if rv_Term args >? currentTerm n then _ else _) as [n1|] eqn:E.
  2:{ intros [= <- <-]. left. split; [done|apply quiet_refl]. }
  apply quiet_prologue in E as [Hq Hle]. case_if; [intros [= <- <-]; by left|].
  case_if; [intros [= <- <-]; by left|].
  destruct (persistLocked _ _) as [n2|] eqn:Ep; [|intros [= <- <-]; by left].
  intros [= <- <-]. right. split; [done|]. zbool.
  assert (currentTerm n1 = rv_Term args) as Ht by lia.
  unfold persistLocked in Ep. destruct (fail_state f); simplify_eq. exists n1.
  split_and!; try done. apply orb_true_iff in H as [H|H]; zbool; auto.
Qed.

Definition vote_packets_only (n : Node) (rpcs : list Rpc) : Prop :=
  forall p args, RpcRequestVote p args ∈ rpcs -> rv_CandidateID args = id n.

Lemma broadcast_no_votes n p args : RpcRequestVote p args ∉ (broadcastAppendEntriesLocked n).2.
Proof.
  unfold broadcastAppendEntriesLocked. cbn. intros (q & E & _)%list_elem_of_fmap.
  unfold rpc_for in E. by destruct (_ <=? _).
Qed.

Lemma startElection_effect n f n' rpcs :
  startElectionLocked n f = (n', rpcs) ->
  vote_packets_only n rpcs /\
  (quiet n n' \/
   (cfg n' = cfg n /\ currentTerm n' = u64 (currentTerm n + 1) /\ votedFor n' = id n /\ consistent n' /\
    ((role n' = Candidate /\ votesReceived n' = Some {[id n]}) \/ (role n' = Leader /\ majority n <= 1)))).
Proof.
  unfold startElectionLocked. destruct (persistLocked _ _) as [n1|] eqn:Ep.
  2:{ intros [= <- <-]. split; [by intros ? ? ?%not_elem_of_nil|]. left. apply quiet_refl. }
  unfold persistLocked in Ep. destruct (fail_state f); simplify_eq. set (n2 := resetElectionTimerLocked _ _).
  case_if; zbool.
  - destruct (becomeLeader_effect n2) as [(Hc & Ht & Hv & Hd) Hr].
    destruct (becomeLeaderLocked n2) as [n3 rs] eqn:El. cbn [fst] in *. intros [= <- <-]. split.
    { intros p args Hin. exfalso. unfold becomeLeaderLocked in El.
      apply (f_equal snd) in El. cbn [snd] in El. rewrite <- El in Hin. by apply broadcast_no_votes in Hin. }
    right. split; [done|]. split; [done|]. split; [done|]. split; [|by right].
    unfold consistent. rewrite Hd, Ht, Hv. done.
  - intros [= <- <-]. split.
    { intros p args (q & [= -> ->] & _)%list_elem_of_fmap. done. }
    right. split_and!; try done. by left.
Qed.

Lemma onRequestVoteReply_effect n f peer term reply n' rpcs :
  onRequestVoteReply n f peer term reply = Some (n', rpcs) ->
  vote_packets_only n rpcs /\
  (quiet n n' \/
   (role n = Candidate /\ currentTerm n = term /\ rvr_VoteGranted reply = true /\ same_votes n n' /\
    exists V, votesReceived n = Some V /\
      ((role n' = Candidate /\ votesReceived n' = Some (V ∪ {[peer]})) \/
       (role n' = Leader /\ majority n <= Z.of_nat (size (V ∪ {[peer]} : gset bytes)))))).
Proof.
  assert (vote_packets_only n []) as Hnil by (intros ? ? ?%not_elem_of_nil; done).
  unfold onRequestVoteReply. case_if; zbool.
  { intros [= <- <-]. split; [done|]. left. by apply quiet_default. }
  case_if; [intros [= <- <-]; split; [done|]; left; apply quiet_refl|].
  case_if; [intros [= <- <-]; split; [done|]; left; apply quiet_refl|]. zbool.
  destruct (votesReceived n) as [V|] eqn:HV; [|done]. set (n2 := set_role _ _ _ _). case_if; zbool.
  - destruct (becomeLeader_effect n2) as [Hs Hr]. destruct (becomeLeaderLocked n2) as [n3 rs] eqn:El.
    intros [= <- <-]. cbn [fst] in *. split.
    { intros p args Hin. exfalso. unfold becomeLeaderLocked in El.
      apply (f_equal snd) in El. cbn [snd] in El. rewrite <- El in Hin. by apply broadcast_no_votes in Hin. }
    right. split_and!; try done. exists V. split; [done|]. right. split; [done|].
    change (majority n2) with (majority n) in *. lia.
  - intros [= <- <-]. split; [done|]. right. split_and!; try done. exists V. split; [done|]. by left.
Qed.

Lemma Tick_effect n f n' rpcs :
  Tick n f = (n', rpcs) ->
  vote_packets_only n rpcs /\
  (quiet n n' \/
   (cfg n' = cfg n /\ currentTerm n' = u64 (currentTerm n + 1) /\ votedFor n' = id n /\ consistent n' /\
    ((role n' = Candidate /\ votesReceived n' = Some {[id n]}) \/ (role n' = Leader /\ majority n <= 1)))).
Proof.
  assert (vote_packets_only n []) as Hnil by (intros ? ? ?%not_elem_of_nil; done).
  unfold Tick. set (n1 := set_election _ _ _).
  assert (quiet n n1) as Hq by (by apply quiet_same).
  assert (startElectionLocked n1 f = (n', rpcs) -> vote_packets_only n rpcs /\
   (quiet n n' \/
   (cfg n' = cfg n /\ currentTerm n' = u64 (currentTerm n + 1) /\ votedFor n' = id n /\ consistent n' /\
    ((role n' = Candidate /\ votesReceived n' = Some {[id n]}) \/ (role n' = Leader /\ majority n <= 1))))) as Hel.
  { intros [Hp [H|H]]%startElection_effect; (split; [done|]); [left; by eapply quiet_trans|by right]. }
  destruct (role n).
  - case_if; [done|]. intros [= <- <-]. auto.
  - case_if; [done|]. intros [= <- <-]. auto.
  - set (n2 := set_heartbeat _ _). case_if.
    + destruct (broadcastAppendEntriesLocked _) as [n3 rs] eqn:El. intros [= <- <-]. split.
      { intros p args Hin. exfalso. apply (f_equal snd) in El. cbn [snd] in El. rewrite <- El in Hin.
        by apply broadcast_no_votes in Hin. }
      left. apply (f_equal fst) in El. cbn [fst] in El. rewrite <- El.
      eapply quiet_trans; [|apply quiet_advance]. by apply quiet_same.
    + intros [= <- <-]. split; [done|]. left. by apply quiet_same.
Qed.

(** Restarting from stable storage keeps the term and the vote. *)
Lemma newNode_effect n r n' :
  consistent n -> newNode (cfg n) (persister n) r = Ok n' ->
  cfg n' = cfg n /\ currentTerm n' = currentTerm n /\ votedFor n' = votedFor n /\ consistent n' /\ role n' = Follower.
Proof.
  intros Hc. unfold newNode. unfold consistent in Hc.
  destruct (disk_state (persister n)) as [st|] eqn:Ed; destruct Hc as [Hc1 Hc2];
    (destruct (disk_snapshot (persister n)) as [s|]; [case_if; [done|]|]); intros [= <-]; cbn;
    unfold consistent; cbn; rewrite ?Ed; split_and!; auto.
Qed.

(** ** Clusters *)

(** Vote traffic. A packet stays deliverable for ever, so it can be lost,
    delayed, reordered and duplicated. Every other RPC is over-approximated:
    a node may be handed any AppendEntries or InstallSnapshot request or
    reply at any time. *)
Inductive packet :=
| PVote (from to : bytes) (args : RequestVoteArgs)
| PVoteReply (from to : bytes) (term : Z) (reply : RequestVoteReply).

(** The nodes, the packets sent, and two histories: the votes each node has
    held and the leaders each term has had. *)
Record cluster := MkCluster {
  nodes : gmap bytes Node;
  net : list packet;
  hist : list (bytes * Z * bytes);
  leaders : list (Z * bytes) }.

Definition vote_packets (i : bytes) (rpcs : list Rpc) : list packet :=
  omap (fun r => match r with RpcRequestVote p args => Some (PVote i p args) | _ => None end) rpcs.

Definition held (i : bytes) (n : Node) : list (bytes * Z * bytes) :=
  if bool_decide (votedFor n = []) then [] else [(i, currentTerm n, votedFor n)].
Definition leading (i : bytes) (n : Node) : list (Z * bytes) :=
  if bool_decide (role n = Leader) then [(currentTerm n, i)] else [].

Definition observe (c : cluster) (i : bytes) (n : Node) (pkts : list packet) : cluster :=
  MkCluster (<[i := n]> (nodes c)) (pkts ++ net c) (held i n ++ hist c) (leading i n ++ leaders c).

(** Steps in which a node casts no vote. *)
Inductive local_step (n : Node) : Node -> Prop :=
| ls_append f args : local_step n (HandleAppendEntries n f args).1
| ls_append_reply f p t args r : local_step n (onAppendEntriesReply n f p t args r).1
| ls_snapshot f args : local_step n (HandleInstallSnapshot n f args).1
| ls_snapshot_reply f p t s b r : local_step n (onInstallSnapshotReply n f p t s b r).1
| ls_propose f command : local_step n (Propose n f command).1.1
| ls_create_snapshot f index data : local_step n (CreateSnapshot n f index data).1
| ls_mark index : local_step n (MarkApplied n index).1
| ls_confirm index : local_step n (ConfirmSnapshotRestored n index).1.

Inductive step (c : cluster) : cluster -> Prop :=
| step_tick i n f n' rpcs :
    nodes c !! i = Some n -> currentTerm n + 1 < 2 ^ 64 -> Tick n f = (n', rpcs) ->
    step c (observe c i n' (vote_packets i rpcs))
| step_vote from i args n f n' reply :
    PVote from i args ∈ net c -> nodes c !! i = Some n -> HandleRequestVote n f args = (n', reply) ->
    step c (observe c i n' [PVoteReply i from (rv_Term args) reply])
| step_vote_reply from i term reply n f n' rpcs :
    PVoteReply from i term reply ∈ net c -> nodes c !! i = Some n ->
    onRequestVoteReply n f from term reply = Some (n', rpcs) ->
    step c (observe c i n' (vote_packets i rpcs))
| step_local i n n' :
    nodes c !! i = Some n -> local_step n n' -> step c (observe c i n' [])
| step_crash i n r n' :
    nodes c !! i = Some n -> newNode (cfg n) (persister n) r = Ok n' -> step c (observe c i n' []).

Lemma quiet_local n n' : local_step n n' -> quiet n n'.
Proof.
  destruct 1; auto using quiet_HandleAppendEntries, quiet_onAppendEntriesReply, quiet_HandleInstallSnapshot,
    quiet_onInstallSnapshotReply, quiet_Propose, quiet_CreateSnapshot, quiet_MarkApplied,
    quiet_ConfirmSnapshotRestored.
Qed.

Lemma elem_of_held x i n : x ∈ held i n <-> votedFor n <> [] /\ x = (i, currentTerm n, votedFor n).
Proof. unfold held. case_bool_decide; set_solver. Qed.

Lemma elem_of_leading x i n : x ∈ leading i n <-> role n = Leader /\ x = (currentTerm n, i).
Proof. unfold leading. case_bool_decide; set_solver. Qed.

Section Cluster.
(** The membership: every node is configured with its own identifier, not
    empty, and with all others as peers. *)
Context (members : gset bytes) (cfg_of : bytes -> Config).
Context (Hid : forall i, i ∈ members -> c_id (cfg_of i) = i /\ i <> []).
Context (Hpeers : forall i, i ∈ members ->
  NoDup (i :: c_peers (cfg_of i)) /\ list_to_set (i :: c_peers (cfg_of i)) = members).

Definition initial (c : cluster) : Prop :=
  net c = [] /\ hist c = [] /\ leaders c = [] /\
  forall i n, nodes c !! i = Some n -> i ∈ members /\ exists r, newNode (cfg_of i) empty_disk r = Ok n.

Inductive reachable : cluster -> Prop :=
| reach_init c : initial c -> reachable c
| reach_step c c' : reachable c -> step c c' -> reachable c'.

Definition quorum (Q : gset bytes) : Prop :=
  Q ⊆ members /\ Z.of_nat (size members) / 2 + 1 <= Z.of_nat (size Q).

Lemma quorums_meet Q1 Q2 : quorum Q1 -> quorum Q2 -> exists v, v ∈ Q1 /\ v ∈ Q2.
Proof using members.
  clear Hid Hpeers cfg_of. intros [H1 L1] [H2 L2]. destruct (decide (Q1 ∩ Q2 ≡ ∅)) as [E|E].
  - exfalso. assert (size (Q1 ∪ Q2) <= size members)%nat as Hs by (apply subseteq_size; set_solver).
    rewrite size_union in Hs by set_solver.
    pose proof (Z.mul_div_le (Z.of_nat (size members)) 2 ltac:(lia)).
    pose proof (Z.mod_pos_bound (Z.of_nat (size members)) 2 ltac:(lia)).
    pose proof (Z.div_mod (Z.of_nat (size members)) 2 ltac:(lia)). lia.
  - apply set_choose in E as [v Hv]. exists v. set_solver.
Qed.

Lemma majority_members i n :
  i ∈ members -> cfg n = cfg_of i -> majority n = Z.of_nat (size members) / 2 + 1.
Proof.
  intros Hi Hc. destruct (Hpeers i Hi) as [Hnd Hm]. unfold majority, peers. rewrite Hc.
  do 2 f_equal. rewrite <- Hm, size_list_to_set by done. unfold zlen. simpl. lia.
Qed.

(** ** The invariant *)
Record Inv (c : cluster) : Prop := {
  I_node i n : nodes c !! i = Some n -> i ∈ members /\ cfg n = cfg_of i /\ consistent n /\ 0 <= currentTerm n;
  I_member v T x : (v, T, x) ∈ hist c -> is_Some (nodes c !! v) /\ x <> [];
  I_past v T x n : (v, T, x) ∈ hist c -> nodes c !! v = Some n ->
    T < currentTerm n \/ (T = currentTerm n /\ votedFor n = x);
  I_once v T x y : (v, T, x) ∈ hist c -> (v, T, y) ∈ hist c -> x = y;
  I_vote i n : nodes c !! i = Some n -> votedFor n <> [] -> (i, currentTerm n, votedFor n) ∈ hist c;
  I_request from to args : PVote from to args ∈ net c -> rv_CandidateID args = from /\ from ∈ members;
  I_reply from to T r : PVoteReply from to T r ∈ net c -> rvr_VoteGranted r = true -> (from, T, to) ∈ hist c;
  I_candidate i n : nodes c !! i = Some n -> role n = Candidate ->
    exists V, votesReceived n = Some V /\ forall v, v ∈ V -> (v, currentTerm n, i) ∈ hist c;
  I_leader i n : nodes c !! i = Some n -> role n = Leader -> (currentTerm n, i) ∈ leaders c;
  I_elected T i : (T, i) ∈ leaders c -> exists Q, quorum Q /\ forall v, v ∈ Q -> (v, T, i) ∈ hist c }.

(** A term has one leader: two majorities share a voter, who voted once. *)
Lemma one_leader c T i j : Inv c -> (T, i) ∈ leaders c -> (T, j) ∈ leaders c -> i = j.
Proof.
  intros HI H1 H2. destruct (I_elected _ HI _ _ H1) as (Q1 & HQ1 & V1). destruct (I_elected _ HI _ _ H2) as (Q2 & HQ2 & V2).
  destruct (quorums_meet Q1 Q2 HQ1 HQ2) as (v & Hv1 & Hv2). by eapply (I_once _ HI); [apply V1|apply V2].
Qed.

Lemma Inv_initial c : initial c -> Inv c.
Proof.
  intros (Hn & Hh & Hl & Hinit).
  assert (forall i n, nodes c !! i = Some n -> i ∈ members /\ cfg n = cfg_of i /\ consistent n /\
    currentTerm n = 0 /\ votedFor n = [] /\ role n = Follower) as Hf.
  { intros i n Hi. destruct (Hinit i n Hi) as (Hm & r & Hr). injection Hr as <-. done. }
  split; rewrite ?Hn, ?Hh, ?Hl; try (by intros * ?%not_elem_of_nil).
  - intros i n Hi. destruct (Hf i n Hi) as (? & ? & ? & -> & _). done.
  - intros i n Hi Hv. destruct (Hf i n Hi) as (_ & _ & _ & _ & E & _). done.
  - intros i n Hi Hr. destruct (Hf i n Hi) as (_ & _ & _ & _ & _ & E). congruence.
  - intros i n Hi Hr. destruct (Hf i n Hi) as (_ & _ & _ & _ & _ & E). congruence.
Qed.

(** One node's step keeps the invariant if its term and vote only move
    forward, what it sends is true, and its role is backed by votes. *)
Section Observe.
Context (c : cluster) (i : bytes) (n n' : Node) (pkts : list packet).
Context (HI : Inv c) (Hi : nodes c !! i = Some n).
Context (Hcfg : cfg n' = cfg n) (Hcons : consistent n').
Context (Hfwd : currentTerm n < currentTerm n' \/
  (currentTerm n' = currentTerm n /\ (votedFor n' = votedFor n \/ votedFor n = []))).
Context (Hreq : forall from to args, PVote from to args ∈ pkts ->
  rv_CandidateID args = from /\ from = i).
Context (Hrep : forall from to T r, PVoteReply from to T r ∈ pkts -> rvr_VoteGranted r = true ->
  from = i /\ T = currentTerm n' /\ votedFor n' = to /\ to <> []).
Context (Hcand : role n' = Candidate -> exists V, votesReceived n' = Some V /\
  forall v, v ∈ V -> (v, currentTerm n', i) ∈ held i n' ++ hist c).
Context (Hlead : role n' = Leader -> (currentTerm n', i) ∈ leaders c \/
  exists Q, quorum Q /\ forall v, v ∈ Q -> (v, currentTerm n', i) ∈ held i n' ++ hist c).

Lemma held_past v T x m :
  (v, T, x) ∈ held i n' ++ hist c -> <[i := n']> (nodes c) !! v = Some m ->
  T < currentTerm m \/ (T = currentTerm m /\ votedFor m = x).
Proof.
  intros Hin Hm. apply elem_of_app in Hin as [(Hv & [= -> -> ->])%elem_of_held|Hin].
  { rewrite lookup_insert_eq in Hm. simplify_eq. by right. }
  destruct (decide (v = i)) as [->|Hne].
  - rewrite lookup_insert_eq in Hm. simplify_eq.
    pose proof (I_member _ HI _ _ _ Hin) as [_ Hx].
    destruct (I_past _ HI _ _ _ _ Hin Hi) as [?|[-> <-]]; destruct Hfwd as [?|[-> [?|E]]]; try (left; lia).
    + by right.
    + done.
  - rewrite lookup_insert_ne in Hm by done. by apply (I_past _ HI _ _ _ _ Hin).
Qed.

Lemma held_once v T x y :
  (v, T, x) ∈ held i n' ++ hist c -> (v, T, y) ∈ held i n' ++ hist c -> x = y.
Proof.
  assert (<[i := n']> (nodes c) !! i = Some n') as Hn' by apply lookup_insert_eq.
  intros Hx Hy. pose proof Hx as Hx'. pose proof Hy as Hy'.
  apply elem_of_app in Hx as [(_ & [= -> -> ->])%elem_of_held|Hx].
  { destruct (held_past _ _ _ _ Hy' Hn') as [?|[_ ?]]; [lia|done]. }
  apply elem_of_app in Hy as [(_ & [= -> -> ->])%elem_of_held|Hy].
  { destruct (held_past _ _ _ _ Hx' Hn') as [?|[_ ?]]; [lia|done]. }
  by apply (I_once _ HI v T).
Qed.

Lemma Inv_observe : Inv (observe c i n' pkts).
Proof.
  destruct (I_node _ HI _ _ Hi) as (Him & Hc & _ & H0).
  assert (forall x, x ∈ hist c -> x ∈ held i n' ++ hist c) as Hmono by set_solver.
  split; cbn [nodes net hist leaders observe].
  - intros j m [[<- <-]|[Hne Hj]]%lookup_insert_Some; [|by apply (I_node _ HI)].
    split_and!; [done|congruence|done|lia].
  - intros v T x [(Hv & [= -> -> ->])%elem_of_held|Hin]%elem_of_app.
    + by rewrite lookup_insert_eq.
    + destruct (I_member _ HI _ _ _ Hin) as [Hs Hx]. split; [|done].
      apply lookup_insert_is_Some'. by right.
  - intros v T x m. apply held_past.
  - intros v T x y. apply held_once.
  - intros j m [[<- <-]|[Hne Hj]]%lookup_insert_Some Hv.
    + apply elem_of_app. left. by apply elem_of_held.
    + by apply Hmono, (I_vote _ HI).
  - intros from to args [Hin|Hin]%elem_of_app; [|by eapply (I_request _ HI)].
    destruct (Hreq _ _ _ Hin) as [? ->]. by split.
  - intros from to T r [Hin|Hin]%elem_of_app Hg; [|by eapply Hmono, (I_reply _ HI)].
    destruct (Hrep _ _ _ _ Hin Hg) as (-> & -> & <- & Hne). apply elem_of_app. left. by apply elem_of_held.
  - intros j m [[<- <-]|[Hne Hj]]%lookup_insert_Some Hr; [by apply Hcand|].
    destruct (I_candidate _ HI _ _ Hj Hr) as (V & HV & Hall). exists V. split; [done|].
    intros v Hv. by apply Hmono, Hall.
  - intros j m [[<- <-]|[Hne Hj]]%lookup_insert_Some Hr; apply elem_of_app.
    + left. by apply elem_of_leading.
    + right. by apply (I_leader _ HI).
  - assert (forall T j, (T, j) ∈ leaders c ->
      exists Q, quorum Q /\ forall v, v ∈ Q -> (v, T, j) ∈ held i n' ++ hist c) as Hold.
    { intros T j Hin. destruct (I_elected _ HI _ _ Hin) as (Q & HQ & Hall). exists Q. split; [done|].
      intros v Hv. by apply Hmono, Hall. }
    intros T j [(Hr & [= -> ->])%elem_of_leading|Hin]%elem_of_app; [|by apply Hold].
    destruct (Hlead Hr) as [Hin|HQ]; [by apply Hold|done].
Qed.
End Observe.

(** A step that casts no vote. *)
Lemma Inv_quiet c i n n' pkts :
  Inv c -> nodes c !! i = Some n -> quiet n n' ->
  (forall from to args, PVote from to args ∈ pkts -> rv_CandidateID args = from /\ from = i) ->
  (forall from to T r, PVoteReply from to T r ∈ pkts -> rvr_VoteGranted r = false) ->
  Inv (observe c i n' pkts).
Proof.
  intros HI Hi [Hc Hk Hv] Hreq Hrep. destruct (I_node _ HI _ _ Hi) as (_ & _ & Hcons & _).
  apply Inv_observe with (n := n); auto.
  - destruct Hv as [(-> & -> & _)|(? & _)]; auto.
  - intros from to T r Hin Hg. rewrite (Hrep _ _ _ _ Hin) in Hg. done.
  - intros Hr. destruct Hv as [(Ht & Hv & [[E1 E2]|E])|(_ & _ & E)]; [|congruence..].
    rewrite E1 in Hr. destruct (I_candidate _ HI _ _ Hi Hr) as (V & HV & Hall). exists V.
    rewrite E2, Ht. split; [done|]. intros v Hin. apply elem_of_app. right. by apply Hall.
  - intros Hr. destruct Hv as [(Ht & Hv & [[E1 E2]|E])|(_ & _ & E)]; [|congruence..].
    left. rewrite Ht. apply (I_leader _ HI _ _ Hi). congruence.
Qed.

Lemma vote_packets_ok c i n rpcs :
  Inv c -> nodes c !! i = Some n -> vote_packets_only n rpcs ->
  (forall from to args, PVote from to args ∈ vote_packets i rpcs -> rv_CandidateID args = from /\ from = i) /\
  (forall from to T r, PVoteReply from to T r ∉ vote_packets i rpcs).
Proof.
  intros HI Hi Hp. destruct (I_node _ HI _ _ Hi) as (Him & Hc & _).
  assert (id n = i) as Hidn by (unfold id; rewrite Hc; by apply Hid). split.
  - intros from to args (r & Hr & E)%list_elem_of_omap. destruct r; simplify_eq.
    split; [|done]. by rewrite (Hp _ _ Hr).
  - intros from to T r (x & Hx & E)%list_elem_of_omap. by destruct x.
Qed.

Lemma id_of c i n : Inv c -> nodes c !! i = Some n -> id n = i /\ i <> [].
Proof.
  intros HI Hi. destruct (I_node _ HI _ _ Hi) as (Him & Hc & _). unfold id. rewrite Hc. by apply Hid.
Qed.

Lemma majority_quorum c i n Q :
  Inv c -> nodes c !! i = Some n -> Q ⊆ members -> majority n <= Z.of_nat (size Q) -> quorum Q.
Proof.
  intros HI Hi HQ Hm. destruct (I_node _ HI _ _ Hi) as (Him & Hc & _). split; [done|].
  by rewrite <- (majority_members i n Him Hc).
Qed.

Lemma Inv_tick c i n f n' rpcs :
  Inv c -> nodes c !! i = Some n -> currentTerm n + 1 < 2 ^ 64 -> Tick n f = (n', rpcs) ->
  Inv (observe c i n' (vote_packets i rpcs)).
Proof.
  intros HI Hi Hb [Hp Hq]%Tick_effect. destruct (vote_packets_ok c i n rpcs HI Hi Hp) as [Hreq Hrep].
  destruct Hq as [Hq|(Hc & Ht & Hv & Hk & Hr)].
  { eapply Inv_quiet; eauto. intros ? ? ? ? Hin. by apply Hrep in Hin. }
  destruct (id_of c i n HI Hi) as [Hidn Hne]. destruct (I_node _ HI _ _ Hi) as (Him & _ & _ & H0).
  rewrite u64_small in Ht by (unfold is_u64; lia). rewrite Hidn in *.
  assert ((i, currentTerm n', i) ∈ held i n' ++ hist c) as Hself.
  { apply elem_of_app. left. apply elem_of_held. by rewrite Hv. }
  apply Inv_observe with (n := n); auto.
  - left. lia.
  - intros ? ? ? ? Hin. by apply Hrep in Hin.
  - intros Hr'. destruct Hr as [[_ HV]|[Hr _]]; [|congruence]. exists {[i]}. split; [done|].
    intros v ->%elem_of_singleton. done.
  - intros Hr'. destruct Hr as [[Hr _]|[_ Hm]]; [congruence|]. right. exists {[i]}. split.
    + eapply majority_quorum; eauto; [set_solver|]. rewrite size_singleton. lia.
    + intros v ->%elem_of_singleton. done.
Qed.

Lemma Inv_vote c from i args n f n' reply :
  Inv c -> PVote from i args ∈ net c -> nodes c !! i = Some n -> HandleRequestVote n f args = (n', reply) ->
  Inv (observe c i n' [PVoteReply i from (rv_Term args) reply]).
Proof.
  intros HI Hin Hi He. destruct (I_request _ HI _ _ _ Hin) as [Hcand Hfrom].
  apply HandleRequestVote_effect in He as [[Hg Hq]|(Hg & n1 & Hq & Hc & Ht1 & Ht & Hv1 & Hv & Hk & Hr & Hs)].
  { eapply Inv_quiet; eauto.
    - intros ? ? ? Hx%list_elem_of_singleton. done.
    - intros ? ? ? ? Hx%list_elem_of_singleton. by simplify_eq. }
  destruct Hq as [Hqc Hqk Hqv]. apply Inv_observe with (n := n); auto.
  - congruence.
  - destruct Hqv as [(E1 & E2 & _)|(E1 & _)]; [|left; lia]. right. split; [lia|].
    destruct Hv1; [right|left]; congruence.
  - intros ? ? ? Hx%list_elem_of_singleton. done.
  - intros ? ? ? ? Hx%list_elem_of_singleton _. simplify_eq. split_and!; try done. by apply Hid.
  - intros Hr'. destruct Hqv as [(E1 & E2 & [[E3 E4]|E3])|(_ & _ & E3)]; [|congruence..].
    destruct (I_candidate _ HI i n Hi ltac:(congruence)) as (V & HV & Hall). exists V.
    split; [congruence|]. intros v Hvv. apply elem_of_app. right.
    replace (currentTerm n') with (currentTerm n) by lia. by apply Hall.
  - intros Hr'. destruct Hqv as [(E1 & E2 & [[E3 E4]|E3])|(_ & _ & E3)]; [|congruence..].
    left. replace (currentTerm n') with (currentTerm n) by lia. apply (I_leader _ HI i n Hi). congruence.
Qed.

Lemma Inv_vote_reply c from i term reply n f n' rpcs :
  Inv c -> PVoteReply from i term reply ∈ net c -> nodes c !! i = Some n ->
  onRequestVoteReply n f from term reply = Some (n', rpcs) ->
  Inv (observe c i n' (vote_packets i rpcs)).
Proof.
  intros HI Hin Hi [Hp Hq]%onRequestVoteReply_effect.
  destruct (vote_packets_ok c i n rpcs HI Hi Hp) as [Hreq Hrep].
  destruct Hq as [Hq|(Hr & Ht & Hg & (Sc & St & Sv & Sd) & V & HV & Hout)].
  { eapply Inv_quiet; eauto. intros ? ? ? ? Hx. by apply Hrep in Hx. }
  pose proof (I_reply _ HI _ _ _ _ Hin Hg) as Hvote.
  destruct (I_candidate _ HI _ _ Hi Hr) as (V' & HV' & Hall). assert (V' = V) as -> by congruence.
  assert (forall v, v ∈ V ∪ {[from]} -> (v, currentTerm n', i) ∈ held i n' ++ hist c) as Hall'.
  { intros v [Hv| ->%elem_of_singleton]%elem_of_union; apply elem_of_app; right; rewrite St; [by apply Hall|].
    by subst. }
  destruct (I_node _ HI _ _ Hi) as (_ & _ & Hk & _).
  apply Inv_observe with (n := n); auto.
  - unfold consistent in *. by rewrite Sd, St, Sv.
  - intros ? ? ? ? Hx. by apply Hrep in Hx.
  - intros Hr'. destruct Hout as [[_ HVn]|[Hl _]]; [|congruence]. eauto.
  - intros Hr'. destruct Hout as [[Hc _]|[_ Hm]]; [congruence|]. right. exists (V ∪ {[from]}). split; [|done].
    eapply majority_quorum; eauto. intros v Hv.
    assert (is_Some (nodes c !! v)) as [m Hmv].
    { apply elem_of_union in Hv as [Hv| ->%elem_of_singleton].
      - by destruct (I_member _ HI _ _ _ (Hall v Hv)).
      - by destruct (I_member _ HI _ _ _ Hvote). }
    by destruct (I_node _ HI _ _ Hmv).
Qed.

Lemma Inv_step c c' : Inv c -> step c c' -> Inv c'.
Proof.
  intros HI [i n f n' rpcs Hi Hb Ht|from i args n f n' reply Hin Hi Ht|from i term reply n f n' rpcs Hin Hi Ht
            |i n n' Hi Hl|i n r n' Hi Hn].
  - by eapply Inv_tick.
  - by eapply Inv_vote.
  - by eapply Inv_vote_reply.
  - eapply Inv_quiet; eauto using quiet_local; intros * ?%not_elem_of_nil; done.
  - destruct (I_node _ HI _ _ Hi) as (_ & _ & Hk & _).
    destruct (newNode_effect _ _ _ Hk Hn) as (Hc & Ht & Hv & Hk' & Hr).
    eapply Inv_quiet; eauto; [|by intros * ?%not_elem_of_nil..].
    split; [done|done|]. left. auto.
Qed.

Lemma reachable_Inv c : reachable c -> Inv c.
Proof. induction 1; eauto using Inv_initial, Inv_step. Qed.
End Cluster.

(** C5. Election safety: over the whole history of a cluster, with lost,
    delayed, reordered and duplicated messages, arbitrary AppendEntries and
    InstallSnapshot traffic, failed saves, crashes and restarts, a term has
    at most one leader; every node that is leader now is in that history. *)
Theorem election_safety (members : gset bytes) (cfg_of : bytes -> Config) (c : cluster) :
  (forall i, i ∈ members -> c_id (cfg_of i) = i /\ i <> []) ->
  (forall i, i ∈ members ->
     NoDup (i :: c_peers (cfg_of i)) /\ list_to_set (i :: c_peers (cfg_of i)) = members) ->
  reachable members cfg_of c ->
  (forall T i j, (T, i) ∈ leaders c -> (T, j) ∈ leaders c -> i = j) /\
  (forall i n, nodes c !! i = Some n -> role n = Leader -> (currentTerm n, i) ∈ leaders c).
Proof.
  intros Hid Hpeers Hr. pose proof (reachable_Inv _ _ Hid Hpeers _ Hr) as HI. split.
  - intros T i j. by apply (one_leader members cfg_of).
  - apply (I_leader _ _ _ HI).
Qed.

(** Votes are cast once: what a node voted in a term never changes, in
    memory or on stable storage, and a candidate that counts a vote was
    given it; the vote map a reply is written to is never nil. *)
Theorem votes_are_final (members : gset bytes) (cfg_of : bytes -> Config) (c : cluster) :
  (forall i, i ∈ members -> c_id (cfg_of i) = i /\ i <> []) ->
  (forall i, i ∈ members ->
     NoDup (i :: c_peers (cfg_of i)) /\ list_to_set (i :: c_peers (cfg_of i)) = members) ->
  reachable members cfg_of c ->
  (forall v T x y, (v, T, x) ∈ hist c -> (v, T, y) ∈ hist c -> x = y) /\
  (forall i n, nodes c !! i = Some n -> consistent n /\
     (role n = Candidate -> exists V, votesReceived n = Some V /\
        forall v, v ∈ V -> (v, currentTerm n, i) ∈ hist c) /\
     (forall f p t r, onRequestVoteReply n f p t r <> None)).
Proof.
  intros Hid Hpeers Hr. pose proof (reachable_Inv _ _ Hid Hpeers _ Hr) as HI. split.
  - intros v T x y. apply (I_once _ _ _ HI).
  - intros i n Hi. split; [by apply (I_node _ _ _ HI i)|]. split; [by apply (I_candidate _ _ _ HI)|].
    intros f p t r. unfold onRequestVoteReply. case_if; [done|]. case_if; [done|]. case_if; [done|]. zbool.
    destruct (I_candidate _ _ _ HI i n Hi) as (V & -> & _); [done|]. by case_if.
Qed.

(** ** A run: three nodes elect a leader *)

Definition na : bytes := [x61].
Definition nb : bytes := [x62].
Definition nc : bytes := [x63].
Definition trio : gset bytes := {[na; nb; nc]}.
Definition trio_cfg (i : bytes) : Config :=
  MkConfig i (filter (fun j => j <> i) [na; nb; nc]) 1 1 1 4.
Definition calm_faults : faults := MkFaults false false false 0 0.

Definition fresh_node (i : bytes) : Node :=
  MkNode (trio_cfg i) 0 [] NewLog 0 0 Follower [] None ∅ ∅ 0 1 0 empty_disk [] None None false false.

Definition run0 : cluster := MkCluster {[na := fresh_node na; nb := fresh_node nb; nc := fresh_node nc]} [] [] [].
Definition a1 : Node := (Tick (fresh_node na) calm_faults).1.
Definition run1 : cluster := observe run0 na a1 (vote_packets na (Tick (fresh_node na) calm_faults).2).
Definition ask : RequestVoteArgs := MkRVA 1 na 0 0.
Definition b1 : Node := (HandleRequestVote (fresh_node nb) calm_faults ask).1.
Definition run2 : cluster := observe run1 nb b1 [PVoteReply nb na 1 (MkRVR 1 true)].
Definition won : Node * list Rpc := becomeLeaderLocked (set_role a1 Candidate [] (Some ({[na]} ∪ {[nb]}))).
Definition a2 : Node := won.1.
Definition run3 : cluster := observe run2 na a2 (vote_packets na won.2).

Lemma trio_ids i : i ∈ trio -> c_id (trio_cfg i) = i /\ i <> [].
Proof. unfold trio. intros Hi. split; [done|]. set_solver. Qed.

Lemma trio_peers i :
  i ∈ trio -> NoDup (i :: c_peers (trio_cfg i)) /\ list_to_set (i :: c_peers (trio_cfg i)) = trio.
Proof.
  unfold trio. intros Hi.
  assert (i = na \/ i = nb \/ i = nc) as [->|[->| ->]] by set_solver;
    (split; apply (bool_decide_unpack _); vm_compute; exact I).
Qed.

Lemma run3_reachable : reachable trio trio_cfg run3.
Proof.
  eapply reach_step with (c := run2); [eapply reach_step with (c := run1);
    [eapply reach_step with (c := run0); [apply reach_init|]|]|].
  - split_and!; try done. intros i n Hi. unfold run0 in Hi. cbn [nodes] in Hi.
    assert (i = na /\ n = fresh_node na \/ i = nb /\ n = fresh_node nb \/ i = nc /\ n = fresh_node nc) as Hc.
    { apply lookup_insert_Some in Hi as [[<- <-]|[_ Hi]]; [auto|].
      apply lookup_insert_Some in Hi as [[<- <-]|[_ Hi]]; [auto|].
      apply lookup_singleton_Some in Hi as [<- <-]. auto. }
    destruct Hc as [[-> ->]|[[-> ->]|[-> ->]]]; (split; [unfold trio; set_solver|exists 0; reflexivity]).
  - unfold run1. eapply step_tick; [vm_compute; reflexivity|vm_compute; reflexivity|]. apply surjective_pairing.
  - unfold run2. apply (step_vote run1 na nb ask (fresh_node nb) calm_faults).
    + unfold run1, observe. cbn [net]. apply elem_of_app. left. vm_compute. left.
    + vm_compute. reflexivity.
    + vm_compute. reflexivity.
  - unfold run3. apply (step_vote_reply run2 nb na 1 (MkRVR 1 true) a1 calm_faults).
    + unfold run2, observe. cbn [net]. left.
    + vm_compute. reflexivity.
    + vm_compute. reflexivity.
Qed.

Example election_safety_witness :
  (1, na) ∈ leaders run3 /\ forall j, (1, j) ∈ leaders run3 -> j = na.
Proof.
  destruct (election_safety trio trio_cfg run3 trio_ids trio_peers run3_reachable) as [Hsafe Hnow].
  assert ((1, na) ∈ leaders run3) as Ha by (apply (Hnow na a2); reflexivity).
  split; [exact Ha|]. intros j Hj. exact (Hsafe 1 j na Hj Ha).
Defined.

Example votes_are_final_witness :
  (nb, 1, na) ∈ hist run3 /\ forall x, (nb, 1, x) ∈ hist run3 -> x = na.
Proof.
  assert ((nb, 1, na) ∈ hist run3) as Hin.
  { unfold run3, run2, observe. cbn [hist]. apply elem_of_app. right. apply elem_of_app. left.
    apply elem_of_held. split; [discriminate|reflexivity]. }
  split; [exact Hin|]. intros x Hx. apply (proj1 (votes_are_final trio trio_cfg run3 trio_ids trio_peers run3_reachable) nb 1 x na Hx). exact Hin.
Defined.
