(* ===== verification/RaftDurable.v ===== *)
(** * What a node keeps across a crash

    The invariant that ties a node's memory to its stable storage, for every
    handler of [RaftNode] and every save outcome, and what a restart finds. *)

From S2P Require Import Prelude Bytes Codec AtomicFile RaftLog RaftFormat RaftPersist RaftNode RaftElection.
From stdpp Require Import base tactics list numbers gmap.
From Stdlib Require Import Strings.Byte.
From Stdlib Require Import ZArith Lia.
#[local] Open Scope Z_scope.

(** The snapshot on disk is the log's boundary or a later one. *)
Definition snapshot_inv (n : Node) : Prop :=
  match disk_snapshot (persister n) with
  | None => base (log n) = 0 /\ e_Term (log n !!! 0%nat) = 0
  | Some s => base (log n) <= LastIncludedIndex s < 2 ^ 64 - 1 /\
              (base (log n) = LastIncludedIndex s ->
                 e_Term (log n !!! 0%nat) = LastIncludedTerm s /\ snapshotData n = SnapshotData s)
  end.

Lemma filter_above F start (l : list LogEntry) :
  numbered start l -> F < start -> filter (fun e => F < e_Index e) l = l.
Proof.
  revert start. induction l as [|e l IH]; intros start Hn HF; [done|].
  pose proof (Hn 0%nat e eq_refl). rewrite filter_cons_True by lia. f_equal.
  apply (IH (start + 1)); [|lia]. intros k x Hx. rewrite (Hn (S k) x Hx). lia.
Qed.

Lemma filter_numbered F start (l : list LogEntry) :
  numbered start l -> start <= F + 1 ->
  filter (fun e => F < e_Index e) l = drop (Z.to_nat (F + 1 - start)) l.
Proof.
  revert start. induction l as [|e l IH]; intros start Hn Hs; [by rewrite drop_nil|].
  destruct (Z.eq_dec start (F + 1)) as [->|Hne].
  { rewrite (filter_above F (F + 1)) by (done || lia). by rewrite Z.sub_diag. }
  assert (numbered (start + 1) l) as Hn' by (intros k x Hx; rewrite (Hn (S k) x Hx); lia).
  pose proof (Hn 0%nat e eq_refl) as He. rewrite filter_cons_False by lia.
  rewrite (IH (start + 1)) by (done || lia).
  replace (Z.to_nat (F + 1 - start)) with (S (Z.to_nat (F + 1 - (start + 1)))) by lia. done.
Qed.

Lemma tail_numbered l : log_wf l -> numbered (base l + 1) (tail l).
Proof.
  intros Hw. destruct l as [|e l]; [by apply wf_nonempty in Hw|]. intros k x Hx.
  rewrite (wf_numbered _ Hw (S k) x Hx). lia.
Qed.

Lemma filter_tail l : log_wf l -> filter (fun e => base l < e_Index e) (tail l) = tail l.
Proof.
  intros Hw. rewrite (filter_numbered (base l) (base l + 1)) by (lia || by apply tail_numbered).
  by rewrite Z.sub_diag.
Qed.

(** The state on disk holds the term, the vote and the log after its
    boundary, perhaps with entries before the boundary, which a crash during
    a compaction leaves. *)
Definition state_inv (n : Node) : Prop :=
  match disk_state (persister n) with
  | None => currentTerm n = 0 /\ votedFor n = [] /\ tail (log n) = []
  | Some st => CurrentTerm st = currentTerm n /\ VotedFor st = votedFor n /\
               filter (fun e => base (log n) < e_Index e) (StateLog st) = tail (log n) /\
               (disk_snapshot (persister n) = None -> StateLog st = tail (log n))
  end.

Record node_inv (n : Node) : Prop := {
  N_log : log_wf (log n);
  N_state : state_inv n;
  N_snapshot : snapshot_inv n;
  N_applied : 0 <= lastApplied n <= commitIndex n }.

(** Nothing the invariant speaks about changed but the commit index, which
    grew. *)
Lemma node_inv_frame n n' :
  node_inv n -> currentTerm n' = currentTerm n -> votedFor n' = votedFor n -> log n' = log n ->
  persister n' = persister n -> snapshotData n' = snapshotData n ->
  lastApplied n' = lastApplied n -> commitIndex n <= commitIndex n' -> node_inv n'.
Proof.
  intros [Hl Hs Hn Ha] Et Ev El Ep Ed Eap Ec. split.
  - by rewrite El.
  - unfold state_inv in *. by rewrite Ep, Et, Ev, El.
  - unfold snapshot_inv in *. by rewrite Ep, El, Ed.
  - rewrite Eap. lia.
Qed.

(** A save of new persistent fields over an unchanged boundary. *)
Lemma node_inv_persist n m fails n' :
  node_inv n -> persistLocked m fails = Some n' ->
  log_wf (log m) -> log m !!! 0%nat = log n !!! 0%nat -> persister m = persister n ->
  snapshotData m = snapshotData n -> lastApplied m = lastApplied n -> commitIndex m = commitIndex n ->
  node_inv n'.
Proof.
  intros [Hl Hs Hn Ha] Hp Hw Hb Ep Ed Eap Ec. unfold persistLocked in Hp. destruct fails; simplify_eq. split; cbn.
  - done.
  - split_and!; try done. by apply filter_tail.
  - unfold snapshot_inv in *. cbn. rewrite Ep, Ed. unfold base in *. by rewrite Hb.
  - by rewrite Eap, Ec.
Qed.

Lemma node_inv_step_down n f term n' :
  node_inv n -> becomeFollowerLocked n f term = Some n' -> node_inv n' /\ log n' = log n /\
    commitIndex n' = commitIndex n /\ lastApplied n' = lastApplied n.
Proof.
  intros Hi. unfold becomeFollowerLocked. destruct (persistLocked _ _) as [n1|] eqn:E; [|done]. intros [= <-].
  pose proof E as E'. unfold persistLocked in E'. destruct (fail_term f); simplify_eq.
  split; [|done]. eapply node_inv_frame; [eapply node_inv_persist; [exact Hi|exact E|..]|..]; try done.
  apply (N_log _ Hi).
Qed.

Lemma node_inv_prologue n f term n1 :
  node_inv n -> (if term >? currentTerm n then becomeFollowerLocked n f term else Some n) = Some n1 ->
  node_inv n1.
Proof.
  intros Hi. case_if; [|by intros [= <-]]. intros H. by eapply node_inv_step_down.
Qed.

Lemma node_inv_default n f term : node_inv n -> node_inv (default n (becomeFollowerLocked n f term)).
Proof.
  intros Hi. destruct (becomeFollowerLocked n f term) eqn:E; [|done]. by eapply node_inv_step_down.
Qed.

(** The commit index only moves forward. *)
Lemma advance_loop_Some fuel n N M :
  advance_loop fuel n N = Some M ->
  commitIndex n < M <= N /\ TermAt (log n) M = Some (currentTerm n) /\ majority n <= replicated_count n M.
Proof.
  revert N. induction fuel as [|fuel IH]; intros N; [done|]. cbn [advance_loop].
  case_if; [done|]. case_if; zbool.
  - intros [= <-]. split_and!; try lia. done.
  - intros H. apply IH in H as (? & ? & ?). split_and!; done || lia.
Qed.

Lemma node_inv_advance n : node_inv n -> node_inv (maybeAdvanceCommitIndexLocked n).
Proof.
  intros Hi. unfold maybeAdvanceCommitIndexLocked. destruct (advance_loop _ _ _) as [N|] eqn:E; [|done].
  apply advance_loop_Some in E as (? & _). eapply node_inv_frame; [exact Hi|done..|cbn; lia].
Qed.

Lemma node_inv_leader n : node_inv n -> node_inv (becomeLeaderLocked n).1.
Proof.
  intros Hi. unfold becomeLeaderLocked, broadcastAppendEntriesLocked. cbn [fst]. apply node_inv_advance.
  by eapply node_inv_frame; [exact Hi|try done..].
Qed.

Ltac frame_of Hi := eapply node_inv_frame; [exact Hi|try done..].

Lemma node_inv_election n f : node_inv n -> node_inv (startElectionLocked n f).1.
Proof.
  intros Hi. unfold startElectionLocked. destruct (persistLocked _ _) as [n1|] eqn:E; [|done].
  assert (node_inv n1) as Hi1.
  { eapply node_inv_persist; [exact Hi|exact E|..]; try done. apply (N_log _ Hi). }
  case_if; [apply node_inv_leader|]; frame_of Hi1.
Qed.

Lemma node_inv_Tick n f : node_inv n -> node_inv (Tick n f).1.
Proof.
  intros Hi. unfold Tick. destruct (role n).
  - case_if; [apply node_inv_election|]; frame_of Hi.
  - case_if; [apply node_inv_election|]; frame_of Hi.
  - case_if; [apply node_inv_advance|]; frame_of Hi.
Qed.

Lemma node_inv_HandleRequestVote n f args : node_inv n -> node_inv (HandleRequestVote n f args).1.
Proof.
  intros Hi. unfold HandleRequestVote.
  destruct (if rv_Term args >? currentTerm n then _ else _) as [n1|] eqn:E; [|done].
  apply (node_inv_prologue _ _ _ _ Hi) in E. clear Hi n. case_if; [done|]. case_if; [done|].
  destruct (persistLocked _ _) as [n2|] eqn:Ep; [|done].
  assert (node_inv n2) as Hi2.
  { eapply node_inv_persist; [exact E|exact Ep|..]; try done. apply (N_log _ E). }
  frame_of Hi2.
Qed.

Lemma node_inv_onRequestVoteReply n f peer term reply n' rpcs :
  node_inv n -> onRequestVoteReply n f peer term reply = Some (n', rpcs) -> node_inv n'.
Proof.
  intros Hi. unfold onRequestVoteReply. case_if; [intros [= <- <-]; by apply node_inv_default|].
  case_if; [by intros [= <- <-]|]. case_if; [by intros [= <- <-]|].
  destruct (votesReceived n) as [V|]; [|done]. set (n2 := set_role _ _ _ _).
  assert (node_inv n2) as Hi2 by frame_of Hi. case_if.
  - pose proof (node_inv_leader _ Hi2) as Hl. destruct (becomeLeaderLocked n2). intros [= <- <-]. exact Hl.
  - by intros [= <- <-].
Qed.

Lemma node_inv_onAppendEntriesReply n f peer term args reply :
  node_inv n -> node_inv (onAppendEntriesReply n f peer term args reply).1.
Proof.
  intros Hi. unfold onAppendEntriesReply. case_if; [by apply node_inv_default|]. case_if; [done|].
  case_if; [apply node_inv_advance; frame_of Hi|]. cbn [fst]. case_if; frame_of Hi.
Qed.

Lemma node_inv_onInstallSnapshotReply n f peer term snap final reply :
  node_inv n -> node_inv (onInstallSnapshotReply n f peer term snap final reply).1.
Proof.
  intros Hi. unfold onInstallSnapshotReply. case_if; [by apply node_inv_default|]. case_if; [done|].
  case_if; [done|]. case_if; [|done]. apply node_inv_advance. frame_of Hi.
Qed.

(** Messages whose indices stay below 2^64. *)
Definition append_bounded (args : AppendEntriesArgs) : Prop :=
  is_u64 (ae_PrevLogIndex args) /\ ae_PrevLogIndex args + 1 + zlen (ae_Entries args) < 2 ^ 64.

Lemma head_AppendAfter l prev es :
  log_wf l -> base l <= prev <= LastIndex l -> prev + 1 + zlen es < 2 ^ 64 ->
  (AppendAfter l prev es).1 !!! 0%nat = l !!! 0%nat.
Proof.
  intros Hw Hp Hb. rewrite AppendAfter_merge by done. cbn.
  destruct l as [|e l]; [by apply wf_nonempty in Hw|].
  replace (Z.to_nat (prev - base (e :: l) + 1)) with (S (Z.to_nat (prev - base (e :: l)))) by lia. done.
Qed.

Lemma TermAt_range l i t : log_wf l -> is_u64 i -> TermAt l i = Some t -> base l <= i <= LastIndex l.
Proof. intros Hw Hi. rewrite TermAt_spec by done. by case_decide. Qed.

Lemma node_inv_HandleAppendEntries n f args :
  append_bounded args -> node_inv n -> node_inv (HandleAppendEntries n f args).1.
Proof.
  intros [Hu Hb] Hi. unfold HandleAppendEntries.
  destruct (if ae_Term args >? currentTerm n then _ else _) as [n1|] eqn:E; [|done].
  apply (node_inv_prologue _ _ _ _ Hi) in E. clear Hi n. case_if; [done|].
  set (n2 := resetElectionTimerLocked _ _). assert (node_inv n2) as Hi2 by frame_of E.
  case_if; [done|]. zbool.
  match goal with H : TermAt _ _ = Some _ |- _ => apply (TermAt_range _ _ _ (N_log _ Hi2) Hu) in H as Hr end.
  destruct (AppendAfter_wf _ _ _ (N_log _ Hi2) Hr Hb) as (Hw & _).
  pose proof (head_AppendAfter _ _ _ (N_log _ Hi2) Hr Hb) as Hh.
  destruct (AppendAfter _ _ _) as [l changed]. cbn [fst] in *. destruct changed.
  - destruct (persistLocked _ _) as [n3|] eqn:Ep; [|done].
    assert (node_inv n3) as Hi3 by (eapply node_inv_persist; [exact Hi2|exact Ep|..]; done).
    cbn [fst]. repeat case_if; zbool; try done; (eapply node_inv_frame; [exact Hi3|done..|]; change (commitIndex (notifyCommit ?a ?b)) with b; lia).
  - cbn [fst]. repeat case_if; zbool; try done; (eapply node_inv_frame; [exact Hi2|done..|]; change (commitIndex (notifyCommit ?a ?b)) with b; lia).
Qed.

Lemma node_inv_Propose n f command :
  base (log n) + zlen (log n) + 1 < 2 ^ 64 -> node_inv n -> node_inv (Propose n f command).1.1.
Proof.
  intros Hb Hi. unfold Propose. case_if; [done|].
  destruct (Append_wf (log n) (N_log _ Hi) (MkEntry 0 (currentTerm n) command) Hb) as (Hw & _).
  assert ((log_Append (log n) (MkEntry 0 (currentTerm n) command)).1 !!! 0%nat = log n !!! 0%nat) as Hh.
  { pose proof (wf_nonempty _ (N_log _ Hi)). unfold log_Append. cbn. by destruct (log n). }
  destruct (log_Append _ _) as [l index]. cbn [fst] in *.
  destruct (persistLocked _ _) as [n1|] eqn:Ep; [|done]. cbn. apply node_inv_advance.
  eapply node_inv_persist; [exact Hi|exact Ep|..]; done.
Qed.

Lemma node_inv_MarkApplied n index : node_inv n -> node_inv (MarkApplied n index).1.
Proof.
  intros Hi. unfold MarkApplied. case_if; [done|]. case_if; [done|]. zbool.
  destruct Hi as [Hl Hs Hn Ha]. split; try done. cbn. lia.
Qed.

Lemma node_inv_Confirm n index : node_inv n -> node_inv (ConfirmSnapshotRestored n index).1.
Proof.
  intros Hi. unfold ConfirmSnapshotRestored. destruct (pendingSnapshot n); [|done].
  case_if; [done|]. case_if; [done|]. zbool. cbn [fst].
  destruct Hi as [Hl Hs Hn Ha]. case_if; zbool; split; try done. cbn. lia.
Qed.

Lemma LastIndex_bound l : log_wf l -> LastIndex l < 2 ^ 64 - 1.
Proof. intros Hw. rewrite LastIndex_wf by done. pose proof (wf_bound _ Hw). lia. Qed.

Lemma head_term l : log_wf l -> TermAt l (base l) = Some (e_Term (l !!! 0%nat)).
Proof.
  intros Hw. pose proof (wf_base _ Hw). pose proof (wf_bound _ Hw). pose proof (zlen_pos _ Hw).
  rewrite TermAt_spec, LastIndex_wf, decide_True by (done || lia). by rewrite Z.sub_diag.
Qed.

(** Saving a later snapshot before the log moves. *)
Lemma node_inv_save_snapshot n s :
  node_inv n -> base (log n) < LastIncludedIndex s < 2 ^ 64 - 1 ->
  node_inv (set_persister n (save_snapshot (persister n) s)).
Proof.
  intros [Hl Hs Hn Ha] Hb. split; [done| | |done].
  { unfold state_inv in *. cbn. destruct (disk_state (persister n)); [|done].
    destruct Hs as (? & ? & ? & _). by split_and!. }
  unfold snapshot_inv. cbn. split; lia.
Qed.

(** Moving the log to the boundary of the snapshot that was just saved. *)
Lemma node_inv_move n s l fails n' pending :
  node_inv n -> log_wf l -> base l = LastIncludedIndex s -> LastIncludedIndex s < 2 ^ 64 - 1 ->
  e_Term (l !!! 0%nat) = LastIncludedTerm s ->
  persistLocked (set_log (set_persister n (save_snapshot (persister n) s)) l) fails = Some n' ->
  node_inv (set_snapshot n' (SnapshotData s) pending).
Proof.
  intros [Hl Hs Hn Ha] Hw Hb Hu Ht Hp. unfold persistLocked in Hp. destruct fails; simplify_eq. split; cbn.
  - done.
  - split_and!; try done. by apply filter_tail.
  - unfold snapshot_inv. cbn. rewrite Hb. split; [lia|]. by intros _.
  - done.
Qed.

Lemma node_inv_CreateSnapshot n f index data :
  is_u64 index -> node_inv n -> node_inv (CreateSnapshot n f index data).1.
Proof.
  intros Hu Hi. unfold CreateSnapshot. do 4 (case_if; [done|]). zbool.
  pose proof (N_log _ Hi) as Hw. pose proof (wf_base _ Hw). pose proof (LastIndex_bound _ Hw).
  destruct (TermAt (log n) index) as [term|] eqn:Et; [|done]. case_if; [done|].
  pose proof (TermAt_range _ _ _ Hw Hu Et) as Hr.
  set (s := MkSnapshot index term data).
  assert (node_inv (set_persister n (save_snapshot (persister n) s))) as Hi1
    by (apply node_inv_save_snapshot; [done|cbn; lia]).
  destruct (compact_spec (log n) index Hw ltac:(lia)) as (l & Hc & Hwl & Hbl & _ & Htl & _).
  change (log (set_persister n _)) with (log n). rewrite Hc.
  destruct (persistLocked _ _) as [n2|] eqn:Ep; [|done]. cbn [fst].
  apply (node_inv_move n s l (fail_state f) n2 (pendingSnapshot n2)); try done; [cbn; lia|].
  cbn. rewrite Et, <- Hbl, head_term in Htl by done. congruence.
Qed.

Lemma installSnapshot_head l index term :
  log_wf l -> base l < index -> index + 1 < 2 ^ 64 ->
  e_Term (installSnapshotBoundary l index term !!! 0%nat) = term.
Proof.
  intros Hw Hb Hu. destruct (installSnapshotBoundary_spec l index term Hw Hb Hu) as (Hw' & Hb' & Ht & _).
  rewrite <- Hb' in Ht at 2. rewrite head_term in Ht by done. congruence.
Qed.

Lemma node_inv_installSnapshot n f index term data :
  node_inv n -> base (log n) < index -> index + 1 < 2 ^ 64 -> node_inv (installSnapshot n f index term data).1.
Proof.
  intros Hi Hb Hu. unfold installSnapshot. case_if; [frame_of Hi|].
  set (s := MkSnapshot index term data).
  assert (node_inv (set_persister n (save_snapshot (persister n) s))) as Hi1
    by (apply node_inv_save_snapshot; [done|cbn; lia]).
  pose proof (N_log _ Hi) as Hw.
  destruct (installSnapshotBoundary_spec (log n) index term Hw Hb Hu) as (Hwl & Hbl & _).
  change (log (set_persister n _)) with (log n).
  destruct (persistLocked _ _) as [n2|] eqn:Ep; [|frame_of Hi1].
  assert (node_inv (set_snapshot n2 data (Some s))) as Hi2.
  { apply (node_inv_move n s (installSnapshotBoundary (log n) index term) (fail_state f) n2); try done; [cbn; lia|]. by apply installSnapshot_head. }
  cbn [fst]. case_if; zbool; (eapply node_inv_frame; [exact Hi2|done..|]); [|done].
  change (commitIndex (set_snapshot n2 data (Some s)) <= index).
  change (commitIndex (set_transfer ?a ?b)) with (commitIndex a) in *. lia.
Qed.

(** Snapshot requests whose boundary stays below 2^64. *)
Definition install_bounded (args : InstallSnapshotArgs) : Prop :=
  is_LastIncludedIndex args + 1 < 2 ^ 64.

Lemma node_inv_HandleInstallSnapshot n f args :
  install_bounded args -> node_inv n -> node_inv (HandleInstallSnapshot n f args).1.
Proof.
  intros Hb Hi. unfold HandleInstallSnapshot.
  destruct (if is_Term args >? currentTerm n then _ else _) as [n1|] eqn:E; [|done].
  apply (node_inv_prologue _ _ _ _ Hi) in E. clear Hi n. case_if; [done|].
  set (n2 := resetElectionTimerLocked _ _). assert (node_inv n2) as Hi2 by frame_of E.
  case_if; zbool.
  { cbn [fst]. destruct (chunkTransfer n2); [case_if|]; frame_of Hi2. }
  case_if.
  - destruct (receiveSnapshotChunkLocked _ _) as [t [| |data]]; [frame_of Hi2..|].
    apply node_inv_installSnapshot; [frame_of Hi2|done|done].
  - apply node_inv_installSnapshot; [frame_of Hi2|done|done].
Qed.

(** ** Restarting *)

(** The log a restart builds behind a boundary that is not before the old
    one: the old entries after it. *)
Lemma restart_log l F T :
  log_wf l -> base l <= F < 2 ^ 64 - 1 ->
  let l' := newLogFromEntries F T (filter (fun e => F < e_Index e) (tail l)) in
  log_wf l' /\ base l' = F /\ e_Term (l' !!! 0%nat) = T /\
  tail l' = filter (fun e => F < e_Index e) (tail l) /\
  (forall e, head (filter (fun e => F < e_Index e) (tail l)) = Some e -> e_Index e = F + 1) /\
  (forall i, F < i < 2 ^ 64 -> EntryAt l' i = EntryAt l i).
Proof.
  intros Hw HF l'. pose proof (wf_base _ Hw). pose proof (wf_bound _ Hw). pose proof (LastIndex_wf l Hw) as HL.
  pose proof (tail_numbered l Hw) as Hnt.
  assert (filter (fun e => F < e_Index e) (tail l) = drop (Z.to_nat (F - base l + 1)) l) as Hf.
  { rewrite (filter_numbered F (base l + 1)) by (done || lia).
    destruct l as [|e l]; [by apply wf_nonempty in Hw|].
    replace (Z.to_nat (F - base (e :: l) + 1)) with (S (Z.to_nat (F + 1 - (base (e :: l) + 1)))) by lia. done. }
  unfold l', newLogFromEntries. rewrite Hf.
  assert (forall e, head (drop (Z.to_nat (F - base l + 1)) l) = Some e -> e_Index e = F + 1) as Hh.
  { intros e He. pose proof (numbered_drop _ _ (Z.to_nat (F - base l + 1)) (wf_numbered _ Hw) 0%nat e) as Hx.
    rewrite Hx; [lia|]. by destruct (drop _ l). }
  destruct (Z.le_gt_cases F (LastIndex l)) as [Hle|Hgt].
  - destruct (cut_wf l F T Hw ltac:(lia)) as (Hw' & Hb' & _ & He). split_and!; try done.
    intros i Hi. by apply He.
  - assert (drop (Z.to_nat (F - base l + 1)) l = []) as -> by (apply drop_ge; unfold zlen in *; lia).
    assert (log_wf [MkEntry F T []]) as Hw'.
    { split; [done|cbn; lia|change (F + 1 < 2 ^ 64); lia|].
      intros [|k] e He; simplify_eq/=. cbn. lia. }
    split_and!; try done. intros i Hi. unfold EntryAt. rewrite (offset_wf _ Hw), (offset_wf _ Hw') by (cbn; lia).
    change (base [MkEntry F T []]) with F. change (zlen [MkEntry F T []]) with 1.
    repeat case_if; zbool; done || lia.
Qed.

Lemma filter_filter_le F G (l : list LogEntry) :
  F <= G -> filter (fun e => G < e_Index e) (filter (fun e => F < e_Index e) l) = filter (fun e => G < e_Index e) l.
Proof.
  intros H. induction l as [|e l IH]; [done|]. rewrite (filter_cons (fun e => F < e_Index e)).
  case_decide; rewrite !filter_cons; repeat case_decide; try lia; by rewrite ?IH.
Qed.

(** What [NewNode] reads back. *)
Lemma loaded_fields n :
  node_inv n -> exists ents,
    (match disk_state (persister n) with
     | Some st => (CurrentTerm st, VotedFor st, StateLog st) | None => (0, [], []) end)
    = (currentTerm n, votedFor n, ents) /\
    filter (fun e => base (log n) < e_Index e) ents = tail (log n) /\
    (disk_snapshot (persister n) = None -> ents = tail (log n)).
Proof.
  intros [_ Hs _ _]. unfold state_inv in Hs. destruct (disk_state (persister n)) as [st|].
  - destruct Hs as (<- & <- & Hl & Hl'). by eexists.
  - destruct Hs as (-> & -> & Hl). exists []. by rewrite Hl.
Qed.

(** The node a restart builds from boundary [F]. *)
Lemma restart_node n ents F T data pending r :
  node_inv n -> filter (fun e => base (log n) < e_Index e) ents = tail (log n) ->
  base (log n) <= F < 2 ^ 64 - 1 ->
  match disk_snapshot (persister n) with
  | Some s => F = LastIncludedIndex s /\ T = LastIncludedTerm s /\ data = SnapshotData s
  | None => F = 0 /\ T = 0 end ->
  (disk_snapshot (persister n) = None -> ents = tail (log n)) ->
  (match disk_state (persister n) with
   | Some st => (CurrentTerm st, VotedFor st, StateLog st) | None => (0, [], []) end) = (currentTerm n, votedFor n, ents) ->
  let n' := resetElectionTimerLocked
    (MkNode (cfg n) (currentTerm n) (votedFor n)
       (newLogFromEntries F T (filter (fun e => F < e_Index e) ents)) 0 0 Follower [] None ∅ ∅ 0 0 0
       (persister n) data pending None false false) r in
  node_inv n' /\ base (log n') = F /\
  (forall i, F < i < 2 ^ 64 -> EntryAt (log n') i = EntryAt (log n) i).
Proof.
  intros Hi Hf HF Hsn Hnone Hst n'. pose proof (N_log _ Hi) as Hw.
  assert (filter (fun e => F < e_Index e) ents = filter (fun e => F < e_Index e) (tail (log n))) as E.
  { rewrite <- Hf, filter_filter_le by lia. done. }
  destruct (restart_log (log n) F T Hw HF) as (Hw' & Hb' & Ht' & Htl & _ & He).
  unfold n'. rewrite E in *. split; [|by split]. split; cbn; try done.
  - unfold state_inv. cbn. destruct (disk_state (persister n)) as [st|] eqn:Ed.
    + injection Hst as -> -> ->. split_and!; try done. intros Hno. rewrite Hno in Hsn.
      destruct Hsn as [-> _]. rewrite (Hnone Hno). symmetry. apply (filter_above 0 (base (log n) + 1)).
      * by apply tail_numbered.
      * pose proof (wf_base _ Hw). lia.
    + injection Hst as <- <- <-. rewrite <- E. done.
  - unfold snapshot_inv. cbn -[base]. destruct (disk_snapshot (persister n)) as [s|].
    + destruct Hsn as (-> & -> & ->). split; [lia|done].
    + destruct Hsn as [-> ->]. done.
Qed.

Lemma newNode_recovers n r :
  node_inv n -> exists n', newNode (cfg n) (persister n) r = Ok n' /\ node_inv n' /\
    currentTerm n' = currentTerm n /\ votedFor n' = votedFor n /\
    base (log n) <= base (log n') /\
    (forall i, base (log n') < i < 2 ^ 64 -> EntryAt (log n') i = EntryAt (log n) i) /\
    match disk_snapshot (persister n) with
    | Some s => base (log n') = LastIncludedIndex s /\ pendingSnapshot n' = Some s
    | None => base (log n') = base (log n) /\ pendingSnapshot n' = None
    end.
Proof.
  intros Hi. destruct (loaded_fields n Hi) as (ents & Eld & Hf & Hnone). unfold newNode. rewrite Eld.
  pose proof (N_snapshot _ Hi) as Hn. unfold snapshot_inv in Hn. pose proof (N_log _ Hi) as Hw.
  pose proof (wf_base _ Hw). destruct (disk_snapshot (persister n)) as [s|] eqn:Es.
  - destruct Hn as [Hn1 Hn2].
    destruct (restart_log (log n) (LastIncludedIndex s) (LastIncludedTerm s) Hw ltac:(lia)) as (_ & _ & _ & _ & Hh & _).
    rewrite <- Hf, filter_filter_le in Hh by lia.
    assert (match head (filter (fun e => LastIncludedIndex s < e_Index e) ents) with
      | Some e => negb (e_Index e =? u64 (LastIncludedIndex s + 1)) | None => false end = false) as ->.
    { destruct (head _) as [e|]; [|done]. rewrite (Hh e eq_refl), u64_small by (unfold is_u64; lia).
      by rewrite Z.eqb_refl. }
    eexists. split; [reflexivity|].
    destruct (restart_node n ents (LastIncludedIndex s) (LastIncludedTerm s) (SnapshotData s) (Some s) r)
      as (Hi' & Hb' & He'); [done|done|lia|by rewrite Es|by rewrite Es|done|].
    rewrite Hb'. split_and!; try done. lia.
  - destruct Hn as [Hn1 Hn2]. eexists. split; [reflexivity|].
    destruct (restart_node n ents 0 0 [] None r) as (Hi' & Hb' & He');
      [done|done|lia|by rewrite Es|by rewrite Es|done|].
    rewrite Hn1 in Hf.
    assert (filter (fun e => 0 < e_Index e) ents = ents) as E0.
    { rewrite (Hnone eq_refl). apply (filter_above 0 (base (log n) + 1)); [by apply tail_numbered|lia]. }
    rewrite E0 in *. rewrite Hb', Hn1. split_and!; done || lia.
Qed.

(** ** The life of a node *)

(** A node's steps, with messages whose indices stay below 2^64, and
    crashes. *)
Inductive node_step (n : Node) : Node -> Prop :=
| ns_tick f : node_step n (Tick n f).1
| ns_vote f args : node_step n (HandleRequestVote n f args).1
| ns_vote_reply f p t r n' rpcs : onRequestVoteReply n f p t r = Some (n', rpcs) -> node_step n n'
| ns_append f args : append_bounded args -> node_step n (HandleAppendEntries n f args).1
| ns_append_reply f p t args r : node_step n (onAppendEntriesReply n f p t args r).1
| ns_snapshot f args : install_bounded args -> node_step n (HandleInstallSnapshot n f args).1
| ns_snapshot_reply f p t s b r : node_step n (onInstallSnapshotReply n f p t s b r).1
| ns_propose f command : base (log n) + zlen (log n) + 1 < 2 ^ 64 -> node_step n (Propose n f command).1.1
| ns_create_snapshot f index data : is_u64 index -> node_step n (CreateSnapshot n f index data).1
| ns_mark index : node_step n (MarkApplied n index).1
| ns_confirm index : node_step n (ConfirmSnapshotRestored n index).1
| ns_crash r n' : newNode (cfg n) (persister n) r = Ok n' -> node_step n n'.

Inductive node_life (c : Config) : Node -> Prop :=
| nl_new r n : newNode c empty_disk r = Ok n -> node_life c n
| nl_step n n' : node_life c n -> node_step n n' -> node_life c n'.

Lemma node_inv_new c r n : newNode c empty_disk r = Ok n -> node_inv n.
Proof. intros [= <-]. split; [apply NewLog_wf|done..]. Qed.

Lemma node_inv_step n n' : node_inv n -> node_step n n' -> node_inv n'.
Proof.
  intros Hi [| |f p t r m rpcs E| | | | | | | | |r m E];
    eauto using node_inv_Tick, node_inv_HandleRequestVote, node_inv_onRequestVoteReply,
      node_inv_HandleAppendEntries, node_inv_onAppendEntriesReply, node_inv_HandleInstallSnapshot,
      node_inv_onInstallSnapshotReply, node_inv_Propose, node_inv_CreateSnapshot, node_inv_MarkApplied,
      node_inv_Confirm.
  destruct (newNode_recovers n r Hi) as (n'' & E' & Hi' & _). rewrite E in E'. by injection E' as ->.
Qed.

Lemma node_life_inv c n : node_life c n -> node_inv n.
Proof. induction 1; eauto using node_inv_new, node_inv_step. Qed.

(** ** Theorems *)

(** Files that hold what a node saved load without an error. *)
Lemma load_disk_represents {P Env} `{Persister P Env, !PersisterLaws P Env} (p : P) d :
  represents p d -> load_disk p = Ok d.
Proof.
  intros Hp. destruct (Load_law _ _ Hp) as [E1 E2]. unfold load_disk. rewrite E1, E2.
  unfold load_state, load_snapshot. by destruct d as [[] []].
Qed.

(** C9. Restart, through the whole of [NewNode] with its two loads. After
    any life of a node (indices below 2^64; failed saves included, also half
    way through creating or installing a snapshot), if the two files hold
    the encodings of what the node's successful saves wrote, [NewNode]
    succeeds, with the same term and vote, a well-formed log with every
    entry after the boundary, and, where a snapshot was saved, its boundary
    and the snapshot pending. If a file exists and does not decode, be it
    the state or the snapshot, [NewNode] returns a corruption error instead
    of starting. The first condition can fail for a state whose encoding
    exceeds [maxStateSize]: it is saved without an error and is refused when
    loaded ([oversized_state_unreadable]). *)
Theorem restart_recovers c n (p : FilePersister) r :
  node_life c n ->
  (represents p (persister n) ->
   exists n', startNode (cfg n) p r = Ok n' /\
     currentTerm n' = currentTerm n /\ votedFor n' = votedFor n /\ log_wf (log n') /\
     base (log n) <= base (log n') /\
     (forall i, base (log n') < i < 2 ^ 64 -> EntryAt (log n') i = EntryAt (log n) i) /\
     match disk_snapshot (persister n) with
     | Some s => base (log n') = LastIncludedIndex s /\ pendingSnapshot n' = Some s
     | None => base (log n') = base (log n) /\ pendingSnapshot n' = None
     end) /\
  ((exists b, f_target (fp_path p) = Some b /\ forall st, decodeState b <> Done st) \/
   (exists b, f_target (fp_snapshotPath p) = Some b /\ forall s, decodeSnapshot b <> Done s) ->
   startNode (cfg n) p r = Err (ErrLoad ErrCorrupt)).
Proof.
  intros Hl%node_life_inv. unfold startNode. split.
  - intros Hp. rewrite (load_disk_represents p _ Hp).
    destruct (newNode_recovers n r Hl) as (n' & E & Hi & Ht & Hv & Hb & He & Hs).
    exists n'. split_and!; try done. apply (N_log _ Hi).
  - unfold load_disk. cbn. unfold fp_LoadState, fp_LoadSnapshot. intros [(b & -> & Hb)|(b & -> & Hb)].
    + destruct (decodeState b) as [st| |]; [by destruct (Hb st)|done..].
    + destruct (decodeSnapshot b) as [s| |]; [by destruct (Hb s)|..];
        (destruct (f_target (fp_path p)) as [d|]; [|done]; by destruct (decodeState d)).
Qed.

Lemma prologue_log n f term n1 :
  (if term >? currentTerm n then becomeFollowerLocked n f term else Some n) = Some n1 -> log n1 = log n.
Proof.
  case_if; [|by intros [= <-]]. unfold becomeFollowerLocked, persistLocked.
  destruct (fail_term f); [done|]. by intros [= <-].
Qed.

(** What a follower holds where it said it holds the leader's entries. *)
Lemma HandleAppendEntries_entries n f args n' reply k e :
  append_bounded args -> node_inv n -> HandleAppendEntries n f args = (n', reply) -> aer_Success reply = true ->
  ae_Entries args !! k = Some e ->
  let i := ae_PrevLogIndex args + 1 + Z.of_nat k in
  base (log n') < i < 2 ^ 64 /\ exists e', EntryAt (log n') i = Some e' /\
    (e' = MkEntry i (e_Term e) (e_Command e) \/ EntryAt (log n) i = Some e' /\ e_Term e' = e_Term e).
Proof.
  intros [Hu Hb] Hi. unfold HandleAppendEntries.
  destruct (if ae_Term args >? currentTerm n then _ else _) as [n1|] eqn:E; [|by intros [= <- <-]].
  pose proof (prologue_log _ _ _ _ E) as Elog.
  apply (node_inv_prologue _ _ _ _ Hi) in E. rewrite <- Elog. clear Hi n Elog. case_if; [by intros [= <- <-]|].
  set (n2 := resetElectionTimerLocked _ _). assert (node_inv n2) as Hi2 by frame_of E.
  change (log n1) with (log n2).
  case_if; [by intros [= <- <-]|]. zbool. pose proof (N_log _ Hi2) as Hw.
  match goal with H : TermAt _ _ = Some _ |- _ => apply (TermAt_range _ _ _ Hw Hu) in H as Hr end.
  pose proof (AppendAfter_wf _ _ _ Hw Hr Hb) as (Hw' & Hb' & HL').
  pose proof (AppendAfter_merge _ _ _ Hw Hr Hb) as Hm.
  destruct (AppendAfter _ _ _) as [l changed] eqn:Ea. cbn [fst] in *.
  assert (ae_Entries args !! k = Some e ->
    base l < ae_PrevLogIndex args + 1 + Z.of_nat k < 2 ^ 64 /\
    exists e', EntryAt l (ae_PrevLogIndex args + 1 + Z.of_nat k) = Some e' /\
    (e' = MkEntry (ae_PrevLogIndex args + 1 + Z.of_nat k) (e_Term e) (e_Command e) \/
     EntryAt (log n2) (ae_PrevLogIndex args + 1 + Z.of_nat k) = Some e' /\ e_Term e' = e_Term e)) as Hentry.
  { intros Hk. pose proof (f_equal fst Hm) as Hl. cbn [fst] in Hl. pose proof (wf_base _ Hw). pose proof (lookup_lt_Some _ _ _ Hk).
    rewrite LastIndex_wf in Hr by done. unfold is_u64, zlen in *. split; [lia|].
    rewrite !EntryAt_lookup by (done || lia). rewrite Hb'.
    destruct (merge_entries (drop (Z.to_nat (ae_PrevLogIndex args - base (log n2) + 1)) (log n2))
      (ae_PrevLogIndex args + 1) _ _ _ Hk) as (e' & He' & Hor).
    exists e'. rewrite lookup_drop in Hor. split.
    - rewrite Hl, lookup_app_r by (rewrite length_take; lia). rewrite length_take, Nat.min_l by lia.
      rewrite <- He'. f_equal. lia.
    - destruct Hor as [?|[Ho Ht]]; [by left|right]. split; [|done]. rewrite <- Ho. f_equal. lia. }
  destruct changed.
  - destruct (persistLocked _ _) as [n3|] eqn:Ep; [|by intros [= <- <-]]. intros [= <- <-] _ Hk.
    unfold persistLocked in Ep. destruct (fail_state f); simplify_eq. repeat case_if; by apply Hentry.
  - intros [= <- <-] _ Hk. injection Hm as Hl Hc. symmetry in Hc. apply merge_unchanged in Hc.
    rewrite Hc, take_drop in Hl. subst l. repeat case_if; by apply Hentry.
Qed.


(** ** A life with a crash half way through a snapshot *)

Definition lone_cfg : Config := MkConfig [x61] [] 1 1 1 4.
Definition lone0 : Node :=
  MkNode lone_cfg 0 [] NewLog 0 0 Follower [] None ∅ ∅ 0 1 0 empty_disk [] None None false false.
Definition lone1 : Node := (Tick lone0 calm_faults).1.
Definition lone2 : Node := (Propose lone1 calm_faults [x01]).1.1.
Definition lone3 : Node := (Propose lone2 calm_faults [x02]).1.1.
Definition lone4 : Node := (MarkApplied lone3 1).1.
(** The snapshot is saved, the compacted log is not. *)
Definition lone5 : Node := (CreateSnapshot lone4 (MkFaults false true false 0 0) 1 [x07]).1.

Lemma lone3_life : node_life lone_cfg lone3.
Proof.
  repeat (eapply nl_step; [|first [by apply ns_propose|apply ns_tick]]). by apply (nl_new _ 0).
Qed.

Lemma lone5_life : node_life lone_cfg lone5.
Proof. do 2 (eapply nl_step; [|first [by apply ns_create_snapshot|apply ns_mark]]). apply lone3_life. Qed.

(** The files as the node's saves leave them. *)
Definition lone5_saves : list (file_env * save_op) :=
  [(MkFileEnv None true, OpState (MkState 1 [x61] [MkEntry 1 1 [x01]; MkEntry 2 1 [x02]]));
   (MkFileEnv None true, OpSnapshot (MkSnapshot 1 1 [x07]))].
Definition lone5_files : FilePersister := (fp_calls no_files lone5_saves).1.

Lemma lone5_files_hold : represents lone5_files (persister lone5).
Proof.
  assert (persister lone5 = disk_after empty_disk (fp_calls no_files lone5_saves).2) as ->
    by (vm_compute; reflexivity).
  apply (fp_calls_spec no_files empty_disk lone5_saves); [done|].
  repeat constructor; vm_compute; try done; split_and!; done.
Qed.

Example restart_recovers_witness :
  base (log lone5) = 0 /\ exists n', startNode lone_cfg lone5_files 0 = Ok n' /\
    base (log n') = 1 /\ EntryAt (log n') 2 = Some (MkEntry 2 1 [x02]) /\
    pendingSnapshot n' = Some (MkSnapshot 1 1 [x07]).
Proof.
  split; [vm_compute; reflexivity|].
  destruct (restart_recovers lone_cfg lone5 lone5_files 0 lone5_life) as [Hok _].
  destruct (Hok lone5_files_hold) as (n' & E & _ & _ & _ & _ & He & Hs).
  assert (disk_snapshot (persister lone5) = Some (MkSnapshot 1 1 [x07])) as Ed by (vm_compute; reflexivity).
  rewrite Ed in Hs. destruct Hs as [Hb Hp].
  exists n'. split; [exact E|]. split; [exact Hb|]. split; [|exact Hp].
  rewrite He by (rewrite Hb; split; reflexivity). vm_compute. reflexivity.
Defined.

