(* ===== verification/RaftGhost.v ===== *)
(** * Logs without their compaction

    A node's log forgets everything before its snapshot. For reasoning about
    agreement, [rep l g] relates it to the whole sequence [g] of terms and
    commands it stands for, index 1 first; each operation of log.go is then
    an operation on plain sequences. *)

From S2P Require Import Prelude Bytes RaftLog RaftFormat RaftPersist RaftNode RaftElection RaftDurable.
From stdpp Require Import base tactics numbers gmap list.
From Stdlib Require Import Strings.Byte.
From Stdlib Require Import ZArith Lia.
#[local] Open Scope Z_scope.

Abbreviation glog := (list (Z * bytes)).

Definition ghost (e : LogEntry) : Z * bytes := (e_Term e, e_Command e).
Definition ents (l : Log) : glog := ghost <$> tail l.

(** The term at an index; index 0 is the empty log's boundary. *)
Definition gterm (g : glog) (i : nat) : option Z :=
  match i with O => Some 0 | S j => fst <$> g !! j end.

Record rep (l : Log) (g : glog) : Prop := {
  rep_wf : log_wf l;
  rep_ents : ents l = drop (Z.to_nat (base l)) g;
  rep_base : (Z.to_nat (base l) <= length g)%nat;
  rep_head : gterm g (Z.to_nat (base l)) = Some (e_Term (l !!! 0%nat)) }.

(** ** Plain sequences *)

Lemma gterm_Some g i t : gterm g i = Some t -> (i <= length g)%nat.
Proof.
  destruct i as [|i]; simpl; [lia|]. destruct (g !! i) eqn:E; [|done]. apply lookup_lt_Some in E. lia.
Qed.

Lemma gterm_is_Some g i : (i <= length g)%nat -> is_Some (gterm g i).
Proof.
  intros Hi. destruct i as [|i]; simpl; [by eexists|]. destruct (lookup_lt_is_Some_2 g i) as [e He]; [lia|].
  rewrite He. by eexists.
Qed.

Lemma gterm_take g i k : (i <= k)%nat -> gterm (take k g) i = gterm g i.
Proof. intros Hi. destruct i as [|i]; simpl; [done|]. by rewrite lookup_take_lt by lia. Qed.

Lemma gterm_agree g h k i : take k g = take k h -> (i <= k)%nat -> gterm g i = gterm h i.
Proof. intros E Hi. rewrite <- (gterm_take g i k), <- (gterm_take h i k) by done. by rewrite E. Qed.

Lemma take_agree_le {A} (g h : list A) k j : take k g = take k h -> (j <= k)%nat -> take j g = take j h.
Proof. intros E Hj. replace j with (Nat.min j k) by lia. by rewrite <- !take_take, E. Qed.

Lemma take_agree_length {A} (g h : list A) k : take k g = take k h -> (k <= length h)%nat -> (k <= length g)%nat.
Proof. intros E Hk. apply (f_equal length) in E. rewrite !length_take in E. lia. Qed.

Lemma prefix_take_agree {A} (g h : list A) k : g `prefix_of` h -> (k <= length g)%nat -> take k g = take k h.
Proof. intros [r ->] Hk. by rewrite take_app_le. Qed.

Lemma take_agree_lookup {A} (g h : list A) k : (forall i, (i < k)%nat -> g !! i = h !! i) -> take k g = take k h.
Proof.
  intros H. apply list_eq. intros i. destruct (decide (i < k)%nat).
  - rewrite !lookup_take_lt by done. by apply H.
  - rewrite !lookup_take_ge by lia. done.
Qed.

(** Appending entries after a position the way [AppendAfter] does: entries
    that are there with the same term are kept, and from the first that is
    not the rest is replaced. *)
Fixpoint gmerge (old new : glog) {struct new} : glog :=
  match new, old with
  | [], _ => old
  | e :: new', o :: old' => if o.1 =? e.1 then o :: gmerge old' new' else new
  | _ :: _, [] => new
  end.

Lemma ghost_renumber start es : ghost <$> renumber start es = ghost <$> es.
Proof. revert start. induction es as [|e es IH]; intros start; [done|]. cbn. by rewrite IH. Qed.

Lemma ghost_merge old start es : ghost <$> (RaftLog.merge old start es).1 = gmerge (ghost <$> old) (ghost <$> es).
Proof.
  revert old start. induction es as [|e es IH]; intros [|o old] start; [done..| |].
  - cbn [RaftLog.merge fst gmerge fmap list_fmap]. by rewrite ghost_renumber.
  - cbn [RaftLog.merge gmerge fmap list_fmap]. cbn [ghost fst]. case_if.
    + specialize (IH old (start + 1)). destruct (RaftLog.merge old (start + 1) es) as [r c]. cbn in *. by rewrite IH.
    + cbn [fst]. by rewrite ghost_renumber.
Qed.

(** Against a sequence that agrees with the old one wherever they share a
    term, the outcome is either the old sequence or exactly the new one. *)
Lemma gmerge_cases (old new : glog) :
  (forall k, gterm old (S k) <> None -> gterm old (S k) = gterm new (S k) -> old !! k = new !! k) ->
  (take (length new) old = new /\ gmerge old new = old) \/ (take (length new) old <> new /\ gmerge old new = new).
Proof.
  revert old. induction new as [|e new IH]; intros old Hag; [left; by destruct old|].
  destruct old as [|o old]; [right; done|]. cbn [gmerge length take]. case_if; zbool.
  - assert (o = e) as -> by (pose proof (Hag 0%nat) as H; cbn in H; specialize (H ltac:(done) ltac:(congruence)); congruence).
    destruct (IH old) as [[H1 H2]|[H1 H2]].
    + intros k. apply (Hag (S k)).
    + left. by rewrite H1, H2.
    + right. split; [congruence|by rewrite H2].
  - right. split; [|done]. intros [= -> _]. done.
Qed.

(** ** Logs *)

Lemma ents_length l : log_wf l -> length (ents l) = (length l - 1)%nat.
Proof. intros Hw. unfold ents. rewrite length_fmap. destruct l; simpl; lia. Qed.

Section Rep.
Context (l : Log) (g : glog) (Hr : rep l g).

Lemma rep_length : LastIndex l = Z.of_nat (length g).
Proof.
  pose proof (rep_wf _ _ Hr) as Hw. pose proof (wf_base _ Hw). pose proof (zlen_pos _ Hw).
  pose proof (f_equal length (rep_ents _ _ Hr)) as E. rewrite ents_length, length_drop in E by done.
  pose proof (rep_base _ _ Hr). rewrite (LastIndex_wf _ Hw). unfold zlen in *. lia.
Qed.

Lemma rep_lookup k e : (0 < k)%nat -> l !! k = Some e -> g !! (Z.to_nat (base l) + k - 1)%nat = Some (ghost e).
Proof.
  intros Hk He. destruct l as [|h t] eqn:El; [done|]. destruct k as [|k]; [lia|]. simpl in He.
  pose proof (rep_ents _ _ Hr) as E. unfold ents in E. simpl in E.
  pose proof (f_equal (lookup k) E) as E1. rewrite list_lookup_fmap, He, lookup_drop in E1. simpl in E1.
  rewrite E1. f_equal. lia.
Qed.

Lemma rep_TermAt i : base l <= i <= LastIndex l -> TermAt l i = gterm g (Z.to_nat i).
Proof.
  intros Hi. pose proof (rep_wf _ _ Hr) as Hw. pose proof (wf_base _ Hw). pose proof (LastIndex_bound _ Hw).
  rewrite TermAt_spec, decide_True by (done || lia).
  destruct (Z.eq_dec i (base l)) as [->|Hne]; [by rewrite Z.sub_diag, (rep_head _ _ Hr)|].
  rewrite (LastIndex_wf _ Hw) in Hi. unfold zlen in Hi.
  destruct (lookup_lt_is_Some_2 l (Z.to_nat (i - base l))) as [e He]; [lia|].
  rewrite (list_lookup_total_correct _ _ _ He).
  apply rep_lookup in He; [|lia]. replace (Z.to_nat i) with (S (Z.to_nat i - 1)) by lia. cbn [gterm].
  replace (Z.to_nat (base l) + Z.to_nat (i - base l) - 1)%nat with (Z.to_nat i - 1)%nat in He by lia. by rewrite He.
Qed.

Lemma rep_TermAt_Some i t :
  is_u64 i -> TermAt l i = Some t -> base l <= i <= LastIndex l /\ gterm g (Z.to_nat i) = Some t.
Proof.
  intros Hi Ht. pose proof (TermAt_range _ _ _ (rep_wf _ _ Hr) Hi Ht) as Hb. split; [done|].
  by rewrite <- rep_TermAt.
Qed.

Lemma rep_LastTerm : gterm g (length g) = Some (LastTerm l).
Proof.
  pose proof (rep_wf _ _ Hr) as Hw. pose proof rep_length as HL. pose proof (zlen_pos _ Hw). pose proof (wf_base _ Hw).
  pose proof (LastIndex_bound _ Hw). pose proof (LastIndex_wf _ Hw) as E.
  replace (length g) with (Z.to_nat (LastIndex l)) by lia. rewrite <- rep_TermAt by lia.
  rewrite TermAt_spec, decide_True by (done || lia). unfold LastTerm. do 3 f_equal. unfold zlen in *. lia.
Qed.

Lemma rep_EntryAt i e : EntryAt l i = Some e -> 0 < i < 2 ^ 64 -> g !! (Z.to_nat i - 1)%nat = Some (ghost e).
Proof.
  intros He Hi. pose proof (rep_wf _ _ Hr) as Hw. pose proof (wf_base _ Hw). unfold EntryAt in He.
  destruct (i <=? base l) eqn:E1; [done|]. destruct (_ >=? _) eqn:E2; [done|]. zbool. rewrite (offset_wf _ Hw) in * by lia. unfold zlen in *.
  destruct (lookup_lt_is_Some_2 l (Z.to_nat (i - base l))) as [e' He']; [lia|].
  rewrite (list_lookup_total_correct _ _ _ He') in He. injection He as ->.
  apply rep_lookup in He'; [|lia]. rewrite <- He'. f_equal. lia.
Qed.

Lemma rep_Slice from : base l < from -> from <= LastIndex l + 1 -> ghost <$> Slice l from = drop (Z.to_nat (from - 1)) g.
Proof.
  intros Hf Ht. pose proof (rep_wf _ _ Hr) as Hw. pose proof (wf_base _ Hw). pose proof (LastIndex_bound _ Hw).
  pose proof rep_length as HL. pose proof (LastIndex_wf _ Hw) as E.
  unfold Slice. rewrite (proj2 (Z.leb_gt _ _)) by lia. rewrite (offset_wf _ Hw) by lia. case_if; zbool.
  - rewrite drop_ge by lia. done.
  - rewrite fmap_drop. destruct l as [|h t] eqn:El; [done|].
    pose proof (rep_ents _ _ Hr) as Ee. unfold ents in Ee. simpl tail in Ee.
    replace (Z.to_nat (from - base (h :: t))) with (S (Z.to_nat (from - base (h :: t)) - 1)) by lia.
    rewrite fmap_cons. cbn [drop]. rewrite Ee, drop_drop. f_equal. lia.
Qed.
End Rep.

(** ** Operations *)

Lemma rep_new : rep NewLog [].
Proof. split; [apply NewLog_wf|done..]. Qed.

Lemma rep_Append l g e :
  rep l g -> base l + zlen l + 1 < 2 ^ 64 -> rep (log_Append l e).1 (g ++ [ghost e]).
Proof.
  intros Hr Hb. pose proof (rep_wf _ _ Hr) as Hw. destruct (Append_wf l Hw e Hb) as (Hw' & _ & _).
  pose proof (wf_nonempty _ Hw). pose proof (rep_base _ _ Hr).
  assert (base (log_Append l e).1 = base l) as Eb by (by apply base_app).
  split; rewrite ?Eb; [done| | |].
  - rewrite drop_app_le by done. rewrite <- (rep_ents _ _ Hr). unfold ents. cbn [log_Append fst].
    destruct l as [|h t]; [done|]. simpl. by rewrite fmap_app.
  - rewrite length_app. lia.
  - rewrite <- (gterm_take _ _ (length g)), take_app_length by done. rewrite (rep_head _ _ Hr). do 2 f_equal. by destruct l.
Qed.

(** Moving the boundary forward. *)
Lemma rep_cut l g F T :
  rep l g -> base l <= F <= LastIndex l -> gterm g (Z.to_nat F) = Some T ->
  rep (MkEntry F T [] :: drop (Z.to_nat (F - base l + 1)) l) g.
Proof.
  intros Hr HF Ht. pose proof (rep_wf _ _ Hr) as Hw. destruct (cut_wf l F T Hw HF) as (Hw' & _).
  split; [done| |by apply gterm_Some in Ht|done]. change (base (_ :: _)) with F. unfold ents. cbn [tail].
  pose proof (wf_base _ Hw). destruct l as [|h t] eqn:El; [by apply wf_nonempty in Hw|].
  replace (Z.to_nat (F - base (h :: t) + 1)) with (S (Z.to_nat (F - base (h :: t)))) by lia. cbn [drop].
  pose proof (rep_ents _ _ Hr) as E. unfold ents in E. cbn [tail] in E. rewrite fmap_drop, E, drop_drop. f_equal. lia.
Qed.

Lemma rep_compact l g F l' : rep l g -> base l <= F <= LastIndex l -> compact l F = Some l' -> rep l' g.
Proof.
  intros Hr HF. pose proof (rep_wf _ _ Hr) as Hw. pose proof (wf_base _ Hw). pose proof (LastIndex_bound _ Hw).
  unfold compact. rewrite (rep_TermAt _ _ Hr) by done. destruct (gterm g (Z.to_nat F)) as [t|] eqn:Et; [|done].
  intros [= <-]. rewrite (offset_wf _ Hw) by lia. by apply rep_cut.
Qed.

(** The log a restart rebuilds. *)
Lemma rep_restart l g F T :
  rep l g -> base l <= F <= LastIndex l -> gterm g (Z.to_nat F) = Some T ->
  rep (newLogFromEntries F T (filter (fun e => F < e_Index e) (tail l))) g.
Proof.
  intros Hr HF Ht. pose proof (rep_wf _ _ Hr) as Hw. pose proof (LastIndex_bound _ Hw).
  destruct (restart_log l F T Hw ltac:(lia)) as (Hw' & _). split; [done| |by apply gterm_Some in Ht|done].
  change (base (newLogFromEntries F T _)) with F. unfold ents, newLogFromEntries. cbn [tail].
  rewrite (filter_numbered F (base l + 1)) by (lia || by apply tail_numbered).
  rewrite fmap_drop. fold (ents l). rewrite (rep_ents _ _ Hr), drop_drop. f_equal. pose proof (wf_base _ Hw). lia.
Qed.

Lemma rep_AppendAfter l g prev es :
  rep l g -> base l <= prev <= LastIndex l -> prev + 1 + zlen es < 2 ^ 64 ->
  rep (AppendAfter l prev es).1 (take (Z.to_nat prev) g ++ gmerge (drop (Z.to_nat prev) g) (ghost <$> es)).
Proof.
  intros Hr Hp Hb. pose proof (rep_wf _ _ Hr) as Hw. pose proof (wf_base _ Hw).
  destruct (AppendAfter_wf l prev es Hw Hp Hb) as (Hw' & Eb & _).
  pose proof (head_AppendAfter l prev es Hw Hp Hb) as Eh. pose proof (rep_base _ _ Hr).
  rewrite (rep_length _ _ Hr) in Hp.
  assert (Hhead : (Z.to_nat (base l) <= length (take (Z.to_nat prev) g))%nat) by (rewrite length_take; lia).
  split; rewrite ?Eb; [done| | |].
  - rewrite AppendAfter_merge by (done || by rewrite (rep_length _ _ Hr)). cbn [fst].
    set (n := Z.to_nat (prev - base l + 1)).
    rewrite drop_app_le by done.
    assert (ents (take n l ++ (RaftLog.merge (drop n l) (prev + 1) es).1) =
            (ghost <$> tail (take n l)) ++ (ghost <$> (RaftLog.merge (drop n l) (prev + 1) es).1)) as ->.
    { unfold ents. assert (n = S (Z.to_nat (prev - base l))) as -> by lia.
      destruct l as [|h t]; [by apply wf_nonempty in Hw|]. simpl. by rewrite fmap_app. }
    rewrite ghost_merge.
    assert (n = S (Z.to_nat (prev - base l))) as -> by lia.
    destruct l as [|h t] eqn:El; [by apply wf_nonempty in Hw|]. cbn [take tail drop].
    pose proof (rep_ents _ _ Hr) as E. unfold ents in E. cbn [tail] in E.
    rewrite fmap_take, fmap_drop, E, drop_drop, take_drop_commute. f_equal.
    + f_equal. f_equal. lia.
    + f_equal. f_equal. lia.
  - rewrite length_app. lia.
  - rewrite Eh, <- (rep_head _ _ Hr). rewrite <- (gterm_take _ _ (length (take (Z.to_nat prev) g))) by done.
    rewrite take_app_length. apply gterm_take. lia.
Qed.

Lemma newNode_rep n r n' g :
  node_inv n -> rep (log n) g ->
  (forall s, disk_snapshot (persister n) = Some s -> gterm g (Z.to_nat (LastIncludedIndex s)) = Some (LastIncludedTerm s)) ->
  newNode (cfg n) (persister n) r = Ok n' -> rep (log n') g.
Proof.
  intros Hi Hr Hs. destruct (loaded_fields n Hi) as (es & Eld & Hf & Hnone). unfold newNode. rewrite Eld.
  pose proof (N_snapshot _ Hi) as Hn. unfold snapshot_inv in Hn. pose proof (wf_base _ (N_log _ Hi)).
  pose proof (rep_length _ _ Hr) as HL.
  destruct (disk_snapshot (persister n)) as [s|] eqn:Es.
  - specialize (Hs s eq_refl). pose proof (gterm_Some _ _ _ Hs). case_if; [done|]. intros [= <-]. cbn [log resetElectionTimerLocked set_election].
    rewrite <- (filter_filter_le (base (log n))), Hf by lia. apply rep_restart; [done|lia|done].
  - intros [= <-]. cbn [log resetElectionTimerLocked set_election]. destruct Hn as [Hn1 Hn2].
    rewrite (Hnone eq_refl). assert (newLogFromEntries 0 0 (tail (log n)) =
      newLogFromEntries 0 0 (filter (fun e => 0 < e_Index e) (tail (log n)))) as ->.
    { unfold newLogFromEntries. f_equal. symmetry. rewrite <- Hn1. apply filter_tail, (N_log _ Hi). }
    apply rep_restart; [done|lia|done].
Qed.

(** A snapshot's boundary against the sequence it is a prefix of. *)
Lemma rep_install l g h idx term :
  rep l g -> base l < idx -> idx + 1 < 2 ^ 64 -> (Z.to_nat idx <= length h)%nat -> gterm h (Z.to_nat idx) = Some term ->
  (gterm g (Z.to_nat idx) = Some term -> take (Z.to_nat idx) g = take (Z.to_nat idx) h) ->
  exists g', rep (installSnapshotBoundary l idx term) g' /\
    ((take (Z.to_nat idx) g = take (Z.to_nat idx) h /\ g' = g) \/
     (take (Z.to_nat idx) g <> take (Z.to_nat idx) h /\ g' = take (Z.to_nat idx) h)).
Proof.
  intros Hr Hb Hu Hh Ht Hag. pose proof (rep_wf _ _ Hr) as Hw. pose proof (wf_base _ Hw).
  pose proof (rep_length _ _ Hr) as HL. unfold installSnapshotBoundary.
  assert (Hcut : rep [MkEntry idx term []] (take (Z.to_nat idx) h)).
  { split; change (base [MkEntry idx term []]) with idx.
    - split; [done|cbn; lia|change (idx + 1 < 2 ^ 64); lia|]. intros [|k] e He; simplify_eq/=. cbn. lia.
    - rewrite drop_ge; [done|]. rewrite length_take. lia.
    - rewrite length_take. lia.
    - rewrite gterm_take by done. exact Ht. }
  destruct (decide (gterm g (Z.to_nat idx) = Some term)) as [Hg|Hg].
  - pose proof (gterm_Some _ _ _ Hg). rewrite (rep_TermAt _ _ Hr) by lia. rewrite Hg, Z.eqb_refl.
    rewrite (offset_wf _ Hw) by lia. exists g. split; [|left; auto]. apply rep_cut; [done|lia|done].
  - assert (Hdiff : take (Z.to_nat idx) g <> take (Z.to_nat idx) h).
    { intros E. apply Hg. by rewrite (gterm_agree _ _ _ _ E). }
    exists (take (Z.to_nat idx) h). split; [|by right].
    destruct (TermAt l idx) as [t|] eqn:Et; [|exact Hcut].
    apply (rep_TermAt_Some _ _ Hr) in Et as [_ Et]; [|unfold is_u64; lia].
    rewrite (proj2 (Z.eqb_neq _ _)); [exact Hcut|congruence].
Qed.
