(* ===== verification/RaftSafety.v ===== *)
(** * Agreement

    The whole cluster as a step relation in which every message was really
    sent ([RaftElection] lets AppendEntries and InstallSnapshot carry
    anything): elections, replication, commitment, compaction, snapshot
    installation, failing saves, crashes. What is committed at an index is
    never anything else, on any node, at any later time. *)

From S2P Require Import Prelude Bytes RaftLog RaftFormat RaftPersist RaftNode RaftElection RaftDurable RaftGhost.
From stdpp Require Import base tactics numbers gmap fin_sets list.
From Stdlib Require Import Strings.Byte.
From Stdlib Require Import ZArith Lia.
#[local] Open Scope Z_scope.

(** ** The cluster *)

(** A message stays deliverable for ever, so it can be lost, delayed,
    reordered and duplicated. A reply travels with the call it answers, since
    the goroutine that made the call handles it. *)
Inductive msg :=
| MVote (from to : bytes) (args : RequestVoteArgs)
| MVoteReply (from to : bytes) (term : Z) (reply : RequestVoteReply)
| MAppend (from to : bytes) (args : AppendEntriesArgs)
| MAppendReply (from to : bytes) (args : AppendEntriesArgs) (reply : AppendEntriesReply)
| MSnapshot (from to : bytes) (term : Z) (snap : Snapshot)
| MSnapshotReply (from to : bytes) (term : Z) (snap : Snapshot) (final : bool) (reply : InstallSnapshotReply).

Record world := MkWorld { w_nodes : gmap bytes Node; w_mail : list msg }.

Definition posted (i : bytes) (r : Rpc) : msg :=
  match r with
  | RpcRequestVote p args => MVote i p args
  | RpcAppendEntries p args => MAppend i p args
  | RpcInstallSnapshot p term snap => MSnapshot i p term snap
  end.

Definition update (w : world) (i : bytes) (n : Node) (ms : list msg) : world :=
  MkWorld (<[i := n]> (w_nodes w)) (ms ++ w_mail w).

(** A chunk of the transfer of [snap], with any data. *)
Definition chunk_of (from : bytes) (term : Z) (snap : Snapshot) (args : InstallSnapshotArgs) : Prop :=
  is_Term args = term /\ is_LeaderID args = from /\ is_LastIncludedIndex args = LastIncludedIndex snap /\
  is_LastIncludedTerm args = LastIncludedTerm snap /\ is_Chunked args = true.

(** Terms and indices stay below 2^64. In an installation the save of the
    log does not fail, or crash, after the save of the snapshot. *)
Inductive wrun (w : world) : world -> Prop :=
| ws_tick i n f n' rpcs :
    w_nodes w !! i = Some n -> currentTerm n + 1 < 2 ^ 64 -> Tick n f = (n', rpcs) ->
    wrun w (update w i n' (posted i <$> rpcs))
| ws_vote from i args n f n' reply :
    MVote from i args ∈ w_mail w -> w_nodes w !! i = Some n -> HandleRequestVote n f args = (n', reply) ->
    wrun w (update w i n' [MVoteReply i from (rv_Term args) reply])
| ws_vote_reply from i term reply n f n' rpcs :
    MVoteReply from i term reply ∈ w_mail w -> w_nodes w !! i = Some n ->
    onRequestVoteReply n f from term reply = Some (n', rpcs) -> wrun w (update w i n' (posted i <$> rpcs))
| ws_append from i args n f n' reply :
    MAppend from i args ∈ w_mail w -> w_nodes w !! i = Some n -> HandleAppendEntries n f args = (n', reply) ->
    wrun w (update w i n' [MAppendReply i from args reply])
| ws_append_reply from i args reply n f n' b :
    MAppendReply from i args reply ∈ w_mail w -> w_nodes w !! i = Some n ->
    onAppendEntriesReply n f from (ae_Term args) args reply = (n', b) -> wrun w (update w i n' [])
| ws_snapshot from i term snap args n f n' reply :
    MSnapshot from i term snap ∈ w_mail w -> chunk_of from term snap args -> w_nodes w !! i = Some n ->
    (fail_state f = true -> fail_snapshot f = true) -> HandleInstallSnapshot n f args = (n', reply) ->
    wrun w (update w i n' [MSnapshotReply i from term snap (is_Final args) reply])
| ws_snapshot_reply from i term snap final reply n f n' b :
    MSnapshotReply from i term snap final reply ∈ w_mail w -> w_nodes w !! i = Some n ->
    onInstallSnapshotReply n f from term snap final reply = (n', b) -> wrun w (update w i n' [])
| ws_propose i n f command n' rpcs r :
    w_nodes w !! i = Some n -> base (log n) + zlen (log n) + 1 < 2 ^ 64 -> Propose n f command = (n', rpcs, r) ->
    wrun w (update w i n' (posted i <$> rpcs))
| ws_read i n r :
    w_nodes w !! i = Some n -> ReadIndex_begin n = Ok r ->
    wrun w (update w i n ((fun c => MAppend i c.1 c.2) <$> pr_calls r))
| ws_create_snapshot i n f index data n' r :
    w_nodes w !! i = Some n -> is_u64 index -> CreateSnapshot n f index data = (n', r) -> wrun w (update w i n' [])
| ws_mark i n index n' r :
    w_nodes w !! i = Some n -> MarkApplied n index = (n', r) -> wrun w (update w i n' [])
| ws_confirm i n index n' r :
    w_nodes w !! i = Some n -> ConfirmSnapshotRestored n index = (n', r) -> wrun w (update w i n' []).

(** A node may also stop, and start again from its disk. *)
Inductive wstep (w : world) : world -> Prop :=
| ws_run w' : wrun w w' -> wstep w w'
| ws_crash i n r n' :
    w_nodes w !! i = Some n -> newNode (cfg n) (persister n) r = Ok n' -> wstep w (update w i n' []).

(** ** The history behind a state

    The log of each node without its compaction; for every term that had a
    leader, the longest log it had in that term ([h_lead]) and the one it was
    elected with ([h_elect]); the logs candidates campaigned with; and what
    was acknowledged: [(v, T, k)] when node [v], in term [T], agreed with
    that term's leader up to [k]. A vote is early if it was cast before its
    term had a leader. *)
Record history := MkHistory {
  h_core : cluster;
  h_log : gmap bytes glog;
  h_lead : gmap Z glog;
  h_elect : gmap Z glog;
  h_cand : list (Z * bytes * glog);
  h_ack : list (bytes * Z * nat);
  h_early : list (bytes * Z * bytes) }.

Section Safety.
Context (members : gset bytes) (cfg_of : bytes -> Config).
Context (Hid : forall i, i ∈ members -> c_id (cfg_of i) = i /\ i <> []).
Context (Hpeers : forall i, i ∈ members ->
  NoDup (i :: c_peers (cfg_of i)) /\ list_to_set (i :: c_peers (cfg_of i)) = members).

Definition winitial (w : world) : Prop :=
  w_mail w = [] /\ forall i n, w_nodes w !! i = Some n -> i ∈ members /\ exists r, newNode (cfg_of i) empty_disk r = Ok n.

(** Every prefix that ends in an entry of a term is that term's leader's. *)
Definition lm (H : history) (g : glog) : Prop :=
  forall i t, (0 < i)%nat -> gterm g i = Some t -> exists h, h_lead H !! t = Some h /\ take i g = take i h.

Definition terms_le (g : glog) (T : Z) : Prop := forall i t, gterm g i = Some t -> t <= T.

(** Index [k] of term [T]'s leader is of that term and acknowledged by a
    majority in that term. *)
Definition chosen (H : history) (T : Z) (k : nat) : Prop :=
  exists h, h_lead H !! T = Some h /\ gterm h k = Some T /\
    exists Q, quorum members Q /\ forall v, v ∈ Q -> exists k', (k <= k')%nat /\ (v, T, k') ∈ h_ack H.

(** The first [m] entries of [g] are settled, by a term up to [T]. *)
Definition decided (H : history) (g : glog) (m : nat) (T : Z) : Prop :=
  m = 0%nat \/ exists T0 k h, T0 <= T /\ chosen H T0 k /\ h_lead H !! T0 = Some h /\ (m <= k)%nat /\ take m g = take m h.

Record leader_facts (H : history) (i : bytes) (n : Node) (g : glog) : Prop := {
  LF_log : h_lead H !! currentTerm n = Some g;
  LF_self : (i, currentTerm n, length g) ∈ h_ack H;
  LF_next p : p ∈ peers n -> 1 <= next_of n p <= Z.of_nat (length g) + 1;
  LF_match p : p ∈ peers n -> 0 < match_of n p ->
    exists k, match_of n p <= Z.of_nat k /\ (p, currentTerm n, k) ∈ h_ack H }.

Record node_facts (H : history) (i : bytes) (n : Node) (g : glog) : Prop := {
  F_inv : node_inv n;
  F_rep : rep (log n) g;
  F_lm : lm H g;
  F_terms : terms_le g (currentTerm n);
  F_commit : decided H g (Z.to_nat (commitIndex n)) (currentTerm n);
  F_snap s : disk_snapshot (persister n) = Some s ->
    gterm g (Z.to_nat (LastIncludedIndex s)) = Some (LastIncludedTerm s) /\
    decided H g (Z.to_nat (LastIncludedIndex s)) (currentTerm n);
  F_cand : role n = Candidate -> (currentTerm n, i, g) ∈ h_cand H;
  F_lead : role n = Leader -> leader_facts H i n g }.

(** An acknowledged prefix stays in the log for as long as every later
    leader the node may have heard of was elected with it. *)
Definition kept (H : history) (g : glog) (T : Z) (k' : nat) (h : glog) (upto : Z) : Prop :=
  forall k, (k <= k')%nat ->
    (forall T' e, T < T' <= upto -> h_elect H !! T' = Some e -> take k e = take k h) -> take k g = take k h.

Definition ack_ok (H : history) (nodes : gmap bytes Node) (v : bytes) (T : Z) (k : nat) : Prop :=
  exists n g h, nodes !! v = Some n /\ h_log H !! v = Some g /\ h_lead H !! T = Some h /\
    T <= currentTerm n /\ (k <= length h)%nat /\ kept H g T k h (currentTerm n).

(** A vote goes to a candidate whose log has everything the voter
    acknowledged before, on the same condition. *)
Definition vote_ok (H : history) (v : bytes) (T' : Z) (c : bytes) : Prop :=
  forall T k' gc h k, (v, T, k') ∈ h_ack H -> T < T' -> (T', c, gc) ∈ h_cand H -> h_lead H !! T = Some h ->
    (k <= k')%nat -> gterm h k = Some T ->
    (forall T'' e, T < T'' < T' -> h_elect H !! T'' = Some e -> take k e = take k h) -> take k gc = take k h.

Definition append_ok (H : history) (h : glog) (args : AppendEntriesArgs) : Prop :=
  let prev := Z.to_nat (ae_PrevLogIndex args) in
  0 <= ae_PrevLogIndex args /\ gterm h prev = Some (ae_PrevLogTerm args) /\
  (prev + length (ae_Entries args) <= length h)%nat /\
  ghost <$> ae_Entries args = take (length (ae_Entries args)) (drop prev h) /\
  0 <= ae_LeaderCommit args /\ decided H h (Z.to_nat (ae_LeaderCommit args)) (ae_Term args).

Definition snapshot_ok (H : history) (h : glog) (term : Z) (snap : Snapshot) : Prop :=
  0 < LastIncludedIndex snap /\ gterm h (Z.to_nat (LastIncludedIndex snap)) = Some (LastIncludedTerm snap) /\
  decided H h (Z.to_nat (LastIncludedIndex snap)) term.

(** The leader of [T] learns that [from] has its first [m] entries. *)
Definition acked (H : history) (from : bytes) (T m : Z) : Prop :=
  exists h, h_lead H !! T = Some h /\ 0 <= m <= Z.of_nat (length h) /\ (from, T, Z.to_nat m) ∈ h_ack H.

Definition msg_ok (H : history) (m : msg) : Prop :=
  match m with
  | MVote from to args => PVote from to args ∈ net (h_core H) /\
      exists gc, (rv_Term args, from, gc) ∈ h_cand H /\ rv_LastLogIndex args = Z.of_nat (length gc) /\
        gterm gc (length gc) = Some (rv_LastLogTerm args)
  | MVoteReply from to term reply => PVoteReply from to term reply ∈ net (h_core H)
  | MAppend from to args => exists h, h_lead H !! ae_Term args = Some h /\ append_ok H h args
  | MAppendReply from to args reply =>
      aer_Success reply = true ->
      acked H from (ae_Term args) (ae_PrevLogIndex args + zlen (ae_Entries args))
  | MSnapshot from to term snap => exists h, h_lead H !! term = Some h /\ snapshot_ok H h term snap
  | MSnapshotReply from to term snap final reply =>
      isr_Success reply = true -> final = true -> acked H from term (LastIncludedIndex snap)
  end.

Record WInv (w : world) (H : history) : Prop := {
  W_core : Inv members cfg_of (h_core H);
  W_nodes : nodes (h_core H) = w_nodes w;
  W_node i n : w_nodes w !! i = Some n -> exists g, h_log H !! i = Some g /\ node_facts H i n g;
  W_lead T h : h_lead H !! T = Some h -> lm H h /\ terms_le h T /\ Z.of_nat (length h) + 1 < 2 ^ 64 /\
    exists e, h_elect H !! T = Some e /\ e `prefix_of` h;
  W_elect T e : h_elect H !! T = Some e ->
    is_Some (h_lead H !! T) /\ exists i, (T, i) ∈ leaders (h_core H) /\ (T, i, e) ∈ h_cand H /\
      exists Q, quorum members Q /\ forall v, v ∈ Q -> (v, T, i) ∈ h_early H;
  W_leaders T i : (T, i) ∈ leaders (h_core H) -> is_Some (h_elect H !! T) /\
    forall n, w_nodes w !! i = Some n -> T <= currentTerm n /\ (role n = Candidate -> T < currentTerm n);
  W_cand T c gc : (T, c, gc) ∈ h_cand H -> lm H gc /\ terms_le gc (T - 1) /\ (c, T, c) ∈ hist (h_core H);
  W_cand_once T c g1 g2 : (T, c, g1) ∈ h_cand H -> (T, c, g2) ∈ h_cand H -> g1 = g2;
  W_hist v T c : (v, T, c) ∈ hist (h_core H) -> exists gc, (T, c, gc) ∈ h_cand H;
  W_ack v T k : (v, T, k) ∈ h_ack H -> ack_ok H (w_nodes w) v T k;
  W_early v T c : (v, T, c) ∈ h_early H -> (v, T, c) ∈ hist (h_core H) /\ vote_ok H v T c;
  W_late v T c : (v, T, c) ∈ hist (h_core H) -> h_elect H !! T = None -> (v, T, c) ∈ h_early H;
  W_mail m : m ∈ w_mail w -> msg_ok H m }.

(** ** Agreement, from the invariant *)

Lemma lm_terms H g : (forall T h, h_lead H !! T = Some h -> terms_le h T) -> lm H g ->
  forall i j t t', (i <= j)%nat -> gterm g i = Some t -> gterm g j = Some t' -> (0 < i)%nat -> t <= t'.
Proof using Type.
  intros Hle Hg i j t t' Hij Hi Hj H0. destruct (Hg j t' ltac:(lia) Hj) as (h & Hh & E).
  rewrite (gterm_agree _ _ _ _ E Hij) in Hi. by eapply Hle.
Qed.

(** Leaders of later terms have everything that was chosen. *)
Lemma leader_completeness w H T k h :
  WInv w H -> chosen H T k -> h_lead H !! T = Some h ->
  forall T' e, T < T' -> h_elect H !! T' = Some e -> take k e = take k h.
Proof using All.
  intros HW (h0 & Hh0 & Hk & Q & HQ & Hack) Hh. rewrite Hh in Hh0. injection Hh0 as <-.
  assert (forall d T' e, T < T' -> T' - T <= Z.of_nat d -> h_elect H !! T' = Some e -> take k e = take k h) as Hind.
  2: { intros T' e HT He. apply (Hind (Z.to_nat (T' - T)) T' e); [done|lia|done]. }
  induction d as [|d IH]; intros T' e HT Hd He; [lia|].
  destruct (W_elect _ _ HW _ _ He) as [_ (i & Hl & Hc & Q' & HQ' & Hv)].
  destruct (quorums_meet members Q Q' HQ HQ') as (v & Hv1 & Hv2).
  destruct (Hack v Hv1) as (k' & Hkk & Ha). specialize (Hv v Hv2).
  apply (proj2 (W_early _ _ HW v T' i Hv) T k' e h k Ha HT Hc Hh Hkk Hk).
  intros T'' e'' HT'' He''. apply (IH T''); [lia|lia|done].
Qed.

Lemma leader_has w H T k h T' h' :
  WInv w H -> chosen H T k -> h_lead H !! T = Some h -> T <= T' -> h_lead H !! T' = Some h' -> take k h' = take k h.
Proof using All.
  intros HW Hc Hh HT Hh'. destruct (Z.eq_dec T T') as [<-|Hne]; [by rewrite Hh in Hh'; injection Hh' as <-|].
  destruct (W_lead _ _ HW _ _ Hh') as (_ & _ & _ & e & He & Hpre).
  pose proof (leader_completeness w H T k h HW Hc Hh T' e ltac:(lia) He) as E. rewrite <- E. symmetry.
  apply prefix_take_agree; [done|]. destruct Hc as (h0 & Hh0 & Hk & _). rewrite Hh in Hh0. injection Hh0 as <-.
  apply (take_agree_length _ _ _ E). by eapply gterm_Some.
Qed.

(** Two settled prefixes agree. *)
Lemma decided_agree w H g1 m1 T1 g2 m2 T2 m :
  WInv w H -> decided H g1 m1 T1 -> decided H g2 m2 T2 -> (m <= m1)%nat -> (m <= m2)%nat -> take m g1 = take m g2.
Proof using All.
  intros HW [->|(T & k & h & _ & Hc & Hh & Hk & E)] [->|(T' & k' & h' & _ & Hc' & Hh' & Hk' & E')] H1 H2.
  1-3: by replace m with 0%nat by lia; rewrite !take_0.
  rewrite (take_agree_le _ _ _ _ E H1), (take_agree_le _ _ _ _ E' H2).
  destruct (Z.le_ge_cases T T') as [Hle|Hle].
  - pose proof (leader_has w H T k h T' h' HW Hc Hh Hle Hh') as Ea. symmetry.
    apply (take_agree_le _ _ _ _ Ea). lia.
  - pose proof (leader_has w H T' k' h' T h HW Hc' Hh' Hle Hh) as Ea. apply (take_agree_le _ _ _ _ Ea). lia.
Qed.

(** ** Histories grow *)

Record ext (H H' : history) : Prop := {
  X_lead T h : h_lead H !! T = Some h -> exists h', h_lead H' !! T = Some h' /\ h `prefix_of` h';
  X_elect T e : h_elect H !! T = Some e -> h_elect H' !! T = Some e;
  X_cand x : x ∈ h_cand H -> x ∈ h_cand H';
  X_ack x : x ∈ h_ack H -> x ∈ h_ack H';
  X_early x : x ∈ h_early H -> x ∈ h_early H';
  X_net x : x ∈ net (h_core H) -> x ∈ net (h_core H');
  X_hist x : x ∈ hist (h_core H) -> x ∈ hist (h_core H');
  X_leaders x : x ∈ leaders (h_core H) -> x ∈ leaders (h_core H') }.

Lemma ext_refl H : ext H H.
Proof using Type. split; eauto. Qed.

Lemma gterm_prefix (h h' : glog) i t : h `prefix_of` h' -> gterm h i = Some t -> gterm h' i = Some t.
Proof using Type.
  intros Hp Ht. rewrite <- Ht. symmetry. apply (gterm_agree _ _ i); [|done].
  apply prefix_take_agree; [done|]. by eapply gterm_Some.
Qed.

Section Ext.
Context (H H' : history) (HX : ext H H').

Lemma lm_ext g : lm H g -> lm H' g.
Proof using HX.
  intros Hl i t Hi Ht. destruct (Hl i t Hi Ht) as (h & Hh & E). destruct (X_lead _ _ HX _ _ Hh) as (h' & Hh' & Hp).
  exists h'. split; [done|]. rewrite E. apply prefix_take_agree; [done|].
  eapply take_agree_length; [symmetry; exact E|]. by eapply gterm_Some.
Qed.

Lemma chosen_ext T k : chosen H T k -> chosen H' T k.
Proof using HX.
  intros (h & Hh & Hk & Q & HQ & Hall). destruct (X_lead _ _ HX _ _ Hh) as (h' & Hh' & Hp).
  exists h'. split; [done|]. split; [by eapply gterm_prefix|]. exists Q. split; [done|].
  intros v Hv. destruct (Hall v Hv) as (k' & ? & ?). eauto using X_ack.
Qed.

Lemma decided_ext g m T : decided H g m T -> decided H' g m T.
Proof using HX.
  intros [->|(T0 & k & h & HT & Hc & Hh & Hm & E)]; [by left|right].
  destruct (X_lead _ _ HX _ _ Hh) as (h' & Hh' & Hp). exists T0, k, h'.
  split_and!; try done; [by apply chosen_ext|]. rewrite E. apply prefix_take_agree; [done|].
  destruct Hc as (h0 & Hh0 & Hk & _). rewrite Hh in Hh0. injection Hh0 as <-. apply gterm_Some in Hk. lia.
Qed.

Lemma kept_ext g T k h h' upto :
  (k <= length h)%nat -> h `prefix_of` h' -> kept H g T k h upto -> kept H' g T k h' upto.
Proof using HX.
  intros Hk Hp Hkept j Hj Hall. rewrite <- (prefix_take_agree h h' j) in Hall |- * by (done || lia).
  apply Hkept; [done|]. intros T' e HT He. apply (Hall T'); [done|]. by apply (X_elect _ _ HX).
Qed.

Lemma acked_ext from T m : acked H from T m -> acked H' from T m.
Proof using HX.
  intros (h & Hh & Hm & Ha). destruct (X_lead _ _ HX _ _ Hh) as (h' & Hh' & Hp). apply prefix_length in Hp as Hl.
  exists h'. split_and!; eauto using X_ack; lia.
Qed.

Lemma decided_prefix (h h' : glog) m T : h `prefix_of` h' -> (m <= length h)%nat -> decided H h m T -> decided H h' m T.
Proof using Type.
  intros Hp Hm [->|(T0 & k & h0 & HT & Hc & Hh & Hk & E)]; [by left|right].
  exists T0, k, h0. split_and!; try done. rewrite <- E. symmetry. by apply prefix_take_agree.
Qed.

Lemma decided_length g m T : decided H g m T -> (m <= length g)%nat.
Proof using Type.
  intros [->|(T0 & k & h0 & HT & (h1 & Hh1 & Hk1 & _) & Hh & Hk & E)]; [lia|].
  rewrite Hh in Hh1. injection Hh1 as <-. apply gterm_Some in Hk1. eapply take_agree_length; [exact E|lia].
Qed.

Lemma msg_ok_ext m : msg_ok H m -> msg_ok H' m.
Proof using HX.
  destruct m as [from to args|from to term reply|from to args|from to args reply|from to term snap
                |from to term snap final reply]; cbn [msg_ok].
  - intros (Hn & gc & Hc & Hrest). split; [by apply (X_net _ _ HX)|]. exists gc. split; [by apply (X_cand _ _ HX)|done].
  - apply (X_net _ _ HX).
  - intros (h & Hh & H0 & Hp & Hl & He & Hc & Hd). destruct (X_lead _ _ HX _ _ Hh) as (h' & Hh' & Hpre).
    apply prefix_length in Hpre as Hlen. exists h'. split; [done|]. split_and!; try done.
    + by eapply gterm_prefix.
    + lia.
    + rewrite He. destruct Hpre as [r ->]. rewrite drop_app_le by lia. rewrite take_app_le; [done|].
      rewrite length_drop. lia.
    + apply decided_ext. eapply decided_prefix; [done| |done]. by eapply decided_length.
  - intros Ha Hs. by apply acked_ext, Ha.
  - intros (h & Hh & H0 & Ht & Hd). destruct (X_lead _ _ HX _ _ Hh) as (h' & Hh' & Hpre).
    exists h'. split; [done|]. split_and!; [done|by eapply gterm_prefix|].
    apply decided_ext. eapply decided_prefix; [done| |done]. by eapply decided_length.
  - intros Ha Hs Hf. by apply acked_ext, Ha.
Qed.

Lemma node_facts_ext i n g :
  (role n = Leader -> h_lead H' !! currentTerm n = h_lead H !! currentTerm n) ->
  node_facts H i n g -> node_facts H' i n g.
Proof using HX.
  intros Hsame [F1 F2 F3 F4 F5 F6 F7 F8]. split; try done.
  - by apply lm_ext.
  - by apply decided_ext.
  - intros s Hs. destruct (F6 s Hs). split; [done|]. by apply decided_ext.
  - intros Hr. by apply (X_cand _ _ HX), F7.
  - intros Hr. destruct (F8 Hr) as [L1 L2 L3 L4]. split; [by rewrite Hsame|by apply (X_ack _ _ HX)|done|].
    intros p Hp Hm. destruct (L4 p Hp Hm) as (k & ? & ?). eauto using X_ack.
Qed.
End Ext.

(** ** One node moves *)

Section Update.
Context (w : world) (H : history) (i : bytes) (n n' : Node) (g g' : glog) (ms : list msg) (pkts : list packet).
Context (H' : history).
Context (HW : WInv w H) (Hi : w_nodes w !! i = Some n) (Hg : h_log H !! i = Some g).
Context (Hcore : h_core H' = observe (h_core H) i n' pkts) (HI : Inv members cfg_of (h_core H')).
Context (Hlog : h_log H' = <[i := g']> (h_log H)).
Context (HX : ext H H').
Context (Hfacts : node_facts H' i n' g').
Context (Hterm : currentTerm n <= currentTerm n').
Context (Hrole : role n' = Candidate -> currentTerm n' = currentTerm n -> role n = Candidate).
(** What changes in the logs of leaders is the log of this node. *)
Context (Hlead : forall T, (role n' = Leader -> T <> currentTerm n') ->
  h_lead H' !! T = h_lead H !! T /\ h_elect H' !! T = h_elect H !! T).
Context (Helect : role n' = Leader -> exists e, h_elect H' !! currentTerm n' = Some e /\ e `prefix_of` g' /\
  (currentTerm n', i, e) ∈ h_cand H' /\
  exists Q, quorum members Q /\ forall v, v ∈ Q -> (v, currentTerm n', i) ∈ h_early H').
(** It may have become a candidate, *)
Context (Hcand : forall T c gc, (T, c, gc) ∈ h_cand H' -> (T, c, gc) ∈ h_cand H \/
  (c = i /\ gc = g /\ T = currentTerm n' /\ currentTerm n < T /\ votedFor n' = i)).
(** acknowledged something in its term, *)
Context (Hack : forall v T k, (v, T, k) ∈ h_ack H' -> (v, T, k) ∈ h_ack H \/
  (v = i /\ T = currentTerm n' /\ exists h, h_lead H' !! T = Some h /\ (k <= length h)%nat /\ take k g' = take k h)).
Context (Hkept : forall T k h, h_lead H !! T = Some h -> (k <= length h)%nat -> T <= currentTerm n ->
  kept H g T k h (currentTerm n) -> kept H g' T k h (currentTerm n')).
(** or voted. *)
Context (Hvote : forall c, c = votedFor n' -> c <> [] -> (i, currentTerm n', c) ∈ hist (h_core H) \/
  exists gc, (currentTerm n', c, gc) ∈ h_cand H').
Context (Hearly : forall v T c, (v, T, c) ∈ h_early H' -> (v, T, c) ∈ h_early H \/
  ((v, T, c) ∈ held i n' /\ vote_ok H' i T c)).
Context (Hlate : forall v T c, (v, T, c) ∈ held i n' -> (v, T, c) ∈ hist (h_core H) \/
  is_Some (h_elect H' !! T) \/ (v, T, c) ∈ h_early H').
Context (Hmail : forall m, m ∈ ms -> msg_ok H' m).

Lemma hist_update x : x ∈ hist (h_core H') <-> x ∈ held i n' \/ x ∈ hist (h_core H).
Proof using Hcore. rewrite Hcore. cbn [observe hist]. apply elem_of_app. Qed.

Lemma leaders_update T j :
  (T, j) ∈ leaders (h_core H') <-> (role n' = Leader /\ T = currentTerm n' /\ j = i) \/ (T, j) ∈ leaders (h_core H).
Proof using Hcore.
  rewrite Hcore. cbn [observe leaders]. rewrite elem_of_app, elem_of_leading. split.
  - intros [[? [= -> ->]]|?]; auto.
  - intros [(? & -> & ->)|?]; auto.
Qed.

Lemma leader_unique T j k : (T, j) ∈ leaders (h_core H') -> (T, k) ∈ leaders (h_core H') -> j = k.
Proof using HI.
  intros H1 H2. by eapply (one_leader members cfg_of).
Qed.

Lemma cand_fresh T gc : currentTerm n < T -> (T, i, gc) ∉ h_cand H.
Proof using HW Hi.
  intros HT Hc. destruct (W_cand _ _ HW _ _ _ Hc) as (_ & _ & Hh).
  rewrite <- (W_nodes _ _ HW) in Hi.
  destruct (I_past _ _ _ (W_core _ _ HW) _ _ _ _ Hh Hi) as [?|[? _]]; lia.
Qed.

Lemma hist_term v T c : (v, T, c) ∈ hist (h_core H') -> v = i -> T <= currentTerm n'.
Proof using HI Hcore.
  intros Hh ->. assert (nodes (h_core H') !! i = Some n') as Hn by (rewrite Hcore; apply lookup_insert_eq).
  destruct (I_past _ _ _ HI _ _ _ _ Hh Hn) as [?|[? _]]; lia.
Qed.

Lemma update_nodes j m : w_nodes (update w i n' ms) !! j = Some m ->
  (j = i /\ m = n') \/ (j <> i /\ w_nodes w !! j = Some m).
Proof using Type. cbn. intros [[<- <-]|[Hne Hj]]%lookup_insert_Some; auto. Qed.

Lemma lead_cases T : (role n' = Leader /\ T = currentTerm n') \/ (role n' = Leader -> T <> currentTerm n').
Proof using Type.
  destruct (decide (role n' = Leader)), (Z.eq_dec T (currentTerm n')); auto.
Qed.

Lemma update_node j m : w_nodes (update w i n' ms) !! j = Some m ->
  exists gj, h_log H' !! j = Some gj /\ node_facts H' j m gj.
Proof using HI HW HX Hcore Hfacts Hi Hlead Hlog.
  intros [[-> ->]|[Hne Hj]]%update_nodes; rewrite Hlog.
  - exists g'. by rewrite lookup_insert_eq.
  - rewrite lookup_insert_ne by done. destruct (W_node _ _ HW _ _ Hj) as (gj & Hgj & Hf). exists gj.
    split; [done|]. eapply node_facts_ext; [exact HX| |exact Hf]. intros Hr. apply (Hlead (currentTerm m)).
    intros Hr' E. apply Hne. eapply (leader_unique (currentTerm m)); apply leaders_update; [right|by left].
    apply (I_leader _ _ _ (W_core _ _ HW)); [|done]. by rewrite (W_nodes _ _ HW).
Qed.

Lemma update_lead T h : h_lead H' !! T = Some h -> lm H' h /\ terms_le h T /\ Z.of_nat (length h) + 1 < 2 ^ 64 /\
  exists e, h_elect H' !! T = Some e /\ e `prefix_of` h.
Proof using HW HX Helect Hfacts Hlead.
  intros Hh. destruct (lead_cases T) as [[Hr ->]|Hne].
  - destruct Hfacts as [F1 F2 F3 F4 _ _ _ F8]. rewrite (LF_log _ _ _ _ (F8 Hr)) in Hh. injection Hh as <-.
    pose proof (LastIndex_bound _ (rep_wf _ _ F2)) as Hb. rewrite (rep_length _ _ F2) in Hb.
    destruct (Helect Hr) as (e & He & Hp & _). split_and!; [done..|lia|by exists e].
  - destruct (Hlead T Hne) as [E1 E2]. rewrite E1 in Hh. rewrite E2.
    destruct (W_lead _ _ HW _ _ Hh) as (L1 & L2 & L3 & L4). split_and!; [by eapply lm_ext|done..].
Qed.

Lemma update_elect T e : h_elect H' !! T = Some e ->
  is_Some (h_lead H' !! T) /\ exists j, (T, j) ∈ leaders (h_core H') /\ (T, j, e) ∈ h_cand H' /\
    exists Q, quorum members Q /\ forall v, v ∈ Q -> (v, T, j) ∈ h_early H'.
Proof using HW HX Hcore Helect Hfacts Hlead.
  intros He. destruct (lead_cases T) as [[Hr ->]|Hne].
  - destruct (Helect Hr) as (e' & He' & _ & Hc & HQ). rewrite He in He'. injection He' as <-. split.
    + eexists. by apply (F_lead _ _ _ _ Hfacts).
    + exists i. split; [apply leaders_update; auto|by split].
  - destruct (Hlead T Hne) as [E1 E2]. rewrite E2 in He. rewrite E1.
    destruct (W_elect _ _ HW _ _ He) as (Hs & j & Hl & Hc & Q & HQ & Hv). split; [done|].
    exists j. split; [by apply (X_leaders _ _ HX)|]. split; [by apply (X_cand _ _ HX)|].
    exists Q. split; [done|]. intros v Hvq. by apply (X_early _ _ HX), Hv.
Qed.

Lemma update_ack v T k : (v, T, k) ∈ h_ack H' -> ack_ok H' (w_nodes (update w i n' ms)) v T k.
Proof using HW HX Hack Hg Hi Hkept Hlog Hterm.
  intros [Ha|(-> & -> & h & Hh & Hk & E)]%Hack.
  - destruct (W_ack _ _ HW _ _ _ Ha) as (m & gv & h & Hm & Hgv & Hh & HT & Hk & Hkp).
    destruct (X_lead _ _ HX _ _ Hh) as (h' & Hh' & Hp). pose proof (prefix_length _ _ Hp).
    destruct (decide (v = i)) as [->|Hne].
    + rewrite Hi in Hm. injection Hm as <-. rewrite Hg in Hgv. injection Hgv as <-.
      exists n', g', h'. rewrite Hlog. cbn [update w_nodes]. rewrite !lookup_insert_eq. split_and!; [done..|lia|lia|].
      eapply kept_ext; [exact HX|exact Hk|exact Hp|]. by apply Hkept.
    + exists m, gv, h'. rewrite Hlog. cbn [update w_nodes]. rewrite !lookup_insert_ne by done.
      split_and!; [done..|lia|]. by eapply kept_ext.
  - exists n', g', h. rewrite Hlog. cbn [update w_nodes]. rewrite !lookup_insert_eq. split_and!; [done..|].
    intros j Hj _. by eapply take_agree_le.
Qed.

(** Old votes stay good: later acknowledgements are of later terms, and
    their candidates stay the same. *)
Lemma update_vote v T c : (v, T, c) ∈ hist (h_core H) -> vote_ok H v T c -> vote_ok H' v T c.
Proof using HI HW HX Hack Hcand Hcore Hi.
  intros Hh Hv T0 k' gc h' k Ha HT Hc Hh' Hk Hkt Hall.
  apply Hack in Ha as [Ha|(-> & -> & _)].
  2: { pose proof (hist_term i T c (proj2 (hist_update _) (or_intror Hh)) eq_refl). lia. }
  apply Hcand in Hc as [Hc|(-> & -> & -> & Hlt & _)].
  2: { destruct (W_hist _ _ HW _ _ _ Hh) as (g0 & Hg0). exfalso. exact (cand_fresh _ _ Hlt Hg0). }
  destruct (W_ack _ _ HW _ _ _ Ha) as (m & gv & h & _ & _ & Hlh & _ & Hkl & _).
  destruct (X_lead _ _ HX _ _ Hlh) as (h2 & Hh2 & Hp). rewrite Hh' in Hh2. injection Hh2 as <-.
  assert (take k h = take k h') as E by (apply prefix_take_agree; [done|lia]).
  rewrite <- E in *. apply (Hv T0 k' gc h k); try done.
  - by rewrite <- Hkt, (gterm_agree _ _ _ _ E).
  - intros T'' e HT'' He. apply (Hall T''); [done|]. by apply (X_elect _ _ HX).
Qed.

Lemma WInv_update : WInv (update w i n' ms) H'.
Proof using All.
  split.
  - exact HI.
  - rewrite Hcore. cbn. by rewrite (W_nodes _ _ HW).
  - apply update_node.
  - apply update_lead.
  - apply update_elect.
  - intros T j Hl. pose proof Hl as Hl'. apply leaders_update in Hl as [(Hr & -> & ->)|Hl].
    + split; [destruct (Helect Hr) as (e & He & _); by exists e|].
      intros m [[_ ->]|[? _]]%update_nodes; [|done]. split; [done|]. congruence.
    + destruct (W_leaders _ _ HW _ _ Hl) as [[e He] Hn]. split; [exists e; by apply (X_elect _ _ HX)|].
      intros m [[-> ->]|[_ Hm]]%update_nodes; [|by apply Hn]. destruct (Hn n Hi) as [Hle Hlt]. split; [lia|].
      intros Hr. destruct (Z.eq_dec (currentTerm n') (currentTerm n)) as [E|]; [|lia].
      rewrite E. by apply Hlt, Hrole.
  - intros T c gc [Hc|(-> & -> & -> & Hlt & Hv)]%Hcand.
    + destruct (W_cand _ _ HW _ _ _ Hc) as (C1 & C2 & C3).
      split; [by eapply lm_ext|]. split; [done|]. by apply (X_hist _ _ HX).
    + destruct (W_node _ _ HW _ _ Hi) as (g0 & Hg0 & Hf). rewrite Hg in Hg0. injection Hg0 as <-.
      split; [eapply lm_ext; [exact HX|apply (F_lm _ _ _ _ Hf)]|]. split.
      * intros j t Ht. pose proof (F_terms _ _ _ _ Hf _ _ Ht). lia.
      * apply hist_update. left. apply elem_of_held. rewrite Hv. split; [|done].
        rewrite <- (W_nodes _ _ HW) in Hi. destruct (I_node _ _ _ (W_core _ _ HW) _ _ Hi) as (Hm & _).
        by apply Hid.
  - intros T c g1 g2 [H1|(E1 & E2 & E3 & Hlt & _)]%Hcand [H2|(E4 & E5 & E6 & Hlt' & _)]%Hcand; [|subst c..].
    + by eapply (W_cand_once _ _ HW).
    + by destruct (cand_fresh _ _ Hlt' H1).
    + by destruct (cand_fresh _ _ Hlt H2).
    + congruence.
  - intros v T c [(Hv & [= -> -> ->])%elem_of_held|Hh]%hist_update.
    + destruct (Hvote _ eq_refl Hv) as [Hh|HG]; [|done].
      destruct (W_hist _ _ HW _ _ _ Hh) as (gc & ?). eauto using X_cand.
    + destruct (W_hist _ _ HW _ _ _ Hh) as (gc & ?). eauto using X_cand.
  - apply update_ack.
  - intros v T c [He|[Hh Hv]]%Hearly.
    + destruct (W_early _ _ HW _ _ _ He). split; [by apply (X_hist _ _ HX)|]. by apply update_vote.
    + split; [apply hist_update; by left|]. by apply elem_of_held in Hh as [_ [= -> -> ->]].
  - intros v T c Hh He. assert (h_elect H !! T = None) as He'.
    { destruct (h_elect H !! T) as [e|] eqn:E; [|done]. apply (X_elect _ _ HX) in E. congruence. }
    apply hist_update in Hh as [Hh|Hh].
    + apply Hlate in Hh as [Hh|[[e E]|Hh]]; [|congruence|done]. by apply (X_early _ _ HX), (W_late _ _ HW).
    + by apply (X_early _ _ HX), (W_late _ _ HW).
  - cbn [update w_mail]. intros m [Hm|Hm]%elem_of_app; [by apply Hmail|].
    eapply msg_ok_ext; [exact HX|]. by apply (W_mail _ _ HW).
Qed.
End Update.
End Safety.
