(* ===== verification/RaftSteps.v ===== *)
(** * Every step keeps the invariant

    Each step of the cluster ([RaftSafety.wstep]) keeps [WInv], for a history
    that only grows: first what one node knows, then replication, snapshots,
    restarts and elections, then runs and the log they agree on. *)

From S2P Require Import Prelude Bytes RaftLog RaftFormat RaftPersist RaftNode RaftElection RaftDurable RaftGhost RaftSafety.
From stdpp Require Import base tactics numbers gmap fin_sets list.
From Stdlib Require Import Strings.Byte.
From Stdlib Require Import ZArith Lia.
#[local] Open Scope Z_scope.

Section Steps.
Context (members : gset bytes) (cfg_of : bytes -> Config).
Context (Hid : forall i, i ∈ members -> c_id (cfg_of i) = i /\ i <> []).
Context (Hpeers : forall i, i ∈ members ->
  NoDup (i :: c_peers (cfg_of i)) /\ list_to_set (i :: c_peers (cfg_of i)) = members).

#[local] Notation decided := (decided members).
#[local] Notation node_facts := (node_facts members).
#[local] Notation msg_ok := (msg_ok members).
#[local] Notation WInv := (WInv members cfg_of).

(** ** Facts about one node *)

Lemma decided_le H g m m' T T' : decided H g m T -> (m' <= m)%nat -> T <= T' -> decided H g m' T'.
Proof using Type.
  intros [->|(T0 & k & h & HT & Hc & Hh & Hm & E)] Hle HT'; [left; lia|right].
  exists T0, k, h. split_and!; try done; [lia|lia|]. by eapply take_agree_le.
Qed.

Lemma terms_le_le g T T' : terms_le g T -> T <= T' -> terms_le g T'.
Proof using Type. intros Ht HT i t Hi. specialize (Ht i t Hi). lia. Qed.

Lemma quiet_term n n' : quiet n n' -> currentTerm n <= currentTerm n'.
Proof using Type. intros [_ _ [(-> & _)|(? & _)]]; lia. Qed.

Lemma quiet_role n n' : quiet n n' -> role n' <> Follower -> role n' = role n /\ currentTerm n' = currentTerm n.
Proof using Type. intros [_ _ [(? & _ & [[? _]|?])|(_ & _ & ?)]] Hr; [done|congruence..]. Qed.

(** The log, the commit index and the snapshot did not change. *)
Record same_data (n n' : Node) : Prop := {
  sd_log : log n' = log n;
  sd_commit : commitIndex n' = commitIndex n;
  sd_snapshot : disk_snapshot (persister n') = disk_snapshot (persister n);
  sd_progress : role n' = Leader -> nextIndex n' = nextIndex n /\ matchIndex n' = matchIndex n }.

Lemma facts_frame H i n n' g :
  node_facts H i n g -> node_inv n' -> quiet n n' -> same_data n n' -> node_facts H i n' g.
Proof using Type.
  intros [F1 F2 F3 F4 F5 F6 F7 F8] Hinv Hq [Sl Sc Ss Sp]. pose proof (quiet_term _ _ Hq) as HT.
  split; [done|by rewrite Sl|done|by eapply terms_le_le|rewrite Sc; by eapply decided_le| | |].
  - rewrite Ss. intros s Hs. destruct (F6 s Hs). split; [done|]. by eapply decided_le.
  - intros Hr. destruct (quiet_role _ _ Hq ltac:(congruence)) as [Er Et]. rewrite Et. apply F7. congruence.
  - intros Hr. destruct (quiet_role _ _ Hq ltac:(congruence)) as [Er Et]. destruct (Sp Hr) as [En Em].
    destruct (F8 ltac:(congruence)) as [L1 L2 L3 L4].
    split; unfold next_of, match_of, peers; rewrite ?Et, ?En, ?Em, ?(q_cfg _ _ Hq); done.
Qed.

Lemma facts_commit H i n g c :
  node_facts H i n g -> commitIndex n <= c -> decided H g (Z.to_nat c) (currentTerm n) ->
  node_facts H i (notifyCommit n c) g.
Proof using Type.
  intros [F1 F2 F3 F4 F5 F6 F7 F8] Hc Hd. split; try done.
  - eapply node_inv_frame; [exact F1|done..].
  - intros Hr. destruct (F8 Hr). by split.
Qed.

(** The commit rule: what a leader counts as replicated is chosen. *)
Lemma advance_chosen H i n g N :
  i ∈ members -> cfg n = cfg_of i -> node_facts H i n g -> role n = Leader -> 0 < N <= LastIndex (log n) ->
  TermAt (log n) N = Some (currentTerm n) -> majority n <= replicated_count n N ->
  chosen members H (currentTerm n) (Z.to_nat N).
Proof using Hpeers.
  intros Him Hc [F1 F2 F3 F4 F5 F6 F7 F8] Hr HN Ht Hm. destruct (F8 Hr) as [L1 L2 L3 L4].
  pose proof (LastIndex_bound _ (rep_wf _ _ F2)). pose proof (rep_length _ _ F2) as HL.
  apply (rep_TermAt_Some _ _ F2) in Ht as [_ Ht]; [|unfold is_u64; lia].
  exists g. split; [done|]. split; [done|]. destruct (Hpeers i Him) as [Hnd Hmem].
  exists (list_to_set (i :: filter (fun p => match_of n p >= N) (peers n))). split.
  - assert (NoDup (i :: filter (fun p => match_of n p >= N) (peers n))) as Hnd'.
    { apply NoDup_cons in Hnd as [Hni Hnd]. unfold peers. rewrite Hc. apply NoDup_cons. split; [|by apply NoDup_filter].
      by intros [_ ?]%list_elem_of_filter. }
    split.
    + rewrite <- Hmem. unfold peers. rewrite Hc. intros p. rewrite !elem_of_list_to_set, !elem_of_cons.
      intros [->|[_ ?]%list_elem_of_filter]; auto.
    + rewrite <- (majority_members members cfg_of Hpeers i n Him Hc), size_list_to_set by done.
      unfold replicated_count, zlen in Hm. cbn [length]. lia.
  - intros v. rewrite elem_of_list_to_set, elem_of_cons. intros [->|[Hv Hp]%list_elem_of_filter].
    + exists (length g). split; [lia|done].
    + destruct (L4 v Hp ltac:(lia)) as (k & Hk & Ha). exists k. split; [lia|done].
Qed.

Lemma facts_advance H i n g :
  i ∈ members -> cfg n = cfg_of i -> node_facts H i n g -> role n = Leader ->
  node_facts H i (maybeAdvanceCommitIndexLocked n) g.
Proof using Hpeers.
  intros Him Hc HF Hr. unfold maybeAdvanceCommitIndexLocked. destruct (advance_loop _ _ _) as [N|] eqn:E; [|done].
  apply advance_loop_Some in E as (HN & Ht & Hm). pose proof (N_applied _ (F_inv _ _ _ _ _ HF)).
  apply facts_commit; [done|lia|]. right. exists (currentTerm n), (Z.to_nat N), g.
  split_and!; [done| |apply (F_lead _ _ _ _ _ HF Hr)|done|done].
  eapply advance_chosen; eauto. lia.
Qed.

(** ** What a leader sends *)

Lemma facts_base H i n g :
  node_facts H i n g -> decided H g (Z.to_nat (base (log n))) (currentTerm n).
Proof using Type.
  intros [F1 F2 F3 F4 F5 F6 F7 F8]. pose proof (N_snapshot _ F1) as Hs. unfold snapshot_inv in Hs.
  destruct (disk_snapshot (persister n)) as [s|] eqn:E.
  - destruct (F6 s eq_refl) as [_ Hd]. eapply decided_le; [exact Hd|lia|done].
  - destruct Hs as [-> _]. by left.
Qed.

Lemma append_args_ok H i n g p q :
  node_facts H i n g -> role n = Leader -> p ∈ peers n -> base (log n) < next_of n p ->
  msg_ok H (MAppend i q (append_args n p)).
Proof using Type.
  intros HF Hr Hp Hb. destruct (F_lead _ _ _ _ _ HF Hr) as [L1 L2 L3 L4]. specialize (L3 p Hp).
  pose proof (F_rep _ _ _ _ _ HF) as F2. pose proof (rep_length _ _ F2) as HL. pose proof (rep_wf _ _ F2) as Hw.
  pose proof (LastIndex_bound _ Hw). pose proof (wf_base _ Hw). cbn [RaftSafety.msg_ok]. exists g. split; [done|].
  unfold append_args. rewrite (u64_small (next_of n p - 1)) by (unfold is_u64; lia).
  rewrite (u64_small (next_of n p - 1 + 1)) by (unfold is_u64; lia).
  pose proof (rep_Slice _ _ F2 (next_of n p - 1 + 1) ltac:(lia) ltac:(lia)) as Es.
  replace (next_of n p - 1 + 1 - 1) with (next_of n p - 1) in Es by lia.
  pose proof (f_equal length Es) as El. rewrite length_fmap, length_drop in El.
  unfold append_ok. cbn [ae_PrevLogIndex ae_PrevLogTerm ae_Entries ae_LeaderCommit ae_Term]. split_and!.
  - lia.
  - rewrite (rep_TermAt _ _ F2) by lia. destruct (gterm_is_Some g (Z.to_nat (next_of n p - 1))) as [t ->]; [lia|done].
  - lia.
  - rewrite Es. rewrite take_ge; [done|]. rewrite length_drop. lia.
  - pose proof (N_applied _ (F_inv _ _ _ _ _ HF)). lia.
  - apply (F_commit _ _ _ _ _ HF).
Qed.

Lemma rpc_for_ok H i n g p :
  node_facts H i n g -> role n = Leader -> p ∈ peers n -> msg_ok H (posted i (rpc_for n p)).
Proof using Type.
  intros HF Hr Hp. unfold rpc_for. case_if; zbool; [|by eapply append_args_ok].
  destruct (F_lead _ _ _ _ _ HF Hr) as [L1 L2 L3 L4]. specialize (L3 p Hp). cbn [posted RaftSafety.msg_ok]. exists g.
  split; [done|]. split_and!; cbn [LastIncludedIndex LastIncludedTerm]; [lia|apply (rep_head _ _ (F_rep _ _ _ _ _ HF))|].
  by eapply facts_base.
Qed.

Lemma broadcast_ok H i n g n' rpcs :
  i ∈ members -> cfg n = cfg_of i -> node_facts H i n g -> role n = Leader ->
  broadcastAppendEntriesLocked n = (n', rpcs) ->
  node_facts H i n' g /\ forall m, m ∈ posted i <$> rpcs -> msg_ok H m.
Proof using Hpeers.
  intros Him Hc HF Hr [= <- <-]. split; [by apply facts_advance|].
  intros m (r & -> & (p & -> & Hp)%list_elem_of_fmap)%list_elem_of_fmap. by eapply rpc_for_ok.
Qed.

(** ** Taking over a leader's prefix *)

Definition synced (h : glog) (m : nat) (g g' : glog) : Prop :=
  (m <= length h)%nat /\
  ((take m g = take m h /\ g' = g) \/ (take m g <> take m h /\ g' = take m h)).

Lemma synced_take h m g g' : synced h m g g' -> take m g' = take m h.
Proof using Type. intros [_ [[E ->]|[_ ->]]]; [done|]. by rewrite take_take, Nat.min_id. Qed.

(** A prefix that both logs had is untouched. *)
Lemma synced_common h m g g' c :
  synced h m g g' -> (c <= length h)%nat -> take c g = take c h -> take c g' = take c g.
Proof using Type.
  intros [Hm [[E ->]|[E ->]]] Hc Hcg; [done|]. destruct (Nat.le_ge_cases m c) as [Hle|Hle].
  - destruct E. by apply (take_agree_le _ _ c).
  - rewrite take_take, Nat.min_l by done. done.
Qed.

Lemma synced_lm H h m g g' : synced h m g g' -> lm H g -> lm H h -> lm H g'.
Proof using Type.
  intros [Hm [[_ ->]|[_ ->]]] Hg Hh; [done|]. intros i t Hi Ht.
  pose proof (gterm_Some _ _ _ Ht) as Hl. rewrite length_take in Hl. rewrite gterm_take in Ht by lia.
  destruct (Hh i t Hi Ht) as (h' & Hh' & E). exists h'. split; [done|]. by rewrite take_take, Nat.min_l by lia.
Qed.

Lemma synced_terms h m g g' T : synced h m g g' -> terms_le g T -> terms_le h T -> terms_le g' T.
Proof using Type.
  intros [Hm [[_ ->]|[_ ->]]] Hg Hh; [done|]. intros i t Ht.
  pose proof (gterm_Some _ _ _ Ht) as Hl. rewrite length_take in Hl. rewrite gterm_take in Ht by lia. by eapply Hh.
Qed.

(** What is settled is the same in every later leader's log. *)
Lemma decided_lead w H g c T T' h :
  WInv w H -> decided H g c T -> T <= T' -> h_lead H !! T' = Some h -> (c <= length h)%nat /\ take c g = take c h.
Proof using Hid Hpeers.
  intros HW [->|(T0 & k & h0 & HT & Hc & Hh0 & Hk & E)] HT' Hh; [by rewrite !take_0; split; [lia|]|].
  pose proof (leader_has members cfg_of Hid Hpeers w H T0 k h0 T' h HW Hc Hh0 ltac:(lia) Hh) as Eh.
  destruct Hc as (h1 & Hh1 & Hkt & _). rewrite Hh0 in Hh1. injection Hh1 as <-. apply gterm_Some in Hkt.
  pose proof (take_agree_length _ _ _ Eh Hkt). split; [lia|]. rewrite E. symmetry. by eapply take_agree_le.
Qed.

Lemma synced_decided w H g g' h m c T T' :
  WInv w H -> synced h m g g' -> decided H g c T -> T <= T' -> h_lead H !! T' = Some h ->
  take c g' = take c g /\ decided H g' c T'.
Proof using Hid Hpeers.
  intros HW Hs Hd HT Hh. destruct (decided_lead w H g c T T' h HW Hd HT Hh) as [Hc E].
  pose proof (synced_common _ _ _ _ _ Hs Hc E) as Ec. split; [done|].
  destruct Hd as [->|(T0 & k & h0 & HT0 & Hch & Hh0 & Hk & E0)]; [by left|right].
  exists T0, k, h0. split_and!; try done; [lia|]. by rewrite Ec.
Qed.

Lemma synced_kept w H g g' h m T k hT upto T' :
  WInv w H -> synced h m g g' -> h_lead H !! T' = Some h -> h_lead H !! T = Some hT -> (k <= length hT)%nat ->
  T <= upto <= T' -> kept H g T k hT upto -> kept H g' T k hT T'.
Proof using Type.
  intros HW Hs Hh HhT Hk HT Hkept j Hj Hall.
  assert (take j g = take j hT) as E.
  { apply Hkept; [done|]. intros T'' e HT''. apply Hall. lia. }
  assert ((j <= length h)%nat /\ take j h = take j hT) as [Hjl Ejh].
  { destruct (Z.eq_dec T T') as [<-|Hne].
    - rewrite Hh in HhT. injection HhT as <-. split; [lia|done].
    - destruct (W_lead _ _ _ _ HW _ _ Hh) as (_ & _ & _ & e & He & Hp).
      pose proof (Hall T' e ltac:(lia) He) as Ee.
      assert (j <= length e)%nat as Hje by (eapply take_agree_length; [exact Ee|lia]).
      rewrite <- Ee. split; [apply prefix_length in Hp; lia|]. symmetry. by apply prefix_take_agree. }
  rewrite (synced_common _ _ _ _ _ Hs Hjl); congruence.
Qed.

(** Two logs with the same term at an index agree up to it. *)
Lemma lm_agree H g h i t : lm H g -> lm H h -> gterm g i = Some t -> gterm h i = Some t -> take i g = take i h.
Proof using Type.
  intros Hg Hh Hgi Hhi. destruct i as [|i]; [by rewrite !take_0|].
  destruct (Hg (S i) t ltac:(lia) Hgi) as (x & Hx & ->). destruct (Hh (S i) t ltac:(lia) Hhi) as (y & Hy & ->). congruence.
Qed.

Lemma gterm_drop g prev k : gterm (drop prev g) (S k) = gterm g (S (prev + k)).
Proof using Type. cbn [gterm]. by rewrite lookup_drop. Qed.

Lemma append_synced H g h prev es :
  lm H g -> lm H h -> (prev + length es <= length h)%nat -> es = take (length es) (drop prev h) ->
  gterm g prev = gterm h prev -> synced h (prev + length es) g (take prev g ++ gmerge (drop prev g) es).
Proof using Type.
  intros Hg Hh Hl He Ht. split; [done|]. destruct (gterm_is_Some h prev) as [t Hpt]; [lia|].
  assert (take prev g = take prev h) as Ep by (eapply lm_agree; eauto; congruence).
  assert (take prev h ++ es = take (prev + length es) h) as Esum.
  { rewrite He at 1. by rewrite take_take_drop. }
  destruct (gmerge_cases (drop prev g) es) as [[E1 E2]|[E1 E2]].
  - intros k Hk Ek. rewrite gterm_drop in Hk, Ek. rewrite He in Ek |- *.
    destruct (gterm g (S (prev + k))) as [t'|] eqn:Et; [|done].
    symmetry in Ek. pose proof (gterm_Some _ _ _ Ek) as Hkl. rewrite length_take in Hkl.
    rewrite gterm_take, gterm_drop in Ek by lia. pose proof (lm_agree _ _ _ _ _ Hg Hh Et Ek) as E.
    rewrite lookup_take_lt, !lookup_drop by lia.
    rewrite <- (lookup_take_lt g (S (prev + k))), <- (lookup_take_lt h (S (prev + k))) by lia. by rewrite E.
  - left. rewrite E2, take_drop. split; [|done].
    by rewrite <- take_take_drop, E1, <- Esum, Ep.
  - right. rewrite E2, Ep, Esum. split; [|done]. intros E. apply E1.
    etrans; [|symmetry; exact He]. by rewrite !take_drop_commute, E.
Qed.

(** ** Steps that cast no vote *)

Definition advances (w : world) (H : history) (w' : world) : Prop := exists H', WInv w' H' /\ ext H H'.

Lemma member_cfg w H i n : WInv w H -> w_nodes w !! i = Some n -> i ∈ members /\ cfg n = cfg_of i /\ id n = i /\ i <> [].
Proof using Hid.
  intros HW Hi. rewrite <- (W_nodes _ _ _ _ HW) in Hi.
  destruct (I_node _ _ _ (W_core _ _ _ _ HW) _ _ Hi) as (Hm & Hc & _). split; [done|]. split; [done|].
  unfold id. rewrite Hc. by apply Hid.
Qed.

(** The log a present leader was elected with. *)
Lemma elected_with w H i n g :
  WInv w H -> w_nodes w !! i = Some n -> h_lead H !! currentTerm n = Some g -> role n = Leader ->
  exists e, h_elect H !! currentTerm n = Some e /\ e `prefix_of` g /\ (currentTerm n, i, e) ∈ h_cand H /\
    exists Q, quorum members Q /\ forall v, v ∈ Q -> (v, currentTerm n, i) ∈ h_early H.
Proof using Type.
  intros HW Hi Hg Hr. destruct (W_lead _ _ _ _ HW _ _ Hg) as (_ & _ & _ & e & He & Hp). exists e.
  split; [done|]. split; [done|]. destruct (W_elect _ _ _ _ HW _ _ He) as (_ & j & Hl & Hc & HQ).
  rewrite <- (W_nodes _ _ _ _ HW) in Hi.
  pose proof (leader_unique _ _ _ (W_core _ _ _ _ HW) _ _ _ Hl (I_leader _ _ _ (W_core _ _ _ _ HW) _ _ Hi Hr)) as ->.
  by split.
Qed.

Lemma quiet_held w H i n n' x :
  WInv w H -> w_nodes w !! i = Some n -> quiet n n' -> x ∈ held i n' -> x ∈ hist (h_core H).
Proof using Type.
  intros HW Hi Hq [Hv ->]%elem_of_held. rewrite <- (W_nodes _ _ _ _ HW) in Hi.
  destruct (q_vote _ _ Hq) as [(Et & Ev & _)|(_ & E & _)]; [|done]. rewrite Et, Ev in *.
  by apply (I_vote _ _ _ (W_core _ _ _ _ HW)).
Qed.

(** What a step does to the history: the leaders' logs and what was
    acknowledged. *)
Definition after (H : history) (i : bytes) (n' : Node) (pkts : list packet) (g' : glog) (lead : gmap Z glog)
    (acks : list (bytes * Z * nat)) : history :=
  MkHistory (observe (h_core H) i n' pkts) (<[i := g']> (h_log H)) lead (h_elect H) (h_cand H)
    (acks ++ h_ack H) (h_early H).

Lemma ext_after H i n' pkts g' lead acks :
  (forall T h, h_lead H !! T = Some h -> exists h', lead !! T = Some h' /\ h `prefix_of` h') ->
  ext H (after H i n' pkts g' lead acks).
Proof using Type.
  intros Hl. split; cbn; try done; intros; by repeat (apply elem_of_app; right).
Qed.

Section Quiet.
Context (w : world) (H : history) (i : bytes) (n n' : Node) (g g' : glog) (ms : list msg) (pkts : list packet).
Context (lead : gmap Z glog) (acks : list (bytes * Z * nat)).
Context (HW : WInv w H) (Hi : w_nodes w !! i = Some n) (Hg : h_log H !! i = Some g) (Hq : quiet n n').
Context (Hreq : forall from to args, PVote from to args ∉ pkts).
Context (Hrep : forall from to T r, PVoteReply from to T r ∈ pkts -> rvr_VoteGranted r = false).
Context (Hpre : forall T h, h_lead H !! T = Some h -> exists h', lead !! T = Some h' /\ h `prefix_of` h').
Context (Hsame : forall T, (role n' = Leader -> T <> currentTerm n') -> lead !! T = h_lead H !! T).
Context (Hfacts : node_facts (after H i n' pkts g' lead acks) i n' g').
Context (Hack : forall v T k, (v, T, k) ∈ acks -> v = i /\ T = currentTerm n' /\
  exists h, lead !! T = Some h /\ (k <= length h)%nat /\ take k g' = take k h).
Context (Hkept : forall T k h, h_lead H !! T = Some h -> (k <= length h)%nat -> T <= currentTerm n ->
  kept H g T k h (currentTerm n) -> kept H g' T k h (currentTerm n')).
Context (Hmail : forall m, m ∈ ms -> msg_ok (after H i n' pkts g' lead acks) m).

Lemma WInv_quiet : advances w H (update w i n' ms).
Proof using All.
  exists (after H i n' pkts g' lead acks). pose proof (ext_after H i n' pkts g' lead acks Hpre) as HX.
  split; [|done]. eapply WInv_update with (n := n) (g := g) (g' := g'); try done.
  - cbn [after h_core]. eapply Inv_quiet; eauto; [apply (W_core _ _ _ _ HW)|by rewrite (W_nodes _ _ _ _ HW)|].
    intros * Hin. by apply Hreq in Hin.
  - by apply quiet_term.
  - intros Hr Ht. destruct (quiet_role _ _ Hq ltac:(congruence)). congruence.
  - intros T HT. split; [by apply Hsame|done].
  - intros Hr. destruct (quiet_role _ _ Hq ltac:(congruence)) as [Er Et].
    destruct (W_node _ _ _ _ HW _ _ Hi) as (g0 & Hg0 & Hf). rewrite Hg in Hg0. injection Hg0 as <-.
    pose proof (LF_log _ _ _ _ (F_lead _ _ _ _ _ Hf ltac:(congruence))) as Hlg.
    destruct (elected_with _ _ _ _ _ HW Hi Hlg ltac:(congruence)) as (e & He & Hp & Hc & HQ).
    rewrite <- Et in *. exists e. split; [done|]. split; [|by split].
    destruct (Hpre _ _ Hlg) as (h' & Hh' & Hp'). pose proof (LF_log _ _ _ _ (F_lead _ _ _ _ _ Hfacts Hr)) as Hl'.
    cbn [after h_lead] in Hl'. rewrite Hh' in Hl'. injection Hl' as ->. by etrans.
  - auto.
  - intros v T k [Ha|Ha]%elem_of_app; [right|by left]. by apply Hack.
  - intros c -> Hv. left. eapply quiet_held; eauto. by apply elem_of_held.
  - auto.
  - intros v T c Hh. left. by eapply quiet_held.
Qed.
End Quiet.

(** Steps that leave the leaders' logs alone. *)
Lemma WInv_step w H i n n' g g' ms pkts acks :
  WInv w H -> w_nodes w !! i = Some n -> h_log H !! i = Some g -> quiet n n' ->
  (forall from to args, PVote from to args ∉ pkts) ->
  (forall from to T r, PVoteReply from to T r ∈ pkts -> rvr_VoteGranted r = false) ->
  node_facts H i n' g' ->
  (forall v T k, (v, T, k) ∈ acks -> v = i /\ T = currentTerm n' /\
     exists h, h_lead H !! T = Some h /\ (k <= length h)%nat /\ take k g' = take k h) ->
  (forall T k h, h_lead H !! T = Some h -> (k <= length h)%nat -> T <= currentTerm n ->
     kept H g T k h (currentTerm n) -> kept H g' T k h (currentTerm n')) ->
  (forall m, m ∈ ms -> msg_ok (after H i n' pkts g' (h_lead H) acks) m) ->
  advances w H (update w i n' ms).
Proof using Hid Hpeers.
  intros HW Hi Hg Hq Hreq Hrep HF Hack Hkept Hmail. eapply (WInv_quiet w H i n n' g g' ms pkts (h_lead H) acks); eauto.
  eapply (node_facts_ext _ H); [|done|exact HF]. apply ext_after. eauto.
Qed.

Lemma kept_later H g T k h upto upto' : kept H g T k h upto -> upto <= upto' -> kept H g T k h upto'.
Proof using Type. intros Hk Hle j Hj Hall. apply Hk; [done|]. intros T' e HT'. apply Hall. lia. Qed.

(** Steps that leave all logs alone; what they send was true before. *)
Lemma WInv_same w H i n n' g ms :
  WInv w H -> w_nodes w !! i = Some n -> h_log H !! i = Some g -> quiet n n' ->
  node_facts H i n' g -> (forall m, m ∈ ms -> msg_ok H m) -> advances w H (update w i n' ms).
Proof using Hid Hpeers.
  intros HW Hi Hg Hq HF Hmail. eapply (WInv_step w H i n n' g g ms [] []); try done; try (by intros * ?%not_elem_of_nil).
  intros T k h _ _ _ Hk. eapply kept_later; [exact Hk|by apply quiet_term].
Qed.

Lemma facts_down H i n f T n' g :
  node_facts H i n g -> currentTerm n < T -> becomeFollowerLocked n f T = Some n' ->
  node_facts H i n' g /\ quiet n n' /\ currentTerm n' = T.
Proof using Type.
  intros HF HT E. destruct (quiet_step_down _ _ _ _ HT E) as [Hq Ht]. split; [|done].
  destruct (node_inv_step_down _ _ _ _ (F_inv _ _ _ _ _ HF) E) as (Hinv & _).
  eapply facts_frame; [exact HF|exact Hinv|exact Hq|].
  unfold becomeFollowerLocked in E. destruct (persistLocked _ _) as [n1|] eqn:Ep; [|done]. injection E as <-.
  unfold persistLocked in Ep. destruct (fail_term f); [done|]. injection Ep as <-. by split.
Qed.

Lemma facts_default H i n f T g :
  node_facts H i n g -> currentTerm n < T -> node_facts H i (default n (becomeFollowerLocked n f T)) g.
Proof using Type.
  intros HF HT. destruct (becomeFollowerLocked n f T) as [n'|] eqn:E; [|done]. by eapply facts_down.
Qed.

(** The common prologue of the request handlers. *)
Lemma facts_prologue H i n f T n1 g :
  node_facts H i n g -> (if T >? currentTerm n then becomeFollowerLocked n f T else Some n) = Some n1 ->
  node_facts H i n1 g /\ quiet n n1 /\ T <= currentTerm n1 /\ currentTerm n <= currentTerm n1.
Proof using Type.
  intros HF E. destruct (quiet_prologue _ _ _ _ E) as [Hq Hle]. pose proof (quiet_term _ _ Hq).
  split; [|by split_and!]. destruct (T >? currentTerm n) eqn:Et; [|by injection E as <-].
  zbool. by eapply facts_down.
Qed.

Lemma facts_follower H i n leader r g :
  node_facts H i n g -> node_facts H i (resetElectionTimerLocked (set_role n Follower leader (votesReceived n)) r) g.
Proof using Type.
  intros HF. eapply facts_frame; [exact HF|frame_of (F_inv _ _ _ _ _ HF)| |by split].
  eapply quiet_trans; [apply quiet_follower|apply quiet_timer].
Qed.

(** ** Replies to a leader *)

Definition raised (n : Node) (p : bytes) (m : Z) : Node :=
  set_progress n (if u64 (m + 1) >? next_of n p then <[p := u64 (m + 1)]> (nextIndex n) else nextIndex n)
                 (if m >? match_of n p then <[p := m]> (matchIndex n) else matchIndex n).

Lemma facts_raised H i n g p m :
  node_facts H i n g -> role n = Leader -> acked H p (currentTerm n) m -> node_facts H i (raised n p m) g.
Proof using Type.
  intros HF Hr (h & Hh & Hm & Ha). pose proof HF as [F1 F2 F3 F4 F5 F6 F7 F8].
  destruct (F8 Hr) as [L1 L2 L3 L4]. rewrite L1 in Hh. injection Hh as <-.
  pose proof (LastIndex_bound _ (rep_wf _ _ F2)) as Hb. rewrite (rep_length _ _ F2) in Hb.
  split; try done; [frame_of F1|]. intros _. split; [done|done| |].
  - intros q Hq. specialize (L3 q Hq). unfold next_of, raised in *. cbn [nextIndex set_progress].
    rewrite (u64_small (m + 1)) by (unfold is_u64; lia). case_if; zbool; [|done].
    destruct (decide (q = p)) as [->|Hne]; [rewrite lookup_insert_eq; cbn; lia|by rewrite lookup_insert_ne].
  - intros q Hq. specialize (L4 q Hq). unfold match_of, raised in *. cbn [matchIndex set_progress currentTerm].
    case_if; zbool; [|done].
    destruct (decide (q = p)) as [->|Hne]; [rewrite lookup_insert_eq; cbn|by rewrite lookup_insert_ne].
    intros H0. exists (Z.to_nat m). split; [lia|done].
Qed.

Lemma facts_lowered H i n g p :
  node_facts H i n g -> 1 < next_of n p -> role n = Leader ->
  node_facts H i (set_progress n (<[p := next_of n p - 1]> (nextIndex n)) (matchIndex n)) g.
Proof using Type.
  intros [F1 F2 F3 F4 F5 F6 F7 F8] Hn Hr. destruct (F8 Hr) as [L1 L2 L3 L4].
  split; try done; [frame_of F1|]. intros _. split; [done|done| |done].
  intros q Hq. specialize (L3 q Hq). unfold next_of in *. cbn [nextIndex set_progress].
  destruct (decide (q = p)) as [->|Hne]; [rewrite lookup_insert_eq; cbn; lia|by rewrite lookup_insert_ne].
Qed.

Lemma step_append_reply w H from i args reply n f :
  WInv w H -> MAppendReply from i args reply ∈ w_mail w -> w_nodes w !! i = Some n ->
  advances w H (update w i (onAppendEntriesReply n f from (ae_Term args) args reply).1 []).
Proof using Hid Hpeers.
  intros HW Hin Hi. destruct (W_node _ _ _ _ HW _ _ Hi) as (g & Hg & HF).
  destruct (member_cfg _ _ _ _ HW Hi) as (Him & Hc & _).
  eapply WInv_same; [exact HW|exact Hi|exact Hg|apply quiet_onAppendEntriesReply| |by intros ? ?%not_elem_of_nil].
  unfold onAppendEntriesReply. case_if; zbool; [by apply facts_default|].
  case_if; [done|]. zbool. case_if.
  - cbn [fst]. apply (W_mail _ _ _ _ HW) in Hin. cbn in Hin.
    destruct (Hin ltac:(done)) as (h & Hh & Hm & Ha). destruct (W_lead _ _ _ _ HW _ _ Hh) as (_ & _ & Hb & _).
    rewrite (u64_small (_ + zlen _)) by (unfold is_u64; lia).
    match goal with |- node_facts _ _ (maybeAdvanceCommitIndexLocked (set_progress _ (if u64 (?m + 1) >? _ then _ else _) _)) _ =>
      change (node_facts H i (maybeAdvanceCommitIndexLocked (raised n from m)) g) end.
    apply facts_advance; [done..| |done]. apply facts_raised; [done..|].
    replace (currentTerm n) with (ae_Term args) by done. exists h. by split.
  - cbn [fst]. case_if; zbool; [|done]. by apply facts_lowered.
Qed.

Lemma step_snapshot_reply w H from i term snap final reply n f :
  WInv w H -> MSnapshotReply from i term snap final reply ∈ w_mail w -> w_nodes w !! i = Some n ->
  advances w H (update w i (onInstallSnapshotReply n f from term snap final reply).1 []).
Proof using Hid Hpeers.
  intros HW Hin Hi. destruct (W_node _ _ _ _ HW _ _ Hi) as (g & Hg & HF).
  destruct (member_cfg _ _ _ _ HW Hi) as (Him & Hc & _).
  eapply WInv_same; [exact HW|exact Hi|exact Hg|apply quiet_onInstallSnapshotReply| |by intros ? ?%not_elem_of_nil].
  unfold onInstallSnapshotReply. case_if; zbool; [by apply facts_default|].
  case_if; [done|]. zbool. case_if; [done|]. zbool. case_if; [|done]. cbn [fst].
  apply (W_mail _ _ _ _ HW) in Hin. cbn in Hin.
  match goal with |- node_facts _ _ (maybeAdvanceCommitIndexLocked (set_progress _ (if u64 (?m + 1) >? _ then _ else _) _)) _ =>
    change (node_facts H i (maybeAdvanceCommitIndexLocked (raised n from m)) g) end.
  apply facts_advance; [done..| |done]. apply facts_raised; [done..|]. subst. by apply Hin.
Qed.

(** ** Entries and snapshots from a leader *)

Lemma facts_synced w H i n n' g g' h m :
  WInv w H -> node_facts H i n g -> h_lead H !! currentTerm n = Some h -> synced h m g g' ->
  node_inv n' -> rep (log n') g' -> currentTerm n' = currentTerm n -> role n' = Follower ->
  (commitIndex n' = commitIndex n \/
   (Z.to_nat (commitIndex n') <= m)%nat /\ decided H h (Z.to_nat (commitIndex n')) (currentTerm n)) ->
  (disk_snapshot (persister n') = disk_snapshot (persister n) \/
   exists s, disk_snapshot (persister n') = Some s /\ (Z.to_nat (LastIncludedIndex s) <= m)%nat /\
     gterm h (Z.to_nat (LastIncludedIndex s)) = Some (LastIncludedTerm s) /\
     decided H h (Z.to_nat (LastIncludedIndex s)) (currentTerm n)) ->
  node_facts H i n' g'.
Proof using Hid Hpeers.
  intros HW [F1 F2 F3 F4 F5 F6 F7 F8] Hh Hs Hinv Hrep Ht Hr Hcm Hsn.
  destruct (W_lead _ _ _ _ HW _ _ Hh) as (Hlm & Hle & _). pose proof (synced_take _ _ _ _ Hs) as Em.
  assert (Hold : forall c, decided H g c (currentTerm n) -> take c g' = take c g /\ decided H g' c (currentTerm n)).
  { intros c Hd. eapply synced_decided; eauto. lia. }
  assert (Hnew : forall c, (c <= m)%nat -> decided H h c (currentTerm n) -> decided H g' c (currentTerm n)).
  { intros c Hc [->|(T0 & k & h0 & HT & Hch & Hh0 & Hk & E)]; [by left|right]. exists T0, k, h0.
    split_and!; try done. rewrite <- E. by eapply take_agree_le. }
  split; rewrite ?Ht; try done; try congruence.
  - by eapply synced_lm.
  - by eapply synced_terms.
  - destruct Hcm as [->|[Hcm Hd]]; [by apply Hold|by apply Hnew].
  - intros s Hsd. destruct Hsn as [E|(s' & E & Hsm & Hst & Hd)].
    + rewrite E in Hsd. destruct (F6 s Hsd) as [Hst Hd]. destruct (Hold _ Hd) as [Etk Hd']. split; [|done].
      rewrite <- Hst. by apply (gterm_agree _ _ _ _ Etk).
    + rewrite E in Hsd. injection Hsd as ->. split; [|by apply Hnew]. rewrite <- Hst.
      by apply (gterm_agree _ _ _ _ Em).
Qed.

Lemma AppendAfter_unchanged l prev es :
  log_wf l -> base l <= prev <= LastIndex l -> prev + 1 + zlen es < 2 ^ 64 ->
  (AppendAfter l prev es).2 = false -> (AppendAfter l prev es).1 = l.
Proof using Type.
  intros Hw Hp Hb. rewrite AppendAfter_merge by done. cbn [fst snd]. intros Hc.
  rewrite merge_unchanged by done. apply take_drop.
Qed.

(** The end of [HandleAppendEntries], once the check at the previous entry
    passed. *)
Lemma append_saved (n : Node) (l : Log) (changed : bool) f args n' reply :
  (match (if changed then persistLocked (set_log n l) (fail_state f) else Some n) with
   | None => (n, MkAER (currentTerm n) false)
   | Some n =>
       let lastNew := u64 (ae_PrevLogIndex args + zlen (ae_Entries args)) in
       let newCommit := if lastNew <? ae_LeaderCommit args then lastNew else ae_LeaderCommit args in
       let n := if (ae_LeaderCommit args >? commitIndex n) && (newCommit >? commitIndex n)
                then notifyCommit n newCommit else n in
       (n, MkAER (currentTerm n) true)
   end) = (n', reply) -> (changed = false -> l = log n) ->
  (n' = n /\ aer_Success reply = false) \/
  (log n' = l /\ currentTerm n' = currentTerm n /\ role n' = role n /\
   disk_snapshot (persister n') = disk_snapshot (persister n) /\
   (commitIndex n' = commitIndex n \/
    commitIndex n' = Z.min (u64 (ae_PrevLogIndex args + zlen (ae_Entries args))) (ae_LeaderCommit args))).
Proof using Type.
  intros E Hl. set (lastNew := u64 _) in *. cbv zeta in E.
  assert ((if lastNew <? ae_LeaderCommit args then lastNew else ae_LeaderCommit args) = Z.min lastNew (ae_LeaderCommit args))
    as Emin by (case_if; zbool; lia).
  rewrite Emin in E. destruct changed; [unfold persistLocked in E; destruct (fail_state f)|rewrite (Hl eq_refl)];
    injection E as <- <-; [by left|right..]; destruct (_ && _); cbn; split_and!; auto.
Qed.

Lemma HandleAppendEntries_synced w H i n g h f args n' reply :
  WInv w H -> node_facts H i n g -> h_lead H !! ae_Term args = Some h -> append_ok members H h args ->
  HandleAppendEntries n f args = (n', reply) ->
  exists g', node_facts H i n' g' /\
    ((aer_Success reply = false /\ g' = g) \/
     (currentTerm n' = ae_Term args /\ synced h (Z.to_nat (ae_PrevLogIndex args) + length (ae_Entries args)) g g')).
Proof using Hid Hpeers.
  intros HW HF Hh (H0 & Hpt & Hlen & Hes & Hc0 & Hcd) E.
  destruct (W_lead _ _ _ _ HW _ _ Hh) as (Hlm & _ & Hbound & _).
  assert (append_bounded args) as Hab by (split; unfold is_u64, zlen; lia).
  pose proof (node_inv_HandleAppendEntries n f args Hab (F_inv _ _ _ _ _ HF)) as Hinv. rewrite E in Hinv. cbn [fst] in Hinv.
  unfold HandleAppendEntries in E.
  destruct (if ae_Term args >? currentTerm n then _ else _) as [n1|] eqn:Ep.
  2: { injection E as <- <-. exists g. auto. }
  apply (facts_prologue _ _ _ _ _ _ _ HF) in Ep as (HF1 & _ & Hle & _).
  destruct (ae_Term args <? currentTerm n1) eqn:Elt; [injection E as <- <-; exists g; auto|]. zbool.
  pose proof (facts_follower _ _ _ (ae_LeaderID args) (rnd f) _ HF1) as HF2.
  set (n2 := resetElectionTimerLocked _ _) in *.
  assert (currentTerm n2 = ae_Term args /\ role n2 = Follower) as [Ht2 Hr2] by (split; [change (currentTerm n1 = ae_Term args); lia|done]).
  clearbody n2. clear n1 HF1 Hle Elt.
  destruct (negb _) eqn:Eck; [injection E as <- <-; exists g; auto|]. zbool.
  pose proof HF2 as [_ R2 Lm2 _ _ _ _ _]. apply (rep_TermAt_Some _ _ R2) in Eck as [Hpr Hgt]; [|apply Hab].
  pose proof (rep_AppendAfter _ _ _ _ R2 Hpr (proj2 Hab)) as Hrep.
  pose proof (AppendAfter_unchanged _ _ _ (rep_wf _ _ R2) Hpr (proj2 Hab)) as Hun.
  pose proof (append_synced H g h _ (ghost <$> ae_Entries args) Lm2 Hlm
    ltac:(by rewrite length_fmap) ltac:(by rewrite length_fmap) ltac:(congruence)) as Hsy. rewrite length_fmap in Hsy.
  set (g' := take _ g ++ _) in *. destruct (AppendAfter _ _ _) as [l changed]. cbn [fst snd] in *.
  apply append_saved in E as [[-> ->]|(El & Et & Er & Es & Ec)]; [exists g; auto| |done].
  exists g'. rewrite u64_small in Ec by (unfold is_u64, zlen; lia). split; [|right; by rewrite Et].
  eapply (facts_synced w H i n2); eauto; [by rewrite Ht2|by rewrite El|congruence|].
  destruct Ec as [Ec|Ec]; [by left|right]. rewrite Ec. split; [unfold zlen in *; lia|].
  rewrite Ht2. eapply decided_le; [exact Hcd|lia|done].
Qed.

Lemma synced_step w H i n n' g g' h m T ms :
  WInv w H -> w_nodes w !! i = Some n -> h_log H !! i = Some g -> quiet n n' ->
  node_facts H i n' g' -> currentTerm n' = T -> h_lead H !! T = Some h -> synced h m g g' ->
  (forall H', h_lead H' = h_lead H -> (i, T, m) ∈ h_ack H' -> forall x, x ∈ ms -> msg_ok H' x) ->
  advances w H (update w i n' ms).
Proof using Hid Hpeers.
  intros HW Hi Hg Hq HF <- Hh Hs Hmail.
  eapply (WInv_step w H i n n' g g' ms [] [(i, currentTerm n', m)]); try done; try (by intros * ?%not_elem_of_nil).
  - intros v T k [= -> -> ->]%list_elem_of_singleton. split; [done|]. split; [done|]. exists h.
    split; [done|]. split; [apply Hs|by apply (synced_take _ _ _ _ Hs)].
  - intros T k hT HhT Hk HT Hkp. eapply synced_kept; eauto. split; [done|]. by apply quiet_term.
  - apply Hmail; [done|]. apply elem_of_app. left. by apply list_elem_of_singleton.
Qed.

Lemma step_append w H from i args n f n' reply :
  WInv w H -> MAppend from i args ∈ w_mail w -> w_nodes w !! i = Some n ->
  HandleAppendEntries n f args = (n', reply) -> advances w H (update w i n' [MAppendReply i from args reply]).
Proof using Hid Hpeers.
  intros HW Hin Hi E. destruct (W_node _ _ _ _ HW _ _ Hi) as (g & Hg & HF).
  destruct (W_mail _ _ _ _ HW _ Hin) as (h & Hh & Hok). pose proof (quiet_HandleAppendEntries n f args) as Hq.
  rewrite E in Hq. cbn [fst] in Hq.
  destruct (HandleAppendEntries_synced _ _ _ _ _ _ _ _ _ _ HW HF Hh Hok E) as (g' & HF' & [[Hs ->]|[Ht Hs]]).
  - eapply WInv_same; eauto. intros m ->%list_elem_of_singleton. cbn. congruence.
  - eapply (synced_step w H i n n' g g' h); eauto.
    intros H' El Ha m ->%list_elem_of_singleton _. destruct Hok as (H0 & _ & Hlen & _). exists h. rewrite El.
    unfold zlen. split; [done|]. split; [lia|]. by replace (Z.to_nat _) with
      (Z.to_nat (ae_PrevLogIndex args) + length (ae_Entries args))%nat by lia.
Qed.

Lemma installSnapshot_synced w H i n g h f index term data n' reply :
  WInv w H -> node_facts H i n g -> role n = Follower -> h_lead H !! currentTerm n = Some h ->
  base (log n) < index -> gterm h (Z.to_nat index) = Some term -> decided H h (Z.to_nat index) (currentTerm n) ->
  (fail_state f = true -> fail_snapshot f = true) -> installSnapshot n f index term data = (n', reply) ->
  exists g', node_facts H i n' g' /\ currentTerm n' = currentTerm n /\
    ((isr_Success reply = false /\ g' = g) \/ synced h (Z.to_nat index) g g').
Proof using Hid Hpeers.
  intros HW HF Hr Hh Hb Ht Hd Hfail E. pose proof (gterm_Some _ _ _ Ht) as Hlen.
  destruct (W_lead _ _ _ _ HW _ _ Hh) as (Hlm & _ & Hbound & _).
  pose proof (node_inv_installSnapshot n f index term data (F_inv _ _ _ _ _ HF) Hb ltac:(lia)) as Hinv.
  rewrite E in Hinv. cbn [fst] in Hinv. unfold installSnapshot in E.
  destruct (fail_snapshot f).
  { injection E as <- <-. exists g. split; [|auto]. eapply facts_frame; [exact HF|done|by apply quiet_same|by split]. }
  destruct (fail_state f); [by discriminate Hfail|]. unfold persistLocked in E.
  pose proof HF as [_ R2 Lm2 _ _ _ _ _].
  destruct (rep_install (log n) g h index term R2 Hb ltac:(lia) Hlen Ht) as (g' & Hrep & Hcases).
  { intros Hg. by eapply (lm_agree H). }
  assert (synced h (Z.to_nat index) g g') as Hs by (by split).
  injection E as <- <-. exists g'.
  split; [|split; [by destruct (_ >? _)|by right]]. eapply (facts_synced w H i n); eauto.
  - by destruct (_ >? _).
  - by destruct (_ >? _).
  - by destruct (_ >? _).
  - destruct (_ >? _); [right; by split|by left].
  - right. exists (MkSnapshot index term data). split; [by destruct (_ >? _)|]. by split_and!.
Qed.

Lemma accepted_not_final cur args t :
  receiveSnapshotChunkLocked cur args = (t, ChunkAccepted) -> is_Final args = false.
Proof using Type.
  unfold receiveSnapshotChunkLocked. case_if; [done|]. destruct (if is_Offset args =? 0 then _ else _); [|done].
  do 2 (case_if; [done|]). destruct (is_Final args); [|done]. cbn [negb]. by case_if.
Qed.

Lemma HandleInstallSnapshot_synced w H i n g h f args from term snap n' reply :
  WInv w H -> node_facts H i n g -> h_lead H !! term = Some h -> snapshot_ok members H h term snap ->
  chunk_of from term snap args -> (fail_state f = true -> fail_snapshot f = true) ->
  HandleInstallSnapshot n f args = (n', reply) ->
  exists g', node_facts H i n' g' /\
    (((isr_Success reply = false \/ is_Final args = false) /\ g' = g) \/
     (currentTerm n' = term /\ synced h (Z.to_nat (LastIncludedIndex snap)) g g')).
Proof using Hid Hpeers.
  intros HW HF Hh (H0 & Hst & Hsd) (<- & _ & Ei & Et & Echk) Hfail E. unfold HandleInstallSnapshot in E.
  destruct (if is_Term args >? currentTerm n then _ else _) as [n1|] eqn:Ep.
  2: { injection E as <- <-. exists g. auto. }
  apply (facts_prologue _ _ _ _ _ _ _ HF) in Ep as (HF1 & _ & Hle & _).
  destruct (is_Term args <? currentTerm n1) eqn:Elt; [injection E as <- <-; exists g; auto|]. zbool.
  pose proof (facts_follower _ _ _ (is_LeaderID args) (rnd f) _ HF1) as HF2.
  set (n2 := resetElectionTimerLocked _ _) in *.
  assert (currentTerm n2 = is_Term args /\ role n2 = Follower) as [Ht2 Hr2]
    by (split; [change (currentTerm n1 = is_Term args); lia|done]).
  clearbody n2. clear n1 HF1 Hle Elt. rewrite Echk, Ei, Et in E.
  assert (forall t, node_facts H i (set_transfer n2 t) g) as Htr.
  { intros t. eapply facts_frame; [exact HF2|frame_of (F_inv _ _ _ _ _ HF2)|by apply quiet_same|by split]. }
  destruct (_ <=? _) eqn:Eb; zbool.
  { exists g. injection E as <- <-. split; [destruct (chunkTransfer n2); [case_if|]; auto|].
    right. split; [destruct (chunkTransfer n2); [case_if|]; done|].
    rewrite <- Ht2 in Hh. destruct (decided_lead _ _ _ _ _ _ _ HW (facts_base _ _ _ _ HF2) ltac:(done) Hh) as [Hl Eq].
    split; [by eapply gterm_Some|]. left. split; [|done]. eapply take_agree_le; [exact Eq|lia]. }
  destruct (receiveSnapshotChunkLocked _ _) as [t [| |data]] eqn:Erc.
  - injection E as <- <-. exists g. auto.
  - injection E as <- <-. exists g. apply accepted_not_final in Erc. auto.
  - rewrite <- Ht2 in Hh, Hsd. destruct (installSnapshot_synced w H i (set_transfer n2 t) g h f _ _ _ _ _
      HW (Htr t) Hr2 Hh Eb Hst Hsd Hfail E) as (g' & HF' & Ht' & Hcases).
    exists g'. split; [done|]. destruct Hcases as [[? ->]|?]; [auto|]. right. by rewrite Ht'.
Qed.

Lemma step_snapshot w H from i term snap args n f n' reply :
  WInv w H -> MSnapshot from i term snap ∈ w_mail w -> chunk_of from term snap args -> w_nodes w !! i = Some n ->
  (fail_state f = true -> fail_snapshot f = true) -> HandleInstallSnapshot n f args = (n', reply) ->
  advances w H (update w i n' [MSnapshotReply i from term snap (is_Final args) reply]).
Proof using Hid Hpeers.
  intros HW Hin Hch Hi Hfail E. destruct (W_node _ _ _ _ HW _ _ Hi) as (g & Hg & HF).
  destruct (W_mail _ _ _ _ HW _ Hin) as (h & Hh & Hok). pose proof (quiet_HandleInstallSnapshot n f args) as Hq.
  rewrite E in Hq. cbn [fst] in Hq.
  destruct (HandleInstallSnapshot_synced _ _ _ _ _ _ _ _ _ _ _ _ _ HW HF Hh Hok Hch Hfail E) as (g' & HF' & [[Hs ->]|[Ht Hs]]).
  - eapply WInv_same; eauto. intros m ->%list_elem_of_singleton. cbn. intros. destruct Hs; congruence.
  - eapply (synced_step w H i n n' g g' h); eauto.
    intros H' El Ha m ->%list_elem_of_singleton _ _. destruct Hok as (H0 & Hst & _). exists h. rewrite El.
    apply gterm_Some in Hst. split; [done|]. split; [lia|done].
Qed.

(** ** Proposals, compaction, application, restarts *)

Lemma kept_app H g T k h upto e : (k <= length h)%nat -> kept H g T k h upto -> kept H (g ++ e) T k h upto.
Proof using Type.
  intros Hk Hkp j Hj Hall. specialize (Hkp j Hj Hall). rewrite <- Hkp. apply take_app_le.
  apply (take_agree_length _ _ _ Hkp). lia.
Qed.

Lemma decided_app H g c T e : decided H g c T -> decided H (g ++ e) c T.
Proof using Type. intros Hd. eapply decided_prefix; [by exists e| |done]. by eapply decided_length. Qed.

(** A step of the node alone. *)
Lemma step_alone w H i n n' g :
  WInv w H -> w_nodes w !! i = Some n -> h_log H !! i = Some g -> quiet n n' -> node_facts H i n' g ->
  advances w H (update w i n' []).
Proof using Hid Hpeers. intros. eapply WInv_same; eauto. by intros ? ?%not_elem_of_nil. Qed.

Lemma step_mark w H i n index :
  WInv w H -> w_nodes w !! i = Some n -> advances w H (update w i (MarkApplied n index).1 []).
Proof using Hid Hpeers.
  intros HW Hi. destruct (W_node _ _ _ _ HW _ _ Hi) as (g & Hg & HF).
  eapply step_alone; eauto using quiet_MarkApplied. eapply facts_frame; [exact HF| |apply quiet_MarkApplied|].
  - apply node_inv_MarkApplied, HF.
  - unfold MarkApplied. repeat case_if; by split.
Qed.

Lemma step_confirm w H i n index :
  WInv w H -> w_nodes w !! i = Some n -> advances w H (update w i (ConfirmSnapshotRestored n index).1 []).
Proof using Hid Hpeers.
  intros HW Hi. destruct (W_node _ _ _ _ HW _ _ Hi) as (g & Hg & HF).
  eapply step_alone; eauto using quiet_ConfirmSnapshotRestored.
  eapply facts_frame; [exact HF| |apply quiet_ConfirmSnapshotRestored|].
  - apply node_inv_Confirm, HF.
  - unfold ConfirmSnapshotRestored. destruct (pendingSnapshot n); [|by split]. repeat case_if; by split.
Qed.

(** Moving the boundary of the log, or saving a snapshot of what is settled. *)
Lemma facts_store H i n n' g :
  node_facts H i n g -> node_inv n' -> rep (log n') g -> cfg n' = cfg n -> currentTerm n' = currentTerm n ->
  role n' = role n -> nextIndex n' = nextIndex n -> matchIndex n' = matchIndex n -> commitIndex n' = commitIndex n ->
  (forall s, disk_snapshot (persister n') = Some s -> gterm g (Z.to_nat (LastIncludedIndex s)) = Some (LastIncludedTerm s) /\
     decided H g (Z.to_nat (LastIncludedIndex s)) (currentTerm n)) ->
  node_facts H i n' g.
Proof using Type.
  intros [F1 F2 F3 F4 F5 F6 F7 F8] Hinv Hrep Ec Et Er En Em Ecm Hs.
  split; rewrite ?Et, ?Er, ?Ecm; try done. intros Hl. destruct (F8 Hl) as [L1 L2 L3 L4].
  split; unfold next_of, match_of, peers; rewrite ?Et, ?En, ?Em, ?Ec; done.
Qed.

Lemma facts_CreateSnapshot H i n f index data g :
  node_facts H i n g -> is_u64 index -> node_facts H i (CreateSnapshot n f index data).1 g.
Proof using Type.
  intros HF Hu. pose proof (node_inv_CreateSnapshot n f index data Hu (F_inv _ _ _ _ _ HF)) as Hinv. revert Hinv.
  unfold CreateSnapshot. do 4 (case_if; [done|]). zbool. pose proof HF as [F1 F2 F3 F4 F5 F6 F7 F8].
  destruct (TermAt (log n) index) as [term|] eqn:Et; [|done]. case_if; [done|].
  apply (rep_TermAt_Some _ _ F2 _ _ Hu) in Et as [Hr Et].
  assert (decided H g (Z.to_nat index) (currentTerm n)) as Hd by (eapply decided_le; [exact F5|lia|done]).
  change (log (set_persister n _)) with (log n). destruct (compact (log n) index) as [l|] eqn:Ec.
  - pose proof (rep_compact _ _ _ _ F2 Hr Ec) as Hl. unfold persistLocked.
    destruct (fail_state f); intros Hinv; (eapply facts_store; [exact HF|exact Hinv|done..|]); by intros s [= <-].
  - intros Hinv. eapply facts_store; [exact HF|exact Hinv|done..|]. by intros s [= <-].
Qed.

Lemma step_create_snapshot w H i n f index data :
  WInv w H -> w_nodes w !! i = Some n -> is_u64 index ->
  advances w H (update w i (CreateSnapshot n f index data).1 []).
Proof using Hid Hpeers.
  intros HW Hi Hu. destruct (W_node _ _ _ _ HW _ _ Hi) as (g & Hg & HF).
  eapply step_alone; eauto using quiet_CreateSnapshot, facts_CreateSnapshot.
Qed.

Lemma step_crash w H i n r n' :
  WInv w H -> w_nodes w !! i = Some n -> newNode (cfg n) (persister n) r = Ok n' -> advances w H (update w i n' []).
Proof using Hid Hpeers.
  intros HW Hi E. destruct (W_node _ _ _ _ HW _ _ Hi) as (g & Hg & HF).
  pose proof Hi as Hi'. rewrite <- (W_nodes _ _ _ _ HW) in Hi'.
  destruct (I_node _ _ _ (W_core _ _ _ _ HW) _ _ Hi') as (_ & _ & Hk & _).
  destruct (newNode_effect _ _ _ Hk E) as (Hc & Ht & Hv & Hk' & Hr).
  destruct HF as [F1 F2 F3 F4 F5 F6 F7 F8].
  destruct (newNode_recovers n r F1) as (m & Em & Hinv & _). rewrite E in Em. injection Em as <-.
  assert (commitIndex n' = 0 /\ persister n' = persister n) as [Ecm Ep].
  { unfold newNode in E. destruct (disk_state (persister n)); (destruct (disk_snapshot (persister n));
      [destruct (match head _ with Some _ => _ | None => _ end); [done|]|]); by injection E as <-. }
  eapply step_alone; eauto.
  - split; [done|done|]. left. auto.
  - split; rewrite ?Ht, ?Hr, ?Ecm, ?Ep; try done; [|by left].
    eapply (newNode_rep n r); [exact F1|exact F2| |exact E]. intros s Hs. by apply F6.
Qed.

Lemma step_read w H i n r :
  WInv w H -> w_nodes w !! i = Some n -> ReadIndex_begin n = Ok r ->
  advances w H (update w i n ((fun c => MAppend i c.1 c.2) <$> pr_calls r)).
Proof using Hid Hpeers.
  intros HW Hi E. destruct (W_node _ _ _ _ HW _ _ Hi) as (g & Hg & HF).
  eapply WInv_same; eauto; [apply quiet_refl|]. unfold ReadIndex_begin in E. destruct (negb _) eqn:Er; [done|]. zbool.
  injection E as <-. cbn [pr_calls].
  intros m (x & -> & (p & -> & [Hp Hin]%list_elem_of_filter)%list_elem_of_fmap)%list_elem_of_fmap.
  by eapply append_args_ok.
Qed.

(** A leader's own entry: the facts in a history that has it. *)
Lemma facts_propose H H' i n f n1 command g :
  let e := MkEntry 0 (currentTerm n) command in
  let g' := g ++ [ghost e] in
  node_facts H i n g -> ext H H' -> h_lead H' !! currentTerm n = Some g' -> (i, currentTerm n, length g') ∈ h_ack H' ->
  role n = Leader -> base (log n) + zlen (log n) + 1 < 2 ^ 64 ->
  persistLocked (set_log n (log_Append (log n) e).1) (fail_state f) = Some n1 -> node_facts H' i n1 g'.
Proof using Type.
  intros e g' [F1 F2 F3 F4 F5 F6 F7 F8] HX Hl Ha Hr Hb Ep.
  pose proof (rep_Append _ _ e F2 Hb) as Hrep. destruct (F8 Hr) as [L1 L2 L3 L4].
  assert (node_inv n1) as Hinv.
  { eapply node_inv_persist; [exact F1|exact Ep|..]; try done; [by destruct Hrep|].
    pose proof (wf_nonempty _ (N_log _ F1)). unfold log_Append. cbn. by destruct (log n). }
  unfold persistLocked in Ep. destruct (fail_state f); [done|]. injection Ep as <-.
  assert (Hlast : forall j t, gterm g' j = Some t -> gterm g j = Some t \/ (j = length g' /\ t = currentTerm n)).
  { intros j t Ht. pose proof (gterm_Some _ _ _ Ht) as Hj. unfold g' in Hj, Ht |- *. rewrite length_app in *. cbn in *.
    destruct (decide (j <= length g)%nat) as [Hle|Hgt].
    - left. rewrite <- Ht, <- (gterm_take (g ++ _) j (length g)) by done. by rewrite take_app_length.
    - right. assert (j = S (length g)) as -> by lia. split; [lia|]. cbn in Ht. rewrite lookup_app_r in Ht by lia.
      rewrite Nat.sub_diag in Ht. cbn in Ht. congruence. }
  assert (length g' = S (length g)) as Hlen by (unfold g'; rewrite length_app; cbn; lia).
  split; try done.
  - intros j t Hj Ht. destruct (Hlast j t Ht) as [Hg|[-> ->]]; [|by exists g'].
    destruct (lm_ext _ _ HX g F3 j t Hj Hg) as (h & Hh & E). exists h. split; [done|]. rewrite <- E.
    apply take_app_le. by eapply gterm_Some.
  - intros j t Ht. destruct (Hlast j t Ht) as [Hg|[_ ->]]; [by eapply F4|done].
  - eapply decided_ext; [exact HX|]. by apply decided_app.
  - intros s Hs. destruct (F6 s Hs) as [Ht Hd]. split.
    + eapply gterm_prefix; [by exists [ghost e]|done].
    + eapply decided_ext; [exact HX|]. by apply decided_app.
  - cbn. congruence.
  - intros _. split; [done|done| |].
    + intros p Hp. specialize (L3 p Hp). unfold next_of in *. cbn. lia.
    + intros p Hp Hm. destruct (L4 p Hp Hm) as (k & ? & ?). exists k. split; [done|]. by apply (X_ack _ _ HX).
Qed.

Lemma step_propose w H i n f command n' rpcs r :
  WInv w H -> w_nodes w !! i = Some n -> base (log n) + zlen (log n) + 1 < 2 ^ 64 ->
  Propose n f command = (n', rpcs, r) -> advances w H (update w i n' (posted i <$> rpcs)).
Proof using Hid Hpeers.
  intros HW Hi Hb E. destruct (W_node _ _ _ _ HW _ _ Hi) as (g & Hg & HF).
  destruct (member_cfg _ _ _ _ HW Hi) as (Him & Hc & _).
  pose proof (quiet_Propose n f command) as Hq. rewrite E in Hq. cbn [fst] in Hq.
  unfold Propose in E. destruct (negb _) eqn:Er; [injection E as <- <- <-; by eapply step_alone|]. zbool.
  set (e := MkEntry 0 (currentTerm n) command) in *. set (g' := g ++ [ghost e]).
  destruct (log_Append (log n) e) as [l index] eqn:El.
  destruct (persistLocked _ _) as [n1|] eqn:Ep; [|injection E as <- <- <-; by eapply step_alone].
  destruct (broadcastAppendEntriesLocked n1) as [n2 rs] eqn:Ebc. injection E as <- <- <-.
  assert (role n1 = Leader /\ currentTerm n1 = currentTerm n /\ cfg n1 = cfg n) as (Hr1 & Ht1 & Hc1).
  { unfold persistLocked in Ep. destruct (fail_state f); [done|]. by injection Ep as <-. }
  assert (role n2 = Leader /\ currentTerm n2 = currentTerm n) as [Hr2 Ht2].
  { injection Ebc as <- _. unfold maybeAdvanceCommitIndexLocked. by destruct (advance_loop _ _ _). }
  pose proof (LF_log _ _ _ _ (F_lead _ _ _ _ _ HF Er)) as Hlg.
  set (lead := <[currentTerm n := g']> (h_lead H)). set (acks := [(i, currentTerm n, length g')]).
  assert (forall T h, h_lead H !! T = Some h -> exists h', lead !! T = Some h' /\ h `prefix_of` h') as Hpre.
  { intros T h Hh. unfold lead. destruct (decide (T = currentTerm n)) as [->|Hne].
    - rewrite lookup_insert_eq. rewrite Hlg in Hh. injection Hh as <-. exists g'. split; [done|by exists [ghost e]].
    - rewrite lookup_insert_ne by done. by exists h. }
  pose proof (ext_after H i n2 [] g' lead acks Hpre) as HX.
  assert (lead !! currentTerm n = Some g') as Hself by apply lookup_insert_eq.
  assert (node_facts (after H i n2 [] g' lead acks) i n1 g') as HF1.
  { eapply (facts_propose H _ i n f); eauto; [by apply elem_of_app; left; apply list_elem_of_singleton|]. fold e. by rewrite El. }
  destruct (broadcast_ok _ _ _ _ _ _ Him (eq_trans Hc1 Hc) HF1 Hr1 Ebc) as [HF2 Hmail].
  eapply (WInv_quiet w H i n n2 g g' _ [] lead acks); try done; try (by intros * ?%not_elem_of_nil).
  - intros T HT. unfold lead. rewrite lookup_insert_ne; [done|]. intros <-. by apply HT.
  - intros v T k [= -> -> ->]%list_elem_of_singleton. split; [done|]. split; [by rewrite Ht2|]. by exists g'.
  - intros T k h Hh Hk HT Hkp. rewrite Ht2. by apply kept_app.
Qed.

(** ** Elections *)

Lemma facts_raise H i n n' g :
  node_facts H i n g -> node_inv n' -> currentTerm n <= currentTerm n' -> log n' = log n ->
  commitIndex n' = commitIndex n -> disk_snapshot (persister n') = disk_snapshot (persister n) ->
  (role n' = Candidate -> (currentTerm n', i, g) ∈ h_cand H) -> role n' <> Leader -> node_facts H i n' g.
Proof using Type.
  intros [F1 F2 F3 F4 F5 F6 F7 F8] Hinv HT El Ec Es Hc Hr.
  split; [done|by rewrite El|done|by eapply terms_le_le|rewrite Ec; by eapply decided_le| |done|done].
  rewrite Es. intros s Hs. destruct (F6 s Hs). split; [done|]. by eapply decided_le.
Qed.

(** A vote is early as long as its term has no leader. *)
Definition early_vote (H : history) (v : bytes) (T : Z) (c : bytes) : list (bytes * Z * bytes) :=
  match h_elect H !! T with Some _ => [] | None => [(v, T, c)] end.

Lemma elem_of_early H v T c x : x ∈ early_vote H v T c <-> h_elect H !! T = None /\ x = (v, T, c).
Proof using Type.
  unfold early_vote. destruct (h_elect H !! T).
  - rewrite elem_of_nil. split; [done|]. by intros [? _].
  - rewrite list_elem_of_singleton. split; [auto|]. by intros [_ ?].
Qed.

(** The candidate's log has what the voter acknowledged. *)
Lemma grant_ok w H i n l g T' c gc :
  WInv w H -> w_nodes w !! i = Some n -> h_log H !! i = Some g -> rep l g ->
  (T', c, gc) ∈ h_cand H -> h_elect H !! T' = None -> currentTerm n <= T' ->
  (exists t, gterm gc (length gc) = Some t /\
     logIsUpToDate (Z.of_nat (length gc)) t (LastIndex l) (LastTerm l) = true) ->
  vote_ok H i T' c.
Proof using Type.
  intros HW Hi Hg Hrep Hcand Hno HT (tc & Htc & Hup) T k' gc' h k Ha HTT Hc' Hh Hk Hkt Hall.
  assert (gc' = gc) as -> by (by eapply (W_cand_once _ _ _ _ HW)). clear Hc'.
  destruct k as [|k]; [by rewrite !take_0|].
  destruct (W_ack _ _ _ _ HW _ _ _ Ha) as (n0 & g0 & h0 & Hn0 & Hg0 & Hh0 & HT0 & Hkl & Hkp).
  rewrite Hi in Hn0. injection Hn0 as <-. rewrite Hg in Hg0. injection Hg0 as <-. rewrite Hh in Hh0. injection Hh0 as <-.
  assert (take (S k) g = take (S k) h) as Eg.
  { apply Hkp; [done|]. intros T'' e HT'' He. apply (Hall T''); [|done].
    destruct (Z.eq_dec T'' T') as [->|]; [congruence|lia]. }
  assert (gterm g (S k) = Some T) as Hgk by (by rewrite (gterm_agree _ _ _ _ Eg)).
  pose proof (rep_LastTerm _ _ Hrep) as Hlast. pose proof (rep_length _ _ Hrep) as HL.
  assert (forall T0 h0, h_lead H !! T0 = Some h0 -> terms_le h0 T0) as Hle by (intros T0 x Hx; apply (W_lead _ _ _ _ HW _ _ Hx)).
  destruct (W_node _ _ _ _ HW _ _ Hi) as (g1 & Hg1 & HF). rewrite Hg in Hg1. injection Hg1 as <-.
  pose proof (gterm_Some _ _ _ Hgk) as Hgl.
  pose proof (lm_terms _ _ Hle (F_lm _ _ _ _ _ HF) _ _ _ _ Hgl Hgk Hlast ltac:(lia)) as Hmono.
  destruct (W_cand _ _ _ _ HW _ _ _ Hcand) as (Hlm & Hterms & _).
  unfold logIsUpToDate in Hup. rewrite HL in Hup.
  assert (tc > LastTerm l \/ (tc = LastTerm l /\ (length g <= length gc)%nat)) as Hcase.
  { destruct (tc =? LastTerm l) eqn:E in Hup; cbn [negb] in Hup; zbool; [right|left]; lia. }
  assert (0 <= T) as HT0' by (by apply (Hle _ _ Hh 0%nat)).
  assert (0 < length gc)%nat as Hpos.
  { destruct (length gc) eqn:E; [|lia]. cbn in Htc. injection Htc as <-. lia. }
  destruct (Hlm _ _ Hpos Htc) as (h2 & Hh2 & E2). rewrite firstn_all in E2.
  destruct (Z.eq_dec tc T) as [->|Hne].
  { rewrite Hh in Hh2. injection Hh2 as <-. rewrite E2, take_take, Nat.min_l by lia. done. }
  destruct (W_lead _ _ _ _ HW _ _ Hh2) as (_ & _ & _ & e & He & Hpre).
  destruct (W_elect _ _ _ _ HW _ _ He) as (_ & j & _ & Hj & _). destruct (W_cand _ _ _ _ HW _ _ _ Hj) as (_ & Hte & _).
  pose proof (Hterms _ _ Htc). pose proof (Hall tc e ltac:(lia) He) as Ee.
  assert (S k <= length e)%nat as Hke by (eapply take_agree_length; [exact Ee|by eapply gterm_Some]).
  assert (length e < length gc)%nat as Hlt.
  { destruct (Nat.lt_ge_cases (length e) (length gc)) as [|Hge]; [done|]. exfalso.
    assert (gterm e (length gc) = Some tc) as Hx; [|pose proof (Hte _ _ Hx); lia].
    rewrite <- Htc. apply (gterm_agree _ _ (length gc)); [|done].
    rewrite firstn_all. etrans; [by apply prefix_take_agree|by symmetry]. }
  rewrite E2, take_take, Nat.min_l by lia. rewrite <- Ee. symmetry. by apply prefix_take_agree.
Qed.

(** Voting, and counting votes, change no log. *)
Lemma WInv_vote w H i n n' g ms pkts (early : list (bytes * Z * bytes)) :
  WInv w H -> w_nodes w !! i = Some n -> h_log H !! i = Some g ->
  Inv members cfg_of (observe (h_core H) i n' pkts) -> node_facts H i n' g -> currentTerm n <= currentTerm n' ->
  (role n' <> Follower -> role n' = role n /\ currentTerm n' = currentTerm n) ->
  (forall x, x ∈ held i n' -> x ∈ hist (h_core H) \/
     exists c gc, x = (i, currentTerm n', c) /\ (currentTerm n', c, gc) ∈ h_cand H /\
       forall y, y ∈ early_vote H i (currentTerm n') c -> y ∈ early) ->
  (forall v T c, (v, T, c) ∈ early -> (v, T, c) ∈ held i n' /\ vote_ok H i T c) ->
  (forall m, m ∈ ms -> (exists from to T r, m = MVoteReply from to T r /\ PVoteReply from to T r ∈ pkts)) ->
  advances w H (update w i n' ms).
Proof using Hid Hpeers.
  intros HW Hi Hg HI HF HT Hr Hvote Hearly Hmail.
  set (H' := MkHistory (observe (h_core H) i n' pkts) (<[i := g]> (h_log H)) (h_lead H) (h_elect H) (h_cand H)
    (h_ack H) (early ++ h_early H)).
  assert (ext H H') as HX by (split; cbn; eauto; intros; by (repeat (apply elem_of_app; right))).
  exists H'. split; [|done]. eapply WInv_update with (n := n) (g := g) (g' := g); try done; auto.
  - eapply (node_facts_ext _ H); [exact HX|done|exact HF].
  - intros Hc _. destruct (Hr ltac:(congruence)). congruence.
  - intros Hl. destruct (Hr ltac:(congruence)) as [Er Et].
    pose proof (LF_log _ _ _ _ (F_lead _ _ _ _ _ HF Hl)) as Hlg. rewrite Et in Hlg |- *.
    destruct (elected_with _ _ _ _ _ HW Hi Hlg ltac:(congruence)) as (e & He & Hp & Hc & Q & HQ & Hv). exists e.
    split_and!; try done. exists Q. split; [done|]. intros v Hin. by apply (X_early _ _ HX), Hv.
  - intros T k h _ _ _ Hk. by eapply kept_later.
  - intros c -> Hne. destruct (Hvote (i, currentTerm n', votedFor n')) as [Hh|(c & gc & [= ->] & Hc & _)];
      [by apply elem_of_held|by left|right; by exists gc].
  - intros v T c [He|He]%elem_of_app; [right|by left]. by apply Hearly.
  - intros v T c Hh. destruct (Hvote _ Hh) as [?|(c' & gc & [= -> -> ->] & _ & Hy)]; [by left|right].
    destruct (h_elect H !! currentTerm n') eqn:E; [left; by eexists|right]. apply elem_of_app. left. apply Hy.
    by apply elem_of_early.
  - intros m Hm. destruct (Hmail m Hm) as (a & b & T & r & -> & Hin). cbn. apply elem_of_app. by left.
Qed.

Lemma step_vote w H from i args n f n' reply :
  WInv w H -> MVote from i args ∈ w_mail w -> w_nodes w !! i = Some n -> HandleRequestVote n f args = (n', reply) ->
  advances w H (update w i n' [MVoteReply i from (rv_Term args) reply]).
Proof using Hid Hpeers.
  intros HW Hin Hi E. destruct (W_node _ _ _ _ HW _ _ Hi) as (g & Hg & HF).
  destruct (W_mail _ _ _ _ HW _ Hin) as (Hnet & gc & Hcand & Hli & Hlt).
  pose proof (W_core _ _ _ _ HW) as HI. destruct (I_request _ _ _ HI _ _ _ Hnet) as [Hcid _].
  pose proof Hi as Hi'. rewrite <- (W_nodes _ _ _ _ HW) in Hi'.
  assert (Inv members cfg_of (observe (h_core H) i n' [PVoteReply i from (rv_Term args) reply])) as HI' by (by eapply Inv_vote).
  pose proof (node_inv_HandleRequestVote n f args (F_inv _ _ _ _ _ HF)) as Hinv. rewrite E in Hinv. cbn [fst] in Hinv.
  assert (forall m, m ∈ [MVoteReply i from (rv_Term args) reply] -> exists a b T r,
    m = MVoteReply a b T r /\ PVoteReply a b T r ∈ [PVoteReply i from (rv_Term args) reply]) as Hmail.
  { intros m ->%list_elem_of_singleton. exists i, from, (rv_Term args), reply. split; [done|]. by apply list_elem_of_singleton. }
  assert (forall m, n' = m -> quiet n m -> node_facts H i m g ->
    advances w H (update w i n' [MVoteReply i from (rv_Term args) reply])) as Hdeny.
  { intros m -> Hq HFm. eapply WInv_vote with (early := []); eauto using quiet_term, quiet_role.
    - intros x Hx. left. by eapply quiet_held.
    - by intros * ?%not_elem_of_nil. }
  unfold HandleRequestVote in E.
  destruct (if rv_Term args >? currentTerm n then _ else _) as [n1|] eqn:Ep.
  2: { injection E as <- <-. by apply (Hdeny n); [|apply quiet_refl|]. }
  apply (facts_prologue _ _ _ _ _ _ _ HF) in Ep as (HF1 & Hq & Hle & Hn1).
  destruct (_ <? _) eqn:Elt; [injection E as <- <-; by apply (Hdeny n1)|].
  destruct (negb _ || negb _) eqn:Eck; [injection E as <- <-; by apply (Hdeny n1)|].
  destruct (persistLocked _ _) as [n2|] eqn:Es; [|injection E as <- <-; by apply (Hdeny n1)].
  injection E as <- <-. unfold persistLocked in Es. destruct (fail_state f); [done|]. injection Es as <-. zbool.
  assert (currentTerm n1 = rv_Term args) as Ht1 by lia. set (n3 := resetElectionTimerLocked _ _) in *.
  assert (node_facts H i n3 g) as HF3 by (by eapply facts_store; [exact HF1|exact Hinv|try apply HF1..]).
  eapply WInv_vote with (early := early_vote H i (currentTerm n3) from); eauto.
  - apply (quiet_role _ _ Hq).
  - intros x [_ ->]%elem_of_held. right. exists from, gc. cbn [n3]. change (currentTerm n3) with (currentTerm n1).
    rewrite Ht1. change (votedFor n3) with (rv_CandidateID args). rewrite Hcid. split; [done|]. by split.
  - intros v T c [Hno [= -> -> ->]]%elem_of_early. change (currentTerm n3) with (currentTerm n1) in *. rewrite Ht1 in *. split.
    + apply elem_of_held. change (votedFor n3) with (rv_CandidateID args). change (currentTerm n3) with (currentTerm n1).
      rewrite Hcid, Ht1. split; [|done]. destruct (I_request _ _ _ HI _ _ _ Hnet) as [_ Hm]. by apply Hid.
    + eapply (grant_ok w H i n (log n1)); [exact HW|exact Hi|exact Hg|apply HF1|exact Hcand|exact Hno|lia|].
      exists (rv_LastLogTerm args). split; [done|]. by rewrite <- Hli.
Qed.

Lemma const_map_lookup (ps : list bytes) (x : Z) p :
  p ∈ ps -> (list_to_map ((fun q => (q, x)) <$> ps) : gmap bytes Z) !! p = Some x.
Proof using Type.
  induction ps as [|q ps IH]; [by intros ?%not_elem_of_nil|]. cbn. intros Hin.
  destruct (decide (q = p)) as [->|Hne]; [apply lookup_insert_eq|]. rewrite lookup_insert_ne by done. apply IH.
  apply elem_of_cons in Hin as [->|?]; done.
Qed.

Lemma facts_leader H H' i n g n' rpcs :
  i ∈ members -> cfg n = cfg_of i -> node_facts H i n g -> ext H H' -> h_lead H' !! currentTerm n = Some g ->
  (i, currentTerm n, length g) ∈ h_ack H' -> becomeLeaderLocked n = (n', rpcs) ->
  node_facts H' i n' g /\ forall m, m ∈ posted i <$> rpcs -> msg_ok H' m.
Proof using Hpeers.
  intros Him Hc [F1 F2 F3 F4 F5 F6 F7 F8] HX Hl Ha E. unfold becomeLeaderLocked in E.
  set (n1 := set_heartbeat _ _) in E. apply (broadcast_ok H' i n1 g n' rpcs); try done.
  pose proof (LastIndex_bound _ (rep_wf _ _ F2)). pose proof (rep_length _ _ F2) as HL.
  split; try done.
  - frame_of F1.
  - by eapply lm_ext.
  - by eapply decided_ext.
  - intros s Hs. destruct (F6 s Hs). split; [done|]. by eapply decided_ext.
  - intros _. split; [done|done| |].
    + intros p Hp. unfold next_of, n1. cbn [nextIndex set_heartbeat set_progress].
      change (peers (set_role _ _ _ _)) with (peers n). rewrite const_map_lookup by done. cbn [default log set_role].
      rewrite u64_small by (unfold is_u64; lia). cbn. lia.
    + intros p Hp. unfold match_of, n1. cbn [matchIndex set_heartbeat set_progress].
      change (peers (set_role _ _ _ _)) with (peers n). rewrite const_map_lookup by done. cbn. lia.
Qed.

(** A candidate with a majority: its term had no leader so far. *)
Lemma win_fresh w H i n Q :
  WInv w H -> w_nodes w !! i = Some n -> role n = Candidate -> quorum members Q ->
  (forall v, v ∈ Q -> (v, currentTerm n, i) ∈ hist (h_core H)) ->
  h_elect H !! currentTerm n = None /\ h_lead H !! currentTerm n = None.
Proof using Type.
  intros HW Hi Hr HQ Hv. pose proof (W_core _ _ _ _ HW) as HI.
  assert (h_elect H !! currentTerm n = None) as Hno.
  { destruct (h_elect H !! currentTerm n) as [e|] eqn:Ee; [exfalso|done].
    destruct (W_elect _ _ _ _ HW _ _ Ee) as (_ & j & Hj & _).
    destruct (W_leaders _ _ _ _ HW _ _ Hj) as [_ Hroles].
    assert (j = i) as ->.
    { destruct (I_elected _ _ _ HI _ _ Hj) as (Q' & HQ' & V'). destruct (quorums_meet members _ _ HQ HQ') as (v & H1 & H2).
      eapply (I_once _ _ _ HI); [apply V', H2|apply Hv, H1]. }
    destruct (Hroles n Hi) as [_ Hlt]. specialize (Hlt Hr). lia. }
  split; [done|]. destruct (h_lead H !! currentTerm n) as [h|] eqn:Eh; [|done].
  destruct (W_lead _ _ _ _ HW _ _ Eh) as (_ & _ & _ & e & He & _). congruence.
Qed.

Lemma win_core w H i n m n' rpcs Q :
  WInv w H -> w_nodes w !! i = Some n -> same_votes n m -> becomeLeaderLocked m = (n', rpcs) -> quorum members Q ->
  (forall v, v ∈ Q -> (v, currentTerm n, i) ∈ hist (h_core H)) ->
  Inv members cfg_of (observe (h_core H) i n' []) /\ same_votes n n' /\ role n' = Leader.
Proof using Hid Hpeers.
  intros HW Hi (Mc & Mt & Mv & Md) E HQ Hv. destruct (becomeLeader_effect m) as [(Sc & St & Sv & Sd) Hl].
  rewrite E in *. cbn [fst] in *. rewrite Mt in St. rewrite Mv in Sv. rewrite Md in Sd. rewrite Mc in Sc.
  split; [|by split]. pose proof (W_core _ _ _ _ HW) as HI. rewrite <- (W_nodes _ _ _ _ HW) in Hi.
  destruct (I_node _ _ _ HI _ _ Hi) as (_ & _ & Hk & _). eapply Inv_observe with (n := n); eauto.
  - unfold consistent in *. by rewrite Sd, St, Sv.
  - by intros * ?%not_elem_of_nil.
  - by intros * ?%not_elem_of_nil.
  - congruence.
  - intros _. right. exists Q. split; [done|]. intros v Hin. rewrite St. apply elem_of_app. right. by apply Hv.
Qed.

Definition elected (H : history) (i : bytes) (n' : Node) (g : glog) : history :=
  MkHistory (observe (h_core H) i n' []) (<[i := g]> (h_log H)) (<[currentTerm n' := g]> (h_lead H))
    (<[currentTerm n' := g]> (h_elect H)) (h_cand H) ((i, currentTerm n', length g) :: h_ack H) (h_early H).

Lemma ext_elected H i n' g :
  h_elect H !! currentTerm n' = None -> h_lead H !! currentTerm n' = None -> ext H (elected H i n' g).
Proof using Type.
  intros He Hl. split; cbn; try done.
  - intros T h Hh. exists h. by rewrite lookup_insert_ne by congruence.
  - intros T e Hx. by rewrite lookup_insert_ne by congruence.
  - intros x Hx. by apply elem_of_cons; right.
  - intros x Hx. apply elem_of_app. by right.
  - intros x Hx. apply elem_of_app. by right.
Qed.

Lemma step_win w H i n V Q n' rpcs :
  WInv w H -> w_nodes w !! i = Some n -> role n = Candidate -> quorum members Q ->
  (forall v, v ∈ Q -> (v, currentTerm n, i) ∈ hist (h_core H)) ->
  becomeLeaderLocked (set_role n Candidate (leaderID n) V) = (n', rpcs) ->
  advances w H (update w i n' (posted i <$> rpcs)).
Proof using Hid Hpeers.
  intros HW Hi Hr HQ Hv E. destruct (W_node _ _ _ _ HW _ _ Hi) as (g & Hg & HF).
  destruct (member_cfg _ _ _ _ HW Hi) as (Him & Hc & _). destruct (win_fresh _ _ _ _ _ HW Hi Hr HQ Hv) as [Hno Hnl].
  destruct (win_core _ _ _ _ _ _ _ _ HW Hi ltac:(by split_and!) E HQ Hv) as (HI' & (Sc & St & Sv & Sd) & Hl).
  pose proof (ext_elected H i n' g ltac:(by rewrite St) ltac:(by rewrite St)) as HX.
  set (m := set_role n Candidate (leaderID n) V) in *.
  assert (node_facts H i m g) as HFm.
  { eapply facts_store; [exact HF|frame_of (F_inv _ _ _ _ _ HF)|try apply HF..]; done. }
  destruct (facts_leader H (elected H i n' g) i m g n' rpcs Him Hc HFm HX) as [HF' Hmail]; cbn [elected h_lead h_ack];
    rewrite ?St; [apply lookup_insert_eq|apply elem_of_cons; by left|done|].
  exists (elected H i n' g). split; [|done].
  eapply WInv_update with (n := n) (g := g) (g' := g); try done; auto; cbn [elected h_lead h_elect h_cand h_ack h_early]; rewrite ?St.
  - lia.
  - intros T HT. assert (T <> currentTerm n) by (by apply HT). by rewrite !lookup_insert_ne by done.
  - intros _. exists g. split; [apply lookup_insert_eq|]. split; [done|]. split; [by apply (F_cand _ _ _ _ _ HF)|].
    exists Q. split; [done|]. intros v Hin. by apply (W_late _ _ _ _ HW); [apply Hv|].
  - intros v T k [[= -> -> ->]|Ha]%elem_of_cons; [right|by left]. split; [done|]. split; [done|]. exists g.
    split; [apply lookup_insert_eq|done].
  - done.
  - intros c -> Hne. left. rewrite Sv in Hne |- *. rewrite <- (W_nodes _ _ _ _ HW) in Hi.
    by apply (I_vote _ _ _ (W_core _ _ _ _ HW)).
  - intros v T c [Hne [= -> -> ->]]%elem_of_held. left. rewrite Sv in Hne |- *. rewrite St, <- (W_nodes _ _ _ _ HW) in *.
    by apply (I_vote _ _ _ (W_core _ _ _ _ HW)).
Qed.

(** A node stands for election. *)
Lemma step_candidate w H i n n2 ps :
  let args := MkRVA (currentTerm n2) i (LastIndex (log n2)) (LastTerm (log n2)) in
  WInv w H -> w_nodes w !! i = Some n -> cfg n2 = cfg n -> currentTerm n2 = currentTerm n + 1 -> votedFor n2 = i ->
  consistent n2 -> role n2 = Candidate -> votesReceived n2 = Some {[i]} -> node_inv n2 -> log n2 = log n ->
  commitIndex n2 = commitIndex n -> disk_snapshot (persister n2) = disk_snapshot (persister n) ->
  advances w H (update w i n2 ((fun p => MVote i p args) <$> ps)).
Proof using Hid Hpeers.
  intros args HW Hi Ec Et Ev Hk Hr HV Hinv El Ecm Es. destruct (W_node _ _ _ _ HW _ _ Hi) as (g & Hg & HF).
  destruct (member_cfg _ _ _ _ HW Hi) as (Him & Hc & Hidn & Hne).
  set (pkts := (fun p => PVote i p args) <$> ps).
  set (H' := MkHistory (observe (h_core H) i n2 pkts) (<[i := g]> (h_log H)) (h_lead H) (h_elect H)
    ((currentTerm n2, i, g) :: h_cand H) (h_ack H) (early_vote H i (currentTerm n2) i ++ h_early H)).
  assert (ext H H') as HX.
  { split; cbn; eauto; intros; first [by apply elem_of_cons; right|by (repeat (apply elem_of_app; right))]. }
  assert (held i n2 = [(i, currentTerm n2, i)]) as Eheld.
  { unfold held. rewrite Ev. by case_bool_decide. }
  assert (Inv members cfg_of (observe (h_core H) i n2 pkts)) as HI'.
  { eapply Inv_observe with (n := n); eauto; [apply (W_core _ _ _ _ HW)|by rewrite (W_nodes _ _ _ _ HW)|left; lia|..].
    - by intros from to a (p & [= -> -> ->] & _)%list_elem_of_fmap.
    - by intros from to T r (p & ? & _)%list_elem_of_fmap.
    - intros _. exists {[i]}. split; [done|]. intros v ->%elem_of_singleton. rewrite Eheld. by left.
    - congruence. }
  assert (node_facts H' i n2 g) as HF'.
  { eapply (facts_raise H' i n n2); try done; [|lia|by left|congruence].
    eapply (node_facts_ext _ H); [exact HX|done|exact HF]. }
  exists H'. split; [|done]. eapply WInv_update with (n := n) (g := g) (g' := g); try done; auto.
  - lia.
  - lia.
  - congruence.
  - intros T c gc [[= -> -> ->]|Hin]%elem_of_cons; [right|by left]. split_and!; done || lia.
  - intros T k h _ _ _ Hkp. eapply kept_later; [exact Hkp|lia].
  - intros c -> _. right. exists g. rewrite Ev. by left.
  - intros v T c [[_ [= -> -> ->]]%elem_of_early|Hin]%elem_of_app; [right|by left]. rewrite Eheld.
    split; [by apply list_elem_of_singleton|].
    intros T k' gc h k Ha HT Hcd Hh Hkk _ Hall. apply elem_of_cons in Hcd as [[= ->]|Hcd].
    + destruct (W_ack _ _ _ _ HW _ _ _ Ha) as (n0 & g0 & h0 & Hn0 & Hg0 & Hh0 & _ & _ & Hkp).
      rewrite Hi in Hn0. injection Hn0 as <-. rewrite Hg in Hg0. injection Hg0 as <-.
      change (h_lead H !! T = Some h) in Hh. rewrite Hh in Hh0. injection Hh0 as <-. apply Hkp; [done|].
      intros T'' e HT''. apply Hall. lia.
    + exfalso. eapply (cand_fresh members cfg_of w H i n); eauto. lia.
  - intros v T c Hin. rewrite Eheld in Hin. apply list_elem_of_singleton in Hin as [= -> -> ->]. right. cbn [h_elect h_early].
    destruct (h_elect H !! currentTerm n2) eqn:E; [left; by eexists|right]. apply elem_of_app. left. by apply elem_of_early.
  - intros m (p & -> & Hp)%list_elem_of_fmap. cbn [RaftSafety.msg_ok]. split.
    + cbn. apply elem_of_app. left. apply list_elem_of_fmap. by exists p.
    + exists g. split; [by left|]. cbn [rv_LastLogIndex rv_LastLogTerm args]. rewrite El.
      split; [apply rep_length, HF|apply rep_LastTerm, HF].
Qed.

(** ** Ticks and vote replies *)

Lemma ext_trans H1 H2 H3 : ext H1 H2 -> ext H2 H3 -> ext H1 H3.
Proof using Type.
  intros [A1 A2 A3 A4 A5 A6 A7 A8] [B1 B2 B3 B4 B5 B6 B7 B8]. split; eauto.
  intros T h Hh. destruct (A1 T h Hh) as (h' & Hh' & ?). destruct (B1 T h' Hh') as (h'' & ? & ?).
  exists h''. split; [done|]. by etrans.
Qed.

(** Two steps of one node are one. *)
Lemma advances_again w H i n n' ms :
  advances w H (update w i n []) ->
  (forall H1, WInv (update w i n []) H1 -> advances (update w i n []) H1 (update (update w i n []) i n' ms)) ->
  advances w H (update w i n' ms).
Proof using Type.
  intros (H1 & HW1 & HX1) Hnext. destruct (Hnext H1 HW1) as (H2 & HW2 & HX2). exists H2.
  unfold update in HW2. cbn in HW2. rewrite insert_insert_eq in HW2. split; [done|by eapply ext_trans].
Qed.

Lemma step_election w H i n n1 f n' rpcs :
  WInv w H -> w_nodes w !! i = Some n -> currentTerm n + 1 < 2 ^ 64 -> n1 = set_election n (electionElapsed n + 1) (electionTimeout n) ->
  startElectionLocked n1 f = (n', rpcs) -> advances w H (update w i n' (posted i <$> rpcs)).
Proof using Hid Hpeers.
  intros HW Hi Hb -> E. destruct (W_node _ _ _ _ HW _ _ Hi) as (g & Hg & HF).
  destruct (member_cfg _ _ _ _ HW Hi) as (Him & Hc & Hidn & Hne).
  pose proof Hi as Hi'. rewrite <- (W_nodes _ _ _ _ HW) in Hi'.
  destruct (I_node _ _ _ (W_core _ _ _ _ HW) _ _ Hi') as (_ & _ & _ & H0).
  set (n1 := set_election _ _ _) in *. assert (node_facts H i n1 g) as HF1.
  { eapply facts_frame; [exact HF|frame_of (F_inv _ _ _ _ _ HF)|by apply quiet_same|by split]. }
  unfold startElectionLocked in E. destruct (persistLocked _ _) as [n2|] eqn:Ep.
  2: { injection E as <- <-. eapply step_alone; eauto. by apply quiet_same. }
  assert (node_inv n2) as Hinv.
  { eapply node_inv_persist; [exact (F_inv _ _ _ _ _ HF1)|exact Ep|..]; try done. apply (N_log _ (F_inv _ _ _ _ _ HF1)). }
  unfold persistLocked in Ep. destruct (fail_state f); [done|]. injection Ep as <-.
  set (n3 := resetElectionTimerLocked _ _) in E.
  assert (currentTerm n3 = currentTerm n + 1 /\ votedFor n3 = i /\ votesReceived n3 = Some {[i]} /\ id n3 = i) as (Ht & Hv & HV & Hid3).
  { unfold n3. cbn. change (id _) with (id n). rewrite Hidn, u64_small by (unfold is_u64; lia). done. }
  assert (forall ps, advances w H (update w i n3
    ((fun p => MVote i p (MkRVA (currentTerm n3) i (LastIndex (log n3)) (LastTerm (log n3)))) <$> ps))) as Hstand.
  { intros ps. eapply step_candidate with (n := n); try done; frame_of Hinv. }
  destruct (_ >=? _) eqn:Em; zbool.
  - eapply advances_again; [exact (Hstand [])|]. intros H1 HW1.
    assert (w_nodes (update w i n3 []) !! i = Some n3) as Hi3 by apply lookup_insert_eq.
    eapply (step_win _ H1 i n3 (votesReceived n3) {[i]}); try done.
    + split; [by apply singleton_subseteq_l|]. rewrite size_singleton.
      rewrite <- (majority_members members cfg_of Hpeers i n3 Him Hc). lia.
    + intros v ->%elem_of_singleton. rewrite <- (W_nodes _ _ _ _ HW1) in Hi3.
      pose proof (I_vote _ _ _ (W_core _ _ _ _ HW1) _ _ Hi3) as Hh. rewrite Hv in Hh. by apply Hh.
  - injection E as <- <-. rewrite <- list_fmap_compose. rewrite Hid3. apply Hstand.
Qed.

Lemma step_tick w H i n f n' rpcs :
  WInv w H -> w_nodes w !! i = Some n -> currentTerm n + 1 < 2 ^ 64 -> Tick n f = (n', rpcs) ->
  advances w H (update w i n' (posted i <$> rpcs)).
Proof using Hid Hpeers.
  intros HW Hi Hb E. destruct (W_node _ _ _ _ HW _ _ Hi) as (g & Hg & HF).
  destruct (member_cfg _ _ _ _ HW Hi) as (Him & Hc & _).
  assert (forall m, m = set_election n (electionElapsed n + 1) (electionTimeout n) \/ m = set_heartbeat n (heartbeatElapsed n + 1) \/
    m = set_heartbeat n 0 -> node_facts H i m g /\ quiet n m) as Hclock.
  { intros m [->|[->| ->]]; (split; [|by apply quiet_same]);
      (eapply facts_frame; [exact HF|frame_of (F_inv _ _ _ _ _ HF)|by apply quiet_same|by split]). }
  unfold Tick in E. destruct (role n) eqn:Er.
  1,2: destruct (_ >=? _); [by eapply step_election|]; injection E as <- <-;
    eapply step_alone; eauto; apply Hclock; auto.
  destruct (_ >=? _).
  - change (set_heartbeat (set_heartbeat n (heartbeatElapsed n + 1)) 0) with (set_heartbeat n 0) in E.
    destruct (broadcast_ok H i (set_heartbeat n 0) g n' rpcs) as [HF' Hmail]; try done; [apply Hclock; auto|].
    eapply WInv_same; eauto. injection E as <- <-. eapply quiet_trans; [|apply quiet_advance]. by apply quiet_same.
  - injection E as <- <-. eapply step_alone; eauto; apply Hclock; auto.
Qed.

(** The votes a candidate has counted, with one more. *)
Lemma votes_in w H i n V from reply :
  WInv w H -> w_nodes w !! i = Some n -> role n = Candidate -> votesReceived n = Some V ->
  PVoteReply from i (currentTerm n) reply ∈ net (h_core H) -> rvr_VoteGranted reply = true ->
  V ∪ {[from]} ⊆ members /\ forall v, v ∈ V ∪ {[from]} -> (v, currentTerm n, i) ∈ hist (h_core H).
Proof using Type.
  intros HW Hi Hr HV Hin Hgr. pose proof (W_core _ _ _ _ HW) as HI. rewrite <- (W_nodes _ _ _ _ HW) in Hi.
  destruct (I_candidate _ _ _ HI _ _ Hi Hr) as (V' & HV' & Hall). assert (V' = V) as -> by congruence.
  assert (forall v, v ∈ V ∪ {[from]} -> (v, currentTerm n, i) ∈ hist (h_core H)) as Hv.
  { intros v [Hv| ->%elem_of_singleton]%elem_of_union; [by apply Hall|]. by apply (I_reply _ _ _ HI _ _ _ _ Hin). }
  split; [|done]. intros v Hin'. destruct (I_member _ _ _ HI _ _ _ (Hv v Hin')) as [[m Hm] _].
  by destruct (I_node _ _ _ HI _ _ Hm).
Qed.

Lemma step_vote_reply w H from i term reply n f n' rpcs :
  WInv w H -> MVoteReply from i term reply ∈ w_mail w -> w_nodes w !! i = Some n ->
  onRequestVoteReply n f from term reply = Some (n', rpcs) -> advances w H (update w i n' (posted i <$> rpcs)).
Proof using Hid Hpeers.
  intros HW Hin Hi E. destruct (W_node _ _ _ _ HW _ _ Hi) as (g & Hg & HF).
  destruct (member_cfg _ _ _ _ HW Hi) as (Him & Hc & _).
  apply (W_mail _ _ _ _ HW) in Hin as Hnet. cbn in Hnet. pose proof Hi as Hi'. rewrite <- (W_nodes _ _ _ _ HW) in Hi'.
  pose proof (Inv_vote_reply members cfg_of Hid Hpeers _ _ _ _ _ _ _ _ _ (W_core _ _ _ _ HW) Hnet Hi' E) as HI'.
  unfold onRequestVoteReply in E. destruct (_ >? _) eqn:Egt; zbool.
  { injection E as <- <-. eapply step_alone; eauto using facts_default, quiet_default. }
  destruct (negb _ || negb _) eqn:Eck; [injection E as <- <-; eapply step_alone; eauto using quiet_refl|].
  zbool. destruct (rvr_VoteGranted reply) eqn:Egr; cbn [negb] in E;
    [|injection E as <- <-; eapply step_alone; eauto using quiet_refl].
  destruct (votesReceived n) as [V|] eqn:HV; [|done]. subst term.
  destruct (votes_in _ _ _ _ _ _ _ HW Hi ltac:(done) HV Hnet Egr) as [Hsub Hall].
  replace (role n) with Candidate in E by done. set (m := set_role n Candidate (leaderID n) _) in *.
  destruct (_ >=? _) eqn:Em; zbool.
  - assert (becomeLeaderLocked m = (n', rpcs)) as Eb by congruence.
    eapply (step_win w H i n _ (V ∪ {[from]})); eauto. split; [done|].
    rewrite <- (majority_members members cfg_of Hpeers i n Him Hc). exact Em.
  - injection E as <- <-. eapply (WInv_vote w H i n m g [] [] []); eauto; try (by intros * ?%not_elem_of_nil).
    + eapply facts_store; [exact HF|frame_of (F_inv _ _ _ _ _ HF)|try apply HF..]; done.
    + done.
    + intros x [Hne ->]%elem_of_held. left. exact (I_vote _ _ _ (W_core _ _ _ _ HW) i n Hi' Hne).
Qed.

Ltac by_fst E := apply (f_equal fst) in E; cbn [fst] in E; rewrite <- E.

Lemma WInv_wstep w H w' : WInv w H -> wstep w w' -> advances w H w'.
Proof using Hid Hpeers.
  intros HW [w1 [i n f n' rpcs Hi Hb E|from i args n f n' reply Hin Hi E|from i term reply n f n' rpcs Hin Hi E
    |from i args n f n' reply Hin Hi E|from i args reply n f n' b Hin Hi E|from i term snap args n f n' reply Hin Hch Hi Hf E
    |from i term snap final reply n f n' b Hin Hi E|i n f command n' rpcs r Hi Hb E|i n r Hi E|i n f index data n' r Hi Hu E
    |i n index n' r Hi E|i n index n' r Hi E]|i n r n' Hi E].
  - by eapply step_tick.
  - by eapply step_vote.
  - by eapply step_vote_reply.
  - by eapply step_append.
  - by_fst E. by apply step_append_reply.
  - by eapply step_snapshot.
  - by_fst E. by apply step_snapshot_reply.
  - by eapply step_propose.
  - by eapply step_read.
  - by_fst E. by apply step_create_snapshot.
  - by_fst E. by apply step_mark.
  - by_fst E. by apply step_confirm.
  - by eapply step_crash.
Qed.

Lemma WInv_initial w : winitial members cfg_of w -> exists H, WInv w H.
Proof using Hid.
  intros [Hm Hn].
  exists (MkHistory (MkCluster (w_nodes w) [] [] []) ((fun _ => []) <$> w_nodes w) ∅ ∅ [] [] []).
  split; cbn; try (by intros * ?%not_elem_of_nil); try (by intros * ?); try done.
  - apply Inv_initial. by split_and!.
  - intros i n Hi. exists []. rewrite lookup_fmap, Hi. split; [done|].
    destruct (Hn i n Hi) as (_ & r & E). pose proof (node_inv_new _ _ _ E). injection E as <-.
    split; try done; [apply rep_new|intros [|j] t; [lia|done]| |by left].
    intros j t. destruct j as [|j]; [|done]. cbn. intros [= <-]. cbn. lia.
  - rewrite Hm. by intros m ?%not_elem_of_nil.
Qed.

(** ** Runs *)

Inductive wreachable : world -> Prop :=
| wr_init w : winitial members cfg_of w -> wreachable w
| wr_step w w' : wreachable w -> wstep w w' -> wreachable w'.

Lemma wreachable_inv w : wreachable w -> exists H, WInv w H.
Proof using Hid Hpeers.
  induction 1 as [w Hw|w w' _ (H & HW) Hs]; [by apply WInv_initial|].
  destruct (WInv_wstep _ _ _ HW Hs) as (H' & HW' & _). by exists H'.
Qed.

Lemma WInv_run w H w' : WInv w H -> rtc wstep w w' -> advances w H w'.
Proof using Hid Hpeers.
  intros HW Hr. revert H HW. induction Hr as [w|w w1 w' Hs Hr IH]; intros H HW; [exists H; split; [done|apply ext_refl]|].
  destruct (WInv_wstep _ _ _ HW Hs) as (H1 & HW1 & HX1). destruct (IH H1 HW1) as (H2 & HW2 & HX2).
  exists H2. split; [done|by eapply ext_trans].
Qed.

Lemma facts_EntryAt H i n g k :
  node_facts H i n g -> base (log n) < k -> (Z.to_nat k <= length g)%nat ->
  exists e, EntryAt (log n) k = Some e /\ e_Index e = k /\ g !! (Z.to_nat k - 1)%nat = Some (ghost e).
Proof using Type.
  intros HF Hb Hk. pose proof (F_rep _ _ _ _ _ HF) as Hr. pose proof (rep_wf _ _ Hr) as Hw.
  pose proof (rep_length _ _ Hr) as HL. pose proof (LastIndex_bound _ Hw). pose proof (wf_base _ Hw).
  destruct (Range_spec (log n) k k Hw Hb ltac:(lia) ltac:(lia)) as (Hlen & Hel & Hnum).
  specialize (Hel 0 ltac:(lia)). rewrite Z.add_0_r in Hel.
  destruct (EntryAt (log n) k) as [e|] eqn:Ee.
  - exists e. split; [done|]. split; [rewrite (Hnum _ _ Hel); lia|]. apply (rep_EntryAt _ _ Hr); [done|lia].
  - apply lookup_ge_None in Hel. lia.
Qed.

(** The entry a node shows at an index is the one in its whole log. *)
Lemma entry_of H i n g k e :
  node_facts H i n g -> EntryAt (log n) k = Some e -> 0 < k < 2 ^ 64 ->
  base (log n) < k /\ (Z.to_nat k <= length g)%nat /\ e_Index e = k /\ g !! (Z.to_nat k - 1)%nat = Some (ghost e).
Proof using Type.
  intros HF He Hk. assert (base (log n) < k) as Hb.
  { unfold EntryAt in He. destruct (k <=? base (log n)) eqn:E; [done|]. by zbool. }
  pose proof (rep_EntryAt _ _ (F_rep _ _ _ _ _ HF) _ _ He Hk) as Hg. pose proof (lookup_lt_Some _ _ _ Hg).
  destruct (facts_EntryAt _ _ _ _ k HF Hb ltac:(lia)) as (e' & He' & Hi & _). rewrite He in He'. injection He' as <-.
  split_and!; [done|lia|done|done].
Qed.

Lemma ghost_inj e e' : ghost e = ghost e' -> e_Index e = e_Index e' -> e = e'.
Proof using Type. destruct e, e'. unfold ghost. cbn. intros [= -> ->] ->. done. Qed.

(** Nodes whose whole logs agree up to an index show the same entry there. *)
Lemma entries_agree H H' i n g j n' g' k e e' :
  node_facts H i n g -> node_facts H' j n' g' -> take (Z.to_nat k) g = take (Z.to_nat k) g' -> 0 < k < 2 ^ 64 ->
  EntryAt (log n) k = Some e -> EntryAt (log n') k = Some e' -> e = e'.
Proof using Type.
  intros HF HF' E Hk He He'. destruct (entry_of _ _ _ _ _ _ HF He Hk) as (_ & _ & Hi & Hg).
  destruct (entry_of _ _ _ _ _ _ HF' He' Hk) as (_ & _ & Hi' & Hg'). apply ghost_inj; [|congruence].
  rewrite <- (lookup_take_lt g (Z.to_nat k)), E, lookup_take_lt in Hg by lia. congruence.
Qed.

(** ** One log that only grows *)

(** What a node shows of the cluster's log: the entries it has committed and
    still holds, and the boundary of its snapshot. *)
Definition shows (n : Node) (C : glog) : Prop :=
  0 <= commitIndex n <= Z.of_nat (length C) /\
  (forall k, base (log n) < k <= commitIndex n -> exists e, EntryAt (log n) k = Some e /\
     e_Index e = k /\ C !! (Z.to_nat k - 1)%nat = Some (e_Term e, e_Command e)) /\
  (forall s, disk_snapshot (persister n) = Some s ->
     LastIncludedIndex s <= Z.of_nat (length C) /\ gterm C (Z.to_nat (LastIncludedIndex s)) = Some (LastIncludedTerm s)).

(** [C] is settled, and no node has committed, or compacted, more. *)
Definition covers (C : glog) (n : Node) : Prop :=
  commitIndex n <= Z.of_nat (length C) /\
  forall s, disk_snapshot (persister n) = Some s -> LastIncludedIndex s <= Z.of_nat (length C).

Definition cluster_log (w : world) (C : glog) : Prop :=
  exists H T, WInv w H /\ decided H C (length C) T /\ forall i n, w_nodes w !! i = Some n -> covers C n.

Lemma covers_shows w H C T i n :
  WInv w H -> decided H C (length C) T -> w_nodes w !! i = Some n -> covers C n -> shows n C.
Proof using Hid Hpeers.
  intros HW Hd Hi [Hc Hs]. destruct (W_node _ _ _ _ HW _ _ Hi) as (g & Hg & HF).
  pose proof (N_applied _ (F_inv _ _ _ _ _ HF)).
  assert (forall m, (m <= length C)%nat -> decided H g m (currentTerm n) -> take m g = take m C) as Hag.
  { intros m Hm Hdm. by eapply (decided_agree members cfg_of Hid Hpeers w H). }
  pose proof (Hag (Z.to_nat (commitIndex n)) ltac:(lia) (F_commit _ _ _ _ _ HF)) as Ec. split; [lia|]. split.
  - intros k Hk. pose proof (wf_base _ (rep_wf _ _ (F_rep _ _ _ _ _ HF))).
    pose proof (decided_length _ _ _ _ _ (F_commit _ _ _ _ _ HF)).
    destruct (facts_EntryAt _ _ _ _ k HF ltac:(lia) ltac:(lia)) as (e & He & Hx & Hge). exists e. split; [done|]. split; [done|].
    change (e_Term e, e_Command e) with (ghost e). rewrite <- Hge.
    rewrite <- (lookup_take_lt C (Z.to_nat (commitIndex n))), <- Ec, lookup_take_lt by lia. done.
  - intros s Hsd. destruct (F_snap _ _ _ _ _ HF s Hsd) as [Ht Hds]. specialize (Hs s Hsd). split; [done|].
    rewrite <- Ht. symmetry. eapply gterm_agree; [|done]. apply Hag; [lia|done].
Qed.

Lemma settle_more w H C T g m T' :
  WInv w H -> decided H C (length C) T -> decided H g m T' ->
  exists C' T'', C `prefix_of` C' /\ decided H C' (length C') T'' /\ (m <= length C')%nat.
Proof using Hid Hpeers.
  intros HW HC Hg. destruct (Nat.le_gt_cases m (length C)) as [Hle|Hgt]; [by exists C, T|].
  pose proof (decided_length _ _ _ _ _ Hg) as Hm.
  pose proof (decided_agree members cfg_of Hid Hpeers w H _ _ _ _ _ _ (length C) HW HC Hg ltac:(lia) ltac:(lia)) as E.
  exists (take m g), T'. rewrite length_take, Nat.min_l by done. split; [|split; [|lia]].
  - rewrite firstn_all in E. rewrite E, <- (Nat.min_l (length C) m), <- take_take by lia. apply prefix_take.
  - destruct Hg as [->|(T0 & k & h & HT & Hch & Hh & Hk & Et)]; [by left|right]. exists T0, k, h.
    split_and!; try done. by rewrite take_take, Nat.min_id.
Qed.

Lemma settle_nodes w H C T (ns : list (bytes * Node)) :
  WInv w H -> decided H C (length C) T -> (forall i n, (i, n) ∈ ns -> w_nodes w !! i = Some n) ->
  exists C' T', C `prefix_of` C' /\ decided H C' (length C') T' /\ forall i n, (i, n) ∈ ns -> covers C' n.
Proof using Hid Hpeers.
  intros HW. revert C T. induction ns as [|[i n] ns IH]; intros C T HC Hns.
  { exists C, T. split_and!; [done..|by intros * ?%not_elem_of_nil]. }
  destruct (W_node _ _ _ _ HW i n) as (g & Hg & HF); [apply Hns; by left|].
  destruct (settle_more _ _ _ _ _ _ _ HW HC (F_commit _ _ _ _ _ HF)) as (C1 & T1 & P1 & D1 & L1).
  assert (exists C2 T2, C1 `prefix_of` C2 /\ decided H C2 (length C2) T2 /\
    forall s, disk_snapshot (persister n) = Some s -> LastIncludedIndex s <= Z.of_nat (length C2)) as (C2 & T2 & P2 & D2 & L2).
  { destruct (disk_snapshot (persister n)) as [s|] eqn:Es; [|by exists C1, T1].
    destruct (settle_more _ _ _ _ _ _ _ HW D1 (proj2 (F_snap _ _ _ _ _ HF s Es))) as (C2 & T2 & P2 & D2 & L2).
    exists C2, T2. split_and!; [done..|]. intros s' [= <-]. lia. }
  destruct (IH C2 T2 D2) as (C3 & T3 & P3 & D3 & Hall); [intros j m Hj; apply Hns; by right|].
  pose proof (prefix_length _ _ P2). pose proof (prefix_length _ _ P3). pose proof (N_applied _ (F_inv _ _ _ _ _ HF)).
  exists C3, T3. split; [etrans; [exact P1|]; by etrans|]. split; [done|].
  intros j m [[= -> ->]|Hj]%elem_of_cons; [|by eapply Hall]. split; [lia|]. intros s Hs. specialize (L2 s Hs). lia.
Qed.

Lemma cluster_log_grows w C w' :
  cluster_log w C -> wstep w w' -> exists C', C `prefix_of` C' /\ cluster_log w' C'.
Proof using Hid Hpeers.
  intros (H & T & HW & HC & _) Hs. destruct (WInv_wstep _ _ _ HW Hs) as (H' & HW' & HX).
  destruct (settle_nodes w' H' C T (map_to_list (w_nodes w')) HW') as (C' & T' & Hp & HC' & Hall).
  - by eapply decided_ext.
  - intros i n. by rewrite elem_of_map_to_list.
  - exists C'. split; [done|]. exists H', T'. split; [done|]. split; [done|].
    intros i n Hi. eapply Hall. by rewrite elem_of_map_to_list.
Qed.

(** Indices in flight stay below 2^64. *)
Lemma mail_bounds w H : WInv w H ->
  (forall from to args, MAppend from to args ∈ w_mail w -> append_bounded args) /\
  (forall from to term snap, MSnapshot from to term snap ∈ w_mail w -> LastIncludedIndex snap + 1 < 2 ^ 64).
Proof using Type.
  intros HW. split.
  - intros from to args Hin. destruct (W_mail _ _ _ _ HW _ Hin) as (h & Hh & H0 & _ & Hlen & _).
    destruct (W_lead _ _ _ _ HW _ _ Hh) as (_ & _ & Hb & _). split; unfold is_u64, zlen; lia.
  - intros from to term snap Hin. destruct (W_mail _ _ _ _ HW _ Hin) as (h & Hh & H0 & Hg & _).
    destruct (W_lead _ _ _ _ HW _ _ Hh) as (_ & _ & Hb & _). apply gterm_Some in Hg. lia.
Qed.

Lemma cluster_log_initial w : winitial members cfg_of w -> cluster_log w [].
Proof using Hid.
  intros Hw. destruct (WInv_initial w Hw) as (H & HW). exists H, 0. split; [done|]. split; [by left|].
  intros i n Hi. destruct (proj2 Hw i n Hi) as (_ & r & E). injection E as <-. by split.
Qed.
End Steps.
