(* ===== verification/RaftAgreement.v ===== *)
(** * Agreement

    What the invariant of [RaftSafety], kept by every step ([RaftSteps]),
    gives: the cluster refines one log that only grows, committed entries
    never differ, logs match, leaders are complete; and a run of three nodes
    that commits a command. *)

From S2P Require Import Prelude Bytes RaftLog RaftFormat RaftPersist RaftNode RaftElection RaftDurable RaftGhost RaftSafety RaftSteps.
From stdpp Require Import base tactics numbers gmap fin_sets list.
From Stdlib Require Import Strings.Byte.
From Stdlib Require Import ZArith Lia.
#[local] Open Scope Z_scope.

(** ** Theorems *)

(** C1. The cluster refines a log that is only ever appended to: a relation
    between states of the cluster and logs starts at the empty log, every
    step of [wstep] (ticks, client calls, deliveries in any order and any
    number of times, failed saves, crashes and restarts) leaves the log alone
    or appends to it, and at every moment every node shows a prefix of it:
    the entries it has committed are the log's, at the same indices with the
    same terms and commands, and its snapshot ends at an entry of the log.
    One crash window is left out of the runs: an installation whose log save
    fails after its snapshot save succeeded ([torn_install_keeps_conflict]).
    Terms and indices stay below 2^64. *)
Theorem raft_refines_log (members : gset bytes) (cfg_of : bytes -> Config) :
  (forall i, i ∈ members -> c_id (cfg_of i) = i /\ i <> []) ->
  (forall i, i ∈ members ->
     NoDup (i :: c_peers (cfg_of i)) /\ list_to_set (i :: c_peers (cfg_of i)) = members) ->
  exists R : world -> glog -> Prop,
    (forall w, winitial members cfg_of w -> R w []) /\
    (forall w C w', R w C -> wstep w w' -> exists C', C `prefix_of` C' /\ R w' C') /\
    (forall w C i n, R w C -> w_nodes w !! i = Some n -> shows n C).
Proof.
  intros Hid Hpeers. exists (cluster_log members cfg_of). split; [by apply cluster_log_initial|].
  split; [by apply cluster_log_grows|].
  intros w C i n (H & T & HW & HC & Hall) Hi. eapply covers_shows; eauto.
Qed.

(** C4. State machine safety: if a node has committed an entry at an index,
    no node has, then or at any later time of the run, committed another
    entry there. One crash window is left out of the runs: an installation
    whose log save fails after its snapshot save succeeded
    ([torn_install_keeps_conflict]). Terms and indices stay below 2^64. *)
Theorem state_machine_safety (members : gset bytes) (cfg_of : bytes -> Config) w w' i n j n' k e e' :
  (forall i, i ∈ members -> c_id (cfg_of i) = i /\ i <> []) ->
  (forall i, i ∈ members ->
     NoDup (i :: c_peers (cfg_of i)) /\ list_to_set (i :: c_peers (cfg_of i)) = members) ->
  wreachable members cfg_of w -> rtc wstep w w' ->
  w_nodes w !! i = Some n -> w_nodes w' !! j = Some n' -> 0 < k -> k <= commitIndex n -> k <= commitIndex n' ->
  EntryAt (log n) k = Some e -> EntryAt (log n') k = Some e' -> e = e'.
Proof.
  intros Hid Hpeers Hw Hrun Hi Hj H0 Hk Hk' He He'.
  destruct (wreachable_inv members cfg_of Hid Hpeers w Hw) as (H & HW).
  destruct (WInv_run members cfg_of Hid Hpeers w H w' HW Hrun) as (H' & HW' & HX).
  destruct (W_node _ _ _ _ HW _ _ Hi) as (g & _ & HF). destruct (W_node _ _ _ _ HW' _ _ Hj) as (g' & _ & HF').
  pose proof (decided_length _ _ _ _ _ (F_commit _ _ _ _ _ HF)).
  pose proof (LastIndex_bound _ (rep_wf _ _ (F_rep _ _ _ _ _ HF))) as Hb. rewrite (rep_length _ _ (F_rep _ _ _ _ _ HF)) in Hb.
  eapply (entries_agree members H H' i n g j n' g' k); [exact HF|exact HF'| |lia|exact He|exact He'].
  eapply (decided_agree members cfg_of Hid Hpeers w' H' _ (Z.to_nat (commitIndex n)) _ _ (Z.to_nat (commitIndex n'))); [done| | |lia|lia].
  - eapply decided_ext; [exact HX|exact (F_commit _ _ _ _ _ HF)].
  - exact (F_commit _ _ _ _ _ HF').
Qed.

(** C7. Log matching: two logs that have the same term at an index hold the
    same entries at every index up to it. One crash window is left out of the
    runs: an installation whose log save fails after its snapshot save
    succeeded ([torn_install_keeps_conflict]). Terms and indices stay below
    2^64. *)
Theorem log_matching (members : gset bytes) (cfg_of : bytes -> Config) w i n j n' m t k e e' :
  (forall i, i ∈ members -> c_id (cfg_of i) = i /\ i <> []) ->
  (forall i, i ∈ members ->
     NoDup (i :: c_peers (cfg_of i)) /\ list_to_set (i :: c_peers (cfg_of i)) = members) ->
  wreachable members cfg_of w -> w_nodes w !! i = Some n -> w_nodes w !! j = Some n' -> is_u64 m ->
  TermAt (log n) m = Some t -> TermAt (log n') m = Some t -> 0 < k <= m ->
  EntryAt (log n) k = Some e -> EntryAt (log n') k = Some e' -> e = e'.
Proof.
  intros Hid Hpeers Hw Hi Hj Hm Ht Ht' Hk He He'. unfold is_u64 in Hm.
  destruct (wreachable_inv members cfg_of Hid Hpeers w Hw) as (H & HW).
  destruct (W_node _ _ _ _ HW _ _ Hi) as (g & _ & HF). destruct (W_node _ _ _ _ HW _ _ Hj) as (g' & _ & HF').
  apply (rep_TermAt_Some _ _ (F_rep _ _ _ _ _ HF)) in Ht as [_ Ht]; [|done].
  apply (rep_TermAt_Some _ _ (F_rep _ _ _ _ _ HF')) in Ht' as [_ Ht']; [|done].
  eapply (entries_agree members H H i n g j n' g' k); [exact HF|exact HF'| |lia|exact He|exact He'].
  eapply take_agree_le; [eapply (lm_agree H); [apply HF|apply HF'|exact Ht|exact Ht']|lia].
Qed.

(** C6. Leader completeness: a leader holds everything that any node had
    committed, then or before, in a term up to the leader's: its log reaches
    as far, and has the same entries. One crash window is left out of the
    runs: an installation whose log save fails after its snapshot save
    succeeded ([torn_install_keeps_conflict]). Terms and indices stay below
    2^64. *)
Theorem leader_holds_committed (members : gset bytes) (cfg_of : bytes -> Config) w w' i n j n' :
  (forall i, i ∈ members -> c_id (cfg_of i) = i /\ i <> []) ->
  (forall i, i ∈ members ->
     NoDup (i :: c_peers (cfg_of i)) /\ list_to_set (i :: c_peers (cfg_of i)) = members) ->
  wreachable members cfg_of w -> rtc wstep w w' -> w_nodes w !! i = Some n -> w_nodes w' !! j = Some n' ->
  role n' = Leader -> currentTerm n <= currentTerm n' ->
  commitIndex n <= LastIndex (log n') /\
  (forall k e, base (log n) < k <= commitIndex n -> base (log n') < k ->
     EntryAt (log n) k = Some e -> EntryAt (log n') k = Some e).
Proof.
  intros Hid Hpeers Hw Hrun Hi Hj Hr HT.
  destruct (wreachable_inv members cfg_of Hid Hpeers w Hw) as (H & HW).
  destruct (WInv_run members cfg_of Hid Hpeers w H w' HW Hrun) as (H' & HW' & HX).
  destruct (W_node _ _ _ _ HW _ _ Hi) as (g & _ & HF). destruct (W_node _ _ _ _ HW' _ _ Hj) as (g' & _ & HF').
  pose proof (LF_log _ _ _ _ (F_lead _ _ _ _ _ HF' Hr)) as Hl.
  destruct (decided_lead members cfg_of Hid Hpeers w' H' g _ _ _ g' HW' (decided_ext _ _ _ HX _ _ _ (F_commit _ _ _ _ _ HF)) HT Hl) as [Hlen E].
  pose proof (rep_length _ _ (F_rep _ _ _ _ _ HF')) as HL.
  pose proof (LastIndex_bound _ (rep_wf _ _ (F_rep _ _ _ _ _ HF'))).
  pose proof (wf_base _ (rep_wf _ _ (F_rep _ _ _ _ _ HF))).
  split; [lia|]. intros k e Hk Hb' He.
  destruct (facts_EntryAt members H' j n' g' k HF' Hb' ltac:(lia)) as (e' & He' & _). rewrite He'. f_equal. symmetry.
  eapply (entries_agree members H H' i n g j n' g' k); [exact HF|exact HF'| |lia|exact He|exact He'].
  eapply take_agree_le; [exact E|lia].
Qed.

(** ** A run: three nodes elect a leader and commit a command *)

Definition world0 : world := MkWorld {[na := fresh_node na; nb := fresh_node nb; nc := fresh_node nc]} [].
Definition world1 : world := update world0 na a1 (posted na <$> (Tick (fresh_node na) calm_faults).2).
Definition world2 : world := update world1 nb b1 [MVoteReply nb na 1 (MkRVR 1 true)].
Definition world3 : world := update world2 na a2 (posted na <$> won.2).
Definition put : Node * list Rpc * result raft_error (Z * Z) := Propose a2 calm_faults [x70].
Definition a3 : Node := put.1.1.
Definition world4 : world := update world3 na a3 (posted na <$> put.1.2).
Definition carry : AppendEntriesArgs := MkAEA 1 na 0 0 [MkEntry 1 1 [x70]] 0.
Definition b2 : Node := (HandleAppendEntries b1 calm_faults carry).1.
Definition world5 : world := update world4 nb b2 [MAppendReply nb na carry (MkAER 1 true)].
Definition a4 : Node := (onAppendEntriesReply a3 calm_faults nb 1 carry (MkAER 1 true)).1.
Definition world6 : world := update world5 na a4 [].
Definition beat : Node * list Rpc := Tick a4 calm_faults.
Definition a5 : Node := beat.1.
Definition world7 : world := update world6 na a5 (posted na <$> beat.2).
Definition tell : AppendEntriesArgs := MkAEA 1 na 1 1 [] 1.
Definition b3 : Node := (HandleAppendEntries b2 calm_faults tell).1.
Definition world8 : world := update world7 nb b3 [MAppendReply nb na tell (MkAER 1 true)].

Lemma world0_initial : winitial trio trio_cfg world0.
Proof.
  split; [done|]. intros i n Hi. unfold world0 in Hi. cbn [w_nodes] in Hi.
  assert (i = na /\ n = fresh_node na \/ i = nb /\ n = fresh_node nb \/ i = nc /\ n = fresh_node nc) as Hc.
  { apply lookup_insert_Some in Hi as [[<- <-]|[_ Hi]]; [auto|].
    apply lookup_insert_Some in Hi as [[<- <-]|[_ Hi]]; [auto|].
    apply lookup_singleton_Some in Hi as [<- <-]. auto. }
  destruct Hc as [[-> ->]|[[-> ->]|[-> ->]]]; (split; [unfold trio; set_solver|exists 0; reflexivity]).
Qed.

Lemma node_here w i n ms : w_nodes (update w i n ms) !! i = Some n.
Proof. apply lookup_insert_eq. Qed.

Lemma node_there w i n ms j m : i <> j -> w_nodes w !! j = Some m -> w_nodes (update w i n ms) !! j = Some m.
Proof. intros Hne Hj. cbn. by rewrite lookup_insert_ne. Qed.

Lemma world0_nodes : w_nodes world0 !! na = Some (fresh_node na) /\ w_nodes world0 !! nb = Some (fresh_node nb).
Proof. split; vm_compute; reflexivity. Qed.

Ltac at_node := first [apply node_here | apply node_there; [discriminate|at_node]].

(** In the mail: the first message that matches. *)
Ltac posted_now := vm_compute; repeat (first [apply list_elem_of_here | apply list_elem_of_further]).

Lemma world3_runs : rtc wstep world0 world3.
Proof.
  apply (rtc_l _ _ world1); [|apply (rtc_l _ _ world2); [|apply rtc_once]].
  - apply ws_run, (ws_tick world0 na (fresh_node na) calm_faults a1); [exact (proj1 world0_nodes)|reflexivity|apply surjective_pairing].
  - apply ws_run, (ws_vote world1 na nb ask (fresh_node nb) calm_faults b1 (MkRVR 1 true));
      [posted_now|apply node_there; [discriminate|exact (proj2 world0_nodes)]|vm_compute; reflexivity].
  - apply ws_run, (ws_vote_reply world2 nb na 1 (MkRVR 1 true) a1 calm_faults a2 won.2); [posted_now|at_node|vm_compute; reflexivity].
Qed.

Lemma world6_runs : rtc wstep world3 world6.
Proof.
  apply (rtc_l _ _ world4); [|apply (rtc_l _ _ world5); [|apply rtc_once]].
  - apply ws_run, (ws_propose world3 na a2 calm_faults [x70] a3 put.1.2 put.2);
      [at_node|vm_compute; reflexivity|unfold a3; by rewrite <- !surjective_pairing].
  - apply ws_run, (ws_append world4 na nb carry b1 calm_faults b2 (MkAER 1 true)); [posted_now|at_node|vm_compute; reflexivity].
  - apply ws_run, (ws_append_reply world5 nb na carry (MkAER 1 true) a3 calm_faults a4 true);
      [posted_now|at_node|vm_compute; reflexivity].
Qed.

Lemma world8_runs : rtc wstep world6 world8.
Proof.
  apply (rtc_l _ _ world7); [|apply rtc_once].
  - apply ws_run, (ws_tick world6 na a4 calm_faults a5 beat.2); [at_node|vm_compute; reflexivity|apply surjective_pairing].
  - apply ws_run, (ws_append world7 na nb tell b2 calm_faults b3 (MkAER 1 true)); [posted_now|at_node|vm_compute; reflexivity].
Qed.

Lemma run_reachable w w' : wreachable trio trio_cfg w -> rtc wstep w w' -> wreachable trio trio_cfg w'.
Proof. intros Hw Hr. induction Hr; eauto using wr_step. Qed.

Lemma world6_reachable : wreachable trio trio_cfg world6.
Proof.
  eapply run_reachable; [|exact world6_runs]. eapply run_reachable; [|exact world3_runs]. apply wr_init, world0_initial.
Qed.

Example raft_refines_log_witness :
  exists C, shows a4 C /\ C !! 0%nat = Some (1, [x70]).
Proof.
  destruct (raft_refines_log trio trio_cfg trio_ids trio_peers) as (R & H0 & Hstep & Hshows).
  assert (forall w w', rtc wstep w w' -> forall C, R w C -> exists C', C `prefix_of` C' /\ R w' C') as Hrun.
  { induction 1 as [w|w w1 w2 Hs _ IH]; intros C HR; [exists C; split; [exists []; by rewrite app_nil_r|exact HR]|].
    destruct (Hstep w C w1 HR Hs) as (C1 & P1 & R1). destruct (IH C1 R1) as (C2 & P2 & R2).
    exists C2. split; [transitivity C1; assumption|exact R2]. }
  destruct (Hrun world0 world3 world3_runs [] (H0 _ world0_initial)) as (C3 & _ & R3).
  destruct (Hrun world3 world6 world6_runs C3 R3) as (C6 & _ & R6).
  pose proof (Hshows world6 C6 na a4 R6 ltac:(at_node)) as Hs. exists C6. split; [exact Hs|].
  destruct Hs as (_ & Hent & _).
  destruct (Hent 1 ltac:(split; vm_compute; congruence)) as (e & He & _ & HC).
  replace (EntryAt (log a4) 1) with (Some (MkEntry 1 1 [x70])) in He by (vm_compute; reflexivity).
  injection He as <-. exact HC.
Defined.

Example state_machine_safety_witness :
  1 <= commitIndex b3 /\ forall e, EntryAt (log b3) 1 = Some e -> e = MkEntry 1 1 [x70].
Proof.
  split; [vm_compute; congruence|]. intros e He. symmetry.
  apply (state_machine_safety trio trio_cfg world6 world8 na a4 nb b3 1 (MkEntry 1 1 [x70]) e trio_ids trio_peers
    world6_reachable world8_runs); [at_node|at_node|lia|vm_compute; congruence..|
    vm_compute; reflexivity|exact He].
Defined.

Example log_matching_witness :
  TermAt (log a4) 1 = Some 1 /\ forall e, EntryAt (log b2) 1 = Some e -> MkEntry 1 1 [x70] = e.
Proof.
  split; [vm_compute; reflexivity|]. intros e He.
  apply (log_matching trio trio_cfg world6 na a4 nb b2 1 1 1 (MkEntry 1 1 [x70]) e trio_ids trio_peers world6_reachable);
    [at_node|at_node|split; vm_compute; congruence|vm_compute; reflexivity..|lia|
     vm_compute; reflexivity|exact He].
Defined.

Example leader_holds_committed_witness :
  commitIndex a4 <= LastIndex (log a5) /\ EntryAt (log a5) 1 = Some (MkEntry 1 1 [x70]).
Proof.
  destruct (leader_holds_committed trio trio_cfg world6 world8 na a4 na a5 trio_ids trio_peers world6_reachable world8_runs)
    as [Hl He]; [at_node|at_node|vm_compute; reflexivity|vm_compute; congruence|]. split; [exact Hl|].
  apply (He 1 (MkEntry 1 1 [x70])); [split; vm_compute; congruence|vm_compute; reflexivity..].
Defined.

(** ** An installation cut short

    [wstep] leaves out an installation whose log save fails after its
    snapshot save. Installed whole, a snapshot that conflicts with the log
    replaces all of it; cut short and restarted, the node keeps the
    conflicting entries after the new boundary, with an earlier term than
    the boundary's. *)
Definition divided : Node :=
  (HandleAppendEntries (fresh_node nb) calm_faults
     (MkAEA 1 na 0 0 [MkEntry 1 1 [x61]; MkEntry 2 1 [x62]; MkEntry 3 1 [x63]] 0)).1.
Definition later_snapshot : InstallSnapshotArgs :=
  MkISA 2 nc 2 2 [x64] true 0 true 1 (checksum [x64]).
Definition torn_faults : faults := MkFaults false true false 0 0.

Example torn_install_keeps_conflict :
  ents (log (HandleInstallSnapshot divided calm_faults later_snapshot).1) = [] /\
  match newNode (trio_cfg nb) (persister (HandleInstallSnapshot divided torn_faults later_snapshot).1) 0 with
  | Ok n => base (log n) = 2 /\ TermAt (log n) 2 = Some 2 /\ TermAt (log n) 3 = Some 1
  | Err _ => False
  end.
Proof. vm_compute. auto. Qed.
