(* ===== verification/RaftCommit.v ===== *)
(** * Commitment

    The commit rule of replication.go, what a node never takes back, and
    where linearizable reads and snapshot restoration fall short of their
    documentation. *)

From S2P Require Import Prelude Bytes RaftLog RaftFormat RaftPersist RaftNode RaftElection RaftDurable.
From stdpp Require Import base tactics list numbers gmap.
From Stdlib Require Import Strings.Byte.
From Stdlib Require Import ZArith Lia.
#[local] Open Scope Z_scope.

(** Raft's condition on an index a leader commits. *)
Definition committable (n : Node) (N : Z) : Prop :=
  TermAt (log n) N = Some (currentTerm n) /\ majority n <= replicated_count n N.

Lemma advance_loop_None fuel n N :
  advance_loop fuel n N = None -> N - commitIndex n <= Z.of_nat fuel ->
  forall M, commitIndex n < M <= N -> ~ committable n M.
Proof.
  revert N. induction fuel as [|fuel IH]; intros N; [lia|]. cbn [advance_loop].
  case_if; zbool; [lia|]. case_if; [done|]. intros H Hf M HM [Ht Hc].
  destruct (Z.eq_dec M N) as [->|]; [|by apply (IH (N - 1) H ltac:(lia) M ltac:(lia))].
  rewrite bool_decide_eq_true_2 in E0 by done. cbn in E0. zbool. lia.
Qed.

Lemma advance_loop_largest fuel n N M :
  advance_loop fuel n N = Some M -> forall K, M < K <= N -> ~ committable n K.
Proof.
  revert N. induction fuel as [|fuel IH]; intros N; [done|]. cbn [advance_loop].
  case_if; [done|]. case_if; zbool; [intros [= <-]; lia|].
  intros H K HK [Ht Hc]. destruct (Z.eq_dec K N) as [->|]; [|by apply (IH _ H K ltac:(lia))].
  rewrite bool_decide_eq_true_2 in E0 by done. cbn in E0. zbool. lia.
Qed.

(** The commit rule: after [maybeAdvanceCommitIndexLocked] the commit
    index is the largest index after the old one that holds an entry of the
    leader's own term and that a majority has replicated, and stays where it
    was when there is none. *)
Theorem commit_rule n :
  (exists N, commitIndex n < N <= LastIndex (log n) /\ committable n N /\
     (forall K, N < K <= LastIndex (log n) -> ~ committable n K) /\
     maybeAdvanceCommitIndexLocked n = set_commit n N true) \/
  ((forall K, commitIndex n < K <= LastIndex (log n) -> ~ committable n K) /\
   maybeAdvanceCommitIndexLocked n = n).
Proof.
  unfold maybeAdvanceCommitIndexLocked. destruct (advance_loop _ _ _) as [N|] eqn:E.
  - left. exists N. pose proof (advance_loop_largest _ _ _ _ E).
    apply advance_loop_Some in E as (? & ? & ?). repeat split; done || lia.
  - right. split; [|done]. apply (advance_loop_None _ _ _ E). lia.
Qed.

(** ** What only moves forward *)

(** [l'] has the entries of [l], but for those behind its boundary. *)
Definition keeps (l l' : Log) : Prop :=
  forall i, base l' < i <= LastIndex l -> EntryAt l' i = EntryAt l i.

Record forward (n n' : Node) : Prop := {
  fw_commit : commitIndex n <= commitIndex n';
  fw_applied : lastApplied n <= lastApplied n';
  fw_base : base (log n) <= base (log n');
  fw_log : keeps (log n) (log n') \/ role n' = Follower }.

Lemma forward_frame n n' :
  commitIndex n <= commitIndex n' -> lastApplied n <= lastApplied n' -> log n' = log n -> forward n n'.
Proof.
  intros ? ? El. split; rewrite ?El; try done. by left.
Qed.

Lemma forward_refl n : forward n n.
Proof. by apply forward_frame. Qed.

(** The log is the same half of the way. *)
Lemma forward_after n n1 n' :
  commitIndex n <= commitIndex n1 -> lastApplied n <= lastApplied n1 -> log n1 = log n ->
  forward n1 n' -> forward n n'.
Proof. intros ? ? El [? ? Hb Hl]. rewrite El in *. split; [lia|lia|done|done]. Qed.

Lemma forward_before n n1 n' :
  forward n n1 -> commitIndex n1 <= commitIndex n' -> lastApplied n1 <= lastApplied n' -> log n' = log n1 ->
  (role n1 = Follower -> role n' = Follower) -> forward n n'.
Proof.
  intros [? ? Hb Hl] ? ? El Hr. split; rewrite ?El; [lia|lia|done|]. destruct Hl; auto.
Qed.

Ltac forward_same := apply forward_frame; [done || (cbn; lia)|done || (cbn; lia)|done].
Ltac after H := eapply forward_after; [| | |exact H]; [done || (cbn; lia)..|done].

Lemma forward_step_down n f term n' : becomeFollowerLocked n f term = Some n' -> forward n n'.
Proof.
  unfold becomeFollowerLocked, persistLocked. destruct (fail_term f); intros [= <-]. forward_same.
Qed.

Lemma step_down_same n f term n' :
  (if term >? currentTerm n then becomeFollowerLocked n f term else Some n) = Some n' ->
  commitIndex n' = commitIndex n /\ lastApplied n' = lastApplied n /\ log n' = log n.
Proof.
  case_if; [|by intros [= <-]]. unfold becomeFollowerLocked, persistLocked.
  destruct (fail_term f); by intros [= <-].
Qed.

Lemma forward_default n f term : forward n (default n (becomeFollowerLocked n f term)).
Proof.
  destruct (becomeFollowerLocked n f term) eqn:E; [by eapply forward_step_down|apply forward_refl].
Qed.

Lemma forward_advance n : forward n (maybeAdvanceCommitIndexLocked n).
Proof.
  destruct (commit_rule n) as [(N & HN & _ & _ & ->)|[_ ->]]; [|apply forward_refl].
  apply forward_frame; cbn; done || lia.
Qed.

Lemma forward_leader n : forward n (becomeLeaderLocked n).1.
Proof.
  unfold becomeLeaderLocked, broadcastAppendEntriesLocked. cbn [fst].
  eapply forward_after; [..|apply forward_advance]; done.
Qed.

Lemma forward_election n f : forward n (startElectionLocked n f).1.
Proof.
  unfold startElectionLocked, persistLocked. destruct (fail_state f); [apply forward_refl|].
  case_if; [|forward_same]. eapply forward_after; [..|apply forward_leader]; done.
Qed.

Lemma forward_Tick n f : forward n (Tick n f).1.
Proof.
  unfold Tick. destruct (role n); case_if; try forward_same.
  - eapply forward_after; [..|apply forward_election]; done.
  - eapply forward_after; [..|apply forward_election]; done.
  - eapply forward_after; [..|apply forward_advance]; done.
Qed.

Lemma forward_HandleRequestVote n f args : forward n (HandleRequestVote n f args).1.
Proof.
  unfold HandleRequestVote.
  destruct (if rv_Term args >? currentTerm n then _ else _) as [n1|] eqn:E; [|apply forward_refl].
  apply step_down_same in E as (Ec & Ea & El).
  eapply forward_after; [rewrite Ec; done|rewrite Ea; done|exact El|].
  case_if; [apply forward_refl|]. case_if; [apply forward_refl|].
  unfold persistLocked. destruct (fail_state f); [apply forward_refl|forward_same].
Qed.

Lemma forward_onRequestVoteReply n f peer term reply n' rpcs :
  onRequestVoteReply n f peer term reply = Some (n', rpcs) -> forward n n'.
Proof.
  unfold onRequestVoteReply. case_if; [intros [= <- <-]; apply forward_default|].
  case_if; [intros [= <- <-]; apply forward_refl|]. case_if; [intros [= <- <-]; apply forward_refl|].
  destruct (votesReceived n) as [V|]; [|done]. case_if; [|intros [= <- <-]; forward_same].
  intros Hn. injection Hn as <- _.
  eapply forward_after; [..|apply forward_advance]; done.
Qed.

Lemma forward_onAppendEntriesReply n f peer term args reply :
  forward n (onAppendEntriesReply n f peer term args reply).1.
Proof.
  unfold onAppendEntriesReply. case_if; [apply forward_default|]. case_if; [apply forward_refl|].
  case_if; cbn [fst]; [|case_if; forward_same]. eapply forward_after; [..|apply forward_advance]; done.
Qed.

Lemma forward_onInstallSnapshotReply n f peer term snap final reply :
  forward n (onInstallSnapshotReply n f peer term snap final reply).1.
Proof.
  unfold onInstallSnapshotReply. case_if; [apply forward_default|]. case_if; [apply forward_refl|].
  case_if; [apply forward_refl|]. case_if; [|apply forward_refl]. cbn [fst].
  eapply forward_after; [..|apply forward_advance]; done.
Qed.

Lemma forward_HandleAppendEntries n f args :
  append_bounded args -> log_wf (log n) -> forward n (HandleAppendEntries n f args).1.
Proof.
  intros [Hu Hb] Hw. unfold HandleAppendEntries.
  destruct (if ae_Term args >? currentTerm n then _ else _) as [n1|] eqn:E; [|apply forward_refl].
  apply step_down_same in E as (Ec & Ea & El).
  eapply forward_after; [rewrite Ec; done|rewrite Ea; done|exact El|]. rewrite <- El in Hw.
  case_if; [apply forward_refl|]. case_if; [forward_same|]. zbool.
  match goal with H : TermAt _ _ = Some _ |- _ => apply (TermAt_range _ _ _ Hw Hu) in H as Hr end.
  destruct (AppendAfter_wf _ _ _ Hw Hr Hb) as (_ & Hbase & _).
  change (log (resetElectionTimerLocked _ _)) with (log n1).
  destruct (AppendAfter _ _ _) as [l changed]. cbn [fst] in Hbase. unfold persistLocked. destruct changed.
  - destruct (fail_state f); [forward_same|]. cbn [fst].
    repeat case_if; zbool; (split; [cbn in *; lia|done|change (base (log n1) <= base l); lia|by right]).
  - cbn [fst]. repeat case_if; zbool; apply forward_frame; (done || (cbn in *; lia)).
Qed.

Lemma forward_installSnapshot n f index term data :
  log_wf (log n) -> base (log n) < index -> index + 1 < 2 ^ 64 -> role n = Follower ->
  forward n (installSnapshot n f index term data).1.
Proof.
  intros Hw Hb Hu Hr. unfold installSnapshot, persistLocked. case_if; [forward_same|].
  destruct (fail_state f); [forward_same|]. change (log (set_persister ?a ?b)) with (log a).
  destruct (installSnapshotBoundary_spec (log n) index term Hw Hb Hu) as (_ & Hbl & _).
  cbn [fst]. case_if; zbool; (split; [cbn in *; lia|done| |by right]);
    (change (base (log n) <= base (installSnapshotBoundary (log n) index term)); lia).
Qed.

Lemma forward_HandleInstallSnapshot n f args :
  install_bounded args -> log_wf (log n) -> forward n (HandleInstallSnapshot n f args).1.
Proof.
  intros Hb Hw. unfold HandleInstallSnapshot.
  destruct (if is_Term args >? currentTerm n then _ else _) as [n1|] eqn:E; [|apply forward_refl].
  apply step_down_same in E as (Ec & Ea & El).
  eapply forward_after; [rewrite Ec; done|rewrite Ea; done|exact El|]. rewrite <- El in Hw.
  case_if; [apply forward_refl|]. set (n2 := resetElectionTimerLocked _ _). case_if; zbool.
  { cbn [fst]. destruct (chunkTransfer n2); [case_if|]; forward_same. }
  case_if.
  - destruct (receiveSnapshotChunkLocked _ _) as [t [| |data]]; [forward_same..|].
    eapply forward_after; [..|apply forward_installSnapshot]; done.
  - eapply forward_after; [..|apply forward_installSnapshot]; done.
Qed.

Lemma forward_Propose n f command :
  log_wf (log n) -> base (log n) + zlen (log n) + 1 < 2 ^ 64 -> forward n (Propose n f command).1.1.
Proof.
  intros Hw Hb. unfold Propose. case_if; [apply forward_refl|]. unfold persistLocked, log_Append.
  destruct (fail_state f); [apply forward_refl|]. cbn [broadcastAppendEntriesLocked fst].
  set (e := MkEntry _ _ _). set (m := set_persister _ _).
  assert (base (log n ++ [e]) = base (log n)) as Hbl by apply base_app, (wf_nonempty _ Hw).
  assert (forward n m) as Hm.
  { split; [done|done|change (base (log n) <= base (log n ++ [e])); lia|left].
    change (keeps (log n) (log n ++ [e])). intros i Hi. rewrite Hbl in Hi.
    rewrite LastIndex_wf in Hi by done. pose proof (wf_base _ Hw).
    unfold EntryAt. rewrite Hbl, (proj2 (Z.leb_gt _ _)), zlen_app by lia.
    rewrite u64_small by (unfold is_u64; lia). rewrite !Z.geb_leb.
    replace (zlen [e]) with 1 by done.
    rewrite !(proj2 (Z.leb_gt _ _)) by lia. f_equal. apply lookup_total_app_l. unfold zlen in *. lia. }
  destruct (commit_rule m) as [(N & HN & _ & _ & ->)|[_ ->]]; [|done].
  eapply forward_before; [exact Hm|cbn in *; lia|done..].
Qed.

Lemma forward_CreateSnapshot n f index data :
  is_u64 index -> log_wf (log n) -> forward n (CreateSnapshot n f index data).1.
Proof.
  intros Hu Hw. unfold CreateSnapshot. do 4 (case_if; [apply forward_refl|]). zbool.
  destruct (TermAt (log n) index) as [term|] eqn:Et; [|apply forward_refl]. case_if; [apply forward_refl|].
  pose proof (TermAt_range _ _ _ Hw Hu Et) as Hr. pose proof (LastIndex_bound _ Hw).
  destruct (compact_spec (log n) index Hw ltac:(lia)) as (l & Hc & Hwl & Hbl & _ & Htl & Hk).
  change (log (set_persister n _)) with (log n). rewrite Hc. unfold persistLocked.
  destruct (fail_state f); [forward_same|].
  split; [done|done|change (base (log n) <= base l); lia|left].
  change (keeps (log n) l). intros i Hi. apply Hk. lia.
Qed.

Lemma forward_MarkApplied n index : forward n (MarkApplied n index).1.
Proof. unfold MarkApplied. case_if; [forward_same|]. case_if; zbool; forward_same. Qed.

Lemma forward_Confirm n index : forward n (ConfirmSnapshotRestored n index).1.
Proof.
  unfold ConfirmSnapshotRestored. destruct (pendingSnapshot n); [|forward_same].
  case_if; [forward_same|]. case_if; [forward_same|]. cbn [fst]. case_if; zbool; forward_same.
Qed.

(** Nothing a node reported is taken back: on every step, a restart
    apart, the commit index, the last applied index and the log's boundary
    move forward only, the last applied index never passes the commit index,
    and a node that leads after the step has kept every entry it had (leader
    append-only), but for those a snapshot replaced. *)
Theorem progress_is_monotone c n n' :
  node_life c n -> node_step n n' ->
  (exists r, newNode (cfg n) (persister n) r = Ok n') \/
  (commitIndex n <= commitIndex n' /\ lastApplied n <= lastApplied n' <= commitIndex n' /\
   base (log n) <= base (log n') /\
   (role n' <> Follower -> forall i, base (log n') < i <= LastIndex (log n) ->
      EntryAt (log n') i = EntryAt (log n) i)).
Proof.
  intros Hl Hs. pose proof (node_life_inv _ _ Hl) as Hi. pose proof (N_log _ Hi) as Hw.
  pose proof (node_inv_step _ _ Hi Hs) as Hi'.
  assert ((exists r, newNode (cfg n) (persister n) r = Ok n') \/ forward n n') as [H|[Hc Ha Hb Hk]].
  { destruct Hs; eauto using forward_Tick, forward_HandleRequestVote, forward_onRequestVoteReply,
      forward_HandleAppendEntries, forward_onAppendEntriesReply, forward_HandleInstallSnapshot,
      forward_onInstallSnapshotReply, forward_Propose, forward_CreateSnapshot, forward_MarkApplied,
      forward_Confirm. }
  - by left.
  - right. split_and!; [done|done|apply (N_applied _ Hi')|done|].
    intros Hr i Hri. destruct Hk as [Hk|?]; [by apply Hk|done].
Qed.

Example progress_is_monotone_witness :
  commitIndex lone2 = 1 /\ commitIndex lone3 = 2 /\
  forall i, base (log lone3) < i <= LastIndex (log lone2) -> EntryAt (log lone3) i = EntryAt (log lone2) i.
Proof.
  split; [vm_compute; reflexivity|]. split; [vm_compute; reflexivity|].
  assert (node_life lone_cfg lone2) as Hl.
  { do 2 (eapply nl_step; [|first [by apply ns_propose|apply ns_tick]]). by apply (nl_new _ 0). }
  assert (node_step lone2 lone3) as Hs by (by apply ns_propose).
  destruct (progress_is_monotone lone_cfg lone2 lone3 Hl Hs) as [[r Hr]|(_ & _ & _ & Hk)].
  - apply (f_equal (fun x => match x with Ok n => bool_decide (role n = Leader) | Err _ => true end)) in Hr.
    vm_compute in Hr. discriminate.
  - apply Hk. vm_compute. discriminate.
Defined.

(** ** Linearizable reads *)

(** [a] leads term 1, commits an entry with [b]'s acknowledgement and is cut
    off before its commit index reaches anyone; [b] is elected in term 2 with
    [c]'s vote. *)
Definition write1 : Node * list Rpc * result raft_error (Z * Z) := Propose a2 calm_faults [x01].
Definition a3 : Node := write1.1.1.
Definition repl1 : AppendEntriesArgs := append_args a3 nb.
Definition b2 : Node := (HandleAppendEntries b1 calm_faults repl1).1.
Definition a4 : Node :=
  (onAppendEntriesReply a3 calm_faults nb 1 repl1 (HandleAppendEntries b1 calm_faults repl1).2).1.
Definition b3 : Node := (Tick b2 calm_faults).1.
Definition ask2 : RequestVoteArgs := MkRVA 2 nb 1 1.
Definition c1 : Node := (HandleRequestVote (fresh_node nc) calm_faults ask2).1.
Definition b4 : Node :=
  match onRequestVoteReply b3 calm_faults nc 2 (HandleRequestVote (fresh_node nc) calm_faults ask2).2 with
  | Some (n, _) => n
  | None => b3
  end.
Definition probe : AppendEntriesArgs := append_args b4 nc.
Definition b5 : Node * bool :=
  onAppendEntriesReply b4 calm_faults nc 2 probe (HandleAppendEntries c1 calm_faults probe).2.

(** A read barrier can miss a committed write: a new leader whose quorum
    has confirmed it hands out the commit index it had before, 0, although
    an earlier leader committed index 1, an entry the new leader holds. *)
Theorem ReadIndex_misses_commit :
  commitIndex a4 = 1 /\ write1.2 = Ok (1, 1) /\ EntryAt (log a4) 1 = EntryAt (log b4) 1 /\
  role b4 = Leader /\ currentTerm b4 = 2 /\
  exists r, ReadIndex_begin b4 = Ok r /\ (nc, probe) ∈ pr_calls r /\ b5.2 = true /\
    ReadIndex_end b5.1 r (1 + 1) = Ok 0.
Proof.
  do 5 (split; [vm_compute; reflexivity|]). eexists. split; [vm_compute; reflexivity|].
  split; [|by split; vm_compute].
  vm_compute. right. left.
Qed.

(** The index a barrier hands out is the commit index of a leader that was
    still leading, in the same term, after a majority answered. *)
Lemma ReadIndex_index n n' r acked i :
  ReadIndex_begin n = Ok r -> ReadIndex_end n' r acked = Ok i ->
  role n = Leader /\ i = commitIndex n /\
  (1 < majority n -> role n' = Leader /\ currentTerm n' = currentTerm n /\ majority n <= acked).
Proof.
  unfold ReadIndex_begin, ReadIndex_end. case_if; [done|]. intros [= <-]. cbn.
  case_if; zbool; [intros [= <-]; by split_and!; try lia|].
  case_if; [done|]. intros [= <-]. zbool. split_and!; try done; lia.
Qed.

(** ** A follower that compacted past the leader *)

Lemma TermAt_below l i : i < base l -> TermAt l i = None.
Proof. intros Hi. unfold TermAt. by rewrite (proj2 (Z.ltb_lt _ _)). Qed.

Lemma HandleAppendEntries_below n f args :
  ae_PrevLogIndex args < base (log n) -> aer_Success (HandleAppendEntries n f args).2 = false.
Proof.
  intros Hb. unfold HandleAppendEntries.
  destruct (if ae_Term args >? currentTerm n then _ else _) as [n1|] eqn:E; [|done].
  apply step_down_same in E as (_ & _ & El). case_if; [done|].
  case_if; [done|]. zbool. rewrite TermAt_below in E0; [done|].
  change (log (resetElectionTimerLocked _ _)) with (log n1). by rewrite El.
Qed.

(** Replication to a follower that compacted its log can be stuck: once
    the leader, with nothing compacted itself, has backed off to the first
    index, every request it sends is rejected, whatever the follower's disk
    does, and every rejection leaves it where it was: no snapshot is sent,
    and the follower's progress is never learnt. *)
Theorem compacted_follower_stuck leader p follower f :
  base (log leader) = 0 -> next_of leader p = 1 -> 0 < base (log follower) ->
  let args := append_args leader p in
  let '(follower', reply) := HandleAppendEntries follower f args in
  rpc_for leader p = RpcAppendEntries p args /\ aer_Success reply = false /\
  base (log follower') = base (log follower) /\
  forall f' t, aer_Term reply <= currentTerm leader ->
    (onAppendEntriesReply leader f' p t args reply).1 = leader.
Proof.
  intros Hb Hn Hf args.
  assert (ae_PrevLogIndex args = 0) as Hp by (cbn; by rewrite Hn).
  pose proof (HandleAppendEntries_below follower f args ltac:(lia)) as Hs.
  assert (base (log (HandleAppendEntries follower f args).1) = base (log follower)) as Hbase.
  { unfold HandleAppendEntries.
    destruct (if ae_Term args >? currentTerm follower then _ else _) as [n1|] eqn:E; [|done].
    apply step_down_same in E as (_ & _ & El). case_if; cbn [fst]; [by rewrite El|].
    rewrite bool_decide_eq_false_2; [cbn [negb fst]; by rewrite <- El|].
    change (log (resetElectionTimerLocked _ _)) with (log n1). rewrite El, TermAt_below by lia. done. }
  destruct (HandleAppendEntries follower f args) as [follower' reply]. cbn [fst snd] in *.
  split; [unfold rpc_for; by rewrite Hn, Hb|]. split; [done|]. split; [done|].
  intros f' t Ht. unfold onAppendEntriesReply. rewrite Z.gtb_ltb, (proj2 (Z.ltb_ge _ _)) by lia.
  case_if; [done|]. rewrite Hs, Hn. done.
Qed.

(** A follower restarted from a snapshot through index 1. *)
Definition compacted : Node := default lone0 (match newNode (trio_cfg nb) (persister lone5) 0 with
                                              | Ok n => Some n | Err _ => None end).
Definition backed_off : Node := set_progress a3 {[nb := 1]} {[nb := 0]}.

Example compacted_follower_stuck_witness :
  base (log compacted) = 1 /\
  aer_Success (HandleAppendEntries compacted calm_faults (append_args backed_off nb)).2 = false.
Proof.
  split; [vm_compute; reflexivity|].
  pose proof (compacted_follower_stuck backed_off nb compacted calm_faults ltac:(vm_compute; reflexivity)
    ltac:(vm_compute; reflexivity) ltac:(vm_compute; reflexivity)) as H.
  cbv zeta in H. destruct (HandleAppendEntries compacted calm_faults (append_args backed_off nb)) as [m r].
  exact (proj1 (proj2 H)).
Defined.

(** ** A snapshot found at startup *)

(** After a restart from a snapshot, the snapshot is pending but cannot
    be confirmed: the commit index starts at 0, so the confirmation is
    refused and changes nothing, until the node learns of a commit. *)
Theorem restart_snapshot_not_confirmable c n r n' s :
  node_life c n -> newNode (cfg n) (persister n) r = Ok n' -> disk_snapshot (persister n) = Some s ->
  0 < LastIncludedIndex s ->
  pendingSnapshot n' = Some s /\ commitIndex n' = 0 /\
  ConfirmSnapshotRestored n' (LastIncludedIndex s) = (n', Err ErrBadIndex).
Proof.
  intros Hl E Hs Hp. assert (commitIndex n' = 0) as Hc.
  { unfold newNode in E. repeat case_match; simplify_eq; done. }
  destruct (newNode_recovers n r (node_life_inv _ _ Hl)) as (n'' & E' & _ & _ & _ & _ & _ & Hsn).
  rewrite E in E'. injection E' as <-. rewrite Hs in Hsn. destruct Hsn as [_ Hpend].
  split; [done|]. split; [done|]. unfold ConfirmSnapshotRestored.
  rewrite Hpend, Z.eqb_refl, Hc, Z.gtb_ltb, (proj2 (Z.ltb_lt _ _)) by done. done.
Qed.

Example restart_snapshot_not_confirmable_witness :
  exists n', newNode lone_cfg (persister lone5) 0 = Ok n' /\
    ConfirmSnapshotRestored n' 1 = (n', Err ErrBadIndex).
Proof.
  eexists. split; [vm_compute; reflexivity|].
  eapply (restart_snapshot_not_confirmable lone_cfg lone5 0 _ (MkSnapshot 1 1 [x07]) lone5_life);
    vm_compute; reflexivity.
Defined.
