(* ===== verification/SnapshotTransfer.v ===== *)
(** * Chunked snapshot transfer

    [sendInstallSnapshot] of replication.go against [HandleInstallSnapshot]
    and [receiveSnapshotChunkLocked] of snapshot.go: what a receiver ends up
    with under any mixture of chunks, and that an undisturbed transfer
    completes. *)

From S2P Require Import Prelude Bytes RaftLog RaftFormat RaftPersist RaftNode RaftElection RaftDurable RaftCommit.
From stdpp Require Import base tactics list numbers gmap.
From Stdlib Require Import Strings.Byte.
From Stdlib Require Import ZArith Lia.
#[local] Open Scope Z_scope.

(** ** The sender's loop *)

(** What chunk number [k] meets: [None] is a transport error, otherwise the
    faults of the receiver's step and of the sender's. *)
Definition network : Type := nat -> option (faults * faults).

Fixpoint send_loop (fuel : nat) (net : network) (n m : Node) (peer : bytes) (term : Z) (snap : Snapshot)
    (offset : Z) : Node * Node :=
  match fuel with
  | O => (n, m)
  | S fuel =>
      let args := snapshot_chunk n term snap offset in
      match net 0%nat with
      | None => (n, m)
      | Some (fr, fs) =>
          let '(m, reply) := HandleInstallSnapshot m fr args in
          let '(n, more) := onInstallSnapshotReply n fs peer term snap (is_Final args) reply in
          if more
          then send_loop fuel (fun k => net (S k)) n m peer term snap (offset + zlen (is_Data args))
          else (n, m)
      end
  end.

(** [sendInstallSnapshot] from [n] to the node [m]. A chunk that is not the
    last has at least one byte, so one iteration per byte and one more are
    enough. *)
Definition sendInstallSnapshot (net : network) (n m : Node) (peer : bytes) (term : Z) (snap : Snapshot) :
    Node * Node :=
  send_loop (S (length (SnapshotData snap))) net n m peer term snap 0.

(** ** Safety: only whole snapshots are installed *)

Section Genuine.
(** The snapshot a cluster has at an index and a term. *)
Context (S : Z -> Z -> bytes).

(** A chunk of the genuine snapshot. *)
Definition honest_chunk (args : InstallSnapshotArgs) : Prop :=
  let data := S (is_LastIncludedIndex args) (is_LastIncludedTerm args) in
  is_Chunked args = true /\ is_TotalSize args = zlen data /\ 0 <= is_Offset args /\
  exists stop, is_Data args = slice (Z.to_nat (is_Offset args)) stop data.

(** A whole genuine snapshot in one request. *)
Definition honest_whole (args : InstallSnapshotArgs) : Prop :=
  is_Chunked args = false /\ is_Data args = S (is_LastIncludedIndex args) (is_LastIncludedTerm args).

(** A chunk whose data does not match its checksum. *)
Definition damaged (args : InstallSnapshotArgs) : Prop :=
  is_Chunked args = true /\ checksum (is_Data args) <> is_Checksum args.

Definition deliverable (args : InstallSnapshotArgs) : Prop :=
  honest_chunk args \/ honest_whole args \/ damaged args.

Definition genuine (s : Snapshot) : Prop :=
  SnapshotData s = S (LastIncludedIndex s) (LastIncludedTerm s).

(** The bytes received so far are a prefix of the genuine snapshot. *)
Definition genuine_transfer (t : inProgressSnapshotTransfer) : Prop :=
  let data := S (t_lastIncludedIndex t) (t_lastIncludedTerm t) in
  t_totalSize t = zlen data /\ t_buf t `prefix_of` data.

Record genuine_node (n : Node) : Prop := {
  G_disk : forall s, disk_snapshot (persister n) = Some s -> genuine s;
  G_pending : forall s, pendingSnapshot n = Some s -> genuine s;
  G_transfer : forall t, chunkTransfer n = Some t -> genuine_transfer t }.

Lemma prefix_slice (p d : bytes) stop :
  p `prefix_of` d -> p ++ slice (length p) stop d `prefix_of` d.
Proof.
  intros [k ->]. unfold slice. rewrite drop_app_length. apply prefix_app, prefix_take.
Qed.

Lemma prefix_full (p d : bytes) : p `prefix_of` d -> zlen p = zlen d -> p = d.
Proof. intros [k ->] Hl. rewrite zlen_app in Hl. destruct k; [by rewrite app_nil_r|zlen_lia]. Qed.

Lemma receive_genuine cur args cur' res :
  (forall t, cur = Some t -> genuine_transfer t) -> honest_chunk args \/ damaged args ->
  receiveSnapshotChunkLocked cur args = (cur', res) ->
  (forall t, cur' = Some t -> genuine_transfer t) /\
  (forall data, res = ChunkComplete data -> data = S (is_LastIncludedIndex args) (is_LastIncludedTerm args)).
Proof.
  intros Hcur Hargs. unfold receiveSnapshotChunkLocked. case_if; [by intros [= <- <-]|].
  set (tr := if is_Offset args =? 0 then _ else _).
  assert (forall t, tr = Some t -> honest_chunk args ->
    genuine_transfer t /\ t_lastIncludedIndex t = is_LastIncludedIndex args /\
    t_lastIncludedTerm t = is_LastIncludedTerm args /\ zlen (t_buf t) = is_Offset args) as Htr.
  { intros t Ht (_ & Htot & Ho & _). unfold tr in Ht. clear tr. destruct (is_Offset args =? 0) eqn:E0.
    - injection Ht as <-. zbool. unfold genuine_transfer. cbn. split_and!; try done. apply prefix_nil.
    - destruct cur as [t'|] eqn:Ec; [|done]. destruct (_ || _) eqn:Eg in Ht; [done|]. injection Ht as <-. zbool.
      split_and!; try done. by apply Hcur. }
  destruct tr as [t|]; [|by intros [= <- <-]]. case_if; [by intros [= <- <-]|]. zbool.
  destruct Hargs as [Hh|[_ Hd]]; [|done]. destruct (Htr t eq_refl Hh) as ((Htot & Hpre) & Ei & Et & Eo).
  destruct Hh as (_ & _ & _ & stop & Hdata).
  case_if; [by intros [= <- <-]|].
  assert (genuine_transfer (MkTransfer (t_lastIncludedIndex t) (t_lastIncludedTerm t) (t_totalSize t)
    (t_buf t ++ is_Data args))) as Hgen.
  { split; [done|]. cbn. rewrite Hdata, <- Ei, <- Et, <- Eo. rewrite to_nat_zlen. by apply prefix_slice. }
  case_if; [intros [= <- <-]; split; [by intros ? [= <-]|done]|].
  case_if; [by intros [= <- <-]|]. zbool. intros [= <- <-]. split; [by intros ? [= <-]|].
  intros data [= <-]. rewrite <- Ei, <- Et. destruct Hgen as [Hg1 Hg2]. cbn in Hg1, Hg2.
  apply prefix_full; [done|]. cbn in *. congruence.
Qed.

Lemma genuine_frame n n' :
  genuine_node n -> disk_snapshot (persister n') = disk_snapshot (persister n) ->
  pendingSnapshot n' = pendingSnapshot n -> chunkTransfer n' = chunkTransfer n -> genuine_node n'.
Proof. intros [H1 H2 H3] Ed Ep Et. split; rewrite ?Ed, ?Ep, ?Et; done. Qed.

Lemma genuine_transfer_set n t :
  genuine_node n -> (forall t', t = Some t' -> genuine_transfer t') -> genuine_node (set_transfer n t).
Proof. intros [H1 H2 H3] Ht. by split. Qed.

Lemma genuine_step_down n f term n' :
  genuine_node n -> (if term >? currentTerm n then becomeFollowerLocked n f term else Some n) = Some n' ->
  genuine_node n'.
Proof.
  intros Hg. case_if; [|by intros [= <-]]. unfold becomeFollowerLocked, persistLocked.
  destruct (fail_term f); [done|]. intros [= <-]. by eapply genuine_frame.
Qed.

Lemma genuine_install n f index term data :
  genuine_node n -> data = S index term -> genuine_node (installSnapshot n f index term data).1.
Proof.
  intros Hg Hd. unfold installSnapshot, persistLocked.
  case_if; [by apply genuine_transfer_set|].
  assert (genuine_node (set_persister n (save_snapshot (persister n) (MkSnapshot index term data)))) as Hg1.
  { destruct Hg as [H1 H2 H3]. split; [|done|done]. by intros s [= <-]. }
  destruct (fail_state f); [by apply genuine_transfer_set|]. cbn [fst].
  destruct Hg1 as [H1 H2 H3]. case_if; (split; [done|by intros s [= <-]|done]).
Qed.

Lemma genuine_HandleInstallSnapshot n f args :
  genuine_node n -> deliverable args -> genuine_node (HandleInstallSnapshot n f args).1.
Proof.
  intros Hg Ha. unfold HandleInstallSnapshot.
  destruct (if is_Term args >? currentTerm n then _ else _) as [n1|] eqn:E; [|done].
  apply (genuine_step_down _ _ _ _ Hg) in E. clear Hg n. case_if; [done|].
  set (n2 := resetElectionTimerLocked _ _).
  assert (genuine_node n2) as Hg by (by eapply genuine_frame).
  case_if.
  { cbn [fst]. destruct (chunkTransfer n2); [case_if|]; try done. by apply genuine_transfer_set. }
  destruct (is_Chunked args) eqn:Ec.
  - destruct (receiveSnapshotChunkLocked _ _) as [t res] eqn:Er.
    destruct (receive_genuine _ _ _ _ (G_transfer _ Hg)
      ltac:(destruct Ha as [?|[[? _]|?]]; [by left|congruence|by right]) Er) as [Ht Hres].
    destruct res as [| |data]; [by apply genuine_transfer_set..|].
    apply genuine_install; [by apply genuine_transfer_set|by apply Hres].
  - apply genuine_install; [by apply genuine_transfer_set|].
    destruct Ha as [[? _]|[[_ ?]|[? _]]]; congruence || done.
Qed.

(** Requests to one receiver, each with its faults. *)
Fixpoint receive_all (n : Node) (rs : list (faults * InstallSnapshotArgs)) : Node :=
  match rs with
  | [] => n
  | (f, args) :: rs => receive_all (HandleInstallSnapshot n f args).1 rs
  end.

Lemma receive_all_genuine rs n :
  genuine_node n -> Forall (fun r => deliverable r.2) rs -> genuine_node (receive_all n rs).
Proof.
  intros Hg Hr. revert n Hg. induction Hr as [|[f args] rs Ha _ IH]; intros n Hg; [done|].
  cbn. apply IH. by apply genuine_HandleInstallSnapshot.
Qed.
End Genuine.

(** ** An undisturbed transfer *)

(** The chunk [snapshot_chunk] cuts at an offset of the data. *)
Lemma snapshot_chunk_cut n term snap offset :
  0 < c_snapshotChunkSize (cfg n) < 2 ^ 63 -> zlen (SnapshotData snap) < 2 ^ 63 ->
  0 <= offset <= zlen (SnapshotData snap) ->
  let args := snapshot_chunk n term snap offset in
  take (Z.to_nat offset) (SnapshotData snap) ++ is_Data args =
    take (Z.to_nat (offset + zlen (is_Data args))) (SnapshotData snap) /\
  offset + zlen (is_Data args) <= zlen (SnapshotData snap) /\
  (is_Final args = true <-> offset + zlen (is_Data args) = zlen (SnapshotData snap)) /\
  (is_Final args = false -> 0 < zlen (is_Data args)).
Proof.
  intros Hc Hd Ho. cbn. set (total := zlen (SnapshotData snap)) in *.
  rewrite (u64_small (offset + _)) by (unfold is_u64; lia).
  set (stop := if _ >? total then total else _).
  assert (offset <= stop <= total) as Hs by (unfold stop; case_if; zbool; lia).
  assert (zlen (slice (Z.to_nat offset) (Z.to_nat stop) (SnapshotData snap)) = stop - offset) as Hl.
  { unfold slice, zlen, total, zlen in *. rewrite length_take, length_drop. lia. }
  rewrite Hl. replace (offset + (stop - offset)) with stop by lia. split_and!.
  - unfold slice. rewrite <- (take_drop (Z.to_nat offset) (SnapshotData snap)) at 3.
    rewrite take_app. rewrite length_take, (Nat.min_l (Z.to_nat offset)) by (unfold total, zlen in *; lia).
    rewrite (take_ge (take _ _)) by (rewrite length_take; lia). done.
  - lia.
  - apply Z.eqb_eq.
  - intros Hf. zbool. unfold stop in *. case_if; zbool; lia.
Qed.

(** A fault-free chunk, at the offset the receiver waits for, that does not
    complete the transfer. *)
Definition no_faults (f : faults) : Prop := fail_term f = false /\ fail_state f = false /\ fail_snapshot f = false.

(** What the request's term and sender do before the chunk is looked at. *)
Definition enter (m : Node) (f : faults) (args : InstallSnapshotArgs) : Node :=
  resetElectionTimerLocked
    (set_role (default m (if is_Term args >? currentTerm m then becomeFollowerLocked m f (is_Term args) else Some m))
       Follower (is_LeaderID args)
       (votesReceived (default m (if is_Term args >? currentTerm m then becomeFollowerLocked m f (is_Term args)
                                  else Some m)))) (rnd f).

Lemma enter_fields m f args :
  no_faults f -> currentTerm m <= is_Term args ->
  currentTerm (enter m f args) = is_Term args /\ log (enter m f args) = log m /\
  chunkTransfer (enter m f args) = chunkTransfer m.
Proof.
  intros (Hf & _ & _) Ht. unfold enter, becomeFollowerLocked, persistLocked. rewrite Hf.
  case_if; zbool; cbn; [done|]. split_and!; try done. lia.
Qed.

Lemma HandleInstallSnapshot_enter m f args :
  no_faults f -> currentTerm m <= is_Term args -> base (log m) < is_LastIncludedIndex args ->
  is_Chunked args = true ->
  HandleInstallSnapshot m f args =
  let n := enter m f args in
  match receiveSnapshotChunkLocked (chunkTransfer m) args with
  | (t, ChunkRejected) => (set_transfer n t, MkISR (is_Term args) false)
  | (t, ChunkAccepted) => (set_transfer n t, MkISR (is_Term args) true)
  | (t, ChunkComplete data) =>
      installSnapshot (set_transfer n t) f (is_LastIncludedIndex args) (is_LastIncludedTerm args) data
  end.
Proof.
  intros Hf Ht Hb Hc. destruct (enter_fields m f args Hf Ht) as (Et & El & Etr).
  unfold HandleInstallSnapshot.
  assert (exists n1, (if is_Term args >? currentTerm m then becomeFollowerLocked m f (is_Term args) else Some m)
    = Some n1) as [n1 E1].
  { unfold becomeFollowerLocked, persistLocked. rewrite (proj1 Hf). case_if; eauto. }
  rewrite E1. assert (enter m f args = resetElectionTimerLocked
    (set_role n1 Follower (is_LeaderID args) (votesReceived n1)) (rnd f)) as En by (unfold enter; by rewrite E1).
  assert (currentTerm n1 = is_Term args) as Etn by (rewrite <- Et, En; done).
  rewrite <- En, Etn, Z.ltb_irrefl, El, Hc, (proj2 (Z.leb_gt _ _)), Etr by done.
  by destruct (receiveSnapshotChunkLocked _ _) as [t [| |]]; rewrite ?Et.
Qed.

(** The receiver is waiting for the byte at [offset]. *)
Definition waiting (cur : option inProgressSnapshotTransfer) (snap : Snapshot) (offset : Z) : Prop :=
  offset = 0 \/
  cur = Some (MkTransfer (LastIncludedIndex snap) (LastIncludedTerm snap) (zlen (SnapshotData snap))
                (take (Z.to_nat offset) (SnapshotData snap))).

Lemma receive_chunk cur n term snap offset :
  0 < c_snapshotChunkSize (cfg n) < 2 ^ 63 -> zlen (SnapshotData snap) <= maxSnapshotDataSize ->
  0 <= offset <= zlen (SnapshotData snap) -> waiting cur snap offset ->
  let args := snapshot_chunk n term snap offset in
  let stop := offset + zlen (is_Data args) in
  let t := MkTransfer (LastIncludedIndex snap) (LastIncludedTerm snap) (zlen (SnapshotData snap))
             (take (Z.to_nat stop) (SnapshotData snap)) in
  receiveSnapshotChunkLocked cur args =
  (Some t, if is_Final args then ChunkComplete (SnapshotData snap) else ChunkAccepted).
Proof.
  intros Hc Hd Ho Hw args stop t.
  assert (maxSnapshotDataSize < 2 ^ 63) as Hmax by (vm_compute; reflexivity).
  destruct (snapshot_chunk_cut n term snap offset Hc ltac:(lia) Ho) as (Hcut & Hle & Hfin & _).
  fold args in Hcut, Hle, Hfin. fold stop in Hcut, Hle, Hfin.
  unfold receiveSnapshotChunkLocked. change (is_TotalSize args) with (zlen (SnapshotData snap)).
  rewrite Z.gtb_ltb, (proj2 (Z.ltb_ge _ _)) by lia.
  set (tr := if is_Offset args =? 0 then _ else _).
  assert (tr = Some (MkTransfer (LastIncludedIndex snap) (LastIncludedTerm snap) (zlen (SnapshotData snap))
    (take (Z.to_nat offset) (SnapshotData snap)))) as ->.
  { unfold tr. change (is_Offset args) with offset. destruct (offset =? 0) eqn:E0; zbool; [by subst offset|].
    destruct Hw as [?| ->]; [done|]. cbn [t_lastIncludedIndex t_lastIncludedTerm t_totalSize t_buf].
    change (is_LastIncludedIndex args) with (LastIncludedIndex snap).
    change (is_LastIncludedTerm args) with (LastIncludedTerm snap). rewrite !Z.eqb_refl.
    replace (zlen (take (Z.to_nat offset) (SnapshotData snap))) with offset
      by (unfold zlen in *; rewrite length_take; lia).
    by rewrite Z.eqb_refl. }
  change (is_Checksum args) with (checksum (is_Data args)). rewrite Z.eqb_refl. cbn [negb t_totalSize t_buf
    t_lastIncludedIndex t_lastIncludedTerm].
  replace (zlen (take (Z.to_nat offset) (SnapshotData snap))) with offset
    by (unfold zlen in *; rewrite length_take; lia).
  fold stop. rewrite u64_small by (unfold is_u64, stop; zlen_lia).
  rewrite Z.gtb_ltb, (proj2 (Z.ltb_ge _ _)), Hcut by lia. fold t.
  destruct (is_Final args) eqn:Ef; [|done]. cbn [negb].
  rewrite (proj1 Hfin eq_refl), to_nat_zlen, firstn_all, Z.eqb_refl. cbn [negb].
  unfold t. by rewrite (proj1 Hfin eq_refl), to_nat_zlen, firstn_all.
Qed.

Lemma leader_continues n f peer term snap :
  role n = Leader -> currentTerm n = term ->
  onInstallSnapshotReply n f peer term snap false (MkISR term true) = (n, true).
Proof.
  intros Hr Ht. unfold onInstallSnapshotReply. cbn. rewrite Ht, Z.gtb_ltb, Z.ltb_irrefl, Z.eqb_refl.
  by rewrite bool_decide_eq_true_2.
Qed.

(** The sender's record of the receiver once the last chunk is answered. *)
Definition acknowledged (n : Node) (peer : bytes) (snap : Snapshot) : Node :=
  (onInstallSnapshotReply n calm_faults peer (currentTerm n) snap true (MkISR (currentTerm n) true)).1.

Lemma leader_done n f peer term snap :
  role n = Leader -> currentTerm n = term ->
  onInstallSnapshotReply n f peer term snap true (MkISR term true) = (acknowledged n peer snap, false).
Proof.
  intros Hr <-. unfold acknowledged, onInstallSnapshotReply. cbn.
  rewrite Z.gtb_ltb, Z.ltb_irrefl, Z.eqb_refl, bool_decide_eq_true_2 by done. done.
Qed.

(** The receiver has the snapshot. *)
Record installed (m : Node) (snap : Snapshot) : Prop := {
  in_pending : pendingSnapshot m = Some snap;
  in_disk : disk_snapshot (persister m) = Some snap;
  in_data : snapshotData m = SnapshotData snap;
  in_base : base (log m) = LastIncludedIndex snap;
  in_commit : LastIncludedIndex snap <= commitIndex m;
  in_transfer : chunkTransfer m = None }.

Lemma install_done m f index term data :
  no_faults f -> log_wf (log m) -> base (log m) < index -> index + 1 < 2 ^ 64 ->
  let '(m', reply) := installSnapshot m f index term data in
  installed m' (MkSnapshot index term data) /\ reply = MkISR (currentTerm m) true.
Proof.
  intros (_ & Hf1 & Hf2) Hw Hb Hu. unfold installSnapshot, persistLocked. rewrite Hf2, Hf1.
  change (log (set_persister ?a ?b)) with (log a).
  destruct (installSnapshotBoundary_spec (log m) index term Hw Hb Hu) as (_ & Hbl & _).
  case_if; zbool; (split; [|done]); split; try done; cbn in *; lia.
Qed.

Lemma send_loop_completes fuel net n m peer term snap offset :
  (forall k, exists fr fs, net k = Some (fr, fs) /\ no_faults fr) ->
  role n = Leader -> currentTerm n = term ->
  0 < c_snapshotChunkSize (cfg n) < 2 ^ 63 -> zlen (SnapshotData snap) <= maxSnapshotDataSize ->
  log_wf (log m) -> currentTerm m <= term -> base (log m) < LastIncludedIndex snap ->
  LastIncludedIndex snap + 1 < 2 ^ 64 ->
  0 <= offset <= zlen (SnapshotData snap) -> waiting (chunkTransfer m) snap offset ->
  zlen (SnapshotData snap) - offset < Z.of_nat fuel ->
  let '(n', m') := send_loop fuel net n m peer term snap offset in
  n' = acknowledged n peer snap /\ installed m' snap /\ currentTerm m' = term.
Proof.
  revert net m offset. induction fuel as [|fuel IH];
    intros net m offset Hnet Hr Ht Hc Hd Hw Htm Hb Hu Ho Hwait Hfuel; [lia|]. cbn [send_loop].
  destruct (Hnet 0%nat) as (fr & fs & -> & Hnf).
  set (args := snapshot_chunk n term snap offset).
  assert (maxSnapshotDataSize < 2 ^ 63) as Hmax by (vm_compute; reflexivity).
  destruct (snapshot_chunk_cut n term snap offset Hc ltac:(lia) Ho) as (_ & Hle & _ & Hpos). fold args in Hle, Hpos.
  pose proof (receive_chunk (chunkTransfer m) n term snap offset Hc Hd Ho Hwait) as Hrec. cbv zeta in Hrec.
  fold args in Hrec. destruct (enter_fields m fr args Hnf Htm) as (Et & El & _).
  rewrite (HandleInstallSnapshot_enter m fr args Hnf Htm Hb eq_refl), Hrec. cbv zeta.
  destruct (is_Final args) eqn:Ef.
  - pose proof (install_done (set_transfer (enter m fr args) (Some (MkTransfer (LastIncludedIndex snap)
      (LastIncludedTerm snap) (zlen (SnapshotData snap))
      (take (Z.to_nat (offset + zlen (is_Data args))) (SnapshotData snap))))) fr (LastIncludedIndex snap)
      (LastIncludedTerm snap) (SnapshotData snap) Hnf) as Hin.
    change (is_LastIncludedIndex args) with (LastIncludedIndex snap).
    change (is_LastIncludedTerm args) with (LastIncludedTerm snap).
    pose proof (quiet_installSnapshot (set_transfer (enter m fr args) (Some (MkTransfer (LastIncludedIndex snap)
      (LastIncludedTerm snap) (zlen (SnapshotData snap))
      (take (Z.to_nat (offset + zlen (is_Data args))) (SnapshotData snap))))) fr (LastIncludedIndex snap)
      (LastIncludedTerm snap) (SnapshotData snap)) as Hq.
    destruct (installSnapshot _ _ _ _ _) as [m' reply] eqn:Ei.
    change (log (set_transfer ?a ?b)) with (log a) in Hin. rewrite El in Hin.
    destruct Hin as [Hin ->]; [done|done|done|].
    change (currentTerm (set_transfer ?a ?b)) with (currentTerm a). rewrite Et.
    change (is_Term args) with term. rewrite leader_done by done.
    split_and!; [done|by destruct snap|].
    unfold installSnapshot, persistLocked in Ei. destruct Hnf as (_ & Hf1 & Hf2). rewrite Hf2, Hf1 in Ei.
    apply (f_equal fst) in Ei. cbn [fst] in Ei. rewrite <- Ei. case_if; exact Et.
  - change (is_Term args) with term. rewrite leader_continues by done.
    specialize (Hpos eq_refl).
    apply IH; change (log (set_transfer ?a ?b)) with (log a);
      change (currentTerm (set_transfer ?a ?b)) with (currentTerm a); rewrite ?El, ?Et; try done; try lia.
    by right.
Qed.

(** ** Theorems *)

(** A receiver only ever installs whole genuine snapshots: whatever
    requests reach it, chunks of any transfers mixed, lost, repeated, in any
    order or damaged in transit, with any faults of its disk, the snapshot
    on its stable storage and the one pending for its state machine are the
    cluster's snapshots at their index and term, and what it has received
    of a transfer is a prefix of one. *)
Theorem installed_snapshots_are_genuine (S : Z -> Z -> bytes) n rs :
  genuine_node S n -> Forall (fun r => deliverable S r.2) rs ->
  genuine_node S (receive_all n rs).
Proof. intros Hg Hr. by apply receive_all_genuine. Qed.

(** C14. A transfer completes: with no faults on the way, for every chunk
    size and every snapshot within the size limit, [sendInstallSnapshot] ends
    with the snapshot persisted and pending at the receiver, its log cut
    there and the commit index raised, and with the sender's record of the
    receiver updated. The sender is a leader, the receiver's term is not
    higher than the sender's, its log begins before the snapshot's index, and
    indices stay below 2^64. *)
Theorem snapshot_transfer_completes net n m peer snap :
  (forall k, exists fr fs, net k = Some (fr, fs) /\ no_faults fr) ->
  role n = Leader -> 0 < c_snapshotChunkSize (cfg n) < 2 ^ 63 ->
  zlen (SnapshotData snap) <= maxSnapshotDataSize ->
  log_wf (log m) -> currentTerm m <= currentTerm n ->
  base (log m) < LastIncludedIndex snap -> LastIncludedIndex snap + 1 < 2 ^ 64 ->
  let '(n', m') := sendInstallSnapshot net n m peer (currentTerm n) snap in
  installed m' snap /\ currentTerm m' = currentTerm n /\
  LastIncludedIndex snap <= match_of n' peer /\ LastIncludedIndex snap < next_of n' peer.
Proof.
  intros Hnet Hr Hc Hd Hw Ht Hb Hu.
  pose proof (send_loop_completes (S (length (SnapshotData snap))) net n m peer (currentTerm n) snap 0
    Hnet Hr eq_refl Hc Hd Hw Ht Hb Hu) as H. unfold sendInstallSnapshot.
  destruct (send_loop _ _ _ _ _ _ _ _) as [n' m'].
  destruct H as (-> & Hin & Htm); [unfold zlen; lia|by left|unfold zlen; lia|].
  split; [done|]. split; [done|]. unfold acknowledged, onInstallSnapshotReply. cbn [isr_Term isr_Success].
  rewrite Z.gtb_ltb, Z.ltb_irrefl, Z.eqb_refl, bool_decide_eq_true_2 by done. cbn [negb orb fst].
  pose proof (wf_base _ Hw). rewrite (u64_small (_ + 1)) by (unfold is_u64; lia).
  set (q := set_progress _ _ _).
  assert (forall p, match_of (maybeAdvanceCommitIndexLocked q) p = match_of q p /\
    next_of (maybeAdvanceCommitIndexLocked q) p = next_of q p) as Hq.
  { intros p. unfold maybeAdvanceCommitIndexLocked. by destruct (advance_loop _ _ _). }
  destruct (Hq peer) as [-> ->]. unfold q, match_of, next_of. cbn [matchIndex nextIndex set_progress].
  split; (case_if; zbool; [rewrite lookup_insert_eq; cbn; lia|unfold match_of, next_of in *; lia]).
Qed.

(** ** Witnesses *)

Definition tiny_snapshot : Snapshot := MkSnapshot 1 1 [x01; x02; x03; x04; x05; x06].
Definition calm_net : network := fun _ => Some (calm_faults, calm_faults).

Example snapshot_transfer_completes_witness :
  let '(n', m') := sendInstallSnapshot calm_net a2 (fresh_node nc) nc 1 tiny_snapshot in
  installed m' tiny_snapshot /\ match_of n' nc = 1.
Proof.
  pose proof (snapshot_transfer_completes calm_net a2 (fresh_node nc) nc tiny_snapshot
    ltac:(intros k; exists calm_faults, calm_faults; repeat split) eq_refl ltac:(split; reflexivity)
    ltac:(vm_compute; congruence) NewLog_wf ltac:(vm_compute; congruence) ltac:(reflexivity) ltac:(reflexivity)) as H.
  change (currentTerm a2) with 1 in H.
  assert (match_of (sendInstallSnapshot calm_net a2 (fresh_node nc) nc 1 tiny_snapshot).1 nc = 1) as Hm
    by (vm_compute; reflexivity).
  destruct (sendInstallSnapshot calm_net a2 (fresh_node nc) nc 1 tiny_snapshot) as [n' m'].
  exact (conj (proj1 H) Hm).
Defined.

(** A transfer interrupted by a damaged chunk, then repeated. *)
Definition tiny (i t : Z) : bytes := SnapshotData tiny_snapshot.
Definition tiny_chunk (offset : Z) : InstallSnapshotArgs := snapshot_chunk a2 1 tiny_snapshot offset.
Definition tiny_damaged : InstallSnapshotArgs := MkISA 1 na 1 1 [x09; x09] true 4 true 6 0.
Definition tiny_requests : list (faults * InstallSnapshotArgs) :=
  (fun a => (calm_faults, a)) <$>
  [tiny_chunk 0; tiny_damaged; tiny_chunk 4; tiny_chunk 0; tiny_chunk 4].

Example installed_snapshots_are_genuine_witness :
  genuine_node tiny (receive_all (fresh_node nc) tiny_requests) /\
  pendingSnapshot (receive_all (fresh_node nc) tiny_requests) = Some tiny_snapshot.
Proof.
  split; [|vm_compute; reflexivity].
  apply (installed_snapshots_are_genuine tiny (fresh_node nc) tiny_requests).
  - split; discriminate.
  - assert (forall o stop, 0 <= o -> is_Data (tiny_chunk o) = slice (Z.to_nat o) stop (tiny 1 1) ->
      deliverable tiny (tiny_chunk o)) as Hc.
    { intros o stop Ho Hd. left. split; [reflexivity|]. split; [reflexivity|]. split; [exact Ho|]. exists stop. exact Hd. }
    unfold tiny_requests. cbn [fmap list_fmap]. do 5 (try apply Forall_cons_2); try apply Forall_nil_2; cbn [snd].
    + apply (Hc 0 4%nat); [lia|vm_compute; reflexivity].
    + right. right. split; [reflexivity|vm_compute; discriminate].
    + apply (Hc 4 6%nat); [lia|vm_compute; reflexivity].
    + apply (Hc 0 4%nat); [lia|vm_compute; reflexivity].
    + apply (Hc 4 6%nat); [lia|vm_compute; reflexivity].
Defined.
