(* ===== verification/Applier.v ===== *)
(** * The applier

    internal/statemachine/applier.go: the only component that feeds a node's
    committed entries to its state machine. [ApplyAvailable] calls into the
    node several times, and the node's other goroutines run between those
    calls; [gap w k] is what they do in gap number [k]. *)

From S2P Require Import Prelude Bytes Codec Wal SkipList MemStore Command StateMachine.
From S2P Require Import SmSnapshot RaftLog RaftFormat RaftPersist RaftNode RaftElection RaftDurable RaftCommit.
From stdpp Require Import base tactics list numbers gmap sorting.
From Stdlib Require Import Strings.Byte.
From Stdlib Require Import ZArith Lia.
#[local] Open Scope Z_scope.

Inductive applier_error :=
| ErrRestoreSnapshot (e : snapshot_error)
| ErrConfirm (e : raft_error)
| ErrDecodeEntry
| ErrApplyEntry (e : apply_fault)
| ErrMark (e : raft_error)
| ErrNotLastApplied
| ErrCreate (e : snapshot_error)
| ErrPersistSnapshot (e : raft_error).

Section Applier.
Context {St Env : Type} `{Store St Env}.

Record Applier := MkApplier {
  ap_node : Node;
  ap_sm : KVStateMachine St }.

(** What one call meets: the node's other goroutines, and the storage
    environments of a restore's deletes and puts and of each [Apply]. *)
Record surroundings := MkSurroundings {
  gap : nat -> Node -> Node;
  env_delete : nat -> Env;
  env_put : nat -> Env;
  env_apply : nat -> Env }.
Implicit Types (a : Applier) (w : surroundings).

Definition restorePendingSnapshotLocked a w : Applier * result applier_error unit :=
  match pendingSnapshot (ap_node a) with
  | None => (a, Ok tt)
  | Some snap =>
      match RestoreSnapshot (ap_sm a) (env_delete w) (env_put w) (SnapshotData snap) with
      | (sm, Err e) => (MkApplier (ap_node a) sm, Err (ErrRestoreSnapshot e))
      | (sm, Ok _) =>
          match ConfirmSnapshotRestored (gap w 0 (ap_node a)) (LastIncludedIndex snap) with
          | (n, Err e) => (MkApplier n sm, Err (ErrConfirm e))
          | (n, Ok _) => (MkApplier n sm, Ok tt)
          end
      end
  end.

(** The loop, with the number of entries applied so far. *)
Fixpoint apply_entries w (k : nat) a (entries : list LogEntry) (applied : Z) :
    Applier * Z * result applier_error unit :=
  match entries with
  | [] => (a, applied, Ok tt)
  | entry :: entries =>
      match DecodeCommand (e_Command entry) with
      | Done cmd =>
          match Apply (ap_sm a) (env_apply w k) cmd with
          | (sm, Err f) => (MkApplier (ap_node a) sm, applied, Err (ErrApplyEntry f))
          | (sm, Ok _) =>
              match MarkApplied (gap w (3 + k) (ap_node a)) (e_Index entry) with
              | (n, Err e) => (MkApplier n sm, applied, Err (ErrMark e))
              | (n, Ok _) => apply_entries w (S k) (MkApplier n sm) entries (applied + 1)
              end
          end
      | _ => (a, applied, Err ErrDecodeEntry)
      end
  end.

Definition ApplyAvailable a w : Applier * Z * result applier_error unit :=
  match restorePendingSnapshotLocked a w with
  | (a, Err e) => (a, 0, Err e)
  | (a, Ok _) =>
      let n := gap w 1 (ap_node a) in
      let from := u64 (lastApplied n + 1) in
      let n := gap w 2 n in
      apply_entries w 0 (MkApplier n (ap_sm a)) (CommittedEntries n from) 0
  end.

(** [order] is the order in which Go iterates over the deduplication
    table. *)
Definition CreateSnapshot a w (f : faults) (order : list (bytes * dedupEntry)) (index : Z) :
    Applier * result applier_error unit :=
  if negb (index =? lastApplied (ap_node a)) then (a, Err ErrNotLastApplied)
  else match SmSnapshot.CreateSnapshot (ap_sm a) order with
       | Err e => (a, Err (ErrCreate e))
       | Ok data =>
           match RaftNode.CreateSnapshot (gap w 0 (ap_node a)) f index data with
           | (n, Err e) => (MkApplier n (ap_sm a), Err (ErrPersistSnapshot e))
           | (n, Ok _) => (MkApplier n (ap_sm a), Ok tt)
           end
       end.
End Applier.
Arguments Applier : clear implicits.
Arguments surroundings : clear implicits.

Lemma RestoreSnapshot_inv {St Env} `{Store St Env, !StoreLaws St Env} (sm : KVStateMachine St) e1 e2 data sm' r :
  sm_inv sm -> RestoreSnapshot sm e1 e2 data = (sm', r) -> sm_inv sm'.
Proof.
  intros Hi. unfold RestoreSnapshot. destruct (decodeKVStateMachineSnapshot data) as [[kv dd]| |];
    [|by intros [= <- <-]..].
  destruct (delete_all _ _ _) as [st [[]|e]] eqn:E1; destruct (delete_all_spec _ _ _ _ _ Hi E1) as [Hi1 _];
    [|by intros [= <- <-]].
  destruct (put_all _ _ _) as [st' [[]|e]] eqn:E2; destruct (put_all_spec _ _ _ _ _ Hi1 E2) as [Hi2 _];
    by intros [= <- <-].
Qed.

(** ** Applying a log of commands in order

    [cmds] is the sequence of committed commands, index 1 first, and [m0]
    what the store held before any of them. *)
Section InOrder.
Context {St Env : Type} `{Store St Env, !StoreLaws St Env}.
Context (m0 : gmap bytes bytes) (cmds : list Command).

Definition state_at (k : Z) : spec_state := (spec_run (m0, ∅) (take (Z.to_nat k) cmds)).1.

(** The snapshot's bytes hold the state after the commands it covers. *)
Definition snapshot_of (s : Snapshot) : Prop :=
  exists kv dedup, decodeKVStateMachineSnapshot (SnapshotData s) = Done (kv, dedup) /\ NoDup kv.*1 /\
    Forall (fun e => storable e.1 e.2) kv /\ (list_to_map kv, dedup) = state_at (LastIncludedIndex s).

(** The node's committed entries are the commands, and what a snapshot
    replaced is either applied or waiting to be restored. *)
Record good (n : Node) : Prop := {
  g_log : log_wf (log n);
  g_applied : 0 <= lastApplied n <= commitIndex n;
  g_commit : commitIndex n <= LastIndex (log n);
  g_entries : forall i e, base (log n) < i <= commitIndex n -> EntryAt (log n) i = Some e ->
    exists c, cmds !! Z.to_nat (i - 1) = Some c /\ DecodeCommand (e_Command e) = Done c /\ encodable c;
  g_base : match pendingSnapshot n with
           | Some s => lastApplied n < LastIncludedIndex s /\ snapshot_of s /\ base (log n) <= LastIncludedIndex s
           | None => base (log n) <= lastApplied n
           end }.

(** What the node's other goroutines may do between two calls: everything
    but apply, and install a snapshot of something already committed
    here. *)
Definition rely (n n' : Node) : Prop :=
  good n' /\ lastApplied n' = lastApplied n /\ commitIndex n <= commitIndex n' /\
  (pendingSnapshot n' = pendingSnapshot n \/
   exists s, pendingSnapshot n' = Some s /\ commitIndex n < LastIncludedIndex s).

(** No snapshot is installed between the check for one and the reading of
    the committed entries. *)
Definition gaps_ok (w : surroundings Env) : Prop :=
  forall k n, good n -> rely n (gap w k n) /\
    (k = 1%nat \/ k = 2%nat -> pendingSnapshot (gap w k n) = pendingSnapshot n).

(** The state machine holds the applied prefix, unless a snapshot must be
    restored first. *)
Definition synced (a : Applier St) : Prop :=
  sm_inv (ap_sm a) /\ good (ap_node a) /\
  (pendingSnapshot (ap_node a) = None -> abs (ap_sm a) = state_at (lastApplied (ap_node a))).

Lemma spec_run_app s l1 l2 : (spec_run s (l1 ++ l2)).1 = (spec_run (spec_run s l1).1 l2).1.
Proof using Type.
  revert s. induction l1 as [|c l1 IH]; intros s; [done|]. cbn.
  destruct (spec_apply s c) as [s1 r]. specialize (IH s1).
  destruct (spec_run s1 (l1 ++ l2)), (spec_run s1 l1). cbn in *. done.
Qed.

Lemma state_at_step k c :
  0 <= k -> cmds !! Z.to_nat k = Some c -> state_at (k + 1) = (spec_apply (state_at k) c).1.
Proof using Type.
  intros Hk Hc. unfold state_at. replace (Z.to_nat (k + 1)) with (S (Z.to_nat k)) by lia.
  rewrite (take_S_r _ _ _ Hc), spec_run_app. cbn. by destruct (spec_apply _ c).
Qed.

Ltac stays := split; [split; [done|split; [done|cbn; congruence]]|cbn; split_and!; done || lia].

Lemma restore_step a w a' r :
  gaps_ok w -> synced a -> restorePendingSnapshotLocked a w = (a', r) ->
  synced a' /\ lastApplied (ap_node a) <= lastApplied (ap_node a') /\
  commitIndex (ap_node a) <= commitIndex (ap_node a') /\
  (r = Ok tt -> pendingSnapshot (ap_node a') = None).
Proof using All.
  intros Hw Hsy. pose proof Hsy as (Hi & Hg & Hs). unfold restorePendingSnapshotLocked.
  destruct (pendingSnapshot (ap_node a)) as [s|] eqn:Ep.
  2: { intros [= <- <-]. done. }
  destruct (RestoreSnapshot _ _ _ _) as [sm r1] eqn:Er. pose proof (RestoreSnapshot_inv _ _ _ _ _ _ Hi Er) as Hi1.
  pose proof (g_base _ Hg) as Hb. rewrite Ep in Hb. destruct Hb as (Hlt & (kv & dd & Hdec & Hnd & Hst & Heq) & Hb).
  destruct (RestoreSnapshot_spec _ _ _ _ _ _ _ _ Hi Hdec Hnd Er) as [Hok _].
  destruct r1 as [[]|e].
  2: { intros [= <- <-]. stays. }
  destruct (Hw 0%nat _ Hg) as [(Hg1 & Ha & Hc & Hp) _]. set (n1 := gap w 0 (ap_node a)) in *.
  unfold ConfirmSnapshotRestored. destruct (pendingSnapshot n1) as [s1|] eqn:Ep1.
  2: { destruct Hp as [Hp|(? & ? & _)]; congruence. }
  case_if.
  { intros [= <- <-]. stays. }
  case_if.
  { intros [= <- <-]. stays. }
  zbool. intros [= <- <-]. cbn. pose proof (g_base _ Hg1) as Hb1. rewrite Ep1 in Hb1. destruct Hb1 as (Hlt1 & _ & Hb1).
  assert (LastIncludedIndex s >? lastApplied n1 = true) as -> by lia.
  split; [|cbn; split_and!; done || lia]. split; [done|]. cbn. split.
  - destruct Hg1 as [G1 G2 G3 G4 G5]. split; cbn; try done; lia.
  - intros _. by rewrite Hok.
Qed.

(** The entries at [i], [i+1], ... of the committed sequence. *)
Definition committed_run (i : Z) (entries : list LogEntry) : Prop :=
  forall k e, entries !! k = Some e -> e_Index e = i + Z.of_nat k /\
    exists c, cmds !! Z.to_nat (i + Z.of_nat k - 1) = Some c /\ DecodeCommand (e_Command e) = Done c /\ encodable c.

Lemma committed_run_cons i e entries :
  committed_run i (e :: entries) -> e_Index e = i /\ committed_run (i + 1) entries /\
  exists c, cmds !! Z.to_nat (i - 1) = Some c /\ DecodeCommand (e_Command e) = Done c /\ encodable c.
Proof using Type.
  intros Hr. destruct (Hr 0%nat e eq_refl) as (Hi & Hc).
  replace (i + Z.of_nat 0) with i in * by lia. split; [done|]. split; [|done].
  intros k e' Hk. destruct (Hr (S k) e' Hk) as (Hi' & Hc').
  replace (i + Z.of_nat (S k)) with (i + 1 + Z.of_nat k) in * by lia. done.
Qed.

Lemma apply_step w k a entries applied a' applied' r F :
  gaps_ok w -> synced a -> abs (ap_sm a) = state_at (lastApplied (ap_node a)) ->
  (forall s, pendingSnapshot (ap_node a) = Some s -> F < LastIncludedIndex s) ->
  F <= commitIndex (ap_node a) ->
  lastApplied (ap_node a) + zlen entries = F ->
  committed_run (lastApplied (ap_node a) + 1) entries ->
  apply_entries w k a entries applied = (a', applied', r) ->
  synced a' /\ abs (ap_sm a') = state_at (lastApplied (ap_node a')) /\
  applied' - applied = lastApplied (ap_node a') - lastApplied (ap_node a) /\
  lastApplied (ap_node a) <= lastApplied (ap_node a') <= F /\
  (r = Ok tt -> lastApplied (ap_node a') = F) /\
  ((forall i, store_calm (env_apply w i)) -> r = Ok tt).
Proof using All.
  intros Hw. revert k a applied. induction entries as [|e entries IH]; intros k a applied (Hi & Hg & Hs) Habs Hpend HF Hlen Hrun; cbn.
  { intros [= <- <- <-]. rewrite zlen_nil in Hlen. split; [by split|]. split_and!; done || lia. }
  destruct (committed_run_cons _ _ _ Hrun) as (Hidx & Hrun' & c & Hc & Hdec & Henc).
  rewrite zlen_cons in Hlen. pose proof (zlen_nonneg entries). pose proof (g_applied _ Hg).
  rewrite Hdec. destruct (Apply (ap_sm a) (env_apply w k) c) as [sm res] eqn:Ea.
  destruct (Apply_spec _ _ _ _ _ Hi Ea) as [Hi1 Hsp]. destruct res as [res|f].
  2: { intros [= <- <- <-]. cbn. split; [split; [done|split; [done|intros _; cbn; congruence]]|].
       split_and!; try lia; [congruence|done|]. intros Hcalm. pose proof (Apply_total (ap_sm a) (env_apply w k) c Hi (Hcalm k) Henc) as Ht.
       by rewrite Ea in Ht. }
  destruct (Hw (3 + k)%nat _ Hg) as [(Hg1 & Hla & Hci & Hp) _]. set (n1 := gap w (3 + k) (ap_node a)) in *.
  change (S (S (S k))) with (3 + k)%nat. fold n1. unfold MarkApplied. rewrite Hidx, Hla.
  rewrite (proj2 (Z.leb_gt _ _)) by lia. rewrite Z.gtb_ltb, (proj2 (Z.ltb_ge _ _)) by lia.
  intros Hrest.
  assert (forall s, pendingSnapshot n1 = Some s -> F < LastIncludedIndex s) as Hpend1.
  { intros s Hs1. destruct Hp as [Hp|(s' & Hs' & Hlt)]; [apply Hpend; congruence|].
    rewrite Hs1 in Hs'. injection Hs' as <-. lia. }
  assert (state_at (lastApplied (ap_node a) + 1) = abs sm) as Hst.
  { rewrite (state_at_step _ c) by (lia || (rewrite <- Hc; f_equal; lia)). by rewrite <- Habs, Hsp. }
  apply IH in Hrest; cbn; try done; try lia.
  - cbn in Hrest. destruct Hrest as (Q1 & Q2 & Q3 & Q4 & Q5 & Q6). split; [done|].
    split_and!; done || lia.
  - split; [done|]. cbn. split; [|by intros _].
    destruct Hg1 as [G1 G2 G3 G4 G5]. split; cbn; try done; [lia|].
    destruct (pendingSnapshot n1) as [s|] eqn:Es; [|lia].
    destruct G5 as (? & ? & ?). specialize (Hpend1 s eq_refl). split_and!; done || lia.
Qed.

Lemma fetch_run n :
  good n -> pendingSnapshot n = None ->
  let entries := CommittedEntries n (u64 (lastApplied n + 1)) in
  lastApplied n + zlen entries = commitIndex n /\ committed_run (lastApplied n + 1) entries.
Proof using Type.
  intros [G1 G2 G3 G4 G5] Hp. rewrite Hp in G5. pose proof (LastIndex_bound _ G1).
  rewrite u64_small by (unfold is_u64; lia). unfold CommittedEntries.
  rewrite (proj2 (Z.eqb_neq _ _)) by lia. case_if; zbool.
  { split; [rewrite zlen_nil; lia|]. intros k e Hk. by rewrite lookup_nil in Hk. }
  destruct (Range_spec (log n) (lastApplied n + 1) (commitIndex n) G1 ltac:(lia) ltac:(lia) G3)
    as (Hlen & Hat & Hnum).
  split; [unfold zlen; rewrite Hlen; lia|]. intros k e Hk. split; [by apply Hnum|].
  pose proof (lookup_lt_Some _ _ _ Hk) as Hlt. rewrite Hlen in Hlt.
  specialize (Hat (Z.of_nat k) ltac:(lia)). rewrite Nat2Z.id, Hk in Hat.
  apply (G4 (lastApplied n + 1 + Z.of_nat k) e); [lia|done].
Qed.

Lemma ApplyAvailable_spec a w a' applied r :
  gaps_ok w -> synced a -> ApplyAvailable a w = (a', applied, r) ->
  synced a' /\ lastApplied (ap_node a) <= lastApplied (ap_node a') /\
  (r = Ok tt -> abs (ap_sm a') = state_at (lastApplied (ap_node a')) /\
                commitIndex (ap_node a) <= lastApplied (ap_node a')) /\
  ((forall i, store_calm (env_apply w i)) -> pendingSnapshot (ap_node a) = None -> r = Ok tt).
Proof using All.
  intros Hw Hs. unfold ApplyAvailable. destruct (restorePendingSnapshotLocked a w) as [a1 r1] eqn:Er.
  destruct (restore_step _ _ _ _ Hw Hs Er) as ((Hi1 & Hg1 & Hs1) & Hla1 & Hci1 & Hp1).
  destruct r1 as [[]|e].
  2: { intros [= <- <- <-]. split_and!; try done. intros _ Hp. unfold restorePendingSnapshotLocked in Er.
       by rewrite Hp in Er. }
  specialize (Hp1 eq_refl). destruct (Hw 1%nat _ Hg1) as [(Hg2 & Ha2 & Hc2 & _) Hp2].
  specialize (Hp2 ltac:(by left)). rewrite Hp1 in Hp2.
  destruct (Hw 2%nat _ Hg2) as [(Hg3 & Ha3 & Hc3 & _) Hp3]. specialize (Hp3 ltac:(by right)). rewrite Hp2 in Hp3.
  set (n := gap w 2 (gap w 1 (ap_node a1))) in *. intros Happ.
  rewrite <- Ha3 in Happ. destruct (fetch_run n Hg3 Hp3) as [Hlen Hrun].
  apply (apply_step _ _ _ _ _ _ _ _ (commitIndex n)) in Happ; cbn; try done.
  - cbn in Happ. destruct Happ as (Q1 & Q2 & Q3 & Q4 & Q5 & Q6). split; [done|].
    split_and!; [lia| |].
    + intros Hr. split; [done|]. rewrite (Q5 Hr). lia.
    + auto.
  - split; [done|]. cbn. split; [done|]. intros _. rewrite Ha3, Ha2. by apply Hs1.
  - rewrite Ha3, Ha2. by apply Hs1.
  - congruence.
Qed.
End InOrder.

(** ** Replaying the log over a store that kept its data

    The store has its own write-ahead log, so after a restart the applier
    replays the log from the first command over a store that already holds
    the effect of some prefix. *)

Lemma spec_execute_result m m' cmd : (spec_execute m cmd).2 = (spec_execute m' cmd).2.
Proof. unfold spec_execute. by repeat case_bool_decide. Qed.

(** Deduplication and results do not depend on the stored data. *)
Lemma spec_apply_frame m m' d cmd :
  (spec_apply (m, d) cmd).1.2 = (spec_apply (m', d) cmd).1.2 /\
  (spec_apply (m, d) cmd).2 = (spec_apply (m', d) cmd).2.
Proof.
  pose proof (spec_execute_result m m' cmd) as Hr. unfold spec_apply. cbn.
  destruct (spec_execute m cmd), (spec_execute m' cmd). cbn in Hr. subst.
  destruct (d !! ClientID cmd); [repeat case_if|]; done.
Qed.

(** What a key holds after a run is fixed by the commands, or is what it held
    before. *)
Definition fixed (f : gmap bytes bytes -> option bytes) : Prop := exists v, forall m, f m = v.

Lemma spec_apply_key d cmd k :
  fixed (fun m => (spec_apply (m, d) cmd).1.1 !! k) \/ (forall m, (spec_apply (m, d) cmd).1.1 !! k = m !! k).
Proof.
  assert (fixed (fun m => (spec_execute m cmd).1 !! k) \/ (forall m, (spec_execute m cmd).1 !! k = m !! k)) as He.
  { unfold spec_execute. case_bool_decide; [by right|]. destruct (decide (k = Key cmd)) as [->|Hne].
    - left. case_bool_decide; eexists; intros m; cbn; [apply lookup_insert_eq|apply lookup_delete_eq].
    - right. intros m. case_bool_decide; cbn; [by rewrite lookup_insert_ne|by rewrite lookup_delete_ne]. }
  assert (forall m, (let '(m', res) := spec_execute m cmd in
    ((m', <[ClientID cmd:=record_of cmd res]> d), res)).1.1 = (spec_execute m cmd).1) as Hf.
  { intros m. by destruct (spec_execute m cmd). }
  unfold spec_apply. cbn. destruct (d !! ClientID cmd) as [prev|].
  - repeat case_if; try (by right). destruct He as [[v He]|He]; [left; exists v|right]; intros m; by rewrite Hf.
  - destruct He as [[v He]|He]; [left; exists v|right]; intros m; by rewrite Hf.
Qed.

Lemma spec_run_key d cmds k :
  fixed (fun m => (spec_run (m, d) cmds).1.1 !! k) \/ (forall m, (spec_run (m, d) cmds).1.1 !! k = m !! k).
Proof.
  revert d. induction cmds as [|c cmds IH]; intros d; [by right|].
  assert (exists d', forall m, spec_apply (m, d) c = (((spec_apply (m, d) c).1.1, d'), (spec_apply (m, d) c).2)) as [d' Hd].
  { exists (spec_apply (∅, d) c).1.2. intros m. rewrite <- (proj1 (spec_apply_frame m ∅ d c)).
    by destruct (spec_apply (m, d) c) as [[]]. }
  assert (forall m, (spec_run (m, d) (c :: cmds)).1 = (spec_run ((spec_apply (m, d) c).1.1, d') cmds).1) as Hrun.
  { intros m. cbn. rewrite (Hd m) at 1. by destruct (spec_run (_, d') cmds). }
  destruct (IH d') as [[v Hv]|Hk].
  - left. exists v. intros m. by rewrite Hrun.
  - destruct (spec_apply_key d c k) as [[v Hv]|Hk']; [left; exists v|right]; intros m; rewrite Hrun, Hk; done.
Qed.

Lemma spec_run_dedup m m' d cmds : (spec_run (m, d) cmds).1.2 = (spec_run (m', d) cmds).1.2.
Proof.
  revert m m' d. induction cmds as [|c cmds IH]; intros m m' d; [done|]. cbn.
  pose proof (proj1 (spec_apply_frame m m' d c)) as Hd.
  destruct (spec_apply (m, d) c) as [[m1 d1] r1], (spec_apply (m', d) c) as [[m2 d2] r2]. cbn in Hd. subst d2.
  specialize (IH m1 m2 d1). by destruct (spec_run (m1, d1) cmds), (spec_run (m2, d1) cmds).
Qed.

(** Running all the commands over the result of running a prefix of them. *)
Lemma spec_run_again cmds rest :
  (spec_run ((spec_run (∅, ∅) cmds).1.1, ∅) (cmds ++ rest)).1 = (spec_run (∅, ∅) (cmds ++ rest)).1.
Proof.
  set (m := (spec_run (∅, ∅) cmds).1.1).
  pose proof (spec_run_dedup m ∅ ∅ (cmds ++ rest)) as Hd.
  assert ((spec_run (m, ∅) (cmds ++ rest)).1.1 = (spec_run (∅, ∅) (cmds ++ rest)).1.1) as Hm.
  { apply map_eq. intros k. destruct (spec_run_key ∅ (cmds ++ rest) k) as [[v Hv]|Hk]; [by rewrite !Hv|].
    rewrite !Hk. unfold m. destruct (spec_run_key ∅ cmds k) as [[v Hv]|Hk']; [|by rewrite Hk'].
    assert (forall m, (spec_run (m, ∅) (cmds ++ rest)).1 =
      (spec_run ((spec_run (m, ∅) cmds).1.1, (spec_run (∅, ∅) cmds).1.2) rest).1) as Happ.
    { intros m1. rewrite spec_run_app. rewrite <- (spec_run_dedup m1 ∅ ∅ cmds).
      by destruct (spec_run (m1, ∅) cmds) as [[]]. }
    destruct (spec_run_key (spec_run (∅, ∅) cmds).1.2 rest k) as [[v' Hv']|Hk''].
    - pose proof (Hk ∅) as H0. pose proof (Hk {[k := []]}) as H1. rewrite Happ, Hv' in H0, H1.
      rewrite H0, lookup_empty, lookup_singleton_eq in H1. done.
    - pose proof (Hk ∅) as H0. pose proof (Hk {[k := []]}) as H1. rewrite Happ, Hk'', Hv in H0, H1.
      rewrite H0, lookup_empty, lookup_singleton_eq in H1. done. }
  destruct (spec_run (m, ∅) (cmds ++ rest)) as [[] ?], (spec_run (∅, ∅) (cmds ++ rest)) as [[] ?].
  cbn in *. congruence.
Qed.

(** ** What the applier's snapshots hold *)

Lemma spec_apply_dedup_ok s c :
  encodable c -> is_u64 (RequestID c) -> dedup_ok s.2 -> dedup_ok (spec_apply s c).1.2.
Proof.
  intros (Hop & _) Hu Hd. unfold spec_apply.
  assert (forall res, dedup_ok (<[ClientID c := record_of c res]> s.2)) as Hnew.
  { intros res. by apply map_Forall_insert_2. }
  destruct (spec_execute s.1 c). destruct (s.2 !! ClientID c); [repeat case_if|]; cbn; auto.
Qed.

Lemma spec_run_dedup_ok s cmds :
  Forall (fun c => encodable c /\ is_u64 (RequestID c)) cmds -> dedup_ok s.2 -> dedup_ok (spec_run s cmds).1.2.
Proof.
  intros Hc. revert s. induction Hc as [|c cmds [Hc Hu] _ IH]; intros s Hd; [done|]. cbn.
  pose proof (spec_apply_dedup_ok s c Hc Hu Hd) as Hd1. destruct (spec_apply s c) as [s1 r].
  specialize (IH s1 Hd1). by destruct (spec_run s1 cmds).
Qed.

Lemma captured_snapshot {St Env} `{Store St Env, !StoreLaws St Env} m0 cmds (sm : KVStateMachine St) order
    data index term :
  Forall (fun c => encodable c /\ is_u64 (RequestID c)) cmds -> sm_inv sm -> abs sm = state_at m0 cmds index ->
  order ≡ₚ map_to_list (sm_dedup sm) -> SmSnapshot.CreateSnapshot sm order = Ok data ->
  zlen data <= smMaxSnapshotBytes -> snapshot_of m0 cmds (MkSnapshot index term data).
Proof.
  intros Hc Hi Habs Ho Hcr Hlen. exists (store_Snapshot (sm_store sm)), (sm_dedup sm).
  assert (dedup_ok (sm_dedup sm)) as Hd.
  { change (sm_dedup sm) with (abs sm).2. rewrite Habs. apply spec_run_dedup_ok; [by apply Forall_take|].
    apply map_Forall_empty. }
  destruct (store_Snapshot_law (sm_store sm) Hi) as [Hsorted Hmap]. split_and!.
  - pose proof (decode_encode_snapshot _ _ _ Hcr (sorted_rows_good _ _ Hd Ho) Hlen) as Hdec.
    by rewrite (table_of_sorted _ _ Ho) in Hdec.
  - by apply sorted_keys_NoDup.
  - apply Forall_forall. intros [k v] Hin. apply (store_view_storable _ Hi). rewrite <- Hmap.
    apply elem_of_list_to_map_1; [by apply sorted_keys_NoDup|done].
  - rewrite Hmap. exact Habs.
Qed.

(** ** Theorems *)

(** Commands are applied in order and exactly once: whatever the node's
    other goroutines do between the applier's calls (short of installing a
    snapshot of something the node has already committed), and whatever
    storage faults happen, [ApplyAvailable] leaves the state machine in the
    state of the specification after exactly the commands up to
    [LastApplied], or with a snapshot still to be restored; [LastApplied]
    only grows; success means that everything committed when it was called
    is applied, and with a working disk and no snapshot pending it
    succeeds. *)
Theorem ApplyAvailable_in_order {St Env} `{Store St Env, !StoreLaws St Env} (m0 : gmap bytes bytes)
    (cmds : list Command) (a : Applier St) (w : surroundings Env) a' applied r :
  gaps_ok m0 cmds w -> synced m0 cmds a -> ApplyAvailable a w = (a', applied, r) ->
  synced m0 cmds a' /\ lastApplied (ap_node a) <= lastApplied (ap_node a') /\
  (r = Ok tt -> abs (ap_sm a') = state_at m0 cmds (lastApplied (ap_node a')) /\
                commitIndex (ap_node a) <= lastApplied (ap_node a')) /\
  ((forall i, store_calm (env_apply w i)) -> pendingSnapshot (ap_node a) = None -> r = Ok tt).
Proof. apply ApplyAvailable_spec. Qed.

(** A snapshot captures the state at its index: when the applier's
    [CreateSnapshot] succeeds, the snapshot on stable storage decodes to the
    specification's state after exactly the commands up to its index, so
    that a restore from it is a restore of that state. *)
Theorem CreateSnapshot_captures {St Env} `{Store St Env, !StoreLaws St Env} (m0 : gmap bytes bytes)
    (cmds : list Command) (a : Applier St) (w : surroundings Env) f order index a' :
  Forall (fun c => encodable c /\ is_u64 (RequestID c)) cmds ->
  synced m0 cmds a -> pendingSnapshot (ap_node a) = None ->
  order ≡ₚ map_to_list (sm_dedup (ap_sm a)) ->
  CreateSnapshot a w f order index = (a', Ok tt) ->
  exists s, disk_snapshot (persister (ap_node a')) = Some s /\ LastIncludedIndex s = index /\
    index = lastApplied (ap_node a) /\ base (log (ap_node a')) = index /\ ap_sm a' = ap_sm a /\
    (zlen (SnapshotData s) <= smMaxSnapshotBytes -> snapshot_of m0 cmds s).
Proof.
  intros Hc (Hi & _ & Habs) Hp Ho. specialize (Habs Hp). unfold CreateSnapshot. case_if; [done|]. zbool. subst index.
  destruct (SmSnapshot.CreateSnapshot (ap_sm a) order) as [data|] eqn:Ed; [|done].
  destruct (RaftNode.CreateSnapshot _ _ _ _) as [n [[]|e]] eqn:En; [|done]. intros [= <-]. cbn.
  unfold RaftNode.CreateSnapshot in En. repeat (destruct (_ : bool) in En; [done|]).
  destruct (TermAt _ _) as [term|]; [|done]. destruct (fail_snapshot f); [done|].
  unfold compact, persistLocked in En. destruct (TermAt _ _) as [term'|]; [|done].
  destruct (fail_state f); [done|]. injection En as <-.
  eexists. split; [reflexivity|]. do 4 (split; [done|]). intros Hlen. by apply (captured_snapshot m0 cmds (ap_sm a) order).
Qed.

(** Replaying the log after a restart converges: a new state machine
    over a store that already holds the effect of any prefix of the
    committed commands, once it has applied all of them, is in the same
    state as one that started from nothing, deduplication table
    included. *)
Theorem replay_converges {St Env} `{Store St Env, !StoreLaws St Env} (store : St)
    (entries : list (Env * Command)) sm rs done_before rest :
  store_inv store -> store_view store = (spec_run (∅, ∅) done_before).1.1 ->
  run (NewKVStateMachine store) entries = (sm, rs) -> (resolved entries rs).*1 = done_before ++ rest ->
  abs sm = (spec_run (∅, ∅) (done_before ++ rest)).1.
Proof.
  intros Hi Hv E Hr. destruct (run_spec (NewKVStateMachine store) _ _ _ Hi E) as [_ Hs].
  unfold abs in Hs at 1. cbn in Hs. rewrite Hv, Hr in Hs. rewrite <- (spec_run_again done_before rest), Hs. done.
Qed.

(** ** A snapshot of something already applied *)

Definition put1 : Command := NewPutCommand [x63] 1 [x6b] [x31].
Definition put2 : Command := NewPutCommand [x63] 2 [x6b] [x32].
Definition entry_of (i : Z) (c : Command) : LogEntry := MkEntry i 1 (command_bytes c).

(** A follower replicates, commits and applies both commands. *)
Definition follower1 : Node :=
  (HandleAppendEntries (fresh_node nb) calm_faults (MkAEA 1 na 0 0 [entry_of 1 put1; entry_of 2 put2] 2)).1.
Definition quietly : surroundings store_env :=
  MkSurroundings (fun _ n => n) (fun _ => sample_env) (fun _ => sample_env) (fun _ => sample_env).
Definition replica1 : Applier MemStore := MkApplier follower1 (NewKVStateMachine sample_store).
Definition replica2 : Applier MemStore := (ApplyAvailable replica1 quietly).1.1.

(** The leader's snapshot through index 1, taken before it applied index 2. *)
Definition one_applied : KVStateMachine MemStore :=
  (Apply (NewKVStateMachine sample_store) sample_env put1).1.
Definition old_snapshot : bytes :=
  match SmSnapshot.CreateSnapshot one_applied (map_to_list (sm_dedup one_applied)) with Ok b => b | Err _ => [] end.
Definition late_install : InstallSnapshotArgs := MkISA 1 na 1 1 old_snapshot false 0 false 0 0.
Definition replica3 : Applier MemStore :=
  MkApplier (HandleInstallSnapshot (ap_node replica2) calm_faults late_install).1 (ap_sm replica2).
Definition replica4 : Applier MemStore := (ApplyAvailable replica3 quietly).1.1.

(** A replica can lose an applied command: a snapshot through index 1
    that reaches a follower which has applied index 2 is installed, and
    restoring it takes the state machine back to index 1 while [LastApplied]
    stays at 2, so index 2 is never applied again; every call reports
    success. *)
Theorem late_snapshot_loses_command :
  ApplyAvailable replica1 quietly = (replica2, 2, Ok tt) /\
  lastApplied (ap_node replica2) = 2 /\ store_Get (sm_store (ap_sm replica2)) [x6b] = Ok [x32] /\
  isr_Success (HandleInstallSnapshot (ap_node replica2) calm_faults late_install).2 = true /\
  ApplyAvailable replica3 quietly = (replica4, 0, Ok tt) /\
  lastApplied (ap_node replica4) = 2 /\ pendingSnapshot (ap_node replica4) = None /\
  store_Get (sm_store (ap_sm replica4)) [x6b] = Ok [x31] /\
  ApplyAvailable replica4 quietly = (replica4, 0, Ok tt).
Proof. split_and!; vm_compute; reflexivity. Qed.

(** Such a snapshot becomes pending without a token in [commitCh]: an
    applier that waits for one does not look at it. *)
Theorem quiet_snapshot_sends_no_token :
  let n := set_commit (ap_node replica2) 2 false in
  let n' := (HandleInstallSnapshot n calm_faults late_install).1 in
  base (log n) < 1 <= commitIndex n /\ pendingSnapshot n = None /\ commitCh n = false /\
  isr_Success (HandleInstallSnapshot n calm_faults late_install).2 = true /\
  LastIncludedIndex <$> pendingSnapshot n' = Some 1 /\ commitCh n' = false.
Proof. split_and!; vm_compute; first [reflexivity|discriminate]. Qed.

(** ** Witnesses *)

Lemma quiet_gaps m0 cmds : gaps_ok m0 cmds quietly.
Proof. intros k n Hg. split; [|done]. split_and!; try done. by left. Qed.

Lemma follower1_log : log_wf (log follower1) /\ commitIndex follower1 = 2 /\
  log follower1 = [MkEntry 0 0 []; entry_of 1 put1; entry_of 2 put2].
Proof.
  assert (node_inv (fresh_node nb)) as Hn by (by apply (node_inv_new (trio_cfg nb) 0)).
  split; [|split; vm_compute; reflexivity].
  apply N_log. apply node_inv_HandleAppendEntries; [split; vm_compute; [split|]; congruence || done|done].
Qed.

Lemma replica1_synced : synced ∅ [put1; put2] replica1.
Proof.
  destruct follower1_log as (Hw & Hc & El). split; [exact sample_store_inv|]. split; [|by intros _].
  split; cbn [ap_node replica1].
  - exact Hw.
  - rewrite Hc. vm_compute. split; congruence.
  - rewrite Hc, El. vm_compute. congruence.
  - intros i e Hi He. rewrite Hc, El in *. change (base _) with 0 in Hi.
    assert (i = 1 \/ i = 2) as [->| ->] by lia; vm_compute in He; injection He as <-.
    + exists put1. split_and!; vm_compute; try done; congruence.
    + exists put2. split_and!; vm_compute; try done; congruence.
  - vm_compute. congruence.
Qed.

Example ApplyAvailable_in_order_witness :
  abs (ap_sm replica2) = state_at ∅ [put1; put2] 2 /\ synced ∅ [put1; put2] replica2.
Proof.
  destruct (ApplyAvailable_in_order ∅ [put1; put2] replica1 quietly replica2 2 (Ok tt)
    (quiet_gaps _ _) replica1_synced ltac:(vm_compute; reflexivity)) as (Hs & _ & Hok & _).
  split; [exact (proj1 (Hok eq_refl))|exact Hs].
Defined.

Example CreateSnapshot_captures_witness :
  exists a', CreateSnapshot replica2 quietly calm_faults (map_to_list (sm_dedup (ap_sm replica2))) 2 = (a', Ok tt) /\
  exists s, disk_snapshot (persister (ap_node a')) = Some s /\ LastIncludedIndex s = 2.
Proof.
  eexists. split; [vm_compute; reflexivity|].
  destruct (CreateSnapshot_captures ∅ [put1; put2] replica2 quietly calm_faults
    (map_to_list (sm_dedup (ap_sm replica2))) 2
    (CreateSnapshot replica2 quietly calm_faults (map_to_list (sm_dedup (ap_sm replica2))) 2).1)
    as (s & Hs & Hl & _).
  - repeat constructor; vm_compute; congruence.
  - apply (ApplyAvailable_spec ∅ [put1; put2] replica1 quietly replica2 2 (Ok tt)
      (quiet_gaps _ _) replica1_synced). vm_compute. reflexivity.
  - vm_compute. reflexivity.
  - reflexivity.
  - vm_compute. reflexivity.
  - exists s. split; [|exact Hl]. rewrite <- Hs. vm_compute. reflexivity.
Defined.
