(* ===== verification/Replica.v ===== *)
(** * Replicas

    The cluster of [RaftSafety] with an applier and a state machine at every
    node: the appliers' calls interleave with everything Raft does, call by
    call, stores outlive crashes while deduplication tables do not, and
    snapshots travel. Every replica holds the state that the specification
    gives to a prefix of the one log the cluster commits. *)

From S2P Require Import Prelude Bytes Codec Wal SkipList MemStore Command StateMachine.
From S2P Require Import SmSnapshot RaftLog RaftFormat RaftPersist RaftNode RaftElection RaftDurable RaftGhost.
From S2P Require Import RaftSafety RaftSteps RaftCommit SnapshotTransfer Applier.
From stdpp Require Import base tactics list numbers gmap sorting.
From Stdlib Require Import Strings.Byte.
From Stdlib Require Import ZArith Lia.
#[local] Open Scope Z_scope.

(** ** Running commands over data they already produced *)

Section Replay.
Context (cmds : list Command).

(** The first [h] commands decide every key that [m0] holds. *)
Definition agrees (m0 : gmap bytes bytes) (h : Z) : Prop :=
  forall key, m0 !! key <> None -> fixed (fun m => (state_at m cmds h).1 !! key).

Lemma agrees_empty h : agrees ∅ h.
Proof. intros key Hk. by rewrite lookup_empty in Hk. Qed.

Lemma state_at_split m h j : 0 <= h <= j ->
  state_at m cmds j = (spec_run (state_at m cmds h) (take (Z.to_nat j - Z.to_nat h) (drop (Z.to_nat h) cmds))).1.
Proof.
  intros Hj. unfold state_at. rewrite <- spec_run_app. f_equal. f_equal.
  replace (Z.to_nat j) with (Z.to_nat h + (Z.to_nat j - Z.to_nat h))%nat at 1 by lia. by rewrite take_take_drop.
Qed.

Lemma state_at_dedup m m' h : (state_at m cmds h).2 = (state_at m' cmds h).2.
Proof. apply spec_run_dedup. Qed.

Lemma fixed_later key h j : 0 <= h <= j ->
  fixed (fun m => (state_at m cmds h).1 !! key) -> fixed (fun m => (state_at m cmds j).1 !! key).
Proof.
  intros Hj [v Hv]. set (l := take (Z.to_nat j - Z.to_nat h) (drop (Z.to_nat h) cmds)).
  assert (forall m, (state_at m cmds j).1 !! key =
    (spec_run ((state_at m cmds h).1, (state_at ∅ cmds h).2) l).1.1 !! key) as E.
  { intros m. rewrite (state_at_split m h j Hj). rewrite (state_at_dedup ∅ m h). fold l.
    by destruct (state_at m cmds h). }
  destruct (spec_run_key (state_at ∅ cmds h).2 l key) as [[v' Hv']|Hk].
  - exists v'. intros m. by rewrite E.
  - exists v. intros m. by rewrite E, Hk.
Qed.

Lemma state_at_key m key h :
  fixed (fun m => (state_at m cmds h).1 !! key) \/ (state_at m cmds h).1 !! key = m !! key.
Proof.
  destruct (spec_run_key ∅ (take (Z.to_nat h) cmds) key) as [Hf|Hk]; [by left|right]. by apply Hk.
Qed.

(** Once they have all run again, the data is what it is from scratch. *)
Lemma agrees_run m0 h j : 0 <= h <= j -> agrees m0 h -> state_at m0 cmds j = state_at ∅ cmds j.
Proof.
  intros Hj Ha. pose proof (state_at_dedup m0 ∅ j) as Hd.
  assert ((state_at m0 cmds j).1 = (state_at ∅ cmds j).1) as Hm.
  { apply map_eq. intros key. destruct (m0 !! key) as [v|] eqn:E.
    - destruct (fixed_later key h j Hj (Ha key ltac:(congruence))) as [v' Hv']. by rewrite !Hv'.
    - destruct (spec_run_key ∅ (take (Z.to_nat j) cmds) key) as [[v' Hv']|Hk].
      + unfold state_at. by rewrite !Hv'.
      + unfold state_at. by rewrite !Hk, lookup_empty. }
  destruct (state_at m0 cmds j), (state_at ∅ cmds j). cbn in *. congruence.
Qed.

(** Stopping halfway and starting over. *)
Lemma agrees_again m0 h k : 0 <= h -> 0 <= k -> agrees m0 h -> agrees (state_at m0 cmds k).1 (Z.max h k).
Proof.
  intros Hh Hk Ha key Hne. destruct (state_at_key m0 key k) as [Hf|E].
  - apply (fixed_later key k); [lia|done].
  - apply (fixed_later key h); [lia|]. apply Ha. congruence.
Qed.
End Replay.

(** ** The bytes of a state *)

Definition kv_le (r s : bytes * bytes) : Prop := ble r.1 s.1.
#[export] Instance kv_le_dec : RelDecision kv_le.
Proof. intros r s. unfold kv_le, ble. apply _. Defined.

(** A snapshot's bytes depend on nothing but the state. *)
Definition image (s : spec_state) : result snapshot_error bytes :=
  encode_snapshot (merge_sort kv_le (map_to_list s.1)) (merge_sort row_le (map_to_list s.2)).

#[export] Instance kv_le_total : Total kv_le.
Proof. intros r s. unfold kv_le, ble. destruct (blt_trichotomy r.1 s.1) as [?|[?|?]]; auto. Qed.

#[export] Instance kv_le_trans : Transitive kv_le.
Proof.
  intros r s t [E|H1] [E2|H2]; unfold kv_le, ble; rewrite ?E, ?E2 in *; auto.
  right. by eapply blt_trans.
Qed.

Lemma kv_le_antisymm_keys (l : list (bytes * bytes)) : NoDup l.*1 ->
  forall x y, x ∈ l -> y ∈ l -> kv_le x y -> kv_le y x -> x = y.
Proof.
  intros Hnd [k v] [k' v'] Hx Hy H1 H2. assert (k = k') as <-.
  { destruct H1 as [?|H1], H2 as [?|H2]; cbn in *; try done. exfalso. exact (blt_irrefl _ (blt_trans _ _ _ H1 H2)). }
  f_equal. apply elem_of_list_to_map in Hx, Hy; [|done..]. congruence.
Qed.

Lemma sorted_keys_le (l : list (bytes * bytes)) : StronglySorted blt l.*1 -> StronglySorted kv_le l.
Proof.
  induction l as [|r l IH]; cbn; intros Hs; [constructor|]. inversion Hs as [|? ? Hs' Hr]; subst.
  constructor; [by apply IH|]. apply Forall_forall. intros s Hin. right. eapply Forall_forall in Hr; [exact Hr|].
  apply list_elem_of_fmap. by exists s.
Qed.

Lemma sorted_unique_on {A} (R : relation A) (l1 l2 : list A) :
  (forall x y, x ∈ l1 -> y ∈ l1 -> R x y -> R y x -> x = y) ->
  StronglySorted R l1 -> StronglySorted R l2 -> l1 ≡ₚ l2 -> l1 = l2.
Proof.
  intros Hanti H1. revert l2. induction H1 as [|x l1 H1 IH Hx]; intros l2 H2 Hp.
  { symmetry in Hp. by apply Permutation_nil_r in Hp as ->. }
  destruct H2 as [|y l2 H2 Hy]; [by apply Permutation_nil_r in Hp|].
  assert (x = y) as ->.
  { assert (x ∈ y :: l2) as [->|Hxl]%elem_of_cons by (rewrite <- Hp; by left); [done|].
    assert (y ∈ x :: l1) as [->|Hyl]%elem_of_cons by (rewrite Hp; by left); [done|].
    rewrite Forall_forall in Hx, Hy. apply Hanti; [by left|by right|by apply Hx|by apply Hy]. }
  f_equal. apply IH; [|done|by eapply Permutation_cons_inv]. intros a b Ha Hb. apply Hanti; by right.
Qed.

Lemma sorted_snapshot {St Env} `{Store St Env, !StoreLaws St Env} (st : St) :
  store_inv st -> store_Snapshot st = merge_sort kv_le (map_to_list (store_view st)).
Proof.
  intros Hi. destruct (store_Snapshot_law st Hi) as [Hs Hm]. pose proof (sorted_keys_NoDup _ Hs) as Hnd.
  apply (sorted_unique_on kv_le); [by apply kv_le_antisymm_keys|by apply sorted_keys_le|apply (StronglySorted_merge_sort kv_le)|].
  rewrite merge_sort_Permutation, <- Hm. symmetry. by apply map_to_list_to_map.
Qed.

(** What a state machine captures is its state's bytes. *)
Lemma capture_image {St Env} `{Store St Env, !StoreLaws St Env} (sm : KVStateMachine St) order :
  sm_inv sm -> order ≡ₚ map_to_list (sm_dedup sm) -> SmSnapshot.CreateSnapshot sm order = image (abs sm).
Proof.
  intros Hi Ho. unfold SmSnapshot.CreateSnapshot, image, abs. cbn [fst snd].
  by rewrite (sorted_snapshot _ Hi), (merge_sort_unique _ _ _ Ho (reflexivity _)).
Qed.

(** Restoring them brings the state back. *)
Lemma restore_image {St Env} `{Store St Env, !StoreLaws St Env} (sm : KVStateMachine St) e1 e2 s data sm' r :
  sm_inv sm -> dedup_ok s.2 -> image s = Ok data -> RestoreSnapshot sm e1 e2 data = (sm', r) -> r = Ok tt ->
  abs sm' = s.
Proof.
  intros Hi Hd Him Hr ->. unfold image in Him.
  assert (zlen data <= smMaxSnapshotBytes) as Hlen.
  { unfold RestoreSnapshot, decodeKVStateMachineSnapshot in Hr. destruct (zlen data >? smMaxSnapshotBytes) eqn:E; [done|].
    by zbool. }
  assert (decodeKVStateMachineSnapshot data = Done (merge_sort kv_le (map_to_list s.1), s.2)) as Hdec.
  { pose proof (decode_encode_snapshot _ _ _ Him (sorted_rows_good _ _ Hd (reflexivity _)) Hlen) as E.
    by rewrite (table_of_sorted _ _ (reflexivity _)) in E. }
  assert (NoDup (merge_sort kv_le (map_to_list s.1)).*1) as Hnd.
  { rewrite merge_sort_Permutation. apply NoDup_fst_map_to_list. }
  destruct (RestoreSnapshot_spec _ _ _ _ _ _ _ _ Hi Hdec Hnd Hr) as [-> _]; [|done].
  destruct s as [m d]. cbn [fst snd] in *. f_equal. rewrite <- (list_to_map_to_list m) at 2.
  apply list_to_map_proper; [done|]. apply merge_sort_Permutation.
Qed.

(** ** What Raft leaves alone

    Everything but an installed snapshot leaves a node's applied index and
    its snapshots as they were, and only raises its commit index. *)
Record still (n n' : Node) : Prop := {
  st_applied : lastApplied n' = lastApplied n;
  st_commit : commitIndex n <= commitIndex n';
  st_pending : pendingSnapshot n' = pendingSnapshot n;
  st_base : base (log n') = base (log n);
  st_data : snapshotData n' = snapshotData n;
  st_disk : disk_snapshot (persister n') = disk_snapshot (persister n);
  st_transfer : chunkTransfer n' = chunkTransfer n }.

Lemma still_refl n : still n n.
Proof. by split. Qed.

Lemma still_trans a b c : still a b -> still b c -> still a c.
Proof. intros [? ? ? ? ? ? ?] [? ? ? ? ? ? ?]. split; congruence || lia. Qed.

Ltac still_now := split; done || (cbn; lia).

Lemma still_step_down n f term n' : becomeFollowerLocked n f term = Some n' -> still n n'.
Proof. unfold becomeFollowerLocked, persistLocked. destruct (fail_term f); intros [= <-]. still_now. Qed.

Lemma still_prologue n f term n' :
  (if term >? currentTerm n then becomeFollowerLocked n f term else Some n) = Some n' -> still n n'.
Proof. case_if; [apply still_step_down|intros [= <-]; apply still_refl]. Qed.

Lemma still_default n f term : still n (default n (becomeFollowerLocked n f term)).
Proof. destruct (becomeFollowerLocked n f term) eqn:E; [by eapply still_step_down|apply still_refl]. Qed.

Lemma still_advance n : still n (maybeAdvanceCommitIndexLocked n).
Proof.
  destruct (commit_rule n) as [(N & HN & _ & _ & ->)|[_ ->]]; [|apply still_refl]. still_now.
Qed.

Ltac still_via H := eapply still_trans; [|apply H]; still_now.

Lemma still_leader n : still n (becomeLeaderLocked n).1.
Proof. unfold becomeLeaderLocked, broadcastAppendEntriesLocked. cbn [fst]. still_via still_advance. Qed.

Lemma still_election n f : still n (startElectionLocked n f).1.
Proof.
  unfold startElectionLocked, persistLocked. destruct (fail_state f); [apply still_refl|].
  case_if; [still_via still_leader|still_now].
Qed.

Lemma still_Tick n f : still n (Tick n f).1.
Proof.
  unfold Tick. destruct (role n); case_if; try still_now; [still_via still_election..|still_via still_advance].
Qed.

Lemma still_HandleRequestVote n f args : still n (HandleRequestVote n f args).1.
Proof.
  unfold HandleRequestVote.
  destruct (if rv_Term args >? currentTerm n then _ else _) as [n1|] eqn:E; [|apply still_refl].
  eapply still_trans; [by eapply still_prologue|].
  case_if; [apply still_refl|]. case_if; [apply still_refl|].
  unfold persistLocked. destruct (fail_state f); [apply still_refl|still_now].
Qed.

Lemma still_onRequestVoteReply n f peer term reply n' rpcs :
  onRequestVoteReply n f peer term reply = Some (n', rpcs) -> still n n'.
Proof.
  unfold onRequestVoteReply. case_if; [intros [= <- <-]; apply still_default|].
  case_if; [intros [= <- <-]; apply still_refl|]. case_if; [intros [= <- <-]; apply still_refl|].
  destruct (votesReceived n) as [V|]; [|done]. case_if; [|intros [= <- <-]; still_now].
  intros Hn. injection Hn as <- _. still_via still_advance.
Qed.

Lemma still_onAppendEntriesReply n f peer term args reply :
  still n (onAppendEntriesReply n f peer term args reply).1.
Proof.
  unfold onAppendEntriesReply. case_if; [apply still_default|]. case_if; [apply still_refl|].
  case_if; cbn [fst]; [still_via still_advance|case_if; still_now].
Qed.

Lemma still_onInstallSnapshotReply n f peer term snap final reply :
  still n (onInstallSnapshotReply n f peer term snap final reply).1.
Proof.
  unfold onInstallSnapshotReply. case_if; [apply still_default|]. case_if; [apply still_refl|].
  case_if; [apply still_refl|]. case_if; [|apply still_refl]. cbn [fst]. still_via still_advance.
Qed.

Lemma still_HandleAppendEntries n f args :
  log_wf (log n) -> append_bounded args -> still n (HandleAppendEntries n f args).1.
Proof.
  intros Hw [Hu Hb]. unfold HandleAppendEntries.
  destruct (if ae_Term args >? currentTerm n then _ else _) as [n1|] eqn:E; [|apply still_refl].
  eapply still_trans; [by eapply still_prologue|].
  apply step_down_same in E as (_ & _ & El). rewrite <- El in Hw. clear El.
  case_if; [apply still_refl|]. case_if; [still_now|]. zbool.
  match goal with H : TermAt _ _ = Some _ |- _ => apply (TermAt_range _ _ _ Hw Hu) in H as Hr end.
  destruct (AppendAfter_wf _ _ _ Hw Hr Hb) as (_ & Hbase & _).
  change (log (resetElectionTimerLocked _ _)) with (log n1) in *.
  destruct (AppendAfter _ _ _) as [l changed]. cbn [fst] in Hbase. unfold persistLocked. destruct changed.
  - destruct (fail_state f); [still_now|]. cbn [fst]. repeat case_if; zbool; split; done || (cbn in *; lia).
  - cbn [fst]. repeat case_if; zbool; split; done || (cbn in *; lia).
Qed.

Lemma still_Propose n f command :
  log_wf (log n) -> still n (Propose n f command).1.1.
Proof.
  intros Hw. unfold Propose. case_if; [apply still_refl|]. unfold persistLocked, log_Append.
  destruct (fail_state f); [apply still_refl|]. cbn [broadcastAppendEntriesLocked fst].
  eapply still_trans; [|apply still_advance]. split; try done. apply base_app, (wf_nonempty _ Hw).
Qed.

(** An InstallSnapshot request either installs the snapshot or leaves all but
    the transfer. *)
Lemma HandleInstallSnapshot_cases n f args n' reply :
  log_wf (log n) -> is_LastIncludedIndex args + 1 < 2 ^ 64 -> (fail_state f = true -> fail_snapshot f = true) ->
  HandleInstallSnapshot n f args = (n', reply) ->
  (lastApplied n' = lastApplied n /\ commitIndex n' = commitIndex n /\ pendingSnapshot n' = pendingSnapshot n /\
   base (log n') = base (log n) /\ snapshotData n' = snapshotData n /\
   disk_snapshot (persister n') = disk_snapshot (persister n)) \/
  (exists s, LastIncludedIndex s = is_LastIncludedIndex args /\ base (log n) < LastIncludedIndex s /\
   lastApplied n' = lastApplied n /\ commitIndex n <= commitIndex n' /\ pendingSnapshot n' = Some s /\
   base (log n') = LastIncludedIndex s /\ snapshotData n' = SnapshotData s /\
   disk_snapshot (persister n') = Some s).
Proof.
  intros Hw Hu Hf. unfold HandleInstallSnapshot.
  destruct (if is_Term args >? currentTerm n then _ else _) as [n1|] eqn:E; [|intros [= <- <-]; by left].
  pose proof (step_down_same _ _ _ _ E) as (Ec & Ea & El). apply still_prologue in E as [_ _ Ep _ Ed Es _].
  rewrite <- Ec, <- Ea, <- Ep, <- Ed, <- Es, <- El. rewrite <- El in Hw. clear Ec Ea Ep Ed Es El n.
  destruct (is_Term args <? currentTerm n1); [intros [= <- <-]; by left|].
  set (n2 := resetElectionTimerLocked _ _).
  destruct (is_LastIncludedIndex args <=? base (log n2)) eqn:Eb; zbool.
  { destruct (chunkTransfer n2); [destruct (_ >=? _)|]; intros [= <- <-]; by left. }
  assert (forall t data n' reply,
    installSnapshot (set_transfer n2 t) f (is_LastIncludedIndex args) (is_LastIncludedTerm args) data = (n', reply) ->
    (lastApplied n' = lastApplied n1 /\ commitIndex n' = commitIndex n1 /\ pendingSnapshot n' = pendingSnapshot n1 /\
     base (log n') = base (log n1) /\ snapshotData n' = snapshotData n1 /\
     disk_snapshot (persister n') = disk_snapshot (persister n1)) \/
    (exists s, LastIncludedIndex s = is_LastIncludedIndex args /\ base (log n1) < LastIncludedIndex s /\
     lastApplied n' = lastApplied n1 /\ commitIndex n1 <= commitIndex n' /\ pendingSnapshot n' = Some s /\
     base (log n') = LastIncludedIndex s /\ snapshotData n' = SnapshotData s /\
     disk_snapshot (persister n') = Some s)) as Hinst.
  { intros t data m r. unfold installSnapshot, persistLocked. destruct (fail_snapshot f); [intros [= <- <-]; by left|].
    destruct (fail_state f); [by specialize (Hf eq_refl)|]. intros [= <- <-]. right.
    exists (MkSnapshot (is_LastIncludedIndex args) (is_LastIncludedTerm args) data).
    destruct (installSnapshotBoundary_spec (log n1) (is_LastIncludedIndex args) (is_LastIncludedTerm args) Hw Eb Hu)
      as (_ & Hbl & _).
    case_if; zbool; cbn in *; split_and!; done || lia. }
  destruct (is_Chunked args).
  - destruct (receiveSnapshotChunkLocked _ _) as [t [| |data]]; [intros [= <- <-]; by left..|]. apply Hinst.
  - apply Hinst.
Qed.

(** ** Raft's own steps

    The steps of [wstep] that are not a replica's: the applier's calls and
    restarts are below. *)

(** The piece of a snapshot's data that a chunk carries, or damage its
    checksum shows. *)
Definition piece_of (snap : Snapshot) (args : InstallSnapshotArgs) : Prop :=
  checksum (is_Data args) <> is_Checksum args \/
  (is_TotalSize args = zlen (SnapshotData snap) /\ 0 <= is_Offset args /\
   exists stop, is_Data args = slice (Z.to_nat (is_Offset args)) stop (SnapshotData snap)).

Lemma snapshot_chunk_piece n term snap offset :
  0 <= offset -> chunk_of (id n) term snap (snapshot_chunk n term snap offset) /\
  piece_of snap (snapshot_chunk n term snap offset).
Proof. intros Ho. split; [done|]. right. split; [done|]. split; [done|]. by eexists. Qed.

(** What the applier of a node has in hand between two of its calls. *)
Inductive phase :=
| Idle
| Confirming (index : Z)
| Checked
| Fetching (from : Z)
| Applying (entries : list LogEntry)
| Marking (entry : LogEntry) (entries : list LogEntry)
| Saving (index : Z) (data : bytes).

(** When a call may install a snapshot: it reaches beyond what its receiver
    has committed, and the applier is not between looking for one and
    reading the committed entries. Calls that install nothing (pieces of a
    transfer, refused or outdated ones) are not restricted. The code checks
    neither: [Applier.late_snapshot_loses_command] and the note on applier.go
    line 85 are what happens outside, so runs in which it does are left out
    of what is proved here. *)
Definition may_install (n : Node) (p : phase) (snap : Snapshot) : Prop :=
  commitIndex n < LastIncludedIndex snap /\ p <> Checked /\ forall from, p <> Fetching from.

Inductive rstep (ph : phase) (i : bytes) (n : Node) (mail : list msg) : Node -> list msg -> Prop :=
| rs_tick f n' rpcs :
    currentTerm n + 1 < 2 ^ 64 -> Tick n f = (n', rpcs) -> rstep ph i n mail n' (posted i <$> rpcs)
| rs_vote from args f n' reply :
    MVote from i args ∈ mail -> HandleRequestVote n f args = (n', reply) ->
    rstep ph i n mail n' [MVoteReply i from (rv_Term args) reply]
| rs_vote_reply from term reply f n' rpcs :
    MVoteReply from i term reply ∈ mail -> onRequestVoteReply n f from term reply = Some (n', rpcs) ->
    rstep ph i n mail n' (posted i <$> rpcs)
| rs_append from args f n' reply :
    MAppend from i args ∈ mail -> HandleAppendEntries n f args = (n', reply) ->
    rstep ph i n mail n' [MAppendReply i from args reply]
| rs_append_reply from args reply f n' b :
    MAppendReply from i args reply ∈ mail ->
    onAppendEntriesReply n f from (ae_Term args) args reply = (n', b) -> rstep ph i n mail n' []
| rs_snapshot from term snap args f n' reply :
    MSnapshot from i term snap ∈ mail -> chunk_of from term snap args -> piece_of snap args ->
    (fail_state f = true -> fail_snapshot f = true) -> HandleInstallSnapshot n f args = (n', reply) ->
    (base (log n') <> base (log n) -> may_install n ph snap) ->
    rstep ph i n mail n' [MSnapshotReply i from term snap (is_Final args) reply]
| rs_snapshot_reply from term snap final reply f n' b :
    MSnapshotReply from i term snap final reply ∈ mail ->
    onInstallSnapshotReply n f from term snap final reply = (n', b) -> rstep ph i n mail n' []
| rs_propose f command n' rpcs r :
    base (log n) + zlen (log n) + 1 < 2 ^ 64 -> Propose n f command = (n', rpcs, r) ->
    rstep ph i n mail n' (posted i <$> rpcs)
| rs_read r :
    ReadIndex_begin n = Ok r -> rstep ph i n mail n ((fun c => MAppend i c.1 c.2) <$> pr_calls r).

Lemma rstep_wstep ph w i n n' ms :
  w_nodes w !! i = Some n -> rstep ph i n (w_mail w) n' ms -> wstep w (update w i n' ms).
Proof. intros Hi Hs. destruct Hs; eauto using wstep, wrun. Qed.

(** ** The replicas *)

Section Replicas.
Context {St Env : Type} `{Store St Env, !StoreLaws St Env}.

(** [r_high] is no variable of the program: it is how far the store's data
    may be ahead of the applier, after a restart, until it has applied that
    many commands again. *)
Record replica := MkReplica {
  r_sm : KVStateMachine St;
  r_phase : phase;
  r_high : Z }.

Definition in_phase (r : replica) (p : phase) : replica := MkReplica (r_sm r) p (r_high r).

(** One call of [ApplyAvailable] or [CreateSnapshot] is a path from [Idle] to
    [Idle]. No snapshot is taken while old commands are applied again. *)
Inductive astep (n : Node) (r : replica) : Node -> replica -> Prop :=
| as_check :
    r_phase r = Idle -> pendingSnapshot n = None -> astep n r n (in_phase r Checked)
| as_restore snap e1 e2 sm :
    r_phase r = Idle -> pendingSnapshot n = Some snap ->
    RestoreSnapshot (r_sm r) e1 e2 (SnapshotData snap) = (sm, Ok tt) ->
    astep n r n (MkReplica sm (Confirming (LastIncludedIndex snap)) (r_high r))
| as_restore_fails snap e1 e2 sm e :
    r_phase r = Idle -> pendingSnapshot n = Some snap ->
    RestoreSnapshot (r_sm r) e1 e2 (SnapshotData snap) = (sm, Err e) ->
    astep n r n (MkReplica sm Idle (r_high r))
| as_confirm index n' :
    r_phase r = Confirming index -> ConfirmSnapshotRestored n index = (n', Ok tt) ->
    astep n r n' (MkReplica (r_sm r) Checked 0)
| as_confirm_fails index n' e :
    r_phase r = Confirming index -> ConfirmSnapshotRestored n index = (n', Err e) ->
    astep n r n' (in_phase r Idle)
| as_from :
    r_phase r = Checked -> astep n r n (in_phase r (Fetching (u64 (lastApplied n + 1))))
| as_fetch from :
    r_phase r = Fetching from -> astep n r n (in_phase r (Applying (CommittedEntries n from)))
| as_done :
    r_phase r = Applying [] -> astep n r n (in_phase r Idle)
| as_decode_fails e es :
    r_phase r = Applying (e :: es) -> (forall c, DecodeCommand (e_Command e) <> Done c) ->
    astep n r n (in_phase r Idle)
| as_apply e es c env sm res :
    r_phase r = Applying (e :: es) -> DecodeCommand (e_Command e) = Done c ->
    Apply (r_sm r) env c = (sm, Ok res) -> astep n r n (MkReplica sm (Marking e es) (r_high r))
| as_apply_fails e es c env sm fault :
    r_phase r = Applying (e :: es) -> DecodeCommand (e_Command e) = Done c ->
    Apply (r_sm r) env c = (sm, Err fault) -> astep n r n (MkReplica sm Idle (r_high r))
| as_mark e es n' :
    r_phase r = Marking e es -> MarkApplied n (e_Index e) = (n', Ok tt) -> astep n r n' (in_phase r (Applying es))
| as_mark_fails e es n' err :
    r_phase r = Marking e es -> MarkApplied n (e_Index e) = (n', Err err) -> astep n r n' (in_phase r Idle)
| as_capture order data :
    r_phase r = Idle -> order ≡ₚ map_to_list (sm_dedup (r_sm r)) -> r_high r <= lastApplied n ->
    SmSnapshot.CreateSnapshot (r_sm r) order = Ok data ->
    astep n r n (in_phase r (Saving (lastApplied n) data))
| as_save index data f n' res :
    r_phase r = Saving index data -> RaftNode.CreateSnapshot n f index data = (n', res) ->
    astep n r n' (in_phase r Idle).

(** How far the commands have reached the store. *)
Definition reached (n : Node) (r : replica) : Z :=
  match r_phase r with Marking _ _ => lastApplied n + 1 | _ => lastApplied n end.

(** What the store holds when it is opened again: what it held, or also the
    write that failed last, whose record was in the store's log after all. *)
Inductive reopened (n : Node) (r : replica) (st : St) : Z -> Prop :=
| ro_same : store_view st = store_view (sm_store (r_sm r)) -> reopened n r st (reached n r)
| ro_more e c :
    reached n r = lastApplied n -> lastApplied n + 1 <= commitIndex n ->
    EntryAt (log n) (lastApplied n + 1) = Some e -> DecodeCommand (e_Command e) = Done c ->
    store_view st = (spec_apply (abs (r_sm r)) c).1.1 -> reopened n r st (lastApplied n + 1).

Record system := MkSystem { s_world : world; s_reps : gmap bytes replica }.

Definition move (s : system) (i : bytes) (n : Node) (ms : list msg) (r : replica) : system :=
  MkSystem (update (s_world s) i n ms) (<[i := r]> (s_reps s)).

Inductive sstep (s : system) : system -> Prop :=
| ss_raft i n r n' ms :
    w_nodes (s_world s) !! i = Some n -> s_reps s !! i = Some r ->
    rstep (r_phase r) i n (w_mail (s_world s)) n' ms -> sstep s (move s i n' ms r)
| ss_apply i n r n' r' :
    w_nodes (s_world s) !! i = Some n -> s_reps s !! i = Some r -> astep n r n' r' -> sstep s (move s i n' [] r')
| ss_crash i n r t n' st k :
    w_nodes (s_world s) !! i = Some n -> s_reps s !! i = Some r ->
    newNode (cfg n) (persister n) t = Ok n' -> store_inv st ->
    (disk_snapshot (persister n) = None -> reopened n r st k) ->
    sstep s (move s i n' [] (MkReplica (NewKVStateMachine st) Idle (Z.max (r_high r) k))).

Definition sinitial (members : gset bytes) (cfg_of : bytes -> Config) (s : system) : Prop :=
  winitial members cfg_of (s_world s) /\
  (forall i n, w_nodes (s_world s) !! i = Some n -> exists st, store_inv st /\ store_view st = ∅ /\
     s_reps s !! i = Some (MkReplica (NewKVStateMachine st) Idle 0)).

(** ** The invariant, against a log that extends the committed one *)

Definition undecodable : Command := NewPutCommand [] 0 [] [].
Definition command_of (e : Z * bytes) : Command :=
  match DecodeCommand e.2 with Done c => c | _ => undecodable end.
Definition commands (C : glog) : list Command := command_of <$> C.

Lemma commands_ok C : Forall (fun c => encodable c /\ is_u64 (RequestID c)) (commands C).
Proof using Type.
  apply Forall_forall. intros c ([T b] & -> & _)%list_elem_of_fmap. unfold command_of. cbn.
  destruct (DecodeCommand b) as [c| |] eqn:E; [|split; [unfold encodable; split_and!|]; done..].
  unfold DecodeCommand in E. case_bool_decide; [done|]. apply p_all_Done in E.
  by apply p_command_Done in E as (_ & Hc & Hu).
Qed.

Section Fixed.
Context (C : glog).
#[local] Notation cmds := (commands C).

Definition exact (k : Z) : spec_state := state_at ∅ cmds k.

(** The one snapshot the cluster has at an index. *)
Definition the_snapshot (index term : Z) : bytes :=
  if index =? 0 then [] else match image (exact index) with Ok b => b | Err _ => [] end.

(** The state after [k] commands, run over data that [r_high] of them fix. *)
Definition holds (r : replica) (k : Z) : Prop :=
  exists m0, agrees cmds m0 (r_high r) /\ abs (r_sm r) = state_at m0 cmds k.

(** Entries of the log from [k + 1] on, committed and before any snapshot. *)
Definition handed (n : Node) (k : Z) (es : list LogEntry) : Prop :=
  k + zlen es <= commitIndex n /\
  (forall j e, es !! j = Some e -> e_Index e = k + 1 + Z.of_nat j /\ C !! (Z.to_nat k + j)%nat = Some (ghost e)) /\
  (forall s, pendingSnapshot n = Some s -> k + zlen es < LastIncludedIndex s).

Definition phase_ok (n : Node) (r : replica) : Prop :=
  match r_phase r with
  | Idle => pendingSnapshot n = None -> holds r (lastApplied n)
  | Confirming index => abs (r_sm r) = exact index /\
      exists s, pendingSnapshot n = Some s /\ index <= LastIncludedIndex s
  | Checked => pendingSnapshot n = None /\ holds r (lastApplied n)
  | Fetching from => pendingSnapshot n = None /\ holds r (lastApplied n) /\ from = lastApplied n + 1
  | Applying es => holds r (lastApplied n) /\ handed n (lastApplied n) es
  | Marking e es => holds r (lastApplied n + 1) /\ handed n (lastApplied n) (e :: es)
  | Saving index data => is_u64 index /\
      (base (log n) < index -> data = the_snapshot index 0) /\ (pendingSnapshot n = None -> holds r (lastApplied n))
  end.

Record replica_ok (n : Node) (r : replica) : Prop := {
  R_sm : sm_inv (r_sm r);
  R_high : 0 <= r_high r;
  R_base : match pendingSnapshot n with
           | Some s => lastApplied n < LastIncludedIndex s /\ base (log n) = LastIncludedIndex s /\
                       disk_snapshot (persister n) <> None
           | None => base (log n) <= lastApplied n
           end;
  R_pos : forall s, disk_snapshot (persister n) = Some s -> 0 < LastIncludedIndex s;
  R_data : snapshotData n = the_snapshot (base (log n)) 0;
  R_snaps : genuine_node the_snapshot n;
  R_phase : phase_ok n r }.

Definition mail_ok (mail : list msg) : Prop :=
  forall from to term snap, MSnapshot from to term snap ∈ mail -> genuine the_snapshot snap.

Record SInv (s : system) : Prop := {
  S_reps i n : w_nodes (s_world s) !! i = Some n -> exists r, s_reps s !! i = Some r /\ replica_ok n r;
  S_mail : mail_ok (w_mail (s_world s)) }.

(** What is known of a node of the cluster. *)
Record raft_ok (n : Node) : Prop := {
  K_inv : node_inv n;
  K_shows : shows n C;
  K_bound : commitIndex n <= LastIndex (log n) }.

Lemma exact_dedup k : dedup_ok (exact k).2.
Proof using Type.
  apply spec_run_dedup_ok; [|apply map_Forall_empty]. apply Forall_take, commands_ok.
Qed.

Lemma the_snapshot_term index t t' : the_snapshot index t = the_snapshot index t'.
Proof using Type. done. Qed.

(** The committed entry behind an index is the log's command. *)
Lemma command_at k e c :
  C !! k = Some (ghost e) -> DecodeCommand (e_Command e) = Done c -> cmds !! k = Some c.
Proof using Type.
  intros Hk Hc. unfold commands. rewrite list_lookup_fmap, Hk. cbn. unfold command_of, ghost. cbn. by rewrite Hc.
Qed.

Lemma holds_apply (r : replica) k e c env sm res p :
  sm_inv (r_sm r) -> 0 <= k -> holds r k -> C !! Z.to_nat k = Some (ghost e) ->
  DecodeCommand (e_Command e) = Done c -> Apply (r_sm r) env c = (sm, Ok res) ->
  holds (MkReplica sm p (r_high r)) (k + 1).
Proof using All.
  intros Hi Hk (m0 & Ha & Hm) He Hc Hap. exists m0. split; [done|]. cbn.
  rewrite (state_at_step m0 cmds k c Hk (command_at _ _ _ He Hc)), <- Hm.
  destruct (Apply_spec _ _ _ _ _ Hi Hap) as [_ ->]. done.
Qed.

(** *** Raft's steps keep it *)

Lemma phase_still n n' r : still n n' -> phase_ok n r -> phase_ok n' r.
Proof using Type.
  intros [Ea Ec Ep Eb _ _ _]. unfold phase_ok. destruct (r_phase r); rewrite ?Ea, ?Ep, ?Eb; try done;
    intros [Hh (Hc & He & Hs)]; (split; [done|]); (split; [lia|]); rewrite Ep; done.
Qed.

Lemma replica_still n n' r : still n n' -> replica_ok n r -> replica_ok n' r.
Proof using Type.
  intros Hst [H1 H2 H3 H4 H5 H6 H7]. pose proof Hst as [Ea Ec Ep Eb Ed Es Et].
  split; rewrite ?Ea, ?Ep, ?Eb, ?Ed, ?Es; try done; [by eapply genuine_frame|by eapply phase_still].
Qed.

(** The snapshots a node sends out are the one at its log's boundary. *)
Definition sends (n : Node) (rpcs : list Rpc) : Prop :=
  forall p term snap, RpcInstallSnapshot p term snap ∈ rpcs ->
    LastIncludedIndex snap = base (log n) /\ SnapshotData snap = snapshotData n.

Lemma sends_nil n : sends n [].
Proof using Type. by intros p term snap ?%not_elem_of_nil. Qed.

Lemma sends_broadcast n m :
  base (log m) = base (log n) -> snapshotData m = snapshotData n -> sends n (broadcastAppendEntriesLocked m).2.
Proof using Type.
  intros Eb Ed p term snap (q & Hq & _)%list_elem_of_fmap. unfold rpc_for in Hq. destruct (_ <=? _) in Hq; [|done].
  injection Hq as -> -> ->. done.
Qed.

Lemma sends_election n m f :
  base (log m) = base (log n) -> snapshotData m = snapshotData n -> sends n (startElectionLocked m f).2.
Proof using Type.
  intros Eb Ed. unfold startElectionLocked, persistLocked. destruct (fail_state f); [apply sends_nil|].
  case_if; [by apply sends_broadcast|]. by intros p term snap (q & Hq & _)%list_elem_of_fmap.
Qed.

Lemma sends_Tick n f : sends n (Tick n f).2.
Proof using Type.
  unfold Tick. destruct (role n); (case_if; [|apply sends_nil]); [by apply sends_election..|by apply sends_broadcast].
Qed.

Lemma sends_vote_reply n f peer term reply n' rpcs :
  onRequestVoteReply n f peer term reply = Some (n', rpcs) -> sends n rpcs.
Proof using Type.
  unfold onRequestVoteReply. case_if; [intros [= <- <-]; apply sends_nil|].
  case_if; [intros [= <- <-]; apply sends_nil|]. case_if; [intros [= <- <-]; apply sends_nil|].
  destruct (votesReceived n) as [V|]; [|done]. case_if; [|intros [= <- <-]; apply sends_nil].
  intros Hn. injection Hn as _ <-. by apply sends_broadcast.
Qed.

Lemma sends_Propose n f command : log_wf (log n) -> sends n (Propose n f command).1.2.
Proof using Type.
  intros Hw. unfold Propose. case_if; [apply sends_nil|]. unfold persistLocked, log_Append.
  destruct (fail_state f); [apply sends_nil|]. cbn [fst snd].
  apply sends_broadcast; [apply base_app, (wf_nonempty _ Hw)|done].
Qed.

Lemma mail_sends i n r rpcs : replica_ok n r -> sends n rpcs -> mail_ok (posted i <$> rpcs).
Proof using Type.
  intros Hr Hs from to term snap ([] & E & Hin)%list_elem_of_fmap; [done..|]. injection E as -> -> -> ->.
  destruct (Hs _ _ _ Hin) as [Ei Ed]. unfold genuine. by rewrite Ed, Ei, (R_data _ _ Hr).
Qed.

Lemma mail_quiet ms : (forall from to term snap, MSnapshot from to term snap ∉ ms) -> mail_ok ms.
Proof using Type. intros Hm from to term snap Hin. by apply Hm in Hin. Qed.

(** Indices in flight stay below 2^64. *)
Definition mail_bounded (mail : list msg) : Prop :=
  (forall from to args, MAppend from to args ∈ mail -> append_bounded args) /\
  (forall from to term snap, MSnapshot from to term snap ∈ mail -> LastIncludedIndex snap + 1 < 2 ^ 64).

Lemma piece_deliverable snap args from term :
  genuine the_snapshot snap -> chunk_of from term snap args -> piece_of snap args -> deliverable the_snapshot args.
Proof using Type.
  unfold genuine. intros Hg (_ & _ & Ei & Et & Ec) [Hd|(Htot & Ho & stop & Hdata)]; [right; right; by split|left].
  split; [done|]. rewrite Ei, Et, <- Hg. split; [done|]. split; [done|]. by exists stop.
Qed.

Lemma replica_install n r from term snap args f n' reply :
  raft_ok n -> replica_ok n r -> genuine the_snapshot snap -> LastIncludedIndex snap + 1 < 2 ^ 64 ->
  chunk_of from term snap args -> piece_of snap args ->
  (fail_state f = true -> fail_snapshot f = true) -> HandleInstallSnapshot n f args = (n', reply) ->
  (base (log n') <> base (log n) -> may_install n (r_phase r) snap) -> replica_ok n' r.
Proof using Type.
  intros HK Hr Hg Hu Hch Hpc Hf E Hmay. pose proof (N_log _ (K_inv _ HK)) as Hw.
  pose proof (genuine_HandleInstallSnapshot _ n f args (R_snaps _ _ Hr) (piece_deliverable _ _ _ _ Hg Hch Hpc)) as Hg'.
  rewrite E in Hg'. cbn [fst] in Hg'. pose proof Hch as (_ & _ & Ei & _). pose proof (N_applied _ (K_inv _ HK)).
  destruct Hr as [H1 H2 H3 H4 H5 H6 H7].
  destruct (HandleInstallSnapshot_cases n f args n' reply Hw ltac:(by rewrite Ei) Hf E)
    as [(Ea & Ec & Ep & Eb & Ed & Es)|(s & Els & Hb & Ea & Ec & Ep & Eb & Ed & Es)].
  - split; rewrite ?Ea, ?Ep, ?Eb, ?Ed, ?Es; try done. unfold phase_ok, handed in *.
    by destruct (r_phase r); rewrite ?Ea, ?Ep, ?Eb, ?Ec.
  - destruct Hmay as (Hci & Hne1 & Hne2); [lia|].
    assert (commitIndex n < LastIncludedIndex s) as Hcs by congruence.
    split; rewrite ?Ea, ?Ep, ?Eb, ?Ed, ?Es; try done.
    + split_and!; [lia|done|congruence].
    + intros s' [= <-]. pose proof (wf_base _ Hw). lia.
    + by apply (G_pending _ _ Hg') in Ep.
    + unfold phase_ok, handed in *. rewrite Ea, Ep, Eb. destruct (r_phase r) as [|idx| |from'|es|e es|idx data]; try done.
      * destruct H7 as [Hx (s0 & Es0 & Hle)]. split; [done|]. exists s. split; [done|].
        rewrite Es0 in H3. lia.
      * by destruct (Hne2 from').
      * destruct H7 as (Hh & Hc & He & Hs). split; [done|]. split_and!; [lia|done|]. intros s' [= <-]. lia.
      * destruct H7 as (Hh & Hc & He & Hs). split; [done|]. split_and!; [lia|done|]. intros s' [= <-]. lia.
      * destruct H7 as (Hu64 & Hd & Hh). split_and!; [done|intros; apply Hd; lia|done].
Qed.

Lemma replica_rstep i n r mail n' ms :
  raft_ok n -> replica_ok n r -> mail_ok mail -> mail_bounded mail -> rstep (r_phase r) i n mail n' ms ->
  replica_ok n' r /\ mail_ok ms.
Proof using Type.
  intros HK Hr Hm [Hb1 Hb2] Hs. pose proof (N_log _ (K_inv _ HK)) as Hw.
  assert (forall m, still n m -> replica_ok m r) as Hstill by (intros; by eapply replica_still).
  destruct Hs as [f n' rpcs _ E|from args f n' reply _ E|from term reply f n' rpcs _ E|from args f n' reply Hin E|
    from args reply f n' b _ E|from term snap args f n' reply Hin Hch Hpc Hf E Hmay|
    from term snap final reply f n' b _ E|f command n' rpcs res _ E|res E].
  - split; [apply Hstill; pose proof (still_Tick n f) as Hst; by rewrite E in Hst|].
    eapply mail_sends; [done|]. pose proof (sends_Tick n f) as Hst. by rewrite E in Hst.
  - split; [apply Hstill; pose proof (still_HandleRequestVote n f args) as Hst; by rewrite E in Hst|].
    apply mail_quiet. by intros * ?%list_elem_of_singleton.
  - split; [by eapply Hstill, still_onRequestVoteReply|]. eapply mail_sends; [done|]. by eapply sends_vote_reply.
  - split; [apply Hstill; pose proof (still_HandleAppendEntries n f args Hw (Hb1 _ _ _ Hin)) as Hst; by rewrite E in Hst|].
    apply mail_quiet. by intros * ?%list_elem_of_singleton.
  - split; [|apply mail_quiet; by intros * ?%not_elem_of_nil]. apply Hstill.
    pose proof (still_onAppendEntriesReply n f from (ae_Term args) args reply) as Hst. by rewrite E in Hst.
  - split; [|apply mail_quiet; by intros * ?%list_elem_of_singleton].
    eapply replica_install; eauto.
  - split; [|apply mail_quiet; by intros * ?%not_elem_of_nil]. apply Hstill.
    pose proof (still_onInstallSnapshotReply n f from term snap final reply) as Hst. by rewrite E in Hst.
  - split; [apply Hstill; pose proof (still_Propose n f command Hw) as Hst; by rewrite E in Hst|].
    eapply mail_sends; [done|]. pose proof (sends_Propose n f command Hw) as Hst. by rewrite E in Hst.
  - split; [done|]. apply mail_quiet. by intros * (? & ? & _)%list_elem_of_fmap.
Qed.


(** *** The appliers' steps keep it *)

Lemma fetch_handed n :
  raft_ok n -> pendingSnapshot n = None -> base (log n) <= lastApplied n ->
  handed n (lastApplied n) (CommittedEntries n (lastApplied n + 1)).
Proof using Type.
  intros [Hi (_ & Hsh & _) Hb] Hp Hbase. pose proof (N_applied _ Hi). pose proof (N_log _ Hi) as Hw.
  unfold handed. rewrite Hp. unfold CommittedEntries. rewrite (proj2 (Z.eqb_neq _ _)) by lia. case_if; zbool.
  { split_and!; [rewrite zlen_nil; lia|intros j e Hj; by rewrite lookup_nil in Hj|done]. }
  destruct (Range_spec (log n) (lastApplied n + 1) (commitIndex n) Hw ltac:(lia) ltac:(lia) Hb) as (Hlen & Hat & Hnum).
  split_and!; [unfold zlen; rewrite Hlen; lia| |done]. intros j e Hj. split; [by apply Hnum|].
  pose proof (lookup_lt_Some _ _ _ Hj) as Hlt. rewrite Hlen in Hlt.
  specialize (Hat (Z.of_nat j) ltac:(lia)). rewrite Nat2Z.id, Hj in Hat. symmetry in Hat.
  destruct (Hsh (lastApplied n + 1 + Z.of_nat j) ltac:(lia)) as (e' & He' & _ & HC). rewrite Hat in He'. injection He' as <-.
  change (Some (ghost e)) with (Some (e_Term e, e_Command e)). rewrite <- HC. f_equal. lia.
Qed.

Lemma handed_cons n k e es :
  0 <= k -> handed n k (e :: es) -> e_Index e = k + 1 /\ C !! Z.to_nat k = Some (ghost e) /\ k + 1 <= commitIndex n /\
  (forall s, pendingSnapshot n = Some s -> k + 1 < LastIncludedIndex s) /\
  forall n', commitIndex n' = commitIndex n -> pendingSnapshot n' = pendingSnapshot n -> handed n' (k + 1) es.
Proof using Type.
  intros Hk (Hc & He & Hs). rewrite zlen_cons in *. pose proof (zlen_nonneg es).
  destruct (He 0%nat e eq_refl) as [Hx HC]. rewrite Nat.add_0_r in HC. split; [lia|]. split; [done|]. split; [lia|].
  split; [intros s Hp; specialize (Hs s Hp); lia|]. intros n' Ec Ep. unfold handed. rewrite Ec, Ep.
  split; [lia|]. split; [|intros s Hp; specialize (Hs s Hp); lia]. intros j e' Hj.
  destruct (He (S j) e' Hj) as [Hx' HC']. split; [lia|]. rewrite <- HC'. f_equal. lia.
Qed.

Lemma replica_restored n r snap e1 e2 sm :
  replica_ok n r -> pendingSnapshot n = Some snap ->
  RestoreSnapshot (r_sm r) e1 e2 (SnapshotData snap) = (sm, Ok tt) ->
  replica_ok n (MkReplica sm (Confirming (LastIncludedIndex snap)) (r_high r)).
Proof using All.
  intros [H1 H2 H3 H4 H5 H6 H7] Hp Hrs. split; cbn; try done; [by eapply RestoreSnapshot_inv|]. cbn. split; [|by exists snap].
  pose proof (G_pending _ _ H6 _ Hp) as Hg. unfold genuine, the_snapshot in Hg.
  rewrite Hp in H3. destruct H3 as (Hlt & _ & Hd). destruct (disk_snapshot (persister n)) as [s0|] eqn:Es; [|done].
  assert (exists data, image (exact (LastIncludedIndex snap)) = Ok data /\ SnapshotData snap = data) as (data & Him & Ed).
  { destruct (LastIncludedIndex snap =? 0) eqn:E0; [exfalso|destruct (image _) as [data|]; [by exists data|exfalso]];
      rewrite Hg in Hrs; vm_compute in Hrs; discriminate. }
  rewrite Ed in Hrs. by eapply restore_image; [..|exact Hrs|]; eauto using exact_dedup.
Qed.

Lemma CreateSnapshot_cases n f index data n' res :
  log_wf (log n) -> is_u64 index -> RaftNode.CreateSnapshot n f index data = (n', res) ->
  n' = n \/
  (base (log n) < index <= lastApplied n /\ exists t,
   lastApplied n' = lastApplied n /\ commitIndex n' = commitIndex n /\ pendingSnapshot n' = pendingSnapshot n /\
   disk_snapshot (persister n') = Some (MkSnapshot index t data) /\ chunkTransfer n' = chunkTransfer n /\
   ((base (log n') = base (log n) /\ snapshotData n' = snapshotData n) \/
    (base (log n') = index /\ snapshotData n' = data))).
Proof using Type.
  intros Hw Hu. unfold RaftNode.CreateSnapshot. destruct (index =? 0); [intros [= <- <-]; by left|].
  destruct (index <=? _) eqn:E1; [intros [= <- <-]; by left|].
  destruct (index >? lastApplied n) eqn:E2; [intros [= <- <-]; by left|].
  destruct (index >? commitIndex n) eqn:E3; [intros [= <- <-]; by left|]. zbool.
  destruct (TermAt (log n) index) as [t|] eqn:Et; [|intros [= <- <-]; by left].
  destruct (fail_snapshot f); [intros [= <- <-]; by left|].
  change (log (set_persister n _)) with (log n). unfold compact. rewrite Et. unfold persistLocked.
  destruct (fail_state f); intros [= <- <-]; right; (split; [lia|]); exists t; split_and!; try done; [by left|by right].
Qed.

Lemma replica_save n r index data f n' res :
  raft_ok n -> replica_ok n r -> r_phase r = Saving index data ->
  RaftNode.CreateSnapshot n f index data = (n', res) -> replica_ok n' (in_phase r Idle).
Proof using Type.
  intros HK [H1 H2 H3 H4 H5 H6 H7] Hph E. unfold phase_ok in H7. rewrite Hph in H7. destruct H7 as (Hu & Hd & Hh).
  destruct (CreateSnapshot_cases n f index data n' res (N_log _ (K_inv _ HK)) Hu E)
    as [->|(Hi & t & Ea & Ec & Ep & Es & Et & Eb)]; [by split|].
  specialize (Hd (proj1 Hi)).
  destruct (pendingSnapshot n) as [s|] eqn:Epn; [lia|].
  split; rewrite ?Ep, ?Ea, ?Es; try done.
  - destruct Eb as [[-> _]|[-> _]]; lia.
  - intros s [= <-]. pose proof (wf_base _ (N_log _ (K_inv _ HK))). cbn. lia.
  - destruct Eb as [[-> ->]|[-> ->]]; done.
  - split; [by intros s [= <-]%(eq_trans (eq_sym Es))|by rewrite Ep|]. rewrite Et. apply (G_transfer _ _ H6).
  - unfold phase_ok. cbn. intros _. rewrite Ea. by apply Hh.
Qed.

Lemma replica_confirm n r index n' :
  replica_ok n r -> r_phase r = Confirming index -> ConfirmSnapshotRestored n index = (n', Ok tt) ->
  replica_ok n' (MkReplica (r_sm r) Checked 0).
Proof using Type.
  intros [H1 H2 H3 H4 H5 H6 H7] Hph. unfold phase_ok in H7. rewrite Hph in H7. destruct H7 as (Hx & s & Hp & Hle).
  unfold ConfirmSnapshotRestored. rewrite Hp in *. destruct (LastIncludedIndex s =? index) eqn:Ei; [|done]. cbn [negb].
  destruct (index >? commitIndex n); [done|]. zbool. intros [= <-].
  destruct H3 as (Hlt & Hb & Hd).
  assert (index >? lastApplied n = true) as -> by (rewrite Z.gtb_ltb; apply Z.ltb_lt; lia).
  split; cbn; try done; [lia| |].
  - destruct H6 as [G1 G2 G3]. split; cbn; done.
  - split; [done|]. exists ∅. split; [apply agrees_empty|done].
Qed.

Lemma replica_marked n r e es n' :
  raft_ok n -> replica_ok n r -> r_phase r = Marking e es -> MarkApplied n (e_Index e) = (n', Ok tt) ->
  replica_ok n' (in_phase r (Applying es)).
Proof using Type.
  intros HK [H1 H2 H3 H4 H5 H6 H7] Hph. unfold phase_ok in H7. rewrite Hph in H7. destruct H7 as (Hx & Hh).
  destruct (handed_cons _ _ _ _ (proj1 (N_applied _ (K_inv _ HK))) Hh) as (Ei & _ & Hc & Hs & Hrest).
  unfold MarkApplied. rewrite Ei. destruct (_ <=? lastApplied n); [done|]. destruct (_ >? commitIndex n); [done|].
  intros [= <-]. split; cbn; try done.
  - destruct (pendingSnapshot n) as [s|] eqn:Ep; [|lia]. specialize (Hs s eq_refl). split; [lia|apply H3].
  - destruct H6 as [G1 G2 G3]. split; cbn; done.
  - split; [done|]. by apply Hrest.
Qed.

Lemma replica_check n r : replica_ok n r -> r_phase r = Idle -> pendingSnapshot n = None -> replica_ok n (in_phase r Checked).
Proof using Type.
  intros [H1 H2 H3 H4 H5 H6 H7] Hph Hp. unfold phase_ok in H7. rewrite Hph in H7.
  split; try done. split; [done|]. by apply H7.
Qed.

(** A failure gives up the call. *)
Lemma replica_gives_up n r sm :
  replica_ok n r -> sm_inv sm -> abs sm = abs (r_sm r) ->
  match r_phase r with Applying _ => True | _ => False end -> replica_ok n (MkReplica sm Idle (r_high r)).
Proof using Type.
  intros [H1 H2 H3 H4 H5 H6 H7] Hi Ha Hph. unfold phase_ok in H7.
  destruct (r_phase r); try done. destruct H7 as [(m0 & Hag & Hm) _].
  split; try done. intros _. exists m0. cbn. split; [done|congruence].
Qed.

Lemma mark_never_fails n r e es n' err :
  raft_ok n -> replica_ok n r -> r_phase r = Marking e es -> MarkApplied n (e_Index e) <> (n', Err err).
Proof using Type.
  intros HK [_ _ _ _ _ _ H7] Hph. unfold phase_ok in H7. rewrite Hph in H7. destruct H7 as (_ & Hh).
  destruct (handed_cons _ _ _ _ (proj1 (N_applied _ (K_inv _ HK))) Hh) as (Ei & _ & Hc & _).
  unfold MarkApplied. rewrite Ei, (proj2 (Z.leb_gt _ _)), Z.gtb_ltb, (proj2 (Z.ltb_ge _ _)) by lia. done.
Qed.

Lemma confirm_err n index n' e : ConfirmSnapshotRestored n index = (n', Err e) -> n' = n.
Proof using Type.
  unfold ConfirmSnapshotRestored. destruct (pendingSnapshot n); [|by intros [= <- <-]].
  destruct (negb _); [by intros [= <- <-]|]. destruct (_ >? commitIndex n); [by intros [= <- <-]|done].
Qed.

Lemma capture_exact n r order data :
  raft_ok n -> replica_ok n r -> holds r (lastApplied n) -> r_high r <= lastApplied n -> 0 < lastApplied n ->
  order ≡ₚ map_to_list (sm_dedup (r_sm r)) -> SmSnapshot.CreateSnapshot (r_sm r) order = Ok data ->
  data = the_snapshot (lastApplied n) 0.
Proof using All.
  intros HK Hr (m0 & Hag & Hm) Hh H0 Ho Hc. rewrite (capture_image _ _ (R_sm _ _ Hr) Ho), Hm in Hc.
  rewrite (agrees_run _ m0 (r_high r)) in Hc by (done || (pose proof (R_high _ _ Hr); lia)).
  unfold the_snapshot, exact. rewrite (proj2 (Z.eqb_neq _ _)) by lia. by rewrite Hc.
Qed.

Lemma replica_astep n r n' r' : raft_ok n -> replica_ok n r -> astep n r n' r' -> replica_ok n' r'.
Proof using All.
  intros HK Hr Hs. pose proof (N_applied _ (K_inv _ HK)) as Ha. pose proof (LastIndex_bound _ (N_log _ (K_inv _ HK))) as Hb.
  pose proof (K_bound _ HK). pose proof Hr as [H1 H2 H3 H4 H5 H6 H7]. unfold phase_ok in H7.
  destruct Hs as [Hph Hp|snap e1 e2 sm Hph Hp E|snap e1 e2 sm e Hph Hp E|index n' Hph E|index n' e Hph E|Hph|from Hph|Hph|
    e es Hph _|e es c env sm res Hph Hc E|e es c env sm fault Hph Hc E|e es n' Hph E|e es n' err Hph E|
    order data Hph Ho Hh E|index data f n' res Hph E]; rewrite Hph in H7.
  - by apply replica_check.
  - by eapply replica_restored.
  - split; cbn; try done; [by eapply RestoreSnapshot_inv|]. cbn. congruence.
  - by eapply replica_confirm.
  - apply confirm_err in E as ->. destruct H7 as (_ & s & Hp & _). split; try done. cbn. congruence.
  - destruct H7 as [Hp Hh]. split; try done. cbn. split_and!; try done. apply u64_small. unfold is_u64. lia.
  - destruct H7 as (Hp & Hh & ->). split; try done. cbn. split; [done|]. rewrite Hp in H3. by apply fetch_handed.
  - destruct H7 as [Hh _]. split; try done. by intros _.
  - apply (replica_gives_up n r (r_sm r)); [done|done|done|by rewrite Hph].
  - destruct H7 as [Hh Hx]. destruct (handed_cons _ _ _ _ (proj1 Ha) Hx) as (_ & HC & _).
    destruct (Apply_spec _ _ _ _ _ H1 E) as [Hi _]. split; cbn; try done. split; [|done].
    eapply (holds_apply r (lastApplied n) e c); done || lia.
  - destruct (Apply_spec _ _ _ _ _ H1 E) as [Hi Hsame]. apply (replica_gives_up n r sm); [done|done|done|by rewrite Hph].
  - by eapply replica_marked.
  - by apply (mark_never_fails n r e es n' err HK Hr Hph) in E.
  - split; try done. cbn. split; [unfold is_u64; lia|]. split; [|done]. intros Hlt.
    pose proof (wf_base _ (N_log _ (K_inv _ HK))).
    destruct (pendingSnapshot n) as [s|] eqn:Ep; [lia|]. eapply (capture_exact n r); eauto. lia.
  - by eapply replica_save.
Qed.

(** *** So do restarts *)

Lemma reopened_agrees n r st k :
  raft_ok n -> replica_ok n r -> disk_snapshot (persister n) = None -> reopened n r st k ->
  agrees cmds (store_view st) (Z.max (r_high r) k).
Proof using All.
  intros HK [H1 H2 H3 H4 H5 H6 H7] Hd Hro. pose proof (N_applied _ (K_inv _ HK)) as Ha.
  assert (pendingSnapshot n = None) as Hp.
  { destruct (pendingSnapshot n) as [s|]; [|done]. by destruct H3 as (_ & _ & ?). }
  assert (holds r (reached n r)) as (m0 & Hag & Hm).
  { unfold phase_ok, reached in *. destruct (r_phase r); try (by apply H7).
    destruct H7 as (_ & s & ? & _). congruence. }
  assert (0 <= reached n r) as H0 by (unfold reached; destruct (r_phase r); lia).
  destruct Hro as [Hv|e c Hr Hc He Hdec Hv].
  - replace (store_view st) with (state_at m0 cmds (reached n r)).1 by (rewrite <- Hm; done).
    by apply agrees_again.
  - rewrite Hr in *. destruct (K_shows _ HK) as (_ & Hsh & _). pose proof (N_snapshot _ (K_inv _ HK)) as Hsn.
    unfold snapshot_inv in Hsn. rewrite Hd in Hsn.
    destruct (Hsh (lastApplied n + 1) ltac:(lia)) as (e' & He' & _ & HC). rewrite He in He'. injection He' as <-.
    replace (Z.to_nat (lastApplied n + 1) - 1)%nat with (Z.to_nat (lastApplied n)) in HC by lia.
    rewrite Hv, Hm, <- (state_at_step m0 cmds (lastApplied n) c (proj1 Ha) (command_at _ _ _ HC Hdec)).
    apply agrees_again; [done|lia|done].
Qed.

Lemma replica_crash n r t n' st k :
  raft_ok n -> replica_ok n r -> newNode (cfg n) (persister n) t = Ok n' -> store_inv st ->
  (disk_snapshot (persister n) = None -> reopened n r st k) ->
  replica_ok n' (MkReplica (NewKVStateMachine st) Idle (Z.max (r_high r) k)).
Proof using All.
  intros HK Hr Hn Hst Hro. pose proof (reopened_agrees n r st k HK Hr) as Hag.
  destruct Hr as [H1 H2 H3 H4 H5 H6 H7]. pose proof (G_disk _ _ H6) as G1.
  unfold newNode in Hn. destruct (match disk_state (persister n) with Some _ => _ | None => _ end) as [[term vote] ents].
  destruct (disk_snapshot (persister n)) as [s|] eqn:Es.
  - destruct (match head _ with Some _ => _ | None => _ end); [done|]. injection Hn as <-.
    pose proof (H4 s eq_refl) as Hpos. pose proof (G1 s eq_refl) as Hgen.
    split; cbn; rewrite ?Es; try done; [lia|]. split; cbn; rewrite ?Es; [done|by intros ? [= <-]|done].
  - injection Hn as <-. split; cbn; rewrite ?Es; try done; [lia| |].
    + split; cbn; rewrite ?Es; done.
    + intros _. exists (store_view st). split; [|done]. cbn. apply Hag; [done|]. by apply Hro.
Qed.
End Fixed.

(** ** The system *)

Section System.
Context (members : gset bytes) (cfg_of : bytes -> Config).
Context (Hid : forall i, i ∈ members -> c_id (cfg_of i) = i /\ i <> []).
Context (Hpeers : forall i, i ∈ members ->
  NoDup (i :: c_peers (cfg_of i)) /\ list_to_set (i :: c_peers (cfg_of i)) = members).

Lemma shows_later n C C' : shows n C -> C `prefix_of` C' -> shows n C'.
Proof using Type.
  intros (Hc & He & Hs) Hp. pose proof (prefix_length _ _ Hp). split; [lia|]. split.
  - intros k Hk. destruct (He k Hk) as (e & Ee & Ei & HC). exists e. split_and!; try done.
    by eapply prefix_lookup_Some.
  - intros s Hd. destruct (Hs s Hd) as [Hl Ht]. split; [lia|]. by eapply gterm_prefix.
Qed.

Lemma cluster_raft_ok w C C' i n :
  cluster_log members cfg_of w C -> C `prefix_of` C' -> w_nodes w !! i = Some n -> raft_ok C' n.
Proof using Hid Hpeers.
  intros (H1 & T & HW & HC & Hall) Hp Hi. destruct (W_node _ _ _ _ HW _ _ Hi) as (g & _ & HF).
  split; [exact (F_inv _ _ _ _ _ HF)| |].
  - eapply shows_later; [|done]. eapply covers_shows; eauto.
  - rewrite (rep_length _ _ (F_rep _ _ _ _ _ HF)). pose proof (decided_length _ _ _ _ _ (F_commit _ _ _ _ _ HF)).
    pose proof (N_applied _ (F_inv _ _ _ _ _ HF)). lia.
Qed.

Lemma cluster_mail_bounded w C : cluster_log members cfg_of w C -> mail_bounded (w_mail w).
Proof using Type.
  intros (H1 & T & HW & _). exact (mail_bounds _ _ _ _ HW).
Qed.

Lemma update_same w i n : w_nodes w !! i = Some n -> update w i n [] = w.
Proof using Type. intros Hi. destruct w as [ns ms]. unfold update. cbn in *. by rewrite insert_id. Qed.

Lemma sstep_wstep C s s' : SInv C s -> sstep s s' -> s_world s' = s_world s \/ wstep (s_world s) (s_world s').
Proof using Type.
  intros HS Hst. destruct Hst as [i n r n' ms Hi Hr Hs|i n r n' r' Hi Hr Hs|i n r t n' st k Hi Hr Hn Hst Hro]; cbn.
  - right. by eapply rstep_wstep.
  - destruct (S_reps _ _ HS _ _ Hi) as (r0 & Hr0 & Hok). rewrite Hr in Hr0. injection Hr0 as <-.
    destruct Hs; try (left; by apply update_same); right; eauto using wstep, wrun.
    pose proof (R_phase _ _ _ Hok) as Hp. unfold phase_ok in Hp.
    match goal with E : r_phase r = Saving _ _ |- _ => rewrite E in Hp end. destruct Hp as [Hu _]. by eapply ws_run, ws_create_snapshot.
  - right. by eapply ws_crash.
Qed.

Lemma SInv_move C s i n ms r :
  SInv C s -> replica_ok C n r -> mail_ok C ms -> SInv C (move s i n ms r).
Proof using Type.
  intros [HR HM] Hok Hms. split; cbn.
  - intros j m Hj. destruct (decide (i = j)) as [<-|Hne].
    + rewrite lookup_insert_eq in Hj. injection Hj as <-. exists r. by rewrite lookup_insert_eq.
    + rewrite lookup_insert_ne in Hj by done. rewrite lookup_insert_ne by done. by apply HR.
  - intros from to term snap [Hin|Hin]%elem_of_app; [by eapply Hms|by eapply HM].
Qed.

Lemma SInv_step C0 C s s' :
  cluster_log members cfg_of (s_world s) C0 -> C0 `prefix_of` C -> SInv C s -> sstep s s' -> SInv C s'.
Proof using All.
  intros HC Hp HS Hst. pose proof (cluster_mail_bounded _ _ HC) as Hb.
  assert (forall i n r, w_nodes (s_world s) !! i = Some n -> s_reps s !! i = Some r -> raft_ok C n /\ replica_ok C n r) as Hok.
  { intros i n r Hi Hr. split; [by eapply cluster_raft_ok|]. destruct (S_reps _ _ HS _ _ Hi) as (r0 & Hr0 & Hok). congruence. }
  destruct Hst as [i n r n' ms Hi Hr Hs|i n r n' r' Hi Hr Hs|i n r t n' st k Hi Hr Hn Hst Hro];
    destruct (Hok _ _ _ Hi Hr) as [HK HR].
  - destruct (replica_rstep C i n r _ n' ms HK HR (S_mail _ _ HS) Hb Hs) as [HR' Hm]. by apply SInv_move.
  - apply SInv_move; [done|by eapply replica_astep|]. apply mail_quiet. by intros * ?%not_elem_of_nil.
  - apply SInv_move; [done|by eapply replica_crash|]. apply mail_quiet. by intros * ?%not_elem_of_nil.
Qed.

Definition refines (s : system) (C : glog) : Prop :=
  cluster_log members cfg_of (s_world s) C /\ forall C', C `prefix_of` C' -> SInv C' s.

Lemma refines_initial s : sinitial members cfg_of s -> refines s [].
Proof using Hid.
  intros [Hw Hreps]. split; [by apply cluster_log_initial|]. intros C' _. split.
  - intros i n Hi. destruct (Hreps i n Hi) as (st & Hst & Hv & Hr). eexists. split; [exact Hr|].
    destruct (proj2 Hw i n Hi) as (_ & t & E). injection E as <-. split; cbn; try done.
    intros _. exists ∅. split; [apply agrees_empty|]. unfold abs. cbn. by rewrite Hv.
  - destruct Hw as [-> _]. apply mail_quiet. by intros * ?%not_elem_of_nil.
Qed.

Lemma refines_step s C s' : refines s C -> sstep s s' -> exists C', C `prefix_of` C' /\ refines s' C'.
Proof using All.
  intros [HC HS] Hst. destruct (sstep_wstep C s s' (HS C (reflexivity C)) Hst) as [E|Hs].
  - exists C. split; [done|]. split; [by rewrite E|]. intros C' Hp. exact (SInv_step C C' s s' HC Hp (HS C' Hp) Hst).
  - destruct (cluster_log_grows members cfg_of Hid Hpeers _ _ _ HC Hs) as (C1 & Hp1 & HC1). exists C1. split; [done|].
    split; [done|]. intros C' Hp. assert (C `prefix_of` C') as Hp' by (by etrans). exact (SInv_step C C' s s' HC Hp' (HS C' Hp') Hst).
Qed.

Lemma refines_replica s C i n r :
  refines s C -> w_nodes (s_world s) !! i = Some n -> s_reps s !! i = Some r ->
  shows n C /\ (pendingSnapshot n = None -> 0 <= reached n r <= Z.of_nat (length C) /\
    (r_high r <= reached n r -> abs (r_sm r) = state_at ∅ (commands C) (reached n r))).
Proof using All.
  intros [HC HS] Hi Hr. pose proof (cluster_raft_ok _ _ C _ _ HC (reflexivity C) Hi) as HK.
  destruct (S_reps _ _ (HS C (reflexivity C)) _ _ Hi) as (r0 & Hr0 & Hok). rewrite Hr in Hr0. injection Hr0 as <-.
  pose proof (K_shows _ _ HK) as Hsh. split; [done|]. intros Hp. destruct Hsh as (Hc & _).
  pose proof (N_applied _ (K_inv _ _ HK)) as Ha. pose proof (R_phase _ _ _ Hok) as Hph. unfold phase_ok in Hph.
  assert (0 <= reached n r <= Z.of_nat (length C) /\ holds C r (reached n r)) as [Hb (m0 & Hag & Hm)].
  { unfold reached. destruct (r_phase r); try (split; [lia|by apply Hph]).
    - destruct Hph as (_ & s0 & ? & _). congruence.
    - destruct Hph as [Hh Hx]. destruct (handed_cons _ _ _ _ _ (proj1 Ha) Hx) as (_ & _ & Hle & _). split; [lia|done]. }
  split; [done|]. intros Hh. rewrite Hm. apply (agrees_run _ _ (r_high r)); [|done].
  pose proof (R_high _ _ _ Hok). lia.
Qed.
End System.
End Replicas.
Arguments replica : clear implicits.
Arguments system : clear implicits.

(** ** The applier's calls are paths

    [ApplyAvailable], with whatever happens in its gaps, goes through the
    steps of [astep] from [Idle] to [Idle]; so does [CreateSnapshot]. *)
Section Paths.
Context {St Env : Type} `{Store St Env, !StoreLaws St Env}.
Implicit Types (r : replica St) (w : surroundings Env).

Inductive tstep w : Node * replica St -> Node * replica St -> Prop :=
| ts_gap k n r : tstep w (n, r) (gap w k n, r)
| ts_call n r n' r' : astep n r n' r' -> tstep w (n, r) (n', r').

Lemma call_then w n r n1 r1 x : astep n r n1 r1 -> rtc (tstep w) (n1, r1) x -> rtc (tstep w) (n, r) x.
Proof using Type. intros Hs Hx. eapply rtc_l; [by apply ts_call|done]. Qed.

Lemma gap_then w k n r x : rtc (tstep w) (gap w k n, r) x -> rtc (tstep w) (n, r) x.
Proof using Type. intros Hx. eapply rtc_l; [by apply ts_gap|done]. Qed.

Lemma apply_entries_path w k n r entries applied a' applied' res :
  r_phase r = Applying entries ->
  apply_entries w k (MkApplier n (r_sm r)) entries applied = (a', applied', res) ->
  exists high, rtc (tstep w) (n, r) (ap_node a', MkReplica (ap_sm a') Idle high).
Proof using Type.
  revert k n r applied. induction entries as [|e es IH]; intros k n r applied Hp E; cbn in E.
  { injection E as <- <- <-. exists (r_high r). by eapply call_then; [apply as_done|apply rtc_refl]. }
  destruct (DecodeCommand (e_Command e)) as [c| |] eqn:Ed.
  2-3: injection E as <- <- <-; exists (r_high r); (eapply call_then; [eapply (as_decode_fails n r e es); congruence|apply rtc_refl]).
  destruct (Apply (r_sm r) (env_apply w k) c) as [sm [out|f]] eqn:Ea.
  2: { injection E as <- <- <-. exists (r_high r).
       eapply call_then; [by eapply (as_apply_fails n r e es c)|apply rtc_refl]. }
  set (n1 := gap w (S (S (S k))) n) in E.
  destruct (MarkApplied n1 (e_Index e)) as [n2 [[]|err]] eqn:Em.
  - destruct (IH (S k) n2 (in_phase (MkReplica sm (Marking e es) (r_high r)) (Applying es)) _ eq_refl E) as (high & Hr).
    exists high. eapply call_then; [by eapply (as_apply n r e es c)|]. apply (gap_then w (S (S (S k)))). fold n1.
    eapply call_then; [|exact Hr]. by eapply as_mark.
  - injection E as <- <- <-. exists (r_high r). eapply call_then; [by eapply (as_apply n r e es c)|].
    apply (gap_then w (S (S (S k)))). fold n1. eapply call_then; [by eapply as_mark_fails|apply rtc_refl].
Qed.

Lemma checked_path w n r a' applied res :
  r_phase r = Checked ->
  apply_entries w 0 (MkApplier (gap w 2 (gap w 1 n)) (r_sm r))
    (CommittedEntries (gap w 2 (gap w 1 n)) (u64 (lastApplied (gap w 1 n) + 1))) 0 = (a', applied, res) ->
  exists high, rtc (tstep w) (n, r) (ap_node a', MkReplica (ap_sm a') Idle high).
Proof using Type.
  intros Hp E. set (from := u64 (lastApplied (gap w 1 n) + 1)) in E. set (n2 := gap w 2 (gap w 1 n)) in E.
  destruct (apply_entries_path w 0 n2 (in_phase (in_phase r (Fetching from)) (Applying (CommittedEntries n2 from)))
    _ _ _ _ _ eq_refl E) as (high & Hr).
  exists high. apply (gap_then w 1). eapply call_then; [by apply as_from|]. fold from. apply (gap_then w 2). fold n2.
  eapply call_then; [by apply as_fetch|exact Hr].
Qed.

Lemma ApplyAvailable_path w n r a' applied res :
  r_phase r = Idle -> ApplyAvailable (MkApplier n (r_sm r)) w = (a', applied, res) ->
  exists high, rtc (tstep w) (n, r) (ap_node a', MkReplica (ap_sm a') Idle high).
Proof using Type.
  intros Hp. unfold ApplyAvailable, restorePendingSnapshotLocked. cbn [ap_node ap_sm].
  destruct (pendingSnapshot n) as [snap|] eqn:Es.
  2: { intros E. destruct (checked_path w n (in_phase r Checked) a' applied res eq_refl E) as (high & Hr).
       exists high. eapply call_then; [by apply as_check|exact Hr]. }
  destruct (RestoreSnapshot _ _ _ _) as [sm [[]|e]] eqn:Er.
  2: { intros [= <- <- <-]. exists (r_high r). eapply call_then; [by eapply as_restore_fails|apply rtc_refl]. }
  set (r1 := MkReplica sm (Confirming (LastIncludedIndex snap)) (r_high r)).
  destruct (ConfirmSnapshotRestored _ _) as [n1 [[]|e]] eqn:Ec; intros E.
  - destruct (checked_path w n1 (MkReplica (r_sm r1) Checked 0) a' applied res eq_refl E) as (high & Hr).
    exists high. eapply call_then; [by eapply as_restore|]. fold r1. apply (gap_then w 0).
    eapply call_then; [by eapply as_confirm|exact Hr].
  - injection E as <- <- <-. exists (r_high r). eapply call_then; [by eapply as_restore|]. fold r1.
    apply (gap_then w 0). eapply call_then; [by eapply as_confirm_fails|apply rtc_refl].
Qed.

Lemma CreateSnapshot_path w n r f order index a' res :
  r_phase r = Idle -> r_high r <= lastApplied n -> order ≡ₚ map_to_list (sm_dedup (r_sm r)) ->
  CreateSnapshot (MkApplier n (r_sm r)) w f order index = (a', res) ->
  exists high, rtc (tstep w) (n, r) (ap_node a', MkReplica (ap_sm a') Idle high).
Proof using Type.
  intros Hp Hh Ho. unfold CreateSnapshot. cbn [ap_node ap_sm].
  assert (rtc (tstep w) (n, r) (n, MkReplica (r_sm r) Idle (r_high r))) as Hstay.
  { destruct r as [sm p h]. cbn in *. subst p. apply rtc_refl. }
  destruct (index =? lastApplied n) eqn:Ei; cbn [negb]; [|intros [= <- <-]; by exists (r_high r)]. zbool. subst index.
  destruct (SmSnapshot.CreateSnapshot (r_sm r) order) as [data|e] eqn:Ed; [|intros [= <- <-]; by exists (r_high r)].
  destruct (RaftNode.CreateSnapshot _ _ _ _) as [n1 [[]|e]] eqn:Ec; intros [= <- <-]; exists (r_high r);
    (eapply call_then; [by eapply as_capture|]); apply (gap_then w 0);
    (eapply call_then; [by eapply as_save|apply rtc_refl]).
Qed.
End Paths.

(** ** Theorems *)

(** C2. The database refines its log, on the runs of [sstep]: a relation
    between states of the whole system (Raft nodes, appliers, state machines
    over their stores) and logs starts at the empty log; every such step
    (Raft's own, one call of an applier, a restart that keeps the store but
    not the deduplication table) leaves the log alone or appends; and always
    each node shows a prefix, and each replica with no snapshot to restore
    that has caught up with what its store kept from before a restart holds
    exactly the state the pure machine gives to the commands it has applied.
    Left out, since the code does not keep it there: a snapshot installed
    that does not reach beyond the receiver's commit index (snapshot.go:300)
    or installed between the applier's look for one and its read of the
    committed entries (applier.go:85); a log save failing after the snapshot
    save of an installation; a snapshot taken before a restarted replica has
    caught up (applier.go:150). Indices stay below 2^64. *)
Theorem replicas_refine_log {St Env} `{Store St Env, !StoreLaws St Env} (members : gset bytes) (cfg_of : bytes -> Config) :
  (forall i, i ∈ members -> c_id (cfg_of i) = i /\ i <> []) ->
  (forall i, i ∈ members ->
     NoDup (i :: c_peers (cfg_of i)) /\ list_to_set (i :: c_peers (cfg_of i)) = members) ->
  exists R : system St -> glog -> Prop,
    (forall s, sinitial members cfg_of s -> R s []) /\
    (forall s C s', R s C -> sstep s s' -> exists C', C `prefix_of` C' /\ R s' C') /\
    (forall s C i n r, R s C -> w_nodes (s_world s) !! i = Some n -> s_reps s !! i = Some r ->
       shows n C /\
       (pendingSnapshot n = None -> 0 <= reached n r <= Z.of_nat (length C) /\
          (r_high r <= reached n r ->
           abs (r_sm r) = (spec_run (∅, ∅) (take (Z.to_nat (reached n r)) (commands C))).1))).
Proof.
  intros Hid Hpeers. exists (refines members cfg_of). split; [by apply refines_initial|].
  split; [by apply refines_step|]. intros s C i n r. by apply refines_replica.
Qed.

(** ** A snapshot taken too early *)

Definition other2 : Command := NewPutCommand [x63] 2 [x6a] [x32].

(** A follower has applied both commands. *)
Definition ahead0 : Applier MemStore :=
  MkApplier (HandleAppendEntries (fresh_node nb) calm_faults
    (MkAEA 1 na 0 0 [Applier.entry_of 1 put1; Applier.entry_of 2 other2] 2)).1 (NewKVStateMachine sample_store).
Definition ahead1 : Applier MemStore := (ApplyAvailable ahead0 quietly).1.1.
(** It restarts, and hears from a leader that has seen one commit only. *)
Definition ahead2 : Node :=
  match newNode (trio_cfg nb) (persister (ap_node ahead1)) 0 with Ok n => n | Err _ => fresh_node nb end.
Definition ahead3 : Applier MemStore :=
  MkApplier (HandleAppendEntries ahead2 calm_faults (MkAEA 2 nc 1 1 [] 1)).1
    (NewKVStateMachine (sm_store (ap_sm ahead1))).
Definition ahead4 : Applier MemStore := (ApplyAvailable ahead3 quietly).1.1.
Definition ahead5 : Applier MemStore * result applier_error unit :=
  CreateSnapshot ahead4 quietly calm_faults (map_to_list (sm_dedup (ap_sm ahead4))) 1.

(** A snapshot may hold more than it says: a replica that restarted and
    has applied one of the two commands its store holds takes a snapshot at
    index 1, with the second command's key in it. *)
Theorem snapshot_during_replay_is_ahead :
  ApplyAvailable ahead3 quietly = (ahead4, 1, Ok tt) /\ lastApplied (ap_node ahead4) = 1 /\ ahead5.2 = Ok tt /\
  match disk_snapshot (persister (ap_node ahead5.1)) with
  | Some s => LastIncludedIndex s = 1 /\
      match decodeKVStateMachineSnapshot (SnapshotData s) with
      | Done (kv, _) => kv = [([x6a], [x32]); ([x6b], [x31])]
      | _ => False
      end
  | None => False
  end /\
  (state_at ∅ [put1; other2] 1).1 !! [x6a] = None.
Proof. split_and!; vm_compute; repeat split; reflexivity. Qed.

(** ** Witness: one node that commits and applies a command *)

Definition me : bytes := [x61].
Definition solo_node : Node := (Propose lone1 calm_faults (command_bytes put1)).1.1.
Definition solo_entry : LogEntry := Applier.entry_of 1 put1.
Definition solo_replica (p : phase) : replica MemStore := MkReplica (NewKVStateMachine sample_store) p 0.
Definition solo_applied (p : phase) : replica MemStore := MkReplica one_applied p 0.
Definition solo (n : Node) (r : replica MemStore) : system MemStore := MkSystem (MkWorld {[me := n]} []) {[me := r]}.

Lemma solo_move n r n' r' : move (solo n r) me n' [] r' = solo n' r'.
Proof. reflexivity. Qed.

Lemma solo_apply n r n' r' x : astep n r n' r' -> rtc sstep (solo n' r') x -> rtc sstep (solo n r) x.
Proof.
  intros Hs Hx. eapply rtc_l; [|exact Hx]. rewrite <- (solo_move n r n' r').
  eapply ss_apply; [apply lookup_singleton_eq|apply lookup_singleton_eq|done].
Qed.

Lemma solo_raft n r n' x : rstep (r_phase r) me n [] n' [] -> rtc sstep (solo n' r) x -> rtc sstep (solo n r) x.
Proof.
  intros Hs Hx. eapply rtc_l; [|exact Hx]. rewrite <- (solo_move n r n' r).
  eapply ss_raft; [apply lookup_singleton_eq|apply lookup_singleton_eq|done].
Qed.

Definition solo_end : system MemStore := solo (MarkApplied solo_node 1).1 (solo_applied (Applying [])).

Lemma solo_applies : rtc sstep (solo lone0 (solo_replica Idle)) solo_end.
Proof.
  apply (solo_raft _ _ lone1). { apply (rs_tick Idle me lone0 [] calm_faults lone1 []); vm_compute; reflexivity. }
  apply (solo_raft _ _ solo_node). 
  { apply (rs_propose Idle me lone1 [] calm_faults (command_bytes put1) solo_node [] (Ok (1, 1))); vm_compute; reflexivity. }
  apply (solo_apply _ _ solo_node (solo_replica Checked)). { apply as_check; vm_compute; reflexivity. }
  apply (solo_apply _ _ solo_node (solo_replica (Fetching 1))). { apply as_from. reflexivity. }
  apply (solo_apply _ _ solo_node (solo_replica (Applying [solo_entry]))).
  { apply (as_fetch solo_node (solo_replica (Fetching 1)) 1). reflexivity. }
  apply (solo_apply _ _ solo_node (solo_applied (Marking solo_entry []))).
  { eapply (as_apply solo_node (solo_replica (Applying [solo_entry])) solo_entry [] put1 sample_env);
      [reflexivity|vm_compute; reflexivity|vm_compute; reflexivity]. }
  apply (solo_apply _ _ (MarkApplied solo_node 1).1 (solo_applied (Applying []))).
  { eapply (as_mark solo_node (solo_applied (Marking solo_entry [])) solo_entry []); vm_compute; reflexivity. }
  apply rtc_refl.
Qed.

Definition solo_members : gset bytes := {[me]}.

Lemma solo_peers i : i ∈ solo_members ->
  NoDup (i :: c_peers lone_cfg) /\ list_to_set (i :: c_peers lone_cfg) = solo_members.
Proof.
  intros ->%elem_of_singleton. split; [apply NoDup_singleton|]. apply set_eq. intros x.
  unfold solo_members. by rewrite elem_of_list_to_set, elem_of_singleton, list_elem_of_singleton.
Qed.

Lemma solo_initial : sinitial solo_members (fun _ => lone_cfg) (solo lone0 (solo_replica Idle)).
Proof.
  split; [split; [done|]|]; intros i n Hi; apply (lookup_singleton_Some me i lone0 n) in Hi as [<- <-].
  - split; [by apply elem_of_singleton|]. exists 0. reflexivity.
  - exists sample_store. split; [apply sample_store_inv|]. split; [vm_compute; reflexivity|apply lookup_singleton_eq].
Qed.

Example replicas_refine_log_witness :
  exists C, (1 <= length C)%nat /\ abs one_applied = (spec_run (∅, ∅) (take 1 (commands C))).1.
Proof.
  destruct (replicas_refine_log (St := MemStore) (Env := store_env) solo_members (fun _ => lone_cfg)) as (R & R0 & RS & RG).
  - intros i Hi. apply elem_of_singleton in Hi as ->. by split.
  - apply solo_peers.
  - pose proof (R0 _ solo_initial) as H0.
    assert (forall s s' C, rtc sstep s s' -> R s C -> exists C', R s' C') as Hrun.
    { intros s s' C Hr. revert C. induction Hr as [s|s s1 s' Hs _ IH]; intros C HC; [by exists C|].
      destruct (RS s C s1 HC Hs) as (C1 & _ & HC1). by eapply IH. }
    destruct (Hrun _ _ _ solo_applies H0) as (C & HC). exists C.
    destruct (RG solo_end C me (MarkApplied solo_node 1).1 (solo_applied (Applying [])) HC
      (lookup_singleton_eq _ _) (lookup_singleton_eq _ _)) as [_ Hrep].
    destruct Hrep as [Hle Hst]; [vm_compute; reflexivity|].
    assert (reached (MarkApplied solo_node 1).1 (solo_applied (Applying [])) = 1) as E by (vm_compute; reflexivity).
    rewrite E in Hle, Hst. split; [lia|]. apply Hst. vm_compute. congruence.
Defined.
