(* ===== verification/Lifecycle.v ===== *)
(** * The goroutines of a node

    One process of the cluster: the ticking goroutine of internal/raft's
    [Run] and [Stop], the RPC goroutines [trackRPC] counts and [Drain] waits
    for, the applying goroutine of the applier's [Run] and [Stop], and the
    steps of internal/dbnode's [Close]. What the goroutines call are the
    steps of Replica's system, one call at a time. *)

From S2P Require Import Prelude Bytes Codec Wal SkipList MemStore Command StateMachine SmSnapshot.
From S2P Require Import RaftLog RaftFormat RaftPersist RaftNode RaftElection RaftDurable RaftGhost RaftSafety RaftSteps RaftAgreement RaftCommit.
From S2P Require Import Applier Replica.
From stdpp Require Import base tactics list numbers gmap relations.
From Stdlib Require Import Strings.Byte.
From Stdlib Require Import ZArith Lia.
#[local] Open Scope Z_scope.

(** ** Every commit is announced *)

(** Raft leaves the applied index to the applier, and whatever raises the
    commit index, as installing a snapshot does, puts a token in [commitCh]. *)
Record announces (n n' : Node) : Prop := {
  an_applied : lastApplied n' = lastApplied n;
  an_keeps : commitCh n = true -> commitCh n' = true;
  an_commit : (commitIndex n' = commitIndex n /\ pendingSnapshot n' = pendingSnapshot n) \/
              (commitIndex n < commitIndex n' /\ commitCh n' = true) }.

Lemma announces_refl n : announces n n.
Proof. split; [done|done|]. by left. Qed.

Lemma announces_trans a b c : announces a b -> announces b c -> announces a c.
Proof.
  intros [A1 K1 C1] [A2 K2 C2]. split; [congruence|auto|].
  destruct C1 as [[E1 P1]|[L1 T1]], C2 as [[E2 P2]|[L2 T2]].
  - left. split; congruence.
  - right. split; [lia|done].
  - right. split; [lia|by apply K2].
  - right. split; [lia|done].
Qed.

Ltac announces_now := split; [done|done|by left].
Ltac announces_via H := eapply announces_trans; [|apply H]; announces_now.

Lemma announces_step_down n f term n' : becomeFollowerLocked n f term = Some n' -> announces n n'.
Proof. unfold becomeFollowerLocked, persistLocked. destruct (fail_term f); intros [= <-]. announces_now. Qed.

Lemma announces_prologue n f term n' :
  (if term >? currentTerm n then becomeFollowerLocked n f term else Some n) = Some n' -> announces n n'.
Proof. case_if; [apply announces_step_down|intros [= <-]; apply announces_refl]. Qed.

Lemma announces_default n f term : announces n (default n (becomeFollowerLocked n f term)).
Proof. destruct (becomeFollowerLocked n f term) eqn:E; [by eapply announces_step_down|apply announces_refl]. Qed.

Lemma announces_advance n : announces n (maybeAdvanceCommitIndexLocked n).
Proof.
  destruct (commit_rule n) as [(N & HN & _ & _ & ->)|[_ ->]]; [|apply announces_refl].
  split; [done|done|]. right. cbn. split; [lia|done].
Qed.

Lemma announces_leader n : announces n (becomeLeaderLocked n).1.
Proof. unfold becomeLeaderLocked, broadcastAppendEntriesLocked. cbn [fst]. announces_via announces_advance. Qed.

Lemma announces_election n f : announces n (startElectionLocked n f).1.
Proof.
  unfold startElectionLocked, persistLocked. destruct (fail_state f); [apply announces_refl|].
  case_if; [announces_via announces_leader|announces_now].
Qed.

Lemma announces_Tick n f : announces n (Tick n f).1.
Proof.
  unfold Tick. destruct (role n); case_if; try announces_now; [announces_via announces_election..|announces_via announces_advance].
Qed.

Lemma announces_HandleRequestVote n f args : announces n (HandleRequestVote n f args).1.
Proof.
  unfold HandleRequestVote.
  destruct (if rv_Term args >? currentTerm n then _ else _) as [n1|] eqn:E; [|apply announces_refl].
  eapply announces_trans; [by eapply announces_prologue|].
  case_if; [apply announces_refl|]. case_if; [apply announces_refl|].
  unfold persistLocked. destruct (fail_state f); [apply announces_refl|announces_now].
Qed.

Lemma announces_onRequestVoteReply n f peer term reply n' rpcs :
  onRequestVoteReply n f peer term reply = Some (n', rpcs) -> announces n n'.
Proof.
  unfold onRequestVoteReply. case_if; [intros [= <- <-]; apply announces_default|].
  case_if; [intros [= <- <-]; apply announces_refl|]. case_if; [intros [= <- <-]; apply announces_refl|].
  destruct (votesReceived n) as [V|]; [|done]. case_if; [|intros [= <- <-]; announces_now].
  intros Hn. injection Hn as <- _. announces_via announces_advance.
Qed.

Lemma announces_onAppendEntriesReply n f peer term args reply :
  announces n (onAppendEntriesReply n f peer term args reply).1.
Proof.
  unfold onAppendEntriesReply. case_if; [apply announces_default|]. case_if; [apply announces_refl|].
  case_if; cbn [fst]; [announces_via announces_advance|case_if; announces_now].
Qed.

Lemma announces_onInstallSnapshotReply n f peer term snap final reply :
  announces n (onInstallSnapshotReply n f peer term snap final reply).1.
Proof.
  unfold onInstallSnapshotReply. case_if; [apply announces_default|]. case_if; [apply announces_refl|].
  case_if; [apply announces_refl|]. case_if; [|apply announces_refl]. cbn [fst]. announces_via announces_advance.
Qed.

Lemma announces_HandleAppendEntries n f args : announces n (HandleAppendEntries n f args).1.
Proof.
  unfold HandleAppendEntries.
  destruct (if ae_Term args >? currentTerm n then _ else _) as [n1|] eqn:E; [|apply announces_refl].
  eapply announces_trans; [by eapply announces_prologue|]. case_if; [apply announces_refl|]. case_if; [announces_now|].
  destruct (AppendAfter _ _ _) as [l changed]. unfold persistLocked. destruct changed; [destruct (fail_state f); [announces_now|]|];
    cbn [fst]; repeat case_if; zbool; (split; [done|done|]); first [by left|right; cbn in *; split; [lia|done]].
Qed.

Lemma announces_Propose n f command : announces n (Propose n f command).1.1.
Proof.
  unfold Propose. case_if; [apply announces_refl|]. unfold persistLocked, log_Append.
  destruct (fail_state f); [apply announces_refl|]. cbn [broadcastAppendEntriesLocked fst].
  eapply announces_trans; [|apply announces_advance]. announces_now.
Qed.

Lemma base_boundary l index term : base (installSnapshotBoundary l index term) = index.
Proof. unfold installSnapshotBoundary. by repeat case_match. Qed.

(** An installation announces itself when it raises the commit index. *)
Lemma announces_HandleInstallSnapshot n f args n' reply :
  HandleInstallSnapshot n f args = (n', reply) ->
  (base (log n') <> base (log n) -> commitIndex n < is_LastIncludedIndex args) -> announces n n'.
Proof.
  unfold HandleInstallSnapshot.
  destruct (if is_Term args >? currentTerm n then _ else _) as [n1|] eqn:E; [|intros [= <- <-] _; apply announces_refl].
  apply step_down_same in E as Hsame. destruct Hsame as (Ec & _ & El). rewrite <- Ec, <- El.
  intros E' Hc. eapply announces_trans; [by eapply announces_prologue|]. clear E Ec El n. revert E' Hc.
  destruct (is_Term args <? currentTerm n1); [intros [= <- <-] _; apply announces_refl|]. set (n2 := resetElectionTimerLocked _ _).
  destruct (is_LastIncludedIndex args <=? base (log n2)) eqn:Eb; zbool.
  { destruct (chunkTransfer n2); [destruct (_ >=? _)|]; intros [= <- <-] _; announces_now. }
  assert (forall t data,
    installSnapshot (set_transfer n2 t) f (is_LastIncludedIndex args) (is_LastIncludedTerm args) data = (n', reply) ->
    (base (log n') <> base (log n1) -> commitIndex n1 < is_LastIncludedIndex args) -> announces n1 n') as Hinst.
  { intros t data. unfold installSnapshot, persistLocked. destruct (fail_snapshot f); [intros [= <- <-] _; announces_now|].
    destruct (fail_state f); [intros [= <- <-] _; announces_now|]. intros [= <- <-] Hc.
    assert (commitIndex n1 < is_LastIncludedIndex args) as Hlt.
    { apply Hc. change (log n2) with (log n1) in Eb. case_if; cbn; rewrite base_boundary; lia. }
    case_if; zbool; cbn in *; [|lia]. split; [done|done|]. right. cbn. split; [lia|done]. }
  destruct (is_Chunked args); [|apply Hinst].
  destruct (receiveSnapshotChunkLocked _ _) as [t [| |data]]; [intros [= <- <-] _; announces_now..|]. apply Hinst.
Qed.

Lemma rstep_announces ph i n mail n' ms : rstep ph i n mail n' ms -> announces n n'.
Proof.
  destruct 1 as [f n' rpcs _ E|from args f n' reply _ E|from term reply f n' rpcs _ E|from args f n' reply Hin E|
    from args reply f n' b _ E|from term snap args f n' reply Hin Hch Hpc Hf E Hmay|
    from term snap final reply f n' b _ E|f command n' rpcs res _ E|res E].
  - pose proof (announces_Tick n f) as H. by rewrite E in H.
  - pose proof (announces_HandleRequestVote n f args) as H. by rewrite E in H.
  - by eapply announces_onRequestVoteReply.
  - pose proof (announces_HandleAppendEntries n f args) as H. by rewrite E in H.
  - pose proof (announces_onAppendEntriesReply n f from (ae_Term args) args reply) as H. by rewrite E in H.
  - eapply announces_HandleInstallSnapshot; [exact E|]. intros Hb. destruct (Hmay Hb) as [Hlt _].
    destruct Hch as (_ & _ & Hi & _). by rewrite Hi.
  - pose proof (announces_onInstallSnapshotReply n f from term snap final reply) as H. by rewrite E in H.
  - pose proof (announces_Propose n f command) as H. by rewrite E in H.
  - apply announces_refl.
Qed.

(** ** The goroutines *)

(** The goroutine of Raft's [Run]: not started, in its [select], in [Tick],
    returned. *)
Inductive ticker := TickerOff | TickerWaits | TickerTicks | TickerGone.
(** The goroutine of the applier's [Run]. *)
Inductive worker := WorkerOff | WorkerApplies | WorkerWaits | WorkerGone.
(** How far [Close] has come: not called, waiting in [Drain], waiting in the
    applier's [Stop], returned. *)
Inductive closer := NotClosing | Draining | StoppingApplier | Closed.

(** [t_inflight] counts the RPC goroutines, [t_token] is whether [commitCh]
    holds one, and [t_failed] whether the last [ApplyAvailable] returned an
    error; [t_store] is whether the store is open. *)
Record threads := MkThreads {
  t_ticker : ticker;
  t_raftStopped : bool;
  t_inflight : nat;
  t_worker : worker;
  t_applierStopped : bool;
  t_token : bool;
  t_failed : bool;
  t_closer : closer;
  t_store : bool }.

Definition opened_threads : threads := MkThreads TickerOff false 0 WorkerOff false false false NotClosing true.

Definition set_ticker (t : threads) (x : ticker) : threads :=
  MkThreads x (t_raftStopped t) (t_inflight t) (t_worker t) (t_applierStopped t) (t_token t) (t_failed t) (t_closer t) (t_store t).
Definition set_worker (t : threads) (x : worker) (failed : bool) : threads :=
  MkThreads (t_ticker t) (t_raftStopped t) (t_inflight t) x (t_applierStopped t) (t_token t) failed (t_closer t) (t_store t).
(** After a Raft step from [n] to [n'] that leaves [k] RPC goroutines. *)
Definition after_raft (t : threads) (n n' : Node) (k : nat) : threads :=
  MkThreads (t_ticker t) (t_raftStopped t) k (t_worker t) (t_applierStopped t)
    (t_token t || bool_decide (commitIndex n < commitIndex n')) (t_failed t) (t_closer t) (t_store t).
(** The applier's [select] takes the token out of [commitCh]. *)
Definition take_token (t : threads) : threads :=
  MkThreads (t_ticker t) (t_raftStopped t) (t_inflight t) (t_worker t) (t_applierStopped t) false (t_failed t) (t_closer t) (t_store t).

(** [Run], of the node: Raft's ticking goroutine and the applier's, which
    applies what there is before it first waits. *)
Definition Run (t : threads) : threads := set_worker (set_ticker t TickerWaits) WorkerApplies (t_failed t).

(** Raft's [Stop]: the ticking goroutine returns when it next comes to its
    [select]. *)
Definition raft_Stop (t : threads) : threads :=
  MkThreads (t_ticker t) true (t_inflight t) (t_worker t) (t_applierStopped t) (t_token t) (t_failed t) (t_closer t) (t_store t).
(** [Drain] returns once no RPC goroutine is left. *)
Definition Drained (t : threads) : bool := Nat.eqb (t_inflight t) 0.
(** The applier's [Stop], up to where it waits for the goroutine. *)
Definition applier_Stop (t : threads) : threads :=
  MkThreads (t_ticker t) (t_raftStopped t) (t_inflight t) (t_worker t) true (t_token t) (t_failed t) (t_closer t) (t_store t).
(** The goroutine it waits for was never started, or has returned. *)
Definition applierDone (t : threads) : bool := match t_worker t with WorkerOff | WorkerGone => true | _ => false end.

(** The steps of [Close], each up to where it waits. *)
Definition set_closer (t : threads) (c : closer) (store : bool) : threads :=
  MkThreads (t_ticker t) (t_raftStopped t) (t_inflight t) (t_worker t) (t_applierStopped t) (t_token t) (t_failed t) c store.
Definition Close (t : threads) : option threads :=
  match t_closer t with
  | NotClosing => Some (set_closer (raft_Stop t) Draining (t_store t))
  | Draining => if Drained t then Some (set_closer (applier_Stop t) StoppingApplier (t_store t)) else None
  | StoppingApplier => if applierDone t then Some (set_closer t Closed false) else None
  | Closed => None
  end.

Section Process.
Context {St Env : Type} `{Store St Env, !StoreLaws St Env}.
(** The process is the node [i] of the system. *)
Context (i : bytes).
Implicit Types (s : system St) (t : threads) (n : Node) (r : replica St).

Definition saving (p : phase) : bool := match p with Saving _ _ => true | _ => false end.

(** [ApplyAvailable] returns when the applier is idle again, without an error
    when it has no entry left to apply. *)
Definition after_apply t r r' : threads :=
  match r_phase r' with
  | Idle => set_worker t WorkerWaits (match r_phase r with Applying [] => false | _ => true end)
  | _ => t
  end.

(** One step of the process or of the rest of the system. [lp_call] is a
    call from outside, a peer's or a client's; [lp_rpc] is an RPC goroutine
    that handles its reply, and either kind may start further goroutines.
    [lp_snapshot] is a step of the applier's [CreateSnapshot], which shares
    [applyMu] with [ApplyAvailable]. [Run] is called before [Close] if it is
    called at all, and once. *)
Inductive lstep : system St * threads -> system St * threads -> Prop :=
| lp_others s s' t :
    sstep s s' -> w_nodes (s_world s') !! i = w_nodes (s_world s) !! i -> s_reps s' !! i = s_reps s !! i ->
    lstep (s, t) (s', t)
| lp_run s t :
    t_ticker t = TickerOff -> t_worker t = WorkerOff -> t_closer t = NotClosing ->
    lstep (s, t) (s, Run t)
| lp_timer s t :
    t_ticker t = TickerWaits -> lstep (s, t) (s, set_ticker t TickerTicks)
| lp_tick s t n r f n' rpcs :
    t_ticker t = TickerTicks -> w_nodes (s_world s) !! i = Some n -> s_reps s !! i = Some r ->
    currentTerm n + 1 < 2 ^ 64 -> Tick n f = (n', rpcs) ->
    lstep (s, t) (move s i n' (posted i <$> rpcs) r, set_ticker (after_raft t n n' (t_inflight t + length rpcs)) TickerWaits)
| lp_ticker_stops s t :
    t_ticker t = TickerWaits -> t_raftStopped t = true -> lstep (s, t) (s, set_ticker t TickerGone)
| lp_call s t n r n' ms k :
    w_nodes (s_world s) !! i = Some n -> s_reps s !! i = Some r ->
    rstep (r_phase r) i n (w_mail (s_world s)) n' ms ->
    lstep (s, t) (move s i n' ms r, after_raft t n n' (t_inflight t + k))
| lp_rpc s t n r n' ms m k :
    t_inflight t = S m -> w_nodes (s_world s) !! i = Some n -> s_reps s !! i = Some r ->
    rstep (r_phase r) i n (w_mail (s_world s)) n' ms ->
    lstep (s, t) (move s i n' ms r, after_raft t n n' (m + k))
| lp_rpc_lost s t n m :
    t_inflight t = S m -> w_nodes (s_world s) !! i = Some n -> lstep (s, t) (s, after_raft t n n m)
| lp_apply s t n r n' r' :
    t_worker t = WorkerApplies -> w_nodes (s_world s) !! i = Some n -> s_reps s !! i = Some r -> astep n r n' r' ->
    saving (r_phase r) || saving (r_phase r') = false ->
    lstep (s, t) (move s i n' [] r', after_apply t r r')
| lp_snapshot s t n r n' r' :
    w_nodes (s_world s) !! i = Some n -> s_reps s !! i = Some r -> astep n r n' r' ->
    saving (r_phase r) || saving (r_phase r') = true ->
    lstep (s, t) (move s i n' [] r', t)
| lp_wake s t :
    t_worker t = WorkerWaits -> t_token t = true -> lstep (s, t) (s, set_worker (take_token t) WorkerApplies (t_failed t))
| lp_worker_stops s t :
    t_worker t = WorkerWaits -> t_applierStopped t = true -> lstep (s, t) (s, set_worker t WorkerGone (t_failed t))
| lp_close s t t' : Close t = Some t' -> lstep (s, t) (s, t').

(** ** The invariant *)

Context (members : gset bytes) (cfg_of : bytes -> Config).
Context (Hid : forall i, i ∈ members -> c_id (cfg_of i) = i /\ i <> []).
Context (Hpeers : forall i, i ∈ members ->
  NoDup (i :: c_peers (cfg_of i)) /\ list_to_set (i :: c_peers (cfg_of i)) = members).

(** Nothing committed is left for the applier once it has applied [k]
    entries more. *)
Definition covers_commits n (k : Z) : Prop := pendingSnapshot n = None /\ lastApplied n + k = commitIndex n.

(** A token waits, or the applier has in hand, or has applied, everything
    committed; before it reads the committed entries nothing is asked of it,
    nor after a failure. *)
Definition caught_up t n r : Prop :=
  t_token t = true \/
  match t_worker t with
  | WorkerApplies => match r_phase r with
                     | Applying es => covers_commits n (zlen es)
                     | Marking _ es => covers_commits n (1 + zlen es)
                     | _ => True
                     end
  | WorkerWaits => t_failed t = false -> covers_commits n 0
  | _ => True
  end.

Record process_ok s t n r : Prop := {
  po_cluster : exists C, refines members cfg_of s C;
  po_node : w_nodes (s_world s) !! i = Some n;
  po_replica : s_reps s !! i = Some r;
  po_idle : t_worker t <> WorkerApplies -> r_phase r = Idle \/ saving (r_phase r) = true;
  po_store : t_store t = false <-> t_closer t = Closed;
  po_closed : t_closer t = Closed -> t_worker t = WorkerOff \/ t_worker t = WorkerGone;
  po_stopping : t_closer t = StoppingApplier -> t_applierStopped t = true;
  po_caught : caught_up t n r }.

Lemma fetch_length C n : raft_ok C n -> pendingSnapshot n = None -> base (log n) <= lastApplied n ->
  lastApplied n + zlen (CommittedEntries n (lastApplied n + 1)) = commitIndex n.
Proof using Type.
  intros [Hi _ Hb] Hp Hbase. pose proof (N_applied _ Hi). pose proof (N_log _ Hi) as Hw.
  unfold CommittedEntries. rewrite (proj2 (Z.eqb_neq _ _)) by lia. case_if; zbool; [rewrite zlen_nil; lia|].
  destruct (Range_spec (log n) (lastApplied n + 1) (commitIndex n) Hw ltac:(lia) ltac:(lia) Hb) as (Hlen & _).
  unfold zlen. rewrite Hlen. lia.
Qed.

(** Raft's steps keep it: a commit puts a token. *)
Lemma caught_up_raft t n n' r k : announces n n' -> caught_up t n r -> caught_up (after_raft t n n' k) n' r.
Proof using Type.
  intros [Ha _ Hc] Hcu. unfold caught_up, covers_commits in *. cbn. destruct Hc as [[Ec Ep]|[Hlt _]].
  - rewrite Ha, Ec, Ep. destruct Hcu as [->|Hcu]; [by left|by right].
  - left. rewrite bool_decide_eq_true_2 by done. by destruct (t_token t).
Qed.

Lemma covers_marked n n' e k : MarkApplied n (e_Index e) = (n', Ok tt) -> e_Index e = lastApplied n + 1 ->
  covers_commits n (1 + k) -> covers_commits n' k.
Proof using Type.
  unfold MarkApplied, covers_commits. repeat (case_if; [done|]). intros [= <-] He [Hp Hc]. cbn. split; [done|lia].
Qed.

Lemma caught_up_apply C t n r n' r' :
  raft_ok C n -> replica_ok C n r -> t_worker t = WorkerApplies -> astep n r n' r' -> saving (r_phase r) || saving (r_phase r') = false ->
  caught_up t n r ->
  caught_up (after_apply t r r') n' r'.
Proof using Type.
  intros HK HR Ew Hs Hsv Hc. pose proof (R_phase _ _ _ HR) as Hph. unfold phase_ok in Hph.
  unfold after_apply. destruct Hc as [Ht|Hc]; [left; by destruct (r_phase r')|]. rewrite Ew in Hc. right.
  destruct Hs as [E Hp|snap e1 e2 sm E Hp Hr|snap e1 e2 sm er E Hp Hr|index n' E Hcf|index n' er E Hcf|E|from E|E
    |e es E Hd|e es c env sm res E Hd Ha|e es c env sm fault E Hd Ha|e es n' E Hm|e es n' er E Hm|order data E _ _ _|index data f n' res E _];
    rewrite E in *; cbn [in_phase r_phase set_worker t_worker t_failed] in *; rewrite ?Ew; try done.
  - (* fetching *)
    destruct Hph as (Hp & _ & ->). split; [done|]. pose proof (R_base _ _ _ HR) as Hb. rewrite Hp in Hb. by eapply fetch_length.
  - (* applied *)
    rewrite zlen_cons in Hc. exact Hc.
  - (* marked *)
    destruct Hph as [_ Hh]. pose proof (N_applied _ (K_inv _ _ HK)) as [Hna _].
    destruct (handed_cons _ _ _ _ _ Hna Hh) as (Hx & _). by eapply covers_marked.
Qed.

(** A snapshot of the state machine leaves what is committed and applied. *)
Lemma snapshot_leaves C n r n' r' : raft_ok C n -> replica_ok C n r -> astep n r n' r' ->
  saving (r_phase r) || saving (r_phase r') = true ->
  (r_phase r' = Idle \/ saving (r_phase r') = true) /\ (r_phase r = Idle \/ saving (r_phase r) = true) /\
  r_sm r' = r_sm r /\ lastApplied n' = lastApplied n /\ commitIndex n' = commitIndex n /\
  pendingSnapshot n' = pendingSnapshot n.
Proof using Type.
  intros HK HR Hs Hsv. pose proof (R_phase _ _ _ HR) as Hph. unfold phase_ok in Hph.
  destruct Hs as [E Hp|snap e1 e2 sm E Hp Hr|snap e1 e2 sm er E Hp Hr|index n' E Hcf|index n' er E Hcf|E|from E|E
    |e es E Hd|e es c env sm res E Hd Ha|e es c env sm fault E Hd Ha|e es n' E Hm|e es n' er E Hm|order data E _ _ _|index data f n' res E Hcs];
    rewrite E in *; cbn [in_phase r_phase r_sm saving orb] in *; try done; (split; [auto|]); (split; [auto|]); [done|].
  destruct Hph as [Hu _]. pose proof (N_log _ (K_inv _ _ HK)) as Hw.
  destruct (CreateSnapshot_cases _ _ _ _ _ _ Hw Hu Hcs) as [->|(_ & x & ? & ? & ? & _)]; done.
Qed.

Lemma caught_up_snapshot C t n r n' r' : raft_ok C n -> replica_ok C n r -> astep n r n' r' ->
  saving (r_phase r) || saving (r_phase r') = true -> caught_up t n r -> caught_up t n' r'.
Proof using Type.
  intros HK HR Hs Hsv [Ht|Hc]; [by left|]. right.
  destruct (snapshot_leaves _ _ _ _ _ HK HR Hs Hsv) as (Hp' & _ & _ & Ea & Ec & Ep). unfold covers_commits in *.
  rewrite Ea, Ec, Ep. destruct (t_worker t); try done. destruct Hp' as [->|Hp']; [done|]. by destruct (r_phase r').
Qed.

(** What the invariant knows of the process's node. *)
Lemma process_known s t n r : process_ok s t n r -> exists C, raft_ok C n /\ replica_ok C n r.
Proof using Hid Hpeers.
  intros [(C & HC & HS) Hn Hr _ _ _ _ _]. exists C. split; [by eapply cluster_raft_ok|].
  destruct (S_reps _ _ (HS C (reflexivity C)) _ _ Hn) as (r0 & Hr0 & Hok). congruence.
Qed.

Lemma process_refines s s' : (exists C, refines members cfg_of s C) -> sstep s s' -> exists C, refines members cfg_of s' C.
Proof using Hid Hpeers StoreLaws0.
  intros [C HC] Hs. destruct (refines_step _ _ Hid Hpeers _ _ _ HC Hs) as (C' & _ & H'). by exists C'.
Qed.

Lemma moved s n ms r : w_nodes (s_world (move s i n ms r)) !! i = Some n /\ s_reps (move s i n ms r) !! i = Some r.
Proof using Type. split; apply lookup_insert_eq. Qed.

(** A Raft call by the node's peers, clients, ticker or RPC goroutines. *)
Lemma process_raft s t n r n' ms k : process_ok s t n r -> rstep (r_phase r) i n (w_mail (s_world s)) n' ms ->
  process_ok (move s i n' ms r) (after_raft t n n' k) n' r.
Proof using Hid Hpeers StoreLaws0.
  intros [HC Hn Hr Hi Hst Hcl Hsp Hcu] Hs. split; try done.
  - eapply process_refines; [done|]. by eapply ss_raft.
  - apply moved.
  - apply moved.
  - eapply caught_up_raft; [by eapply rstep_announces|done].
Qed.

Lemma process_apply s t n r n' r' :
  process_ok s t n r -> t_worker t = WorkerApplies -> astep n r n' r' -> saving (r_phase r) || saving (r_phase r') = false ->
  process_ok (move s i n' [] r') (after_apply t r r') n' r'.
Proof using Hid Hpeers StoreLaws0.
  intros Hok Ew Hs Hsv. destruct (process_known _ _ _ _ Hok) as (C & HK & HR).
  pose proof (caught_up_apply _ _ _ _ _ _ HK HR Ew Hs Hsv (po_caught _ _ _ _ Hok)) as Hcu.
  destruct Hok as [HC Hn Hr Hi Hst Hcl Hsp _].
  assert (t_closer t <> Closed) as Hnc by (intros Hc; destruct (Hcl Hc); congruence).
  split; [eapply process_refines; [done|by eapply ss_apply]|apply moved|apply moved|..|exact Hcu];
    unfold after_apply; destruct (r_phase r'); cbn; auto; try done; congruence.
Qed.

Lemma process_snapshot s t n r n' r' :
  process_ok s t n r -> astep n r n' r' -> saving (r_phase r) || saving (r_phase r') = true ->
  process_ok (move s i n' [] r') t n' r'.
Proof using Hid Hpeers StoreLaws0.
  intros Hok Hs Hsv. destruct (process_known _ _ _ _ Hok) as (C & HK & HR).
  destruct (snapshot_leaves _ _ _ _ _ HK HR Hs Hsv) as (Hp' & _).
  pose proof (caught_up_snapshot _ _ _ _ _ _ HK HR Hs Hsv (po_caught _ _ _ _ Hok)) as Hcu.
  destruct Hok as [HC Hn Hr Hi Hst Hcl Hsp _].
  split; try done; [eapply process_refines; [done|by eapply ss_apply]|apply moved|apply moved].
Qed.

(** Steps of the process's own that touch nothing but its goroutines. *)
Lemma process_threads s t t' n r : process_ok s t n r ->
  (t_worker t' <> WorkerApplies -> r_phase r = Idle \/ saving (r_phase r) = true) ->
  (t_store t' = false <-> t_closer t' = Closed) ->
  (t_closer t' = Closed -> t_worker t' = WorkerOff \/ t_worker t' = WorkerGone) ->
  (t_closer t' = StoppingApplier -> t_applierStopped t' = true) ->
  (caught_up t n r -> caught_up t' n r) -> process_ok s t' n r.
Proof using Type. intros [HC Hn Hr Hi Hst Hcl Hsp Hcu] H1 H2 H3 H4 H5. split; auto. Qed.

Lemma process_close s t n r t' : process_ok s t n r -> Close t = Some t' -> process_ok s t' n r.
Proof using Type.
  intros Hok Hc. pose proof (po_idle _ _ _ _ Hok) as Hi. pose proof (po_store _ _ _ _ Hok) as Hst. unfold Close in Hc.
  destruct (t_closer t) eqn:E; [|destruct (Drained t); [|done]|destruct (applierDone t) eqn:Ed; [|done]|done]; injection Hc as <-;
    apply (process_threads _ _ _ _ _ Hok); cbn; try done; try (rewrite Hst; done).
  intros _. unfold applierDone in Ed. destruct (t_worker t); auto; done.
Qed.

Lemma process_step s t n r s' t' :
  process_ok s t n r -> lstep (s, t) (s', t') -> exists n' r', process_ok s' t' n' r'.
Proof using Hid Hpeers StoreLaws0.
  intros Hok Hs. pose proof Hok as [HC Hn Hr Hi Hst Hcl Hsp Hcu]. unfold caught_up in Hcu.
  inversion Hs as [? ? ? Hss En Er|? ? E1 E2 E3|? ? E1|? ? n0 r0 f n' rpcs E1 E2 E3 Hu Ht|? ? E1 E2|? ? n0 r0 n' ms k E2 E3 Hrs
    |? ? n0 r0 n' ms m k E1 E2 E3 Hrs|? ? n0 m E1 E2|? ? n0 r0 n' r' E1 E2 E3 Has Hsv|? ? n0 r0 n' r' E2 E3 Has Hsv
    |? ? E1 E2|? ? E1 E2|? ? ? E1]; subst.
  all: try (rewrite Hn in E2; injection E2 as <-); try (rewrite Hr in E3; injection E3 as <-).
  - exists n, r. split; try done; [by eapply process_refines|congruence..].
  - exists n, r. apply (process_threads _ _ _ _ _ Hok); cbn; try done; [congruence|]. intros _. right. cbn.
    destruct Hi as [->|Hi]; [congruence|done|]. by destruct (r_phase r).
  - exists n, r. by apply (process_threads _ _ _ _ _ Hok).
  - exists n', r. eapply (process_threads _ (after_raft t n n' (t_inflight t + length rpcs)));
      [by eapply process_raft; [|by eapply rs_tick]|done..].
  - exists n, r. by apply (process_threads _ _ _ _ _ Hok).
  - exists n', r. by apply process_raft.
  - exists n', r. by apply process_raft.
  - exists n, r. apply (process_threads _ _ _ _ _ Hok); try done. exact (caught_up_raft t n n r m (announces_refl n)).
  - exists n', r'. by apply (process_apply s t n r).
  - exists n', r'. by eapply process_snapshot.
  - exists n, r. apply (process_threads _ _ _ _ _ Hok); cbn; try done.
    + intros Hc. destruct (Hcl Hc); congruence.
    + intros _. right. cbn. destruct Hi as [->|Hi]; [congruence|done|]. by destruct (r_phase r).
  - exists n, r. apply (process_threads _ _ _ _ _ Hok); cbn; try done; [intros _; apply Hi; congruence|auto|].
    intros [Ht|_]; [by left|by right].
  - exists n, r. by eapply process_close.
Qed.
End Process.

(** ** What the goroutines guarantee *)

Section Guarantees.
Context {St Env : Type} `{Store St Env, !StoreLaws St Env} (members : gset bytes) (cfg_of : bytes -> Config).

(** A node that [Open] has just returned, in a cluster that has run. *)
Definition opened (i : bytes) (s : system St) : Prop :=
  (exists s0, sinitial members cfg_of s0 /\ rtc sstep s0 s) /\
  exists n r, w_nodes (s_world s) !! i = Some n /\ s_reps s !! i = Some r /\ r_phase r = Idle.

Context (Hid : forall i, i ∈ members -> c_id (cfg_of i) = i /\ i <> []).
Context (Hpeers : forall i, i ∈ members ->
  NoDup (i :: c_peers (cfg_of i)) /\ list_to_set (i :: c_peers (cfg_of i)) = members).

Lemma refines_run s s' : rtc sstep s s' -> (exists C, refines members cfg_of s C) -> exists C, refines members cfg_of s' C.
Proof using Hid Hpeers StoreLaws0. induction 1; intros HC; [done|]. eauto using process_refines. Qed.

Lemma opened_ok i s : opened i s -> exists n r, process_ok i members cfg_of s opened_threads n r.
Proof using Hid Hpeers StoreLaws0.
  intros [(s0 & H0 & Hrun) (n & r & Hn & Hr & Hp)]. exists n, r. split; try done; [|by left|by right].
  eapply refines_run; [done|]. eexists. by apply refines_initial.
Qed.

Lemma process_run i x y : rtc (lstep i) x y -> (exists n r, process_ok i members cfg_of x.1 x.2 n r) ->
  exists n r, process_ok i members cfg_of y.1 y.2 n r.
Proof using Hid Hpeers StoreLaws0.
  induction 1 as [|[s t] [s1 t1] y Hs _ IH]; intros Hx; [done|]. apply IH. destruct Hx as (n & r & Hok).
  by eapply process_step.
Qed.

Lemma process_reached i s x : opened i s -> rtc (lstep i) (s, opened_threads) x ->
  exists n r, process_ok i members cfg_of x.1 x.2 n r.
Proof using Hid Hpeers StoreLaws0. intros Ho Hrun. eapply process_run; [done|]. by apply opened_ok. Qed.

(** With the store closed, nothing that still runs writes to it. *)
Lemma closed_keeps i s t n r s' t' : process_ok i members cfg_of s t n r -> t_store t = false -> lstep i (s, t) (s', t') ->
  t_store t' = false /\ exists r', s_reps s' !! i = Some r' /\ r_sm r' = r_sm r.
Proof using Hid Hpeers.
  intros Hok Hcl Hs. destruct (process_known _ _ _ Hid Hpeers _ _ _ _ Hok) as (C & HK & HR).
  destruct Hok as [HC Hn Hr Hi Hst Hw Hsp Hcu]. pose proof (proj1 Hst Hcl) as Hc. specialize (Hw Hc).
  inversion Hs as [? ? ? Hss En Er|? ? E1 E2 E3|? ? E1|? ? n0 r0 f n' rpcs E1 E2 E3 Hu Ht|? ? E1 E2|? ? n0 r0 n' ms k E2 E3 Hrs
    |? ? n0 r0 n' ms m k E1 E2 E3 Hrs|? ? n0 m E1 E2|? ? n0 r0 n' r' E1 E2 E3 Has Hsv|? ? n0 r0 n' r' E2 E3 Has Hsv
    |? ? E1 E2|? ? E1 E2|? ? ? E1]; subst;
    try (rewrite Hn in E2; injection E2 as <-); try (rewrite Hr in E3; injection E3 as <-);
    first [split; [done|]; exists r; split; [first [done|congruence|apply moved]|done]|idtac].
  - destruct Hw; congruence.
  - destruct (snapshot_leaves _ _ _ _ _ HK HR Has Hsv) as (_ & _ & Esm & _). split; [done|]. exists r'. split; [apply moved|done].
  - unfold Close in E1. by rewrite Hc in E1.
Qed.

(** ** [Close] returns *)

Context (env : Env).

(** How many calls an [ApplyAvailable] makes once the entries are to be read. *)
Definition calls_left (n : Node) (p : phase) : nat :=
  match p with
  | Marking _ es => 2 + 2 * length es
  | Applying es => 1 + 2 * length es
  | Fetching from => 2 + 2 * length (CommittedEntries n from)
  | Checked => 3 + 2 * length (CommittedEntries n (u64 (lastApplied n + 1)))
  | _ => 0
  end.

Lemma apply_progress n r : (0 < calls_left n (r_phase r))%nat -> exists n' r', astep n r n' r' /\
  (r_phase r' = Idle \/ (0 < calls_left n' (r_phase r') < calls_left n (r_phase r))%nat).
Proof using env.
  intros Hk. destruct (r_phase r) as [|k| |from|[|e es]|e es|] eqn:E; cbn [calls_left] in Hk; try lia.
  - do 2 eexists. split; [by eapply as_from|]. right. cbn. lia.
  - do 2 eexists. split; [by eapply as_fetch|]. right. cbn. lia.
  - do 2 eexists. split; [by eapply as_done|]. by left.
  - destruct (DecodeCommand (e_Command e)) as [c| |] eqn:Ed;
      [|do 2 eexists; (split; [eapply as_decode_fails; [done|by rewrite Ed]|]); by left..].
    destruct (Apply (r_sm r) env c) as [sm [res|fault]] eqn:Ea.
    + do 2 eexists. split; [by eapply as_apply|]. right. cbn. lia.
    + do 2 eexists. split; [by eapply as_apply_fails|]. by left.
  - destruct (MarkApplied n (e_Index e)) as [n' [[]|er]] eqn:Em.
    + do 2 eexists. split; [by eapply as_mark|]. right. cbn. lia.
    + do 2 eexists. split; [by eapply as_mark_fails|]. by left.
Qed.

(** The applier's goroutine comes back to its [select], the others where
    they were. *)
Definition returns (i : bytes) (s : system St) (t : threads) : Prop :=
  exists s' failed n r, rtc (lstep i) (s, t) (s', set_worker t WorkerWaits failed) /\
    w_nodes (s_world s') !! i = Some n /\ s_reps s' !! i = Some r /\ r_phase r = Idle.

Lemma returns_step i s t n r n' r' :
  t_worker t = WorkerApplies -> w_nodes (s_world s) !! i = Some n -> s_reps s !! i = Some r -> astep n r n' r' ->
  saving (r_phase r) = false -> saving (r_phase r') = false ->
  (r_phase r' <> Idle -> returns i (move s i n' [] r') t) -> returns i s t.
Proof using Type.
  intros Ew Hn Hr Hs Hsv Hsv' Hk.
  assert (lstep i (s, t) (move s i n' [] r', after_apply t r r')) as Hl.
  { eapply lp_apply; eauto. by rewrite Hsv, Hsv'. }
  unfold after_apply in Hl. assert (r_phase r' = Idle \/ r_phase r' <> Idle) as [E|E] by (destruct (r_phase r'); auto).
  - rewrite E in Hl. do 4 eexists. split; [by apply rtc_once|]. split_and!; [apply moved..|done].
  - destruct (Hk E) as (s2 & failed & n2 & r2 & Hrun & H2). exists s2, failed, n2, r2. split; [|done].
    eapply rtc_l; [|exact Hrun]. by destruct (r_phase r').
Qed.

Lemma calls_saving n p : (0 < calls_left n p)%nat -> saving p = false.
Proof using Type. destruct p; cbn; done || lia. Qed.

Lemma returns_within i t k : t_worker t = WorkerApplies -> forall s n r,
  w_nodes (s_world s) !! i = Some n -> s_reps s !! i = Some r ->
  (0 < calls_left n (r_phase r) <= k)%nat -> returns i s t.
Proof using env.
  intros Ew. induction k as [|k IH]; intros s n r Hn Hr Hk; [lia|].
  destruct (apply_progress n r ltac:(lia)) as (n' & r' & Hs & Hp).
  eapply returns_step; eauto; [apply (calls_saving n); lia|destruct Hp as [->|?]; [done|apply (calls_saving n'); lia]|].
  intros Hne. destruct Hp as [?|Hp]; [done|]. eapply IH; [apply moved..|lia].
Qed.

Lemma returns_calls i s t n r : t_worker t = WorkerApplies -> w_nodes (s_world s) !! i = Some n -> s_reps s !! i = Some r ->
  (0 < calls_left n (r_phase r))%nat -> returns i s t.
Proof using env. intros Ew Hn Hr Hk. eapply returns_within; eauto. Qed.

Lemma returns_apply i s t n r : t_worker t = WorkerApplies ->
  w_nodes (s_world s) !! i = Some n -> s_reps s !! i = Some r -> saving (r_phase r) = false -> returns i s t.
Proof using env.
  intros Ew Hn Hr Hsv. destruct (decide (0 < calls_left n (r_phase r))%nat) as [Hk|Hk].
  { by eapply returns_calls; eauto. }
  assert (forall s n r k, w_nodes (s_world s) !! i = Some n -> s_reps s !! i = Some r -> r_phase r = Confirming k -> returns i s t) as Hconf.
  { clear s n r Hn Hr Hsv Hk. intros s n r k Hn Hr E. destruct (ConfirmSnapshotRestored n k) as [n' [[]|er]] eqn:Ec.
    - eapply returns_step; [done..|by eapply as_confirm|by rewrite E|done|]. intros _.
      eapply returns_calls; [done|apply moved..|]. cbn. lia.
    - eapply returns_step; [done..|by eapply as_confirm_fails|by rewrite E|done|]. done. }
  destruct (r_phase r) as [|k| | | | |] eqn:E; cbn in Hk, Hsv; try done; try lia; [|by eapply Hconf].
  destruct (pendingSnapshot n) as [snap|] eqn:Ep.
  - destruct (RestoreSnapshot (r_sm r) (fun _ => env) (fun _ => env) (SnapshotData snap)) as [sm [[]|er]] eqn:Er.
    + eapply returns_step; [done..|by eapply as_restore|by rewrite E|done|]. intros _. eapply Hconf; [apply moved..|done].
    + eapply returns_step; [done..|by eapply as_restore_fails|by rewrite E|done|]. done.
  - eapply returns_step; [done..|by eapply as_check|by rewrite E|done|]. intros _.
    eapply returns_calls; [done|apply moved..|]. cbn. lia.
Qed.

(** *** The steps of [Close] *)

Lemma drains i s n k : w_nodes (s_world s) !! i = Some n -> forall t, t_inflight t = k -> t_closer t = Draining ->
  exists t', rtc (lstep i) (s, t) (s, t') /\ t_closer t' = StoppingApplier.
Proof using Type.
  intros Hn. induction k as [|k IH]; intros t Hk Hc.
  - eexists. split; [apply rtc_once, lp_close; unfold Close, Drained; by rewrite Hc, Hk|done].
  - destruct (IH (after_raft t n n k) eq_refl Hc) as (t' & Hrun & Hc'). exists t'. split; [|done].
    eapply rtc_l; [|exact Hrun]. by apply lp_rpc_lost.
Qed.

Lemma stops i s t n r : w_nodes (s_world s) !! i = Some n -> s_reps s !! i = Some r -> saving (r_phase r) = false ->
  t_closer t = StoppingApplier -> t_applierStopped t = true ->
  exists s' t', rtc (lstep i) (s, t) (s', t') /\ t_closer t' = Closed.
Proof using env.
  intros Hn Hr Hsv Hc Hap.
  assert (forall s t, t_closer t = StoppingApplier -> applierDone t = true ->
    exists s' t', rtc (lstep i) (s, t) (s', t') /\ t_closer t' = Closed) as Hdone.
  { clear s t Hn Hr Hc Hap. intros s t Hc Hd. do 2 eexists. split; [apply rtc_once, lp_close; unfold Close; by rewrite Hc, Hd|done]. }
  assert (forall s t, t_closer t = StoppingApplier -> t_applierStopped t = true -> t_worker t = WorkerWaits ->
    exists s' t', rtc (lstep i) (s, t) (s', t') /\ t_closer t' = Closed) as Hwait.
  { clear s t Hn Hr Hc Hap. intros s t Hc Hap Hw.
    destruct (Hdone s (set_worker t WorkerGone (t_failed t)) Hc eq_refl) as (s' & t' & Hrun & Hc'). exists s', t'. split; [|done].
    eapply rtc_l; [by apply lp_worker_stops|done]. }
  destruct (t_worker t) eqn:Ew; [|destruct (returns_apply i s t n r Ew Hn Hr Hsv) as (s' & failed & _ & _ & Hrun & _)|by apply Hwait|].
  - apply Hdone; [done|]. unfold applierDone. by rewrite Ew.
  - destruct (Hwait s' (set_worker t WorkerWaits failed)) as (s2 & t2 & Hrun2 & Hc2); [done..|].
    exists s2, t2. split; [by etrans|done].
  - apply Hdone; [done|]. unfold applierDone. by rewrite Ew.
Qed.

Lemma saves i s t n r : w_nodes (s_world s) !! i = Some n -> s_reps s !! i = Some r -> saving (r_phase r) = true ->
  exists s' n' r', rtc (lstep i) (s, t) (s', t) /\
    w_nodes (s_world s') !! i = Some n' /\ s_reps s' !! i = Some r' /\ saving (r_phase r') = false.
Proof using Type.
  intros Hn Hr Hsv. destruct (r_phase r) as [| | | | | |index data] eqn:E; try done.
  destruct (RaftNode.CreateSnapshot n calm_faults index data) as [n' res] eqn:Ec.
  exists (move s i n' [] (in_phase r Idle)), n', (in_phase r Idle). split_and!; [|apply moved..|done].
  apply rtc_once. eapply lp_snapshot; eauto; [by eapply as_save|by rewrite E].
Qed.

Lemma close_finishes i s t n r : process_ok i members cfg_of s t n r -> t_closer t <> NotClosing ->
  exists s' t', rtc (lstep i) (s, t) (s', t') /\ t_closer t' = Closed.
Proof using Hid Hpeers StoreLaws0 env.
  intros Hok Hc.
  assert (exists t', rtc (lstep i) (s, t) (s, t') /\ (t_closer t' = StoppingApplier \/ t_closer t' = Closed)) as (t1 & Hrun & Hc1).
  { destruct (t_closer t) eqn:E; [done| |by eauto using rtc_refl..].
    destruct (drains i s n _ (po_node _ _ _ _ _ _ _ Hok) t eq_refl E) as (t' & Hrun & Ht). eauto. }
  destruct Hc1 as [Hc1|Hc1]; [|by eauto].
  destruct (process_run i (s, t) (s, t1) Hrun) as (n1 & r1 & Hok1); [by eauto|].
  destruct Hok1 as [_ Hn Hr _ _ _ Hstp _]. specialize (Hstp Hc1).
  assert (exists s2 n2 r2, rtc (lstep i) (s, t1) (s2, t1) /\ w_nodes (s_world s2) !! i = Some n2 /\
    s_reps s2 !! i = Some r2 /\ saving (r_phase r2) = false) as (s2 & n2 & r2 & Hrun2 & Hn2 & Hr2 & Hsv2).
  { cbn in Hn, Hr. destruct (saving (r_phase r1)) eqn:E; [by eapply saves|]. exists s, n1, r1. eauto using rtc_refl. }
  destruct (stops i s2 t1 n2 r2 Hn2 Hr2 Hsv2 Hc1 Hstp) as (s3 & t3 & Hrun3 & Hc3).
  exists s3, t3. split; [|done]. by do 2 (etrans; [eassumption|]).
Qed.
End Guarantees.

(** C15. From the moment [Close] has closed the store, whatever still happens
    in the process and around it (ticks, peers' and clients' calls, RPC
    goroutines, snapshots), no step writes to it: the state machine stays
    exactly what it was when the store was closed. *)
Theorem closed_store_is_never_written {St Env} `{Store St Env, !StoreLaws St Env} (members : gset bytes) (cfg_of : bytes -> Config)
    (i : bytes) (s s1 s2 : system St) (t1 t2 : threads) :
  (forall i, i ∈ members -> c_id (cfg_of i) = i /\ i <> []) ->
  (forall i, i ∈ members ->
     NoDup (i :: c_peers (cfg_of i)) /\ list_to_set (i :: c_peers (cfg_of i)) = members) ->
  opened members cfg_of i s -> rtc (lstep i) (s, opened_threads) (s1, t1) -> t_store t1 = false ->
  rtc (lstep i) (s1, t1) (s2, t2) ->
  t_store t2 = false /\ exists r1 r2, s_reps s1 !! i = Some r1 /\ s_reps s2 !! i = Some r2 /\ r_sm r2 = r_sm r1.
Proof.
  intros Hid Hpeers Ho Hrun Hcl Hrun2.
  destruct (process_reached members cfg_of Hid Hpeers i s _ Ho Hrun) as (n & r & Hok).
  remember (s1, t1) as x eqn:Ex. remember (s2, t2) as y eqn:Ey. revert s1 t1 n r Ex Hok Hcl Hrun.
  induction Hrun2 as [x|x [s' t'] y Hs _ IH]; intros s1 t1 n r -> Hok Hcl Hrun.
  - injection Ey as -> ->. split; [done|]. exists r, r. split_and!; try done; apply (po_replica _ _ _ _ _ _ _ Hok).
  - destruct (closed_keeps members cfg_of Hid Hpeers _ _ _ _ _ _ _ Hok Hcl Hs) as (Hcl' & r' & Hr' & E').
    destruct (process_step _ _ _ Hid Hpeers _ _ _ _ _ _ Hok Hs) as (n2 & r2 & Hok2).
    destruct (IH Ey s' t' n2 r2 eq_refl Hok2 Hcl') as [Hst (q1 & q2 & Hq1 & Hq2 & Eq)]; [by eapply rtc_r|].
    split; [done|]. exists r, q2. split_and!; [apply (po_replica _ _ _ _ _ _ _ Hok)|done|congruence].
Qed.

(** C16. No commit is missed: whenever the applier's goroutine sleeps in its
    [select] with no token waiting in [commitCh], and its last call did not
    fail, everything the node has committed is applied and no snapshot waits
    to be restored, in whatever order the calls of the goroutines came, on
    the runs of [sstep]. Those install a snapshot only beyond the receiver's
    commit index (and not between the applier's look for one and its read of
    the committed entries): for one between the log's boundary and the commit
    index the code sets pendingSnapshot and sends no token, so that it waits
    for the next commit ([quiet_snapshot_sends_no_token]). *)
Theorem no_commit_is_missed {St Env} `{Store St Env, !StoreLaws St Env} (members : gset bytes) (cfg_of : bytes -> Config)
    (i : bytes) (s s1 : system St) (t1 : threads) (n : Node) :
  (forall i, i ∈ members -> c_id (cfg_of i) = i /\ i <> []) ->
  (forall i, i ∈ members ->
     NoDup (i :: c_peers (cfg_of i)) /\ list_to_set (i :: c_peers (cfg_of i)) = members) ->
  opened members cfg_of i s -> rtc (lstep i) (s, opened_threads) (s1, t1) ->
  w_nodes (s_world s1) !! i = Some n -> t_worker t1 = WorkerWaits -> t_token t1 = false -> t_failed t1 = false ->
  lastApplied n = commitIndex n /\ pendingSnapshot n = None.
Proof.
  intros Hid Hpeers Ho Hrun Hn Hw Ht Hf.
  destruct (process_reached members cfg_of Hid Hpeers i s _ Ho Hrun) as (n' & r & Hok). cbn in Hok.
  rewrite (po_node _ _ _ _ _ _ _ Hok) in Hn. injection Hn as ->.
  pose proof (po_caught _ _ _ _ _ _ _ Hok) as [?|Hcu]; [congruence|]. rewrite Hw in Hcu. destruct (Hcu Hf) as [Hp Hc].
  split; [lia|done].
Qed.

(** [Close] does not block for ever: wherever the process is when it is
    called, and however far it has come, the goroutines it waits for can all
    finish, and then it returns. *)
Theorem Close_can_return {St Env} `{Store St Env, !StoreLaws St Env} (members : gset bytes) (cfg_of : bytes -> Config)
    (env : Env) (i : bytes) (s s1 : system St) (t1 : threads) :
  (forall i, i ∈ members -> c_id (cfg_of i) = i /\ i <> []) ->
  (forall i, i ∈ members ->
     NoDup (i :: c_peers (cfg_of i)) /\ list_to_set (i :: c_peers (cfg_of i)) = members) ->
  opened members cfg_of i s -> rtc (lstep i) (s, opened_threads) (s1, t1) -> t_closer t1 <> NotClosing ->
  exists s2 t2, rtc (lstep i) (s1, t1) (s2, t2) /\ t_closer t2 = Closed /\ t_store t2 = false.
Proof.
  intros Hid Hpeers Ho Hrun Hc.
  destruct (process_reached members cfg_of Hid Hpeers i s _ Ho Hrun) as (n & r & Hok).
  destruct (close_finishes members cfg_of Hid Hpeers env _ _ _ _ _ Hok Hc) as (s2 & t2 & Hrun2 & Hc2).
  exists s2, t2. split; [done|]. split; [done|].
  destruct (process_run members cfg_of Hid Hpeers i _ _ Hrun2) as (n2 & r2 & Hok2); [by eauto|].
  by apply (po_store _ _ _ _ _ _ _ Hok2).
Qed.

(** ** Witnesses: one node elected, a command committed and applied, the node closed *)

Definition solo_done : Node := (MarkApplied solo_node 1).1.

Lemma solo_opened : opened solo_members (fun _ => lone_cfg) me (solo lone0 (solo_replica Idle)).
Proof.
  split; [exists (solo lone0 (solo_replica Idle)); split; [apply solo_initial|apply rtc_refl]|].
  exists lone0, (solo_replica Idle). split_and!; [apply lookup_singleton_eq..|done].
Qed.

Lemma solo_lapply n r n' r' t x : t_worker t = WorkerApplies -> astep n r n' r' -> saving (r_phase r) || saving (r_phase r') = false ->
  rtc (lstep me) (solo n' r', after_apply t r r') x -> rtc (lstep me) (solo n r, t) x.
Proof.
  intros Hw Hs Hsv Hx. eapply rtc_l; [|exact Hx]. rewrite <- (solo_move n r n' r').
  eapply lp_apply; [done|apply lookup_singleton_eq|apply lookup_singleton_eq|done|done].
Qed.

Lemma solo_lcall n r n' t x : rstep (r_phase r) me n [] n' [] ->
  rtc (lstep me) (solo n' r, after_raft t n n' (t_inflight t)) x -> rtc (lstep me) (solo n r, t) x.
Proof.
  intros Hs Hx. eapply rtc_l; [|exact Hx]. rewrite <- (solo_move n r n' r). rewrite <- (Nat.add_0_r (t_inflight t)).
  eapply lp_call; [apply lookup_singleton_eq|apply lookup_singleton_eq|done].
Qed.

(** Two calls of [ApplyAvailable]: the token of the commit causes the second. *)
Definition solo_waits : threads := MkThreads TickerWaits false 0 WorkerWaits false false false NotClosing true.
Definition solo_closed : threads := MkThreads TickerWaits true 0 WorkerGone true false false Closed false.

Lemma solo_works : rtc (lstep me) (solo lone0 (solo_replica Idle), opened_threads) (solo solo_done (solo_applied Idle), solo_waits).
Proof.
  eapply rtc_l; [by apply lp_run|].
  eapply (solo_lcall _ _ lone1). { apply (rs_tick Idle me lone0 [] calm_faults lone1 []); vm_compute; reflexivity. }
  eapply (solo_lcall _ _ solo_node).
  { apply (rs_propose Idle me lone1 [] calm_faults (command_bytes put1) solo_node [] (Ok (1, 1))); vm_compute; reflexivity. }
  apply (solo_lapply _ _ solo_node (solo_replica Checked)); [done|apply as_check; vm_compute; reflexivity|done|].
  apply (solo_lapply _ _ solo_node (solo_replica (Fetching 1))); [done|by apply as_from|done|].
  apply (solo_lapply _ _ solo_node (solo_replica (Applying [solo_entry])));
    [done|by apply (as_fetch solo_node (solo_replica (Fetching 1)) 1)|done|].
  apply (solo_lapply _ _ solo_node (solo_applied (Marking solo_entry [])));
    [done|by eapply (as_apply solo_node (solo_replica (Applying [solo_entry])) solo_entry [] put1 sample_env); vm_compute|done|].
  apply (solo_lapply _ _ solo_done (solo_applied (Applying [])));
    [done|by eapply (as_mark solo_node (solo_applied (Marking solo_entry [])) solo_entry []); vm_compute|done|].
  apply (solo_lapply _ _ solo_done (solo_applied Idle)); [done|by apply as_done|done|].
  eapply rtc_l; [apply lp_wake; vm_compute; reflexivity|].
  apply (solo_lapply _ _ solo_done (solo_applied Checked)); [done|apply as_check; vm_compute; reflexivity|done|].
  apply (solo_lapply _ _ solo_done (solo_applied (Fetching 2))); [done|by apply as_from|done|].
  apply (solo_lapply _ _ solo_done (solo_applied (Applying [])));
    [done|by apply (as_fetch solo_done (solo_applied (Fetching 2)) 2)|done|].
  apply (solo_lapply _ _ solo_done (solo_applied Idle)); [done|by apply as_done|done|].
  match goal with |- rtc _ (_, ?t) _ => replace t with solo_waits by (vm_compute; reflexivity) end. apply rtc_refl.
Qed.

Lemma solo_closes x : rtc (lstep me) (x, solo_waits) (x, solo_closed).
Proof.
  eapply rtc_l; [by apply lp_close|]. eapply rtc_l; [by apply lp_close|]. eapply rtc_l; [by apply lp_worker_stops|].
  eapply rtc_l; [by apply lp_close|]. apply rtc_refl.
Qed.

Lemma solo_ids i : i ∈ solo_members -> c_id lone_cfg = i /\ i <> [].
Proof. intros ->%elem_of_singleton. by split. Qed.

(** The node closed as a leader goes on ticking. *)
Definition solo_late : system MemStore := solo (Tick solo_done calm_faults).1 (solo_applied Idle).

Example closed_store_is_never_written_witness :
  (exists t, rtc (lstep me) (solo solo_done (solo_applied Idle), solo_closed) (solo_late, t)) /\
  exists r1 r2, s_reps (solo solo_done (solo_applied Idle)) !! me = Some r1 /\ s_reps solo_late !! me = Some r2 /\ r_sm r2 = r_sm r1.
Proof.
  assert (rtc (lstep me) (solo solo_done (solo_applied Idle), solo_closed) (solo_late, after_raft solo_closed solo_done (Tick solo_done calm_faults).1 0)) as Hlate.
  { eapply (solo_lcall _ _ (Tick solo_done calm_faults).1); [|apply rtc_refl].
    apply (rs_tick Idle me solo_done [] calm_faults _ []); vm_compute; reflexivity. }
  split; [eexists; exact Hlate|].
  refine (proj2 (closed_store_is_never_written solo_members (fun _ => lone_cfg) me _ _ _ solo_closed _ solo_ids solo_peers
    solo_opened _ eq_refl Hlate)).
  etrans; [apply solo_works|apply solo_closes].
Defined.

Example no_commit_is_missed_witness : lastApplied solo_done = 1 /\ lastApplied solo_done = commitIndex solo_done.
Proof.
  split; [vm_compute; reflexivity|].
  exact (proj1 (no_commit_is_missed solo_members (fun _ => lone_cfg) me _ _ solo_waits solo_done solo_ids solo_peers
    solo_opened solo_works (lookup_singleton_eq _ _) eq_refl eq_refl eq_refl)).
Defined.

(** Closed while its applier is about to apply a command. *)
Definition solo_closing : threads := MkThreads TickerOff true 0 WorkerOff false false false Draining true.

Example Close_can_return_witness :
  exists s2 t2, rtc (lstep me) (solo lone0 (solo_replica Idle), solo_closing) (s2, t2) /\ t_closer t2 = Closed /\ t_store t2 = false.
Proof.
  apply (Close_can_return solo_members (fun _ => lone_cfg) sample_env me _ _ solo_closing solo_ids solo_peers solo_opened);
    [|discriminate]. eapply rtc_l; [by apply lp_close|]. apply rtc_refl.
Defined.

(** ** An RPC goroutine after [Close]

    [Stop] only tells the ticking goroutine to return: a [Tick] that has
    begun goes on, and the requests it sends are not drained. *)

Definition trio_system : system MemStore :=
  MkSystem world0 {[na := solo_replica Idle; nb := solo_replica Idle; nc := solo_replica Idle]}.

Lemma trio_opened : opened trio trio_cfg na trio_system.
Proof.
  split; [|exists (fresh_node na), (solo_replica Idle); split_and!; [apply world0_nodes|apply lookup_insert_eq|done]].
  exists trio_system. split; [|apply rtc_refl]. split; [apply world0_initial|]. intros i n Hi.
  exists sample_store. split; [apply sample_store_inv|]. split; [vm_compute; reflexivity|].
  apply (proj2 world0_initial) in Hi as [Hi _]. unfold trio in Hi. cbn [s_reps trio_system].
  apply elem_of_union in Hi as [Hi|Hi]; [apply elem_of_union in Hi as [Hi|Hi]|]; apply elem_of_singleton in Hi as ->;
    vm_compute; reflexivity.
Qed.

Lemma trio_lapply s t n r n' r' x : t_worker t = WorkerApplies -> w_nodes (s_world s) !! na = Some n -> s_reps s !! na = Some r ->
  astep n r n' r' -> saving (r_phase r) || saving (r_phase r') = false ->
  (w_nodes (s_world (move s na n' [] r')) !! na = Some n' -> s_reps (move s na n' [] r') !! na = Some r' ->
   rtc (lstep na) (move s na n' [] r', after_apply t r r') x) ->
  rtc (lstep na) (s, t) x.
Proof.
  intros Hw Hn Hr Hs Hsv Hx. eapply rtc_l; [by eapply lp_apply|]. destruct (moved na s n' [] r') as [H1 H2]. by apply Hx.
Qed.

(** The node's first [ApplyAvailable] finds nothing to apply. *)
Lemma trio_waits : exists s, w_nodes (s_world s) !! na = Some (fresh_node na) /\ s_reps s !! na = Some (solo_replica Idle) /\
  rtc (lstep na) (trio_system, opened_threads) (s, solo_waits).
Proof.
  eexists. split; [|split]; cycle 2.
  - eapply rtc_l; [by apply lp_run|].
    eapply (trio_lapply _ _ (fresh_node na) (solo_replica Idle) (fresh_node na) (solo_replica Checked));
      [done|apply world0_nodes|apply lookup_insert_eq|apply as_check; vm_compute; reflexivity|done|intros Hn Hr].
    eapply (trio_lapply _ _ _ _ (fresh_node na) (solo_replica (Fetching 1))); [done|exact Hn|exact Hr|by apply as_from|done|].
    clear Hn Hr. intros Hn Hr.
    eapply (trio_lapply _ _ _ _ (fresh_node na) (solo_replica (Applying []))); [done|exact Hn|exact Hr| |done|].
    { by apply (as_fetch (fresh_node na) (solo_replica (Fetching 1)) 1). }
    clear Hn Hr. intros Hn Hr.
    eapply (trio_lapply _ _ _ _ (fresh_node na) (solo_replica Idle)); [done|exact Hn|exact Hr|by apply as_done|done|].
    intros _ _. apply rtc_refl.
  - apply moved.
  - apply moved.
Qed.

(** [Close] does not wait for the ticking goroutine: a node can have returned
    from [Close] with no RPC in flight and then still start an election and
    send its requests, from a tick that had begun before. *)
Theorem tick_outlives_Close :
  opened trio trio_cfg na trio_system /\
  exists s1 t1 s2 t2, rtc (lstep na) (trio_system, opened_threads) (s1, t1) /\
    t_closer t1 = Closed /\ t_inflight t1 = 0%nat /\ lstep na (s1, t1) (s2, t2) /\ t_inflight t2 = 2%nat /\
    currentTerm <$> w_nodes (s_world s2) !! na = Some 1.
Proof.
  split; [apply trio_opened|]. destruct trio_waits as (s & Hn & Hr & Hrun).
  set (late := MkThreads TickerTicks true 0 WorkerGone true false false Closed false).
  exists s, late. do 2 eexists. split_and!; [|done|done|..].
  - etrans; [exact Hrun|]. eapply rtc_l; [by apply lp_timer|]. eapply rtc_l; [by apply lp_close|].
    eapply rtc_l; [by apply lp_close|]. eapply rtc_l; [by apply lp_worker_stops|].
    eapply rtc_l; [by apply lp_close|]. apply rtc_refl.
  - eapply (lp_tick _ _ _ _ _ calm_faults); [done|exact Hn|exact Hr|vm_compute; reflexivity|apply surjective_pairing].
  - vm_compute. reflexivity.
  - rewrite (proj1 (moved _ _ _ _ _)). vm_compute. reflexivity.
Qed.
