(* ===== verification/InvariantTracker.v ===== *)
(** * The invariant tracker

    chaos/invariants.go: what the chaos harness checks of a running cluster
    from nothing but the states it observes. The tracker is exact for a
    declarative reading of its claims, and stays silent on every run of the
    cluster of [RaftSafety]. *)

From S2P Require Import Prelude Bytes Http Format RaftLog RaftFormat RaftPersist RaftNode RaftElection RaftDurable.
From S2P Require Import RaftGhost RaftSafety RaftSteps RaftCommit RaftAgreement.
From stdpp Require Import base tactics list numbers gmap fin_sets sorting.
From Stdlib Require Import Strings.Byte.
From Stdlib Require Import ZArith Lia.
From Stdlib Require String.
Import String.StringSyntax.
#[local] Open Scope Z_scope.

(** eventlog.go: what one node and the cluster look like at a step. *)
Record NodeState := MkNodeState {
  ns_ID : bytes;
  ns_Crashed : bool;
  ns_Term : Z;
  ns_Role : bytes;
  ns_LeaderID : bytes;
  ns_CommitIndex : Z;
  ns_LastApplied : Z;
  ns_SnapshotIndex : Z;
  ns_LastLogIndex : Z }.

Record ClusterSnapshot := MkClusterSnapshot {
  cs_Nodes : list NodeState;
  cs_Groups : list (list bytes);
  cs_Isolated : list bytes }.

Record InvariantTracker := MkTracker {
  lastTerm : gmap bytes Z;
  lastSnapshot : gmap bytes Z;
  lastCommit : gmap bytes Z;
  it_lastApplied : gmap bytes Z;
  leadersByTerm : gmap Z (gset bytes);
  violations : list bytes }.

Definition newInvariantTracker : InvariantTracker := MkTracker ∅ ∅ ∅ ∅ ∅ [].

Definition resetVolatile (inv : InvariantTracker) (id : bytes) : InvariantTracker :=
  MkTracker (lastTerm inv) (lastSnapshot inv) (delete id (lastCommit inv)) (delete id (it_lastApplied inv))
            (leadersByTerm inv) (violations inv).

Definition violateLocked (msg : bytes) (vs : list bytes) : list bytes :=
  if bool_decide (msg ∈ vs) then vs else vs ++ [msg].

Definition decreased (what id : bytes) (prev now : Z) : bytes :=
  lit "node " ++ id ++ lit " " ++ what ++ lit " decreased: " ++ itoa prev ++ lit " -> " ++ itoa now.

(** The four blocks that compare with the last value seen. *)
Definition check_monotone (what : bytes) (last : gmap bytes Z) (id : bytes) (now : Z) (vs : list bytes) : list bytes :=
  match last !! id with
  | Some prev => if now <? prev then violateLocked (decreased what id prev now) vs else vs
  | None => vs
  end.

Definition check_applied (n : NodeState) (vs : list bytes) : list bytes :=
  if ns_LastApplied n >? ns_CommitIndex n then
    violateLocked (lit "node " ++ ns_ID n ++ lit " lastApplied " ++ itoa (ns_LastApplied n)
                   ++ lit " exceeds commitIndex " ++ itoa (ns_CommitIndex n)) vs
  else vs.

Definition leader_name : bytes := lit "Leader".

Definition leaders_with (inv : InvariantTracker) (n : NodeState) : gset bytes :=
  default ∅ (leadersByTerm inv !! ns_Term n) ∪ {[ns_ID n]}.

Definition check_leader (inv : InvariantTracker) (n : NodeState) (vs : list bytes) : list bytes :=
  if bool_decide (ns_Role n = leader_name) && bool_decide (1 < size (leaders_with inv n))%nat then
    violateLocked (lit "term " ++ itoa (ns_Term n) ++ lit " has multiple leaders: "
                   ++ brackets (merge_sort ble (elements (leaders_with inv n)))) vs
  else vs.

(** One iteration of [observe]'s loop. *)
Definition observe_node (inv : InvariantTracker) (n : NodeState) : InvariantTracker :=
  if ns_Crashed n then inv
  else
    let vs := check_monotone (lit "term") (lastTerm inv) (ns_ID n) (ns_Term n) (violations inv) in
    let vs := check_monotone (lit "snapshot index") (lastSnapshot inv) (ns_ID n) (ns_SnapshotIndex n) vs in
    let vs := check_monotone (lit "commit index") (lastCommit inv) (ns_ID n) (ns_CommitIndex n) vs in
    let vs := check_monotone (lit "applied index") (it_lastApplied inv) (ns_ID n) (ns_LastApplied n) vs in
    let vs := check_applied n vs in
    MkTracker (<[ns_ID n := ns_Term n]> (lastTerm inv)) (<[ns_ID n := ns_SnapshotIndex n]> (lastSnapshot inv))
      (<[ns_ID n := ns_CommitIndex n]> (lastCommit inv)) (<[ns_ID n := ns_LastApplied n]> (it_lastApplied inv))
      (if bool_decide (ns_Role n = leader_name) then <[ns_Term n := leaders_with inv n]> (leadersByTerm inv)
       else leadersByTerm inv)
      (check_leader inv n vs).

Definition observe (inv : InvariantTracker) (snap : ClusterSnapshot) : InvariantTracker :=
  fold_left observe_node (cs_Nodes snap) inv.

Definition Violations (inv : InvariantTracker) : list bytes := violations inv.

(** [nil] is [None]. *)
Definition Check (inv : InvariantTracker) : option bytes :=
  match Violations inv with
  | [] => None
  | v => Some (lit "chaos: " ++ itoa (zlen v) ++ lit " invariant violation(s):" ++ [x0a] ++ lit "  "
               ++ strings_Join ([x0a] ++ lit "  ") v)
  end.

(** ** What the tracker means *)

(** The calls that reach the tracker, one state at a time. *)
Inductive tevent := Seen (n : NodeState) | Reset (id : bytes).

Definition track_one (inv : InvariantTracker) (e : tevent) : InvariantTracker :=
  match e with Seen n => observe_node inv n | Reset id => resetVolatile inv id end.
Definition track (l : list tevent) : InvariantTracker := fold_left track_one l newInvariantTracker.

(** A live node's state, the [j]-th thing reported. *)
Definition sight (l : list tevent) (j : nat) (n : NodeState) : Prop :=
  l !! j = Some (Seen n) /\ ns_Crashed n = false.

(** No restart of [id] after position [j]. *)
Definition unbroken (l : list tevent) (id : bytes) (j : nat) : Prop :=
  forall m, (j < m)%nat -> l !! m <> Some (Reset id).

(** The claims of the documentation, for the whole history: terms and
    snapshot indices of a node never go back, commit and applied indices only
    when it restarts, nothing is applied before it is committed, a term has
    one leader. *)
Record legal (l : list tevent) : Prop := {
  L_durable j k a b : (j < k)%nat -> sight l j a -> sight l k b -> ns_ID a = ns_ID b ->
    ns_Term a <= ns_Term b /\ ns_SnapshotIndex a <= ns_SnapshotIndex b;
  L_volatile j k a b : (j < k)%nat -> sight l j a -> sight l k b -> ns_ID a = ns_ID b ->
    (forall m, (j < m < k)%nat -> l !! m <> Some (Reset (ns_ID a))) ->
    ns_CommitIndex a <= ns_CommitIndex b /\ ns_LastApplied a <= ns_LastApplied b;
  L_applied j a : sight l j a -> ns_LastApplied a <= ns_CommitIndex a;
  L_leader j k a b : sight l j a -> sight l k b -> ns_Role a = leader_name -> ns_Role b = leader_name ->
    ns_Term a = ns_Term b -> ns_ID a = ns_ID b }.

(** What the tracker remembers of a history. *)
Record remembers (l : list tevent) (inv : InvariantTracker) : Prop := {
  M_seen j a : sight l j a -> exists k b, (j <= k)%nat /\ sight l k b /\ ns_ID b = ns_ID a /\
    lastTerm inv !! ns_ID a = Some (ns_Term b) /\ lastSnapshot inv !! ns_ID a = Some (ns_SnapshotIndex b);
  M_durable i t : lastTerm inv !! i = Some t -> exists j a, sight l j a /\ ns_ID a = i /\ ns_Term a = t /\
    lastSnapshot inv !! i = Some (ns_SnapshotIndex a);
  M_snapshot i s : lastSnapshot inv !! i = Some s -> is_Some (lastTerm inv !! i);
  M_live j a : sight l j a -> unbroken l (ns_ID a) j -> exists k b, (j <= k)%nat /\ sight l k b /\ ns_ID b = ns_ID a /\
    lastCommit inv !! ns_ID a = Some (ns_CommitIndex b) /\ it_lastApplied inv !! ns_ID a = Some (ns_LastApplied b);
  M_volatile i c : lastCommit inv !! i = Some c -> exists j a, sight l j a /\ ns_ID a = i /\ unbroken l i j /\
    ns_CommitIndex a = c /\ it_lastApplied inv !! i = Some (ns_LastApplied a);
  M_applied i x : it_lastApplied inv !! i = Some x -> is_Some (lastCommit inv !! i);
  M_leader T i : i ∈ default ∅ (leadersByTerm inv !! T) <->
    exists j a, sight l j a /\ ns_Role a = leader_name /\ ns_Term a = T /\ ns_ID a = i }.

Lemma sight_app l e j a : sight (l ++ [e]) j a <-> sight l j a \/ (j = length l /\ e = Seen a /\ ns_Crashed a = false).
Proof.
  unfold sight. rewrite lookup_app_Some. split.
  - intros [[H|[H1 H2]] Hc]; [by left|right]. apply list_lookup_singleton_Some in H2 as [E ->].
    split_and!; [lia|done|done].
  - intros [[H Hc]|(-> & -> & Hc)]; (split; [|done]); [by left|right]. split; [lia|]. by rewrite Nat.sub_diag.
Qed.

Lemma sight_lt l j a : sight l j a -> (j < length l)%nat.
Proof. intros [H _]. by eapply lookup_lt_Some. Qed.

Lemma unbroken_app l e i j : (j < length l)%nat -> unbroken (l ++ [e]) i j <-> unbroken l i j /\ e <> Reset i.
Proof.
  intros Hj. unfold unbroken. split.
  - intros Hu. split.
    + intros m Hm Hl. apply (Hu m Hm). by rewrite lookup_app_l by (by eapply lookup_lt_Some).
    + intros ->. apply (Hu (length l)); [lia|]. rewrite lookup_app_r, Nat.sub_diag by lia. done.
  - intros [Hu Hne] m Hm [Hl|[H1 H2]]%lookup_app_Some; [by eapply Hu|].
    by apply list_lookup_singleton_Some in H2 as [_ [= ->]].
Qed.

Lemma unbroken_last l e i : unbroken (l ++ [e]) i (length l).
Proof.
  intros m Hm [H|[_ H]]%lookup_app_Some; [apply lookup_lt_Some in H; lia|].
  apply list_lookup_singleton_Some in H as [E _]. lia.
Qed.

Lemma sight_quiet l e j a : (forall n, e = Seen n -> ns_Crashed n = true) -> sight (l ++ [e]) j a <-> sight l j a.
Proof.
  intros He. rewrite sight_app. split; [|by left]. intros [H|(_ & -> & Hc)]; [done|]. rewrite He in Hc; done.
Qed.

Lemma sight_grows l e j a : sight l j a -> sight (l ++ [e]) j a.
Proof. intros H. apply sight_app. by left. Qed.

Lemma remembers_crashed l inv n :
  remembers l inv -> ns_Crashed n = true -> remembers (l ++ [Seen n]) inv.
Proof.
  intros [H1 H2 H3 H4 H5 H6 H7] Hc.
  assert (forall j a, sight (l ++ [Seen n]) j a <-> sight l j a) as Hs.
  { intros. apply sight_quiet. by intros ? [= <-]. }
  split; try done.
  - intros j a Ha%Hs. destruct (H1 j a Ha) as (k & b & Hk & Hb & E). exists k, b. rewrite Hs. auto.
  - intros i t Ht. destruct (H2 i t Ht) as (j & a & Ha & E). exists j, a. rewrite Hs. auto.
  - intros j a Ha%Hs Hu. apply unbroken_app in Hu as [Hu _]; [|by eapply sight_lt].
    destruct (H4 j a Ha Hu) as (k & b & Hk & Hb & E). exists k, b. rewrite Hs. auto.
  - intros i c Hi. destruct (H5 i c Hi) as (j & a & Ha & E1 & Hu & E2). exists j, a. rewrite Hs.
    rewrite unbroken_app by (by eapply sight_lt). auto.
  - intros T i. rewrite H7. split; intros (j & a & Ha & E); exists j, a; (split; [by apply Hs|done]).
Qed.

Lemma remembers_reset l inv i0 : remembers l inv -> remembers (l ++ [Reset i0]) (resetVolatile inv i0).
Proof.
  intros [H1 H2 H3 H4 H5 H6 H7]. assert (forall j a, sight (l ++ [Reset i0]) j a <-> sight l j a) as Hs.
  { intros. by apply sight_quiet. }
  split; cbn; try done.
  - intros j a Ha%Hs. destruct (H1 j a Ha) as (k & b & Hk & Hb & E). exists k, b. rewrite Hs. auto.
  - intros i t Ht. destruct (H2 i t Ht) as (j & a & Ha & E). exists j, a. rewrite Hs. auto.
  - intros j a Ha%Hs Hu. apply unbroken_app in Hu as [Hu Hne]; [|by eapply sight_lt].
    destruct (H4 j a Ha Hu) as (k & b & Hk & Hb & E). exists k, b. rewrite Hs.
    rewrite !lookup_delete_ne by (intros ->; congruence). auto.
  - intros i c [Hne Hi]%lookup_delete_Some. destruct (H5 i c Hi) as (j & a & Ha & E1 & Hu & E2 & E3). exists j, a.
    rewrite Hs, lookup_delete_ne by done. rewrite unbroken_app by (by eapply sight_lt).
    do 2 (split; [done|]). split; [|done]. split; [done|]. congruence.
  - intros i x [Hne Hi]%lookup_delete_Some. rewrite lookup_delete_ne by done. apply (H6 i x Hi).
  - intros T i. rewrite H7. split; intros (j & a & Ha & E); exists j, a; (split; [by apply Hs|done]).
Qed.

Lemma leaders_seen l inv n T i :
  remembers l inv -> ns_Crashed n = false ->
  i ∈ default ∅ ((if bool_decide (ns_Role n = leader_name) then <[ns_Term n := leaders_with inv n]> (leadersByTerm inv)
                  else leadersByTerm inv) !! T) <->
  exists j a, sight (l ++ [Seen n]) j a /\ ns_Role a = leader_name /\ ns_Term a = T /\ ns_ID a = i.
Proof.
  intros HM Hc. assert (i ∈ default ∅ (leadersByTerm inv !! T) \/
      (ns_Role n = leader_name /\ ns_Term n = T /\ ns_ID n = i) <->
    exists j a, sight (l ++ [Seen n]) j a /\ ns_Role a = leader_name /\ ns_Term a = T /\ ns_ID a = i) as <-.
  { rewrite (M_leader _ _ HM). split.
    - intros [(j & a & Ha & E)|E]; [exists j, a|exists (length l), n]; (split; [apply sight_app|done]); auto.
    - intros (j & a & [Ha|(_ & [= <-] & _)]%sight_app & E); [left; by exists j, a|by right]. }
  case_bool_decide as Hr; [|tauto]. destruct (decide (ns_Term n = T)) as [<-|Hne].
  - rewrite lookup_insert_eq. cbn. unfold leaders_with. rewrite elem_of_union, elem_of_singleton. intuition congruence.
  - rewrite lookup_insert_ne by done. tauto.
Qed.

Lemma remembers_seen l inv n : remembers l inv -> remembers (l ++ [Seen n]) (observe_node inv n).
Proof.
  intros HM. unfold observe_node. destruct (ns_Crashed n) eqn:Hc; [by apply remembers_crashed|].
  assert (sight (l ++ [Seen n]) (length l) n) as Hn by (apply sight_app; auto).
  assert (forall i, unbroken (l ++ [Seen n]) i (length l)) as Hlast by (intros; apply unbroken_last).
  split; cbn; [..|intros T i; by apply leaders_seen]; destruct HM as [H1 H2 H3 H4 H5 H6 _].
  - intros j a Ha. destruct (decide (ns_ID n = ns_ID a)) as [E|Hne].
    + exists (length l), n. rewrite E, !lookup_insert_eq. apply sight_lt in Ha. rewrite length_app in Ha. cbn in Ha.
      split_and!; done || lia.
    + rewrite !lookup_insert_ne by done. apply sight_app in Ha as [Ha|(_ & [= <-] & _)]; [|done].
      destruct (H1 j a Ha) as (k & b & Hk & Hb & E). exists k, b. auto using sight_grows.
  - intros i t. destruct (decide (ns_ID n = i)) as [<-|Hne].
    + rewrite !lookup_insert_eq. intros [= <-]. by exists (length l), n.
    + rewrite !lookup_insert_ne by done. intros Ht. destruct (H2 i t Ht) as (j & a & Ha & E). exists j, a.
      auto using sight_grows.
  - intros i s. destruct (decide (ns_ID n = i)) as [<-|Hne]; [rewrite !lookup_insert_eq; eauto|].
    rewrite !lookup_insert_ne by done. apply H3.
  - intros j a Ha Hu. destruct (decide (ns_ID n = ns_ID a)) as [E|Hne].
    + exists (length l), n. rewrite E, !lookup_insert_eq. apply sight_lt in Ha. rewrite length_app in Ha. cbn in Ha.
      split_and!; done || lia.
    + rewrite !lookup_insert_ne by done. apply sight_app in Ha as [Ha|(_ & [= <-] & _)]; [|done].
      apply unbroken_app in Hu as [Hu _]; [|by eapply sight_lt].
      destruct (H4 j a Ha Hu) as (k & b & Hk & Hb & E). exists k, b. auto using sight_grows.
  - intros i c. destruct (decide (ns_ID n = i)) as [<-|Hne].
    + rewrite !lookup_insert_eq. intros [= <-]. exists (length l), n. auto.
    + rewrite !lookup_insert_ne by done. intros Hi. destruct (H5 i c Hi) as (j & a & Ha & E1 & Hu & E2). exists j, a.
      rewrite unbroken_app by (by eapply sight_lt). auto using sight_grows.
  - intros i x. destruct (decide (ns_ID n = i)) as [<-|Hne]; [rewrite !lookup_insert_eq; eauto|].
    rewrite !lookup_insert_ne by done. apply H6.
Qed.

Lemma track_remembers l : remembers l (track l).
Proof.
  induction l as [|e l IH] using rev_ind.
  { split; cbn; try (intros ? ? [Hx _]; by rewrite lookup_nil in Hx); try (intros ? ?; by rewrite lookup_empty).
    intros T i. rewrite lookup_empty. split; [by intros ?%not_elem_of_empty|].
    intros (j & a & [Hx _] & _). by rewrite lookup_nil in Hx. }
  unfold track in *. rewrite fold_left_app. cbn. destruct e as [n|i]; [by apply remembers_seen|by apply remembers_reset].
Qed.

(** *** When a report is silent *)

Record fine (inv : InvariantTracker) (n : NodeState) : Prop := {
  fi_term p : lastTerm inv !! ns_ID n = Some p -> p <= ns_Term n;
  fi_snapshot p : lastSnapshot inv !! ns_ID n = Some p -> p <= ns_SnapshotIndex n;
  fi_commit p : lastCommit inv !! ns_ID n = Some p -> p <= ns_CommitIndex n;
  fi_applied p : it_lastApplied inv !! ns_ID n = Some p -> p <= ns_LastApplied n;
  fi_order : ns_LastApplied n <= ns_CommitIndex n;
  fi_leader : ns_Role n = leader_name -> (size (leaders_with inv n) <= 1)%nat }.

Lemma violateLocked_nil msg vs : violateLocked msg vs <> [].
Proof.
  unfold violateLocked. case_bool_decide as H; [|by destruct vs]. intros ->. by apply not_elem_of_nil in H.
Qed.

Lemma check_monotone_nil what last id now vs :
  check_monotone what last id now vs = [] <-> vs = [] /\ forall p, last !! id = Some p -> p <= now.
Proof.
  unfold check_monotone. destruct (last !! id) as [prev|].
  - destruct (now <? prev) eqn:E; zbool; split.
    + by intros ?%violateLocked_nil.
    + intros [_ H]. specialize (H prev eq_refl). lia.
    + intros ->. split; [done|]. by intros p [= <-].
    + by intros [-> _].
  - naive_solver.
Qed.

Lemma check_applied_nil n vs : check_applied n vs = [] <-> vs = [] /\ ns_LastApplied n <= ns_CommitIndex n.
Proof.
  unfold check_applied. destruct (_ >? _) eqn:E; zbool; [|naive_solver].
  split; [by intros ?%violateLocked_nil|lia].
Qed.

Lemma check_leader_nil inv n vs :
  check_leader inv n vs = [] <-> vs = [] /\ (ns_Role n = leader_name -> (size (leaders_with inv n) <= 1)%nat).
Proof.
  unfold check_leader. destruct (_ && _) eqn:E.
  - zbool. split; [by intros ?%violateLocked_nil|]. intros [_ Hs]. specialize (Hs ltac:(done)). lia.
  - split; [|by intros [-> _]]. intros ->. split; [done|]. intros Hr.
    apply andb_false_iff in E as [E|E]; apply bool_decide_eq_false in E; [done|lia].
Qed.

Lemma observe_silent inv n :
  violations (observe_node inv n) = [] <-> violations inv = [] /\ (ns_Crashed n = false -> fine inv n).
Proof.
  unfold observe_node. destruct (ns_Crashed n); [cbn; naive_solver|]. cbn [violations].
  rewrite check_leader_nil, check_applied_nil, !check_monotone_nil. split.
  - intros ((((((Hv & H1) & H2) & H3) & H4) & H5) & H6). split; [done|]. intros _. by split.
  - intros [Hv Hf]. destruct (Hf eq_refl) as [H1 H2 H3 H4 H5 H6]. done.
Qed.

(** *** When a history stays legal *)

Lemma legal_before l e : legal (l ++ [e]) -> legal l.
Proof.
  intros [H1 H2 H3 H4]. split.
  - intros j k a b Hjk Ha Hb. apply (H1 j k); [done|by apply sight_grows..].
  - intros j k a b Hjk Ha Hb E Hm. apply (H2 j k); [done|by apply sight_grows..|done|].
    intros m Hmm Hl. apply (Hm m Hmm). apply sight_lt in Hb. by rewrite lookup_app_l in Hl by lia.
  - intros j a Ha. by apply (H3 j), sight_grows.
  - intros j k a b Ha Hb. apply (H4 j k); by apply sight_grows.
Qed.

Lemma legal_quiet l e : (forall n, e = Seen n -> ns_Crashed n = true) -> legal l -> legal (l ++ [e]).
Proof.
  intros He [H1 H2 H3 H4]. assert (forall j a, sight (l ++ [e]) j a <-> sight l j a) as Hs by (intros; by apply sight_quiet).
  split.
  - intros j k a b Hjk Ha%Hs Hb%Hs. by apply (H1 j k).
  - intros j k a b Hjk Ha%Hs Hb%Hs E Hm. apply (H2 j k); try done. intros m Hmm Hl. apply (Hm m Hmm).
    apply sight_lt in Hb. by rewrite lookup_app_l by lia.
  - intros j a Ha%Hs. by apply (H3 j).
  - intros j k a b Ha%Hs Hb%Hs. by apply (H4 j k).
Qed.

Lemma legal_fine l inv n : remembers l inv -> ns_Crashed n = false -> legal (l ++ [Seen n]) -> fine inv n.
Proof.
  intros HM Hc [H1 H2 H3 H4]. assert (sight (l ++ [Seen n]) (length l) n) as Hn by (apply sight_app; auto).
  assert (forall j a, sight l j a -> ns_ID a = ns_ID n -> ns_Term a <= ns_Term n /\ ns_SnapshotIndex a <= ns_SnapshotIndex n) as Hd.
  { intros j a Ha E. apply (H1 j (length l)); eauto using sight_grows, sight_lt. }
  assert (forall j a, sight l j a -> ns_ID a = ns_ID n -> unbroken l (ns_ID n) j ->
    ns_CommitIndex a <= ns_CommitIndex n /\ ns_LastApplied a <= ns_LastApplied n) as Hv.
  { intros j a Ha E Hu. apply (H2 j (length l)); eauto using sight_grows, sight_lt.
    intros m Hm. rewrite E, lookup_app_l by lia. apply Hu. lia. }
  split.
  - intros p Hp. destruct (M_durable _ _ HM _ _ Hp) as (j & a & Ha & E & <- & _). by apply (Hd j).
  - intros p Hp. destruct (M_snapshot _ _ HM _ _ Hp) as [t Ht].
    destruct (M_durable _ _ HM _ _ Ht) as (j & a & Ha & E & _ & Es). rewrite Hp in Es. injection Es as ->. by apply (Hd j).
  - intros p Hp. destruct (M_volatile _ _ HM _ _ Hp) as (j & a & Ha & E & Hu & <- & _). by apply (Hv j).
  - intros p Hp. destruct (M_applied _ _ HM _ _ Hp) as [c Hcc].
    destruct (M_volatile _ _ HM _ _ Hcc) as (j & a & Ha & E & Hu & _ & Ex). rewrite Hp in Ex. injection Ex as ->. by apply (Hv j).
  - by apply (H3 (length l)).
  - intros Hr. rewrite <- (size_singleton (C := gset bytes) (ns_ID n)). apply subseteq_size. intros i.
    unfold leaders_with. rewrite elem_of_union, (M_leader _ _ HM). intros [(j & a & Ha & Hra & Ht & <-)|?]; [|done].
    apply elem_of_singleton. by apply (H4 j (length l)); auto using sight_grows.
Qed.

Lemma size_one_eq (X : gset bytes) i j : (size X <= 1)%nat -> i ∈ X -> j ∈ X -> i = j.
Proof.
  intros Hs Hi Hj. destruct (decide (i = j)) as [|Hne]; [done|].
  assert (size ({[i; j]} : gset bytes) <= size X)%nat as Hle by (apply subseteq_size; set_solver).
  rewrite size_union, !size_singleton in Hle by set_solver. lia.
Qed.

Lemma fine_legal l inv n : remembers l inv -> ns_Crashed n = false -> legal l -> fine inv n -> legal (l ++ [Seen n]).
Proof.
  intros HM Hc [H1 H2 H3 H4] [F1 F2 F3 F4 F5 F6].
  assert (forall j a, sight l j a -> ns_Role a = leader_name -> ns_Role n = leader_name -> ns_Term a = ns_Term n ->
    ns_ID a = ns_ID n) as Hl.
  { intros j a Ha Hra Hrn E. apply (size_one_eq _ _ _ (F6 Hrn)); unfold leaders_with; rewrite elem_of_union.
    - left. apply (M_leader _ _ HM). by exists j, a.
    - right. by apply elem_of_singleton. }
  split.
  - intros j k a b Hjk [Ha|(-> & [= <-] & _)]%sight_app [Hb|(-> & [= <-] & _)]%sight_app E; [by apply (H1 j k)| | |lia].
    + destruct (M_seen _ _ HM _ _ Ha) as (k & b & Hk & Hb & Eb & E1 & E2). rewrite E in E1, E2.
      specialize (F1 _ E1). specialize (F2 _ E2). destruct (decide (j = k)) as [->|Hne].
      * destruct Ha as [Ha _], Hb as [Hb _]. rewrite Ha in Hb. injection Hb as <-. done.
      * destruct (H1 j k a b ltac:(lia) Ha Hb ltac:(done)). lia.
    + apply sight_lt in Hb. lia.
  - intros j k a b Hjk [Ha|(-> & [= <-] & _)]%sight_app [Hb|(-> & [= <-] & _)]%sight_app E Hm; [| | |lia].
    + apply (H2 j k); try done. intros m Hmm Hlm. apply (Hm m Hmm). apply sight_lt in Hb. by rewrite lookup_app_l by lia.
    + assert (unbroken l (ns_ID a) j) as Hu.
      { intros m Hmm Hlm. pose proof (lookup_lt_Some _ _ _ Hlm). apply (Hm m); [lia|]. by rewrite lookup_app_l. }
      destruct (M_live _ _ HM _ _ Ha Hu) as (k & b & Hk & Hb & Eb & E1 & E2). rewrite E in E1, E2.
      specialize (F3 _ E1). specialize (F4 _ E2). destruct (decide (j = k)) as [->|Hne].
      * destruct Ha as [Ha _], Hb as [Hb _]. rewrite Ha in Hb. injection Hb as <-. done.
      * destruct (H2 j k a b ltac:(lia) Ha Hb ltac:(done)) as [? ?]; [|lia]. intros m Hmm. apply Hu. lia.
    + apply sight_lt in Hb. lia.
  - intros j a [Ha|(_ & [= <-] & _)]%sight_app; [by apply (H3 j)|done].
  - intros j k a b [Ha|(_ & [= <-] & _)]%sight_app [Hb|(_ & [= <-] & _)]%sight_app; intros; eauto; symmetry; eauto.
Qed.

Lemma track_exact l : violations (track l) = [] <-> legal l.
Proof.
  induction l as [|e l IH] using rev_ind.
  { split; [|done]. intros _. split; unfold sight; intros *; rewrite lookup_nil; naive_solver. }
  pose proof (track_remembers l) as HM. unfold track in *. rewrite fold_left_app. cbn. destruct e as [n|i]; cbn.
  - rewrite observe_silent, IH. split.
    + intros [Hl Hf]. destruct (ns_Crashed n) eqn:Hc.
      * apply legal_quiet; [by intros ? [= <-]|done].
      * eapply fine_legal; eauto.
    + intros Hl. split; [by eapply legal_before|]. intros Hc. by eapply legal_fine.
  - rewrite IH. split; [by apply legal_quiet|by apply legal_before].
Qed.

(** ** A cluster under observation *)

Definition role_String (r : Role) : bytes :=
  match r with Follower => lit "Follower" | Candidate => lit "Candidate" | Leader => leader_name end.

Lemma role_leader r : role_String r = leader_name -> r = Leader.
Proof. by destruct r. Qed.

(** observe.go, [snapshot]: the nodes of the cluster, in the order of their
    IDs, with those the harness has stopped marked. *)
Definition node_state (down : gset bytes) (i : bytes) (n : Node) : NodeState :=
  MkNodeState i (bool_decide (i ∈ down)) (currentTerm n) (role_String (role n)) (leaderID n)
              (commitIndex n) (lastApplied n) (base (log n)) (LastIndex (log n)).

Definition snapshot_nodes (ids : list bytes) (nodes : gmap bytes Node) (down : gset bytes) : list NodeState :=
  omap (fun i => node_state down i <$> nodes !! i) ids.

Record observed := MkObserved {
  ob_world : world;
  ob_down : gset bytes;
  ob_inv : InvariantTracker }.

(** A node that the harness has stopped may still be handed messages. *)
Inductive ostep (ids : list bytes) (o : observed) : observed -> Prop :=
| os_run w' : wrun (ob_world o) w' -> ostep ids o (MkObserved w' (ob_down o) (ob_inv o))
| os_stop i : ostep ids o (MkObserved (ob_world o) ({[i]} ∪ ob_down o) (ob_inv o))
| os_restart i n r n' :
    i ∈ ob_down o -> w_nodes (ob_world o) !! i = Some n -> newNode (cfg n) (persister n) r = Ok n' ->
    ostep ids o (MkObserved (update (ob_world o) i n' []) (ob_down o ∖ {[i]}) (resetVolatile (ob_inv o) i))
| os_observe groups isolated :
    ostep ids o (MkObserved (ob_world o) (ob_down o)
      (observe (ob_inv o) (MkClusterSnapshot (snapshot_nodes ids (w_nodes (ob_world o)) (ob_down o)) groups isolated))).

Section Cluster.
Context (members : gset bytes) (cfg_of : bytes -> Config).
Context (Hid : forall i, i ∈ members -> c_id (cfg_of i) = i /\ i <> []).
Context (Hpeers : forall i, i ∈ members ->
  NoDup (i :: c_peers (cfg_of i)) /\ list_to_set (i :: c_peers (cfg_of i)) = members).

(** What moves forward in a node while it runs. *)
Definition advanced (n n' : Node) : Prop :=
  currentTerm n <= currentTerm n' /\ base (log n) <= base (log n') /\
  commitIndex n <= commitIndex n' /\ lastApplied n <= lastApplied n'.

Lemma forward_advanced n n' : forward n n' -> currentTerm n <= currentTerm n' -> advanced n n'.
Proof using Type. intros [? ? ? _] ?. by split_and!. Qed.

Lemma tick_term n f : 0 <= currentTerm n -> currentTerm n + 1 < 2 ^ 64 -> currentTerm n <= currentTerm (Tick n f).1.
Proof using Type.
  intros H0 Hb. destruct (Tick n f) as [n' rpcs] eqn:E. destruct (Tick_effect _ _ _ _ E) as [_ [Hq|(_ & Ht & _)]]; cbn.
  - by apply quiet_term.
  - rewrite Ht, u64_small by (unfold is_u64; lia). lia.
Qed.

Lemma vote_term n f args : currentTerm n <= currentTerm (HandleRequestVote n f args).1.
Proof using Type.
  destruct (HandleRequestVote n f args) as [n' reply] eqn:E.
  destruct (HandleRequestVote_effect _ _ _ _ _ E) as [[_ Hq]|(_ & n1 & Hq & _ & E1 & E2 & _)]; cbn.
  - by apply quiet_term.
  - apply quiet_term in Hq. lia.
Qed.

Lemma vote_reply_term n f p t r n' rpcs : onRequestVoteReply n f p t r = Some (n', rpcs) -> currentTerm n <= currentTerm n'.
Proof using Type.
  intros E. destruct (onRequestVoteReply_effect _ _ _ _ _ _ _ E) as [_ [Hq|(_ & _ & _ & (_ & Ht & _) & _)]].
  - by apply quiet_term.
  - by rewrite Ht.
Qed.

(** The fact [F] about a call whose result [E] names. *)
Ltac effect_of F E := let H := fresh in pose proof F as H; rewrite E in H; exact H.

Lemma wrun_advanced w H w' :
  WInv members cfg_of w H -> wrun w w' -> exists i n n' ms, w_nodes w !! i = Some n /\ w' = update w i n' ms /\ advanced n n'.
Proof using Type.
  intros HW Hs. destruct (mail_bounds _ _ _ _ HW) as [Hb1 Hb2].
  assert (forall i n, w_nodes w !! i = Some n -> log_wf (log n) /\ 0 <= currentTerm n) as Hw.
  { intros i n Hi. destruct (W_node _ _ _ _ HW _ _ Hi) as (g & _ & HF). split; [exact (N_log _ (F_inv _ _ _ _ _ HF))|].
    apply (I_node _ _ _ (W_core _ _ _ _ HW) i). by rewrite (W_nodes _ _ _ _ HW). }
  assert (forall n n', local_step n n' -> currentTerm n <= currentTerm n') as Hq
    by (intros; by apply quiet_term, quiet_local).
  destruct Hs as [i n f n' rpcs Hi Hb E|from i args n f n' reply Hin Hi E|from i term reply n f n' rpcs Hin Hi E
    |from i args n f n' reply Hin Hi E|from i args reply n f n' b Hin Hi E|from i term snap args n f n' reply Hin Hch Hi Hf E
    |from i term snap final reply n f n' b Hin Hi E|i n f command n' rpcs r Hi Hb E|i n r Hi E|i n f index data n' r Hi Hu E
    |i n index n' r Hi E|i n index n' r Hi E]; destruct (Hw _ _ Hi) as [Hwf H0];
    exists i, n; eexists _, _; (split; [exact Hi|]); (split; [reflexivity|]); apply forward_advanced.
  - effect_of (forward_Tick n f) E.
  - effect_of (tick_term n f H0 Hb) E.
  - effect_of (forward_HandleRequestVote n f args) E.
  - effect_of (vote_term n f args) E.
  - by eapply forward_onRequestVoteReply.
  - by eapply vote_reply_term.
  - effect_of (forward_HandleAppendEntries n f args (Hb1 _ _ _ Hin) Hwf) E.
  - effect_of (Hq n _ (ls_append n f args)) E.
  - effect_of (forward_onAppendEntriesReply n f from (ae_Term args) args reply) E.
  - effect_of (Hq n _ (ls_append_reply n f from (ae_Term args) args reply)) E.
  - assert (install_bounded args) as Hib.
    { destruct Hch as (_ & _ & Ei & _). unfold install_bounded. rewrite Ei. by eapply Hb2. }
    effect_of (forward_HandleInstallSnapshot n f args Hib Hwf) E.
  - effect_of (Hq n _ (ls_snapshot n f args)) E.
  - effect_of (forward_onInstallSnapshotReply n f from term snap final reply) E.
  - effect_of (Hq n _ (ls_snapshot_reply n f from term snap final reply)) E.
  - effect_of (forward_Propose n f command Hwf Hb) E.
  - effect_of (Hq n _ (ls_propose n f command)) E.
  - apply forward_refl.
  - done.
  - effect_of (forward_CreateSnapshot n f index data Hu Hwf) E.
  - effect_of (Hq n _ (ls_create_snapshot n f index data)) E.
  - effect_of (forward_MarkApplied n index) E.
  - effect_of (Hq n _ (ls_mark n index)) E.
  - effect_of (forward_Confirm n index) E.
  - effect_of (Hq n _ (ls_confirm n index)) E.
Qed.

(** A remembered value is not ahead of the node. *)
Definition behind (last : gmap bytes Z) (f : Node -> Z) (w : world) : Prop :=
  forall i p, last !! i = Some p -> exists n, w_nodes w !! i = Some n /\ p <= f n.

Record calm (o : observed) (H : history) : Prop := {
  Q_world : WInv members cfg_of (ob_world o) H;
  Q_term : behind (lastTerm (ob_inv o)) currentTerm (ob_world o);
  Q_snapshot : behind (lastSnapshot (ob_inv o)) (fun n => base (log n)) (ob_world o);
  Q_commit : behind (lastCommit (ob_inv o)) commitIndex (ob_world o);
  Q_applied : behind (it_lastApplied (ob_inv o)) lastApplied (ob_world o);
  Q_leader T i : i ∈ default ∅ (leadersByTerm (ob_inv o) !! T) -> (T, i) ∈ leaders (h_core H);
  Q_silent : violations (ob_inv o) = [] }.

Lemma behind_update last (f : Node -> Z) w i n n' ms :
  w_nodes w !! i = Some n -> f n <= f n' -> behind last f w -> behind last f (update w i n' ms).
Proof using Type.
  intros Hi Hf Hb j p Hp. destruct (Hb j p Hp) as (m & Hm & Hle). cbn. destruct (decide (i = j)) as [<-|Hne].
  - rewrite lookup_insert_eq. exists n'. split; [done|]. rewrite Hi in Hm. injection Hm as <-. lia.
  - rewrite lookup_insert_ne by done. by exists m.
Qed.

Lemma behind_delete last (f : Node -> Z) w i n' ms :
  behind last f w -> behind (delete i last) f (update w i n' ms).
Proof using Type.
  intros Hb j p [Hne Hp]%lookup_delete_Some. cbn. rewrite lookup_insert_ne by done. by apply Hb.
Qed.

Lemma behind_insert last (f : Node -> Z) w i n :
  w_nodes w !! i = Some n -> behind last f w -> behind (<[i := f n]> last) f w.
Proof using Type.
  intros Hi Hb j p [[<- <-]|[Hne Hp]]%lookup_insert_Some; [by exists n|by apply Hb].
Qed.

Lemma calm_run o H w' :
  calm o H -> wrun (ob_world o) w' -> exists H', calm (MkObserved w' (ob_down o) (ob_inv o)) H'.
Proof using Hid Hpeers.
  intros [HW Q1 Q2 Q3 Q4 Q5 Q6] Hs. destruct (wrun_advanced _ _ _ HW Hs) as (i & n & n' & ms & Hi & E & A1 & A2 & A3 & A4).
  destruct (WInv_wstep members cfg_of Hid Hpeers _ _ _ HW (ws_run _ _ Hs)) as (H' & HW' & HX). exists H'.
  split; cbn; try done; [by rewrite E; eapply behind_update..|]. intros T j Hj. by apply (X_leaders _ _ HX), Q5.
Qed.

Lemma newNode_base n r n' :
  node_inv n -> newNode (cfg n) (persister n) r = Ok n' -> base (log n) <= base (log n').
Proof using Type.
  intros Hi. pose proof (N_snapshot _ Hi) as Hs. unfold snapshot_inv in Hs. unfold newNode.
  destruct (match disk_state (persister n) with Some _ => _ | None => _ end) as [[term vote] ents].
  destruct (disk_snapshot (persister n)) as [s|].
  - destruct (match head _ with Some _ => _ | None => _ end); [done|]. intros [= <-].
    change (base (log n) <= LastIncludedIndex s). lia.
  - intros [= <-]. change (base (log n) <= 0). lia.
Qed.

Lemma calm_restart o H i n r n' :
  calm o H -> w_nodes (ob_world o) !! i = Some n -> newNode (cfg n) (persister n) r = Ok n' ->
  exists H', calm (MkObserved (update (ob_world o) i n' []) (ob_down o ∖ {[i]}) (resetVolatile (ob_inv o) i)) H'.
Proof using Hid Hpeers.
  intros [HW Q1 Q2 Q3 Q4 Q5 Q6] Hi E. destruct (W_node _ _ _ _ HW _ _ Hi) as (g & _ & HF).
  pose proof (newNode_base _ _ _ (F_inv _ _ _ _ _ HF) E) as Hb.
  assert (consistent n) as Hc.
  { apply (I_node _ _ _ (W_core _ _ _ _ HW) i). by rewrite (W_nodes _ _ _ _ HW). }
  destruct (newNode_effect _ _ _ Hc E) as (_ & Et & _).
  destruct (WInv_wstep members cfg_of Hid Hpeers _ _ _ HW (ws_crash _ _ _ _ _ Hi E)) as (H' & HW' & HX). exists H'.
  split; cbn; try done; [eapply behind_update; eauto; lia|by eapply behind_update|by apply behind_delete..|].
  intros T j Hj. by apply (X_leaders _ _ HX), Q5.
Qed.

Lemma calm_node w down inv H i n :
  calm (MkObserved w down inv) H -> w_nodes w !! i = Some n ->
  calm (MkObserved w down (observe_node inv (node_state down i n))) H.
Proof using Hid Hpeers.
  intros [HW Q1 Q2 Q3 Q4 Q5 Q6] Hi. cbn in *.
  assert (nodes (h_core H) !! i = Some n) as Hin by (by rewrite (W_nodes _ _ _ _ HW)).
  destruct (W_node _ _ _ _ HW _ _ Hi) as (g & _ & HF).
  assert (forall last (f : Node -> Z), behind last f w -> forall p, last !! i = Some p -> p <= f n) as Hb.
  { intros last f Hb p Hp. destruct (Hb i p Hp) as (n0 & Hn0 & Hle). congruence. }
  assert (role n = Leader -> forall j, j ∈ leaders_with inv (node_state down i n) -> (currentTerm n, j) ∈ leaders (h_core H)) as Hl.
  { intros Hr j. unfold leaders_with. cbn. rewrite elem_of_union, elem_of_singleton. intros [Hj| ->]; [by apply Q5|].
    by apply (I_leader _ _ _ (W_core _ _ _ _ HW)). }
  assert (fine inv (node_state down i n)) as Hf.
  { split; cbn; [by apply Hb|by apply (Hb _ (fun n => base (log n)))|by apply Hb|by apply Hb|apply (N_applied _ (F_inv _ _ _ _ _ HF))|].
    intros Hr%role_leader. rewrite <- (size_singleton (C := gset bytes) i). apply subseteq_size. intros j Hj.
    apply elem_of_singleton. apply (one_leader members cfg_of (h_core H) (currentTerm n)); [apply (W_core _ _ _ _ HW)|by apply Hl|].
    by apply (I_leader _ _ _ (W_core _ _ _ _ HW)). }
  split; cbn; try done.
  6: by apply observe_silent.
  all: unfold observe_node; cbn; destruct (bool_decide (i ∈ down)) in |- *; try done; try (by apply behind_insert).
  - by apply (behind_insert _ (fun n => base (log n))).
  - cbn. intros T j. case_bool_decide as Hr; [|by apply Q5]. apply role_leader in Hr.
    destruct (decide (currentTerm n = T)) as [<-|Hne].
    + rewrite lookup_insert_eq. by apply Hl.
    + rewrite lookup_insert_ne by done. by apply Q5.
Qed.

Lemma calm_snapshot w down inv H ids :
  calm (MkObserved w down inv) H ->
  calm (MkObserved w down (fold_left observe_node (snapshot_nodes ids (w_nodes w) down) inv)) H.
Proof using Hid Hpeers.
  revert inv. induction ids as [|i ids IH]; intros inv Hc; [done|]. unfold snapshot_nodes. cbn [omap list_omap].
  destruct (w_nodes w !! i) as [n|] eqn:Hi; cbn; [|by apply IH]. by apply IH, calm_node.
Qed.

Lemma calm_step ids o o' H : calm o H -> ostep ids o o' -> exists H', calm o' H'.
Proof using Hid Hpeers.
  intros Hc [w' Hs|i|i n r n' _ Hi E|groups isolated].
  - by eapply calm_run.
  - exists H. by destruct Hc.
  - by eapply calm_restart.
  - exists H. unfold observe. cbn. destruct o as [w down inv]. cbn. by apply calm_snapshot.
Qed.
End Cluster.

(** ** Theorems *)

(** The harness's calls. *)
Inductive tracker_call := CallObserve (snap : ClusterSnapshot) | CallReset (id : bytes).
Definition do_call (inv : InvariantTracker) (c : tracker_call) : InvariantTracker :=
  match c with CallObserve snap => observe inv snap | CallReset id => resetVolatile inv id end.
Definition reports (calls : list tracker_call) : list tevent :=
  calls ≫= fun c => match c with CallObserve snap => Seen <$> cs_Nodes snap | CallReset id => [Reset id] end.

Lemma observe_track inv ns : fold_left observe_node ns inv = fold_left track_one (Seen <$> ns) inv.
Proof. revert inv. induction ns as [|n ns IH]; intros inv; [done|]. apply IH. Qed.

Lemma calls_track calls inv : fold_left do_call calls inv = fold_left track_one (reports calls) inv.
Proof.
  revert inv. induction calls as [|c calls IH]; intros inv; [done|]. cbn. rewrite fold_left_app, IH.
  destruct c; [|done]. cbn. unfold observe. by rewrite observe_track.
Qed.

(** C24. The tracker is exact: after any sequence of observations and resets it
    reports no violation if and only if the whole history of what it was
    shown is legal (comparing all pairs of observations, where the code only
    remembers the last one): no false alarm, and nothing missed. *)
Theorem InvariantTracker_exact calls :
  Check (fold_left do_call calls newInvariantTracker) = None <-> legal (reports calls).
Proof.
  rewrite calls_track, <- track_exact. unfold Check, Violations, track. by destruct (violations _).
Qed.

(** C25. The chaos harness never cries wolf: on every run of the cluster,
    with lost, delayed, reordered and duplicated messages, failed saves,
    nodes stopped and restarted from their disks, and observations taken at
    any moments, [Check] returns nil. One crash window is left out of the
    runs: an installation whose log save fails after its snapshot save
    succeeded ([torn_install_keeps_conflict]). Terms and indices stay below
    2^64. *)
Theorem InvariantTracker_silent (members : gset bytes) (cfg_of : bytes -> Config) ids w o :
  (forall i, i ∈ members -> c_id (cfg_of i) = i /\ i <> []) ->
  (forall i, i ∈ members ->
     NoDup (i :: c_peers (cfg_of i)) /\ list_to_set (i :: c_peers (cfg_of i)) = members) ->
  winitial members cfg_of w -> rtc (ostep ids) (MkObserved w ∅ newInvariantTracker) o -> Check (ob_inv o) = None.
Proof.
  intros Hid Hpeers Hw Hr. destruct (WInv_initial members cfg_of Hid w Hw) as (H & HW).
  assert (calm members cfg_of (MkObserved w ∅ newInvariantTracker) H) as Hc.
  { split; cbn; try done; try (intros i p Hp; by rewrite lookup_empty in Hp). }
  clear HW Hw. remember (MkObserved w ∅ newInvariantTracker) as o0 eqn:E0. clear E0. revert H Hc.
  induction Hr as [o|o o1 o' Hs _ IH]; intros H Hc.
  - unfold Check, Violations. by rewrite (Q_silent _ _ _ _ Hc).
  - destruct (calm_step members cfg_of Hid Hpeers ids o o1 H Hc Hs) as (H' & Hc'). by eapply IH.
Qed.

(** ** Witnesses *)

Definition trio_list : list bytes := [na; nb; nc].
Definition watch (w : world) (down : gset bytes) (inv : InvariantTracker) : InvariantTracker :=
  observe inv (MkClusterSnapshot (snapshot_nodes trio_list (w_nodes w) down) [] []).
Definition seen1 : InvariantTracker := watch world0 ∅ newInvariantTracker.
Definition seen2 : InvariantTracker := watch world1 ∅ seen1.

Example InvariantTracker_silent_witness :
  lastTerm seen2 !! na = Some 1 /\ Check seen2 = None.
Proof.
  split; [vm_compute; reflexivity|].
  apply (InvariantTracker_silent trio trio_cfg trio_list world0 (MkObserved world1 ∅ seen2) RaftElection.trio_ids trio_peers world0_initial).
  apply (rtc_l _ _ (MkObserved world0 ∅ seen1)); [apply (os_observe trio_list (MkObserved world0 ∅ newInvariantTracker))|].
  apply (rtc_l _ _ (MkObserved world1 ∅ seen1)).
  - apply (os_run trio_list (MkObserved world0 ∅ seen1)).
    apply (ws_tick world0 na (fresh_node na) calm_faults a1); [exact (proj1 world0_nodes)|reflexivity|apply surjective_pairing].
  - apply rtc_once. apply (os_observe trio_list (MkObserved world1 ∅ seen1)).
Defined.
