(* ===== verification/Checker.v ===== *)
(** * The linearizability checker

    correctness/: the operation history (operation.go), the reference model
    (model.go), the bounded backtracking search (checker.go) and its minimizer
    (reducer.go). Go's [done] map is shared by the whole search and is part of the search state here. *)

From S2P Require Import Prelude Bytes.
From Stdlib Require Import Strings.Byte Strings.String.
From stdpp Require Import base tactics list numbers gmap.
From Stdlib Require Import ZArith Lia.
#[local] Open Scope Z_scope.

(** ** Histories: operation.go *)

Inductive OpKind := OpGet | OpPut | OpDelete | OpKindOther (n : Z).
Inductive Outcome := OutcomeIncomplete | OutcomeFailed | OutcomeOK | OutcomeOther (n : Z).

#[export] Instance OpKind_eq_dec : EqDecision OpKind.
Proof. solve_decision. Defined.
#[export] Instance Outcome_eq_dec : EqDecision Outcome.
Proof. solve_decision. Defined.

(** [op_Err] is the error's message. *)
Record Operation := MkOp {
  op_ID : Z;
  op_ClientID : bytes;
  op_RequestID : Z;
  op_Kind : OpKind;
  op_Node : bytes;
  op_Key : bytes;
  op_Value : bytes;
  op_Invoke : Z;
  op_Complete : Z;
  op_Outcome : Outcome;
  op_Found : bool;
  op_Result : bytes;
  op_Err : option bytes }.

#[export] Instance Operation_eq_dec : EqDecision Operation.
Proof. solve_decision. Defined.

Abbreviation History := (list Operation).

Inductive history_error :=
| ErrDuplicateID (id : Z) | ErrUnknownKind (id : Z) | ErrUnknownOutcome (id : Z)
| ErrIncompleteErr (id : Z) | ErrOrder (id : Z) | ErrFailedNoErr (id : Z) | ErrOKErr (id : Z)
| ErrNotFoundResult (id : Z) | ErrFoundNotGet (id : Z).

(** The checks on one operation. *)
Definition validate_op (op : Operation) : option history_error :=
  let id := op_ID op in
  match op_Kind op with
  | OpKindOther _ => Some (ErrUnknownKind id)
  | _ =>
      match op_Outcome op with
      | OutcomeIncomplete => if bool_decide (op_Err op = None) then None else Some (ErrIncompleteErr id)
      | OutcomeFailed =>
          if op_Complete op <=? op_Invoke op then Some (ErrOrder id)
          else if bool_decide (op_Err op = None) then Some (ErrFailedNoErr id) else None
      | OutcomeOK =>
          if op_Complete op <=? op_Invoke op then Some (ErrOrder id)
          else if negb (bool_decide (op_Err op = None)) then Some (ErrOKErr id)
          else if bool_decide (op_Kind op = OpGet) && negb (op_Found op) && negb (bool_decide (op_Result op = []))
          then Some (ErrNotFoundResult id)
          else if negb (bool_decide (op_Kind op = OpGet)) && op_Found op then Some (ErrFoundNotGet id)
          else None
      | OutcomeOther _ => Some (ErrUnknownOutcome id)
      end
  end.

Fixpoint validate_from (seen : gset Z) (ops : list Operation) : option history_error :=
  match ops with
  | [] => None
  | op :: ops =>
      if bool_decide (op_ID op ∈ seen) then Some (ErrDuplicateID (op_ID op))
      else match validate_op op with
           | Some e => Some e
           | None => validate_from ({[op_ID op]} ∪ seen) ops
           end
  end.

Definition Validate (h : History) : option history_error := validate_from ∅ h.

Definition Completed (h : History) : list Operation := filter (fun op => op_Outcome op = OutcomeOK) h.

Definition successfulWrite (op : Operation) : bool :=
  bool_decide (op_Outcome op = OutcomeOK) && (bool_decide (op_Kind op = OpPut) || bool_decide (op_Kind op = OpDelete)).

(** ** The reference model: model.go *)

Abbreviation kv := (gmap bytes bytes).

Definition model_apply (m : kv) (op : Operation) : kv * (bool * bytes) :=
  match op_Kind op with
  | OpPut => (<[op_Key op := op_Value op]> m, (false, []))
  | OpDelete => (delete (op_Key op) m, (false, []))
  | OpGet => (m, match m !! op_Key op with Some v => (true, v) | None => (false, []) end)
  | OpKindOther _ => (m, (false, []))
  end.

Definition model_matches (m : kv) (op : Operation) : kv * bool :=
  let '(m, (found, value)) := model_apply m op in
  (m, if negb (bool_decide (op_Kind op = OpGet)) then true
      else if negb (Bool.eqb found (op_Found op)) then false
      else negb found || bool_decide (value = op_Result op)).

(** ** The search: checker.go *)

Record searcher := MkSearcher {
  s_ops : gmap Z Operation;
  s_ids : list Z;
  s_preds : gmap Z (list Z);
  s_maxStates : Z }.

Record search_state := MkSearch {
  st_done : gmap Z bool;
  st_states : Z;
  st_budgetExceeded : bool;
  st_result : list Z;
  st_bestDepth : Z;
  st_bestPrefix : list Z;
  st_bestFailedID : Z;
  st_bestFoundAt : bool;
  st_bestValueAt : bytes }.

Definition set_done (st : search_state) (d : gmap Z bool) : search_state :=
  MkSearch d (st_states st) (st_budgetExceeded st) (st_result st) (st_bestDepth st) (st_bestPrefix st)
    (st_bestFailedID st) (st_bestFoundAt st) (st_bestValueAt st).
Definition set_states (st : search_state) (n : Z) (x : bool) : search_state :=
  MkSearch (st_done st) n x (st_result st) (st_bestDepth st) (st_bestPrefix st)
    (st_bestFailedID st) (st_bestFoundAt st) (st_bestValueAt st).
Definition set_result (st : search_state) (l : list Z) : search_state :=
  MkSearch (st_done st) (st_states st) (st_budgetExceeded st) l (st_bestDepth st) (st_bestPrefix st)
    (st_bestFailedID st) (st_bestFoundAt st) (st_bestValueAt st).

Definition is_done (d : gmap Z bool) (id : Z) : bool := default false (d !! id).

(** The ids of the operations that finished before [b] was invoked. *)
Definition preds_of (required : list Operation) (b : Operation) : list Z :=
  op_ID <$> filter (fun a => op_ID a <> op_ID b /\ op_Complete a < op_Invoke b) required.

Definition newSearcher (required included : list Operation) (maxStates : Z) : searcher :=
  let all := required ++ included in
  MkSearcher (fold_left (fun m op => <[op_ID op := op]> m) all ∅) (op_ID <$> all)
    (fold_left (fun p b => <[op_ID b := default [] (p !! op_ID b) ++ preds_of required b]> p) all ∅) maxStates.

Definition ready (s : searcher) (d : gmap Z bool) (id : Z) : bool :=
  if is_done d id then false else forallb (is_done d) (default [] (s_preds s !! id)).

Definition recordFailure (st : search_state) (prefix : list Z) (failedID : Z) (foundAt : bool) (valueAt : bytes) :
    search_state :=
  if zlen prefix <? st_bestDepth st then st
  else MkSearch (st_done st) (st_states st) (st_budgetExceeded st) (st_result st) (zlen prefix) prefix
         failedID foundAt valueAt.

(** A zero [Operation], which a missing key of a Go map reads as. *)
Definition zero_op : Operation := MkOp 0 [] 0 OpGet [] [] [] 0 0 OutcomeIncomplete false [] None.
#[export] Instance Operation_inhabited : Inhabited Operation := populate zero_op.

Definition op_at (s : searcher) (id : Z) : Operation := default zero_op (s_ops s !! id).

Definition mismatch (op : Operation) (found : bool) (value : bytes) : bool :=
  bool_decide (op_Kind op = OpGet) &&
  (negb (Bool.eqb found (op_Found op)) || (found && negb (bool_decide (value = op_Result op)))).

(** The loop of [search] over the ids that remain, [rec] being the recursive
    call. *)
Fixpoint search_loop (rec : list Z -> kv -> search_state -> bool * search_state) (s : searcher)
    (linearized : list Z) (m : kv) (remaining : list Z) (st : search_state) : bool * search_state :=
  match remaining with
  | [] => (false, st)
  | id :: remaining =>
      if is_done (st_done st) id then search_loop rec s linearized m remaining st
      else if negb (ready s (st_done st) id) then search_loop rec s linearized m remaining st
      else
        let st := set_states st (st_states st + 1) (st_budgetExceeded st) in
        if st_states st >? s_maxStates s then (false, set_states st (st_states st) true)
        else
          let op := op_at s id in
          let '(candidate, (foundAt, valueAt)) := model_apply m op in
          if mismatch op foundAt valueAt then
            search_loop rec s linearized m remaining (recordFailure st linearized id foundAt valueAt)
          else
            match rec (linearized ++ [id]) candidate (set_done st (<[id := true]> (st_done st))) with
            | (true, st) => (true, st)
            | (false, st) =>
                let st := set_done st (<[id := false]> (st_done st)) in
                if st_budgetExceeded st then (false, st) else search_loop rec s linearized m remaining st
            end
  end.

(** [search]; the depth is at most the number of ids, so that much fuel is
    enough ([search_fuel] below). *)
Fixpoint search (fuel : nat) (s : searcher) (linearized : list Z) (m : kv) (st : search_state) :
    bool * search_state :=
  if (size (st_done st) =? size (s_ops s))%nat then (true, set_result st linearized)
  else match fuel with
       | O => (false, st)
       | S fuel => search_loop (search fuel s) s linearized m (s_ids s) st
       end.

(** ** Results: result.go *)

Inductive Status := StatusValid | StatusViolation | StatusInconclusive.
#[export] Instance Status_eq_dec : EqDecision Status.
Proof. solve_decision. Defined.

Record Violation := MkViolation {
  v_Linearization : list Z;
  v_FailingOp : Operation;
  v_ExpectedFound : bool;
  v_ExpectedValue : bytes }.

Definition noViolation : Violation := MkViolation [] zero_op false [].

Record CheckResult := MkResult {
  r_Status : Status;
  r_Linearization : list Z;
  r_Violation : option Violation;
  r_StatesExplored : Z;
  r_Budget : Z }.

Definition init_state : search_state := MkSearch ∅ 0 false [] 0 [] 0 false [].

(** [bestPrefix] is nil exactly when no failure was recorded at a depth
    above 0 or at all; a copy of an empty prefix is nil too. *)
Definition bestFailure (s : searcher) (st : search_state) : Violation :=
  if bool_decide (st_bestPrefix st = []) && (st_bestFailedID st =? 0) then noViolation
  else MkViolation (st_bestPrefix st) (op_at s (st_bestFailedID st)) (st_bestFoundAt st) (st_bestValueAt st).

Definition searcher_run (s : searcher) : CheckResult :=
  let '(ok, st) := search (length (s_ids s)) s [] ∅ init_state in
  if st_budgetExceeded st then MkResult StatusInconclusive [] None (st_states st) (s_maxStates s)
  else if ok then MkResult StatusValid (st_result st) None (st_states st) (s_maxStates s)
  else MkResult StatusViolation [] (Some (bestFailure s st)) (st_states st) (s_maxStates s).

(** ** [Check] *)

Definition DefaultMaxStates : Z := 200000.
Definition maxOptionalWrites : nat := 12.

Definition optionalSubsets (k : nat) : list Z :=
  if (k =? 0)%nat then [0]
  else if (maxOptionalWrites <? k)%nat then [0; 2 ^ Z.of_nat k - 1]
  else Z.of_nat <$> seq 0 (2 ^ k).

Definition optional_of (h : History) : list Operation :=
  filter (fun op => op_Outcome op = OutcomeIncomplete /\ (op_Kind op = OpPut \/ op_Kind op = OpDelete)) h.

(** The operations of [optional] whose bit of [mask] is set; a Go [int] has
    64 of them. *)
Fixpoint included_from (i : nat) (mask : Z) (optional : list Operation) : list Operation :=
  match optional with
  | [] => []
  | op :: optional =>
      if (i <? 64)%nat && Z.testbit mask (Z.of_nat i) then op :: included_from (S i) mask optional
      else included_from (S i) mask optional
  end.

Definition included_of (mask : Z) (optional : list Operation) : list Operation := included_from 0 mask optional.

Record check_state := MkCheck { k_best : CheckResult; k_inconclusive : bool; k_used : Z }.

Definition finish (maxStates : Z) (k : check_state) : CheckResult :=
  MkResult (if k_inconclusive k then StatusInconclusive else r_Status (k_best k))
    (r_Linearization (k_best k)) (r_Violation (k_best k)) (k_used k) maxStates.

Definition better (r best : CheckResult) : bool :=
  match r_Violation r with
  | None => false
  | Some v => zlen (v_Linearization (default noViolation (r_Violation best))) <=? zlen (v_Linearization v)
  end.

Fixpoint check_loop (maxStates : Z) (completed optional : list Operation) (masks : list Z) (k : check_state) :
    CheckResult :=
  match masks with
  | [] => finish maxStates k
  | mask :: masks =>
      let remainingBudget := maxStates - k_used k in
      if remainingBudget <=? 0 then finish maxStates (MkCheck (k_best k) true (k_used k))
      else
        let result := searcher_run (newSearcher completed (included_of mask optional) remainingBudget) in
        let used := k_used k + r_StatesExplored result in
        match r_Status result with
        | StatusValid => MkResult StatusValid (r_Linearization result) (r_Violation result) used maxStates
        | StatusInconclusive => check_loop maxStates completed optional masks (MkCheck (k_best k) true used)
        | StatusViolation =>
            check_loop maxStates completed optional masks
              (MkCheck (if better result (k_best k) then result else k_best k) (k_inconclusive k) used)
        end
  end.

Definition Check (h : History) (maxStates : Z) : CheckResult :=
  let maxStates := if maxStates <=? 0 then DefaultMaxStates else maxStates in
  let optional := optional_of h in
  check_loop maxStates (Completed h) optional (optionalSubsets (length optional))
    (MkCheck (MkResult StatusViolation [] (Some noViolation) 0 0) false 0).

(** ** Linearizability *)

(** The operations observe, in this order, what they recorded. *)
Fixpoint replays (m : kv) (l : list Operation) : Prop :=
  match l with
  | [] => True
  | op :: l => let '(m', (found, value)) := model_apply m op in mismatch op found value = false /\ replays m' l
  end.

(** An operation comes before every one invoked after it completed. *)
Definition respects (required l : list Operation) : Prop :=
  forall i j a b, l !! i = Some a -> l !! j = Some b -> a ∈ required -> op_ID a <> op_ID b ->
    op_Complete a < op_Invoke b -> (i < j)%nat.

Definition linearizes (required included l : list Operation) : Prop :=
  l ≡ₚ required ++ included /\ replays ∅ l /\ respects required l.

(** Some of the writes that never completed took effect, the others did
    not. *)
Definition linearizable (h : History) : Prop :=
  exists included l, included `sublist_of` optional_of h /\ linearizes (Completed h) included l.

(** ** The search explores every order *)

Section Search.
Context (s : searcher).

Definition replays_ids (m : kv) (l : list Z) : Prop := replays m (op_at s <$> l).

(** The predecessors of every id of [rest] come before it. *)
Definition ordered (lin rest : list Z) : Prop :=
  forall k id p, rest !! k = Some id -> p ∈ default [] (s_preds s !! id) -> p ∈ lin \/ p ∈ take k rest.

(** [done] marks exactly what is linearized. *)
Definition marks (lin : list Z) (st : search_state) : Prop :=
  (forall id, is_done (st_done st) id = true <-> id ∈ lin) /\ dom (st_done st) ⊆ list_to_set (s_ids s).

Lemma is_done_insert d id b j : is_done (<[id := b]> d) j = if decide (j = id) then b else is_done d j.
Proof using Type.
  unfold is_done. case_decide as E; [subst; by rewrite lookup_insert_eq|by rewrite lookup_insert_ne].
Qed.

Lemma marks_push lin st id :
  id ∈ s_ids s -> marks lin st -> marks (lin ++ [id]) (set_done st (<[id := true]> (st_done st))).
Proof using Type.
  intros Hid [H1 H2]. split; cbn.
  - intros j. rewrite is_done_insert. case_decide; [subst; set_solver|]. rewrite H1. set_solver.
  - rewrite dom_insert. set_solver.
Qed.

Lemma marks_pop lin st id :
  id ∈ s_ids s -> id ∉ lin -> marks (lin ++ [id]) st -> marks lin (set_done st (<[id := false]> (st_done st))).
Proof using Type.
  intros Hid Hn [H1 H2]. split; cbn.
  - intros j. rewrite is_done_insert. case_decide; [subst; naive_solver|]. rewrite H1. set_solver.
  - rewrite dom_insert. set_solver.
Qed.

Lemma marks_same lin st st' : st_done st' = st_done st -> marks lin st -> marks lin st'.
Proof using Type. unfold marks. by intros ->. Qed.

Lemma recordFailure_done st lin id f v : st_done (recordFailure st lin id f v) = st_done st.
Proof using Type. unfold recordFailure. by case_if. Qed.

(** A branch that fails within the budget leaves the marks as it found
    them. *)
Lemma loop_frame rec lin m R st st' :
  (forall lin m st st', marks lin st -> rec lin m st = (false, st') -> marks lin st') ->
  R ⊆ s_ids s -> marks lin st -> search_loop rec s lin m R st = (false, st') -> marks lin st'.
Proof using Type.
  intros Hrec HR. revert st. induction R as [|id R IH]; intros st Hm; cbn [search_loop]; [by intros [= <-]|].
  assert (R ⊆ s_ids s) as HR' by set_solver. case_if; [by apply IH|]. case_if; [by apply IH|].
  case_if; [intros [= <-]; by eapply marks_same|].
  destruct (model_apply m (op_at s id)) as [cand [found value]]. case_if.
  { apply IH; [done|]. eapply marks_same; [|exact Hm]. by rewrite recordFailure_done. }
  destruct (rec _ _ _) as [[] st2] eqn:Er; [done|].
  assert (marks lin (set_done st2 (<[id:=false]> (st_done st2)))) as Hm2.
  { apply marks_pop; [set_solver|rewrite <- (proj1 Hm); congruence|].
    eapply Hrec; [|exact Er]. apply marks_push; [set_solver|]. by eapply marks_same. }
  case_if; [intros [= <-]; done|]. by apply IH.
Qed.

Lemma search_frame fuel lin m st st' :
  marks lin st -> search fuel s lin m st = (false, st') -> marks lin st'.
Proof using Type.
  revert lin m st st'. induction fuel as [|fuel IH]; intros lin m st st' Hm; cbn [search]; case_if; try done.
  - by intros [= <-].
  - by apply loop_frame.
Qed.

(** If the linearization so far can be completed, the loop over ids that
    include the next one finds some completion or runs out of budget. *)
Lemma loop_complete rec lin m R st id0 rest :
  (forall lin m st st', marks lin st -> rec lin m st = (false, st') -> marks lin st') ->
  (forall st, marks (lin ++ [id0]) st ->
     (rec (lin ++ [id0]) (model_apply m (op_at s id0)).1 st).1 = true \/
     st_budgetExceeded (rec (lin ++ [id0]) (model_apply m (op_at s id0)).1 st).2 = true) ->
  R ⊆ s_ids s -> id0 ∈ R -> marks lin st -> id0 ∉ lin ->
  (forall p, p ∈ default [] (s_preds s !! id0) -> p ∈ lin) -> replays_ids m (id0 :: rest) ->
  let '(b, st') := search_loop rec s lin m R st in b = true \/ st_budgetExceeded st' = true.
Proof using Type.
  intros Hframe Hrec HR Hin Hm Hnew Hpreds Hrep. revert st Hm. induction R as [|id R IH]; intros st Hm; [set_solver|].
  cbn [search_loop]. assert (R ⊆ s_ids s) as HR' by set_solver. specialize (IH HR').
  assert (is_done (st_done st) id0 = false) as Hnd0.
  { apply not_true_iff_false. by rewrite (proj1 Hm). }
  destruct (decide (id = id0)) as [->|Hne].
  - rewrite Hnd0. assert (ready s (st_done st) id0 = true) as ->.
    { unfold ready. rewrite Hnd0. apply forallb_forall. intros p Hp%list_elem_of_In. by apply Hm, Hpreds. }
    cbn [negb]. case_if; [by right|]. unfold replays_ids in Hrep. cbn [fmap list_fmap replays] in Hrep.
    specialize (Hrec (set_done (set_states st (st_states st + 1) (st_budgetExceeded st))
      (<[id0:=true]> (st_done st)))).
    destruct (model_apply m (op_at s id0)) as [cand [found value]]. destruct Hrep as [-> _]. cbn [fst] in Hrec.
    change (st_done (set_states st _ _)) with (st_done st).
    destruct Hrec as [Hr|Hr];
      [exact (marks_push lin (set_states st _ _) id0 ltac:(set_solver) (marks_same lin st _ eq_refl Hm))|..].
    + destruct (rec _ _ _) as [[] st2]; [by left|done].
    + destruct (rec _ _ _) as [[] st2]; [by left|]. cbn in Hr |- *. rewrite Hr. by right.
  - assert (id0 ∈ R) as Hin' by set_solver. specialize (IH Hin').
    case_if; [by apply IH|]. case_if; [by apply IH|]. case_if; [by right|].
    destruct (model_apply m (op_at s id)) as [cand [found value]]. case_if.
    { apply IH. eapply marks_same; [|exact Hm]. by rewrite recordFailure_done. }
    destruct (rec _ _ _) as [[] st2] eqn:Er; [by left|]. case_if; [by right|].
    apply IH. apply marks_pop; [set_solver|rewrite <- (proj1 Hm); congruence|].
    eapply Hframe; [|exact Er]. apply marks_push; [set_solver|]. by eapply marks_same.
Qed.

Context (Hnd : NoDup (s_ids s)) (Hsize : size (s_ops s) = length (s_ids s)).

Lemma marks_full lin st : lin ≡ₚ s_ids s -> marks lin st -> size (st_done st) = size (s_ops s).
Proof using All.
  intros Hp [H1 H2]. rewrite Hsize, <- size_dom. rewrite <- (size_list_to_set (C := gset Z) (s_ids s)) by done.
  f_equal. apply (anti_symm (⊆)); [done|]. intros id Hid%elem_of_list_to_set. rewrite <- Hp in Hid.
  apply H1 in Hid. unfold is_done in Hid. apply elem_of_dom. by destruct (st_done st !! id).
Qed.

Lemma search_complete fuel lin m st rest :
  (length rest <= fuel)%nat -> lin ++ rest ≡ₚ s_ids s -> marks lin st -> replays_ids m rest -> ordered lin rest ->
  let '(b, st') := search fuel s lin m st in b = true \/ st_budgetExceeded st' = true.
Proof using All.
  revert lin m st rest. induction fuel as [|fuel IH]; intros lin m st rest Hf Hp Hm Hr Ho; cbn [search].
  - destruct rest; [|cbn in Hf; lia]. rewrite app_nil_r in Hp. rewrite (marks_full _ _ Hp Hm), Nat.eqb_refl. by left.
  - case_if; [by left|]. destruct rest as [|id0 rest].
    { rewrite app_nil_r in Hp. rewrite (marks_full _ _ Hp Hm), Nat.eqb_refl in E. done. }
    apply loop_complete with (id0 := id0) (rest := rest).
    + apply search_frame.
    + intros st1 Hm1. unfold replays_ids in Hr. cbn [fmap list_fmap replays] in Hr.
      specialize (IH (lin ++ [id0]) (model_apply m (op_at s id0)).1 st1 rest ltac:(cbn in Hf; lia)).
      destruct (model_apply m (op_at s id0)) as [cand [found value]]. cbn [fst] in *.
      destruct (search fuel s _ _ _). apply IH; [by rewrite <- app_assoc|done|by destruct Hr|].
      intros k id p Hk Hpp. destruct (Ho (S k) id p Hk Hpp) as [?|Hin]; [set_solver|].
      cbn in Hin. set_solver.
    + done.
    + rewrite <- Hp. set_solver.
    + done.
    + intros Hin. rewrite <- Hp in Hnd. apply NoDup_app in Hnd as (_ & Hd & _). apply (Hd id0 Hin). set_solver.
    + intros p Hpp. destruct (Ho 0%nat id0 p eq_refl Hpp) as [?|Hin]; [done|]. cbn in Hin. set_solver.
    + done.
Qed.
End Search.

(** ** What is linearized is legal *)

Definition run_model (m : kv) (l : list Operation) : kv := fold_left (fun m op => (model_apply m op).1) l m.

Lemma replays_snoc m l op :
  replays m l -> mismatch op (model_apply (run_model m l) op).2.1 (model_apply (run_model m l) op).2.2 = false ->
  replays m (l ++ [op]).
Proof.
  revert m. induction l as [|o l IH]; intros m; cbn.
  - intros _. by destruct (model_apply m op) as [? []].
  - destruct (model_apply m o) as [m' []]. cbn. intros [? ?] ?. auto.
Qed.

Section Prefix.
Context (s : searcher).

Record partial (lin : list Z) (m : kv) : Prop := {
  P_nodup : NoDup lin;
  P_ids : lin ⊆ s_ids s;
  P_replays : replays_ids s ∅ lin;
  P_model : run_model ∅ (op_at s <$> lin) = m;
  P_ordered : ordered s [] lin }.

Lemma partial_push lin m st id cand found value :
  partial lin m -> marks s lin st -> id ∈ s_ids s -> is_done (st_done st) id = false ->
  ready s (st_done st) id = true -> model_apply m (op_at s id) = (cand, (found, value)) ->
  mismatch (op_at s id) found value = false -> partial (lin ++ [id]) cand.
Proof.
  intros [Hn Hi Hr Hm Ho] [Hd _] Hid Hnew Hready Ha Hmm. split.
  - apply NoDup_app. split; [done|]. split; [|apply NoDup_singleton].
    intros j Hj ->%list_elem_of_singleton. apply Hd in Hj. congruence.
  - set_solver.
  - unfold replays_ids. rewrite fmap_app. apply replays_snoc; [done|]. by rewrite Hm, Ha.
  - rewrite fmap_app. unfold run_model in *. rewrite fold_left_app, Hm. cbn. by rewrite Ha.
  - intros k j p Hk Hp. right. apply lookup_snoc_Some in Hk as [[Hlt Hk]|[-> <-]].
    + rewrite take_app_le by lia. destruct (Ho k j p Hk Hp) as [?%not_elem_of_nil|?]; done.
    + rewrite take_app_length. unfold ready in Hready. rewrite Hnew in Hready.
      apply Hd. eapply forallb_forall in Hready; [exact Hready|]. by apply list_elem_of_In.
Qed.

Definition found_prefix (st : search_state) : Prop := exists m, partial (st_result st) m.

Lemma loop_prefix rec lin m R st st' :
  (forall lin m st st', marks s lin st -> rec lin m st = (false, st') -> marks s lin st') ->
  (forall lin m st st', partial lin m -> marks s lin st -> rec lin m st = (true, st') -> found_prefix st') ->
  R ⊆ s_ids s -> partial lin m -> marks s lin st ->
  search_loop rec s lin m R st = (true, st') -> found_prefix st'.
Proof.
  intros Hframe Hrec HR Hp. revert st. induction R as [|id R IH]; intros st Hm; cbn [search_loop]; [done|].
  assert (R ⊆ s_ids s) as HR' by set_solver. specialize (IH HR').
  destruct (is_done (st_done st) id) eqn:Ed; [by apply IH|].
  destruct (ready s (st_done st) id) eqn:Er; cbn [negb]; [|by apply IH]. case_if; [done|].
  destruct (model_apply m (op_at s id)) as [cand [found value]] eqn:Ea.
  destruct (mismatch _ _ _) eqn:Emm.
  { apply IH. eapply marks_same; [|exact Hm]. by rewrite recordFailure_done. }
  assert (id ∈ s_ids s) as Hid by set_solver.
  pose proof (marks_push s lin (set_states st (st_states st + 1) (st_budgetExceeded st)) id Hid
    (marks_same s lin st _ eq_refl Hm)) as Hm1.
  destruct (rec _ _ _) as [[] st2] eqn:Ere.
  - intros [= <-]. eapply Hrec; [|exact Hm1|exact Ere]. by eapply partial_push.
  - case_if; [done|]. apply IH. apply marks_pop; [done|rewrite <- (proj1 Hm); congruence|].
    eapply Hframe; [exact Hm1|exact Ere].
Qed.

Lemma search_prefix fuel lin m st st' :
  partial lin m -> marks s lin st -> search fuel s lin m st = (true, st') -> found_prefix st'.
Proof.
  revert lin m st st'. induction fuel as [|fuel IH]; intros lin m st st' Hp Hm; cbn [search];
    (case_if; [intros [= <-]; by exists m|]); [done|].
  eapply loop_prefix; [apply search_frame|exact IH|done|done|done].
Qed.

Lemma partial_nil : partial [] ∅.
Proof. split; [apply NoDup_nil_2|set_solver|done|done|intros k id p Hk; by rewrite lookup_nil in Hk]. Qed.

Lemma marks_init : marks s [] init_state.
Proof. split; [|set_solver]. intros id. unfold is_done. cbn. rewrite lookup_empty. cbn. set_solver. Qed.
End Prefix.

(** ** One searcher *)

Lemma fmap_id_on {A} (f : A -> A) l : Forall (fun x => f x = x) l -> f <$> l = l.
Proof. induction 1; cbn; [done|]. by f_equal. Qed.

Section Searcher.
Context (required included : list Operation) (budget : Z).
Let all := required ++ included.
Let s := newSearcher required included budget.
Context (Hnd : NoDup (op_ID <$> all)).

Lemma fold_ops (l : list Operation) m :
  NoDup (op_ID <$> l) -> fold_left (fun m op => <[op_ID op := op]> m) l m =
  list_to_map ((fun op => (op_ID op, op)) <$> l) ∪ (m : gmap Z Operation).
Proof using Type.
  revert m. induction l as [|o l IH]; intros m Hn; cbn; [by rewrite (left_id_L ∅ (∪))|].
  apply NoDup_cons in Hn as [Hn1 Hn2]. rewrite IH by done.
  rewrite <- insert_union_l, insert_union_r; [done|].
  apply not_elem_of_list_to_map_1. by rewrite <- list_fmap_compose.
Qed.

Lemma s_ops_map : s_ops s = list_to_map ((fun op => (op_ID op, op)) <$> all).
Proof using All. unfold s, newSearcher. cbn. rewrite fold_ops by done. apply (right_id_L ∅ (∪)). Qed.

Lemma op_at_id op : op ∈ all -> op_at s (op_ID op) = op.
Proof using All.
  intros Hin. unfold op_at. rewrite s_ops_map. erewrite elem_of_list_to_map_1; [done| |].
  - by rewrite <- list_fmap_compose.
  - apply list_elem_of_fmap. by exists op.
Qed.

Lemma s_size : size (s_ops s) = length (s_ids s).
Proof using All.
  rewrite s_ops_map, <- size_dom, dom_list_to_map_L, <- list_fmap_compose, size_list_to_set by done.
  done.
Qed.

Lemma fold_preds (l : list Operation) (p : gmap Z (list Z)) b :
  NoDup (op_ID <$> l) -> (forall o, o ∈ l -> p !! op_ID o = None) -> b ∈ l ->
  fold_left (fun p b => <[op_ID b := default [] (p !! op_ID b) ++ preds_of required b]> p) l p !! op_ID b =
  Some (preds_of required b).
Proof using Type.
  clear Hnd. revert p. induction l as [|o l IH]; intros p Hn Hp Hb; [by apply not_elem_of_nil in Hb|]. cbn.
  apply NoDup_cons in Hn as [Hn1 Hn2]. apply elem_of_cons in Hb as [->|Hb].
  - assert (forall (l : list Operation) (q : gmap Z (list Z)) v, op_ID o ∉ op_ID <$> l -> q !! op_ID o = Some v ->
      fold_left (fun p b => <[op_ID b := default [] (p !! op_ID b) ++ preds_of required b]> p) l q !! op_ID o = Some v)
      as Hkeep.
    { clear. intros l. induction l as [|x l IH]; intros q v Hn Hq; cbn; [done|].
      rewrite fmap_cons, not_elem_of_cons in Hn. destruct Hn. apply IH; [done|].
      by rewrite lookup_insert_ne by done. }
    apply Hkeep; [done|]. rewrite lookup_insert_eq, Hp by set_solver. done.
  - apply IH; [done| |done]. intros x Hx. rewrite lookup_insert_ne; [apply Hp; set_solver|].
    intros E. apply Hn1. rewrite E. by apply list_elem_of_fmap_2.
Qed.

Lemma s_preds_of b : b ∈ all -> default [] (s_preds s !! op_ID b) = preds_of required b.
Proof using All.
  intros Hb. unfold s, newSearcher. cbn [s_preds]. rewrite fold_preds; [done|done| |done].
  intros o _. apply lookup_empty.
Qed.

Lemma ids_ops (l : list Z) : l ⊆ s_ids s -> op_ID <$> (op_at s <$> l) = l.
Proof using All.
  intros Hl. rewrite <- list_fmap_compose. apply fmap_id_on. apply Forall_forall. intros id Hid.
  apply Hl in Hid. cbn in Hid. apply list_elem_of_fmap in Hid as (op & -> & Hop). cbn. by rewrite op_at_id.
Qed.

(** A searcher that reports a violation has ruled every order out. *)
Lemma run_violation : r_Status (searcher_run s) = StatusViolation -> ~ exists l, linearizes required included l.
Proof using All.
  intros Hv (l & Hp & Hr & Ho). unfold searcher_run in Hv.
  assert (Forall (fun op => op ∈ all) l) as Hall by (apply Forall_forall; intros op; by rewrite Hp).
  assert (op_at s <$> (op_ID <$> l) = l) as Hback.
  { rewrite <- list_fmap_compose. apply fmap_id_on. eapply Forall_impl; [exact Hall|].
    intros op Hop. cbn. by apply op_at_id. }
  pose proof (search_complete s Hnd s_size (length (s_ids s)) [] ∅ init_state (op_ID <$> l)) as Hc.
  destruct (search _ _ _ _ _) as [b st]. destruct Hc as [->|Hx].
  - rewrite length_fmap, Hp. cbn. by rewrite length_fmap.
  - cbn. by rewrite Hp.
  - apply marks_init.
  - unfold replays_ids. by rewrite Hback.
  - intros k id p Hk Hpp. right. rewrite list_lookup_fmap in Hk.
    destruct (l !! k) as [b'|] eqn:Eb; [|done]. injection Hk as <-.
    assert (b' ∈ all) as Hb by (unfold all; rewrite <- Hp; by eapply list_elem_of_lookup_2).
    rewrite s_preds_of in Hpp by done. apply list_elem_of_fmap in Hpp as (a & -> & Ha).
    apply list_elem_of_filter in Ha as [[Hne Hlt] Ha].
    assert (a ∈ l) as [i Hi]%list_elem_of_lookup by (rewrite Hp; set_solver).
    apply list_elem_of_lookup. exists i. rewrite lookup_take_lt by (by eapply Ho). by rewrite list_lookup_fmap, Hi.
  - destruct (st_budgetExceeded st); done.
  - rewrite Hx in Hv. done.
Qed.

(** A searcher that reports a valid history returns a legal order of some
    of the operations. *)
Lemma run_valid :
  r_Status (searcher_run s) = StatusValid -> exists m, partial s (r_Linearization (searcher_run s)) m.
Proof using Type.
  unfold searcher_run. destruct (search _ _ _ _ _) as [b st] eqn:E. case_if; [done|].
  destruct b; [|done]. intros _. cbn. eapply search_prefix in E; [exact E|apply partial_nil|apply marks_init].
Qed.
End Searcher.

(** ** All the subsets *)

Lemma included_sublist i mask l : included_from i mask l `sublist_of` l.
Proof.
  revert i. induction l as [|o l IH]; intros i; cbn; [done|].
  case_if; [by apply sublist_skip|by apply sublist_cons].
Qed.

Lemma testbit_middle i mask b low :
  0 <= low < 2 ^ Z.of_nat i -> Z.testbit (mask * 2 ^ Z.of_nat (S i) + (Z.b2z b * 2 ^ Z.of_nat i + low)) (Z.of_nat i) = b.
Proof.
  intros Hl. rewrite Z.testbit_odd, Z.shiftr_div_pow2 by lia.
  replace (mask * 2 ^ Z.of_nat (S i) + (Z.b2z b * 2 ^ Z.of_nat i + low))
    with ((mask * 2 + Z.b2z b) * 2 ^ Z.of_nat i + low) by (rewrite Nat2Z.inj_succ, Z.pow_succ_r; lia).
  rewrite Z.div_add_l, Z.div_small, Z.add_0_r by lia. rewrite (Z.mul_comm mask 2), Z.add_comm, Z.odd_add_mul_2. by destruct b.
Qed.

Lemma mask_exists l inc i :
  inc `sublist_of` l -> (i + length l <= 64)%nat ->
  exists mask, 0 <= mask < 2 ^ Z.of_nat (length l) /\
    forall low, 0 <= low < 2 ^ Z.of_nat i -> included_from i (mask * 2 ^ Z.of_nat i + low) l = inc.
Proof.
  intros Hs. revert i. induction Hs as [|o k l Hs IH|o k l Hs IH]; intros i Hi; cbn [length] in *.
  - exists 0. split; [lia|]. by intros.
  - destruct (IH (S i) ltac:(lia)) as (mask & Hm & Heq). exists (2 * mask + 1).
    rewrite Nat2Z.inj_succ, Z.pow_succ_r in * by lia. split; [lia|]. intros low Hl. cbn [included_from].
    rewrite (proj2 (Nat.ltb_lt i 64)) by lia. cbn [andb].
    pose proof (testbit_middle i mask true low Hl) as Ht. specialize (Heq (2 ^ Z.of_nat i + low)).
    rewrite Nat2Z.inj_succ, Z.pow_succ_r in * by lia. cbn [Z.b2z] in Ht.
    replace ((2 * mask + 1) * 2 ^ Z.of_nat i + low)
      with (mask * (2 * 2 ^ Z.of_nat i) + (2 ^ Z.of_nat i + low)) by lia.
    rewrite Z.mul_1_l in Ht. rewrite Ht. f_equal. apply Heq. lia.
  - destruct (IH (S i) ltac:(lia)) as (mask & Hm & Heq). exists (2 * mask).
    rewrite Nat2Z.inj_succ, Z.pow_succ_r in * by lia. split; [lia|]. intros low Hl. cbn [included_from].
    rewrite (proj2 (Nat.ltb_lt i 64)) by lia. cbn [andb].
    pose proof (testbit_middle i mask false low Hl) as Ht. specialize (Heq low).
    rewrite Nat2Z.inj_succ, Z.pow_succ_r in * by lia. cbn [Z.b2z] in Ht.
    replace (2 * mask * 2 ^ Z.of_nat i + low) with (mask * (2 * 2 ^ Z.of_nat i) + low) by lia.
    rewrite Z.mul_0_l, Z.add_0_l in Ht. rewrite Ht. apply Heq. lia.
Qed.

Lemma optionalSubsets_all k mask :
  (k <= maxOptionalWrites)%nat -> 0 <= mask < 2 ^ Z.of_nat k -> mask ∈ optionalSubsets k.
Proof.
  intros Hk Hm. unfold optionalSubsets. case_if.
  - apply Nat.eqb_eq in E as ->. cbn in Hm. assert (mask = 0) as -> by lia. set_solver.
  - rewrite (proj2 (Nat.ltb_ge _ _)) by done. apply list_elem_of_fmap. exists (Z.to_nat mask).
    split; [lia|]. apply elem_of_seq. split; [lia|]. rewrite Nat2Z.inj_lt, Nat2Z.inj_add, Nat2Z.inj_pow. lia.
Qed.

Lemma subset_mask l inc :
  inc `sublist_of` l -> (length l <= maxOptionalWrites)%nat ->
  exists mask, mask ∈ optionalSubsets (length l) /\ included_of mask l = inc.
Proof.
  intros Hs Hl. destruct (mask_exists l inc 0 Hs) as (mask & Hm & Heq); [unfold maxOptionalWrites in *; lia|].
  exists mask. split; [by apply optionalSubsets_all|]. specialize (Heq 0 ltac:(cbn; lia)).
  cbn in Heq. by rewrite Z.mul_1_r, Z.add_0_r in Heq.
Qed.

(** ** [Check] *)

Lemma check_loop_violation maxStates completed optional masks k :
  r_Status (check_loop maxStates completed optional masks k) = StatusViolation ->
  forall mask, mask ∈ masks -> exists budget,
    r_Status (searcher_run (newSearcher completed (included_of mask optional) budget)) = StatusViolation.
Proof.
  assert (forall masks best used, r_Status (check_loop maxStates completed optional masks (MkCheck best true used))
    <> StatusViolation) as Hinc.
  { clear. intros masks. induction masks as [|mask masks IH]; intros best used; cbn; [done|].
    case_if; [done|]. destruct (r_Status (searcher_run _)); [done|apply IH|apply IH]. }
  revert k. induction masks as [|mask masks IH]; intros k; cbn; [intros _ mask Hm; by apply not_elem_of_nil in Hm|].
  case_if; [done|]. destruct (r_Status (searcher_run _)) eqn:Er.
  - done.
  - intros Hv m [->|Hm]%elem_of_cons; [by eexists|]. by eapply IH.
  - intros Hv. by apply Hinc in Hv.
Qed.

Lemma check_loop_valid maxStates completed optional masks k :
  r_Status (k_best k) = StatusViolation ->
  r_Status (check_loop maxStates completed optional masks k) = StatusValid ->
  exists mask budget, let r := searcher_run (newSearcher completed (included_of mask optional) budget) in
    r_Status r = StatusValid /\
    r_Linearization r = r_Linearization (check_loop maxStates completed optional masks k).
Proof.
  revert k. induction masks as [|mask masks IH]; intros k Hk; cbn.
  - rewrite Hk. by destruct (k_inconclusive k).
  - case_if; [done|]. destruct (r_Status (searcher_run _)) eqn:Er.
    + intros _. by eexists _, _.
    + apply IH. cbn. by case_if.
    + by apply IH.
Qed.

Lemma validate_NoDup seen ops :
  validate_from seen ops = None -> NoDup (op_ID <$> ops) /\ forall op, op ∈ ops -> op_ID op ∉ seen.
Proof.
  revert seen. induction ops as [|op ops IH]; intros seen; cbn; [split; [apply NoDup_nil_2|set_solver]|].
  case_bool_decide as Hs; [done|]. destruct (validate_op op); [done|]. intros [Hn Hd]%IH. split.
  - apply NoDup_cons. split; [|done]. intros (o & E & Ho)%list_elem_of_fmap. apply (Hd o Ho). rewrite <- E. set_solver.
  - intros o [->|Ho]%elem_of_cons; [done|]. specialize (Hd o Ho). set_solver.
Qed.

(** The ids of the completed operations and of any included ones differ. *)
Lemma all_NoDup h inc :
  Validate h = None -> inc `sublist_of` optional_of h -> NoDup (op_ID <$> (Completed h ++ inc)).
Proof.
  intros [Hn _]%validate_NoDup Hs.
  assert (forall op, op ∈ inc -> op ∈ h /\ op_Outcome op = OutcomeIncomplete) as Hinc.
  { intros op Hop. eapply sublist_subseteq in Hop; [|exact Hs]. apply list_elem_of_filter in Hop as [[? _] ?]. done. }
  apply NoDup_fmap_2_strong.
  - intros x y Hx Hy E. assert (x ∈ h) as Hx' by (apply elem_of_app in Hx as [[_ ?]%list_elem_of_filter|?%Hinc]; naive_solver).
    assert (y ∈ h) as Hy' by (apply elem_of_app in Hy as [[_ ?]%list_elem_of_filter|?%Hinc]; naive_solver).
    apply list_elem_of_lookup in Hx' as [i Hi]. apply list_elem_of_lookup in Hy' as [j Hj].
    assert (i = j) as ->; [|congruence].
    eapply NoDup_lookup; [exact Hn|by rewrite list_lookup_fmap, Hi|by rewrite list_lookup_fmap, Hj, E].
  - apply NoDup_fmap_1 in Hn. apply NoDup_app. split; [by apply NoDup_filter|]. split.
    + intros op [Ho _]%list_elem_of_filter [_ Hi]%Hinc. congruence.
    + eapply sublist_NoDup; [|exact Hs]. by apply NoDup_filter.
Qed.

(** ** Theorems *)

(** C30. No false alarms: on a valid history with at most 12 writes whose
    outcome is unknown, a verdict of [StatusViolation] means the history is
    not linearizable: no choice of those writes and no order of the
    operations that respects real time explains what was observed. *)
Theorem Check_violation_sound h maxStates :
  Validate h = None -> (length (optional_of h) <= maxOptionalWrites)%nat ->
  r_Status (Check h maxStates) = StatusViolation -> ~ linearizable h.
Proof.
  intros Hv Hk Hc (inc & l & Hs & Hl). destruct (subset_mask _ _ Hs Hk) as (mask & Hin & Hmask).
  destruct (check_loop_violation _ _ _ _ _ Hc mask Hin) as [budget Hr]. rewrite Hmask in Hr.
  eapply run_violation; [|exact Hr|by exists l]. by apply all_NoDup.
Qed.

(** A legal order of ids that has all the completed operations linearizes
    the history. *)
Lemma partial_linearizable h inc budget L m :
  Validate h = None -> inc `sublist_of` optional_of h ->
  partial (newSearcher (Completed h) inc budget) L m ->
  (forall op, op ∈ Completed h -> op_ID op ∈ L) -> linearizable h.
Proof.
  intros Hv Hs [Hn Hi Hr _ Ho] Hall. pose proof (all_NoDup _ _ Hv Hs) as Hnd.
  set (s := newSearcher (Completed h) inc budget) in *. set (l := op_at s <$> L).
  assert (op_ID <$> l = L) as Hback by (by apply ids_ops).
  assert (forall op, op ∈ Completed h ++ inc -> op_at s (op_ID op) = op) as Hat by (intros; by apply op_at_id).
  assert (forall op, op ∈ l <-> op ∈ Completed h ++ inc /\ op_ID op ∈ L) as Hl.
  { intros op. unfold l. rewrite list_elem_of_fmap. split.
    - intros (id & -> & Hid). pose proof (Hi _ Hid) as Hid'. cbn in Hid'.
      apply list_elem_of_fmap in Hid' as (o & -> & Ho'). by rewrite Hat.
    - intros [Hop HL]. exists (op_ID op). by rewrite Hat. }
  exists (filter (fun op => op_ID op ∈ L) inc), l. split; [by etrans; [apply sublist_filter|]|].
  assert (NoDup (Completed h ++ inc)) as Hnda by (by apply NoDup_fmap_1 in Hnd). split; [|split].
  - apply NoDup_Permutation.
    + rewrite <- Hback in Hn. by apply NoDup_fmap_1 in Hn.
    + apply NoDup_app in Hnda as (H1 & H2 & H3). apply NoDup_app. split; [done|]. split; [|by apply NoDup_filter].
      intros op Hop [_ Hx]%list_elem_of_filter. by eapply H2.
    + intros op. rewrite Hl, !elem_of_app, list_elem_of_filter. naive_solver.
  - exact Hr.
  - intros i j a b Ha Hb Hreq Hne Hlt.
    assert (L !! i = Some (op_ID a)) as Hia by (rewrite <- Hback, list_lookup_fmap, Ha; done).
    assert (L !! j = Some (op_ID b)) as Hjb by (rewrite <- Hback, list_lookup_fmap, Hb; done).
    assert (b ∈ Completed h ++ inc) as Hball by (eapply Hl, list_elem_of_lookup_2, Hb).
    destruct (Ho j (op_ID b) (op_ID a) Hjb) as [?%not_elem_of_nil|Hin]; [|done|].
    + unfold s. rewrite s_preds_of by done. apply list_elem_of_fmap. exists a. split; [done|].
      by apply list_elem_of_filter.
    + apply list_elem_of_lookup in Hin as [i' Hi']. apply lookup_take_Some in Hi' as [Hi' Hij].
      by rewrite (NoDup_lookup _ _ _ _ Hn Hia Hi').
Qed.

(** C31. When the order that comes with [StatusValid] has every completed
    operation in it, the history is linearizable. *)
Theorem Check_valid_sound h maxStates :
  Validate h = None -> r_Status (Check h maxStates) = StatusValid ->
  (forall op, op ∈ Completed h -> op_ID op ∈ r_Linearization (Check h maxStates)) -> linearizable h.
Proof.
  intros Hv Hc Hall. unfold Check in Hc, Hall.
  eapply check_loop_valid in Hc as (mask & budget & Hr & HL); [|done]. rewrite <- HL in Hall.
  destruct (run_valid _ _ _ Hr) as [m Hp]. eapply partial_linearizable; [done| |exact Hp|exact Hall].
  apply included_sublist.
Qed.

(** ** A history that is not linearizable and passes *)

Definition on_x (id : Z) (k : OpKind) (v : bytes) (invoke complete : Z) (found : bool) (result : bytes) : Operation :=
  MkOp id [] 0 k [] [x78] v invoke complete OutcomeOK found result None.

(** A put and a delete of the same key overlap; afterwards one read sees the
    value and a concurrent one does not. *)
Definition torn : History :=
  [on_x 1 OpPut [x31] 1 4 false []; on_x 2 OpDelete [] 2 3 false [];
   on_x 3 OpGet [] 5 8 true [x31]; on_x 4 OpGet [] 6 7 false []].

(** [respects] and [replays], decided. *)
Fixpoint in_order (required l : list Operation) : bool :=
  match l with
  | [] => true
  | b :: l => forallb (fun a => negb (bool_decide (a ∈ required /\ op_ID a <> op_ID b /\ op_Complete a < op_Invoke b))) l
              && in_order required l
  end.

Lemma respects_in_order required l : respects required l -> in_order required l = true.
Proof.
  induction l as [|b l IH]; intros Ho; cbn; [done|]. apply andb_true_iff. split.
  - apply forallb_forall. intros a [i Hi]%list_elem_of_In%list_elem_of_lookup.
    apply negb_true_iff, bool_decide_eq_false. intros (Ha & Hne & Hlt).
    pose proof (Ho (S i) 0%nat a b Hi eq_refl Ha Hne Hlt). lia.
  - apply IH. intros i j x y Hx Hy Hr Hne Hlt. pose proof (Ho (S i) (S j) x y Hx Hy Hr Hne Hlt). lia.
Qed.

#[export] Instance replays_dec m l : Decision (replays m l).
Proof.
  revert m. induction l as [|op l IH]; intros m; cbn; [apply _|].
  destruct (model_apply m op) as [m' [found value]]. apply and_dec; [apply _|apply IH].
Defined.

Lemma torn_not_linearizable : ~ linearizable torn.
Proof.
  intros (inc & l & Hs & Hp & Hr & Ho). change (optional_of torn) with (@nil Operation) in Hs.
  apply sublist_nil_r in Hs as ->. rewrite app_nil_r in Hp. change (Completed torn) with torn in Hp, Ho.
  assert (Forall (fun l => ~ (replays ∅ l /\ in_order torn l = true)) (permutations torn)) as Hall.
  { apply (bool_decide_unpack _). vm_compute. exact I. }
  eapply Forall_forall in Hall; [|apply permutations_Permutation; symmetry; exact Hp].
  apply Hall. split; [done|by apply respects_in_order].
Qed.

(** The checker passes histories that are not linearizable: the search
    marks an operation undone by storing [false] under its key, but takes the
    number of keys for the number of operations linearized, so after enough
    backtracking it stops early and reports a partial order as a
    linearization. *)
Theorem Check_passes_violation :
  Validate torn = None /\ ~ linearizable torn /\
  r_Status (Check torn 0) = StatusValid /\ r_Linearization (Check torn 0) = [2; 1; 3].
Proof. split; [done|]. split; [exact torn_not_linearizable|]. split; vm_compute; reflexivity. Qed.

(** ** Minimization: reducer.go *)

(** One scan from index [i]; each step either moves on or drops an
    operation. *)
Fixpoint minimize_scan (fuel : nat) (maxStates : Z) (h : History) (r : CheckResult) (i : nat) (removed : bool) :
    History * CheckResult * bool :=
  match fuel with
  | O => (h, r, removed)
  | S fuel =>
      if (i <? length h)%nat then
        let candidate := delete i h in
        match Validate candidate with
        | Some _ => minimize_scan fuel maxStates h r (S i) removed
        | None =>
            let r' := Check candidate maxStates in
            if bool_decide (r_Status r' = StatusViolation)
            then minimize_scan fuel maxStates candidate r' i true
            else minimize_scan fuel maxStates h r (S i) removed
        end
      else (h, r, removed)
  end.

Fixpoint minimize_passes (passes : nat) (maxStates : Z) (h : History) (r : CheckResult) : History * CheckResult :=
  match passes with
  | O => (h, r)
  | S passes =>
      let '(h, r, removed) := minimize_scan (length h) maxStates h r 0 false in
      if removed then minimize_passes passes maxStates h r else (h, r)
  end.

Definition Minimize (h : History) (maxStates maxPasses : Z) : History * CheckResult :=
  let r := Check h maxStates in
  if negb (bool_decide (r_Status r = StatusViolation)) then (h, r)
  else minimize_passes (Z.to_nat (if maxPasses <=? 0 then 1 else maxPasses)) maxStates h r.

(** The scan stops at the end of the list, not for lack of fuel. *)
Lemma minimize_scan_spec fuel maxStates h r i removed :
  Validate h = None -> r = Check h maxStates -> r_Status r = StatusViolation -> (length h <= i + fuel)%nat ->
  let '(h', r', removed') := minimize_scan fuel maxStates h r i removed in
  Validate h' = None /\ r' = Check h' maxStates /\ r_Status r' = StatusViolation /\ h' `sublist_of` h /\
  (removed' = false -> h' = h /\ removed = false /\
     forall j, (i <= j < length h)%nat -> Validate (delete j h) = None ->
       r_Status (Check (delete j h) maxStates) <> StatusViolation).
Proof.
  revert h r i removed. induction fuel as [|fuel IH]; intros h r i removed Hv Hr Hs Hf; cbn [minimize_scan].
  { split_and!; try done. intros ->. split_and!; try done. intros j Hj. lia. }
  case_if; apply Nat.ltb_lt in E || apply Nat.ltb_ge in E.
  2: { split_and!; try done. intros ->. split_and!; try done. intros j Hj. lia. }
  assert (forall b, let '(h', r', removed') := minimize_scan fuel maxStates h r (S i) b in
    Validate h' = None /\ r' = Check h' maxStates /\ r_Status r' = StatusViolation /\ h' `sublist_of` h /\
    (removed' = false -> h' = h /\ b = false /\ forall j, (S i <= j < length h)%nat -> Validate (delete j h) = None ->
       r_Status (Check (delete j h) maxStates) <> StatusViolation)) as Hnext.
  { intros b. apply IH; try done. lia. }
  specialize (Hnext removed).
  assert ((Validate (delete i h) = None -> r_Status (Check (delete i h) maxStates) <> StatusViolation) ->
    (forall j, (S i <= j < length h)%nat -> Validate (delete j h) = None ->
       r_Status (Check (delete j h) maxStates) <> StatusViolation) ->
    forall j, (i <= j < length h)%nat -> Validate (delete j h) = None ->
       r_Status (Check (delete j h) maxStates) <> StatusViolation) as Hstep.
  { intros Hi Hj j Hr' Hvj. destruct (decide (j = i)) as [->|]; [by apply Hi|]. apply Hj; [lia|done]. }
  destruct (Validate (delete i h)) eqn:Ev; [|case_bool_decide as Ec].
  - destruct (minimize_scan _ _ _ _ _ _) as [[h' r'] rem']. destruct Hnext as (? & ? & ? & ? & Hn).
    split_and!; try done. intros Hrem. destruct (Hn Hrem) as (? & ? & ?). split_and!; try done.
    apply Hstep; [congruence|done].
  - specialize (IH (delete i h) (Check (delete i h) maxStates) i true Ev eq_refl Ec).
    assert (length (delete i h) = (length h - 1)%nat) as Hlen by (apply length_delete; by apply lookup_lt_is_Some).
    destruct (minimize_scan _ _ _ _ _ _) as [[h' r'] rem']. destruct IH as (? & ? & ? & ? & Hn); [lia|].
    split_and!; try done; [by etrans; [|apply sublist_delete]|]. intros Hrem. by destruct (Hn Hrem) as (_ & ? & _).
  - destruct (minimize_scan _ _ _ _ _ _) as [[h' r'] rem']. destruct Hnext as (? & ? & ? & ? & Hn).
    split_and!; try done. intros Hrem. destruct (Hn Hrem) as (? & ? & ?). split_and!; try done.
    by apply Hstep.
Qed.

Lemma minimize_passes_spec passes maxStates h r :
  Validate h = None -> r = Check h maxStates -> r_Status r = StatusViolation ->
  let '(h', r') := minimize_passes passes maxStates h r in
  Validate h' = None /\ r' = Check h' maxStates /\ r_Status r' = StatusViolation /\ h' `sublist_of` h.
Proof.
  revert h r. induction passes as [|passes IH]; intros h r Hv Hr Hs; cbn; [done|].
  pose proof (minimize_scan_spec (length h) maxStates h r 0 false Hv Hr Hs ltac:(lia)) as H.
  destruct (minimize_scan _ _ _ _ _ _) as [[h1 r1] rem]. destruct H as (? & ? & ? & Hsub & _).
  destruct rem; [|done]. specialize (IH h1 r1 ltac:(done) ltac:(done) ltac:(done)).
  destruct (minimize_passes _ _ _ _). destruct IH as (? & ? & ? & ?). split_and!; try done. by etrans.
Qed.

(** C38. Minimization keeps the evidence: what [Minimize] returns for a
    valid history is a subsequence of it, valid itself, with [Check]'s own
    result, and a violation exactly when the history was one. *)
Theorem Minimize_sound h maxStates maxPasses :
  Validate h = None ->
  let '(h', r) := Minimize h maxStates maxPasses in
  h' `sublist_of` h /\ Validate h' = None /\ r = Check h' maxStates /\
  (r_Status r = StatusViolation <-> r_Status (Check h maxStates) = StatusViolation).
Proof.
  intros Hv. unfold Minimize. case_bool_decide as Ec; cbn [negb]; [|done].
  pose proof (minimize_passes_spec (Z.to_nat (if maxPasses <=? 0 then 1 else maxPasses)) maxStates h
    (Check h maxStates) Hv eq_refl Ec) as H.
  destruct (minimize_passes _ _ _ _) as [h' r]. by destruct H as (? & ? & ? & ?).
Qed.

(** ** Witnesses *)

(** A read that misses a completed write. *)
Definition stale : History := [on_x 1 OpPut [x31] 1 2 false []; on_x 2 OpGet [] 3 4 false []].
Definition fine : History := [on_x 1 OpPut [x31] 1 3 false []; on_x 2 OpGet [] 2 4 true [x31]].

Example Check_violation_sound_witness : ~ linearizable stale.
Proof. apply (Check_violation_sound stale 0); vm_compute; [reflexivity|lia|reflexivity]. Defined.

Example Check_valid_sound_witness : linearizable fine.
Proof.
  apply (Check_valid_sound fine 0); [vm_compute; reflexivity..|]. intros op Hop.
  change (Completed fine) with fine in Hop. unfold fine in Hop.
  apply elem_of_cons in Hop as [->|Hop]; [|apply elem_of_cons in Hop as [->|Hop]]; vm_compute.
  - left.
  - right. left.
  - inversion Hop.
Defined.

Example Minimize_sound_witness :
  let '(h', r) := Minimize (stale ++ [on_x 3 OpPut [x32] 5 6 false []]) 0 3 in
  h' `sublist_of` stale ++ [on_x 3 OpPut [x32] 5 6 false []] /\ h' = stale.
Proof.
  pose proof (Minimize_sound (stale ++ [on_x 3 OpPut [x32] 5 6 false []]) 0 3 ltac:(vm_compute; reflexivity)) as H.
  assert ((Minimize (stale ++ [on_x 3 OpPut [x32] 5 6 false []]) 0 3).1 = stale) as E by (vm_compute; reflexivity).
  destruct (Minimize _ 0 3) as [h' r]. exact (conj (proj1 H) E).
Defined.
