(* ===== verification/Report.v ===== *)
(** * The checker's diagnosis

    correctness/result.go: what a reported violation says, and the text that
    says it. The search keeps the deepest prefix it could build and the
    operation that did not fit after it; here they are shown to be genuine. *)

From S2P Require Import Prelude Bytes Http Format Checker.
From Stdlib Require Import Strings.Byte.
From Stdlib Require String.
From stdpp Require Import base tactics list numbers gmap sorting.
From Stdlib Require Import ZArith Lia.
Import String.StringSyntax.
#[local] Open Scope Z_scope.

(** ** The text: result.go *)

Definition Status_String (s : Status) : bytes :=
  match s with
  | StatusValid => lit "VALID"
  | StatusViolation => lit "VIOLATION"
  | StatusInconclusive => lit "INCONCLUSIVE"
  end.

(** [%s] of an [OpKind]. *)
Definition kind_text (k : OpKind) : bytes :=
  match k with
  | OpGet => lit "Get"
  | OpPut => lit "Put"
  | OpDelete => lit "Delete"
  | OpKindOther n => lit "OpKind(" ++ itoa n ++ lit ")"
  end.

(** [%v] of a [bool]. *)
Definition bool_text (b : bool) : bytes := if b then lit "true" else lit "false".

(** The inner loop of [sortedByInvoke] at [j]: swap while the one before was
    invoked later. *)
Fixpoint sift (out : list Operation) (j : nat) : list Operation :=
  match j with
  | O => out
  | S k =>
      match out !! k, out !! S k with
      | Some a, Some b => if op_Invoke b <? op_Invoke a then sift (<[k := b]> (<[S k := a]> out)) k else out
      | _, _ => out
      end
  end.

Definition sortedByInvoke (ops : list Operation) : list Operation :=
  fold_left sift (seq 1 (length ops - 1)) ops.

Section Text.
(** [%q], of strconv. *)
Context (quote : bytes -> bytes).

Definition describeOp (op : Operation) : bytes :=
  let outcome :=
    match op_Outcome op with
    | OutcomeOK =>
        if bool_decide (op_Kind op = OpGet) then
          if op_Found op then lit "OK found=" ++ quote (op_Result op) else lit "OK not-found"
        else lit "OK"
    | OutcomeFailed => lit "FAILED err=" ++ default (lit "<nil>") (op_Err op)
    | OutcomeIncomplete => lit "INCOMPLETE"
    | OutcomeOther _ => []
    end in
  let val := if bool_decide (op_Kind op = OpPut) then lit " value=" ++ quote (op_Value op) else [] in
  let completeStr := if bool_decide (op_Outcome op = OutcomeIncomplete) then lit "?" else itoa (op_Complete op) in
  lit "id=" ++ itoa (op_ID op) ++ lit " client=" ++ op_ClientID op ++ lit " request=" ++ itoa (op_RequestID op) ++
  lit " node=" ++ op_Node op ++ lit " " ++ kind_text (op_Kind op) ++ lit "(" ++ quote (op_Key op) ++ lit ")" ++ val ++
  lit " invoke=" ++ itoa (op_Invoke op) ++ lit " complete=" ++ completeStr ++ lit " -> " ++ outcome.

Definition nl : bytes := [x0a].

Definition op_line (op : Operation) : bytes := lit "  " ++ describeOp op ++ nl.

(** Why the search is stuck. *)
Definition reason (v : Violation) : bytes :=
  let op := v_FailingOp v in
  if bool_decide (op_Kind op = OpGet) then
    lit "  reference model at this point holds found=" ++ bool_text (v_ExpectedFound v) ++ lit " value=" ++
    quote (v_ExpectedValue v) ++ lit " for key " ++ quote (op_Key op) ++ lit "," ++ nl ++
    lit "  but the operation observed found=" ++ bool_text (op_Found op) ++ lit " value=" ++ quote (op_Result op) ++ nl
  else
    lit "  no real-time-consistent placement of this write lets every other operation's observed result hold" ++ nl.

(** [None] is the nil pointer the code would follow. *)
Definition Report (r : CheckResult) (h : History) : option bytes :=
  let head :=
    lit "LINEARIZABILITY CHECK: " ++ Status_String (r_Status r) ++ nl ++
    lit "operation count: " ++ itoa (zlen h) ++ lit " (completed: " ++ itoa (zlen (Completed h)) ++ lit ")" ++ nl ++
    lit "states explored: " ++ itoa (r_StatesExplored r) ++ lit " (budget: " ++ itoa (r_Budget r) ++ lit ")" ++ nl ++ nl ++
    lit "observed history:" ++ nl ++ concat (op_line <$> sortedByInvoke h) in
  match r_Status r with
  | StatusValid =>
      Some (head ++ nl ++ lit "candidate linearization (operation IDs, in order):" ++ nl ++ lit "  " ++
            brackets (itoa <$> r_Linearization r) ++ nl)
  | StatusViolation =>
      match r_Violation r with
      | None => None
      | Some v =>
          Some (head ++ nl ++ lit "LINEARIZABILITY VIOLATION" ++ nl ++
                lit "partial linearization reached (operation IDs, in order):" ++ nl ++ lit "  " ++
                brackets (itoa <$> v_Linearization v) ++ nl ++ nl ++ lit "no legal placement found for:" ++ nl ++
                op_line (v_FailingOp v) ++ nl ++ lit "reason:" ++ nl ++ reason v)
      end
  | StatusInconclusive =>
      Some (head ++ nl ++ lit "search budget of " ++ itoa (r_Budget r) ++
            lit " states was exhausted before a verdict was reached." ++ nl ++
            lit "this is NOT a linearizability violation -- increase CheckOptions.MaxStates or shrink the history to get a definite verdict." ++ nl)
  end.
End Text.

(** ** [sortedByInvoke] is a stable sort *)

Definition by_invoke (a b : Operation) : Prop := op_Invoke a <= op_Invoke b.

(** Sifting takes the element after a sorted prefix in front of those invoked
    later. *)
Lemma sift_spec p x rest : StronglySorted by_invoke p -> exists p1 p2, p = p1 ++ p2 /\
  sift (p ++ x :: rest) (length p) = p1 ++ x :: p2 ++ rest /\
  Forall (fun y => op_Invoke y <= op_Invoke x) p1 /\ Forall (fun y => op_Invoke x < op_Invoke y) p2.
Proof.
  revert rest. induction p as [|a p IH] using rev_ind; intros rest Hs.
  { exists [], []. split_and!; [done|done|constructor..]. }
  rewrite length_app, Nat.add_1_r. cbn [sift]. rewrite <- app_assoc. cbn [app].
  rewrite list_lookup_middle by done.
  replace (p ++ a :: x :: rest) with ((p ++ [a]) ++ x :: rest) by (by rewrite <- app_assoc).
  rewrite (list_lookup_middle (p ++ [a])) by (rewrite length_app; cbn; lia).
  apply StronglySorted_app in Hs as (Hpa & Hs & _). destruct (op_Invoke x <? op_Invoke a) eqn:E; zbool.
  - destruct (IH (a :: rest) Hs) as (p1 & p2 & -> & Heq & H1 & H2). exists p1, (p2 ++ [a]).
    split; [by rewrite app_assoc|]. split; [|split; [done|apply Forall_app; split; [done|by constructor]]].
    replace (<[length (p1 ++ p2):=x]> (<[S (length (p1 ++ p2)):=a]> (((p1 ++ p2) ++ [a]) ++ x :: rest))) with ((p1 ++ p2) ++ x :: a :: rest);
      [by rewrite Heq, <- app_assoc|].
    rewrite <- (app_assoc _ [a]). cbn [app].
    rewrite (insert_app_r_alt _ _ (S _)) by lia. replace (S (length (p1 ++ p2)) - length (p1 ++ p2))%nat with 1%nat by lia.
    rewrite insert_app_r_alt by lia. by rewrite Nat.sub_diag.
  - exists (p ++ [a]), []. rewrite app_nil_r. split_and!; [done|done| |constructor]. apply Forall_app. split; [|by constructor].
    apply Forall_forall. intros y Hy. assert (by_invoke y a) as Hya by (apply Hpa; [done|by left]). unfold by_invoke in Hya. lia.
Qed.

Definition at_time (t : Z) (l : list Operation) : list Operation := filter (fun op => op_Invoke op = t) l.

Lemma at_time_none t l : Forall (fun y => op_Invoke y <> t) l -> at_time t l = [].
Proof. intros Hl. unfold at_time. induction Hl as [|y l Hy _ IH]; [done|]. by rewrite filter_cons_False. Qed.

Lemma sift_step p x rest : StronglySorted by_invoke p ->
  exists p', sift (p ++ x :: rest) (length p) = p' ++ rest /\ StronglySorted by_invoke p' /\ p' ≡ₚ p ++ [x] /\
    length p' = S (length p) /\ forall t, at_time t p' = at_time t (p ++ [x]).
Proof.
  intros Hs. destruct (sift_spec p x rest Hs) as (p1 & p2 & -> & Heq & H1 & H2). exists (p1 ++ x :: p2).
  apply StronglySorted_app in Hs as (H12 & Hs1 & Hs2). rewrite Forall_forall in H1. split_and!.
  - by rewrite Heq, <- app_assoc.
  - apply StronglySorted_app. split_and!; [|done|constructor; [done|]].
    + intros y z Hy [->|Hz]%elem_of_cons; [by apply H1|by apply H12].
    + eapply Forall_impl; [exact H2|]. unfold by_invoke. cbn. lia.
  - rewrite <- app_assoc. f_equiv. apply Permutation_cons_append.
  - rewrite !length_app. cbn. lia.
  - intros t. unfold at_time. rewrite <- app_assoc, !filter_app. f_equal. destruct (decide (op_Invoke x = t)) as [<-|Hne].
    + rewrite !filter_cons_True by done. fold (at_time (op_Invoke x) p2). rewrite at_time_none; [done|].
      eapply Forall_impl; [exact H2|]. cbn. lia.
    + rewrite !filter_cons_False by done. by rewrite filter_nil, app_nil_r.
Qed.

Lemma sort_run rest : forall p, StronglySorted by_invoke p ->
  let out := fold_left sift (seq (length p) (length rest)) (p ++ rest) in
  StronglySorted by_invoke out /\ out ≡ₚ p ++ rest /\ forall t, at_time t out = at_time t (p ++ rest).
Proof.
  induction rest as [|x rest IH]; intros p Hs; cbn [length seq fold_left]; [cbn; by rewrite app_nil_r|].
  destruct (sift_step p x rest Hs) as (p' & -> & Hs' & Hp & Hl & Ht). rewrite <- Hl.
  destruct (IH p' Hs') as (H1 & H2 & H3). split_and!; [done| |].
  - rewrite H2, Hp. by rewrite <- app_assoc.
  - intros t. rewrite H3. specialize (Ht t). unfold at_time in *. by rewrite filter_app, Ht, <- filter_app, <- app_assoc.
Qed.

Lemma sortedByInvoke_spec ops : StronglySorted by_invoke (sortedByInvoke ops) /\ sortedByInvoke ops ≡ₚ ops /\
  forall t, at_time t (sortedByInvoke ops) = at_time t ops.
Proof.
  destruct ops as [|o ops]; [split_and!; [constructor|done|done]|]. unfold sortedByInvoke. cbn [length].
  replace (S (length ops) - 1)%nat with (length ops) by lia. apply (sort_run ops [o]). constructor; constructor.
Qed.

(** ** The diagnosis is genuine *)

Section Blame.
Context (s : searcher).

(** After the legal prefix [lin], the operation is next in real time and
    observed something else than the model holds. *)
Definition blames (lin : list Z) (failed : Z) (found : bool) (value : bytes) : Prop :=
  exists m, partial s lin m /\ failed ∈ s_ids s /\ failed ∉ lin /\
    (forall p, p ∈ default [] (s_preds s !! failed) -> p ∈ lin) /\
    (model_apply m (op_at s failed)).2 = (found, value) /\ mismatch (op_at s failed) found value = true.

Definition blamed (st : search_state) : Prop :=
  blames (st_bestPrefix st) (st_bestFailedID st) (st_bestFoundAt st) (st_bestValueAt st).

(** Nothing is recorded yet, or a genuine failure is. *)
Definition sound (st : search_state) : Prop := st_bestDepth st = 0 \/ blamed st.

Lemma record_blamed st lin id found value :
  sound st -> blames lin id found value -> blamed (recordFailure st lin id found value).
Proof using Type.
  intros Hs Hb. unfold recordFailure. destruct (_ <? _) eqn:E; [|done]. zbool. destruct Hs as [Hs|Hs]; [|done].
  pose proof (zlen_nonneg lin). lia.
Qed.

(** What is recorded stays genuine, and stays recorded. *)
Definition keeps (st st' : search_state) : Prop := sound st' /\ (blamed st -> blamed st').

Lemma keeps_refl st : sound st -> keeps st st.
Proof using Type. by split. Qed.

Lemma keeps_trans st1 st2 st3 : keeps st1 st2 -> keeps st2 st3 -> keeps st1 st3.
Proof using Type. intros [_ H1] [H2 H3]. split; auto. Qed.

Lemma keeps_blamed st st' : blamed st' -> keeps st st'.
Proof using Type. intros Hb. split; [by right|done]. Qed.

(** A candidate that is ready and does not fit is to blame. *)
Lemma candidate_blamed lin m st id cand found value :
  partial s lin m -> marks s lin st -> id ∈ s_ids s -> is_done (st_done st) id = false -> ready s (st_done st) id = true ->
  model_apply m (op_at s id) = (cand, (found, value)) -> mismatch (op_at s id) found value = true ->
  blames lin id found value.
Proof using Type.
  intros Hp [Hd _] Hid Hnew Hready Ha Hmm. exists m. split_and!; try done.
  - intros Hin. apply Hd in Hin. congruence.
  - intros p Hpp. unfold ready in Hready. rewrite Hnew in Hready. apply Hd.
    eapply forallb_forall in Hready; [exact Hready|]. by apply list_elem_of_In.
  - by rewrite Ha.
Qed.

Definition call := list Z -> kv -> search_state -> bool * search_state.
Definition frames (rec : call) : Prop := forall lin m st st', marks s lin st -> rec lin m st = (false, st') -> marks s lin st'.
Definition honest (rec : call) : Prop := forall lin m st b st',
  partial s lin m -> marks s lin st -> sound st -> rec lin m st = (b, st') -> keeps st st'.

Lemma loop_honest rec lin m R st b st' :
  frames rec -> honest rec -> R ⊆ s_ids s -> partial s lin m -> marks s lin st -> sound st ->
  search_loop rec s lin m R st = (b, st') -> keeps st st'.
Proof using Type.
  intros Hf Hh HR Hp. revert st. induction R as [|id R IH]; intros st Hm Hs; cbn [search_loop].
  { intros [= <- <-]. by apply keeps_refl. }
  assert (R ⊆ s_ids s) as HR' by set_solver. specialize (IH HR').
  destruct (is_done (st_done st) id) eqn:Ed; [by apply IH|].
  destruct (ready s (st_done st) id) eqn:Er; cbn [negb]; [|by apply IH].
  case_if; [intros [= <- <-]; exact (keeps_refl st Hs)|].
  destruct (model_apply m (op_at s id)) as [cand [found value]] eqn:Ea.
  assert (id ∈ s_ids s) as Hid by set_solver.
  assert (marks s lin (set_states st (st_states st + 1) (st_budgetExceeded st))) as Hm0 by (by eapply marks_same).
  destruct (mismatch _ _ _) eqn:Emm.
  { intros Hl. assert (blames lin id found value) as Hb by (by eapply candidate_blamed).
    pose proof (record_blamed (set_states st (st_states st + 1) (st_budgetExceeded st)) _ _ _ _ Hs Hb) as Hr.
    eapply keeps_trans; [by apply keeps_blamed|]. eapply IH; [|by right|exact Hl].
    eapply marks_same; [|exact Hm0]. by rewrite recordFailure_done. }
  pose proof (marks_push s lin _ id Hid Hm0) as Hm1.
  assert (partial s (lin ++ [id]) cand) as Hp1 by (by eapply partial_push).
  destruct (rec _ _ _) as [b2 st2] eqn:Ere. pose proof (Hh _ _ _ _ _ Hp1 Hm1 Hs Ere) as Hk.
  destruct b2; [intros [= <- <-]; exact Hk|]. case_if; [intros [= <- <-]; exact Hk|]. intros Hl.
  assert (keeps (set_done st2 (<[id:=false]> (st_done st2))) st') as Hk2; [|exact (keeps_trans st st2 st' Hk Hk2)].
  apply IH; [|exact (proj1 Hk)|done]. apply marks_pop; [done|rewrite <- (proj1 Hm); congruence|]. by eapply Hf.
Qed.

Lemma search_honest fuel : honest (search fuel s).
Proof using Type.
  induction fuel as [|fuel IH]; intros lin m st b st' Hp Hm Hs; cbn [search];
    (case_if; [intros [= <- <-]; exact (keeps_refl st Hs)|]); [intros [= <- <-]; exact (keeps_refl st Hs)|].
  eapply loop_honest; [exact (search_frame s fuel)|exact IH|done|done|done|done].
Qed.

(** A call that gives up within the budget has someone to blame. *)
Definition blames_at (n : nat) (rec : call) : Prop := forall lin m st st',
  length lin = n -> partial s lin m -> marks s lin st -> sound st -> rec lin m st = (false, st') ->
  st_budgetExceeded st' = false -> blamed st'.

Lemma loop_blames rec lin m R st st' id0 :
  frames rec -> honest rec -> blames_at (S (length lin)) rec -> R ⊆ s_ids s -> partial s lin m -> marks s lin st -> sound st ->
  id0 ∈ R -> id0 ∉ lin -> (forall p, p ∈ default [] (s_preds s !! id0) -> p ∈ lin) ->
  search_loop rec s lin m R st = (false, st') -> st_budgetExceeded st' = false -> blamed st'.
Proof using Type.
  intros Hf Hh Hbl HR Hp Hm Hs Hin Hnew Hpreds. induction R as [|id R IH]; [by apply not_elem_of_nil in Hin|].
  cbn [search_loop]. assert (R ⊆ s_ids s) as HR' by set_solver. specialize (IH HR').
  assert (id = id0 -> is_done (st_done st) id = false /\ ready s (st_done st) id = true) as Hready.
  { intros ->. assert (is_done (st_done st) id0 = false) as E by (apply not_true_iff_false; by rewrite (proj1 Hm)).
    split; [done|]. unfold ready. rewrite E. apply forallb_forall. intros p Hpp%list_elem_of_In. by apply Hm, Hpreds. }
  destruct (is_done (st_done st) id) eqn:Ed; [apply IH; set_solver|].
  destruct (ready s (st_done st) id) eqn:Er; cbn [negb]; [|apply IH; set_solver]. clear Hready IH.
  case_if; [by intros [= <-]|]. destruct (model_apply m (op_at s id)) as [cand [found value]] eqn:Ea.
  assert (id ∈ s_ids s) as Hid by set_solver.
  assert (marks s lin (set_states st (st_states st + 1) (st_budgetExceeded st))) as Hm0 by (by eapply marks_same).
  destruct (mismatch _ _ _) eqn:Emm.
  { intros Hl _. assert (blames lin id found value) as Hb by (by eapply candidate_blamed).
    pose proof (record_blamed (set_states st (st_states st + 1) (st_budgetExceeded st)) _ _ _ _ Hs Hb) as Hr.
    eapply loop_honest in Hl; [by apply Hl|done..| |by right]. eapply marks_same; [|exact Hm0]. by rewrite recordFailure_done. }
  pose proof (marks_push s lin _ id Hid Hm0) as Hm1.
  assert (partial s (lin ++ [id]) cand) as Hp1 by (by eapply partial_push).
  destruct (rec _ _ _) as [[] st2] eqn:Ere; [done|]. destruct (st_budgetExceeded (set_done _ _)) eqn:Eb; [intros [= <-] Hx; congruence|]. intros Hl _.
  assert (blamed st2) as Hb2.
  { eapply Hbl; [|exact Hp1|exact Hm1|exact Hs|exact Ere|exact Eb]. rewrite length_app. cbn. lia. }
  eapply loop_honest in Hl; [by apply Hl|done..| |by right]. apply marks_pop; [done|rewrite <- (proj1 Hm); congruence|].
  by eapply Hf.
Qed.

Context (Hnd : NoDup (s_ids s)) (Hsize : size (s_ops s) = length (s_ids s)).
(** Something is always next: real time has no cycles. *)
Context (Hnext : forall lin : list Z, (exists id, id ∈ s_ids s /\ id ∉ lin) ->
  exists id, id ∈ s_ids s /\ id ∉ lin /\ forall p, p ∈ default [] (s_preds s !! id) -> p ∈ lin).

Lemma search_blames fuel n : (n + fuel = length (s_ids s))%nat -> blames_at n (search fuel s).
Proof using All.
  revert n. induction fuel as [|fuel IH]; intros n Hn lin m st st' Hl Hp Hm Hs; cbn [search].
  - assert (lin ≡ₚ s_ids s) as Hperm.
    { apply submseteq_length_Permutation; [|lia]. apply NoDup_submseteq; [apply (P_nodup _ _ _ Hp)|apply (P_ids _ _ _ Hp)]. }
    rewrite (marks_full s Hnd Hsize lin st Hperm Hm), Nat.eqb_refl. done.
  - case_if; [done|]. destruct (Hnext lin) as (id0 & Hid & Hnew & Hpreds).
    { destruct (decide (Forall (fun id => id ∈ lin) (s_ids s))) as [Hsub|Hsub].
      - exfalso. rewrite Forall_forall in Hsub. assert (length (s_ids s) <= length lin)%nat; [|lia].
        apply submseteq_length, NoDup_submseteq; [done|exact Hsub].
      - apply not_Forall_Exists, Exists_exists in Hsub as (id & Hid & Hn'); [|apply _]. by exists id. }
    eapply loop_blames; [exact (search_frame s fuel)|apply search_honest|rewrite Hl; apply IH; lia|done..].
Qed.
End Blame.

(** What a violation says, in terms of the history. *)
Record diagnosis (required included : list Operation) (v : Violation) (l : list Operation) : Prop := {
  D_ids : op_ID <$> l = v_Linearization v;
  D_nodup : NoDup l;
  D_ops : l ⊆ required ++ included;
  D_replays : replays ∅ l;
  D_order : forall k a b, l !! k = Some b -> a ∈ required -> op_ID a <> op_ID b -> op_Complete a < op_Invoke b -> a ∈ take k l;
  D_failing : v_FailingOp v ∈ required ++ included /\ v_FailingOp v ∉ l /\ op_Kind (v_FailingOp v) = OpGet;
  D_ready : forall a, a ∈ required -> op_ID a <> op_ID (v_FailingOp v) -> op_Complete a < op_Invoke (v_FailingOp v) -> a ∈ l;
  D_expected : run_model ∅ l !! op_Key (v_FailingOp v) = if v_ExpectedFound v then Some (v_ExpectedValue v) else None;
  D_observed : v_ExpectedFound v <> op_Found (v_FailingOp v) \/
               (v_ExpectedFound v = true /\ v_ExpectedValue v <> op_Result (v_FailingOp v)) }.

Lemma mismatch_get op found value : mismatch op found value = true ->
  op_Kind op = OpGet /\ (found <> op_Found op \/ (found = true /\ value <> op_Result op)).
Proof.
  unfold mismatch. rewrite andb_true_iff, bool_decide_eq_true, orb_true_iff, negb_true_iff, andb_true_iff, negb_true_iff, bool_decide_eq_false.
  intros [Hk Hm]. split; [done|]. destruct Hm as [Hm|[-> Hm]]; [left|by right]. by apply eqb_false_iff in Hm.
Qed.

Lemma least {A} (f : A -> Z) (l : list A) x : x ∈ l -> exists y, y ∈ l /\ forall z, z ∈ l -> f y <= f z.
Proof.
  revert x. induction l as [|a l IH]; intros x Hx; [by apply not_elem_of_nil in Hx|]. destruct l as [|b l].
  - exists a. split; [by left|]. by intros z ->%list_elem_of_singleton.
  - destruct (IH b ltac:(by left)) as (y & Hy & Hmin). destruct (decide (f a <= f y)).
    + exists a. split; [by left|]. intros z [->|Hz]%elem_of_cons; [lia|]. specialize (Hmin z Hz). lia.
    + exists y. split; [by right|]. intros z [->|Hz]%elem_of_cons; [lia|by apply Hmin].
Qed.

Section Searcher.
Context (required included : list Operation) (budget : Z).
#[local] Abbreviation all := (required ++ included).
#[local] Abbreviation s := (newSearcher required included budget).
Context (Hnd : NoDup (op_ID <$> all)) (Htime : Forall (fun a => op_Invoke a < op_Complete a) required).

Lemma something_next (lin : list Z) : (exists id, id ∈ s_ids s /\ id ∉ lin) ->
  exists id, id ∈ s_ids s /\ id ∉ lin /\ forall p, p ∈ default [] (s_preds s !! id) -> p ∈ lin.
Proof using All.
  intros (id & Hid & Hn). cbn [s_ids newSearcher] in Hid. apply list_elem_of_fmap in Hid as (o & -> & Ho).
  destruct (least op_Invoke (filter (fun op => op_ID op ∉ lin) all) o) as (b & Hb & Hmin); [by apply list_elem_of_filter|].
  apply list_elem_of_filter in Hb as [Hbn Hb]. exists (op_ID b). split; [by apply list_elem_of_fmap_2|]. split; [done|].
  intros p Hp. rewrite s_preds_of in Hp by done. apply list_elem_of_fmap in Hp as (a & -> & Ha).
  apply list_elem_of_filter in Ha as [[Hne Hlt] Ha]. destruct (decide (op_ID a ∈ lin)) as [|Hna]; [done|].
  rewrite Forall_forall in Htime. specialize (Htime a Ha).
  specialize (Hmin a ltac:(apply list_elem_of_filter; split; [done|apply elem_of_app; by left])). lia.
Qed.

Lemma blames_diagnosis v failed : failed ∈ s_ids s -> v_FailingOp v = op_at s failed ->
  blames s (v_Linearization v) failed (v_ExpectedFound v) (v_ExpectedValue v) ->
  diagnosis required included v (op_at s <$> v_Linearization v).
Proof using Hnd.
  destruct v as [L failing found value]. cbn [v_Linearization v_FailingOp v_ExpectedFound v_ExpectedValue].
  intros Hin Ev (m & [Hn Hi Hr Hm Ho] & _ & Hnew & Hpreds & Ha & Hmm).
  assert (op_ID <$> (op_at s <$> L) = L) as Hback by (by apply ids_ops).
  assert (forall op, op ∈ all -> op_at s (op_ID op) = op) as Hat by (intros; by apply op_at_id).
  assert (forall op, op ∈ all -> op_ID op ∈ L -> op ∈ op_at s <$> L) as Hl.
  { intros op Hop HL. apply list_elem_of_fmap. exists (op_ID op). by rewrite Hat. }
  cbn [s_ids newSearcher] in Hin. apply list_elem_of_fmap in Hin as (o & -> & Hoa).
  rewrite (Hat o Hoa) in Ev, Ha, Hmm. rewrite (s_preds_of _ _ _ Hnd o Hoa) in Hpreds.
  destruct (mismatch_get _ _ _ Hmm) as [Hk Hobs]. subst failing. split; cbn [v_Linearization v_FailingOp v_ExpectedFound v_ExpectedValue]; try done.
  - apply (NoDup_fmap_1 op_ID). by rewrite Hback.
  - intros op (id & -> & Hid)%list_elem_of_fmap. apply Hi in Hid. cbn [s_ids newSearcher] in Hid.
    apply list_elem_of_fmap in Hid as (x & -> & Hx). by rewrite Hat.
  - intros k a b Hb Hra Hne Hlt. rewrite list_lookup_fmap in Hb. destruct (L !! k) as [id|] eqn:Ek; [|done]. injection Hb as <-.
    pose proof (list_elem_of_lookup_2 _ _ _ Ek) as Hid. apply Hi in Hid. cbn [s_ids newSearcher] in Hid.
    apply list_elem_of_fmap in Hid as (b & -> & Hb). rewrite Hat in Hne, Hlt by done.
    destruct (Ho k (op_ID b) (op_ID a) Ek) as [?%not_elem_of_nil|Hx]; [|done|].
    + rewrite (s_preds_of _ _ _ Hnd) by done. apply list_elem_of_fmap_2, list_elem_of_filter. done.
    + rewrite <- fmap_take. apply list_elem_of_fmap. exists (op_ID a). split; [|done]. rewrite Hat; [done|]. apply elem_of_app. by left.
  - split; [done|]. split; [|done]. intros (id & E & Hid)%list_elem_of_fmap. apply Hnew. rewrite E.
    pose proof (Hi _ Hid) as Hid'. cbn [s_ids newSearcher] in Hid'. apply list_elem_of_fmap in Hid' as (x & -> & Hx). by rewrite Hat.
  - intros a Hra Hne Hlt. apply Hl; [apply elem_of_app; by left|]. apply Hpreds, list_elem_of_fmap_2, list_elem_of_filter. done.
  - rewrite Hm. unfold model_apply in Ha. rewrite Hk in Ha. cbn in Ha. by destruct (m !! _) as [x|]; injection Ha as <- <-.
Qed.

Lemma run_diagnosis : (forall op, op ∈ all -> op_ID op <> 0) -> r_Status (searcher_run s) = StatusViolation ->
  exists v l, r_Violation (searcher_run s) = Some v /\ diagnosis required included v l.
Proof using All.
  intros Hnz. unfold searcher_run. destruct (search _ _ _ _ _) as [b st] eqn:E. destruct (st_budgetExceeded st) eqn:Eb; [done|].
  destruct b; [done|]. intros _. cbn [r_Violation].
  assert (blamed s st) as Hb.
  { exact (search_blames s Hnd (s_size _ _ _ Hnd) something_next (length (s_ids s)) 0 eq_refl [] ∅ init_state st eq_refl
      (partial_nil s) (marks_init s) (or_introl eq_refl) E Eb). }
  assert (st_bestFailedID st ∈ s_ids s) as Hin by (by destruct Hb as (m & _ & ? & _)).
  exists (bestFailure s st), (op_at s <$> st_bestPrefix st). split; [done|]. unfold bestFailure.
  rewrite (proj2 (Z.eqb_neq _ _)).
  - rewrite andb_false_r. exact (blames_diagnosis (MkViolation _ _ _ _) _ Hin eq_refl Hb).
  - intros E0. rewrite E0 in Hin. cbn [s_ids newSearcher] in Hin. apply list_elem_of_fmap in Hin as (o & Eo & Ho).
    by apply (Hnz o).
Qed.
End Searcher.

(** The best of several searches is one of them. *)
Lemma check_loop_diagnosis maxStates completed optional masks k (P : Violation -> Prop) :
  (forall mask budget, let r := searcher_run (newSearcher completed (included_of mask optional) budget) in
     r_Status r = StatusViolation -> exists v, r_Violation r = Some v /\ P v) ->
  (masks <> [] /\ r_Violation (k_best k) = Some noViolation) \/ (exists v, r_Violation (k_best k) = Some v /\ P v) ->
  r_Status (check_loop maxStates completed optional masks k) = StatusViolation ->
  exists v, r_Violation (check_loop maxStates completed optional masks k) = Some v /\ P v.
Proof.
  intros Hrun. revert k. induction masks as [|mask masks IH]; intros k Hk; cbn [check_loop].
  { destruct Hk as [[? _]|Hk]; [done|]. by intros _. }
  case_if; [done|]. specialize (Hrun mask (maxStates - k_used k)). cbn in Hrun.
  destruct (r_Status (searcher_run _)) eqn:Er; [done| |].
  - destruct (Hrun eq_refl) as (v & Ev & Hv). apply IH. right. cbn [k_best]. destruct (better _ _) eqn:Eb; [by exists v|].
    destruct Hk as [[_ Hk]|Hk]; [|done]. unfold better in Eb. rewrite Ev, Hk in Eb. cbn in Eb. zbool.
    pose proof (zlen_nonneg (v_Linearization v)). change (zlen []) with 0 in Eb. lia.
  - intros Hx. exfalso. revert Hx. clear. generalize (k_used k + r_StatesExplored (searcher_run
      (newSearcher completed (included_of mask optional) (maxStates - k_used k)))) (k_best k). clear.
    induction masks as [|mask masks IH]; intros used best; cbn; [done|]. case_if; [done|].
    destruct (r_Status (searcher_run _)); [done|apply IH|apply IH].
Qed.

Lemma validate_times seen h : validate_from seen h = None -> forall op, op ∈ h -> op_Outcome op = OutcomeOK -> op_Invoke op < op_Complete op.
Proof.
  revert seen. induction h as [|o h IH]; intros seen; cbn; [intros _ op ?%not_elem_of_nil; done|].
  case_if; [done|]. destruct (validate_op o) eqn:Ev; [done|]. intros Hv op [->|Hop]%elem_of_cons Ho; [|by eapply IH].
  unfold validate_op in Ev. rewrite Ho in Ev. destruct (op_Kind o); try done; destruct (op_Complete o <=? op_Invoke o) eqn:Et; try done; by zbool.
Qed.

Lemma optionalSubsets_nonempty k : optionalSubsets k <> [].
Proof.
  unfold optionalSubsets. repeat case_if; try done. intros En%fmap_nil_inv.
  assert (length (seq 0 (2 ^ k)) = 0%nat) as El by (by rewrite En). rewrite length_seq in El.
  pose proof (Nat.pow_nonzero 2 k). lia.
Qed.

(** ** Theorems *)

(** C32. A reported violation comes with a genuine diagnosis: for a valid
    history whose operations are numbered from 1, the reported prefix is an
    order of some of its operations that respects real time and explains
    what each of them observed; the failing operation is a read that is not
    in the prefix, could come next in real time, and observed something else
    than what the reported expectation says, which is what the reference
    model holds after the prefix. *)
Theorem violation_is_genuine h maxStates :
  Validate h = None -> (forall op, op ∈ h -> op_ID op <> 0) -> r_Status (Check h maxStates) = StatusViolation ->
  exists v included l, r_Violation (Check h maxStates) = Some v /\ included `sublist_of` optional_of h /\
    diagnosis (Completed h) included v l /\ v_FailingOp v ∈ Completed h.
Proof.
  intros Hv Hnz Hc.
  destruct (check_loop_diagnosis (if maxStates <=? 0 then DefaultMaxStates else maxStates) (Completed h) (optional_of h)
    (optionalSubsets (length (optional_of h))) (MkCheck (MkResult StatusViolation [] (Some noViolation) 0 0) false 0)
    (fun v => exists included l, included `sublist_of` optional_of h /\ diagnosis (Completed h) included v l)) as (v & Ev & inc & l & Hs & Hd).
  - intros mask budget r Hr. pose proof (included_sublist 0 mask (optional_of h)) as Hs.
    destruct (run_diagnosis (Completed h) (included_of mask (optional_of h)) budget) as (v & l & Hrv & Hd); [by apply all_NoDup| | |exact Hr|].
    + apply Forall_forall. intros op [Ho Hop]%list_elem_of_filter. by eapply validate_times.
    + intros op [[_ Hop]%list_elem_of_filter|Hop]%elem_of_app; [by apply Hnz|]. apply Hnz.
      eapply sublist_subseteq in Hop; [|exact Hs]. by apply list_elem_of_filter in Hop as [_ ?].
    + exists v. split; [done|]. by exists (included_of mask (optional_of h)), l.
  - left. split; [apply optionalSubsets_nonempty|done].
  - exact Hc.
  - exists v, inc, l. split_and!; [exact Ev|done|done|]. destruct (D_failing _ _ _ _ Hd) as (Hin & _ & Hk).
    apply elem_of_app in Hin as [?|Hin]; [done|]. eapply sublist_subseteq in Hin; [|exact Hs].
    apply list_elem_of_filter in Hin as [[_ Hkind] _]. rewrite Hk in Hkind. by destruct Hkind.
Qed.

(** The report lists every operation of the history once, ordered by
    invocation, those of one instant in the order of the history. *)
Theorem report_order h : StronglySorted by_invoke (sortedByInvoke h) /\ sortedByInvoke h ≡ₚ h /\
  forall t, at_time t (sortedByInvoke h) = at_time t h.
Proof. apply sortedByInvoke_spec. Qed.

(** A report can always be rendered: the verdict of a violation has its
    diagnosis. *)
Theorem Report_total quote h maxStates : is_Some (Report quote (Check h maxStates) h).
Proof.
  unfold Report. destruct (r_Status (Check h maxStates)) eqn:E; [by eexists| |by eexists].
  destruct (check_loop_diagnosis (if maxStates <=? 0 then DefaultMaxStates else maxStates) (Completed h) (optional_of h)
    (optionalSubsets (length (optional_of h))) (MkCheck (MkResult StatusViolation [] (Some noViolation) 0 0) false 0)
    (fun _ => True)) as (v & Ev & _); [|left; split; [apply optionalSubsets_nonempty|done]|exact E|].
  - intros mask budget. unfold searcher_run. destruct (search _ _ _ _ _) as [b st]. repeat case_if; try done. by eexists.
  - unfold Check. rewrite Ev. by eexists.
Qed.

(** ** Witness and an example *)

Example violation_is_genuine_witness :
  exists v l, r_Violation (Check stale 0) = Some v /\ v_Linearization v = [1] /\ op_ID <$> l = [1] /\
    run_model ∅ l !! [x78] = Some [x31].
Proof.
  destruct (violation_is_genuine stale 0) as (v & inc & l & Ev & _ & Hd & _); [vm_compute; reflexivity| |vm_compute; reflexivity|].
  { intros op [->|[->|Hop%not_elem_of_nil]%elem_of_cons]%elem_of_cons; done. }
  assert (r_Violation (Check stale 0) = Some (MkViolation [1] (on_x 2 OpGet [] 3 4 false []) true [x31])) as E by (vm_compute; reflexivity).
  rewrite E in Ev. injection Ev as <-. exists (MkViolation [1] (on_x 2 OpGet [] 3 4 false []) true [x31]), l.
  split; [exact E|]. split; [done|]. split; [exact (D_ids _ _ _ _ Hd)|exact (D_expected _ _ _ _ Hd)].
Defined.

(** An operation numbered 0, which [Validate] accepts, is taken for no
    failure at all: the violation is reported without its diagnosis. *)
Theorem operation_zero_is_not_blamed :
  let h := [on_x 0 OpGet [] 1 2 true [x31]] in
  Validate h = None /\ r_Status (Check h 0) = StatusViolation /\ r_Violation (Check h 0) = Some noViolation.
Proof. vm_compute. done. Qed.

Definition plain_quote (b : bytes) : bytes := lit "'" ++ b ++ lit "'".

Example stale_report : Report plain_quote (Check stale 0) stale = Some (
  lit "LINEARIZABILITY CHECK: VIOLATION" ++ nl ++ lit "operation count: 2 (completed: 2)" ++ nl ++
  lit "states explored: 2 (budget: 200000)" ++ nl ++ nl ++ lit "observed history:" ++ nl ++
  lit "  id=1 client= request=0 node= Put('x') value='1' invoke=1 complete=2 -> OK" ++ nl ++
  lit "  id=2 client= request=0 node= Get('x') invoke=3 complete=4 -> OK not-found" ++ nl ++ nl ++
  lit "LINEARIZABILITY VIOLATION" ++ nl ++ lit "partial linearization reached (operation IDs, in order):" ++ nl ++
  lit "  [1]" ++ nl ++ nl ++ lit "no legal placement found for:" ++ nl ++
  lit "  id=2 client= request=0 node= Get('x') invoke=3 complete=4 -> OK not-found" ++ nl ++ nl ++ lit "reason:" ++ nl ++
  lit "  reference model at this point holds found=true value='1' for key 'x'," ++ nl ++
  lit "  but the operation observed found=false value=''" ++ nl).
Proof. vm_compute. reflexivity. Qed.
