(* ===== verification/ReplayFile.v ===== *)
(** * Histories in files

    correctness/replay.go: a history as JSON, saved in a file and loaded
    again. *)

From S2P Require Import Prelude Bytes Http Format Json Checker Report.
From Stdlib Require Import Strings.Byte.
From Stdlib Require String.
From stdpp Require Import base tactics list numbers gmap.
From Stdlib Require Import ZArith Lia.
Import String.StringSyntax.
#[local] Open Scope Z_scope.

(** ** The replay form *)

Definition Outcome_String (o : Outcome) : bytes :=
  match o with
  | OutcomeIncomplete => lit "Incomplete"
  | OutcomeFailed => lit "Failed"
  | OutcomeOK => lit "OK"
  | OutcomeOther n => lit "Outcome(" ++ itoa n ++ lit ")"
  end.

Definition kindFromString (s : bytes) : option OpKind :=
  if bool_decide (s = lit "Get") then Some OpGet
  else if bool_decide (s = lit "Put") then Some OpPut
  else if bool_decide (s = lit "Delete") then Some OpDelete
  else None.

Definition outcomeFromString (s : bytes) : option Outcome :=
  if bool_decide (s = lit "Incomplete") then Some OutcomeIncomplete
  else if bool_decide (s = lit "Failed") then Some OutcomeFailed
  else if bool_decide (s = lit "OK") then Some OutcomeOK
  else None.

Record jsonOperation := MkJson {
  j_ID : Z; j_ClientID : bytes; j_RequestID : Z; j_Kind : bytes; j_Node : bytes; j_Key : bytes; j_Value : bytes;
  j_Invoke : Z; j_Complete : Z; j_Outcome : bytes; j_Found : bool; j_Result : bytes; j_Err : bytes }.

Definition toJSON (op : Operation) : jsonOperation :=
  MkJson (op_ID op) (op_ClientID op) (op_RequestID op) (kind_text (op_Kind op)) (op_Node op) (op_Key op) (op_Value op)
    (op_Invoke op) (if bool_decide (op_Outcome op = OutcomeIncomplete) then 0 else op_Complete op)
    (Outcome_String (op_Outcome op)) (op_Found op) (op_Result op) (default [] (op_Err op)).

Inductive replay_failure := ErrUnknownKind | ErrUnknownOutcome | ErrReadHistory | ErrUnmarshalHistory | ErrWriteHistory.

Definition fromJSON (j : jsonOperation) : result replay_failure Operation :=
  match kindFromString (j_Kind j) with
  | None => Err ErrUnknownKind
  | Some k =>
      match outcomeFromString (j_Outcome j) with
      | None => Err ErrUnknownOutcome
      | Some o =>
          Ok (MkOp (j_ID j) (j_ClientID j) (j_RequestID j) k (j_Node j) (j_Key j) (j_Value j)
                (j_Invoke j) (j_Complete j) o (j_Found j) (j_Result j)
                (if bool_decide (j_Err j = []) then None else Some (j_Err j)))
      end
  end.

Definition toJSONHistory (h : History) : list jsonOperation := map toJSON h.

Fixpoint fromJSONHistory (js : list jsonOperation) : result replay_failure History :=
  match js with
  | [] => Ok []
  | j :: js =>
      match fromJSON j with
      | Err e => Err e
      | Ok op => match fromJSONHistory js with Err e => Err e | Ok h => Ok (op :: h) end
      end
  end.

(** ** The text *)

Definition operation_members (j : jsonOperation) : list (bytes * json) :=
  [(lit "id", JInt (j_ID j)); (lit "client_id", JStr (j_ClientID j)); (lit "request_id", JInt (j_RequestID j));
   (lit "kind", JStr (j_Kind j)); (lit "node", JStr (j_Node j)); (lit "key", JStr (j_Key j))] ++
  omit_string (lit "value") (j_Value j) ++ [(lit "invoke", JInt (j_Invoke j))] ++ omit_int (lit "complete") (j_Complete j) ++
  [(lit "outcome", JStr (j_Outcome j))] ++ omit_bool (lit "found") (j_Found j) ++ omit_string (lit "result") (j_Result j) ++
  omit_string (lit "err") (j_Err j).

Definition set_ID (v : Z) (j : jsonOperation) : jsonOperation :=
  MkJson v (j_ClientID j) (j_RequestID j) (j_Kind j) (j_Node j) (j_Key j) (j_Value j) (j_Invoke j) (j_Complete
    j) (j_Outcome j) (j_Found j) (j_Result j) (j_Err j).
Definition set_ClientID (v : bytes) (j : jsonOperation) : jsonOperation :=
  MkJson (j_ID j) v (j_RequestID j) (j_Kind j) (j_Node j) (j_Key j) (j_Value j) (j_Invoke j) (j_Complete j)
    (j_Outcome j) (j_Found j) (j_Result j) (j_Err j).
Definition set_RequestID (v : Z) (j : jsonOperation) : jsonOperation :=
  MkJson (j_ID j) (j_ClientID j) v (j_Kind j) (j_Node j) (j_Key j) (j_Value j) (j_Invoke j) (j_Complete j)
    (j_Outcome j) (j_Found j) (j_Result j) (j_Err j).
Definition set_Kind (v : bytes) (j : jsonOperation) : jsonOperation :=
  MkJson (j_ID j) (j_ClientID j) (j_RequestID j) v (j_Node j) (j_Key j) (j_Value j) (j_Invoke j) (j_Complete
    j) (j_Outcome j) (j_Found j) (j_Result j) (j_Err j).
Definition set_Node (v : bytes) (j : jsonOperation) : jsonOperation :=
  MkJson (j_ID j) (j_ClientID j) (j_RequestID j) (j_Kind j) v (j_Key j) (j_Value j) (j_Invoke j) (j_Complete
    j) (j_Outcome j) (j_Found j) (j_Result j) (j_Err j).
Definition set_Key (v : bytes) (j : jsonOperation) : jsonOperation :=
  MkJson (j_ID j) (j_ClientID j) (j_RequestID j) (j_Kind j) (j_Node j) v (j_Value j) (j_Invoke j) (j_Complete
    j) (j_Outcome j) (j_Found j) (j_Result j) (j_Err j).
Definition set_Value (v : bytes) (j : jsonOperation) : jsonOperation :=
  MkJson (j_ID j) (j_ClientID j) (j_RequestID j) (j_Kind j) (j_Node j) (j_Key j) v (j_Invoke j) (j_Complete j)
    (j_Outcome j) (j_Found j) (j_Result j) (j_Err j).
Definition set_Invoke (v : Z) (j : jsonOperation) : jsonOperation :=
  MkJson (j_ID j) (j_ClientID j) (j_RequestID j) (j_Kind j) (j_Node j) (j_Key j) (j_Value j) v (j_Complete j)
    (j_Outcome j) (j_Found j) (j_Result j) (j_Err j).
Definition set_Complete (v : Z) (j : jsonOperation) : jsonOperation :=
  MkJson (j_ID j) (j_ClientID j) (j_RequestID j) (j_Kind j) (j_Node j) (j_Key j) (j_Value j) (j_Invoke j) v
    (j_Outcome j) (j_Found j) (j_Result j) (j_Err j).
Definition set_Outcome (v : bytes) (j : jsonOperation) : jsonOperation :=
  MkJson (j_ID j) (j_ClientID j) (j_RequestID j) (j_Kind j) (j_Node j) (j_Key j) (j_Value j) (j_Invoke j)
    (j_Complete j) v (j_Found j) (j_Result j) (j_Err j).
Definition set_Found (v : bool) (j : jsonOperation) : jsonOperation :=
  MkJson (j_ID j) (j_ClientID j) (j_RequestID j) (j_Kind j) (j_Node j) (j_Key j) (j_Value j) (j_Invoke j)
    (j_Complete j) (j_Outcome j) v (j_Result j) (j_Err j).
Definition set_Result (v : bytes) (j : jsonOperation) : jsonOperation :=
  MkJson (j_ID j) (j_ClientID j) (j_RequestID j) (j_Kind j) (j_Node j) (j_Key j) (j_Value j) (j_Invoke j)
    (j_Complete j) (j_Outcome j) (j_Found j) v (j_Err j).
Definition set_Err (v : bytes) (j : jsonOperation) : jsonOperation :=
  MkJson (j_ID j) (j_ClientID j) (j_RequestID j) (j_Kind j) (j_Node j) (j_Key j) (j_Value j) (j_Invoke j)
    (j_Complete j) (j_Outcome j) (j_Found j) (j_Result j) v.

Definition operation_fields : fields jsonOperation :=
  [(lit "id", at_field j_ID set_ID decode_int);
   (lit "client_id", at_field j_ClientID set_ClientID decode_string);
   (lit "request_id", at_field j_RequestID set_RequestID decode_uint64);
   (lit "kind", at_field j_Kind set_Kind decode_string);
   (lit "node", at_field j_Node set_Node decode_string);
   (lit "key", at_field j_Key set_Key decode_string);
   (lit "value", at_field j_Value set_Value decode_string);
   (lit "invoke", at_field j_Invoke set_Invoke decode_int);
   (lit "complete", at_field j_Complete set_Complete decode_int);
   (lit "outcome", at_field j_Outcome set_Outcome decode_string);
   (lit "found", at_field j_Found set_Found decode_bool);
   (lit "result", at_field j_Result set_Result decode_string);
   (lit "err", at_field j_Err set_Err decode_string)].

Definition zeroOperation : jsonOperation := MkJson 0 [] 0 [] [] [] [] 0 0 [] false [] [].

(** ** Files *)

(** What [os.WriteFile] meets: the file cannot be opened, or only [n] bytes
    are written to it after it was truncated. *)
Inductive write_fault := Writes | CannotOpen | ShortWrite (n : nat).

Definition SaveHistory (h : History) (path : bytes) (f : write_fault) (files : gmap bytes bytes) :
    gmap bytes bytes * result replay_failure unit :=
  let data := MarshalIndent (JArr (map (fun j => JObj (operation_members j)) (toJSONHistory h))) in
  match f with
  | Writes => (<[path := data]> files, Ok tt)
  | CannotOpen => (files, Err ErrWriteHistory)
  | ShortWrite n => (<[path := take n data]> files, Err ErrWriteHistory)
  end.

Definition LoadHistory (path : bytes) (files : gmap bytes bytes) : result replay_failure History :=
  match files !! path with
  | None => Err ErrReadHistory
  | Some data =>
      match Unmarshal (decode_slice (decode_struct operation_fields) zeroOperation) data [] with
      | None => Err ErrUnmarshalHistory
      | Some js => fromJSONHistory js
      end
  end.

(** ** What a file carries *)

(** The operation as it comes back from a file: strings with U+FFFD for
    what is not UTF-8, no completion time while there is no outcome, and an
    error with an empty message is no error. *)
Definition loaded_op (op : Operation) : Operation :=
  MkOp (op_ID op) (sanitize (op_ClientID op)) (op_RequestID op) (op_Kind op) (sanitize (op_Node op)) (sanitize (op_Key op))
    (sanitize (op_Value op)) (op_Invoke op) (match op_Outcome op with OutcomeIncomplete => 0 | _ => op_Complete op end)
    (op_Outcome op) (op_Found op) (sanitize (op_Result op))
    (match op_Err op with None | Some [] => None | Some e => Some (sanitize e) end).

(** What loading fails with: the first operation with a kind or an outcome
    that has no name decides. *)
Fixpoint first_unknown (h : History) : option replay_failure :=
  match h with
  | [] => None
  | op :: h =>
      match op_Kind op, op_Outcome op with
      | OpKindOther _, _ => Some ErrUnknownKind
      | _, OutcomeOther _ => Some ErrUnknownOutcome
      | _, _ => first_unknown h
      end
  end.

(** The numbers are of their types: int, uint64, int, int. *)
Definition machine_op (op : Operation) : Prop :=
  - 2 ^ 63 <= op_ID op < 2 ^ 63 /\ 0 <= op_RequestID op < 2 ^ 64 /\ - 2 ^ 63 <= op_Invoke op < 2 ^ 63 /\
  - 2 ^ 63 <= op_Complete op < 2 ^ 63.

Definition utf8_op (op : Operation) : Prop :=
  Forall (fun s => ValidString s = true)
    [op_ClientID op; op_Node op; op_Key op; op_Value op; op_Result op; default [] (op_Err op)].

Definition clean_jsonOperation (j : jsonOperation) : jsonOperation :=
  MkJson (j_ID j) (sanitize (j_ClientID j)) (j_RequestID j) (sanitize (j_Kind j)) (sanitize (j_Node j)) (sanitize (j_Key j))
    (sanitize (j_Value j)) (j_Invoke j) (j_Complete j) (sanitize (j_Outcome j)) (j_Found j) (sanitize (j_Result j))
    (sanitize (j_Err j)).

Definition op_in_range (j : jsonOperation) : Prop :=
  - 2 ^ 63 <= j_ID j < 2 ^ 63 /\ 0 <= j_RequestID j < 2 ^ 64 /\ - 2 ^ 63 <= j_Invoke j < 2 ^ 63 /\
  - 2 ^ 63 <= j_Complete j < 2 ^ 63.

(** The record a field has just been stored in. *)
Ltac settle := cbv beta iota delta [zeroOperation set_ID set_ClientID set_RequestID set_Kind set_Node set_Key set_Value set_Invoke set_Complete set_Outcome set_Found set_Result set_Err
  j_ID j_ClientID j_RequestID j_Kind j_Node j_Key j_Value j_Invoke j_Complete j_Outcome j_Found j_Result j_Err].

Lemma operation_decodes j : op_in_range j ->
  decode_struct operation_fields (clean_json (JObj (operation_members j))) zeroOperation = (clean_jsonOperation j, true).
Proof.
  destruct j as [id client req kind node key value inv comp outcome found res err]. intros (Hid & Hreq & Hinv & Hcomp). cbn in Hid, Hreq, Hinv, Hcomp. cbn [clean_json decode_struct].
  unfold operation_members. rewrite !map_app. cbn [map fst snd app clean_json JInt j_ID j_ClientID j_RequestID j_Kind j_Node j_Key j_Value j_Invoke j_Complete j_Outcome j_Found j_Result j_Err].
  repeat match goal with
  | |- context [map ?f (omit_string ?a ?b)] => change (map f (omit_string a b)) with (clean_members (omit_string a b))
  | |- context [map ?f (omit_int ?a ?b)] => change (map f (omit_int a b)) with (clean_members (omit_int a b))
  | |- context [map ?f (omit_bool ?a ?b)] => change (map f (omit_bool a b)) with (clean_members (omit_bool a b))
  | |- context [sanitize (lit ?a)] => change (sanitize (lit a)) with (lit a)
  | |- context [JNum (itoa ?z)] => change (JNum (itoa z)) with (JInt z)
  end.
  rewrite <- (app_nil_r (clean_members (omit_string (lit "err") _))).
  rewrite (decode_int_member _ _ j_ID set_ID) by (assumption || reflexivity). settle.
  rewrite (decode_string_member _ _ j_ClientID set_ClientID) by (assumption || reflexivity). settle.
  rewrite (decode_uint64_member _ _ j_RequestID set_RequestID) by (assumption || reflexivity). settle.
  rewrite (decode_string_member _ _ j_Kind set_Kind) by (assumption || reflexivity). settle.
  rewrite (decode_string_member _ _ j_Node set_Node) by (assumption || reflexivity). settle.
  rewrite (decode_string_member _ _ j_Key set_Key) by (assumption || reflexivity). settle.
  rewrite (decode_omit_string _ _ j_Value set_Value) by (assumption || reflexivity). settle.
  rewrite (decode_int_member _ _ j_Invoke set_Invoke) by (assumption || reflexivity). settle.
  rewrite (decode_omit_int _ _ j_Complete set_Complete) by (assumption || reflexivity). settle.
  rewrite (decode_string_member _ _ j_Outcome set_Outcome) by (assumption || reflexivity). settle.
  rewrite (decode_omit_bool _ _ j_Found set_Found) by (assumption || reflexivity). settle.
  rewrite (decode_omit_string _ _ j_Result set_Result) by (assumption || reflexivity). settle.
  rewrite (decode_omit_string _ _ j_Err set_Err) by (assumption || reflexivity). settle. reflexivity.
Qed.

Lemma unknown_kind n : kindFromString (sanitize (kind_text (OpKindOther n))) = None.
Proof.
  change (sanitize (kind_text (OpKindOther n))) with (x4f :: sanitize (lit "pKind(" ++ itoa n ++ lit ")")).
  unfold kindFromString. by rewrite !bool_decide_eq_false_2.
Qed.

Lemma unknown_outcome n : outcomeFromString (sanitize (Outcome_String (OutcomeOther n))) = None.
Proof.
  change (sanitize (Outcome_String (OutcomeOther n)))
    with (x4f :: x75 :: sanitize (lit "tcome(" ++ itoa n ++ lit ")")).
  unfold outcomeFromString. by rewrite !bool_decide_eq_false_2.
Qed.

Lemma fromJSON_toJSON op :
  fromJSON (clean_jsonOperation (toJSON op)) =
  match first_unknown [op] with Some e => Err e | None => Ok (loaded_op op) end.
Proof.
  destruct op as [id cid rid k nd key v inv comp o fnd res err].
  unfold fromJSON, clean_jsonOperation, toJSON, loaded_op.
  cbn -[kind_text Outcome_String kindFromString outcomeFromString sanitize].
  assert ((if bool_decide (sanitize (default [] err) = []) then None else Some (sanitize (default [] err))) =
    match err with None | Some [] => None | Some e => Some (sanitize e) end) as ->.
  { destruct err as [[|b err]|]; [done| |done]. cbn [default]. rewrite bool_decide_eq_false_2; [done|].
    by intros ?%sanitize_nil. }
  destruct k as [| | |n]; [..|by rewrite unknown_kind];
    (match goal with |- context [kindFromString (sanitize (kind_text ?k))] =>
       replace (kindFromString (sanitize (kind_text k))) with (Some k) by done end);
    (destruct o as [| | |n]; [..|by rewrite unknown_outcome]);
    (match goal with |- context [outcomeFromString (sanitize (Outcome_String ?o))] =>
       replace (outcomeFromString (sanitize (Outcome_String o))) with (Some o) by done end); done.
Qed.

Lemma fromJSONHistory_toJSON h :
  fromJSONHistory (map clean_jsonOperation (toJSONHistory h)) =
  match first_unknown h with Some e => Err e | None => Ok (loaded_op <$> h) end.
Proof.
  induction h as [|op h IH]; [done|]. unfold toJSONHistory in *. cbn [map fromJSONHistory].
  rewrite fromJSON_toJSON, IH. cbn [first_unknown fmap list_fmap].
  destruct (op_Kind op); try done; destruct (op_Outcome op); try done; by destruct (first_unknown h).
Qed.

Lemma operation_nested n j : nested (S n) (JObj (operation_members j)).
Proof. unfold operation_members. auto 12 with json. Qed.

Lemma history_text_reads js : Forall op_in_range js ->
  Unmarshal (decode_slice (decode_struct operation_fields) zeroOperation) (MarshalIndent (JArr (map (fun j => JObj (operation_members j)) js))) [] =
  Some (map clean_jsonOperation js).
Proof.
  intros Hjs. unfold Unmarshal. rewrite read_MarshalIndent.
  2: { apply (nested_allowed 2); [lia|]. apply nested_JArr, Forall_map, Forall_forall. intros j _. apply operation_nested. }
  assert (map (fun j => decode_struct operation_fields j zeroOperation) (map clean_json (map (fun j => JObj (operation_members j)) js)) =
          map (fun j => (clean_jsonOperation j, true)) js) as E.
  { rewrite !map_map. apply map_ext_in. intros j Hj%list_elem_of_In. rewrite Forall_forall in Hjs. by apply operation_decodes, Hjs. }
  cbn [clean_json decode_slice]. rewrite E, map_map. cbn [fst]. replace (forallb snd _) with true; [done|]. symmetry.
  clear Hjs E. by induction js.
Qed.

(** The operations that come back as they were. *)
Definition plain_op (op : Operation) : Prop :=
  utf8_op op /\ (op_Outcome op = OutcomeIncomplete -> op_Complete op = 0) /\ op_Err op <> Some [].

Lemma loaded_plain_op op : plain_op op -> loaded_op op = op.
Proof.
  unfold plain_op, utf8_op. rewrite !Forall_cons. intros ((H1 & H2 & H3 & H4 & H5 & H6 & _) & Hc & He).
  destruct op as [id cid rid k nd key v inv comp o fnd res err].
  cbn -[sanitize ValidString] in *. unfold loaded_op. cbn -[sanitize]. rewrite !valid_sanitize by done. f_equal.
  - destruct o; try done. by rewrite Hc.
  - destruct err as [[|b err]|]; [done| |done]. cbn -[sanitize ValidString] in H6. by rewrite valid_sanitize.
Qed.

(** C28. What a saved history comes back as, for every history (numbers of
    their Go types, nothing else assumed) and a write that succeeds: the
    file [SaveHistory] writes parses, and [LoadHistory] returns every
    operation in its place with every field as it was, but for three things
    the form does not carry: in strings each byte that is not UTF-8 has
    become U+FFFD, an operation without an outcome has completion time 0,
    and an error with an empty message is none. If some operation's kind or
    outcome has no name, which Validate also refuses, loading fails with the
    error of the first such operation. A history of UTF-8 strings without
    those two oddities comes back unchanged. *)
Theorem history_roundtrip h path files :
  Forall machine_op h ->
  (SaveHistory h path Writes files).2 = Ok tt /\
  LoadHistory path (SaveHistory h path Writes files).1 =
    match first_unknown h with Some e => Err e | None => Ok (loaded_op <$> h) end /\
  (Forall plain_op h -> loaded_op <$> h = h).
Proof.
  intros Hh. split; [done|]. split.
  - unfold LoadHistory, SaveHistory. cbn [fst]. rewrite lookup_insert_eq, history_text_reads; [apply fromJSONHistory_toJSON|].
    unfold toJSONHistory. apply Forall_map. eapply Forall_impl; [exact Hh|].
    intros op (H1 & H2 & H3 & H4). split_and!; cbn; try lia; case_bool_decide; lia.
  - intros Hu. rewrite <- (list_fmap_id h) at 2. apply list_fmap_ext. intros i op Hop.
    apply loaded_plain_op. rewrite Forall_forall in Hu. by eapply Hu, list_elem_of_lookup_2.
Qed.

(** ** Witness *)

Lemma history_roundtrip_witness :
  LoadHistory (lit "h.json") (SaveHistory fine (lit "h.json") Writes ∅).1 = Ok fine.
Proof.
  destruct (history_roundtrip fine (lit "h.json") ∅) as (_ & H & Hu).
  - repeat constructor; cbn; try done; lia.
  - rewrite H. change (first_unknown fine) with (@None replay_failure). cbn iota. rewrite Hu; [reflexivity|].
    repeat constructor; cbn; congruence.
Defined.

(** The first write's value is read after the second write is done. *)
Definition not_utf8 : History :=
  [on_x 1 OpPut [xfe] 1 2 false []; on_x 2 OpPut [xff] 3 4 false []; on_x 3 OpGet [] 5 6 true [xfe]].

(** Saving can hide a violation: a history of values that are not UTF-8 in
    which a read misses the latest write is rejected by the checker, and
    accepted once it has been saved and loaded. *)
Example replay_hides_violation :
  r_Status (Check not_utf8 0) = StatusViolation /\
  match LoadHistory (lit "h.json") (SaveHistory not_utf8 (lit "h.json") Writes ∅).1 with
  | Ok h => r_Status (Check h 0) = StatusValid
  | Err _ => False
  end.
Proof. vm_compute. by split. Qed.
