(* ===== verification/SstFormat.v ===== *)
(** * The sections of an SSTable

    internal/storage/sstable: data blocks (block.go), the sparse index
    (index.go), the metadata block (meta.go), the footer (footer.go) and the
    Bloom filter (bloom.go). *)

From S2P Require Import Prelude Bytes Codec.
From stdpp Require Import base tactics list numbers sorting.
From Stdlib Require Import Strings.Byte.
From Stdlib Require Import ZArith Lia.
#[local] Open Scope Z_scope.

Definition maxKeySize : Z := 2 ^ 20.
Definition maxValueSize : Z := 2 ^ 26.

Record Entry := MkEntry { Key : bytes; Value : bytes; Tombstone : bool }.
#[export] Instance Entry_eq_dec : EqDecision Entry.
Proof. solve_decision. Defined.
#[export] Instance Entry_inhabited : Inhabited Entry := populate (MkEntry [] [] false).

Inductive sst_error := ErrEmptyKey | ErrIndexKey | ErrKeyTooLong | ErrValueTooLong | ErrNotIncreasing | ErrNoEntries | ErrCorrupt.

(** ** Elements to the end of the input

    The block and index decoders loop while there are bytes left; every
    element takes at least one byte, so their number is enough fuel. *)
Fixpoint p_many {A} (fuel : nat) (p : parser A) (l : bytes) : outcome (list A) :=
  match l with
  | [] => Done []
  | _ => match fuel with
         | O => Fail
         | S fuel => match p l with
                     | Done (a, l) => match p_many fuel p l with
                                      | Done xs => Done (a :: xs)
                                      | Fail => Fail
                                      | Panic => Panic
                                      end
                     | Fail => Fail
                     | Panic => Panic
                     end
         end
  end.

Lemma p_many_encodes {A} (p : parser A) (enc : A -> bytes) xs fuel :
  Forall (fun x => encodes p x (enc x) /\ enc x <> []) xs -> (length (concat (enc <$> xs)) <= fuel)%nat ->
  p_many fuel p (concat (enc <$> xs)) = Done xs.
Proof.
  intros Hx. revert fuel. induction Hx as [|x xs [Hx Hne] _ IH]; intros fuel Hf; [by destruct fuel|].
  cbn [fmap list_fmap concat] in *. rewrite length_app in Hf.
  destruct (enc x ++ concat (enc <$> xs)) as [|b l] eqn:E; [by apply app_eq_nil in E as [? _]|].
  assert (0 < length (enc x))%nat by (destruct (enc x); [done|cbn; lia]). destruct fuel as [|fuel]; [lia|].
  assert (p (b :: l) = Done (x, concat (enc <$> xs))) as Hp by (rewrite <- E; apply Hx).
  cbn [p_many]. by rewrite Hp, IH by lia.
Qed.

Lemma p_many_no_panic {A} fuel (p : parser A) l : safe 0 p -> p_many fuel p l <> Panic.
Proof.
  intros Hp. revert l. induction fuel as [|fuel IH]; intros [|b l]; cbn; try done.
  pose proof (Hp (b :: l) ltac:(lia)) as Hb. destruct (p (b :: l)) as [[a l']| |]; try done.
  specialize (IH l'). by destruct (p_many fuel p l').
Qed.

(** ** Data blocks: block.go *)

Definition entryHeaderSize : nat := 9.
Definition blockChecksumSize : nat := 4.

Definition stored_value (e : Entry) : bytes := if Tombstone e then [] else Value e.

Definition entry_bytes (e : Entry) : bytes :=
  [if Tombstone e then x01 else x00] ++ put_u32 (zlen (Key e)) ++ put_u32 (zlen (stored_value e))
  ++ Key e ++ stored_value e.

Fixpoint check_entries (entries : list Entry) : option sst_error :=
  match entries with
  | [] => None
  | e :: entries =>
      if bool_decide (Key e = []) then Some ErrEmptyKey
      else if zlen (Key e) >? maxKeySize then Some ErrKeyTooLong
      else if zlen (Value e) >? maxValueSize then Some ErrValueTooLong
      else check_entries entries
  end.

Definition block_bytes (entries : list Entry) : bytes := with_sum (concat (entry_bytes <$> entries)).

Definition encodeBlock (entries : list Entry) : result sst_error bytes :=
  match check_entries entries with
  | Some e => Err e
  | None => Ok (block_bytes entries)
  end.

Definition p_block_entry : parser Entry :=
  _ ← p_need entryHeaderSize;
  flags ← p_u8; keyLen ← p_u32; valLen ← p_u32;
  _ ← p_guard (negb (keyLen =? 0) && (keyLen <=? maxKeySize));
  _ ← p_guard (valLen <=? maxValueSize);
  _ ← p_need (Z.to_nat keyLen); key ← p_bytes (Z.to_nat keyLen);
  _ ← p_guard (negb (Z.testbit (byte_val flags) 0 && negb (valLen =? 0)));
  _ ← p_need (Z.to_nat valLen); value ← p_bytes (Z.to_nat valLen);
  mret (MkEntry key value (Z.testbit (byte_val flags) 0)).

(** The payload of a section that ends in its checksum. *)
Definition sealed_payload (data : bytes) : option bytes :=
  if bool_decide (length data < 4)%nat then None
  else if negb (sum_ok data) then None
  else Some (take (length data - 4) data).

Definition decodeBlock (data : bytes) : outcome (list Entry) :=
  match sealed_payload data with
  | None => Fail
  | Some payload => p_many (length payload) p_block_entry payload
  end.

Fixpoint search_entries (fuel : nat) (entries : list Entry) (lo hi : nat) (key : bytes) : option Entry :=
  match fuel with
  | O => None
  | S fuel =>
      if (lo <? hi)%nat then
        let mid := ((lo + hi) / 2)%nat in
        match bytes_compare (Key (entries !!! mid)) key with
        | Eq => Some (entries !!! mid)
        | Lt => search_entries fuel entries (mid + 1) hi key
        | Gt => search_entries fuel entries lo mid key
        end
      else None
  end.

(** Every step at least halves the interval, so its length is enough
    fuel. *)
Definition searchBlockEntries (entries : list Entry) (key : bytes) : option Entry :=
  search_entries (length entries) entries 0 (length entries) key.

(** What a table stores: tombstones have no value. *)
Definition stored (e : Entry) : Prop :=
  Key e <> [] /\ zlen (Key e) <= maxKeySize /\ zlen (Value e) <= maxValueSize /\ (Tombstone e = true -> Value e = []).

Lemma stored_value_eq e : stored e -> stored_value e = Value e.
Proof. intros (_ & _ & _ & Ht). unfold stored_value. destruct (Tombstone e); [by rewrite Ht|done]. Qed.

Lemma check_entries_ok es : Forall stored es -> check_entries es = None.
Proof.
  induction 1 as [|e es (Hk & H1 & H2 & _) _ IH]; [done|]. cbn. rewrite bool_decide_eq_false_2 by done.
  rewrite !Z.gtb_ltb, !(proj2 (Z.ltb_ge _ _)) by lia. done.
Qed.

Lemma entry_bytes_length e : length (entry_bytes e) = (9 + length (Key e) + length (stored_value e))%nat.
Proof. unfold entry_bytes. rewrite !length_app, !le_put_length. cbn. lia. Qed.

Lemma encodes_block_entry e : stored e -> encodes p_block_entry e (entry_bytes e).
Proof.
  intros Hs. pose proof (stored_value_eq e Hs) as Hv. destruct Hs as (Hk & H1 & H2 & Ht).
  pose proof (entry_bytes_length e) as Hlen. unfold entry_bytes in *. rewrite Hv in *.
  unfold p_block_entry, maxKeySize, maxValueSize in *.
  assert (0 < zlen (Key e)) by (destruct (Key e); [done|zlen_lia]).
  apply encodes_need; [rewrite Hlen; unfold entryHeaderSize; lia|].
  eapply encodes_bind; [apply encodes_u8|].
  eapply encodes_bind; [apply encodes_u32; zlen_lia|]. eapply encodes_bind; [apply encodes_u32; zlen_lia|].
  apply encodes_guard; [lia|]. apply encodes_guard; [lia|]. rewrite !to_nat_zlen.
  apply encodes_need; [rewrite length_app; lia|]. eapply encodes_bind; [by apply encodes_bytes|].
  assert (Z.testbit (byte_val (if Tombstone e then x01 else x00)) 0 = Tombstone e) as Hflag
    by (destruct (Tombstone e); vm_compute; reflexivity).
  rewrite Hflag. apply encodes_guard.
  { destruct (Tombstone e); [|done]. by rewrite Ht. }
  apply encodes_need; [done|]. destruct e as [k v t]. cbn in *.
  by apply (encodes_last (p_bytes _) (fun v => MkEntry k v t)), encodes_bytes.
Qed.

Lemma sealed_payload_seal body : sealed_payload (with_sum body) = Some body.
Proof.
  unfold sealed_payload. rewrite sum_ok_seal, take_seal, seal_length. by rewrite bool_decide_eq_false_2 by lia.
Qed.

Lemma decodeBlock_encodes es : Forall stored es -> decodeBlock (block_bytes es) = Done es.
Proof.
  intros Hs. unfold decodeBlock, block_bytes. rewrite sealed_payload_seal. apply p_many_encodes; [|done].
  eapply Forall_impl; [exact Hs|]. intros e He. split; [by apply encodes_block_entry|done].
Qed.

Lemma p_block_entry_safe : safe 0 p_block_entry.
Proof.
  unfold p_block_entry, entryHeaderSize. apply safe_need. apply safe_u8; [lia|]. intros fl.
  apply safe_int; [lia|]. intros kl _. apply safe_int; [lia|]. intros vl _.
  apply safe_guard. intros _. apply safe_guard. intros _. apply safe_need. apply safe_bytes; [lia|]. intros k.
  apply safe_guard. intros _. apply safe_need. apply safe_bytes; [lia|]. intros v. apply safe_ret.
Qed.

Lemma decodeBlock_no_panic data : decodeBlock data <> Panic.
Proof. unfold decodeBlock. destruct (sealed_payload data); [|done]. apply p_many_no_panic, p_block_entry_safe. Qed.

(** *** Binary search in a sorted block *)

Definition sorted_entries (es : list Entry) : Prop := StronglySorted blt (Key <$> es).

Lemma sorted_keys_lookup (ks : list bytes) i j a b :
  StronglySorted blt ks -> ks !! i = Some a -> ks !! j = Some b -> (i < j)%nat -> blt a b.
Proof.
  intros Hs. revert i j. induction Hs as [|k ks Hs IH Hall]; intros i j Ha Hb Hij; [by rewrite lookup_nil in Ha|].
  destruct j as [|j]; [lia|]. destruct i as [|i].
  - injection Ha as <-. cbn in Hb. eapply Forall_lookup_1 in Hall; [exact Hall|exact Hb].
  - cbn in Ha, Hb. apply (IH i j); done || lia.
Qed.

Lemma search_entries_spec fuel es lo hi key :
  sorted_entries es -> (lo <= hi <= length es)%nat -> (hi - lo <= fuel)%nat ->
  (forall i e, es !! i = Some e -> Key e = key -> (lo <= i < hi)%nat) ->
  search_entries fuel es lo hi key = list_find (fun e => Key e = key) es ≫= (fun p => Some p.2).
Proof.
  intros Hs. revert lo hi. induction fuel as [|fuel IH]; intros lo hi Hb Hf Hin; cbn [search_entries].
  { destruct (list_find _ es) as [[i e]|] eqn:E; [|done]. apply list_find_Some in E as (Hi & Hk & _).
    specialize (Hin i e Hi Hk). lia. }
  case_if; [apply Nat.ltb_lt in E|apply Nat.ltb_ge in E].
  2: { destruct (list_find _ es) as [[i e]|] eqn:E2; [|done]. apply list_find_Some in E2 as (Hi & Hk & _).
       specialize (Hin i e Hi Hk). lia. }
  set (mid := ((lo + hi) / 2)%nat).
  assert (lo <= mid < hi)%nat as Hmid.
  { unfold mid. split; [apply Nat.div_le_lower_bound; lia|apply Nat.div_lt_upper_bound; lia]. }
  destruct (lookup_lt_is_Some_2 es mid ltac:(lia)) as [em Hem].
  rewrite (list_lookup_total_correct _ _ _ Hem).
  assert (forall i e, es !! i = Some e -> (Key <$> es) !! i = Some (Key e)) as Hkey.
  { intros i e Hi. by rewrite list_lookup_fmap, Hi. }
  destruct (bytes_compare (Key em) key) eqn:Ec.
  - apply bytes_compare_eq in Ec. destruct (list_find _ es) as [[i e]|] eqn:E2.
    + apply list_find_Some in E2 as (Hi & Hk & _). cbn. f_equal.
      destruct (Nat.lt_trichotomy i mid) as [Hlt|[->|Hlt]]; [|congruence|].
      * pose proof (sorted_keys_lookup _ _ _ _ _ Hs (Hkey _ _ Hi) (Hkey _ _ Hem) Hlt) as Hl.
        rewrite Hk, Ec in Hl. by apply blt_irrefl in Hl.
      * pose proof (sorted_keys_lookup _ _ _ _ _ Hs (Hkey _ _ Hem) (Hkey _ _ Hi) Hlt) as Hl.
        rewrite Hk, Ec in Hl. by apply blt_irrefl in Hl.
    + eapply list_find_None in E2. eapply Forall_lookup_1 in E2; [|exact Hem]. done.
  - apply IH; [lia|lia|]. intros i e Hi Hk. specialize (Hin i e Hi Hk). split; [|lia].
    destruct (decide (i <= mid)%nat) as [Hle|]; [|lia]. exfalso.
    assert (i = mid \/ i < mid)%nat as [->|Hlt] by lia.
    + rewrite Hem in Hi. injection Hi as <-. rewrite Hk, bytes_compare_refl in Ec. done.
    + pose proof (sorted_keys_lookup _ _ _ _ _ Hs (Hkey _ _ Hi) (Hkey _ _ Hem) Hlt) as Hl. rewrite Hk in Hl.
      apply (blt_irrefl key). by eapply blt_trans.
  - apply IH; [lia|lia|]. intros i e Hi Hk. specialize (Hin i e Hi Hk). split; [lia|].
    destruct (decide (mid <= i)%nat) as [Hle|]; [|lia]. exfalso.
    assert (i = mid \/ mid < i)%nat as [->|Hlt] by lia.
    + rewrite Hem in Hi. injection Hi as <-. rewrite Hk, bytes_compare_refl in Ec. done.
    + pose proof (sorted_keys_lookup _ _ _ _ _ Hs (Hkey _ _ Hem) (Hkey _ _ Hi) Hlt) as Hl. rewrite Hk in Hl.
      unfold blt in Hl. rewrite Ec in Hl. done.
Qed.

Lemma searchBlockEntries_spec es key :
  sorted_entries es -> searchBlockEntries es key = list_find (fun e => Key e = key) es ≫= (fun p => Some p.2).
Proof.
  intros Hs. apply search_entries_spec; [done|lia|lia|]. intros i e Hi _. apply lookup_lt_Some in Hi. lia.
Qed.

(** ** The index: index.go *)

Definition indexEntryHeaderSize : nat := 20.

Record indexEntry := MkIndex { firstKey : bytes; blockOffset : Z; blockLength : Z }.
#[export] Instance indexEntry_inhabited : Inhabited indexEntry := populate (MkIndex [] 0 0).

Definition index_entry_bytes (e : indexEntry) : bytes :=
  put_u32 (zlen (firstKey e)) ++ put_u64 (blockOffset e) ++ put_u64 (blockLength e) ++ firstKey e.

Definition index_key_ok (e : indexEntry) : bool :=
  negb (bool_decide (firstKey e = [])) && (zlen (firstKey e) <=? maxKeySize).

Definition encodeIndex (entries : list indexEntry) : result sst_error bytes :=
  if forallb index_key_ok entries then Ok (with_sum (concat (index_entry_bytes <$> entries))) else Err ErrIndexKey.

Definition p_index_entry : parser indexEntry :=
  _ ← p_need indexEntryHeaderSize;
  keyLen ← p_u32; offset ← p_u64; len ← p_u64;
  _ ← p_guard (negb (keyLen =? 0) && (keyLen <=? maxKeySize));
  _ ← p_need (Z.to_nat keyLen); key ← p_bytes (Z.to_nat keyLen);
  mret (MkIndex key offset len).

Definition decodeIndex (data : bytes) : outcome (list indexEntry) :=
  match sealed_payload data with
  | None => Fail
  | Some payload => p_many (length payload) p_index_entry payload
  end.

Definition index_ok (e : indexEntry) : Prop :=
  index_key_ok e = true /\ is_u64 (blockOffset e) /\ is_u64 (blockLength e).

Lemma encodes_index e : index_ok e -> encodes p_index_entry e (index_entry_bytes e).
Proof.
  intros (Hk & Ho & Hl). unfold index_key_ok, maxKeySize in Hk. zbool. unfold p_index_entry, index_entry_bytes, maxKeySize.
  assert (0 < zlen (firstKey e)) by (destruct (firstKey e); [done|zlen_lia]).
  apply encodes_need; [rewrite !length_app, !le_put_length; unfold indexEntryHeaderSize; lia|].
  eapply encodes_bind; [apply encodes_u32; zlen_lia|]. eapply encodes_bind; [by apply encodes_u64|].
  eapply encodes_bind; [by apply encodes_u64|]. apply encodes_guard; [lia|]. rewrite to_nat_zlen.
  apply encodes_need; [done|]. destruct e as [k o l]. cbn in *.
  by apply (encodes_last (p_bytes _) (fun k => MkIndex k o l)), encodes_bytes.
Qed.

Lemma decodeIndex_encodes es b : Forall index_ok es -> encodeIndex es = Ok b -> decodeIndex b = Done es.
Proof.
  intros Hs. unfold encodeIndex. case_if; [|done]. intros [= <-]. unfold decodeIndex. rewrite sealed_payload_seal.
  apply p_many_encodes; [|done]. eapply Forall_impl; [exact Hs|]. intros e He. split; [by apply encodes_index|done].
Qed.

Lemma p_index_entry_safe : safe 0 p_index_entry.
Proof.
  unfold p_index_entry, indexEntryHeaderSize. apply safe_need. apply safe_int; [lia|]. intros kl _.
  apply safe_int; [lia|]. intros o _. apply safe_int; [lia|]. intros ln _. apply safe_guard. intros _.
  apply safe_need. apply safe_bytes; [lia|]. intros k. apply safe_ret.
Qed.

(** ** Metadata: meta.go *)

Record sstableMeta := MkMeta { numEntries : Z; minKey : bytes; maxKey : bytes }.

Definition encodeMeta (m : sstableMeta) : bytes :=
  with_sum (put_u64 (numEntries m) ++ put_field (minKey m) ++ put_field (maxKey m)).

Definition p_meta_key : parser bytes :=
  _ ← p_need 4; len ← p_u32;
  _ ← p_guard (negb (len =? 0) && (len <=? maxKeySize));
  _ ← p_need (Z.to_nat len); p_bytes (Z.to_nat len).

Definition p_meta : parser sstableMeta :=
  _ ← p_need 8; n ← p_u64; lo ← p_meta_key; hi ← p_meta_key; _ ← p_need 4; mret (MkMeta n lo hi).

Definition decodeMeta (data : bytes) : outcome sstableMeta :=
  match p_meta data with
  | Done (m, rest) => if negb (length rest =? 4)%nat then Fail else if sum_ok data then Done m else Fail
  | Fail => Fail
  | Panic => Panic
  end.

Lemma encodes_meta_key k : k <> [] -> zlen k <= maxKeySize -> encodes p_meta_key k (put_field k).
Proof.
  intros Hne Hk. unfold p_meta_key, put_field, maxKeySize in *. assert (0 < zlen k) by (destruct k; [done|zlen_lia]).
  apply encodes_need; [rewrite length_app, le_put_length; lia|].
  eapply encodes_bind; [apply encodes_u32; zlen_lia|]. apply encodes_guard; [lia|]. rewrite to_nat_zlen.
  apply encodes_need; [done|]. by apply encodes_bytes.
Qed.

Definition meta_ok (m : sstableMeta) : Prop :=
  is_u64 (numEntries m) /\ minKey m <> [] /\ zlen (minKey m) <= maxKeySize /\
  maxKey m <> [] /\ zlen (maxKey m) <= maxKeySize.

Lemma decodeMeta_encodes m : meta_ok m -> decodeMeta (encodeMeta m) = Done m.
Proof.
  intros (Hn & Hm & Hml & HM & HMl). unfold decodeMeta.
  assert (p_meta (encodeMeta m) = Done (m, put_u32 (checksum
    (put_u64 (numEntries m) ++ put_field (minKey m) ++ put_field (maxKey m))))) as ->.
  { unfold encodeMeta, with_sum, p_meta. rewrite <- !app_assoc. set (tail := put_u32 _).
    assert (length tail = 4%nat) as Ht by apply le_put_length.
    unfold mbind, parser_bind at 1. unfold p_need at 1.
    rewrite bool_decide_eq_true_2 by (rewrite !length_app, le_put_length; lia).
    unfold mbind, parser_bind at 1. rewrite (encodes_u64 _ Hn).
    unfold mbind, parser_bind at 1. rewrite (encodes_meta_key _ Hm Hml).
    unfold mbind, parser_bind at 1. rewrite (encodes_meta_key _ HM HMl).
    unfold mbind, parser_bind, p_need. rewrite bool_decide_eq_true_2 by lia. by destruct m. }
  rewrite le_put_length. cbn [Nat.eqb negb]. unfold encodeMeta. by rewrite sum_ok_seal.
Qed.

(** ** The footer: footer.go *)

Definition magic : bytes := [x46; x6f; x72; x67; x65; x53; x53; x54].
Definition formatVersion1 : Z := 1.
Definition footerSize : nat := 64.

Record footer := MkFooter {
  indexOffset : Z; indexLength : Z; bloomOffset : Z; bloomLength : Z; metaOffset : Z; metaLength : Z }.

Definition encodeFooter (f : footer) : bytes :=
  with_sum (magic ++ put_u32 formatVersion1 ++ put_u64 (indexOffset f) ++ put_u64 (indexLength f)
    ++ put_u64 (bloomOffset f) ++ put_u64 (bloomLength f) ++ put_u64 (metaOffset f) ++ put_u64 (metaLength f)).

Definition validateSection (offset len bodySize : Z) : bool :=
  if len =? 0 then false else if offset >? bodySize then false else negb (len >? u64 (bodySize - offset)).

Definition decodeFooter (buf : bytes) (fileBodySize : Z) : outcome footer :=
  if negb (length buf =? footerSize)%nat then Fail
  else if negb (bool_decide (slice 0 8 buf = magic)) then Fail
  else if negb (le_get (slice 8 12 buf) =? formatVersion1) then Fail
  else if negb (sum_ok buf) then Fail
  else
    let f := MkFooter (le_get (slice 12 20 buf)) (le_get (slice 20 28 buf)) (le_get (slice 28 36 buf))
               (le_get (slice 36 44 buf)) (le_get (slice 44 52 buf)) (le_get (slice 52 60 buf)) in
    if validateSection (indexOffset f) (indexLength f) fileBodySize
       && validateSection (bloomOffset f) (bloomLength f) fileBodySize
       && validateSection (metaOffset f) (metaLength f) fileBodySize
    then Done f else Fail.

Definition section_ok (offset len bodySize : Z) : Prop := 0 <= offset /\ 0 < len /\ offset + len <= bodySize.

Lemma validateSection_ok offset len bodySize :
  is_u64 offset -> is_u64 len -> is_u64 bodySize ->
  validateSection offset len bodySize = true <-> section_ok offset len bodySize.
Proof.
  intros Ho Hl Hb. unfold validateSection, section_ok, is_u64 in *. case_if; zbool; [split; [done|lia]|].
  case_if; zbool; [split; [done|lia]|]. rewrite u64_small by (unfold is_u64; lia).
  rewrite negb_true_iff, Z.gtb_ltb, Z.ltb_ge. lia.
Qed.

Definition footer_ok (f : footer) (bodySize : Z) : Prop :=
  section_ok (indexOffset f) (indexLength f) bodySize /\ section_ok (bloomOffset f) (bloomLength f) bodySize /\
  section_ok (metaOffset f) (metaLength f) bodySize.

Lemma encodeFooter_length f : length (encodeFooter f) = footerSize.
Proof. unfold encodeFooter. rewrite seal_length, !length_app, !le_put_length. done. Qed.

Lemma decodeFooter_encodes f bodySize :
  is_u64 bodySize -> footer_ok f bodySize -> decodeFooter (encodeFooter f) bodySize = Done f.
Proof.
  intros Hb Hf. assert (is_u64 (indexOffset f) /\ is_u64 (indexLength f) /\ is_u64 (bloomOffset f) /\
    is_u64 (bloomLength f) /\ is_u64 (metaOffset f) /\ is_u64 (metaLength f)) as (U1 & U2 & U3 & U4 & U5 & U6).
  { unfold footer_ok, section_ok, is_u64 in *. lia. }
  unfold decodeFooter. rewrite encodeFooter_length, Nat.eqb_refl. cbn [negb].
  assert (sum_ok (encodeFooter f) = true) as -> by apply sum_ok_seal.
  unfold encodeFooter, with_sum. rewrite <- !app_assoc.
  rewrite (slice_app_exact 8 magic) by done. rewrite bool_decide_eq_true_2 by done. cbn [negb].
  rewrite !(slice_app_skip _ _ magic) by (cbn; lia). cbn [length magic Nat.sub]. slices.
  rewrite le_get_put_u32 by (vm_compute; split; congruence). rewrite !le_get_put_u64 by done. cbn [negb Z.eqb formatVersion1 Pos.eqb].
  cbn [indexOffset indexLength bloomOffset bloomLength metaOffset metaLength].
  destruct Hf as (H1 & H2 & H3). rewrite (proj2 (validateSection_ok _ _ _ U1 U2 Hb) H1),
    (proj2 (validateSection_ok _ _ _ U3 U4 Hb) H2), (proj2 (validateSection_ok _ _ _ U5 U6 Hb) H3).
  by destruct f.
Qed.

(** ** The Bloom filter: bloom.go *)

Record bloomFilter := MkBloom { numHashes : Z; numBits : Z; bits : bytes }.

Definition maxBloomBits : Z := 2 ^ 34.

(** [newBloomFilter] from the values [m] and [k] of its two floating-point
    formulas on. *)
Definition newBloomFilter (m k : Z) : bloomFilter :=
  let m := if m <? 64 then 64 else m in
  let k := if k <? 1 then 1 else k in
  let k := if k >? 30 then 30 else k in
  let numBits := u64 m in
  MkBloom k numBits (replicate (Z.to_nat (u64 (numBits + 7) / 8)) x00).

(** hash/fnv: FNV-1a and FNV-1, 64 bits. *)
Definition fnv_offset : Z := 14695981039346656037.
Definition fnv_prime : Z := 1099511628211.
Definition fnv1a (key : bytes) : Z :=
  fold_left (fun h b => u64 (Z.lxor h (byte_val b) * fnv_prime)) key fnv_offset.
Definition fnv1 (key : bytes) : Z :=
  fold_left (fun h b => Z.lxor (u64 (h * fnv_prime)) (byte_val b)) key fnv_offset.

Definition probe (b : bloomFilter) (key : bytes) (i : Z) : Z :=
  u64 (fnv1a key + u64 (i * fnv1 key)) mod numBits b.

Definition probes (b : bloomFilter) (key : bytes) : list Z :=
  probe b key <$> (Z.of_nat <$> seq 0 (Z.to_nat (numHashes b))).

Definition set_bit (l : bytes) (idx : Z) : bytes :=
  let i := Z.to_nat (idx / 8) in
  <[i := byte_of (Z.lor (byte_val (l !!! i)) (Z.shiftl 1 (idx mod 8)))]> l.

Definition bit_set (l : bytes) (idx : Z) : bool :=
  negb (Z.land (byte_val (l !!! Z.to_nat (idx / 8))) (Z.shiftl 1 (idx mod 8)) =? 0).

Definition bloom_add (b : bloomFilter) (key : bytes) : bloomFilter :=
  MkBloom (numHashes b) (numBits b) (fold_left set_bit (probes b key) (bits b)).

Definition mightContain (b : bloomFilter) (key : bytes) : bool := forallb (bit_set (bits b)) (probes b key).

Definition bloom_header : nat := 13.

Definition encodeBloom (b : bloomFilter) : bytes :=
  with_sum ([byte_of (numHashes b)] ++ put_u64 (numBits b) ++ put_u32 (zlen (bits b)) ++ bits b).

Definition decodeBloom (data : bytes) : outcome bloomFilter :=
  if bool_decide (length data < bloom_header + 4)%nat then Fail
  else
    let numHashes := byte_val (data !!! 0%nat) in
    let numBits := le_get (slice 1 9 data) in
    let bitsLen := le_get (slice 9 13 data) in
    if (numHashes =? 0) || (numHashes >? 64) then Fail
    else if (numBits =? 0) || (numBits >? maxBloomBits) then Fail
    else if negb (bitsLen =? u64 (numBits + 7) / 8) then Fail
    else if negb (zlen data =? Z.of_nat bloom_header + bitsLen + 4) then Fail
    else if negb (sum_ok data) then Fail
    else Done (MkBloom numHashes numBits (slice bloom_header (bloom_header + Z.to_nat bitsLen) data)).

(** The bit array is as long as the bit count says: every probe is in
    range. *)
Record bloom_ok (b : bloomFilter) : Prop := {
  B_hashes : 1 <= numHashes b <= 30;
  B_bits : 0 < numBits b <= maxBloomBits;
  B_len : zlen (bits b) = (numBits b + 7) / 8 }.

Lemma newBloomFilter_ok m k : m <= maxBloomBits -> bloom_ok (newBloomFilter m k).
Proof.
  intros Hm. unfold newBloomFilter, maxBloomBits in *. set (m' := if m <? 64 then 64 else m).
  assert (64 <= m' <= 2 ^ 34) as Hm' by (unfold m'; case_if; zbool; lia).
  rewrite !(u64_small m'), u64_small by (unfold is_u64; lia). split; cbn [numHashes numBits bits].
  - repeat case_if; zbool; lia.
  - unfold maxBloomBits. lia.
  - unfold zlen. rewrite length_replicate, Z2Nat.id; [done|]. apply Z.div_pos; lia.
Qed.

Lemma probe_range b key i : bloom_ok b -> 0 <= probe b key i < numBits b.
Proof. intros Hb. apply Z.mod_pos_bound. pose proof (B_bits _ Hb). lia. Qed.

Lemma probes_range b key : bloom_ok b -> Forall (fun idx => 0 <= idx < numBits b) (probes b key).
Proof.
  intros Hb. apply Forall_forall. intros x (i & -> & _)%list_elem_of_fmap. by apply probe_range.
Qed.

Lemma set_bit_length l idx : length (set_bit l idx) = length l.
Proof. apply length_insert. Qed.

Lemma bit_set_testbit l idx :
  0 <= idx -> bit_set l idx = Z.testbit (byte_val (l !!! Z.to_nat (idx / 8))) (idx mod 8).
Proof.
  intros Hi. unfold bit_set. pose proof (Z.mod_pos_bound idx 8 ltac:(lia)) as Hm.
  set (v := byte_val _). set (k := idx mod 8) in *.
  assert (Z.land v (Z.shiftl 1 k) = if Z.testbit v k then 2 ^ k else 0) as ->.
  { apply Z.bits_inj'. intros n Hn. rewrite Z.land_spec, Z.shiftl_1_l, Z.pow2_bits_eqb by lia.
    destruct (Z.eqb_spec k n) as [->|Hne].
    - rewrite andb_true_r. destruct (Z.testbit v n); [by rewrite Z.pow2_bits_eqb, Z.eqb_refl by lia|by rewrite Z.bits_0].
    - rewrite andb_false_r. destruct (Z.testbit v k); [|by rewrite Z.bits_0].
      by rewrite Z.pow2_bits_eqb, (proj2 (Z.eqb_neq _ _)) by lia. }
  destruct (Z.testbit v k); [|done]. rewrite (proj2 (Z.eqb_neq _ _)); [done|]. lia.
Qed.

Lemma set_bit_spec l idx j :
  0 <= idx -> 0 <= j -> idx / 8 < zlen l ->
  bit_set (set_bit l idx) j = bit_set l j || (idx =? j).
Proof.
  intros Hi Hj Hr. rewrite !bit_set_testbit by done. unfold set_bit, zlen in *.
  pose proof (Z.mod_pos_bound idx 8 ltac:(lia)). pose proof (Z.mod_pos_bound j 8 ltac:(lia)).
  pose proof (Z.div_pos idx 8 ltac:(lia) ltac:(lia)). pose proof (Z.div_pos j 8 ltac:(lia) ltac:(lia)).
  pose proof (Z.div_mod idx 8 ltac:(lia)). pose proof (Z.div_mod j 8 ltac:(lia)).
  destruct (decide (j / 8 = idx / 8)) as [E|E].
  - rewrite E, list_lookup_total_insert_eq by lia.
    rewrite byte_val_of. rewrite <- Z.land_ones with (n := 8) by lia.
    rewrite Z.land_spec, Z.lor_spec, Z.shiftl_1_l, Z.pow2_bits_eqb, Z.ones_spec_low by lia.
    rewrite andb_true_r. f_equal. apply eq_true_iff_eq. rewrite !Z.eqb_eq. lia.
  - rewrite list_lookup_total_insert_ne by lia. rewrite (proj2 (Z.eqb_neq idx j)), orb_false_r; [done|]. congruence.
Qed.

Lemma fold_set_bits l idxs j n :
  0 <= j -> Forall (fun idx => 0 <= idx < n) idxs -> (n + 7) / 8 <= zlen l ->
  bit_set (fold_left set_bit idxs l) j = bit_set l j || existsb (fun i => i =? j) idxs.
Proof.
  intros Hj Hall. revert l. induction Hall as [|i idxs Hi _ IH]; intros l Hl; cbn; [by rewrite orb_false_r|].
  assert (i / 8 < (n + 7) / 8) as Hlt.
  { apply Z.div_lt_upper_bound; [lia|]. pose proof (Z.mod_pos_bound (n + 7) 8 ltac:(lia)).
    pose proof (Z.div_mod (n + 7) 8 ltac:(lia)). lia. }
  rewrite IH by (unfold zlen in *; rewrite set_bit_length; lia). rewrite set_bit_spec by lia. by rewrite orb_assoc.
Qed.

Lemma fold_set_length l idxs : length (fold_left set_bit idxs l) = length l.
Proof. revert l. induction idxs as [|i idxs IH]; intros l; cbn; [done|]. by rewrite IH, set_bit_length. Qed.

Lemma bloom_add_ok b key : bloom_ok b -> bloom_ok (bloom_add b key).
Proof. intros [H1 H2 H3]. split; cbn; [done|done|]. unfold zlen in *. by rewrite fold_set_length. Qed.

Lemma bloom_add_spec b key key' :
  bloom_ok b -> mightContain b key' = true \/ key' = key -> mightContain (bloom_add b key) key' = true.
Proof.
  intros Hb Hor. unfold mightContain. apply forallb_forall. intros j Hj%list_elem_of_In.
  change (probes (bloom_add b key) key') with (probes b key') in Hj.
  pose proof (probes_range b key' Hb) as Hr. rewrite Forall_forall in Hr. specialize (Hr j Hj). cbn.
  rewrite (fold_set_bits _ _ _ (numBits b)) by (lia || apply probes_range, Hb || rewrite (B_len _ Hb); lia).
  destruct Hor as [Hm|<-]; apply orb_true_iff.
  - left. unfold mightContain in Hm. eapply forallb_forall in Hm; [exact Hm|by apply list_elem_of_In].
  - right. apply existsb_exists. exists j. split; [by apply list_elem_of_In|apply Z.eqb_refl].
Qed.

(** No false negatives: every key that was added is reported. *)
Lemma bloom_no_false_negative b keys key :
  bloom_ok b -> key ∈ keys \/ mightContain b key = true -> mightContain (fold_left bloom_add keys b) key = true.
Proof.
  revert b. induction keys as [|k keys IH]; intros b Hb Hin; cbn; [by destruct Hin as [?%not_elem_of_nil|]|].
  apply IH; [by apply bloom_add_ok|]. destruct Hin as [[->|Hin]%elem_of_cons|Hm]; [|by left|].
  - right. apply bloom_add_spec; [done|by right].
  - right. apply bloom_add_spec; [done|by left].
Qed.

Lemma fold_bloom_ok keys b : bloom_ok b -> bloom_ok (fold_left bloom_add keys b).
Proof. revert b. induction keys as [|k keys IH]; intros b Hb; cbn; [done|]. by apply IH, bloom_add_ok. Qed.

Lemma encodeBloom_length b : length (encodeBloom b) = (bloom_header + length (bits b) + 4)%nat.
Proof. unfold encodeBloom, bloom_header. rewrite seal_length, !length_app, !le_put_length. cbn. lia. Qed.

Lemma encodeBloom_fields b :
  encodeBloom b !!! 0%nat = byte_of (numHashes b) /\ slice 1 9 (encodeBloom b) = put_u64 (numBits b) /\
  slice 9 13 (encodeBloom b) = put_u32 (zlen (bits b)) /\
  slice 13 (13 + length (bits b)) (encodeBloom b) = bits b.
Proof.
  unfold encodeBloom, with_sum. rewrite <- !app_assoc. split; [done|]. split_and!.
  - rewrite slice_app_skip by (cbn; lia). cbn [length Nat.sub]. by apply slice_app_exact.
  - rewrite slice_app_skip by (cbn; lia). cbn [length Nat.sub].
    rewrite slice_app_skip by (rewrite le_put_length; lia). rewrite le_put_length. cbn [Nat.sub].
    by apply slice_app_exact.
  - rewrite slice_app_skip by (cbn; lia). cbn [length].
    rewrite slice_app_skip by (rewrite le_put_length; lia). rewrite slice_app_skip by (rewrite !le_put_length; lia).
    rewrite !le_put_length. cbn [Nat.sub Nat.add]. apply slice_app_exact. lia.
Qed.

Lemma decodeBloom_encodes b : bloom_ok b -> decodeBloom (encodeBloom b) = Done b.
Proof.
  intros [H1 H2 H3]. unfold maxBloomBits in H2. unfold decodeBloom, bloom_header.
  destruct (encodeBloom_fields b) as (-> & -> & -> & Hbits).
  pose proof (encodeBloom_length b) as Hlen. unfold bloom_header in Hlen.
  rewrite bool_decide_eq_false_2 by lia.
  assert (0 <= (numBits b + 7) / 8 < 2 ^ 32) as Hr.
  { split; [apply Z.div_pos; lia|apply Z.div_lt_upper_bound; lia]. }
  assert (sum_ok (encodeBloom b) = true) as -> by apply sum_ok_seal.
  rewrite byte_val_of, Z.mod_small, (le_get_put_u64 (numBits b)), le_get_put_u32
    by (unfold is_u64, is_u32; lia).
  rewrite H3, (u64_small (_ + 7)) by (unfold is_u64; lia).
  rewrite !(proj2 (Z.eqb_neq _ _)) by lia. unfold maxBloomBits. rewrite !Z.gtb_ltb, !(proj2 (Z.ltb_ge _ _)) by lia.
  cbn [orb]. rewrite Z.eqb_refl. cbn [negb].
  rewrite (proj2 (Z.eqb_eq _ _)) by (rewrite <- H3; unfold zlen; lia). cbn [negb].
  rewrite <- H3, to_nat_zlen, Hbits. by destruct b.
Qed.
