(* ===== verification/SsTable.v ===== *)
(** * SSTables

    internal/storage/sstable: the writer (writer.go), the reader (reader.go)
    and the iterator (iterator.go). A table is the byte string [Build] hands
    to atomicfile.Write and [Open] reads back. *)

From S2P Require Import Prelude Bytes Codec SstFormat.
From stdpp Require Import base tactics list numbers sorting.
From Stdlib Require Import Strings.Byte.
From Stdlib Require Import ZArith Lia.
#[local] Open Scope Z_scope.

(** ** The writer *)

Definition defaultBlockSize : Z := 4096.

Record Writer := MkWriter { w_entries : list Entry; w_lastKey : option bytes }.
Definition NewWriter : Writer := MkWriter [] None.

Definition Add (w : Writer) (key value : bytes) (tombstone : bool) : result sst_error Writer :=
  if bool_decide (key = []) then Err ErrEmptyKey
  else if match w_lastKey w with
          | Some last => match bytes_compare key last with Gt => false | _ => true end
          | None => false
          end then Err ErrNotIncreasing
  else Ok (MkWriter (w_entries w ++ [MkEntry key (if tombstone then [] else value) tombstone]) (Some key)).

Record build_state := MkBuild {
  bs_body : bytes;
  bs_index : list indexEntry;
  bs_block : list Entry;
  bs_size : Z }.

Definition flushBlock (st : build_state) : result sst_error build_state :=
  if bool_decide (bs_block st = []) then Ok st
  else
    encoded ← encodeBlock (bs_block st);
    mret (MkBuild (bs_body st ++ encoded)
            (bs_index st ++ [MkIndex (Key (bs_block st !!! 0%nat)) (zlen (bs_body st)) (zlen encoded)]) [] 0).

Definition add_entry (st : build_state) (e : Entry) : result sst_error build_state :=
  let st := MkBuild (bs_body st) (bs_index st) (bs_block st ++ [e])
              (bs_size st + Z.of_nat entryHeaderSize + zlen (Key e) + zlen (Value e)) in
  if bs_size st >=? defaultBlockSize then flushBlock st else Ok st.

Fixpoint add_entries (st : build_state) (es : list Entry) : result sst_error build_state :=
  match es with
  | [] => flushBlock st
  | e :: es => st ← add_entry st e; add_entries st es
  end.

(** [m] and [k] are the values of [newBloomFilter]'s two formulas. *)
Definition Build (m k : Z) (w : Writer) : result sst_error bytes :=
  if bool_decide (w_entries w = []) then Err ErrNoEntries
  else
    st ← add_entries (MkBuild [] [] [] 0) (w_entries w);
    let body := bs_body st in
    let indexOffset := zlen body in
    indexBytes ← encodeIndex (bs_index st);
    let body := body ++ indexBytes in
    let bloom := fold_left bloom_add (Key <$> w_entries w) (newBloomFilter m k) in
    let bloomOffset := zlen body in
    let bloomBytes := encodeBloom bloom in
    let body := body ++ bloomBytes in
    let metaOffset := zlen body in
    let metaBytes := encodeMeta (MkMeta (zlen (w_entries w)) (Key (w_entries w !!! 0%nat))
                                   (Key (w_entries w !!! (length (w_entries w) - 1)%nat))) in
    let body := body ++ metaBytes in
    mret (body ++ encodeFooter (MkFooter indexOffset (zlen indexBytes) bloomOffset (zlen bloomBytes)
                                  metaOffset (zlen metaBytes))).

(** ** The reader *)

Record Reader := MkReader {
  r_data : bytes;
  r_index : list indexEntry;
  r_bloom : bloomFilter;
  r_meta : sstableMeta }.

(** [ReadAt] of a range that lies in the file. *)
Definition readAt (data : bytes) (offset len : Z) : bytes := slice (Z.to_nat offset) (Z.to_nat (offset + len)) data.

Definition in_data_region (indexOffset : Z) (e : indexEntry) : bool :=
  negb ((blockOffset e >? indexOffset) || (blockLength e >? u64 (indexOffset - blockOffset e))).

Definition open (data : bytes) : outcome Reader :=
  if bool_decide (length data < footerSize)%nat then Fail
  else
    let bodySize := zlen data - Z.of_nat footerSize in
    match decodeFooter (readAt data bodySize (Z.of_nat footerSize)) bodySize with
    | Done ft =>
        match decodeIndex (readAt data (indexOffset ft) (indexLength ft)) with
        | Done index =>
            match decodeBloom (readAt data (bloomOffset ft) (bloomLength ft)) with
            | Done bloom =>
                match decodeMeta (readAt data (metaOffset ft) (metaLength ft)) with
                | Done meta =>
                    if forallb (in_data_region (indexOffset ft)) index
                    then Done (MkReader data index bloom meta) else Fail
                | Fail => Fail | Panic => Panic
                end
            | Fail => Fail | Panic => Panic
            end
        | Fail => Fail | Panic => Panic
        end
    | Fail => Fail | Panic => Panic
    end.

Fixpoint candidate_loop (fuel : nat) (index : list indexEntry) (lo hi : nat) (key : bytes) : nat :=
  match fuel with
  | O => lo
  | S fuel =>
      if (lo <? hi)%nat then
        let mid := ((lo + hi) / 2)%nat in
        match bytes_compare (firstKey (index !!! mid)) key with
        | Gt => candidate_loop fuel index lo mid key
        | _ => candidate_loop fuel index (mid + 1) hi key
        end
      else lo
  end.

(** [-1] is [None]. *)
Definition candidateBlock (r : Reader) (key : bytes) : option nat :=
  match candidate_loop (length (r_index r)) (r_index r) 0 (length (r_index r)) key with
  | O => None
  | S i => Some i
  end.

Inductive Result := NotFound | Found (value : bytes) | Tombstoned.

Definition read_block (r : Reader) (i : nat) : outcome (list Entry) :=
  let loc := r_index r !!! i in decodeBlock (readAt (r_data r) (blockOffset loc) (blockLength loc)).

Definition Get (r : Reader) (key : bytes) : outcome Result :=
  if bool_decide (key = []) then Fail
  else if negb (mightContain (r_bloom r) key) then Done NotFound
  else match candidateBlock r key with
       | None => Done NotFound
       | Some i =>
           match read_block r i with
           | Done entries =>
               match searchBlockEntries entries key with
               | None => Done NotFound
               | Some e => Done (if Tombstone e then Tombstoned else Found (Value e))
               end
           | Fail => Fail
           | Panic => Panic
           end
       end.

Definition Count (r : Reader) : Z := numEntries (r_meta r).
Definition MinKey (r : Reader) : bytes := minKey (r_meta r).
Definition MaxKey (r : Reader) : bytes := maxKey (r_meta r).

(** ** The iterator *)

Record Iterator := MkIter { it_nextBlock : nat; it_entries : list Entry; it_pos : Z; it_err : bool }.
Definition NewIterator : Iterator := MkIter 0 [] (-1) false.

(** Every turn of the loop moves to the next block, so the blocks that are
    left and one turn more are enough fuel. *)
Fixpoint next_loop (fuel : nat) (r : Reader) (it : Iterator) : Iterator * bool :=
  match fuel with
  | O => (it, false)
  | S fuel =>
      if it_pos it + 1 <? zlen (it_entries it) then
        (MkIter (it_nextBlock it) (it_entries it) (it_pos it + 1) false, true)
      else if (length (r_index r) <=? it_nextBlock it)%nat then (it, false)
      else match read_block r (it_nextBlock it) with
           | Done entries => next_loop fuel r (MkIter (S (it_nextBlock it)) entries (-1) false)
           | _ => (MkIter (S (it_nextBlock it)) (it_entries it) (it_pos it) true, false)
           end
  end.

Definition Next (r : Reader) (it : Iterator) : Iterator * bool :=
  if it_err it then (it, false) else next_loop (S (S (length (r_index r) - it_nextBlock it))) r it.

Definition iter_Entry (it : Iterator) : Entry := it_entries it !!! Z.to_nat (it_pos it).

(** A caller's loop over the whole table. *)
Fixpoint drain (fuel : nat) (r : Reader) (it : Iterator) : list Entry * bool :=
  match fuel with
  | O => ([], true)
  | S fuel => match Next r it with
              | (it, true) => let '(es, err) := drain fuel r it in (iter_Entry it :: es, err)
              | (it, false) => ([], it_err it)
              end
  end.

(** ** What [Build] lays out *)

Fixpoint index_of (off : Z) (blocks : list (list Entry)) : list indexEntry :=
  match blocks with
  | [] => []
  | b :: blocks => MkIndex (Key (b !!! 0%nat)) off (zlen (block_bytes b)) :: index_of (off + zlen (block_bytes b)) blocks
  end.

Definition blocks_bytes (blocks : list (list Entry)) : bytes := concat (block_bytes <$> blocks).

#[global] Arguments blocks_bytes : simpl never.

Lemma blocks_bytes_cons b l : blocks_bytes (b :: l) = block_bytes b ++ blocks_bytes l.
Proof. done. Qed.

Lemma blocks_bytes_app l k : blocks_bytes (l ++ k) = blocks_bytes l ++ blocks_bytes k.
Proof. unfold blocks_bytes. by rewrite fmap_app, concat_app. Qed.

Lemma index_of_app off l b :
  index_of off (l ++ [b]) =
  index_of off l ++ [MkIndex (Key (b !!! 0%nat)) (off + zlen (blocks_bytes l)) (zlen (block_bytes b))].
Proof.
  revert off. induction l as [|x l IH]; intros off; cbn.
  - by rewrite Z.add_0_r.
  - by rewrite IH, blocks_bytes_cons, zlen_app, Z.add_assoc.
Qed.

Lemma index_of_lookup off blocks i e :
  index_of off blocks !! i = Some e ->
  exists b, blocks !! i = Some b /\ firstKey e = Key (b !!! 0%nat) /\ blockLength e = zlen (block_bytes b) /\
    blockOffset e = off + zlen (blocks_bytes (take i blocks)).
Proof.
  revert off i. induction blocks as [|b blocks IH]; intros off i He; [by destruct i|].
  destruct i as [|i]; cbn in He.
  - injection He as <-. exists b. split_and!; try done. cbn. by rewrite Z.add_0_r.
  - destruct (IH _ _ He) as (b' & H1 & H2 & H3 & H4). exists b'. split_and!; try done.
    rewrite H4, firstn_cons, blocks_bytes_cons, zlen_app. lia.
Qed.

Lemma index_of_length off blocks : length (index_of off blocks) = length blocks.
Proof. revert off. induction blocks as [|b l IH]; intros off; cbn; [done|]. by rewrite IH. Qed.

(** A build state holds whole blocks and one that is still open. *)
Record layout (st : build_state) (blocks : list (list Entry)) (es : list Entry) : Prop := {
  L_entries : concat blocks ++ bs_block st = es;
  L_nonempty : Forall (fun b => b <> []) blocks;
  L_body : bs_body st = blocks_bytes blocks;
  L_index : bs_index st = index_of 0 blocks }.

Lemma flush_layout st blocks es :
  Forall stored es -> layout st blocks es ->
  exists st' blocks', flushBlock st = Ok st' /\ layout st' blocks' es /\ bs_block st' = [].
Proof.
  intros Hs [He Hn Hb Hi]. unfold flushBlock. case_bool_decide as Ec.
  - by exists st, blocks.
  - assert (Forall stored (bs_block st)) as Hsb by (rewrite <- He in Hs; by apply Forall_app in Hs as [_ ?]).
    unfold encodeBlock. rewrite check_entries_ok by done. eexists _, (blocks ++ [bs_block st]).
    split; [reflexivity|]. split; [|done]. split; cbn.
    + rewrite concat_app. cbn. by rewrite app_nil_r, app_nil_r.
    + apply Forall_app. split; [done|]. by apply Forall_singleton.
    + rewrite Hb, blocks_bytes_app, blocks_bytes_cons. unfold blocks_bytes at 3. cbn. by rewrite app_nil_r.
    + by rewrite Hi, index_of_app, Z.add_0_l, Hb.
Qed.

Lemma add_entries_layout es st blocks es0 :
  Forall stored (es0 ++ es) -> layout st blocks es0 ->
  exists st' blocks', add_entries st es = Ok st' /\ layout st' blocks' (es0 ++ es) /\ bs_block st' = [].
Proof.
  revert st blocks es0. induction es as [|e es IH]; intros st blocks es0 Hs HL; cbn [add_entries].
  - rewrite app_nil_r in *. by apply flush_layout with (blocks := blocks).
  - unfold add_entry. set (st1 := MkBuild _ _ _ _).
    assert (layout st1 blocks (es0 ++ [e])) as HL1.
    { destruct HL as [He Hn Hb Hi]. split; try done. cbn. by rewrite <- He, app_assoc. }
    assert (es0 ++ e :: es = (es0 ++ [e]) ++ es) as Eq by (by rewrite <- app_assoc). rewrite Eq in *.
    case_if.
    + destruct (flush_layout st1 blocks (es0 ++ [e])) as (st2 & bl2 & -> & HL2 & _);
        [by apply Forall_app in Hs as [? _]|done|]. cbn. by apply IH with (blocks := bl2).
    + cbn. by apply IH with (blocks := blocks).
Qed.

(** What the table [Build] writes consists of. *)
Record table (m k : Z) (es : list Entry) (blocks : list (list Entry)) (file indexBytes : bytes) : Prop := {
  T_entries : concat blocks = es;
  T_nonempty : Forall (fun b => b <> []) blocks;
  T_index : encodeIndex (index_of 0 blocks) = Ok indexBytes;
  T_file : file =
    let bloom := encodeBloom (fold_left bloom_add (Key <$> es) (newBloomFilter m k)) in
    let meta := encodeMeta (MkMeta (zlen es) (Key (es !!! 0%nat)) (Key (es !!! (length es - 1)%nat))) in
    blocks_bytes blocks ++ indexBytes ++ bloom ++ meta ++
    encodeFooter (MkFooter (zlen (blocks_bytes blocks)) (zlen indexBytes)
      (zlen (blocks_bytes blocks ++ indexBytes)) (zlen bloom)
      (zlen ((blocks_bytes blocks ++ indexBytes) ++ bloom)) (zlen meta)) }.

Lemma block_first b : b <> [] -> b !!! 0%nat ∈ (b : list Entry).
Proof. destruct b; [done|]. intros _. cbn. left. Qed.

Lemma index_key_stored blocks :
  Forall (fun b => b <> []) blocks -> Forall stored (concat blocks) ->
  forallb index_key_ok (index_of 0 blocks) = true.
Proof.
  intros Hn Hs. apply forallb_forall. intros e (i & Hi)%list_elem_of_In%list_elem_of_lookup.
  apply index_of_lookup in Hi as (b & Hb & Hf & _). unfold index_key_ok. rewrite Hf.
  assert (stored (b !!! 0%nat)) as (Hk & Hl & _).
  { eapply Forall_forall in Hs; [exact Hs|]. apply list_elem_of_In, in_concat. exists b.
    split; [apply list_elem_of_In; by eapply list_elem_of_lookup_2|]. apply list_elem_of_In, block_first.
    by eapply Forall_lookup_1 in Hn. }
  rewrite bool_decide_eq_false_2 by done. cbn. by apply Z.leb_le.
Qed.

Lemma Build_layout_ok m k w :
  w_entries w <> [] -> Forall stored (w_entries w) ->
  exists blocks file indexBytes, Build m k w = Ok file /\ table m k (w_entries w) blocks file indexBytes.
Proof.
  intros Hne Hs. unfold Build. rewrite bool_decide_eq_false_2 by done.
  destruct (add_entries_layout (w_entries w) (MkBuild [] [] [] 0) [] []) as (st & blocks & -> & HL & Hb);
    [done|by split|]. cbn [mbind result_bind]. destruct HL as [He Hn Hbody Hi].
  rewrite Hb, app_nil_r in He. cbn in He.
  assert (encodeIndex (bs_index st) = Ok (with_sum (concat (index_entry_bytes <$> index_of 0 blocks)))) as Hix.
  { unfold encodeIndex. rewrite Hi, index_key_stored; [done|done|by rewrite He]. }
  rewrite Hix. cbn [mbind result_bind mret result_ret]. eexists blocks, _, _. split; [reflexivity|].
  split; [done|done|by rewrite <- Hi|]. rewrite Hbody. cbv zeta. by rewrite <- !app_assoc.
Qed.

(** ** What [open] finds *)

Lemma readAt_mid (a b c : bytes) off len :
  off = zlen a -> len = zlen b -> readAt (a ++ b ++ c) off len = b.
Proof.
  intros -> ->. unfold readAt. replace (Z.to_nat (zlen a + zlen b)) with (length a + length b)%nat by (unfold zlen; lia).
  rewrite to_nat_zlen, slice_app_skip by done. rewrite Nat.sub_diag. apply slice_app_exact. lia.
Qed.

Lemma readAt_end (a b : bytes) off len : off = zlen a -> len = zlen b -> readAt (a ++ b) off len = b.
Proof. intros Ho Hl. rewrite <- (app_nil_r b) at 1. by apply readAt_mid. Qed.

Lemma blocks_bytes_split i b (blocks : list (list Entry)) :
  blocks !! i = Some b ->
  blocks_bytes blocks = blocks_bytes (take i blocks) ++ block_bytes b ++ blocks_bytes (drop (S i) blocks).
Proof.
  intros Hb. rewrite <- (take_drop_middle blocks i b Hb) at 1. by rewrite blocks_bytes_app, blocks_bytes_cons.
Qed.

Section OpenTable.
Context (m k : Z) (es : list Entry) (blocks : list (list Entry)) (file indexBytes : bytes).
Context (HT : table m k es blocks file indexBytes) (Hs : Forall stored es) (Hne : es <> []).
Context (Hsize : zlen file < 2 ^ 63) (Hm : m <= maxBloomBits).

Let bloom := fold_left bloom_add (Key <$> es) (newBloomFilter m k).
Let meta := MkMeta (zlen es) (Key (es !!! 0%nat)) (Key (es !!! (length es - 1)%nat)).
Let reader := MkReader file (index_of 0 blocks) bloom meta.

Lemma file_bound : zlen (blocks_bytes blocks) + zlen indexBytes + zlen (encodeBloom bloom) + zlen (encodeMeta meta) + 64
  = zlen file.
Proof using HT.
  rewrite (T_file _ _ _ _ _ _ HT). cbv zeta. rewrite !zlen_app. fold bloom. fold meta.
  unfold zlen at 9. rewrite encodeFooter_length. unfold footerSize. lia.
Qed.

Lemma index_entries_ok : Forall index_ok (index_of 0 blocks) /\
  forallb (in_data_region (zlen (blocks_bytes blocks))) (index_of 0 blocks) = true.
Proof using All.
  pose proof file_bound as Hfb. pose proof (zlen_nonneg indexBytes). pose proof (zlen_nonneg (encodeBloom bloom)).
  pose proof (zlen_nonneg (encodeMeta meta)).
  assert (forall i e, index_of 0 blocks !! i = Some e -> 0 <= blockOffset e /\ 0 <= blockLength e /\
    blockOffset e + blockLength e <= zlen (blocks_bytes blocks)) as Hin.
  { intros i e Hi. apply index_of_lookup in Hi as (b & Hb & _ & -> & ->).
    rewrite (blocks_bytes_split i b blocks Hb), !zlen_app. zlen_lia. }
  assert (forallb index_key_ok (index_of 0 blocks) = true) as Hk.
  { apply index_key_stored; [apply (T_nonempty _ _ _ _ _ _ HT)|]. by rewrite (T_entries _ _ _ _ _ _ HT). }
  split.
  - apply Forall_lookup_2. intros i e Hi. destruct (Hin i e Hi) as (? & ? & ?). split.
    + eapply forallb_forall in Hk; [exact Hk|]. apply list_elem_of_In. by eapply list_elem_of_lookup_2.
    + unfold is_u64. lia.
  - apply forallb_forall. intros e (i & Hi)%list_elem_of_In%list_elem_of_lookup.
    destruct (Hin i e Hi) as (? & ? & ?). unfold in_data_region.
    rewrite u64_small by (unfold is_u64; lia). rewrite !Z.gtb_ltb, !(proj2 (Z.ltb_ge _ _)) by lia. done.
Qed.

Lemma last_elem : es !!! (length es - 1)%nat ∈ es.
Proof using Hne.
  clear HT Hs Hsize Hm bloom meta reader. destruct es as [|e l] eqn:E; [done|]. apply list_elem_of_lookup.
  exists (length (e :: l) - 1)%nat. apply list_lookup_lookup_total_lt. cbn. lia.
Qed.

Lemma meta_fields_ok : meta_ok meta.
Proof using All.
  pose proof file_bound as Hfb.
  pose proof (zlen_nonneg indexBytes). pose proof (zlen_nonneg (encodeBloom bloom)). pose proof (zlen_nonneg (encodeMeta meta)).
  rewrite Forall_forall in Hs. destruct (Hs _ (block_first es Hne)) as (M1 & M2 & _).
  destruct (Hs _ last_elem) as (M3 & M4 & _). split_and!; try done; cbn. split; [apply zlen_nonneg|].
  assert (zlen es <= zlen (blocks_bytes blocks)) as Hle; [|lia].
  rewrite <- (T_entries _ _ _ _ _ _ HT). clear. induction blocks as [|b l IH]; [done|]. cbn [concat]. rewrite blocks_bytes_cons, !zlen_app.
  assert (zlen b <= zlen (block_bytes b)); [|lia]. unfold block_bytes, with_sum. rewrite zlen_app.
  pose proof (zlen_nonneg (put_u32 (checksum (concat (entry_bytes <$> b))))).
  assert (zlen b <= zlen (concat (entry_bytes <$> b))); [|lia]. clear.
  induction b as [|e b IH]; cbn [fmap list_fmap concat]; [done|]. rewrite zlen_cons, zlen_app.
  unfold zlen at 2. rewrite entry_bytes_length. lia.
Qed.

Lemma open_table : open file = Done reader.
Proof using All.
  pose proof file_bound as Hfb. pose proof index_entries_ok as [Hidx Hreg].
  pose proof (T_index _ _ _ _ _ _ HT) as Hix. pose proof (T_file _ _ _ _ _ _ HT) as Hfile. cbv zeta in Hfile.
  fold bloom in Hfile. fold meta in Hfile.
  assert (bloom_ok bloom) as Hbl by (by apply fold_bloom_ok, newBloomFilter_ok).
  assert (0 < zlen indexBytes) as Hil.
  { unfold encodeIndex in Hix. destruct (forallb index_key_ok _); [|done].
    apply (f_equal (fun r => match r with Ok b => length b | Err _ => 0%nat end)) in Hix.
    rewrite seal_length in Hix. unfold zlen. lia. }
  assert (0 < zlen (encodeBloom bloom)) as Hbll by (unfold zlen; rewrite encodeBloom_length; unfold bloom_header; lia).
  assert (0 < zlen (encodeMeta meta)) as Hml by (unfold encodeMeta, zlen; rewrite seal_length; lia).
  pose proof (zlen_nonneg (blocks_bytes blocks)).
  set (ft := MkFooter _ _ _ _ _ _) in Hfile.
  unfold open. rewrite bool_decide_eq_false_2 by (unfold zlen, footerSize in *; lia).
  assert (readAt file (zlen file - Z.of_nat footerSize) (Z.of_nat footerSize) = encodeFooter ft) as ->.
  { rewrite Hfile at 1. rewrite !app_assoc. apply readAt_end.
    - rewrite <- Hfb. rewrite !zlen_app. unfold footerSize. lia.
    - unfold zlen. by rewrite encodeFooter_length. }
  assert (decodeFooter (encodeFooter ft) (zlen file - Z.of_nat footerSize) = Done ft) as ->.
  { apply decodeFooter_encodes; [unfold is_u64, footerSize; lia|].
    unfold footer_ok, section_ok, ft. cbn [indexOffset indexLength bloomOffset bloomLength metaOffset metaLength]. rewrite !zlen_app. unfold footerSize. lia. }
  assert (readAt file (indexOffset ft) (indexLength ft) = indexBytes) as ->
    by (rewrite Hfile; by apply readAt_mid).
  rewrite (decodeIndex_encodes _ _ Hidx Hix).
  assert (readAt file (bloomOffset ft) (bloomLength ft) = encodeBloom bloom) as ->.
  { rewrite Hfile. rewrite (app_assoc (blocks_bytes blocks)). by apply readAt_mid. }
  rewrite decodeBloom_encodes by done.
  assert (readAt file (metaOffset ft) (metaLength ft) = encodeMeta meta) as ->.
  { rewrite Hfile. rewrite (app_assoc (blocks_bytes blocks)), (app_assoc (_ ++ indexBytes)). by apply readAt_mid. }
  rewrite decodeMeta_encodes by apply meta_fields_ok.
  change (indexOffset ft) with (zlen (blocks_bytes blocks)). by rewrite Hreg.
Qed.

Lemma read_block_table i b : blocks !! i = Some b -> read_block reader i = Done b.
Proof using All.
  intros Hb. unfold read_block.
  assert (exists e, index_of 0 blocks !! i = Some e) as [e He].
  { apply lookup_lt_is_Some_2. rewrite index_of_length. by eapply lookup_lt_Some. }
  cbn [r_index reader r_data]. rewrite (list_lookup_total_correct _ _ _ He).
  apply index_of_lookup in He as (b' & Hb' & _ & -> & ->). rewrite Hb in Hb'. injection Hb' as <-.
  pose proof (T_file _ _ _ _ _ _ HT) as ->. cbv zeta. rewrite (blocks_bytes_split i b blocks Hb).
  rewrite <- !app_assoc. rewrite readAt_mid by done. apply decodeBlock_encodes.
  rewrite <- (T_entries _ _ _ _ _ _ HT), <- (take_drop_middle blocks i b Hb), concat_app in Hs.
  apply Forall_app in Hs as [_ Hs']. cbn in Hs'. by apply Forall_app in Hs' as [? _].
Qed.
End OpenTable.

(** ** Lookups *)

Definition find_key (es : list Entry) (key : bytes) : option Entry :=
  list_find (fun e => Key e = key) es ≫= (fun p => Some p.2).

Definition answer (o : option Entry) : Result :=
  match o with
  | None => NotFound
  | Some e => if Tombstone e then Tombstoned else Found (Value e)
  end.

Lemma find_key_Some es key e : find_key es key = Some e -> e ∈ es /\ Key e = key.
Proof.
  unfold find_key. destruct (list_find _ es) as [[i x]|] eqn:E; [|done]. intros [= <-].
  apply list_find_Some in E as (Hi & Hk & _). split; [by eapply list_elem_of_lookup_2|done].
Qed.

Lemma find_key_None es key : find_key es key = None -> forall e, e ∈ es -> Key e <> key.
Proof.
  unfold find_key. destruct (list_find _ es) as [[i x]|] eqn:E; [done|]. intros _.
  apply list_find_None in E. by apply Forall_forall.
Qed.

Lemma find_key_elem es e : sorted_entries es -> e ∈ es -> find_key es (Key e) = Some e.
Proof.
  intros Hs He. destruct (find_key es (Key e)) as [x|] eqn:E; [|by eapply find_key_None in E; [|exact He]].
  apply find_key_Some in E as [Hx Hk]. f_equal. apply list_elem_of_lookup in He as [i Hi].
  apply list_elem_of_lookup in Hx as [j Hj].
  assert (forall i e, es !! i = Some e -> (Key <$> es) !! i = Some (Key e)) as Hkey
    by (intros ? ? Hq; by rewrite list_lookup_fmap, Hq).
  destruct (Nat.lt_trichotomy i j) as [Hlt|[->|Hlt]]; [|congruence|].
  - pose proof (sorted_keys_lookup _ _ _ _ _ Hs (Hkey _ _ Hi) (Hkey _ _ Hj) Hlt) as H.
    rewrite Hk in H. by apply blt_irrefl in H.
  - pose proof (sorted_keys_lookup _ _ _ _ _ Hs (Hkey _ _ Hj) (Hkey _ _ Hi) Hlt) as H.
    rewrite Hk in H. by apply blt_irrefl in H.
Qed.

Lemma sorted_blocks blocks i j b c e e' :
  sorted_entries (concat blocks) -> blocks !! i = Some b -> blocks !! j = Some c -> (i < j)%nat ->
  e ∈ b -> e' ∈ c -> blt (Key e) (Key e').
Proof.
  intros Hs Hb Hc Hij He He'. rewrite <- (take_drop_middle blocks j c Hc), concat_app in Hs.
  unfold sorted_entries in Hs. rewrite fmap_app in Hs. eapply StronglySorted_app_1_elem_of in Hs; [exact Hs| |].
  - apply list_elem_of_fmap_2, list_elem_of_In, in_concat. exists b. split; [|by apply list_elem_of_In].
    apply list_elem_of_In. eapply list_elem_of_lookup_2. by rewrite lookup_take_lt by exact Hij.
  - cbn. apply list_elem_of_fmap_2, elem_of_app. by left.
Qed.

Lemma sorted_block blocks i b : sorted_entries (concat blocks) -> blocks !! i = Some b -> sorted_entries b.
Proof.
  intros Hs Hb. rewrite <- (take_drop_middle blocks i b Hb), concat_app in Hs.
  unfold sorted_entries in *. rewrite fmap_app in Hs. apply StronglySorted_app_1_r in Hs. cbn in Hs.
  rewrite fmap_app in Hs. by apply StronglySorted_app_1_l in Hs.
Qed.

(** The binary search for the last block that does not start after the
    key. *)
Lemma candidate_loop_spec fuel index lo hi key :
  (forall i j a b, index !! i = Some a -> index !! j = Some b -> (i < j)%nat -> blt (firstKey a) (firstKey b)) ->
  (lo <= hi <= length index)%nat -> (hi - lo <= fuel)%nat ->
  (forall i a, index !! i = Some a -> (i < lo)%nat -> ble (firstKey a) key) ->
  (forall i a, index !! i = Some a -> (hi <= i)%nat -> blt key (firstKey a)) ->
  forall i a, index !! i = Some a ->
    ((i < candidate_loop fuel index lo hi key)%nat -> ble (firstKey a) key) /\
    ((candidate_loop fuel index lo hi key <= i)%nat -> blt key (firstKey a)).
Proof.
  intros Hs. revert lo hi. induction fuel as [|fuel IH]; intros lo hi Hb Hf Hlo Hhi i a Ha; cbn [candidate_loop].
  { assert (lo = hi) as -> by lia. split; [by apply (Hlo i a)|by apply (Hhi i a)]. }
  case_if; [apply Nat.ltb_lt in E|apply Nat.ltb_ge in E].
  2: { assert (lo = hi) as -> by lia. split; [by apply (Hlo i a)|by apply (Hhi i a)]. }
  set (mid := ((lo + hi) / 2)%nat).
  assert (lo <= mid < hi)%nat as Hmid.
  { unfold mid. split; [apply Nat.div_le_lower_bound; lia|apply Nat.div_lt_upper_bound; lia]. }
  destruct (lookup_lt_is_Some_2 index mid ltac:(lia)) as [em Hem].
  rewrite (list_lookup_total_correct _ _ _ Hem).
  assert (ble (firstKey em) key -> forall j x, index !! j = Some x -> (j < mid + 1)%nat -> ble (firstKey x) key) as Hleft.
  { intros Hle j x Hj Hlt. destruct (decide (j = mid)) as [->|]; [congruence|]. right.
    pose proof (Hs j mid x em Hj Hem ltac:(lia)) as Hl. destruct Hle as [<-|Hle]; [done|]. by eapply blt_trans. }
  destruct (bytes_compare (firstKey em) key) eqn:Ec.
  - apply bytes_compare_eq in Ec. apply (IH (mid + 1)%nat hi ltac:(lia) ltac:(lia)); try done. apply Hleft. by left.
  - apply (IH (mid + 1)%nat hi ltac:(lia) ltac:(lia)); try done. apply Hleft. by right.
  - apply bytes_compare_gt in Ec. apply (IH lo mid ltac:(lia) ltac:(lia)); try done.
    intros j x Hj Hle. destruct (decide (j = mid)) as [->|]; [congruence|].
    eapply blt_trans; [exact Ec|]. apply (Hs mid j em x); done || lia.
Qed.

Lemma candidate_loop_bound fuel index lo hi key :
  (lo <= hi)%nat -> (candidate_loop fuel index lo hi key <= hi)%nat.
Proof.
  revert lo hi. induction fuel as [|fuel IH]; intros lo hi Hlh; cbn [candidate_loop]; [lia|].
  case_if; [apply Nat.ltb_lt in E|lia]. set (mid := ((lo + hi) / 2)%nat).
  assert (lo <= mid < hi)%nat.
  { unfold mid. split; [apply Nat.div_le_lower_bound; lia|apply Nat.div_lt_upper_bound; lia]. }
  assert (candidate_loop fuel index lo mid key <= hi)%nat by (etrans; [apply IH; lia|lia]).
  destruct (bytes_compare _ _); [apply IH; lia|apply IH; lia|done].
Qed.

Section GetTable.
Context (m k : Z) (es : list Entry) (blocks : list (list Entry)) (file indexBytes : bytes).
Context (HT : table m k es blocks file indexBytes) (Hst : Forall stored es) (Hne : es <> []).
Context (Hsize : zlen file < 2 ^ 63) (Hm : m <= maxBloomBits) (Hsort : sorted_entries es).

Let bloom := fold_left bloom_add (Key <$> es) (newBloomFilter m k).
Let meta := MkMeta (zlen es) (Key (es !!! 0%nat)) (Key (es !!! (length es - 1)%nat)).
Let reader := MkReader file (index_of 0 blocks) bloom meta.

Lemma in_block i b e : blocks !! i = Some b -> e ∈ b -> e ∈ es.
Proof using HT.
  intros Hb He. rewrite <- (T_entries _ _ _ _ _ _ HT). apply list_elem_of_In, in_concat. exists b.
  split; [apply list_elem_of_In; by eapply list_elem_of_lookup_2|by apply list_elem_of_In].
Qed.

Lemma first_in_block i b : blocks !! i = Some b -> b !!! 0%nat ∈ b.
Proof using HT.
  intros Hb. apply block_first. exact (proj1 (Forall_lookup _ _) (T_nonempty _ _ _ _ _ _ HT) i b Hb).
Qed.

Lemma candidate_bounds key i e :
  index_of 0 blocks !! i = Some e ->
  let c := candidate_loop (length (index_of 0 blocks)) (index_of 0 blocks) 0 (length (index_of 0 blocks)) key in
  ((i < c)%nat -> ble (firstKey e) key) /\ ((c <= i)%nat -> blt key (firstKey e)).
Proof using HT Hsort.
  intros He. apply candidate_loop_spec; try done; try lia.
  - intros i' j a b Ha Hb Hij. apply index_of_lookup in Ha as (x & Hx & -> & _).
    apply index_of_lookup in Hb as (y & Hy & -> & _). rewrite <- (T_entries _ _ _ _ _ _ HT) in Hsort.
    eapply (sorted_blocks blocks i' j x y); try done; by eapply first_in_block.
  - intros i' a Ha Hi. apply lookup_lt_Some in Ha. lia.
Qed.

(** A key that is in the table is in the candidate block. *)
Lemma candidate_holds i b e : blocks !! i = Some b -> e ∈ b -> candidateBlock reader (Key e) = Some i.
Proof using HT Hsort.
  intros Hb He. pose proof Hsort as Hsb. rewrite <- (T_entries _ _ _ _ _ _ HT) in Hsb.
  assert (forall j c, blocks !! j = Some c -> exists x, index_of 0 blocks !! j = Some x /\ firstKey x = Key (c !!! 0%nat)) as Hix.
  { intros j c Hc. destruct (lookup_lt_is_Some_2 (index_of 0 blocks) j) as [x Hx].
    - rewrite index_of_length. by eapply lookup_lt_Some.
    - exists x. split; [done|]. apply index_of_lookup in Hx as (c' & Hc' & -> & _). congruence. }
  destruct (Hix i b Hb) as (x & Hx & Hfx). pose proof (candidate_bounds (Key e) i x Hx) as [_ Hhi]. cbv zeta in Hhi.
  unfold candidateBlock. change (r_index reader) with (index_of 0 blocks).
  set (c := candidate_loop _ _ _ _ _) in *.
  assert (ble (Key (b !!! 0%nat)) (Key e)) as Hle.
  { apply list_elem_of_lookup in He as [p Hp]. destruct p as [|p].
    - left. f_equal. by apply list_lookup_total_correct.
    - right. pose proof (sorted_block _ _ _ Hsb Hb) as Hsbl. eapply (sorted_keys_lookup _ 0 (S p) _ _ Hsbl); [..|lia].
      + rewrite list_lookup_fmap. destruct b; [by rewrite lookup_nil in Hp|done].
      + by rewrite list_lookup_fmap, Hp. }
  assert (i < c)%nat as Hic.
  { destruct (decide (i < c)%nat); [done|]. specialize (Hhi ltac:(lia)). rewrite Hfx in Hhi.
    apply not_blt_ble in Hle. by destruct Hle. }
  destruct c as [|c'] eqn:Ec; [lia|]. f_equal. destruct (decide (c' = i)) as [|Hnc]; [done|].
  assert (c <= length blocks)%nat as Hlt.
  { rewrite <- (index_of_length 0 blocks). apply candidate_loop_bound. lia. }
  rewrite Ec in Hlt.
  destruct (lookup_lt_is_Some_2 blocks c' ltac:(lia)) as [d Hd]. destruct (Hix c' d Hd) as (y & Hy & Hfy).
  pose proof (candidate_bounds (Key e) c' y Hy) as [Hlo _]. cbv zeta in Hlo. fold c in Hlo. rewrite Ec in Hlo.
  specialize (Hlo ltac:(lia)). rewrite Hfy in Hlo.
  pose proof (sorted_blocks blocks i c' b d e (d !!! 0%nat) Hsb Hb Hd ltac:(lia) He (first_in_block _ _ Hd)) as Hl.
  apply not_blt_ble in Hlo. done.
Qed.

Lemma Get_table key : key <> [] -> Get reader key = Done (answer (find_key es key)).
Proof using All.
  intros Hk. unfold Get. rewrite bool_decide_eq_false_2 by done.
  assert (bloom_ok (newBloomFilter m k)) as Hb by (by apply newBloomFilter_ok).
  destruct (find_key es key) as [e|] eqn:Ef.
  - apply find_key_Some in Ef as [He <-].
    assert (mightContain (r_bloom reader) (Key e) = true) as ->.
    { apply bloom_no_false_negative; [done|]. left. by apply list_elem_of_fmap_2. }
    cbn [negb]. pose proof He as He'. rewrite <- (T_entries _ _ _ _ _ _ HT) in He'.
    apply list_elem_of_In, in_concat in He' as (b & Hb' & He'). apply list_elem_of_In in Hb', He'.
    apply list_elem_of_lookup in Hb' as [i Hi]. rewrite (candidate_holds i b e Hi He').
    pose proof (read_block_table m k es blocks file indexBytes HT Hst Hne Hsize Hm i b Hi) as Hrb.
    fold bloom in Hrb. fold meta in Hrb. fold reader in Hrb. rewrite Hrb.
    rewrite searchBlockEntries_spec by (eapply sorted_block; [|exact Hi]; by rewrite (T_entries _ _ _ _ _ _ HT)).
    fold (find_key b (Key e)). rewrite find_key_elem; [done| |done].
    eapply sorted_block; [|exact Hi]. by rewrite (T_entries _ _ _ _ _ _ HT).
  - case_if; [done|]. destruct (candidateBlock reader key) as [i|] eqn:Ei; [|done].
    destruct (blocks !! i) as [b|] eqn:Eb.
    + pose proof (read_block_table m k es blocks file indexBytes HT Hst Hne Hsize Hm i b Eb) as Hrb.
      fold bloom in Hrb. fold meta in Hrb. fold reader in Hrb. rewrite Hrb.
      rewrite searchBlockEntries_spec by (eapply sorted_block; [|exact Eb]; by rewrite (T_entries _ _ _ _ _ _ HT)).
      fold (find_key b key). destruct (find_key b key) as [e|] eqn:Efb; [|done].
      apply find_key_Some in Efb as [He Hke]. eapply find_key_None in Ef; [done|]. by eapply in_block.
    + exfalso. apply lookup_ge_None in Eb. unfold candidateBlock in Ei.
      pose proof (candidate_loop_bound (length (index_of 0 blocks)) (index_of 0 blocks) 0
        (length (index_of 0 blocks)) key ltac:(lia)) as Hbd.
      change (r_index reader) with (index_of 0 blocks) in Ei. rewrite index_of_length in Hbd, Ei.
      destruct (candidate_loop _ _ _ _ _); simplify_eq. lia.
Qed.
End GetTable.

(** ** Iteration *)

Section Iterate.
Context (r : Reader) (blocks : list (list Entry)).
Context (Hlen : length (r_index r) = length blocks).
Context (Hread : forall i b, blocks !! i = Some b -> read_block r i = Done b).
Context (Hne : Forall (fun b => b <> []) blocks).

(** What an iterator has still to return. *)
Definition remaining (it : Iterator) : list Entry :=
  drop (Z.to_nat (it_pos it + 1)) (it_entries it) ++ concat (drop (it_nextBlock it) blocks).

Definition iter_ok (it : Iterator) : Prop :=
  it_err it = false /\ -1 <= it_pos it /\ (it_nextBlock it <= length blocks)%nat.

Lemma next_loop_spec fuel it :
  iter_ok it -> (length blocks - it_nextBlock it < fuel)%nat ->
  let '(it', more) := next_loop fuel r it in
  iter_ok it' /\
  match remaining it with
  | [] => more = false
  | e :: rest => more = true /\ iter_Entry it' = e /\ remaining it' = rest
  end.
Proof using Hlen Hread.
  clear Hne. revert it. induction fuel as [|fuel IH]; intros it (He & Hp & Hn) Hf; [lia|]. cbn [next_loop].
  case_if; zbool.
  - split; [by split_and!; cbn; try lia|]. unfold remaining. cbn.
    destruct (lookup_lt_is_Some_2 (it_entries it) (Z.to_nat (it_pos it + 1)) ltac:(unfold zlen in *; lia)) as [e Hk].
    rewrite (drop_S _ _ _ Hk). cbn. split; [done|]. split.
    + unfold iter_Entry. cbn. by apply list_lookup_total_correct.
    + f_equal. f_equal. lia.
  - assert (drop (Z.to_nat (it_pos it + 1)) (it_entries it) = []) as Hd by (apply drop_ge; unfold zlen in *; lia).
    case_if; [apply Nat.leb_le in E0|apply Nat.leb_gt in E0].
    + split; [done|]. unfold remaining. rewrite Hd, drop_ge by lia. done.
    + destruct (lookup_lt_is_Some_2 blocks (it_nextBlock it) ltac:(lia)) as [b Hb]. rewrite (Hread _ _ Hb).
      specialize (IH (MkIter (S (it_nextBlock it)) b (-1) false)
        ltac:(by split_and!; cbn; try lia) ltac:(cbn; lia)).
      assert (remaining (MkIter (S (it_nextBlock it)) b (-1) false) = remaining it) as <-; [|done].
      unfold remaining. rewrite Hd, (drop_S _ _ _ Hb). done.
Qed.

Lemma drain_spec fuel it :
  iter_ok it -> (length (remaining it) < fuel)%nat -> drain fuel r it = (remaining it, false).
Proof using Hlen Hread.
  clear Hne. revert it. induction fuel as [|fuel IH]; intros it Hi Hf; [lia|]. cbn [drain]. unfold Next.
  rewrite (proj1 Hi). pose proof (next_loop_spec (S (S (length (r_index r) - it_nextBlock it))) it Hi ltac:(lia)) as H.
  destruct (next_loop _ r it) as [it' more]. destruct H as [Hi' Hr].
  destruct (remaining it) as [|e rest]; [subst more; by rewrite (proj1 Hi')|].
  destruct Hr as (-> & He & Hrest). rewrite IH; [by rewrite He, Hrest|done|]. rewrite Hrest. cbn in Hf. lia.
Qed.
End Iterate.

(** ** The writer's discipline *)

(** What [Add] accepts one after the other. *)
Fixpoint add_all (w : Writer) (es : list Entry) : result sst_error Writer :=
  match es with
  | [] => Ok w
  | e :: es => w ← Add w (Key e) (Value e) (Tombstone e); add_all w es
  end.

Definition writer_ok (w : Writer) : Prop :=
  sorted_entries (w_entries w) /\ w_lastKey w = Key <$> last (w_entries w) /\
  Forall (fun e => Key e <> [] /\ (Tombstone e = true -> Value e = [])) (w_entries w).

Lemma sorted_snoc es e :
  sorted_entries es -> (forall l, last es = Some l -> blt (Key l) (Key e)) -> sorted_entries (es ++ [e]).
Proof.
  intros Hs Hl. unfold sorted_entries in *. rewrite fmap_app. apply StronglySorted_app_2; [|done|].
  - intros a b (x & -> & Hx)%list_elem_of_fmap ->%list_elem_of_singleton.
    destruct es as [|e0 es] using rev_ind; [by apply not_elem_of_nil in Hx|]. clear IHes.
    rewrite last_snoc in Hl. specialize (Hl e0 eq_refl). apply elem_of_app in Hx as [Hx|Hx].
    + eapply blt_trans; [|exact Hl]. rewrite fmap_app in Hs. eapply StronglySorted_app_1_elem_of in Hs; [exact Hs| |].
      * by apply list_elem_of_fmap_2.
      * cbn. left.
    + by apply list_elem_of_singleton in Hx as ->.
  - cbn. apply SSorted_cons; [apply SSorted_nil|apply Forall_nil_2].
Qed.

Lemma Add_ok w key value tombstone w' :
  writer_ok w -> Add w key value tombstone = Ok w' ->
  writer_ok w' /\ w_entries w' = w_entries w ++ [MkEntry key (if tombstone then [] else value) tombstone].
Proof.
  intros (Hs & Hl & Hf). unfold Add. case_bool_decide as Hk; [done|].
  destruct (match w_lastKey w with Some _ => _ | None => _ end) eqn:Ec; [done|]. intros [= <-].
  split; [|done]. split_and!; cbn.
  - apply sorted_snoc; [done|]. intros l Hlast. rewrite Hl, Hlast in Ec. cbn in Ec.
    destruct (bytes_compare key (Key l)) eqn:E; try done. by apply bytes_compare_gt in E.
  - by rewrite last_snoc.
  - apply Forall_app. split; [done|]. apply Forall_singleton. cbn. split; [done|]. by destruct tombstone.
Qed.

Lemma add_all_ok es w w' :
  writer_ok w -> Forall (fun e => Tombstone e = true -> Value e = []) es -> add_all w es = Ok w' ->
  writer_ok w' /\ w_entries w' = w_entries w ++ es.
Proof.
  intros Hw Hes. revert w Hw. induction Hes as [|e es He _ IH]; intros w Hw; cbn.
  - intros [= <-]. by rewrite app_nil_r.
  - destruct (Add w _ _ _) as [w1|] eqn:Ea; [|done]. cbn. intros Hr. destruct (Add_ok _ _ _ _ _ Hw Ea) as [Hw1 E1].
    destruct (IH w1 Hw1 Hr) as [Hw' E']. split; [done|]. rewrite E', E1, <- app_assoc. cbn. f_equal. f_equal.
    destruct e as [k v []]; cbn in *; [by rewrite He|done].
Qed.

(** [Add] accepts exactly the entries that come in increasing order. *)
Lemma add_all_accepts es w :
  writer_ok w -> sorted_entries (w_entries w ++ es) -> Forall (fun e => Key e <> []) es ->
  Forall (fun e => Tombstone e = true -> Value e = []) es -> is_ok (add_all w es) = true.
Proof.
  intros Hw Hs Hk. revert w Hw Hs. induction Hk as [|e es Hk _ IH]; intros w Hw Hs Ht; cbn; [done|].
  assert (exists w1, Add w (Key e) (Value e) (Tombstone e) = Ok w1) as [w1 E1].
  { unfold Add. rewrite bool_decide_eq_false_2 by done. destruct Hw as (_ & Hl & _). rewrite Hl.
    destruct (last (w_entries w)) as [l|] eqn:El; cbn; [|by eexists].
    assert (blt (Key l) (Key e)) as Hlt.
    { unfold sorted_entries in Hs. rewrite fmap_app in Hs. eapply StronglySorted_app_1_elem_of in Hs; [exact Hs| |].
      - apply list_elem_of_fmap_2. rewrite last_lookup in El. by eapply list_elem_of_lookup_2.
      - cbn. left. }
    apply bytes_compare_gt in Hlt. rewrite Hlt. by eexists. }
  rewrite E1. cbn. apply Forall_cons in Ht as [He Ht]. destruct (Add_ok _ _ _ _ _ Hw E1) as [Hw1 Ee].
  apply IH; [done| |done]. rewrite Ee, <- app_assoc. cbn.
  replace (MkEntry (Key e) (if Tombstone e then [] else Value e) (Tombstone e)) with e; [done|].
  destruct e as [k v []]; cbn in *; [by rewrite He|done].
Qed.

Lemma NewWriter_ok : writer_ok NewWriter.
Proof. split_and!; [apply SSorted_nil|done|done]. Qed.

(** ** Theorem *)

(** The table [Build] writes, read back. *)
Lemma built_table_reads (m k : Z) (es : list Entry) :
  es <> [] -> sorted_entries es -> Forall stored es -> m <= maxBloomBits ->
  exists w file, add_all NewWriter es = Ok w /\ Build m k w = Ok file /\
    (zlen file < 2 ^ 63 ->
     exists r, open file = Done r /\
       (forall key, key <> [] -> Get r key = Done (answer (find_key es key))) /\
       drain (S (length es)) r NewIterator = (es, false) /\
       Count r = zlen es /\ MinKey r = Key (es !!! 0%nat) /\ MaxKey r = Key (es !!! (length es - 1)%nat)).
Proof.
  intros Hne Hs Hst Hm.
  assert (Forall (fun e => Tombstone e = true -> Value e = []) es) as Ht
    by (eapply Forall_impl; [exact Hst|]; by intros e (_ & _ & _ & ?)).
  pose proof (add_all_accepts es NewWriter NewWriter_ok Hs
    ltac:(eapply Forall_impl; [exact Hst|]; by intros e (? & _)) Ht) as Hok.
  destruct (add_all NewWriter es) as [w|] eqn:Ea; [|done].
  destruct (add_all_ok _ _ _ NewWriter_ok Ht Ea) as [_ Hw]. cbn in Hw.
  destruct (Build_layout_ok m k w) as (blocks & file & ib & Hb & HT); [by rewrite Hw|by rewrite Hw|]. rewrite Hw in HT.
  exists w, file. split; [done|]. split; [done|]. intros Hsz.
  eexists. split; [by eapply open_table|]. split; [intros key Hk; by eapply Get_table|]. split; [|done].
  assert (remaining blocks NewIterator = es) as Hrem.
  { unfold remaining. cbn [it_pos it_entries it_nextBlock NewIterator]. rewrite drop_nil, drop_0. apply HT. }
  rewrite (drain_spec _ blocks).
  - by rewrite Hrem.
  - cbn. apply index_of_length.
  - intros i b Hbl. by eapply read_block_table.
  - split_and!; cbn; [done|lia|lia].
  - rewrite Hrem. lia.
Qed.

(** C27. A table gives back what was written: for entries in increasing key
    order within the size limits, [Add] accepts every one and [Build]
    succeeds; if the file is below 2^63 bytes and the Bloom filter's size
    within the decoder's bound, [open] accepts it, and then [Get] of any key
    returns the live value, the tombstone or "not found" exactly as the
    entries say, iteration returns the entries in order without an error,
    and the metadata is right. *)
Theorem sstable_roundtrip (m k : Z) (es : list Entry) :
  es <> [] -> sorted_entries es -> Forall stored es -> m <= maxBloomBits ->
  exists w file, add_all NewWriter es = Ok w /\ Build m k w = Ok file /\
    (zlen file < 2 ^ 63 ->
     exists r, open file = Done r /\
       (forall key, key <> [] -> Get r key = Done (answer (find_key es key))) /\
       drain (S (length es)) r NewIterator = (es, false) /\
       Count r = zlen es /\ MinKey r = Key (es !!! 0%nat) /\ MaxKey r = Key (es !!! (length es - 1)%nat)).
Proof. exact (built_table_reads m k es). Qed.

Definition sample_entries : list Entry :=
  [MkEntry [x61] [x31] false; MkEntry [x62] [] true; MkEntry [x63] [x33] false].

Example sstable_roundtrip_witness :
  exists w file, add_all NewWriter sample_entries = Ok w /\ Build 29 7 w = Ok file /\
    (zlen file < 2 ^ 63 ->
     exists r, open file = Done r /\
       (forall key, key <> [] -> Get r key = Done (answer (find_key sample_entries key))) /\
       drain 4 r NewIterator = (sample_entries, false) /\
       Count r = 3 /\ MinKey r = [x61] /\ MaxKey r = [x63]).
Proof.
  apply (sstable_roundtrip 29 7 sample_entries).
  - discriminate.
  - repeat constructor.
  - repeat constructor; vm_compute; congruence.
  - vm_compute. congruence.
Defined.

(** The same table, opened and read. *)
Example sample_table_reads :
  match add_all NewWriter sample_entries ≫= Build 29 7 with
  | Ok file => match open file with
               | Done r => Get r [x62] = Done Tombstoned /\ Get r [x63] = Done (Found [x33]) /\ Get r [x64] = Done NotFound
               | _ => False
               end
  | Err _ => False
  end.
Proof. vm_compute. repeat split. Qed.

(** ** Damaged files *)

Lemma p_meta_key_safe : safe 0 p_meta_key.
Proof.
  unfold p_meta_key. apply safe_need. apply safe_int; [lia|]. intros n _. apply safe_guard. intros _.
  apply safe_need. by apply safe_bytes_end.
Qed.

Lemma p_meta_safe : safe 0 p_meta.
Proof.
  unfold p_meta. apply safe_need. apply safe_int; [lia|]. intros n _. apply safe_weaken.
  apply safe_bind; [apply p_meta_key_safe|]. intros lo. apply safe_bind; [apply p_meta_key_safe|]. intros hi.
  apply safe_need. apply safe_ret.
Qed.

Lemma read_block_no_panic r i : read_block r i <> Panic.
Proof. apply decodeBlock_no_panic. Qed.

Lemma decodeFooter_index buf n ft :
  decodeFooter buf n = Done ft -> validateSection (indexOffset ft) (indexLength ft) n = true.
Proof.
  unfold decodeFooter. do 4 (case_if; [done|]). cbv zeta. case_if; [|done]. intros [= <-].
  by apply andb_true_iff in E3 as [[? _]%andb_true_iff _].
Qed.

(** A damaged file is an error, not a crash and not wrong data: no byte
    string makes [open] read out of range, no opened table makes [Get] do
    so, every block an opened table points to lies inside the file, and a
    data block of which any one byte was changed is never decoded. *)
Theorem sstable_reader_robust :
  (forall data, open data <> Panic) /\
  (forall data r key, open data = Done r -> Get r key <> Panic) /\
  (forall data r e, zlen data < 2 ^ 63 -> open data = Done r -> e ∈ r_index r ->
     blockOffset e + blockLength e <= zlen data) /\
  (forall block es i b b0, decodeBlock block = Done es -> block !! i = Some b0 -> b <> b0 ->
     decodeBlock (<[i := b]> block) = Fail).
Proof.
  split_and!.
  - intros data. unfold open. case_bool_decide; [done|].
    assert (forall buf n, decodeFooter buf n <> Panic) as Hft by (intros buf n; unfold decodeFooter; by repeat case_if).
    assert (forall d, decodeIndex d <> Panic) as Hi.
    { intros d. unfold decodeIndex. destruct (sealed_payload d); [|done]. apply p_many_no_panic, p_index_entry_safe. }
    assert (forall d, decodeBloom d <> Panic) as Hb by (intros d; unfold decodeBloom; repeat case_if; by try case_bool_decide).
    assert (forall d, decodeMeta d <> Panic) as Hmt.
    { intros d. unfold decodeMeta. pose proof (p_meta_safe d ltac:(lia)). destruct (p_meta d) as [[]| |]; try done.
      by repeat case_if. }
    destruct (decodeFooter _ _) eqn:E1; [|done|by apply Hft in E1].
    destruct (decodeIndex _) eqn:E2; [|done|by apply Hi in E2].
    destruct (decodeBloom _) eqn:E3; [|done|by apply Hb in E3].
    destruct (decodeMeta _) eqn:E4; [|done|by apply Hmt in E4]. by case_if.
  - intros data r key _. unfold Get. case_bool_decide; [done|]. case_if; [done|].
    destruct (candidateBlock r key) as [i|]; [|done]. pose proof (read_block_no_panic r i).
    destruct (read_block r i) as [es| |]; try done. by destruct (searchBlockEntries es key).
  - intros data r e Hsz. unfold open. case_bool_decide as Hlen; [done|].
    destruct (decodeFooter _ _) as [ft| |] eqn:E1; try done. destruct (decodeIndex _) as [ix| |] eqn:Ei; try done.
    destruct (decodeBloom _); try done. destruct (decodeMeta _); try done. case_if; [|done].
    intros [= <-] He. cbn in He. eapply forallb_forall in E; [|by apply list_elem_of_In].
    unfold in_data_region in E. zbool.
    assert (forall a b (l : bytes), 0 <= le_get (slice a b l)) as Hpos by (intros; apply le_get_range).
    assert (indexOffset ft <= zlen data) as Hft.
    { apply decodeFooter_index in E1. unfold validateSection in E1. destruct (_ =? 0); [done|].
      destruct (_ >? _) eqn:Eg in E1; [done|]. zbool. unfold footerSize in *. lia. }
    rewrite u64_small in *; [lia|]. unfold is_u64.
    assert (0 <= blockOffset e) as Hbo; [|lia].
    unfold decodeIndex in Ei. destruct (sealed_payload _) as [pl|]; [|done].
    assert (forall fuel l xs, p_many fuel p_index_entry l = Done xs -> Forall (fun e => 0 <= blockOffset e) xs) as Hall.
    { clear. intros fuel. induction fuel as [|fuel IH]; intros [|b l] xs; cbn; try done; try (intros [= <-]; apply Forall_nil_2).
      destruct (p_index_entry (b :: l)) as [[x l']| |] eqn:Ep; try done.
      destruct (p_many fuel p_index_entry l') as [ys| |] eqn:Em; try done. intros [= <-].
      apply Forall_cons_2; [|by eapply IH]. unfold p_index_entry in Ep. parse_inv Ep. cbn. lia. }
    apply Hall in Ei. rewrite Forall_forall in Ei. by apply Ei.
  - intros block es i b b0 Hd Hi Hb. unfold decodeBlock, sealed_payload in *. rewrite length_insert.
    case_bool_decide as Hl; [done|]. destruct (sum_ok block) eqn:Es; [|done].
    by rewrite (sum_ok_flip block i b b0) by (done || lia).
Qed.
