(* ===== verification/Manifest.v ===== *)
(** * The manifest and the version set

    internal/storage/manifest: the manifest file format (manifest.go) and the
    active table set with its atomically persisted updates (version.go). *)

From S2P Require Import Prelude Bytes Codec AtomicFile.
From stdpp Require Import base tactics list numbers gmap sorting.
From Stdlib Require Import Strings.Byte.
From Stdlib Require Import ZArith Lia.
#[local] Open Scope Z_scope.

(** ** The file format: manifest.go *)

Definition magic : bytes := [x46; x6f; x72; x67; x65; x4d; x46; x31].
Definition formatVersion1 : Z := 1.
Definition maxTables : Z := 2 ^ 20.
Definition maxFileNameLen : Z := 4096.
Definition manifestHeaderSize : nat := 24.

Record tableMeta := MkTable { t_id : Z; t_fileName : bytes }.
Record manifestFile := MkManifest { m_nextID : Z; m_tables : list tableMeta }.

Definition table_bytes (t : tableMeta) : bytes := put_u64 (t_id t) ++ put_field (t_fileName t).

Definition manifest_body (m : manifestFile) : bytes :=
  magic ++ put_u32 formatVersion1 ++ put_u64 (m_nextID m) ++ put_u32 (zlen (m_tables m))
  ++ concat (table_bytes <$> m_tables m).

Definition encodeManifest (m : manifestFile) : bytes := with_sum (manifest_body m).

(** One round of the decoder's loop. *)
Definition p_table : parser tableMeta :=
  _ ← p_need 12;
  id ← p_u64; nameLen ← p_u32;
  _ ← p_guard (negb ((nameLen =? 0) || (nameLen >? maxFileNameLen)));
  _ ← p_need (Z.to_nat nameLen); name ← p_bytes (Z.to_nat nameLen);
  mret (MkTable id name).

(** The fields behind the magic and the version; the header is known to be
    complete. *)
Definition p_manifest : parser manifestFile :=
  nextID ← p_u64; numTables ← p_u32;
  _ ← p_guard (negb (numTables >? maxTables));
  tables ← p_repeat (Z.to_nat numTables) p_table;
  mret (MkManifest nextID tables).

Definition decodeManifest (data : bytes) : outcome manifestFile :=
  if bool_decide (length data < manifestHeaderSize + 4)%nat then Fail
  else if negb (bool_decide (slice 0 8 data = magic)) then Fail
  else if negb (le_get (slice 8 12 data) =? formatVersion1) then Fail
  else if negb (sum_ok data) then Fail
  else p_all p_manifest (drop 12 (take (length data - 4) data)).

(** ** The version set: version.go *)

Inductive manifest_error := ErrCorrupt | ErrPersist.

Record VersionSet := MkVS {
  vs_manifest : file;
  vs_nextID : Z;
  vs_tables : gmap Z bytes }.

Definition id_le (a b : Z * bytes) : Prop := a.1 <= b.1.
#[export] Instance id_le_dec : RelDecision id_le.
Proof. intros a b. unfold id_le. apply _. Defined.

(** The map's entries after [sort.Slice] by id. *)
Definition sorted_tables (tables : gmap Z bytes) : list (Z * bytes) := merge_sort id_le (map_to_list tables).

(** [Version]: the active tables, oldest first. *)
Definition currentLocked (vs : VersionSet) : list (Z * bytes) := sorted_tables (vs_tables vs).
Definition Current (vs : VersionSet) : list (Z * bytes) := currentLocked vs.

Definition persist (vs : VersionSet) (e : file_env) : VersionSet * result manifest_error unit :=
  let mf := MkManifest (vs_nextID vs) ((fun it => MkTable it.1 it.2) <$> sorted_tables (vs_tables vs)) in
  match Write (vs_manifest vs) (fe_fault e) (fe_dir_synced e) (encodeManifest mf) with
  | (f, Ok _) => (MkVS f (vs_nextID vs) (vs_tables vs), Ok tt)
  | (f, Err _) => (MkVS f (vs_nextID vs) (vs_tables vs), Err ErrPersist)
  end.

Definition restoreLocked (vs : VersionSet) (tables : gmap Z bytes) (nextID : Z) : VersionSet :=
  MkVS (vs_manifest vs) nextID tables.

(** [Open] of a directory whose manifest is [f]; the file comes back because
    [Open] creates it when it is missing. *)
Definition Open (f : file) (e : file_env) : file * result manifest_error VersionSet :=
  match f_target f with
  | None =>
      match persist (MkVS f 1 ∅) e with
      | (vs, Ok _) => (vs_manifest vs, Ok vs)
      | (vs, Err err) => (vs_manifest vs, Err err)
      end
  | Some data =>
      match decodeManifest data with
      | Done mf =>
          let tables := fold_left (fun (t : gmap Z bytes) x => <[t_id x := t_fileName x]> t) (m_tables mf) ∅ in
          (f, Ok (MkVS f (m_nextID mf) tables))
      | _ => (f, Err ErrCorrupt)
      end
  end.

Definition AddTable (vs : VersionSet) (e : file_env) (fileName : bytes) : VersionSet * result manifest_error Z :=
  let prevTables := vs_tables vs in
  let prevNextID := vs_nextID vs in
  let id := vs_nextID vs in
  match persist (MkVS (vs_manifest vs) (u64 (vs_nextID vs + 1)) (<[id := fileName]> (vs_tables vs))) e with
  | (vs, Ok _) => (vs, Ok id)
  | (vs, Err err) => (restoreLocked vs prevTables prevNextID, Err err)
  end.

(** [delete(vs.tables, id)] for every id of the list. *)
Definition delete_ids (tables : gmap Z bytes) (ids : list Z) : gmap Z bytes :=
  fold_left (fun t id => delete id t) ids tables.

Definition RemoveTables (vs : VersionSet) (e : file_env) (ids : list Z) : VersionSet * result manifest_error unit :=
  let prevTables := vs_tables vs in
  let prevNextID := vs_nextID vs in
  match persist (MkVS (vs_manifest vs) (vs_nextID vs) (delete_ids (vs_tables vs) ids)) e with
  | (vs, Ok _) => (vs, Ok tt)
  | (vs, Err err) => (restoreLocked vs prevTables prevNextID, Err err)
  end.

Definition RemoveTable (vs : VersionSet) (e : file_env) (id : Z) : VersionSet * result manifest_error unit :=
  RemoveTables vs e [id].

Definition ReplaceTables (vs : VersionSet) (e : file_env) (oldIDs : list Z) (newFileName : bytes) :
    VersionSet * result manifest_error Z :=
  let prevTables := vs_tables vs in
  let prevNextID := vs_nextID vs in
  let newID := vs_nextID vs in
  match persist (MkVS (vs_manifest vs) (u64 (vs_nextID vs + 1))
                   (<[newID := newFileName]> (delete_ids (vs_tables vs) oldIDs))) e with
  | (vs, Ok _) => (vs, Ok newID)
  | (vs, Err err) => (restoreLocked vs prevTables prevNextID, Err err)
  end.

Definition ReplaceTable (vs : VersionSet) (e : file_env) (oldID : Z) (newFileName : bytes) :
    VersionSet * result manifest_error Z :=
  ReplaceTables vs e [oldID] newFileName.

(** ** Round trip and robustness of the format *)

Definition table_ok (t : tableMeta) : Prop :=
  is_u64 (t_id t) /\ 0 < zlen (t_fileName t) <= maxFileNameLen.
Definition manifest_ok (m : manifestFile) : Prop :=
  is_u64 (m_nextID m) /\ zlen (m_tables m) <= maxTables /\ Forall table_ok (m_tables m).

Lemma encodes_table t : table_ok t -> encodes p_table t (table_bytes t).
Proof.
  intros [Hid Hn]. destruct t as [id name]. unfold table_bytes, p_table, put_field, maxFileNameLen in *. cbn in *.
  apply encodes_need; [rewrite !length_app, !le_put_length; lia|].
  eapply encodes_bind; [by apply encodes_u64|]. eapply encodes_bind; [apply encodes_u32; unfold is_u32; lia|].
  apply encodes_guard; [lia|]. rewrite to_nat_zlen. apply encodes_need; [done|].
  by apply (encodes_last (p_bytes _) (fun n => MkTable id n)), encodes_bytes.
Qed.

Lemma encodes_manifest m : manifest_ok m ->
  encodes p_manifest m (put_u64 (m_nextID m) ++ put_u32 (zlen (m_tables m)) ++ concat (table_bytes <$> m_tables m)).
Proof.
  intros (Hn & Ht & Hall). destruct m as [next ts]. unfold p_manifest, maxTables in *. cbn in *.
  pose proof (zlen_nonneg ts).
  eapply encodes_bind; [by apply encodes_u64|]. eapply encodes_bind; [apply encodes_u32; unfold is_u32; lia|].
  apply encodes_guard; [lia|]. rewrite to_nat_zlen.
  apply (encodes_last (p_repeat _ p_table) (fun ts => MkManifest next ts)), encodes_repeat.
  eapply Forall_impl; [exact Hall|]. apply encodes_table.
Qed.

Lemma manifest_body_length m : (24 <= length (manifest_body m))%nat.
Proof. unfold manifest_body. rewrite !length_app, !le_put_length. cbn. lia. Qed.

Lemma decode_encode_manifest m : manifest_ok m -> decodeManifest (encodeManifest m) = Done m.
Proof.
  intros Hm. unfold decodeManifest, encodeManifest. pose proof (manifest_body_length m).
  rewrite sum_ok_seal, take_seal, seal_length. unfold manifestHeaderSize.
  rewrite bool_decide_eq_false_2 by lia.
  assert (slice 0 8 (with_sum (manifest_body m)) = magic) as ->.
  { unfold with_sum, manifest_body. rewrite <- app_assoc. by apply slice_app_exact. }
  assert (slice 8 12 (with_sum (manifest_body m)) = put_u32 formatVersion1) as ->.
  { unfold with_sum, manifest_body. rewrite <- !app_assoc, slice_app_skip by (cbn; lia). by apply slice_app_exact. }
  rewrite bool_decide_eq_true_2 by done. rewrite le_get_put_u32 by (vm_compute; split; congruence). cbn [negb Z.eqb].
  assert (drop 12 (manifest_body m) =
    put_u64 (m_nextID m) ++ put_u32 (zlen (m_tables m)) ++ concat (table_bytes <$> m_tables m)) as ->.
  { unfold manifest_body. rewrite app_assoc. apply drop_app_length'. by rewrite length_app, le_put_length. }
  by apply p_all_encodes, encodes_manifest.
Qed.

Lemma p_table_Done l t r : p_table l = Done (t, r) -> l = table_bytes t ++ r /\ table_ok t.
Proof.
  intros H. unfold p_table in H. parse_inv H. zbool.
  unfold table_ok, table_bytes, put_field, maxFileNameLen in *. cbn.
  change (256 ^ Z.of_nat 4) with (2 ^ 32) in *. change (256 ^ Z.of_nat 8) with (2 ^ 64) in *.
  match goal with H : length ?n = Z.to_nat ?k |- _ => assert (zlen n = k) as -> by (unfold zlen; lia) end.
  split; [by rewrite <- !app_assoc|]. unfold is_u64. lia.
Qed.

Lemma p_tables_Done n l ts r :
  p_repeat n p_table l = Done (ts, r) ->
  l = concat (table_bytes <$> ts) ++ r /\ length ts = n /\ Forall table_ok ts.
Proof.
  revert l ts r. induction n as [|n IH]; intros l ts r H; cbn [p_repeat] in H.
  { parse_inv H. auto. }
  apply bind_Done in H as (t & l1 & Ht & H). apply bind_Done in H as (ts1 & l2 & Hts & H). parse_inv H.
  apply p_table_Done in Ht as [-> Hok]. apply IH in Hts as (-> & <- & Hall). cbn.
  rewrite <- app_assoc. auto.
Qed.

(** Whatever the decoder accepts is exactly what the encoder writes. *)
Lemma decodeManifest_Done data m : decodeManifest data = Done m -> encodeManifest m = data /\ manifest_ok m.
Proof.
  unfold decodeManifest, manifestHeaderSize. case_bool_decide as Hl; [done|]. case_bool_decide as Hmg; [|done]. cbn [negb].
  destruct (le_get (slice 8 12 data) =? formatVersion1) eqn:Hv; [|done].
  destruct (sum_ok data) eqn:Hs; [|done]. cbn [negb]. intros H. apply p_all_Done in H.
  apply sum_ok_split in Hs as Hd; [|lia]. set (body := take (length data - 4) data) in *. zbool.
  assert (12 <= length body)%nat as Hb by (unfold body; rewrite length_take; lia).
  assert (body = magic ++ put_u32 formatVersion1 ++ drop 12 body) as Hbody.
  { apply preamble_split; [done|done|unfold body; rewrite slice_take by lia; done..]. }
  unfold p_manifest in H. apply bind_Done in H as (n & l1 & Hn & H). parse_inv Hn.
  apply bind_Done in H as (k & l2 & Hk & H). parse_inv Hk. apply bind_Done in H as ([] & l3 & Hg & H). parse_inv Hg.
  apply bind_Done in H as (ts & l4 & Hts & H). parse_inv H. apply p_tables_Done in Hts as (? & Hlen & Hall).
  zbool. unfold maxTables in *. assert (zlen ts = k) as Hzk by (unfold zlen; lia).
  split.
  - rewrite Hd, Hbody. unfold encodeManifest, manifest_body. cbn [m_nextID m_tables].
    rewrite ?app_nil_r in *. congruence.
  - split_and!; cbn; [done|unfold maxTables; lia|done].
Qed.

(** ** Updates *)

Definition name_ok (n : bytes) : Prop := 0 < zlen n <= maxFileNameLen.

(** The active set as the rest of the system relies on it: ids below the
    next one, so that a new table is the newest, and everything within the
    limits of the format. *)
Record version_ok (next : Z) (tables : gmap Z bytes) : Prop := {
  vo_next : 0 <= next < 2 ^ 64;
  vo_ids : map_Forall (fun id name => 0 <= id < next /\ name_ok name) tables;
  vo_size : Z.of_nat (size tables) <= maxTables }.

Lemma sorted_tables_perm tables : sorted_tables tables ≡ₚ map_to_list tables.
Proof. apply merge_sort_Permutation. Qed.

#[export] Instance id_le_trans : Transitive id_le.
Proof. intros a b c. unfold id_le. lia. Qed.
#[export] Instance id_le_total : Total id_le.
Proof. intros a b. unfold id_le. lia. Qed.

Lemma elem_sorted_tables tables id name : (id, name) ∈ sorted_tables tables <-> tables !! id = Some name.
Proof. rewrite sorted_tables_perm. apply elem_of_map_to_list. Qed.

Lemma sorted_tables_nodup tables : NoDup (sorted_tables tables).*1.
Proof. rewrite sorted_tables_perm. apply NoDup_fst_map_to_list. Qed.

(** [Current] lists every active table once, in increasing order of id. *)
Lemma sorted_tables_increasing tables : StronglySorted Z.lt (sorted_tables tables).*1.
Proof.
  pose proof (sorted_tables_nodup tables) as Hn.
  pose proof (StronglySorted_merge_sort id_le (map_to_list tables)) as Hs. fold (sorted_tables tables) in Hs.
  induction Hs as [|[id n] l Hs IH Hall]; cbn in *; constructor; apply NoDup_cons in Hn as [Hid Hn]; [auto|].
  apply Forall_fmap, Forall_forall. rewrite Forall_forall in Hall.
  intros [id' n'] Hin. specialize (Hall _ Hin). unfold id_le in Hall. cbn in *.
  assert (id' <> id); [|lia]. intros ->. apply Hid. apply list_elem_of_fmap. by exists (id, n').
Qed.

Definition as_manifest (next : Z) (tables : gmap Z bytes) : manifestFile :=
  MkManifest next ((fun it => MkTable it.1 it.2) <$> sorted_tables tables).

Lemma as_manifest_ok next tables : version_ok next tables -> manifest_ok (as_manifest next tables).
Proof.
  intros [Hn Hi Hsz]. split_and!; cbn; [done| |].
  - unfold zlen. rewrite length_fmap, sorted_tables_perm, length_map_to_list. done.
  - apply Forall_fmap, Forall_forall. intros [id name] Hel%elem_sorted_tables. apply Hi in Hel as [? ?].
    split; cbn; [unfold is_u64; lia|done].
Qed.

Lemma rebuild_tables (l : list (Z * bytes)) (t0 : gmap Z bytes) :
  NoDup l.*1 -> (forall id, id ∈ l.*1 -> t0 !! id = None) ->
  fold_left (fun (t : gmap Z bytes) x => <[t_id x := t_fileName x]> t) ((fun it => MkTable it.1 it.2) <$> l) t0 =
  list_to_map l ∪ t0.
Proof.
  revert t0. induction l as [|[id n] l IH]; intros t0 Hnd Hfr; cbn; [by rewrite (left_id_L ∅ (∪))|].
  cbn in Hnd. apply NoDup_cons in Hnd as [Hid Hnd]. rewrite IH; [|done|].
  - rewrite <- insert_union_l, insert_union_r; [done|]. by apply not_elem_of_list_to_map_1.
  - intros id' Hin. rewrite lookup_insert_ne by (intros ->; done). apply Hfr. by apply elem_of_cons; right.
Qed.

Lemma rebuild_sorted tables :
  fold_left (fun (t : gmap Z bytes) x => <[t_id x := t_fileName x]> t)
    (m_tables (as_manifest 0 tables)) ∅ = tables.
Proof.
  cbn. rewrite rebuild_tables; [|apply sorted_tables_nodup|intros; apply lookup_empty].
  rewrite (right_id_L ∅ (∪)). rewrite (list_to_map_proper _ (map_to_list tables)); [apply list_to_map_to_list|..].
  - apply sorted_tables_nodup.
  - apply sorted_tables_perm.
Qed.

(** The file that describes the version. *)
Definition describes (f : file) (next : Z) (tables : gmap Z bytes) : Prop :=
  f_target f = Some (encodeManifest (as_manifest next tables)).

Lemma Open_describes f e next tables :
  version_ok next tables -> describes f next tables -> Open f e = (f, Ok (MkVS f next tables)).
Proof.
  intros Hv Hf. unfold Open, describes in *. rewrite Hf, decode_encode_manifest by (by apply as_manifest_ok).
  pose proof (rebuild_sorted tables) as Hr. cbn in *. by rewrite Hr.
Qed.

Lemma persist_outcome vs e vs' r :
  persist vs e = (vs', r) ->
  vs_nextID vs' = vs_nextID vs /\ vs_tables vs' = vs_tables vs /\
  match r with
  | Ok _ => describes (vs_manifest vs') (vs_nextID vs) (vs_tables vs) /\
            (fe_dir_synced e = true -> f_stable (vs_manifest vs') = f_target (vs_manifest vs'))
  | Err _ => f_target (vs_manifest vs') = f_target (vs_manifest vs) /\
             f_stable (vs_manifest vs') = f_stable (vs_manifest vs)
  end.
Proof.
  unfold persist. fold (as_manifest (vs_nextID vs) (vs_tables vs)).
  destruct (Write _ _ _ _) as [f [[]|err]] eqn:Ew; apply Write_outcome in Ew; intros [= <- <-]; cbn; [|done].
  destruct Ew as [Ht Hs]. split_and!; [done..|]. intros Hd. by rewrite Ht, (Hs Hd).
Qed.

Inductive vs_op := OpAdd (name : bytes) | OpRemove (ids : list Z) | OpReplace (ids : list Z) (name : bytes).

Definition run_op (vs : VersionSet) (e : file_env) (o : vs_op) : VersionSet * result manifest_error (option Z) :=
  match o with
  | OpAdd name => let '(vs, r) := AddTable vs e name in (vs, Some <$> r)
  | OpRemove ids => let '(vs, r) := RemoveTables vs e ids in (vs, (fun _ => None) <$> r)
  | OpReplace ids name => let '(vs, r) := ReplaceTables vs e ids name in (vs, Some <$> r)
  end.

(** The tables whose id is not listed. *)
Definition without (ids : list Z) (tables : gmap Z bytes) : gmap Z bytes := filter (fun it => it.1 ∉ ids) tables.

(** The specification: the next id and the active tables. *)
Definition spec_op (v : Z * gmap Z bytes) (o : vs_op) : Z * gmap Z bytes :=
  let '(next, tables) := v in
  match o with
  | OpAdd name => (next + 1, <[next := name]> tables)
  | OpRemove ids => (next, without ids tables)
  | OpReplace ids name => (next + 1, <[next := name]> (without ids tables))
  end.

(** Names the decoder accepts, of 1 to 4096 bytes. [AddTable] and
    [ReplaceTables] do not check this: [AddTable_empty_name_unreadable] shows
    what a name outside the range does. *)
Definition vs_op_ok (o : vs_op) : Prop :=
  match o with OpAdd name | OpReplace _ name => name_ok name | OpRemove _ => True end.

(** A version set in step with its manifest file. *)
Definition in_step (vs : VersionSet) : Prop :=
  version_ok (vs_nextID vs) (vs_tables vs) /\ describes (vs_manifest vs) (vs_nextID vs) (vs_tables vs).

Lemma lookup_without ids tables id :
  without ids tables !! id = if bool_decide (id ∈ ids) then None else tables !! id.
Proof.
  unfold without. rewrite map_lookup_filter. destruct (tables !! id) as [n|]; cbn; [|by case_bool_decide].
  case_bool_decide; [rewrite option_guard_False|rewrite option_guard_True]; cbn; auto.
Qed.

Lemma delete_ids_without tables ids : delete_ids tables ids = without ids tables.
Proof.
  revert tables. unfold delete_ids. induction ids as [|id ids IH]; intros tables; cbn [fold_left];
    [|rewrite IH]; apply map_eq; intros j; rewrite !lookup_without.
  - by rewrite bool_decide_eq_false_2 by apply not_elem_of_nil.
  - destruct (decide (j = id)) as [->|Hne].
    + rewrite (bool_decide_eq_true_2 (id ∈ id :: ids)) by by left. rewrite lookup_delete_eq. by case_bool_decide.
    + rewrite lookup_delete_ne by done. by rewrite (bool_decide_ext (j ∈ id :: ids) (j ∈ ids))
        by (rewrite elem_of_cons; naive_solver).
Qed.

Lemma size_without ids tables : (size (without ids tables) <= size tables)%nat.
Proof. rewrite <- !size_dom. apply subseteq_size, dom_filter_subseteq. Qed.

Lemma version_ok_without next tables ids : version_ok next tables -> version_ok next (without ids tables).
Proof.
  intros [Hn Hi Hs]. split; [done| |pose proof (size_without ids tables); lia].
  intros id name Hl. rewrite lookup_without in Hl. case_bool_decide; [done|]. by apply Hi.
Qed.

Lemma version_ok_insert next tables name :
  version_ok next tables -> name_ok name -> next + 1 < 2 ^ 64 -> Z.of_nat (size tables) < maxTables ->
  version_ok (next + 1) (<[next := name]> tables).
Proof.
  intros [Hn Hi Hs] Hname Hb Hsz. split; [lia| |].
  - apply map_Forall_insert_2; [split; [lia|done]|]. eapply map_Forall_impl; [exact Hi|]. cbn. intros. naive_solver lia.
  - rewrite map_size_insert. destruct (tables !! next); cbn; lia.
Qed.

(** What one update does: published as specified, with the new table the
    newest, or refused without a trace. *)
Definition published (vs : VersionSet) (e : file_env) (v : Z * gmap Z bytes) (vs' : VersionSet)
    (r : result manifest_error (option Z)) : Prop :=
  match r with
  | Ok out =>
      (vs_nextID vs', vs_tables vs') = v /\
      (forall id, out = Some id -> id = vs_nextID vs /\ is_Some (vs_tables vs' !! id) /\
         forall id', is_Some (vs_tables vs' !! id') -> id' <= id) /\
      (fe_dir_synced e = true -> f_stable (vs_manifest vs') = f_target (vs_manifest vs'))
  | Err _ =>
      (vs_nextID vs', vs_tables vs') = (vs_nextID vs, vs_tables vs) /\
      f_target (vs_manifest vs') = f_target (vs_manifest vs) /\ f_stable (vs_manifest vs') = f_stable (vs_manifest vs)
  end.

(** The part the three updates share: persist, roll back on failure. *)
Lemma publish vs e next tables out vs1 r1 :
  in_step vs -> version_ok next tables ->
  (forall id, out = Some id -> id = vs_nextID vs /\ next = vs_nextID vs + 1 /\ is_Some (tables !! id)) ->
  persist (MkVS (vs_manifest vs) next tables) e = (vs1, r1) ->
  let vs' := match r1 with Ok _ => vs1 | Err _ => restoreLocked vs1 (vs_tables vs) (vs_nextID vs) end in
  in_step vs' /\ published vs e (next, tables) vs' ((fun _ => out) <$> r1).
Proof.
  intros [Hv Hd] Hok Hout (E1 & E2 & Hp)%persist_outcome. cbn in E1, E2, Hp. destruct r1 as [[]|err]; cbn.
  - destruct Hp as [Hde Hst]. unfold in_step. rewrite E1, E2. split_and!; [done..| |done].
    intros id (-> & Hnext & Hin)%Hout. split_and!; [done..|].
    intros id' [n' Hl]. pose proof (vo_ids _ _ Hok _ _ Hl) as [? _]. lia.
  - destruct Hp as [Ht Hst]. unfold in_step, describes in *. cbn. rewrite Ht. done.
Qed.

Lemma run_op_step vs e o vs' r :
  in_step vs -> vs_op_ok o -> vs_nextID vs + 1 < 2 ^ 64 -> Z.of_nat (size (vs_tables vs)) < maxTables ->
  run_op vs e o = (vs', r) ->
  in_step vs' /\ published vs e (spec_op (vs_nextID vs, vs_tables vs) o) vs' r.
Proof.
  intros Hin Ho Hn Hs. pose proof Hin as [Hv _]. pose proof (vo_next _ _ Hv) as Hr.
  unfold run_op, AddTable, RemoveTables, ReplaceTables, spec_op.
  destruct o as [name|ids|ids name]; rewrite ?delete_ids_without, ?u64_small by (unfold is_u64; lia);
    destruct (persist _ e) as [vs1 r1] eqn:Ep.
  - eapply (publish _ _ _ _ (Some (vs_nextID vs))) in Ep; [|done|by apply version_ok_insert|].
    + destruct r1; intros [= <- <-]; exact Ep.
    + intros id [= <-]. rewrite lookup_insert_eq. eauto.
  - eapply (publish _ _ _ _ None) in Ep; [|done|by apply version_ok_without|done].
    destruct r1; intros [= <- <-]; exact Ep.
  - eapply (publish _ _ _ _ (Some (vs_nextID vs))) in Ep; [|done| |].
    + destruct r1; intros [= <- <-]; exact Ep.
    + pose proof (size_without ids (vs_tables vs)). apply version_ok_insert; [by apply version_ok_without|done|done|lia].
    + intros id [= <-]. rewrite lookup_insert_eq. eauto.
Qed.

(** ** Theorems *)

(** The manifest format loses nothing and hides nothing: a manifest
    within the format's limits decodes to itself, every byte string the
    decoder accepts is the encoding of what it returns (so no two files mean
    the same and no limit is exceeded), changing any one byte of an accepted
    file makes it an error, and no input makes the decoder read out of
    range. *)
Theorem encodeManifest_decodeManifest_inverse :
  (forall m, manifest_ok m -> decodeManifest (encodeManifest m) = Done m) /\
  (forall data m, decodeManifest data = Done m -> encodeManifest m = data /\ manifest_ok m) /\
  (forall data m i b b0, decodeManifest data = Done m -> data !! i = Some b0 -> b <> b0 ->
     decodeManifest (<[i := b]> data) = Fail) /\
  (forall data, decodeManifest data <> Panic).
Proof.
  split_and!; [exact decode_encode_manifest|exact decodeManifest_Done| |].
  - intros data m i b b0 Hd Hi Hb. unfold decodeManifest in *. rewrite length_insert. unfold manifestHeaderSize in *.
    case_bool_decide as Hl; [done|]. destruct (sum_ok data) eqn:Hs; [|repeat case_match; done].
    rewrite (sum_ok_flip data i b b0) by (done || lia). by repeat case_if.
  - intros data. unfold decodeManifest, manifestHeaderSize. case_bool_decide as Hl; [done|]. do 3 (case_if; [done|]).
    apply (p_all_safe 12); [|rewrite length_drop, length_take; lia].
    unfold p_manifest. apply safe_int; [lia|]. intros n _. apply safe_int; [lia|]. intros k _. apply safe_guard. intros _.
    apply safe_weaken, safe_bind; [|intros; apply safe_ret]. apply safe_repeat. unfold p_table. apply safe_need.
    apply safe_int; [lia|]. intros id _. apply safe_int; [lia|]. intros nl _. apply safe_guard. intros _.
    apply safe_need, safe_bytes; [lia|]. intros. apply safe_ret.
Qed.

(** A sequence of updates, each with what it meets outside, next to its
    specification. *)
Fixpoint run_ops (vs : VersionSet) (ops : list (file_env * vs_op)) (v : Z * gmap Z bytes) :
    VersionSet * (Z * gmap Z bytes) :=
  match ops with
  | [] => (vs, v)
  | (e, o) :: ops =>
      let '(vs, r) := run_op vs e o in
      run_ops vs ops (match r with Ok _ => spec_op v o | Err _ => v end)
  end.

(** What a machine crash leaves of a file. *)
Definition after_crash (f : file) : file := MkFile (f_stable f) (f_stable f) None.

Lemma spec_op_growth next tables o :
  next <= (spec_op (next, tables) o).1 <= next + 1 /\
  Z.of_nat (size (spec_op (next, tables) o).2) <= Z.of_nat (size tables) + 1.
Proof.
  destruct o as [name|ids|ids name]; cbn; try pose proof (size_without ids tables);
    rewrite ?map_size_insert; try destruct (_ !! next); cbn; lia.
Qed.

Lemma run_ops_step ops vs :
  in_step vs -> Forall (fun eo => vs_op_ok eo.2) ops -> vs_nextID vs + zlen ops < 2 ^ 64 ->
  Z.of_nat (size (vs_tables vs)) + zlen ops <= maxTables ->
  let '(vs', v) := run_ops vs ops (vs_nextID vs, vs_tables vs) in
  in_step vs' /\ (vs_nextID vs', vs_tables vs') = v /\
  (Forall (fun eo => fe_dir_synced eo.1 = true) ops -> f_stable (vs_manifest vs) = f_target (vs_manifest vs) ->
   f_stable (vs_manifest vs') = f_target (vs_manifest vs')).
Proof.
  intros Hin Ho. revert vs Hin. induction Ho as [|[e o] ops Hop _ IH]; intros vs Hin Hn Hs; cbn [run_ops]; [done|].
  rewrite zlen_cons in Hn, Hs. pose proof (zlen_nonneg ops).
  destruct (run_op vs e o) as [vs1 r] eqn:E. apply run_op_step in E as [Hin1 Hp]; [|done..|lia|lia].
  pose proof (spec_op_growth (vs_nextID vs) (vs_tables vs) o) as Hg.
  assert ((vs_nextID vs1, vs_tables vs1) = match r with Ok _ => spec_op (vs_nextID vs, vs_tables vs) o
    | Err _ => (vs_nextID vs, vs_tables vs) end) as Hv by (destruct r; apply Hp).
  rewrite <- Hv. assert (vs_nextID vs1 <= vs_nextID vs + 1 /\
    Z.of_nat (size (vs_tables vs1)) <= Z.of_nat (size (vs_tables vs)) + 1) as [Hn1 Hs1].
  { destruct r; [|injection Hv as -> ->; lia]. rewrite <- Hv in Hg. cbn in Hg. lia. }
  specialize (IH vs1 Hin1 ltac:(lia) ltac:(lia)). destruct (run_ops vs1 ops _) as [vs' v]. destruct IH as (H1 & H2 & H3).
  split_and!; [done..|]. intros [Hd Hds]%Forall_cons Hst. apply H3; [done|].
  destruct r; [by apply Hp|]. destruct Hp as (_ & -> & ->). done.
Qed.

(** C29. Every update of the active set is published whole or not at all, and
    a restart finds it: after any sequence of [AddTable], [RemoveTables] and
    [ReplaceTables] with names of 1 to 4096 bytes, failed calls included,
    that starts from a set in step with its manifest and keeps ids below 2^64
    and tables plus calls within 2^20, the version set holds what the
    successful ones specify, [Current] lists exactly the active tables in
    increasing order of id, and [Open] of the manifest gives the same version
    set back, also after a machine crash when the directory could be synced.
    Names outside that range are accepted by the calls and make the manifest
    unreadable ([AddTable_empty_name_unreadable]). *)
Theorem VersionSet_recovers (vs : VersionSet) (ops : list (file_env * vs_op)) :
  in_step vs -> Forall (fun eo => vs_op_ok eo.2) ops -> vs_nextID vs + zlen ops < 2 ^ 64 ->
  Z.of_nat (size (vs_tables vs)) + zlen ops <= maxTables ->
  let '(vs', v) := run_ops vs ops (vs_nextID vs, vs_tables vs) in
  (vs_nextID vs', vs_tables vs') = v /\
  StronglySorted Z.lt (Current vs').*1 /\ (forall id name, (id, name) ∈ Current vs' <-> v.2 !! id = Some name) /\
  (forall e, Open (vs_manifest vs') e = (vs_manifest vs', Ok vs')) /\
  (Forall (fun eo => fe_dir_synced eo.1 = true) ops -> f_stable (vs_manifest vs) = f_target (vs_manifest vs) ->
   forall e, Open (after_crash (vs_manifest vs')) e =
             (after_crash (vs_manifest vs'), Ok (MkVS (after_crash (vs_manifest vs')) v.1 v.2))).
Proof.
  intros Hin Ho Hn Hs. pose proof (run_ops_step ops vs Hin Ho Hn Hs) as Hr.
  destruct (run_ops vs ops _) as [vs' v]. destruct Hr as ([Hv Hd] & <- & Hst). cbn [fst snd].
  split_and!; [done|apply sorted_tables_increasing|intros; apply elem_sorted_tables| |].
  - intros e. destruct vs' as [f n t]. by apply Open_describes.
  - intros Hsy Hs0 e. apply Open_describes; [done|]. unfold describes, after_crash in *. cbn. by rewrite Hst.
Qed.

Definition fresh_vs : VersionSet := (persist (MkVS (MkFile None None None) 1 ∅) (MkFileEnv None true)).1.

Lemma fresh_vs_in_step : in_step fresh_vs.
Proof. split; [split; [vm_compute; split; congruence|apply map_Forall_empty|vm_compute; congruence]|reflexivity]. Qed.

Example VersionSet_recovers_witness :
  let ops := [(MkFileEnv None true, OpAdd [x61]); (MkFileEnv (Some FailRename) true, OpAdd [x62]);
              (MkFileEnv None true, OpAdd [x63]); (MkFileEnv None true, OpReplace [1; 2] [x64])] in
  let '(vs', v) := run_ops fresh_vs ops (1, ∅) in
  (vs_nextID vs', vs_tables vs') = v /\
  StronglySorted Z.lt (Current vs').*1 /\ (forall id name, (id, name) ∈ Current vs' <-> v.2 !! id = Some name) /\
  (forall e, Open (vs_manifest vs') e = (vs_manifest vs', Ok vs')) /\
  (Forall (fun eo => fe_dir_synced eo.1 = true) ops -> f_stable (vs_manifest fresh_vs) = f_target (vs_manifest fresh_vs) ->
   forall e, Open (after_crash (vs_manifest vs')) e =
             (after_crash (vs_manifest vs'), Ok (MkVS (after_crash (vs_manifest vs')) v.1 v.2))).
Proof.
  apply (VersionSet_recovers fresh_vs
    [(MkFileEnv None true, OpAdd [x61]); (MkFileEnv (Some FailRename) true, OpAdd [x62]);
     (MkFileEnv None true, OpAdd [x63]); (MkFileEnv None true, OpReplace [1; 2] [x64])]).
  - apply fresh_vs_in_step.
  - repeat constructor; vm_compute; congruence.
  - vm_compute. congruence.
  - vm_compute. congruence.
Defined.

(** [AddTable] accepts a name the decoder refuses: the update is reported
    as published, and the next [Open] of the directory fails. *)
Example AddTable_empty_name_unreadable :
  let '(vs, r) := AddTable fresh_vs (MkFileEnv None true) [] in
  r = Ok 1 /\ (Open (vs_manifest vs) (MkFileEnv None true)).2 = Err ErrCorrupt.
Proof. vm_compute. split; reflexivity. Qed.
