(* ===== verification/Heap.v ===== *)
(** * Binary heaps

    Go's container/heap as internal/storage/compaction/merge.go uses it: a
    slice ordered as a binary heap by [bytes.Compare] of a key. *)

From S2P Require Import Prelude Bytes.
From stdpp Require Import base tactics list numbers.
From Stdlib Require Import ZArith Lia.
#[local] Open Scope nat_scope.

Section heap.
Context {A : Type} `{!Inhabited A} (key : A -> bytes).

(** [Less(i, j)]. *)
Definition less (h : list A) (i j : nat) : bool := bool_decide (blt (key (h !!! i)) (key (h !!! j))).

(** [Swap(i, j)], for indices in range. *)
Definition swap (i j : nat) (h : list A) : list A := <[i := h !!! j]> (<[j := h !!! i]> h).

Definition parent (j : nat) : nat := (j - 1) / 2.

(** The loops move towards the root or away from it, so the length of the
    slice is enough fuel. *)
Fixpoint up (fuel : nat) (h : list A) (j : nat) : list A :=
  match fuel with
  | O => h
  | S fuel =>
      let i := parent j in
      if (i =? j) || negb (less h j i) then h else up fuel (swap i j h) i
  end.

Fixpoint down (fuel : nat) (h : list A) (i n : nat) : list A :=
  match fuel with
  | O => h
  | S fuel =>
      let j1 := 2 * i + 1 in
      if n <=? j1 then h
      else
        let j := if (j1 + 1 <? n) && less h (j1 + 1) j1 then j1 + 1 else j1 in
        if negb (less h j i) then h else down fuel (swap i j h) j n
  end.

Definition Push (h : list A) (x : A) : list A := up (length (h ++ [x])) (h ++ [x]) (length (h ++ [x]) - 1).

(** [Pop] of a non-empty heap: the last element after the exchange. *)
Definition Pop (h : list A) : A * list A :=
  let n := length h - 1 in
  let h := down (length h) (swap 0 n h) 0 n in
  (h !!! n, take n h).

(** ** Elements *)

Lemma swap_length i j h : length (swap i j h) = length h.
Proof. unfold swap. by rewrite !length_insert. Qed.

Lemma swap_lookup i j h k :
  i < length h -> j < length h ->
  swap i j h !!! k = if k =? i then h !!! j else if k =? j then h !!! i else h !!! k.
Proof.
  intros Hi Hj. unfold swap. destruct (Nat.eqb_spec k i) as [->|Hki].
  - by rewrite list_lookup_total_insert_eq by by rewrite length_insert.
  - rewrite list_lookup_total_insert_ne by done. destruct (Nat.eqb_spec k j) as [->|Hkj].
    + by rewrite list_lookup_total_insert_eq.
    + by rewrite list_lookup_total_insert_ne.
Qed.

Lemma swap_perm i j h : i < length h -> j < length h -> swap i j h ≡ₚ h.
Proof.
  intros Hi Hj. unfold swap.
  destruct (lookup_lt_is_Some_2 h i Hi) as [x Hx], (lookup_lt_is_Some_2 h j Hj) as [y Hy].
  rewrite (list_lookup_total_correct h i x Hx), (list_lookup_total_correct h j y Hy).
  by apply Permutation_insert_swap.
Qed.

Lemma parent_spec j : 0 < j -> 2 * parent j + 1 <= j <= 2 * parent j + 2.
Proof.
  intros Hj. unfold parent. pose proof (Nat.div_mod_eq (j - 1) 2). pose proof (Nat.mod_upper_bound (j - 1) 2). lia.
Qed.

Lemma parent_le j : parent j <= j.
Proof. destruct j as [|j]; [done|]. pose proof (parent_spec (S j)). lia. Qed.

Lemma up_perm fuel h j : j < length h -> up fuel h j ≡ₚ h.
Proof.
  revert h j. induction fuel as [|fuel IH]; intros h j Hj; cbn [up]; [done|]. cbv zeta. case_if; [done|].
  pose proof (parent_le j). assert (parent j < length h) by lia.
  rewrite IH by by rewrite swap_length. by apply swap_perm.
Qed.

Lemma down_perm fuel h i n : i < length h -> n <= length h -> down fuel h i n ≡ₚ h.
Proof.
  revert h i. induction fuel as [|fuel IH]; intros h i Hi Hn; cbn [down]; [done|]. cbv zeta.
  destruct (Nat.leb_spec n (2 * i + 1)) as [Hle|Hgt]; [done|].
  set (j := if _ && _ then _ else _). assert (j < n) by (subst j; case_if; zbool; rewrite ?Nat.ltb_lt in *; lia).
  case_if; [done|]. rewrite IH by (rewrite swap_length; lia). apply swap_perm; lia.
Qed.

(** ** Order *)

Definition at_most (h : list A) (i j : nat) : Prop := ble (key (h !!! i)) (key (h !!! j)).

(** Every element of the first [n] is at least its parent. *)
Definition heap_ok (n : nat) (h : list A) : Prop := forall j, 0 < j < n -> at_most h (parent j) j.

Lemma less_false h i j : less h i j = false -> at_most h j i.
Proof. unfold less, at_most. intros H. zbool. by apply not_blt_ble. Qed.

Lemma less_true h i j : less h i j = true -> at_most h i j.
Proof. unfold less, at_most. intros H. zbool. by right. Qed.

Lemma at_most_trans h i j k : at_most h i j -> at_most h j k -> at_most h i k.
Proof.
  unfold at_most, ble. intros [E1|H1] [E2|H2];
    [left; congruence|right; by rewrite E1|right; by rewrite <- E2|right; by eapply blt_trans].
Qed.

(** [up] repairs a heap whose only violation is between [j] and its
    parent. *)
Lemma up_heap fuel h j :
  j < length h -> j < fuel ->
  (forall k, 0 < k < length h -> k <> j -> at_most h (parent k) k) ->
  (forall k, 0 < k < length h -> 0 < j -> parent k = j -> at_most h (parent j) k) ->
  heap_ok (length h) (up fuel h j).
Proof.
  revert h j. induction fuel as [|fuel IH]; intros h j Hj Hf Hk Hc; [lia|]. cbn [up]. cbv zeta.
  pose proof (parent_le j). case_if.
  - intros k Hkn. destruct (decide (k = j)) as [->|Hne]; [|by apply Hk].
    apply orb_true_iff in E as [E%Nat.eqb_eq|E]; [pose proof (parent_spec j); lia|]. zbool. by apply less_false.
  - zbool. apply Nat.eqb_neq in H0. assert (0 < j) as Hj0 by (destruct j; [done|lia]).
    pose proof (parent_spec j Hj0) as Hp. apply less_true in H1.
    rewrite <- (swap_length (parent j) j h).
    assert (forall k, swap (parent j) j h !!! k = if k =? parent j then h !!! j else if k =? j then h !!! parent j else h !!! k)
      as Hsw by (intros k; apply swap_lookup; lia).
    apply IH; rewrite ?swap_length; [lia|lia| |].
    + intros k Hkn Hne. unfold at_most. rewrite !Hsw. destruct (Nat.eqb_spec k (parent j)); [done|].
      destruct (Nat.eqb_spec k j) as [->|Hkj]; [rewrite Nat.eqb_refl; exact H1|].
      destruct (Nat.eqb_spec (parent k) (parent j)) as [Ep|_].
      * eapply at_most_trans; [exact H1|]. rewrite <- Ep. by apply Hk.
      * destruct (Nat.eqb_spec (parent k) j) as [Ej|_]; [by apply Hc|]. by apply Hk.
    + intros k Hkn Hpj Epk. unfold at_most. rewrite !Hsw. pose proof (parent_spec k ltac:(lia)).
      pose proof (parent_spec (parent j) Hpj).
      destruct (Nat.eqb_spec (parent (parent j)) (parent j)); [lia|]. destruct (Nat.eqb_spec (parent (parent j)) j); [lia|].
      destruct (Nat.eqb_spec k (parent j)); [lia|]. destruct (Nat.eqb_spec k j) as [->|].
      * apply (Hk (parent j)); lia.
      * apply (at_most_trans _ _ (parent j)); [apply Hk; lia|]. rewrite <- Epk. apply Hk; lia.
Qed.

(** [down] repairs a heap whose only violations are between [i] and its
    children. *)
Lemma down_heap fuel h i n :
  n <= length h -> i < length h -> n < fuel + i ->
  (forall k, 0 < k < n -> parent k <> i -> at_most h (parent k) k) ->
  (forall k, 0 < k < n -> 0 < i -> parent k = i -> at_most h (parent i) k) ->
  heap_ok n (down fuel h i n).
Proof.
  revert h i. induction fuel as [|fuel IH]; intros h i Hn Hi Hf Hk Hc.
  { intros k Hkn. pose proof (parent_spec k ltac:(lia)). apply Hk; lia. }
  cbn [down]. cbv zeta. destruct (Nat.leb_spec n (2 * i + 1)) as [Hle|Hgt].
  { intros k Hkn. pose proof (parent_spec k ltac:(lia)). apply Hk; lia. }
  set (j := if _ && _ then _ else _).
  assert (j < n /\ 2 * i + 1 <= j <= 2 * i + 2 /\ (forall k, k < n -> 2 * i + 1 <= k <= 2 * i + 2 -> at_most h j k)) as (Hj & Hji & Hmin).
  { subst j. case_if.
    - apply andb_true_iff in E as [E1%Nat.ltb_lt E2%less_true]. split_and!; [lia..|]. intros k Hkn Hki.
      destruct (decide (k = 2 * i + 1)) as [->|]; [done|]. replace k with (2 * i + 1 + 1) by lia. by left.
    - split_and!; [lia..|]. intros k Hkn Hki. destruct (decide (k = 2 * i + 1)) as [->|]; [by left|].
      apply andb_false_iff in E as [E1%Nat.ltb_ge|E2%less_false]; [lia|]. by replace k with (2 * i + 1 + 1) by lia. }
  clearbody j. assert (parent j = i) as Epj by (pose proof (parent_spec j ltac:(lia)); lia). case_if; zbool.
  - intros k Hkn. destruct (decide (parent k = i)) as [Ep|]; [|by apply Hk]. rewrite Ep.
    pose proof (parent_spec k ltac:(lia)). eapply at_most_trans; [by apply less_false|]. apply Hmin; lia.
  - apply less_true in E.
    assert (forall k, swap i j h !!! k = if k =? i then h !!! j else if k =? j then h !!! i else h !!! k)
      as Hsw by (intros k; apply swap_lookup; lia).
    apply IH; rewrite ?swap_length; [lia..| |].
    + intros k Hkn Hne. unfold at_most. rewrite !Hsw. pose proof (parent_spec k ltac:(lia)).
      destruct (Nat.eqb_spec (parent k) i) as [Ep|Hpi].
      * destruct (Nat.eqb_spec k i); [lia|]. destruct (Nat.eqb_spec k j); [exact E|]. apply Hmin; lia.
      * destruct (Nat.eqb_spec (parent k) j); [lia|]. destruct (Nat.eqb_spec k i) as [->|].
        -- apply Hc; lia.
        -- destruct (Nat.eqb_spec k j); [subst; lia|]. apply Hk; lia.
    + intros k Hkn _ Epk. unfold at_most. rewrite !Hsw. pose proof (parent_spec k ltac:(lia)). rewrite Epj, Nat.eqb_refl.
      destruct (Nat.eqb_spec k i); [lia|]. destruct (Nat.eqb_spec k j); [lia|]. rewrite <- Epk. apply Hk; lia.
Qed.

(** ** Push, Pop and the root *)

Lemma heap_root h i : heap_ok (length h) h -> i < length h -> at_most h 0 i.
Proof.
  intros Hh. induction i as [i IH] using lt_wf_ind. intros Hi. destruct i as [|i]; [by left|].
  pose proof (parent_spec (S i) ltac:(lia)). eapply at_most_trans; [apply (IH (parent (S i))); lia|]. apply Hh. lia.
Qed.

Lemma heap_min h x : heap_ok (length h) h -> x ∈ h -> ble (key (h !!! 0)) (key x).
Proof.
  intros Hh [i Hi]%list_elem_of_lookup. rewrite <- (list_lookup_total_correct h i x Hi).
  apply heap_root; [done|]. by eapply lookup_lt_Some.
Qed.

Lemma Push_spec h x : heap_ok (length h) h -> heap_ok (length (Push h x)) (Push h x) /\ Push h x ≡ₚ x :: h.
Proof.
  intros Hh. unfold Push. set (h' := h ++ [x]).
  assert (length h' = S (length h)) as Hl by (unfold h'; rewrite length_app; cbn; lia).
  assert (up (length h') h' (length h' - 1) ≡ₚ h') as Hp by (apply up_perm; lia). split.
  - replace (length (up _ _ _)) with (length h') by by rewrite Hp. apply up_heap; [lia..| |].
    + intros k Hk Hne. unfold at_most, h'. pose proof (parent_le k).
      rewrite !lookup_total_app_l by lia. apply Hh. lia.
    + intros k Hk Hj Ep. pose proof (parent_spec k ltac:(lia)). lia.
  - rewrite Hp. unfold h'. by rewrite Permutation_app_comm.
Qed.

Lemma down_last fuel h i n : n < length h -> i < n \/ n = 0 -> down fuel h i n !!! n = h !!! n.
Proof.
  revert h i. induction fuel as [|fuel IH]; intros h i Hn Hi; cbn [down]; [done|]. cbv zeta.
  destruct (Nat.leb_spec n (2 * i + 1)) as [Hle|Hgt]; [done|].
  set (j := if _ && _ then _ else _).
  assert (j < n) by (subst j; case_if; zbool; rewrite ?Nat.ltb_lt in *; lia).
  case_if; [done|]. rewrite IH; [|rewrite swap_length; lia|lia].
  rewrite swap_lookup by lia. destruct (Nat.eqb_spec n i); [lia|]. by destruct (Nat.eqb_spec n j); [lia|].
Qed.

Lemma Pop_spec h :
  h <> [] -> heap_ok (length h) h ->
  let '(x, h') := Pop h in x = h !!! 0 /\ x :: h' ≡ₚ h /\ heap_ok (length h') h'.
Proof.
  intros Hne Hh. assert (0 < length h) as Hl by (destruct h; [done|cbn; lia]). unfold Pop.
  set (n := length h - 1). set (s := swap 0 n h). set (d := down (length h) s 0 n).
  assert (length s = length h) as Hs by apply swap_length.
  assert (d ≡ₚ h) as Hd. { unfold d, s. rewrite down_perm by (rewrite ?swap_length; lia). apply swap_perm; lia. }
  assert (length d = length h) as Hdl by by rewrite Hd.
  assert (d !!! n = h !!! 0) as Hlast.
  { unfold d. rewrite down_last by lia. unfold s. rewrite swap_lookup by lia.
    destruct (Nat.eqb_spec n 0) as [->|]; [done|]. by rewrite Nat.eqb_refl. }
  split; [done|]. split.
  - rewrite <- Hd. rewrite <- (take_drop n d) at 3. rewrite (drop_S d (d !!! n) n).
    + rewrite drop_ge by lia. by rewrite Permutation_app_comm.
    + apply list_lookup_lookup_total_lt. lia.
  - rewrite length_take, Hdl, Nat.min_l by lia.
    assert (heap_ok n d) as Hn.
    { apply down_heap; [lia..| |lia]. intros k Hk Hp. pose proof (parent_spec k ltac:(lia)). unfold at_most, s.
      rewrite !swap_lookup by lia. destruct (Nat.eqb_spec (parent k) 0); [done|]. destruct (Nat.eqb_spec (parent k) n); [lia|].
      destruct (Nat.eqb_spec k 0); [lia|]. destruct (Nat.eqb_spec k n); [lia|]. apply Hh. lia. }
    intros k Hk. pose proof (parent_le k). unfold at_most. rewrite !lookup_total_take, !decide_True by lia. by apply Hn.
Qed.

End heap.

(** Three pushes and the pops that follow. *)
Example heap_sorts :
  let h := Push id (Push id (Push id [] [Byte.x62]) [Byte.x63]) [Byte.x61] in
  (Pop id h).1 = [Byte.x61] /\ (Pop id (Pop id h).2).1 = [Byte.x62].
Proof. split; reflexivity. Qed.
