(* ===== verification/Merge.v ===== *)
(** * The k-way merge of a compaction

    internal/storage/compaction/merge.go: the streaming merge of several
    tables through a heap of their front entries, and its equivalence with
    the rule "the entry of the newest table wins". *)

From S2P Require Import Prelude Bytes Codec SstFormat SsTable Heap.
From stdpp Require Import functions base tactics numbers gmap sorting list.
From Stdlib Require Import Strings.Byte.
From Stdlib Require Import ZArith Lia.
#[local] Open Scope Z_scope.

Record heapItem := MkItem { tableID : Z; item_entry : Entry }.
#[export] Instance heapItem_inhabited : Inhabited heapItem := populate (MkItem 0 inhabitant).

Definition item_key (it : heapItem) : bytes := Key (item_entry it).

Inductive merge_error := ErrRead (id : Z) | OutOfFuel.

(** The iterators and the heap the closure [advance] shares with the
    loop. *)
Record merge_state := MkMerge { ms_iters : gmap Z Iterator; ms_heap : list heapItem }.

(** A missing reader would be a nil dereference; [mergeTables] is called
    with a reader for every id. *)
Definition advance (readers : gmap Z Reader) (st : merge_state) (id : Z) : result merge_error merge_state :=
  match readers !! id, ms_iters st !! id with
  | Some r, Some it =>
      match Next r it with
      | (it, true) => Ok (MkMerge (<[id := it]> (ms_iters st)) (Push item_key (ms_heap st) (MkItem id (iter_Entry it))))
      | (it, false) => if it_err it then Err (ErrRead id) else Ok (MkMerge (<[id := it]> (ms_iters st)) (ms_heap st))
      end
  | _, _ => Err (ErrRead id)
  end.

Fixpoint advance_all (readers : gmap Z Reader) (st : merge_state) (ids : list Z) : result merge_error merge_state :=
  match ids with
  | [] => Ok st
  | id :: ids => st ← advance readers st id; advance_all readers st ids
  end.

(** The inner loop: every front entry with this key, keeping the one of the
    newest table. *)
Fixpoint take_key (fuel : nat) (readers : gmap Z Reader) (key : bytes) (best : option heapItem) (st : merge_state) :
    result merge_error (option heapItem * merge_state) :=
  match fuel with
  | O => Err OutOfFuel
  | S fuel =>
      if negb (bool_decide (ms_heap st = [])) && bool_decide (item_key (ms_heap st !!! 0%nat) = key) then
        let '(item, h) := Pop item_key (ms_heap st) in
        let best := match best with
                    | Some b => if tableID item >? tableID b then Some item else Some b
                    | None => Some item
                    end in
        st ← advance readers (MkMerge (ms_iters st) h) (tableID item);
        take_key fuel readers key best st
      else Ok (best, st)
  end.

Fixpoint merge_loop (fuel inner : nat) (readers : gmap Z Reader) (dropTombstones : bool) (st : merge_state)
    (out : list Entry) : result merge_error (list Entry) :=
  match fuel with
  | O => Err OutOfFuel
  | S fuel =>
      if bool_decide (ms_heap st = []) then Ok out
      else
        '(best, st) ← take_key inner readers (item_key (ms_heap st !!! 0%nat)) None st;
        let e := item_entry (default inhabitant best) in
        if Tombstone e && dropTombstones then merge_loop fuel inner readers dropTombstones st out
        else merge_loop fuel inner readers dropTombstones st (out ++ [e])
  end.

(** At most this many entries come out of a table: a block has no more
    entries than the file has bytes. *)
Definition table_fuel (r : Reader) : nat := length (r_index r) * length (r_data r).
Definition merge_fuel (readers : gmap Z Reader) (ids : list Z) : nat :=
  S (sum_list ((fun id => match readers !! id with Some r => table_fuel r | None => 0%nat end) <$> ids)).

Definition mergeTables (sortedIDs : list Z) (readers : gmap Z Reader) (dropTombstones : bool) :
    result merge_error (list Entry) :=
  let iters := list_to_map ((fun id => (id, NewIterator)) <$> sortedIDs) in
  let fuel := merge_fuel readers sortedIDs in
  st ← advance_all readers (MkMerge iters []) sortedIDs;
  merge_loop fuel fuel readers dropTombstones st [].

(** ** The specification: the newest table's entry wins *)

(** The entry a reader of these tables (oldest first) finds. *)
Fixpoint newest (contents : Z -> list Entry) (ids : list Z) (key : bytes) : option Entry :=
  match ids with
  | [] => None
  | id :: ids => match newest contents ids key with
                 | Some e => Some e
                 | None => find_key (contents id) key
                 end
  end.

(** What is left of it when tombstones are dropped. *)
Definition keep (dropTombstones : bool) (o : option Entry) : option Entry :=
  match o with
  | Some e => if Tombstone e && dropTombstones then None else Some e
  | None => None
  end.

(** ** What an iterator still yields *)

Fixpoint yields (r : Reader) (it : Iterator) (es : list Entry) : Prop :=
  match es with
  | [] => exists it', Next r it = (it', false) /\ it_err it' = false
  | e :: es => exists it', Next r it = (it', true) /\ iter_Entry it' = e /\ yields r it' es
  end.

Lemma drain_yields fuel r it es : drain fuel r it = (es, false) -> yields r it es.
Proof.
  revert it es. induction fuel as [|fuel IH]; intros it es; cbn [drain]; [done|].
  destruct (Next r it) as [it' []] eqn:E.
  - destruct (drain fuel r it') as [es' err] eqn:Ed. intros [= <- ->]. exists it'. auto.
  - intros [= <- Herr]. by exists it'.
Qed.

Lemma p_many_length {A} fuel (p : parser A) l xs : p_many fuel p l = Done xs -> (length xs <= fuel)%nat.
Proof.
  revert l xs. induction fuel as [|fuel IH]; intros [|b l] xs; cbn; try done; try (intros [= <-]; cbn; lia).
  destruct (p (b :: l)) as [[a l']| |]; try done. destruct (p_many fuel p l') eqn:E; try done.
  intros [= <-]. apply IH in E. cbn. lia.
Qed.

Lemma read_block_length r i es : read_block r i = Done es -> (length es <= length (r_data r))%nat.
Proof.
  unfold read_block, decodeBlock, sealed_payload. repeat case_if; try done.
  set (s := readAt _ _ _). intros H%p_many_length.
  assert (length s <= length (r_data r))%nat by (unfold s, readAt, slice; rewrite length_take, length_drop; lia).
  rewrite length_take in H. lia.
Qed.

(** What an iterator can still yield at most. *)
Definition potential (r : Reader) (it : Iterator) : nat :=
  (length (it_entries it) - Z.to_nat (it_pos it + 1)) + (length (r_index r) - it_nextBlock it) * length (r_data r).

Lemma next_loop_potential fuel r it it' :
  next_loop fuel r it = (it', true) -> -1 <= it_pos it ->
  (potential r it' < potential r it)%nat /\ -1 <= it_pos it'.
Proof.
  revert it. induction fuel as [|fuel IH]; intros it; cbn [next_loop]; [done|]. case_if; zbool.
  - intros [= <-] Hp. unfold potential. cbn. unfold zlen in *. lia.
  - case_if; [done|]. apply Nat.leb_gt in E0. destruct (read_block r (it_nextBlock it)) as [es| |] eqn:Er; try done.
    intros H Hp. apply IH in H as [H ?]; [|cbn; lia]. split; [|done]. eapply Nat.lt_le_trans; [exact H|].
    apply read_block_length in Er. unfold potential. cbn.
    replace (length (r_index r) - it_nextBlock it)%nat with (S (length (r_index r) - S (it_nextBlock it))) by lia.
    cbn. lia.
Qed.

Lemma yields_potential r it es : yields r it es -> -1 <= it_pos it -> (length es <= potential r it)%nat.
Proof.
  revert it. induction es as [|e es IH]; intros it Hy Hp; cbn; [lia|]. destruct Hy as (it' & Hn & _ & Hy).
  unfold Next in Hn. destruct (it_err it); [done|]. apply next_loop_potential in Hn as [? ?]; [|done].
  apply IH in Hy; [|done]. lia.
Qed.

Lemma yields_fuel r es : yields r NewIterator es -> (length es <= table_fuel r)%nat.
Proof.
  intros Hy. apply yields_potential in Hy; [|cbn; lia]. unfold potential, table_fuel in *. cbn in Hy. lia.
Qed.

(** ** The loop invariant *)

(** What a table has still to contribute, with its front entry on the
    heap. *)
Definition front (pend : Z -> list Entry) (id : Z) : option heapItem :=
  match pend id with [] => None | e :: _ => Some (MkItem id e) end.

(** Removes a front entry with this key. *)
Definition strip (key : bytes) (es : list Entry) : list Entry :=
  match es with
  | e :: rest => if bool_decide (Key e = key) then rest else es
  | [] => []
  end.

Lemma front_Some pend id it : front pend id = Some it -> exists rest, pend id = item_entry it :: rest /\ tableID it = id.
Proof. unfold front. destruct (pend id) as [|e rest]; [done|]. intros [= <-]. eauto. Qed.

Section Loop.
Context (readers : gmap Z Reader) (ids : list Z) (Hids : NoDup ids).

(** [heads]: the tables whose front entry is on the heap. *)
Record merge_inv (st : merge_state) (pend : Z -> list Entry) (heads : list Z) : Prop := {
  mi_nodup : NoDup heads;
  mi_heap : heap_ok item_key (length (ms_heap st)) (ms_heap st);
  mi_items : ms_heap st ≡ₚ omap (front pend) heads;
  mi_iters id : id ∈ ids -> exists r it, readers !! id = Some r /\ ms_iters st !! id = Some it /\
    (id ∉ heads -> yields r it (pend id)) /\
    (forall e rest, id ∈ heads -> pend id = e :: rest -> yields r it rest) }.

Lemma merge_inv_perm st pend heads heads' :
  heads ≡ₚ heads' -> merge_inv st pend heads -> merge_inv st pend heads'.
Proof.
  intros Hp [H1 H2 H3 H4]. split; [by rewrite <- Hp|done|by rewrite <- Hp|].
  intros id Hid. destruct (H4 id Hid) as (r & it & ? & ? & ? & ?). exists r, it. setoid_rewrite <- Hp. auto.
Qed.

Lemma omap_front_ext pend pend' (heads : list Z) :
  (forall id, id ∈ heads -> pend id = pend' id) -> omap (front pend) heads = omap (front pend') heads.
Proof.
  intros H. induction heads as [|id heads IH]; [done|]. cbn.
  rewrite IH by (intros; apply H; by right). replace (front pend' id) with (front pend id); [done|].
  unfold front. rewrite (H id); [done|by left].
Qed.

Lemma merge_inv_ext st pend pend' heads :
  heads ⊆ ids -> (forall id, id ∈ ids -> pend id = pend' id) -> merge_inv st pend heads -> merge_inv st pend' heads.
Proof.
  intros Hsub He [H1 H2 H3 H4]. split; [done..| |].
  - rewrite H3. erewrite omap_front_ext; [done|]. auto.
  - intros id Hid. rewrite <- (He id Hid). auto.
Qed.

Lemma refill_spec st pend heads id :
  merge_inv st pend heads -> id ∈ ids -> id ∉ heads ->
  exists st', advance readers st id = Ok st' /\ merge_inv st' pend (id :: heads).
Proof.
  intros [H1 H2 H3 H4] Hid Hn. destruct (H4 id Hid) as (r & it & Hr & Hi & Hy & _). specialize (Hy Hn).
  unfold advance. rewrite Hr, Hi.
  assert (forall it', (forall e rest, pend id = e :: rest -> yields r it' rest) -> forall id0, id0 ∈ ids ->
    exists r0 it0, readers !! id0 = Some r0 /\ <[id := it']> (ms_iters st) !! id0 = Some it0 /\
      (id0 ∉ id :: heads -> yields r0 it0 (pend id0)) /\
      (forall e rest, id0 ∈ id :: heads -> pend id0 = e :: rest -> yields r0 it0 rest)) as Hit.
  { intros it' Hy' id0 Hid0. destruct (decide (id0 = id)) as [->|Hne].
    - exists r, it'. rewrite lookup_insert_eq. split_and!; [done..| |].
      + intros Hno. exfalso. apply Hno. by left.
      + intros e rest _. apply Hy'.
    - destruct (H4 id0 Hid0) as (r0 & it0 & ? & ? & Hya & Hyb). exists r0, it0. rewrite lookup_insert_ne by done.
      split_and!; [done..| |].
      + intros Hno. apply Hya. intros ?. apply Hno. by right.
      + intros e rest [->|?]%elem_of_cons; [done|]. by apply Hyb. }
  destruct (pend id) as [|e rest] eqn:Ep; cbn in Hy.
  - destruct Hy as (it' & -> & ->). eexists. split; [done|]. split; cbn; [by apply NoDup_cons|done| |].
    + unfold front at 1. by rewrite Ep.
    + apply Hit. by intros.
  - destruct Hy as (it' & -> & He & Hy). eexists. split; [done|].
    destruct (Push_spec item_key (ms_heap st) (MkItem id (iter_Entry it')) H2) as [Hh Hp].
    split; cbn; [by apply NoDup_cons|done| |].
    + rewrite Hp, H3. unfold front at 2. by rewrite Ep, He.
    + apply Hit. by intros ? ? [= <- <-].
Qed.

Lemma advance_all_spec todo st pend heads :
  merge_inv st pend heads -> todo ⊆ ids -> NoDup (todo ++ heads) ->
  exists st', advance_all readers st todo = Ok st' /\ merge_inv st' pend (reverse todo ++ heads).
Proof.
  clear Hids. revert st heads. induction todo as [|id todo IH]; intros st heads Hinv Hsub Hnd; cbn [advance_all]; [by eexists|].
  cbn in Hnd. apply NoDup_cons in Hnd as [Hn Hnd].
  destruct (refill_spec st pend heads id Hinv) as (st1 & -> & Hinv1); [apply Hsub; by left|set_solver|].
  destruct (IH st1 (id :: heads) Hinv1) as (st2 & E2 & Hinv2); [set_solver| |].
  - rewrite <- Permutation_middle. by apply NoDup_cons.
  - exists st2. split; [done|]. by rewrite reverse_cons, <- app_assoc.
Qed.

(** Popping the root and refilling from its table. *)
Lemma pop_advance st pend :
  merge_inv st pend ids -> ms_heap st <> [] ->
  exists id e rest st', ms_heap st !!! 0%nat = MkItem id e /\ id ∈ ids /\ pend id = e :: rest /\
    (forall id' e' rest', id' ∈ ids -> pend id' = e' :: rest' -> ble (Key e) (Key e')) /\
    (let '(item, h) := Pop item_key (ms_heap st) in
     item = MkItem id e /\ advance readers (MkMerge (ms_iters st) h) id = Ok st') /\
    merge_inv st' (<[id := rest]> pend) ids.
Proof using Hids.
  intros [H1 H2 H3 H4] Hne. pose proof (Pop_spec item_key (ms_heap st) Hne H2) as Hp.
  destruct (Pop item_key (ms_heap st)) as [item h]. destruct Hp as (Hroot & Hperm & Hh).
  assert (item ∈ omap (front pend) ids) as Hin by (rewrite <- H3, <- Hperm; by left).
  apply list_elem_of_omap in Hin as (id & Hid & Hf). apply front_Some in Hf as (rest & Ep & Et).
  destruct item as [id' e]. cbn in Ep, Et. subst id'.
  apply elem_of_Permutation in Hid as Hpid. destruct Hpid as [heads Hheads].
  assert (NoDup (id :: heads)) as Hnd by by rewrite <- Hheads. apply NoDup_cons in Hnd as [Hnid Hnd].
  assert (h ≡ₚ omap (front pend) heads) as Hhp.
  { apply (Permutation_cons_inv (a := MkItem id e)). rewrite Hperm, H3, Hheads. cbn. unfold front at 1. by rewrite Ep. }
  assert (merge_inv (MkMerge (ms_iters st) h) (<[id := rest]> pend) heads) as Hinv.
  { split; cbn; [done..| |].
    - rewrite Hhp. erewrite omap_front_ext; [done|]. intros i Hi. rewrite fn_lookup_insert_ne; [done|]. by intros ->.
    - intros i Hi. destruct (H4 i Hi) as (r & it & Hr & Hit & _ & Hy). exists r, it. split_and!; [done..| |].
      + intros Hni. assert (i = id) as ->. { rewrite Hheads in Hi. by apply elem_of_cons in Hi as [?|?]. }
        rewrite fn_lookup_insert. by eapply Hy.
      + intros e' rest' Hih. rewrite fn_lookup_insert_ne by (by intros ->). apply Hy. done. }
  destruct (refill_spec _ _ _ id Hinv Hid Hnid) as (st' & Ha & Hinv').
  exists id, e, rest, st'. split_and!; [done..| |done|done|by eapply merge_inv_perm].
  intros id' e' rest' Hid' Ep'. change (Key e) with (item_key (MkItem id e)). rewrite Hroot.
  apply (heap_min item_key (ms_heap st) (MkItem id' e') H2).
  rewrite H3. apply list_elem_of_omap. exists id'. unfold front. by rewrite Ep'.
Qed.

Definition all_sorted (pend : Z -> list Entry) : Prop := forall id, id ∈ ids -> sorted_entries (pend id).
Definition all_above (key : bytes) (pend : Z -> list Entry) : Prop :=
  forall id e, id ∈ ids -> e ∈ pend id -> ble key (Key e).
Definition weight (pend : Z -> list Entry) : nat := sum_list ((fun id => length (pend id)) <$> ids).

Lemma weight_insert pend id e rest :
  id ∈ ids -> pend id = e :: rest -> weight pend = S (weight (<[id := rest]> pend)).
Proof using Hids.
  intros Hid Ep. unfold weight. clear -Hids Hid Ep. induction ids as [|i l IH]; [by apply not_elem_of_nil in Hid|].
  apply NoDup_cons in Hids as [Hni Hnd]. cbn. apply elem_of_cons in Hid as [->|Hid].
  - rewrite fn_lookup_insert, Ep. cbn. f_equal. f_equal. f_equal. apply list_fmap_ext. intros k x Hk.
    rewrite fn_lookup_insert_ne; [done|]. intros ->. apply Hni. by eapply list_elem_of_lookup_2.
  - rewrite IH by done. rewrite fn_lookup_insert_ne; [lia|]. by intros ->.
Qed.

(** [b'] is the newest of [b] and the front entries with this key. *)
Record best_of (key : bytes) (pend : Z -> list Entry) (b b' : option heapItem) : Prop := {
  bo_front id e rest : id ∈ ids -> pend id = e :: rest -> Key e = key ->
    exists it, b' = Some it /\ id <= tableID it;
  bo_before it0 : b = Some it0 -> exists it, b' = Some it /\ tableID it0 <= tableID it;
  bo_from it : b' = Some it -> b = Some it \/
    (tableID it ∈ ids /\ exists rest, pend (tableID it) = item_entry it :: rest /\ item_key it = key) }.

Lemma sorted_cons_strip key e rest :
  sorted_entries (e :: rest) -> Key e = key -> strip key rest = rest /\ forall x, x ∈ rest -> blt key (Key x).
Proof.
  intros Hs <-. unfold sorted_entries in Hs. cbn in Hs. apply StronglySorted_inv in Hs as [Hs Hall].
  assert (forall x, x ∈ rest -> blt (Key e) (Key x)) as Hx.
  { intros x Hx. rewrite Forall_fmap, Forall_forall in Hall. by apply Hall. }
  split; [|done]. destruct rest as [|x rest]; [done|]. cbn. rewrite bool_decide_eq_false_2; [done|].
  intros Hk. apply (blt_irrefl (Key e)). rewrite <- Hk at 2. apply Hx. by left.
Qed.

Definition no_front (key : bytes) (pend : Z -> list Entry) : Prop :=
  forall id e rest, id ∈ ids -> pend id = e :: rest -> Key e <> key.

(** Nothing with this key left: the loop's result. *)
Lemma take_key_stop key best st pend :
  merge_inv st pend ids -> no_front key pend ->
  merge_inv st (fun id => strip key (pend id)) ids /\ best_of key pend best best.
Proof.
  intros Hinv Hno. split.
  - eapply merge_inv_ext; [done| |exact Hinv]. intros i Hi. cbn. destruct (pend i) as [|e' rest'] eqn:Ei; [done|].
    cbn. by rewrite bool_decide_eq_false_2 by by eapply Hno.
  - split; [|intros it0 H0; exists it0; split; [done|lia]|by left]. intros i e' rest' Hi Ei Hki. by eapply Hno in Hki.
Qed.

Lemma empty_heap_no_front key st pend : merge_inv st pend ids -> ms_heap st = [] -> no_front key pend.
Proof.
  intros Hinv Hne id e rest Hid Ep. exfalso.
  assert (MkItem id e ∈ ms_heap st) as Hin; [|rewrite Hne in Hin; by apply not_elem_of_nil in Hin].
  rewrite (mi_items _ _ _ Hinv). apply list_elem_of_omap. exists id. unfold front. by rewrite Ep.
Qed.

(** One more front entry taken into account. *)
Lemma best_of_step key pend id e rest best best' :
  id ∈ ids -> pend id = e :: rest -> Key e = key -> (forall x, x ∈ rest -> blt key (Key x)) ->
  best_of key (<[id := rest]> pend)
    (match best with Some b => if id >? tableID b then Some (MkItem id e) else Some b | None => Some (MkItem id e) end)
    best' ->
  best_of key pend best best'.
Proof.
  intros Hid Ep Hk Hrest [Hb2 Hb3 Hb4]. set (best1 := match best with Some _ => _ | None => _ end) in *.
  assert (exists b1, best1 = Some b1 /\ id <= tableID b1 /\
    (forall b0, best = Some b0 -> tableID b0 <= tableID b1) /\ (best = Some b1 \/ b1 = MkItem id e))
    as (b1 & Eb1 & Hb1 & Hb0 & Hor).
  { subst best1. destruct best as [b|]; [|exists (MkItem id e); split_and!; cbn; (done || lia || by auto)].
    destruct (id >? tableID b) eqn:E; rewrite Z.gtb_ltb in E; zbool;
      (eexists; split_and!; [done|cbn; lia|intros ? [= <-]; cbn; lia|auto]). }
  destruct (Hb3 b1 Eb1) as (it & -> & Hit). split.
  - intros i e' rest' Hi Ei Hki. exists it. split; [done|]. destruct (decide (i = id)) as [->|Hin]; [lia|].
    destruct (Hb2 i e' rest' Hi) as (it' & [= <-] & ?); [by rewrite fn_lookup_insert_ne|done|done].
  - intros it0 H0. exists it. split; [done|]. specialize (Hb0 _ H0). lia.
  - intros it' [= <-]. destruct (Hb4 it eq_refl) as [H1|(Hi & rest' & Er & Hki)].
    + rewrite Eb1 in H1. injection H1 as <-. destruct Hor as [?| ->]; [by left|right]. cbn. eauto.
    + right. split; [done|]. destruct (decide (tableID it = id)) as [Et|].
      * exfalso. rewrite Et, fn_lookup_insert in Er. apply (blt_irrefl key). rewrite <- Hki at 2.
        apply Hrest. rewrite Er. by left.
      * rewrite fn_lookup_insert_ne in Er by done. eauto.
Qed.

Lemma take_key_spec fuel key best st pend :
  merge_inv st pend ids -> all_sorted pend -> all_above key pend -> (weight pend < fuel)%nat ->
  exists best' st', take_key fuel readers key best st = Ok (best', st') /\
    merge_inv st' (fun id => strip key (pend id)) ids /\ best_of key pend best best'.
Proof using Hids.
  revert best st pend. induction fuel as [|fuel IH]; intros best st pend Hinv Hs Ha Hf; [lia|]. cbn [take_key].
  case_bool_decide as Hne; cbn [negb andb].
  { exists best, st. split; [done|]. apply take_key_stop; [done|]. by eapply empty_heap_no_front. }
  destruct (pop_advance st pend Hinv Hne) as (id & e & rest & st1 & Hroot & Hid & Ep & Hmin & Hpop & Hinv1).
  rewrite Hroot. unfold item_key at 1. cbn [item_entry]. case_bool_decide as Hk.
  - destruct (Pop item_key (ms_heap st)) as [item h]. destruct Hpop as [-> Hadv]. cbn [tableID]. rewrite Hadv. cbn [mbind result_bind].
    destruct (sorted_cons_strip key e rest) as [Hst Hrest]; [rewrite <- Ep; by apply Hs|done|].
    set (best1 := match best with Some _ => _ | None => _ end).
    destruct (IH best1 st1 (<[id := rest]> pend)) as (best' & st' & E & Hinv' & Hb); [done| | | |].
    + intros i Hi. destruct (decide (i = id)) as [->|]; [|rewrite fn_lookup_insert_ne by done; by apply Hs].
      rewrite fn_lookup_insert. pose proof (Hs id Hid) as Hsi. rewrite Ep in Hsi. by apply StronglySorted_inv in Hsi as [? _].
    + intros i x Hi. destruct (decide (i = id)) as [->|]; [|rewrite fn_lookup_insert_ne by done; by apply Ha].
      rewrite fn_lookup_insert. intros Hx. right. by apply Hrest.
    + erewrite weight_insert in Hf by done. lia.
    + exists best', st'. split_and!; [exact E| |by eapply best_of_step].
      eapply merge_inv_ext; [done| |exact Hinv']. intros i Hi. cbn. destruct (decide (i = id)) as [->|].
      * rewrite fn_lookup_insert, Ep, Hst. cbn. by rewrite bool_decide_eq_true_2.
      * by rewrite fn_lookup_insert_ne.
  - exists best, st. split; [done|]. apply take_key_stop; [done|].
    intros i e' rest' Hi Ei Hki. apply Hk. specialize (Hmin _ _ _ Hi Ei). rewrite Hki in Hmin.
    pose proof (Ha id e Hid ltac:(rewrite Ep; by left)) as Hge. destruct Hmin as [?|H1]; [done|].
    destruct Hge as [?|H2]; [done|]. by pose proof (blt_trans _ _ _ H1 H2) as []%blt_irrefl.
Qed.
End Loop.

(** ** Lookups in what is left and in what came out *)

#[local] Arguments find_key : simpl never.

Lemma find_key_cons e es k : find_key (e :: es) k = if bool_decide (Key e = k) then Some e else find_key es k.
Proof.
  unfold find_key. cbn. case_bool_decide as H; [by rewrite decide_True by done|]. rewrite decide_False by done.
  by destruct (list_find _ es) as [[]|].
Qed.

Lemma find_key_app es es' k :
  find_key (es ++ es') k = match find_key es k with Some e => Some e | None => find_key es' k end.
Proof.
  induction es as [|e es IH]; [done|]. rewrite <- app_comm_cons, !find_key_cons. by case_bool_decide.
Qed.

Lemma find_key_absent es k : (forall e, e ∈ es -> Key e <> k) -> find_key es k = None.
Proof.
  intros H. destruct (find_key es k) as [e|] eqn:E; [|done]. apply find_key_Some in E as [He Hk]. by apply H in He.
Qed.

Lemma find_strip_ne key es k : k <> key -> find_key (strip key es) k = find_key es k.
Proof.
  intros Hk. destruct es as [|e es]; [done|]. cbn. case_bool_decide as H; [|done].
  rewrite find_key_cons, bool_decide_eq_false_2; [done|congruence].
Qed.

Lemma above_cons key e es :
  sorted_entries (e :: es) -> blt key (Key e) -> forall x, x ∈ e :: es -> blt key (Key x).
Proof.
  intros Hs Hlt x [->|Hx]%elem_of_cons; [done|]. destruct (sorted_cons_strip (Key e) e es Hs eq_refl) as [_ H].
  eapply blt_trans; [exact Hlt|by apply H].
Qed.

(** After the key's front entry is gone, everything left is above it. *)
Lemma strip_above key es :
  sorted_entries es -> (forall e, e ∈ es -> ble key (Key e)) -> forall x, x ∈ strip key es -> blt key (Key x).
Proof.
  intros Hs Ha. destruct es as [|e es]; [intros x []%not_elem_of_nil|]. cbn. case_bool_decide as Hk.
  - by apply (sorted_cons_strip key e es).
  - apply above_cons; [done|]. destruct (Ha e) as [?|?]; [by left|congruence|done].
Qed.

Lemma strip_sorted key es : sorted_entries es -> sorted_entries (strip key es).
Proof.
  intros Hs. destruct es as [|e es]; [done|]. cbn. case_bool_decide; [|done]. by apply StronglySorted_inv in Hs as [? _].
Qed.

Lemma strip_subset key es x : x ∈ strip key es -> x ∈ es.
Proof. destruct es as [|e es]; [done|]. cbn. case_bool_decide; [by right|done]. Qed.

Lemma newest_ext c c' ids k :
  (forall id, id ∈ ids -> find_key (c id) k = find_key (c' id) k) -> newest c ids k = newest c' ids k.
Proof.
  intros H. induction ids as [|id ids IH]; [done|]. cbn. rewrite IH by (intros; apply H; by right).
  by rewrite (H id) by by left.
Qed.

Lemma newest_None c ids k : (forall id, id ∈ ids -> find_key (c id) k = None) -> newest c ids k = None.
Proof.
  intros H. induction ids as [|id ids IH]; [done|]. cbn. rewrite IH by (intros; apply H; by right). apply H. by left.
Qed.

Lemma newest_max c ids k id e :
  StronglySorted Z.lt ids -> id ∈ ids -> find_key (c id) k = Some e ->
  (forall id', id' ∈ ids -> is_Some (find_key (c id') k) -> id' <= id) -> newest c ids k = Some e.
Proof.
  intros Hs. induction Hs as [|i ids Hs IH Hall]; intros Hid Hf Hmax; [by apply not_elem_of_nil in Hid|]. cbn.
  apply elem_of_cons in Hid as [->|Hid].
  - rewrite newest_None; [done|]. intros id' Hid'. destruct (find_key (c id') k) eqn:E; [|done]. exfalso.
    pose proof (Hmax id' ltac:(by right) ltac:(by eexists)). rewrite Forall_forall in Hall. specialize (Hall _ Hid'). lia.
  - rewrite IH; [done|done|done|]. intros. apply Hmax; [by right|done].
Qed.

Section Result.
Context (readers : gmap Z Reader) (ids : list Z) (Hsorted : StronglySorted Z.lt ids).

Lemma ids_nodup : NoDup ids.
Proof using Hsorted.
  clear -Hsorted. induction Hsorted as [|i l Hs IH Hall]; constructor; [|auto]. intros Hi. rewrite Forall_forall in Hall.
  specialize (Hall _ Hi). lia.
Qed.

Lemma weight_strip key pend id e rest :
  id ∈ ids -> pend id = e :: rest -> Key e = key ->
  (weight ids (fun id => strip key (pend id)) < weight ids pend)%nat.
Proof.
  intros Hid Ep Hk. unfold weight. clear -Hid Ep Hk.
  assert (forall es, length (strip key es) <= length es)%nat as Hle.
  { intros [|x es]; [done|]. cbn. case_bool_decide; cbn; lia. }
  assert (forall l, sum_list ((fun id => length (strip key (pend id))) <$> l) <= sum_list ((fun id => length (pend id)) <$> l))%nat as Hsum.
  { intros l. induction l as [|i l IH]; [done|]. cbn. specialize (Hle (pend i)). lia. }
  induction ids as [|i l IH]; [by apply not_elem_of_nil in Hid|]. cbn. apply elem_of_cons in Hid as [->|Hid].
  - rewrite Ep. cbn. rewrite bool_decide_eq_true_2 by done. specialize (Hsum l). lia.
  - specialize (IH Hid). specialize (Hle (pend i)). lia.
Qed.

(** The winner of the inner loop is what the specification finds. *)
Lemma best_newest key pend best :
  all_sorted ids pend -> all_above ids key pend -> best_of ids key pend None (Some best) ->
  newest pend ids key = Some (item_entry best) /\ item_key best = key /\ tableID best ∈ ids /\
  item_entry best ∈ pend (tableID best).
Proof using Hsorted.
  intros Hs Ha [Hf _ Hb]. destruct (Hb best eq_refl) as [?|(Hid & rest & Ep & Hk)]; [done|].
  split_and!; [|done..|rewrite Ep; by left]. apply (newest_max _ _ _ (tableID best)); [done..| |].
  - rewrite Ep, find_key_cons. by rewrite bool_decide_eq_true_2.
  - intros id Hin [e He]. destruct (pend id) as [|x xs] eqn:Ei; [done|].
    rewrite find_key_cons in He. case_bool_decide as Hx.
    + destruct (Hf id x xs Hin Ei Hx) as (it & [= <-] & ?). done.
    + exfalso. apply find_key_Some in He as [He Hke]. apply (blt_irrefl key). rewrite <- Hke at 2.
      apply (above_cons key x xs); [rewrite <- Ei; by apply Hs| |by right].
      destruct (Ha id x Hin) as [?|?]; [rewrite Ei; by left|congruence|done].
Qed.

Lemma root_above key pend :
  all_sorted ids pend -> (forall id e rest, id ∈ ids -> pend id = e :: rest -> ble key (Key e)) -> all_above ids key pend.
Proof.
  intros Hs Hmin id e Hid He. destruct (pend id) as [|x xs] eqn:Ep; [by apply not_elem_of_nil in He|].
  specialize (Hmin _ _ _ Hid Ep). apply elem_of_cons in He as [->|He]; [done|]. right.
  destruct (sorted_cons_strip (Key x) x xs ltac:(rewrite <- Ep; by apply Hs) eq_refl) as [_ Hx].
  destruct Hmin as [->|?]; [by apply Hx|]. eapply blt_trans; [done|by apply Hx].
Qed.

Lemma newest_strip key pend :
  all_sorted ids pend -> all_above ids key pend ->
  forall k, newest (fun id => strip key (pend id)) ids k = if bool_decide (k = key) then None else newest pend ids k.
Proof.
  intros Hs Ha k. case_bool_decide as Hk.
  - subst k. apply newest_None. intros id Hid. apply find_key_absent. intros e He Hke.
    apply (blt_irrefl key). rewrite <- Hke at 2. apply (strip_above key (pend id)); [by apply Hs| |done].
    intros. by eapply Ha.
  - apply newest_ext. intros id Hid. by apply find_strip_ne.
Qed.

(** What the loop turns [out] and the pending entries into. *)
Definition merge_result (drop_ : bool) (pend : Z -> list Entry) (out res : list Entry) : Prop :=
  sorted_entries res /\
  (forall k, find_key res k = match find_key out k with
                              | Some e => Some e
                              | None => keep drop_ (newest pend ids k)
                              end) /\
  (forall x, x ∈ res -> x ∈ out \/ exists id, id ∈ ids /\ x ∈ pend id).

Lemma merge_loop_spec fuel inner drop_ st pend out :
  merge_inv readers ids st pend ids -> all_sorted ids pend ->
  (weight ids pend < fuel)%nat -> (weight ids pend < inner)%nat ->
  sorted_entries out -> (forall x id e, x ∈ out -> id ∈ ids -> e ∈ pend id -> blt (Key x) (Key e)) ->
  exists res, merge_loop fuel inner readers drop_ st out = Ok res /\ merge_result drop_ pend out res.
Proof using Hsorted.
  revert st pend out. induction fuel as [|fuel IH]; intros st pend out Hinv Hs Hf Hi Ho Hlt; [lia|].
  cbn [merge_loop]. case_bool_decide as Hne.
  { exists out. split; [done|]. split_and!; [done| |by left]. intros k. destruct (find_key out k); [done|].
    rewrite newest_None; [done|]. intros id Hid. pose proof (empty_heap_no_front readers ids k st pend Hinv Hne) as Hno.
    destruct (pend id) as [|e rest] eqn:Ep; [done|]. exfalso.
    by apply (empty_heap_no_front readers ids (Key e) st pend Hinv Hne id e rest). }
  destruct (pop_advance readers ids ids_nodup st pend Hinv Hne) as (id0 & e0 & rest0 & _ & Hroot & Hid0 & Ep0 & Hmin & _).
  rewrite Hroot. unfold item_key at 1. cbn [item_entry]. set (key := Key e0) in *.
  pose proof (root_above key pend Hs Hmin) as Ha.
  destruct (take_key_spec readers ids ids_nodup inner key None st pend Hinv Hs Ha Hi) as (best' & st' & -> & Hinv' & Hb).
  cbn [mbind result_bind]. destruct (bo_front _ _ _ _ _ Hb id0 e0 rest0 Hid0 Ep0 eq_refl) as (best & -> & _).
  destruct (best_newest key pend best Hs Ha Hb) as (Hnew & Hkey & Hbid & Hbin).
  change (default inhabitant (Some best)) with best. cbv zeta.
  set (pend' := fun id => strip key (pend id)) in *.
  assert (all_sorted ids pend') as Hs' by (intros id Hid; by apply strip_sorted, Hs).
  pose proof (weight_strip key pend id0 e0 rest0 Hid0 Ep0 eq_refl) as Hw. fold pend' in Hw.
  pose proof (newest_strip key pend Hs Ha) as Hnew'. fold pend' in Hnew'.
  assert (find_key out key = None) as Hout.
  { apply find_key_absent. intros x Hx Hk. apply (blt_irrefl key). rewrite <- Hk at 1. rewrite <- Hkey. by eapply Hlt. }
  destruct (Tombstone (item_entry best) && drop_) eqn:Et.
  - destruct (IH st' pend' out) as (res & -> & Hr1 & Hr2 & Hr3); [done|done|lia|lia|done| |].
    { intros x id e Hx Hid He. eapply Hlt; [done|done|]. by eapply strip_subset. }
    exists res. split; [done|]. split_and!; [done| |].
    + intros k. rewrite Hr2, Hnew'. case_bool_decide as Hk; [|done]. subst k. rewrite Hout, Hnew. cbn. by rewrite Et.
    + intros x Hx. destruct (Hr3 x Hx) as [?|(id & ? & ?%strip_subset)]; eauto.
  - destruct (IH st' pend' (out ++ [item_entry best])) as (res & -> & Hr1 & Hr2 & Hr3); [done|done|lia|lia| | |].
    { apply sorted_snoc; [done|]. intros l Hl. eapply Hlt; [|done|done].
      rewrite last_lookup in Hl. by eapply list_elem_of_lookup_2. }
    { intros x id e [Hx|Hx]%elem_of_app Hid He.
      - eapply Hlt; [done|done|]. by eapply strip_subset.
      - apply list_elem_of_singleton in Hx as ->. change (blt (item_key best) (Key e)). rewrite Hkey.
        eapply strip_above; [by apply (Hs id)| |done]. intros. by eapply Ha. }
    exists res. split; [done|]. split_and!; [done| |].
    + intros k. rewrite Hr2, Hnew', find_key_app, find_key_cons. change (Key (item_entry best)) with (item_key best).
      rewrite Hkey. destruct (find_key out k) eqn:Eo; [done|]. destruct (decide (k = key)) as [->|Hk].
      * rewrite !bool_decide_eq_true_2 by done. rewrite Hnew. cbn. by rewrite Et.
      * by rewrite !bool_decide_eq_false_2 by done.
    + intros x Hx. destruct (Hr3 x Hx) as [[?|?]%elem_of_app|(id & ? & ?%strip_subset)]; [by left| |eauto].
      apply list_elem_of_singleton in H as ->. right. eauto.
Qed.
End Result.

(** A reader over a table with these entries. *)
Definition reads (r : Reader) (es : list Entry) : Prop :=
  drain (S (length es)) r NewIterator = (es, false) /\ sorted_entries es.

Lemma weight_fuel readers ids contents :
  (forall id, id ∈ ids -> exists r, readers !! id = Some r /\ reads r (contents id)) ->
  (weight ids contents < merge_fuel readers ids)%nat.
Proof.
  intros H. unfold weight, merge_fuel. apply Nat.lt_succ_r. induction ids as [|id ids IH]; [done|]. cbn.
  destruct (H id) as (r & -> & Hd & _); [by left|]. apply drain_yields, yields_fuel in Hd.
  assert (sum_list ((fun id => length (contents id)) <$> ids) <=
    sum_list ((fun id => match readers !! id with Some r => table_fuel r | None => 0 end) <$> ids))%nat; [|lia].
  apply IH. intros. apply H. by right.
Qed.

Lemma mergeTables_spec ids readers dropTombstones contents :
  StronglySorted Z.lt ids ->
  (forall id, id ∈ ids -> exists r, readers !! id = Some r /\ reads r (contents id)) ->
  exists res, mergeTables ids readers dropTombstones = Ok res /\ merge_result ids dropTombstones contents [] res.
Proof.
  intros Hs Hr. pose proof (ids_nodup ids Hs) as Hnd. unfold mergeTables.
  set (st0 := MkMerge _ _). destruct (advance_all_spec readers ids ids st0 contents []) as (st & -> & Hinv).
  - split; cbn; [constructor|intros j Hj; cbn in Hj; lia|done|]. intros id Hid.
    destruct (Hr id Hid) as (r & Hrd & Hd & _). exists r, NewIterator. split_and!; [done| | |].
    + apply elem_of_list_to_map_1; [|by apply (list_elem_of_fmap_2 (fun id => (id, NewIterator)))].
      rewrite <- list_fmap_compose. cbn. by rewrite list_fmap_id.
    + intros _. by eapply drain_yields.
    + intros e rest []%not_elem_of_nil.
  - done.
  - by rewrite app_nil_r.
  - cbn [mbind result_bind]. pose proof (weight_fuel readers ids contents Hr).
    apply merge_loop_spec; [done| |intros id Hid; by destruct (Hr id Hid) as (? & _ & _ & ?)|done|done|apply SSorted_nil|].
    + eapply merge_inv_perm; [|exact Hinv]. by rewrite app_nil_r, reverse_Permutation.
    + intros x id e []%not_elem_of_nil.
Qed.

(** C26. The streaming heap merge is the merge by definition: over readers
    that iterate their tables, it terminates without an error, its output is
    strictly increasing, and a lookup in it finds for every key exactly the
    entry of the newest table that has one, less the tombstones when they
    are to be dropped. *)
Theorem mergeTables_newest_wins (ids : list Z) (readers : gmap Z Reader) (dropTombstones : bool)
    (contents : Z -> list Entry) :
  StronglySorted Z.lt ids ->
  (forall id, id ∈ ids -> exists r, readers !! id = Some r /\ reads r (contents id)) ->
  exists res, mergeTables ids readers dropTombstones = Ok res /\ sorted_entries res /\
    (forall k, find_key res k = keep dropTombstones (newest contents ids k)).
Proof.
  intros Hs Hr. destruct (mergeTables_spec ids readers dropTombstones contents Hs Hr) as (res & E & H1 & H2 & _).
  exists res. split; [done|]. split; [done|]. intros k. by rewrite H2.
Qed.

(** The reader of a freshly built table. *)
Definition reader_of (es : list Entry) : Reader :=
  match add_all NewWriter es ≫= Build 29 7 with
  | Ok data => match open data with Done r => r | _ => MkReader [] [] (MkBloom 0 0 []) (MkMeta 0 [] []) end
  | Err _ => MkReader [] [] (MkBloom 0 0 []) (MkMeta 0 [] [])
  end.

Definition old_table : list Entry := [MkEntry [x61] [x31] false; MkEntry [x62] [x32] false].
Definition new_table : list Entry := [MkEntry [x62] [] true; MkEntry [x63] [x33] false].

Example mergeTables_newest_wins_witness :
  exists res, mergeTables [1; 2] {[1 := reader_of old_table; 2 := reader_of new_table]} true = Ok res /\ sorted_entries res /\
    (forall k, find_key res k = keep true (newest (fun id => if id =? 1 then old_table else new_table) [1; 2] k)).
Proof.
  apply (mergeTables_newest_wins [1; 2] {[1 := reader_of old_table; 2 := reader_of new_table]} true
    (fun id => if id =? 1 then old_table else new_table)).
  - repeat constructor.
  - intros id Hid. apply elem_of_cons in Hid as [->|Hid%list_elem_of_singleton]; [|subst id].
    + exists (reader_of old_table). split; [reflexivity|]. split; [vm_compute; reflexivity|repeat constructor].
    + exists (reader_of new_table). split; [reflexivity|]. split; [vm_compute; reflexivity|repeat constructor].
Defined.
