(* ===== verification/Tracker.v ===== *)
(** * Reader-safe reclamation of table files

    internal/storage/compaction/tracker.go: reference counts on table files
    and the deferred removal of retired ones. *)

From S2P Require Import Prelude Bytes.
From stdpp Require Import base tactics list numbers gmap.
From Stdlib Require Import Strings.Byte.
From Stdlib Require Import ZArith Lia.
#[local] Open Scope Z_scope.

Record Tracker := MkTracker { refs : gmap bytes Z; retired : gset bytes }.

Definition NewTracker : Tracker := MkTracker ∅ ∅.

(** [t.refs[path]]: a missing entry reads as zero. *)
Definition ref_count (t : Tracker) (path : bytes) : Z := default 0 (refs t !! path).

Definition Acquire (t : Tracker) (path : bytes) : Tracker :=
  MkTracker (<[path := ref_count t path + 1]> (refs t)) (retired t).

(** [release] and [Retire] return whether they go on to remove the file,
    which they do after unlocking. *)
Definition release (t : Tracker) (path : bytes) : Tracker * bool :=
  let t := MkTracker (<[path := ref_count t path - 1]> (refs t)) (retired t) in
  if ref_count t path <=? 0 then
    let t := MkTracker (delete path (refs t)) (retired t) in
    if bool_decide (path ∈ retired t) then (MkTracker (refs t) (retired t ∖ {[path]}), true) else (t, false)
  else (t, false).

Definition Retire (t : Tracker) (path : bytes) : Tracker * bool :=
  let held := 0 <? ref_count t path in
  ((if held then MkTracker (refs t) ({[path]} ∪ retired t) else t), negb held).

Definition Held (t : Tracker) (path : bytes) : bool := 0 <? ref_count t path.

(** ** Readers

    The release functions [Acquire] returned, with the state of the
    [sync.Once] each of them carries. *)

Record handle := MkHandle { h_path : bytes; h_done : bool }.
Record tracked := MkTracked { tk : Tracker; handles : list handle }.

Inductive track_op := DoAcquire (path : bytes) | DoRelease (h : nat) | DoRetire (path : bytes).

(** One operation under the mutex, with the file it decides to remove. *)
Definition track_step (st : tracked) (o : track_op) : tracked * option bytes :=
  match o with
  | DoAcquire path => (MkTracked (Acquire (tk st) path) (handles st ++ [MkHandle path false]), None)
  | DoRelease i =>
      match handles st !! i with
      | Some h =>
          if h_done h then (st, None)
          else let '(t, rm) := release (tk st) (h_path h) in
               (MkTracked t (<[i := MkHandle (h_path h) true]> (handles st)), if rm then Some (h_path h) else None)
      | None => (st, None)
      end
  | DoRetire path =>
      let '(t, rm) := Retire (tk st) path in (MkTracked t (handles st), if rm then Some path else None)
  end.

Definition track_run (ops : list track_op) : tracked :=
  fold_left (fun st o => (track_step st o).1) ops (MkTracked NewTracker []).

(** How many readers hold [path]. *)
Definition is_open (path : bytes) (h : handle) : bool := bool_decide (h_path h = path) && negb (h_done h).
Definition open_count (path : bytes) (hs : list handle) : Z := zlen (filter (fun h => is_open path h = true) hs).

(** ** The counts are exact *)

Record track_inv (st : tracked) : Prop := {
  ti_count path : ref_count (tk st) path = open_count path (handles st);
  ti_retired path : path ∈ retired (tk st) -> 0 < open_count path (handles st) }.

Lemma open_count_snoc path hs h : open_count path (hs ++ [h]) = open_count path hs + (if is_open path h then 1 else 0).
Proof.
  unfold open_count. rewrite filter_app, zlen_app. f_equal. rewrite filter_cons. destruct (is_open path h); cbn; done.
Qed.

Lemma open_count_close path hs i h :
  hs !! i = Some h -> h_done h = false ->
  open_count path (<[i := MkHandle (h_path h) true]> hs) =
  open_count path hs - (if bool_decide (h_path h = path) then 1 else 0).
Proof.
  intros Hi Hd. revert i Hi. unfold open_count. induction hs as [|x hs IH]; intros [|i] Hi; [done|done| |].
  - injection Hi as ->. cbn [insert list_insert]. rewrite !filter_cons.
    assert (is_open path (MkHandle (h_path h) true) = false) as -> by (unfold is_open; cbn; by rewrite andb_false_r).
    assert (is_open path h = bool_decide (h_path h = path)) as -> by (unfold is_open; by rewrite Hd, andb_true_r).
    rewrite (decide_False (P := false = true)) by done.
    case_bool_decide; [rewrite decide_True by done; zlen_lia|rewrite decide_False by done; lia].
  - cbn in Hi. specialize (IH i Hi).
    change (<[S i := MkHandle (h_path h) true]> (x :: hs)) with (x :: <[i := MkHandle (h_path h) true]> hs). rewrite !filter_cons.
    destruct (decide (is_open path x = true)); rewrite ?zlen_cons, IH; lia.
Qed.

Lemma ref_count_insert t path n q :
  ref_count (MkTracker (<[path := n]> (refs t)) (retired t)) q = if bool_decide (path = q) then n else ref_count t q.
Proof.
  unfold ref_count. cbn. case_bool_decide as H; [subst; by rewrite lookup_insert_eq|by rewrite lookup_insert_ne].
Qed.

Lemma release_spec t path :
  (forall q, ref_count (release t path).1 q =
     if bool_decide (path = q) then Z.max 0 (ref_count t path - 1) else ref_count t q) /\
  (forall q, q ∈ retired (release t path).1 -> q ∈ retired t) /\
  ((release t path).2 = true <-> ref_count t path <= 1 /\ path ∈ retired t) /\
  (path ∈ retired t -> (release t path).2 = false -> path ∈ retired (release t path).1) /\
  ((release t path).2 = true -> path ∉ retired (release t path).1) /\
  (forall q, q <> path -> q ∈ retired t -> q ∈ retired (release t path).1).
Proof.
  unfold release. cbv zeta. rewrite ref_count_insert, bool_decide_eq_true_2 by done. cbn [refs retired].
  destruct (ref_count t path - 1 <=? 0) eqn:E; zbool.
  - assert (forall q R, ref_count (MkTracker (delete path (<[path:=ref_count t path - 1]> (refs t))) R) q =
      if bool_decide (path = q) then Z.max 0 (ref_count t path - 1) else ref_count t q) as Hc.
    { intros q R. unfold ref_count at 1. cbn. case_bool_decide as Hq; [subst; rewrite lookup_delete_eq; cbn; lia|].
      by rewrite lookup_delete_ne, lookup_insert_ne. }
    case_bool_decide as Hr; cbn [fst snd refs retired]; (split; [intros q; apply Hc|]);
      split_and!; first [set_solver|naive_solver lia].
  - cbn [fst snd refs retired]. split; [intros q; rewrite ref_count_insert; case_bool_decide; [lia|done]|].
    split_and!; first [set_solver|naive_solver lia].
Qed.

Lemma open_count_nonneg path hs : 0 <= open_count path hs.
Proof. apply zlen_nonneg. Qed.

(** One step keeps the counts exact, and says what it removed and what it
    keeps for later. *)
Lemma track_step_spec st o :
  track_inv st ->
  let '(st', rm) := track_step st o in
  track_inv st' /\
  (forall p, rm = Some p -> open_count p (handles st') = 0 /\ p ∉ retired (tk st')) /\
  (forall p, p ∈ retired (tk st) -> p ∈ retired (tk st') \/ rm = Some p) /\
  (forall p, o = DoRetire p -> p ∈ retired (tk st') \/ rm = Some p).
Proof.
  intros [Hc Hr]. destruct o as [p|i|p]; cbn [track_step].
  - split; [|naive_solver]. split; cbn.
    + intros q. unfold Acquire. rewrite ref_count_insert, open_count_snoc. unfold is_open. cbn. rewrite andb_true_r.
      case_bool_decide; [subst; by rewrite Hc|rewrite Hc; lia].
    + intros q Hq%Hr. rewrite open_count_snoc. case_if; lia.
  - destruct (handles st !! i) as [h|] eqn:Hi; [|split; [done|naive_solver]].
    destruct (h_done h) eqn:Hd; [split; [done|naive_solver]|].
    destruct (release_spec (tk st) (h_path h)) as (R1 & R2 & R3 & R4 & R5 & R6).
    destruct (release (tk st) (h_path h)) as [t rm]. cbn [fst snd] in *.
    assert (forall q, ref_count t q = open_count q (<[i:=MkHandle (h_path h) true]> (handles st))) as Hcount.
    { intros q. rewrite R1, (open_count_close q _ i h Hi Hd). case_bool_decide; [subst q|rewrite Hc; lia]. rewrite Hc.
      pose proof (open_count_close (h_path h) _ i h Hi Hd) as Hcl. rewrite bool_decide_eq_true_2 in Hcl by done.
      pose proof (open_count_nonneg (h_path h) (<[i:=MkHandle (h_path h) true]> (handles st))). lia. }
    split; [split; cbn; [done|]|split_and!; cbn].
    + intros q Hq. pose proof (Hr q (R2 q Hq)) as Hpos. rewrite <- Hcount, R1. case_bool_decide as Hqe; [|by rewrite Hc].
      subst q. rewrite Hc in *. destruct rm; [by apply R5 in Hq|]. apply R2 in Hq.
      assert (~ open_count (h_path h) (handles st) <= 1); [|lia]. intros Hle. by destruct R3 as [_ R3]; specialize (R3 (conj Hle Hq)).
    + intros q Hq. destruct rm; [|done]. injection Hq as <-. split; [|by apply R5]. rewrite <- Hcount, R1.
      rewrite bool_decide_eq_true_2 by done. destruct R3 as [R3 _]. destruct (R3 eq_refl). lia.
    + intros q Hq. destruct (decide (q = h_path h)) as [->|]; [destruct rm; auto|auto].
    + naive_solver.
  - unfold Retire. rewrite Hc. destruct (0 <? open_count p (handles st)) eqn:E; cbn; zbool.
    + split; [split; cbn; [done|]; set_solver|]. split_and!; set_solver.
    + split; [done|]. split_and!; [|auto|by intros q [= ->]; auto]. intros q [= <-].
      pose proof (open_count_nonneg p (handles st)). split; [lia|]. intros Hq%Hr. lia.
Qed.

Lemma track_run_inv ops : track_inv (track_run ops).
Proof.
  unfold track_run. assert (track_inv (MkTracked NewTracker [])) as H0.
  { split; cbn; [intros; by unfold ref_count; cbn; rewrite lookup_empty|set_solver]. }
  revert H0. generalize (MkTracked NewTracker []) as st. induction ops as [|o ops IH]; intros st Hst; [done|].
  cbn. apply IH. pose proof (track_step_spec st o Hst) as H. destruct (track_step st o). apply H.
Qed.

(** A tracker never removes a file a reader holds and never forgets a
    retired one: in any interleaving of [Acquire], release calls (repeated
    ones included) and [Retire], [Held] reports exactly whether some reader
    is between its [Acquire] and its release; a file is chosen for removal
    only when no reader holds it; [Retire] removes the file or keeps it
    marked, a marked file has a reader, and it stays marked until the step
    that removes it. *)
Theorem Tracker_protects_readers (ops : list track_op) (o : track_op) :
  let st := track_run ops in
  let '(st', rm) := track_step st o in
  (forall p, Held (tk st) p = true <-> exists i h, handles st !! i = Some h /\ h_path h = p /\ h_done h = false) /\
  (forall p, rm = Some p -> Held (tk st') p = false /\ p ∉ retired (tk st')) /\
  (forall p, o = DoRetire p -> p ∈ retired (tk st') \/ rm = Some p) /\
  (forall p, p ∈ retired (tk st) -> Held (tk st) p = true /\ (p ∈ retired (tk st') \/ rm = Some p)).
Proof.
  intros st. pose proof (track_run_inv ops) as Hinv. fold st in Hinv. pose proof (track_step_spec st o Hinv) as Hs.
  destruct (track_step st o) as [st' rm]. destruct Hs as (Hinv' & H1 & H2 & H3).
  split_and!; [| |done|].
  - intros p. unfold Held. rewrite (ti_count _ Hinv), Z.ltb_lt. unfold open_count. split.
    + intros Hpos. destruct (filter _ (handles st)) as [|h l] eqn:E; [done|].
      assert (h ∈ filter (fun h => is_open p h = true) (handles st)) as Hh by (rewrite E; by left).
      apply list_elem_of_filter in Hh as [Ho [i Hi]%list_elem_of_lookup]. unfold is_open in Ho. zbool. eauto.
    + intros (i & h & Hi & Hp & Hd).
      assert (h ∈ filter (fun h => is_open p h = true) (handles st)) as Hh.
      { apply list_elem_of_filter. split; [|by eapply list_elem_of_lookup_2]. unfold is_open.
        by rewrite Hd, bool_decide_eq_true_2. }
      destruct (filter _ _); [by apply not_elem_of_nil in Hh|]. zlen_lia.
  - intros p Hp. destruct (H1 p Hp) as [Hz ?]. split; [|done]. unfold Held. rewrite (ti_count _ Hinv'), Hz. done.
  - intros p Hp. split; [|by apply H2]. unfold Held. rewrite (ti_count _ Hinv). apply Z.ltb_lt. by apply (ti_retired _ Hinv).
Qed.

(** Two readers, the table is retired under them, and the second release
    removes it; releasing twice changes nothing. *)
Example tracker_defers_removal :
  let st := track_run [DoAcquire [x61]; DoAcquire [x61]; DoRetire [x61]; DoRelease 0; DoRelease 0] in
  Held (tk st) [x61] = true /\ (track_step st (DoRelease 1)).2 = Some [x61].
Proof. split; reflexivity. Qed.
