(* ===== verification/Compaction.v ===== *)
(** * Compaction

    internal/storage/compaction/compaction.go: merging some of the active
    tables into one new table, validating it and publishing it through the
    manifest. A path is a file name relative to the one directory [Compact]
    works in. *)

From S2P Require Import Prelude Bytes Format Codec AtomicFile SstFormat SsTable Manifest Heap Merge Tracker.
From stdpp Require Import base tactics numbers gmap sorting list.
From Stdlib Require Import Strings.Byte.
From Stdlib Require Import ZArith Lia.
#[local] Open Scope Z_scope.

(** ** File names *)

(** "compacted-", "-" and ".sst". *)
Definition outputFileName (sortedInputIDs : list Z) : bytes :=
  [x63; x6f; x6d; x70; x61; x63; x74; x65; x64; x2d] ++ strings_Join [x2d] (itoa <$> sortedInputIDs)
  ++ [x2e; x73; x73; x74].

(** ** The directory *)

Abbreviation files := (gmap bytes file).
Definition no_file : file := MkFile None None None.

(** [sstable.Open(path)]. *)
Definition open_path (fs : files) (path : bytes) : option Reader :=
  match fs !! path ≫= f_target with
  | Some data => match open data with Done r => Some r | _ => None end
  | None => None
  end.

(** ** Validation of the output *)

Inductive validate_error := ErrReopen | ErrCount | ErrMore | ErrKey | ErrTombstone | ErrValue | ErrIterate | ErrFewer.

(** Every turn uses up one expected entry, so their number and one turn more
    are enough fuel. *)
Fixpoint validate_loop (fuel : nat) (r : Reader) (it : Iterator) (want : list Entry) : option validate_error :=
  match fuel with
  | O => Some ErrIterate
  | S fuel =>
      match Next r it with
      | (it, true) =>
          match want with
          | [] => Some ErrMore
          | w :: want =>
              let got := iter_Entry it in
              if negb (bool_decide (Key got = Key w)) then Some ErrKey
              else if negb (Bool.eqb (Tombstone got) (Tombstone w)) then Some ErrTombstone
              else if negb (Tombstone got) && negb (bool_decide (Value got = Value w)) then Some ErrValue
              else validate_loop fuel r it want
          end
      | (it, false) => if it_err it then Some ErrIterate else if bool_decide (want = []) then None else Some ErrFewer
      end
  end.

Definition validateOutput (fs : files) (path : bytes) (want : list Entry) : option validate_error :=
  match open_path fs path with
  | None => Some ErrReopen
  | Some r => if negb (Count r =? zlen want) then Some ErrCount
              else validate_loop (S (length want)) r NewIterator want
  end.

(** ** Compact *)

Inductive compact_error :=
| ErrNoInputTables | ErrDuplicate (id : Z) | ErrNotActive (id : Z) | ErrOpen (id : Z) | ErrMerge (e : merge_error)
| ErrBuild (e : option sst_error) | ErrValidate (e : validate_error) | ErrPublish.

Record Result := MkResult { OutputID : Z; OutputFileName : bytes; TablesRemoved : list Z }.

(** The version set, the directory and the tracker the caller passed. *)
Record store := MkStore { st_vs : VersionSet; st_files : files; st_tracker : option Tracker }.

(** What a compaction meets outside: the values of the Bloom filter's two
    formulas, the two atomic writes, and which removals the system
    carries out. *)
Record compact_env := MkCompactEnv {
  ce_m : Z; ce_k : Z;
  ce_build : file_env;
  ce_publish : file_env;
  ce_remove : bytes -> bool }.

(** A best-effort [os.Remove]. *)
Definition remove (env : compact_env) (fs : files) (path : bytes) : files :=
  if ce_remove env path then delete path fs else fs.

Fixpoint find_duplicate (sorted : list Z) : option Z :=
  match sorted with
  | a :: (b :: _) as rest => if b =? a then Some b else find_duplicate rest
  | _ => None
  end.

Fixpoint input_paths (active : gmap Z bytes) (ids : list Z) : result compact_error (gmap Z bytes) :=
  match ids with
  | [] => Ok ∅
  | id :: ids => match active !! id with
                 | None => Err (ErrNotActive id)
                 | Some name => paths ← input_paths active ids; mret (<[id := name]> paths)
                 end
  end.

(** No table outside the inputs is older than all of them. *)
Definition can_drop (active : list (Z * bytes)) (inputs : list Z) : bool :=
  forallb (fun t => bool_decide (t.1 ∈ inputs) || negb (t.1 <? inputs !!! 0%nat)) active.

Fixpoint open_inputs (fs : files) (paths : gmap Z bytes) (ids : list Z) : result compact_error (gmap Z Reader) :=
  match ids with
  | [] => Ok ∅
  | id :: ids => match paths !! id ≫= open_path fs with
                 | None => Err (ErrOpen id)
                 | Some r => readers ← open_inputs fs paths ids; mret (<[id := r]> readers)
                 end
  end.

Definition lift_merge {A} (r : result merge_error A) : result compact_error A :=
  match r with Ok a => Ok a | Err e => Err (ErrMerge e) end.

(** [w.Add] for every entry, [w.Build(path)]. *)
Definition build_output (env : compact_env) (fs : files) (path : bytes) (merged : list Entry) :
    files * result compact_error unit :=
  match add_all NewWriter merged ≫= Build (ce_m env) (ce_k env) with
  | Err e => (fs, Err (ErrBuild (Some e)))
  | Ok data =>
      let '(f, r) := Write (default no_file (fs !! path)) (fe_fault (ce_build env)) (fe_dir_synced (ce_build env)) data in
      (<[path := f]> fs, match r with Ok _ => Ok tt | Err _ => Err (ErrBuild None) end)
  end.

(** [tracker.Retire] for every input, removing the files nobody holds. *)
Fixpoint retire_inputs (env : compact_env) (t : Tracker) (fs : files) (paths : list bytes) : Tracker * files :=
  match paths with
  | [] => (t, fs)
  | p :: paths =>
      let '(t, rm) := Retire t p in
      retire_inputs env t (if rm then remove env fs p else fs) paths
  end.

Definition retire_all (env : compact_env) (st : store) (paths : list bytes) : store :=
  match st_tracker st with
  | None => st
  | Some t => let '(t, fs) := retire_inputs env t (st_files st) paths in MkStore (st_vs st) fs (Some t)
  end.

(** The merged entries, or the error that stops before anything is
    written. *)
Definition plan (st : store) (inputIDs : list Z) : result compact_error (list Z * list bytes * list Entry) :=
  if bool_decide (inputIDs = []) then Err ErrNoInputTables
  else
    let sortedInputs := merge_sort Z.le inputIDs in
    match find_duplicate sortedInputs with
    | Some id => Err (ErrDuplicate id)
    | None =>
        let active := list_to_map (Current (st_vs st)) in
        paths ← input_paths active sortedInputs;
        readers ← open_inputs (st_files st) paths sortedInputs;
        merged ← lift_merge (mergeTables sortedInputs readers (can_drop (Current (st_vs st)) sortedInputs));
        mret (sortedInputs, (fun id => default [] (paths !! id)) <$> sortedInputs, merged)
    end.

Definition Compact (env : compact_env) (st : store) (inputIDs : list Z) : store * result compact_error Result :=
  match plan st inputIDs with
  | Err e => (st, Err e)
  | Ok (sortedInputs, inputPaths, merged) =>
      if bool_decide (merged = []) then
        match RemoveTables (st_vs st) (ce_publish env) sortedInputs with
        | (vs, Err _) => (MkStore vs (st_files st) (st_tracker st), Err ErrPublish)
        | (vs, Ok _) =>
            (retire_all env (MkStore vs (st_files st) (st_tracker st)) inputPaths, Ok (MkResult 0 [] sortedInputs))
        end
      else
        let outputName := outputFileName sortedInputs in
        match build_output env (st_files st) outputName merged with
        | (fs, Err e) => (MkStore (st_vs st) fs (st_tracker st), Err e)
        | (fs, Ok _) =>
            match validateOutput fs outputName merged with
            | Some e => (MkStore (st_vs st) (remove env fs outputName) (st_tracker st), Err (ErrValidate e))
            | None =>
                match ReplaceTables (st_vs st) (ce_publish env) sortedInputs outputName with
                | (vs, Err _) => (MkStore vs (remove env fs outputName) (st_tracker st), Err ErrPublish)
                | (vs, Ok newID) =>
                    (retire_all env (MkStore vs fs (st_tracker st)) inputPaths,
                     Ok (MkResult newID outputName sortedInputs))
                end
            end
        end
  end.

(** ** The database a version describes

    The read rule of manifest.TableMeta: the newest table's entry for a key
    counts, and a tombstone means the key is absent. *)

Definition table_entries (fs : files) (name : bytes) : list Entry :=
  match open_path fs name with
  | Some r => (drain (S (table_fuel r)) r NewIterator).1
  | None => []
  end.

Definition contents_of (fs : files) (tables : gmap Z bytes) (id : Z) : list Entry :=
  match tables !! id with Some name => table_entries fs name | None => [] end.

Definition live (o : option Entry) : option bytes :=
  match o with Some e => if Tombstone e then None else Some (Value e) | None => None end.

Definition view (st : store) (key : bytes) : option bytes :=
  live (newest (contents_of (st_files st) (vs_tables (st_vs st))) (Current (st_vs st)).*1 key).

(** ** Concrete databases *)

Definition quiet : compact_env := MkCompactEnv 29 7 (MkFileEnv None true) (MkFileEnv None true) (fun _ => true).

(** The directory and version set after adding these tables in turn, each
    under a one-letter name. *)
Fixpoint add_tables (vs : VersionSet) (fs : files) (tables : list (bytes * list Entry)) : store :=
  match tables with
  | [] => MkStore vs fs (Some NewTracker)
  | (name, es) :: tables =>
      match add_all NewWriter es ≫= Build 29 7 with
      | Ok data => add_tables (AddTable vs (MkFileEnv None true) name).1 (<[name := MkFile (Some data) (Some data) None]> fs) tables
      | Err _ => add_tables vs fs tables
      end
  end.

Definition database (tables : list (bytes * list Entry)) : store := add_tables fresh_vs ∅ tables.

Definition put_entry (k v : byte) : Entry := MkEntry [k] [v] false.
Definition del_entry (k : byte) : Entry := MkEntry [k] [] true.

(** The key "a" is written in table 1 and overwritten in table 3. *)
Definition overwritten : store :=
  database [([x31], [put_entry x61 x31]); ([x32], [put_entry x62 x32]); ([x33], [put_entry x61 x33])].
(** The key "a" is written in table 2 and deleted in table 3. *)
Definition deleted : store :=
  database [([x31], [put_entry x62 x31]); ([x32], [put_entry x61 x32]); ([x33], [del_entry x61])].

(** Compacting tables that are not the newest ones changes the
    database: the output gets the largest id, so a value the inputs hold
    hides a newer value outside them, and a tombstone is dropped although a
    table between the inputs still holds the deleted value, which comes
    back. *)
Theorem Compact_loses_newer_data :
  view overwritten [x61] = Some [x33] /\
  (let '(st, r) := Compact quiet overwritten [1; 2] in is_ok r = true /\ view st [x61] = Some [x31]) /\
  view deleted [x61] = None /\
  (let '(st, r) := Compact quiet deleted [1; 3] in is_ok r = true /\ view st [x61] = Some [x32]).
Proof. vm_compute. repeat split. Qed.

(** ** The parts of [plan] *)

Lemma active_tables vs : list_to_map (Current vs) = vs_tables vs.
Proof.
  unfold Current, currentLocked. rewrite (list_to_map_proper _ (map_to_list (vs_tables vs))).
  - apply list_to_map_to_list.
  - apply sorted_tables_nodup.
  - apply sorted_tables_perm.
Qed.

Lemma find_duplicate_None l : StronglySorted Z.le l -> find_duplicate l = None -> StronglySorted Z.lt l.
Proof.
  induction 1 as [|a l Hs IH Hall]; intros Hd; constructor.
  - apply IH. destruct l as [|b l]; [done|]. cbn in Hd. by destruct (b =? a).
  - destruct l as [|b l]; [done|]. cbn in Hd. destruct (b =? a) eqn:E; [done|]. zbool.
    apply Forall_cons in Hall as [Hab Hall]. apply Forall_cons. split; [lia|]. apply StronglySorted_inv in Hs as [_ Hb].
    eapply Forall_impl; [exact Hb|]. cbn. intros. lia.
Qed.

Lemma find_duplicate_sorted l : StronglySorted Z.lt l -> find_duplicate l = None.
Proof.
  induction 1 as [|a l Hs IH Hall]; [done|]. destruct l as [|b l]; [done|]. cbn. apply Forall_cons in Hall as [Hab _].
  rewrite (proj2 (Z.eqb_neq b a)) by lia. exact IH.
Qed.

Lemma input_paths_Ok active ids paths :
  input_paths active ids = Ok paths -> forall id, id ∈ ids -> is_Some (active !! id) /\ paths !! id = active !! id.
Proof.
  revert paths. induction ids as [|i ids IH]; intros paths Hp id Hid; [by apply not_elem_of_nil in Hid|]. cbn in Hp.
  destruct (active !! i) as [name|] eqn:Ea; [|done]. destruct (input_paths active ids) as [ps|] eqn:Ei; [|done].
  injection Hp as <-. destruct (decide (id = i)) as [->|Hne]; [rewrite lookup_insert_eq; by eauto|].
  rewrite lookup_insert_ne by done. apply IH; [done|]. by apply elem_of_cons in Hid as [?|?].
Qed.

Lemma open_inputs_Ok fs paths ids readers :
  open_inputs fs paths ids = Ok readers ->
  forall id, id ∈ ids -> exists r, readers !! id = Some r /\ paths !! id ≫= open_path fs = Some r.
Proof.
  revert readers. induction ids as [|i ids IH]; intros readers Hp id Hid; [by apply not_elem_of_nil in Hid|]. cbn in Hp.
  destruct (paths !! i ≫= open_path fs) as [r|] eqn:Ea; [|done].
  destruct (open_inputs fs paths ids) as [rs|] eqn:Ei; [|done].
  injection Hp as <-. destruct (decide (id = i)) as [->|Hne]; [rewrite lookup_insert_eq; by eauto|].
  rewrite lookup_insert_ne by done. apply IH; [done|]. by apply elem_of_cons in Hid as [?|?].
Qed.

Lemma yields_drain fuel r it es : yields r it es -> (length es < fuel)%nat -> drain fuel r it = (es, false).
Proof.
  revert it es. induction fuel as [|fuel IH]; intros it es Hy Hl; [lia|]. cbn [drain]. destruct es as [|e es]; cbn in Hy.
  - destruct Hy as (it' & -> & ->). done.
  - destruct Hy as (it' & -> & <- & Hy). rewrite (IH it' es Hy) by (cbn in Hl; lia). done.
Qed.

Lemma table_entries_yields fs name r es :
  open_path fs name = Some r -> yields r NewIterator es -> table_entries fs name = es.
Proof.
  intros Ho Hy. unfold table_entries. rewrite Ho. rewrite (yields_drain _ r _ es Hy); [done|].
  apply yields_fuel in Hy. lia.
Qed.

(** ** What validation establishes *)

Definition same_entry (a b : Entry) : Prop :=
  Key a = Key b /\ Tombstone a = Tombstone b /\ (Tombstone b = false -> Value a = Value b).

Lemma validate_loop_None fuel r it want :
  validate_loop fuel r it want = None -> exists es, yields r it es /\ Forall2 same_entry es want.
Proof.
  revert it want. induction fuel as [|fuel IH]; intros it want; cbn [validate_loop]; [done|].
  destruct (Next r it) as [it' []] eqn:En.
  - destruct want as [|w want]; [done|]. cbv zeta. case_if; [done|]. case_if; [done|]. case_if; [done|]. intros Hv.
    apply IH in Hv as (es & Hy & Hall). exists (iter_Entry it' :: es). split; [by exists it'|]. constructor; [|done].
    zbool. apply eqb_prop in E0. split_and!; [done|done|]. intros Ht. rewrite E0, Ht in E1. cbn in E1. zbool. done.
  - case_if; [done|]. case_bool_decide; [|done]. intros _. exists []. subst. split; [by exists it'|constructor].
Qed.

Lemma find_key_same es want k :
  Forall2 same_entry es want -> live (find_key es k) = live (find_key want k) /\
  (find_key es k = None <-> find_key want k = None).
Proof.
  induction 1 as [|a b es want (Hk & Ht & Hv) _ IH]; [done|]. rewrite !find_key_cons, Hk. case_bool_decide; [|done].
  split; [|done]. cbn. rewrite Ht. destruct (Tombstone b); [done|]. by rewrite Hv.
Qed.

(** An output that iterates and agrees is accepted. *)
Lemma validate_loop_accepts fuel r it want :
  yields r it want -> (length want < fuel)%nat -> validate_loop fuel r it want = None.
Proof.
  revert it want. induction fuel as [|fuel IH]; intros it want Hy Hl; [lia|]. cbn [validate_loop].
  destruct want as [|w want]; cbn in Hy.
  - by destruct Hy as (it' & -> & ->).
  - destruct Hy as (it' & -> & <- & Hy). rewrite bool_decide_eq_true_2 by done. rewrite eqb_reflx. cbn [negb].
    rewrite bool_decide_eq_true_2 by done. rewrite andb_false_r. apply IH; [done|]. cbn in Hl. lia.
Qed.

(** ** The database is preserved when the inputs are the newest tables *)

Lemma sorted_ids_eq (l k : list Z) :
  StronglySorted Z.lt l -> StronglySorted Z.lt k -> (forall x, x ∈ l <-> x ∈ k) -> l = k.
Proof.
  intros Hl Hk He. apply (StronglySorted_unique_strong Z.lt); [intros; lia|done|done|].
  apply NoDup_Permutation; [by apply ids_nodup..|done].
Qed.

Lemma filter_sorted_ids (P : Z -> Prop) `{!forall x, Decision (P x)} l :
  StronglySorted Z.lt l -> StronglySorted Z.lt (filter P l).
Proof.
  induction 1 as [|a l Hs IH Hall]; [constructor|]. rewrite filter_cons. case_if; [|done]. constructor; [done|].
  apply Forall_forall. intros x [_ Hx]%list_elem_of_filter. rewrite Forall_forall in Hall. by apply Hall.
Qed.

Lemma newest_app c l k key :
  newest c (l ++ k) key = match newest c k key with Some e => Some e | None => newest c l key end.
Proof. induction l as [|id l IH]; cbn; [by destruct (newest c k key)|]. rewrite IH. by destruct (newest c k key). Qed.

Definition current_ids (tables : gmap Z bytes) : list Z := (sorted_tables tables).*1.

Lemma elem_current_ids tables id : id ∈ current_ids tables <-> is_Some (tables !! id).
Proof.
  unfold current_ids. rewrite list_elem_of_fmap. split.
  - intros ([i n] & -> & Hin%elem_sorted_tables). by eexists.
  - intros [n Hn]. exists (id, n). by rewrite elem_sorted_tables.
Qed.

Definition others (tables : gmap Z bytes) (ids : list Z) : list Z := filter (fun id => id ∉ ids) (current_ids tables).

Lemma elem_others tables ids id : id ∈ others tables ids <-> id ∉ ids /\ is_Some (tables !! id).
Proof. unfold others. by rewrite list_elem_of_filter, elem_current_ids. Qed.

(** The active ids, split into the tables that stay and the inputs. *)
Lemma current_split tables ids :
  StronglySorted Z.lt ids -> (forall id, id ∈ ids -> is_Some (tables !! id)) ->
  (forall id id', id ∈ ids -> id' ∈ others tables ids -> id' < id) ->
  current_ids tables = others tables ids ++ ids.
Proof.
  intros Hs Ha Hn. apply sorted_ids_eq; [apply sorted_tables_increasing| |].
  - apply StronglySorted_app_2; [auto|apply filter_sorted_ids, sorted_tables_increasing|done].
  - intros x. rewrite elem_of_app, elem_others, elem_current_ids. destruct (decide (x ∈ ids)); naive_solver.
Qed.

Lemma current_without tables ids : current_ids (without ids tables) = others tables ids.
Proof.
  apply sorted_ids_eq; [apply sorted_tables_increasing|apply filter_sorted_ids, sorted_tables_increasing|].
  intros x. rewrite elem_others, elem_current_ids, lookup_without. case_bool_decide; [|naive_solver].
  split; [by intros [? ?]|naive_solver].
Qed.

Lemma current_replaced next tables ids name :
  version_ok next tables ->
  current_ids (<[next := name]> (without ids tables)) = others tables ids ++ [next].
Proof.
  intros Hv. apply sorted_ids_eq; [apply sorted_tables_increasing| |].
  - apply StronglySorted_app_2; [|apply filter_sorted_ids, sorted_tables_increasing|repeat constructor].
    intros x y Hx ->%list_elem_of_singleton. apply elem_others in Hx as [_ [n Hn]].
    pose proof (vo_ids _ _ Hv _ _ Hn). cbn in *. lia.
  - intros x. rewrite elem_of_app, elem_others, list_elem_of_singleton, elem_current_ids.
    destruct (decide (x = next)) as [->|Hne]; [rewrite lookup_insert_eq; naive_solver|].
    rewrite lookup_insert_ne, lookup_without by done. case_bool_decide; [|naive_solver].
    split; [by intros [? ?]|naive_solver].
Qed.

Lemma can_drop_no_others tables ids :
  ids <> [] -> (forall id id', id ∈ ids -> id' ∈ others tables ids -> id' < id) ->
  can_drop (sorted_tables tables) ids = true -> others tables ids = [].
Proof.
  intros Hne Hn Hc. destruct (others tables ids) as [|x l] eqn:E; [done|]. exfalso.
  assert (x ∈ others tables ids) as Hx by (rewrite E; by left). apply elem_others in Hx as Hx'. destruct Hx' as [Hni [n Hl]].
  unfold can_drop in Hc. rewrite forallb_forall in Hc. specialize (Hc (x, n)). cbn in Hc.
  rewrite bool_decide_eq_false_2 in Hc by done. cbn in Hc.
  assert (ids !!! 0%nat ∈ ids) as H0.
  { destruct ids as [|i ids]; [done|]. cbn. by left. }
  specialize (Hn _ x H0 ltac:(by left)). rewrite (proj2 (Z.ltb_lt _ _) Hn) in Hc. cbn in Hc.
  by specialize (Hc (proj1 (list_elem_of_In _ _) (proj2 (elem_sorted_tables tables x n) Hl))).
Qed.

(** Reading the merged entries in place of the inputs. *)
Lemma merged_reads_same (drop_ : bool) c c' keepers inputs (res es : list Entry) key :
  (forall k, find_key res k = keep drop_ (newest c inputs k)) -> Forall2 same_entry es res ->
  (drop_ = true -> keepers = []) -> (forall id, id ∈ keepers -> c' id = c id) ->
  live (match find_key es key with Some e => Some e | None => newest c' keepers key end) =
  live (newest c (keepers ++ inputs) key).
Proof.
  intros Hres Hes Hd Hc. rewrite newest_app, (newest_ext c' c) by (intros; by rewrite Hc).
  destruct (find_key_same es res key Hes) as [Hl Hn]. specialize (Hres key).
  destruct (find_key es key) as [e|] eqn:Ee.
  - rewrite Hl, Hres. destruct (newest c inputs key) as [e'|]; cbn in *; [|destruct Hn as [_ Hn]; by specialize (Hn Hres)].
    destruct (Tombstone e' && drop_) eqn:Et; [|done]. apply andb_true_iff in Et as [-> _]. done.
  - destruct Hn as [Hn _]. rewrite (Hn eq_refl) in Hres. destruct (newest c inputs key) as [e'|]; cbn in *; [|done].
    destruct (Tombstone e' && drop_) eqn:Et; [|done]. apply andb_true_iff in Et as [-> Et]. rewrite Hd by done. done.
Qed.

(** ** Files that are not touched *)

Lemma open_path_remove env fs p name : name <> p -> open_path (remove env fs p) name = open_path fs name.
Proof. intros Hne. unfold open_path, remove. destruct (ce_remove env p); [|done]. by rewrite lookup_delete_ne. Qed.

Lemma open_path_retire env paths t fs name :
  name ∉ paths -> open_path (retire_inputs env t fs paths).2 name = open_path fs name.
Proof.
  revert t fs. induction paths as [|p paths IH]; intros t fs Hn; [done|]. cbn [retire_inputs].
  apply not_elem_of_cons in Hn as [Hp Hn]. destruct (Retire t p) as [t' rm]. rewrite IH by done.
  destruct rm; [by apply open_path_remove|done].
Qed.

Lemma retire_all_spec env st paths :
  st_vs (retire_all env st paths) = st_vs st /\
  (forall name, name ∉ paths -> open_path (st_files (retire_all env st paths)) name = open_path (st_files st) name).
Proof.
  unfold retire_all. destruct (st_tracker st) as [t|]; [|done].
  pose proof (open_path_retire env paths t (st_files st)) as H.
  destruct (retire_inputs env t (st_files st) paths) as [t' fs]. done.
Qed.

Lemma build_output_other env fs path merged name :
  name <> path -> open_path (build_output env fs path merged).1 name = open_path fs name.
Proof.
  intros Hne. unfold build_output. destruct (add_all NewWriter merged ≫= _) as [data|e]; [|done].
  destruct (Write _ _ _ _) as [f r]. cbn. unfold open_path. by rewrite lookup_insert_ne.
Qed.

Lemma table_entries_same fs fs' name : open_path fs' name = open_path fs name -> table_entries fs' name = table_entries fs name.
Proof. unfold table_entries. by intros ->. Qed.

Lemma view_same st st' :
  vs_tables (st_vs st') = vs_tables (st_vs st) ->
  (forall id name, vs_tables (st_vs st) !! id = Some name ->
     open_path (st_files st') name = open_path (st_files st) name) ->
  forall key, view st' key = view st key.
Proof.
  intros Hv Hf key. unfold view, Current, currentLocked. rewrite Hv. f_equal. apply newest_ext. intros id _.
  unfold contents_of. destruct (vs_tables (st_vs st) !! id) as [name|] eqn:E; [|done].
  by rewrite (table_entries_same _ _ _ (Hf _ _ E)).
Qed.

(** ** The theorem *)

(** The setting in which compaction is meant to run: the inputs are the
    newest tables, each readable, under names of their own, and the output's
    name is free and short enough for the manifest. *)
Record compactable (st : store) (inputIDs : list Z) : Prop := {
  cp_step : in_step (st_vs st);
  cp_next : 0 < vs_nextID (st_vs st) /\ vs_nextID (st_vs st) + 1 < 2 ^ 64;
  cp_size : Z.of_nat (size (vs_tables (st_vs st))) < maxTables;
  cp_names id id' name : vs_tables (st_vs st) !! id = Some name -> vs_tables (st_vs st) !! id' = Some name -> id = id';
  cp_out_free id : vs_tables (st_vs st) !! id <> Some (outputFileName (merge_sort Z.le inputIDs));
  cp_out_ok : name_ok (outputFileName (merge_sort Z.le inputIDs));
  cp_newest id id' : id ∈ inputIDs -> is_Some (vs_tables (st_vs st) !! id') -> id' ∉ inputIDs -> id' < id;
  cp_read id name : id ∈ inputIDs -> vs_tables (st_vs st) !! id = Some name ->
    exists r es, open_path (st_files st) name = Some r /\ reads r es /\ Forall stored es }.

Lemma plan_Ok st inputIDs ids paths merged :
  compactable st inputIDs -> plan st inputIDs = Ok (ids, paths, merged) ->
  ids = merge_sort Z.le inputIDs /\ ids <> [] /\ StronglySorted Z.lt ids /\
  (forall id, id ∈ ids -> exists name, vs_tables (st_vs st) !! id = Some name /\ name ∈ paths) /\
  (forall name, name ∈ paths -> exists id, id ∈ ids /\ vs_tables (st_vs st) !! id = Some name) /\
  merge_result ids (can_drop (Current (st_vs st)) ids) (contents_of (st_files st) (vs_tables (st_vs st))) [] merged.
Proof.
  intros Hcp. unfold plan. case_bool_decide as Hne; [done|]. rewrite active_tables.
  destruct (find_duplicate _) eqn:Hdup; [done|].
  destruct (input_paths _ _) as [ps|] eqn:Hp; [|done]. cbn [mbind result_bind].
  destruct (open_inputs _ _ _) as [rs|] eqn:Hr; [|done]. cbn [mbind result_bind].
  destruct (mergeTables _ _ _) as [m|] eqn:Hm; [|done]. cbn. intros [= <- <- <-].
  set (ids := merge_sort Z.le inputIDs) in *.
  assert (forall id, id ∈ ids <-> id ∈ inputIDs) as Hin by (intros id; unfold ids; by rewrite merge_sort_Permutation).
  assert (StronglySorted Z.lt ids) as Hs.
  { apply find_duplicate_None; [|done]. apply (StronglySorted_merge_sort Z.le). }
  split_and!; [done| |done| | |].
  - intros E. apply Hne. apply Permutation_nil_r. rewrite <- E. unfold ids. by rewrite merge_sort_Permutation.
  - intros id Hid. destruct (input_paths_Ok _ _ _ Hp id Hid) as [[name Hn] Hps]. exists name. split; [done|].
    apply list_elem_of_fmap. exists id. by rewrite Hps, Hn.
  - intros name (id & -> & Hid)%list_elem_of_fmap. exists id. split; [done|].
    destruct (input_paths_Ok _ _ _ Hp id Hid) as [[n Hn] Hps]. by rewrite Hps, Hn.
  - destruct (mergeTables_spec ids rs (can_drop (Current (st_vs st)) ids) (contents_of (st_files st) (vs_tables (st_vs st))) Hs)
      as (res & E & Hres); [|rewrite Hm in E; by injection E as <-].
    intros id Hid. destruct (open_inputs_Ok _ _ _ _ Hr id Hid) as (r & Hrs & Hop).
    destruct (input_paths_Ok _ _ _ Hp id Hid) as [[name Hn] Hps]. rewrite Hps, Hn in Hop. cbn in Hop.
    exists r. split; [done|]. destruct (cp_read _ _ Hcp id name) as (r' & es & Ho & Hrd & _); [by apply Hin|done|].
    rewrite Ho in Hop. injection Hop as ->. unfold contents_of. rewrite Hn.
    by rewrite (table_entries_yields _ _ _ es Ho ltac:(by eapply drain_yields, Hrd)).
Qed.

Section Publish.
Context (env : compact_env) (st : store) (inputIDs ids : list Z) (paths : list bytes) (merged : list Entry).
Context (Hcp : compactable st inputIDs) (Hplan : plan st inputIDs = Ok (ids, paths, merged)).
#[local] Abbreviation tables := (vs_tables (st_vs st)).
#[local] Abbreviation out := (outputFileName ids).

Lemma plan_ids : ids = merge_sort Z.le inputIDs.
Proof using Hcp Hplan. by destruct (plan_Ok _ _ _ _ _ Hcp Hplan). Qed.

Lemma others_older id id' : id ∈ ids -> id' ∈ others tables ids -> id' < id.
Proof using Hcp Hplan.
  rewrite elem_others, plan_ids, merge_sort_Permutation. intros Hid [Hn Ha].
  apply (cp_newest _ _ Hcp); done.
Qed.

(** The names of the tables that stay, and of the output, are not among
    the input paths. *)
Lemma stays_untouched id name : id ∈ others tables ids -> tables !! id = Some name -> name ∉ paths.
Proof using Hcp Hplan.
  intros [Hni _]%elem_others Hl Hin. destruct (plan_Ok _ _ _ _ _ Hcp Hplan) as (_ & _ & _ & _ & Hp & _).
  destruct (Hp name Hin) as (id' & Hid' & Hl'). by rewrite (cp_names _ _ Hcp id id' name Hl Hl') in Hni.
Qed.

Lemma out_untouched : out ∉ paths.
Proof using Hcp Hplan.
  intros Hin. destruct (plan_Ok _ _ _ _ _ Hcp Hplan) as (_ & _ & _ & _ & Hp & _). destruct (Hp _ Hin) as (id & _ & Hl).
  rewrite plan_ids in Hl. by apply (cp_out_free _ _ Hcp) in Hl.
Qed.

Lemma out_not_active id name : tables !! id = Some name -> name <> out.
Proof using Hcp Hplan. intros Hl ->. rewrite plan_ids in Hl. by apply (cp_out_free _ _ Hcp) in Hl. Qed.

(** The view before, in terms of what stays and the inputs. *)
Lemma view_split key :
  view st key = live (newest (contents_of (st_files st) tables) (others tables ids ++ ids) key).
Proof using Hcp Hplan.
  unfold view, Current, currentLocked. fold (current_ids tables).
  destruct (plan_Ok _ _ _ _ _ Hcp Hplan) as (_ & _ & Hs & Ha & _). rewrite (current_split _ ids); [done|done| |].
  - intros id Hid. destruct (Ha id Hid) as (name & -> & _). by eexists.
  - exact others_older.
Qed.

(** Publishing entries [es] that agree with the merge in place of the
    inputs, next to tables that are untouched, changes no key. *)
Lemma view_published es c' key :
  Forall2 same_entry es merged -> (forall id, id ∈ others tables ids -> c' id = contents_of (st_files st) tables id) ->
  live (match find_key es key with Some e => Some e | None => newest c' (others tables ids) key end) = view st key.
Proof using Hcp Hplan.
  intros Hes Hc. rewrite view_split. destruct (plan_Ok _ _ _ _ _ Hcp Hplan) as (_ & Hne & _ & _ & _ & _ & Hres & _).
  eapply merged_reads_same; [exact Hres|done| |done].
  intros Hd. by apply can_drop_no_others; [|exact others_older|].
Qed.

Lemma contents_stay fs' tables' id :
  (forall name, name ∉ paths -> name <> out -> open_path fs' name = open_path (st_files st) name) ->
  (forall id, id ∈ others tables ids -> tables' !! id = tables !! id) ->
  id ∈ others tables ids -> contents_of fs' tables' id = contents_of (st_files st) tables id.
Proof using Hcp Hplan.
  intros Hf Ht Hid. unfold contents_of. rewrite Ht by done. destruct (tables !! id) as [name|] eqn:E; [|done].
  apply table_entries_same, Hf; [by eapply stays_untouched|by eapply out_not_active].
Qed.

(** Every input entry was a dropped tombstone. *)
Lemma removal_preserves vs' :
  merged = [] -> vs_tables vs' = without ids tables ->
  forall key, view (retire_all env (MkStore vs' (st_files st) (st_tracker st)) paths) key = view st key.
Proof using Hcp Hplan.
  intros Hm Hv key. destruct (retire_all_spec env (MkStore vs' (st_files st) (st_tracker st)) paths) as [Evs Hf].
  unfold view at 1, Current, currentLocked. rewrite Evs. cbn [st_vs]. rewrite Hv. fold (current_ids (without ids tables)).
  rewrite current_without. set (c' := contents_of _ _).
  rewrite <- (view_published [] c' key); [reflexivity|rewrite Hm; constructor|].
  intros id Hid. apply contents_stay; [intros; by apply Hf| |done].
  intros i [Hni _]%elem_others. by rewrite lookup_without, bool_decide_eq_false_2.
Qed.

(** The validated output takes the place of the inputs. *)
Lemma replacement_preserves fs vs' :
  (forall name, name <> out -> open_path fs name = open_path (st_files st) name) ->
  validateOutput fs out merged = None ->
  vs_tables vs' = <[vs_nextID (st_vs st) := out]> (without ids tables) ->
  forall key, view (retire_all env (MkStore vs' fs (st_tracker st)) paths) key = view st key.
Proof using Hcp Hplan.
  intros Hfs Hval Hv key. destruct (retire_all_spec env (MkStore vs' fs (st_tracker st)) paths) as [Evs Hf].
  unfold validateOutput in Hval. destruct (open_path fs out) as [r|] eqn:Ho; [|done].
  destruct (negb (Count r =? zlen merged)); [done|]. apply validate_loop_None in Hval as (es & Hy & Hes).
  unfold view at 1, Current, currentLocked. rewrite Evs. cbn [st_vs]. rewrite Hv.
  set (tables' := <[vs_nextID (st_vs st) := out]> (without ids tables)). fold (current_ids tables'). unfold tables' at 2.
  pose proof (cp_step _ _ Hcp) as [Hok _]. rewrite (current_replaced _ _ _ _ Hok), newest_app. cbn [newest].
  set (fs' := st_files (retire_all _ _ _)) in *.
  assert (contents_of fs' tables' (vs_nextID (st_vs st)) = es) as ->.
  { unfold contents_of, tables'. rewrite lookup_insert_eq. apply (table_entries_yields _ _ r); [|done].
    unfold fs'. by rewrite Hf by exact out_untouched. }
  rewrite <- (view_published es (contents_of fs' tables') key Hes); [done|].
  intros id Hid. apply contents_stay; [| |done].
  - intros name Hp Hne. unfold fs'. rewrite Hf by done. by apply Hfs.
  - intros i Hi. apply elem_others in Hi as [Hni [n Hn]]. pose proof (vo_ids _ _ Hok _ _ Hn). cbn in *.
    unfold tables'. rewrite lookup_insert_ne by lia. by rewrite lookup_without, bool_decide_eq_false_2.
Qed.
End Publish.

(** *** Success *)

Lemma add_files_ok env merged :
  merged <> [] -> sorted_entries merged -> Forall stored merged -> ce_m env <= maxBloomBits ->
  exists data, add_all NewWriter merged ≫= Build (ce_m env) (ce_k env) = Ok data /\
    (zlen data < 2 ^ 63 -> exists r, open data = Done r /\ Count r = zlen merged /\ yields r NewIterator merged).
Proof.
  intros Hne Hs Hst Hm. destruct (built_table_reads (ce_m env) (ce_k env) merged Hne Hs Hst Hm) as (w & data & Hw & Hb & Hr).
  exists data. rewrite Hw. split; [exact Hb|]. intros Hsz. destruct (Hr Hsz) as (r & Ho & _ & Hd & Hc & _).
  exists r. split_and!; [done|done|by eapply drain_yields].
Qed.

Lemma input_paths_total active ids :
  (forall id, id ∈ ids -> is_Some (active !! id)) -> exists paths, input_paths active ids = Ok paths.
Proof.
  induction ids as [|i ids IH]; intros Ha; [by eexists|]. cbn. destruct (Ha i) as [n ->]; [by left|].
  destruct IH as [ps ->]; [intros; apply Ha; by right|]. by eexists.
Qed.

Lemma open_inputs_total fs paths ids :
  (forall id, id ∈ ids -> exists r, paths !! id ≫= open_path fs = Some r) -> exists rs, open_inputs fs paths ids = Ok rs.
Proof.
  induction ids as [|i ids IH]; intros Ha; [by eexists|]. cbn. destruct (Ha i) as [r ->]; [by left|].
  destruct IH as [rs ->]; [intros; apply Ha; by right|]. by eexists.
Qed.

Lemma plan_succeeds st inputIDs :
  compactable st inputIDs -> inputIDs <> [] -> NoDup inputIDs ->
  (forall id, id ∈ inputIDs -> is_Some (vs_tables (st_vs st) !! id)) ->
  exists ids paths merged, plan st inputIDs = Ok (ids, paths, merged).
Proof.
  intros Hcp Hne Hnd Ha. unfold plan. rewrite bool_decide_eq_false_2 by done. rewrite active_tables.
  set (ids := merge_sort Z.le inputIDs).
  assert (forall id, id ∈ ids <-> id ∈ inputIDs) as Hin by (intros id; unfold ids; by rewrite merge_sort_Permutation).
  assert (StronglySorted Z.lt ids) as Hs.
  { assert (NoDup ids) as Hn by (unfold ids; by rewrite merge_sort_Permutation).
    pose proof (StronglySorted_merge_sort Z.le inputIDs) as Hle. fold ids in Hle. clearbody ids. clear -Hn Hle.
    induction Hle as [|a l Hs IH Hall]; constructor; apply NoDup_cons in Hn as [Hna Hn]; [auto|].
    apply Forall_forall. rewrite Forall_forall in Hall. intros x Hx. specialize (Hall x Hx).
    assert (x <> a) by (by intros ->). lia. }
  rewrite (find_duplicate_sorted ids Hs).
  destruct (input_paths_total (vs_tables (st_vs st)) ids) as [ps Hp]; [intros id Hid; by apply Ha, Hin|]. rewrite Hp.
  cbn [mbind result_bind].
  assert (forall id, id ∈ ids -> exists r, ps !! id ≫= open_path (st_files st) = Some r /\
    reads r (contents_of (st_files st) (vs_tables (st_vs st)) id)) as Hread.
  { intros id Hid. destruct (input_paths_Ok _ _ _ Hp id Hid) as [[name Hn] Hps]. rewrite Hps, Hn. cbn.
    destruct (cp_read _ _ Hcp id name) as (r & es & Ho & Hrd & _); [by apply Hin|done|]. exists r. split; [done|].
    unfold contents_of. rewrite Hn. by rewrite (table_entries_yields _ _ _ es Ho ltac:(by eapply drain_yields, Hrd)). }
  destruct (open_inputs_total (st_files st) ps ids) as [rs Hr]; [intros id Hid; destruct (Hread id Hid) as (r & ? & _); by eexists|].
  rewrite Hr. cbn [mbind result_bind].
  destruct (mergeTables_spec ids rs (can_drop (Current (st_vs st)) ids) (contents_of (st_files st) (vs_tables (st_vs st))) Hs)
    as (res & -> & _); [|cbn; by eauto].
  intros id Hid. destruct (open_inputs_Ok _ _ _ _ Hr id Hid) as (r & Hrs & Hop). exists r. split; [done|].
  destruct (Hread id Hid) as (r' & Hop' & Hrd). rewrite Hop in Hop'. by injection Hop' as ->.
Qed.

(** *** Publication *)

Lemma RemoveTables_step vs e ids vs' r :
  in_step vs -> vs_nextID vs + 1 < 2 ^ 64 -> Z.of_nat (size (vs_tables vs)) < maxTables ->
  RemoveTables vs e ids = (vs', r) ->
  in_step vs' /\ vs_tables vs' = (if is_ok r then without ids (vs_tables vs) else vs_tables vs) /\
  (fe_fault e = None -> is_ok r = true).
Proof.
  intros Hin Hn Hs E. assert (fe_fault e = None -> is_ok r = true) as Hf.
  { intros Hf. unfold RemoveTables, persist, Write in E. rewrite Hf in E. by injection E as <- <-. }
  destruct (run_op_step vs e (OpRemove ids) vs' ((fun _ => None) <$> r) Hin I Hn Hs) as [Hin' Hp].
  { unfold run_op. by rewrite E. }
  split; [done|]. split; [|done]. destruct r; destruct Hp as [Hv _]; cbn in Hv; by injection Hv.
Qed.

Lemma ReplaceTables_step vs e ids name vs' r :
  in_step vs -> name_ok name -> vs_nextID vs + 1 < 2 ^ 64 -> Z.of_nat (size (vs_tables vs)) < maxTables ->
  ReplaceTables vs e ids name = (vs', r) ->
  in_step vs' /\
  match r with
  | Ok id => id = vs_nextID vs /\ vs_tables vs' = <[vs_nextID vs := name]> (without ids (vs_tables vs))
  | Err _ => vs_tables vs' = vs_tables vs
  end /\ (fe_fault e = None -> is_ok r = true).
Proof.
  intros Hin Hname Hn Hs E. assert (fe_fault e = None -> is_ok r = true) as Hf.
  { intros Hf. unfold ReplaceTables, persist, Write in E. rewrite Hf in E. by injection E as <- <-. }
  destruct (run_op_step vs e (OpReplace ids name) vs' (Some <$> r) Hin Hname Hn Hs) as [Hin' Hp].
  { unfold run_op. by rewrite E. }
  split; [done|]. split; [|done]. destruct r as [id|]; destruct Hp as [Hv Hp]; cbn in Hv; injection Hv as _ Hv; [|done].
  destruct Hp as [Hp _]. by destruct (Hp id eq_refl) as [-> _].
Qed.

(** Nothing goes wrong outside, and the output stays below 2^63 bytes. *)
Definition calm (env : compact_env) (st : store) (inputIDs : list Z) : Prop :=
  fe_fault (ce_build env) = None /\ fe_fault (ce_publish env) = None /\ ce_m env <= maxBloomBits /\
  forall ids paths merged data, plan st inputIDs = Ok (ids, paths, merged) ->
    add_all NewWriter merged ≫= Build (ce_m env) (ce_k env) = Ok data -> zlen data < 2 ^ 63.

Lemma merged_stored st inputIDs ids paths merged :
  compactable st inputIDs -> plan st inputIDs = Ok (ids, paths, merged) -> Forall stored merged.
Proof.
  intros Hcp Hplan. destruct (plan_Ok _ _ _ _ _ Hcp Hplan) as (Eids & _ & _ & Ha & _ & _ & _ & Hfrom).
  apply Forall_forall. intros e [[]%not_elem_of_nil|(id & Hid & He)]%Hfrom. destruct (Ha id Hid) as (name & Hn & _).
  rewrite Eids, merge_sort_Permutation in Hid. destruct (cp_read _ _ Hcp id name Hid Hn) as (r & es & Ho & [Hd _] & Hst).
  unfold contents_of in He. rewrite Hn, (table_entries_yields _ _ _ es Ho ltac:(by eapply drain_yields)) in He.
  rewrite Forall_forall in Hst. by apply Hst.
Qed.

(** In calm conditions the output is built and passes validation. *)
Lemma output_accepted env st inputIDs ids paths merged :
  compactable st inputIDs -> calm env st inputIDs -> plan st inputIDs = Ok (ids, paths, merged) -> merged <> [] ->
  exists fs, build_output env (st_files st) (outputFileName ids) merged = (fs, Ok tt) /\
    validateOutput fs (outputFileName ids) merged = None.
Proof.
  intros Hcp (Hb & _ & Hm & Hsz) Hplan Hne. destruct (plan_Ok _ _ _ _ _ Hcp Hplan) as (_ & _ & _ & _ & _ & Hs & _).
  destruct (add_files_ok env merged Hne Hs ltac:(by eapply merged_stored) Hm) as (data & Hd & Hr).
  destruct (Hr (Hsz _ _ _ _ Hplan Hd)) as (r & Ho & Hc & Hy). unfold build_output. rewrite Hd.
  destruct (Write _ _ _ data) as [f w] eqn:Ew. pose proof Ew as Ew2. apply Write_outcome in Ew.
  assert (w = Ok tt) as -> by (unfold Write in Ew2; rewrite Hb in Ew2; by injection Ew2). destruct Ew as [Ht _].
  eexists. split; [done|]. unfold validateOutput, open_path. rewrite lookup_insert_eq. cbn [mbind option_bind].
  rewrite Ht, Ho, Hc, Z.eqb_refl. cbn [negb].
  apply validate_loop_accepts; [done|lia].
Qed.

(** What a run of [Compact] must give: the same database, the version set in
    step with its manifest, and the inputs replaced or nothing changed. *)
Definition compact_outcome (st st' : store) (inputIDs : list Z) (r : result compact_error Result) : Prop :=
  in_step (st_vs st') /\ (forall key, view st' key = view st key) /\
  match r with
  | Err _ => vs_tables (st_vs st') = vs_tables (st_vs st)
  | Ok res =>
      TablesRemoved res = merge_sort Z.le inputIDs /\
      vs_tables (st_vs st') =
        (if OutputID res =? 0 then without (TablesRemoved res) (vs_tables (st_vs st))
         else <[OutputID res := OutputFileName res]> (without (TablesRemoved res) (vs_tables (st_vs st))))
  end.

(** A failed compaction touches the output file at most. *)
Lemma failed_outcome st st' inputIDs ids paths merged e :
  compactable st inputIDs -> plan st inputIDs = Ok (ids, paths, merged) ->
  in_step (st_vs st') -> vs_tables (st_vs st') = vs_tables (st_vs st) ->
  (forall name, name <> outputFileName ids -> open_path (st_files st') name = open_path (st_files st) name) ->
  compact_outcome st st' inputIDs (Err e).
Proof.
  intros Hcp Hplan Hin Ht Hf. split_and!; [done| |done]. apply view_same; [done|]. intros id name Hl.
  apply Hf. by eapply out_not_active.
Qed.

Lemma publish_removal env st inputIDs ids paths merged :
  compactable st inputIDs -> plan st inputIDs = Ok (ids, paths, merged) -> merged = [] ->
  let '(st', r) :=
    match RemoveTables (st_vs st) (ce_publish env) ids with
    | (vs, Err _) => (MkStore vs (st_files st) (st_tracker st), Err ErrPublish)
    | (vs, Ok _) => (retire_all env (MkStore vs (st_files st) (st_tracker st)) paths, Ok (MkResult 0 [] ids))
    end in
  compact_outcome st st' inputIDs r /\ (fe_fault (ce_publish env) = None -> is_ok r = true).
Proof.
  intros Hcp Hplan Hm. destruct (cp_next _ _ Hcp) as [_ Hn].
  destruct (RemoveTables _ _ _) as [vs' r] eqn:Er.
  destruct (RemoveTables_step _ _ _ _ _ (cp_step _ _ Hcp) Hn (cp_size _ _ Hcp) Er) as (Hin' & Ht & Hf).
  destruct r as [u|err]; cbn [is_ok] in Ht.
  - destruct (retire_all_spec env (MkStore vs' (st_files st) (st_tracker st)) paths) as [Evs _].
    split; [|done]. unfold compact_outcome. rewrite Evs. cbn. split_and!; [done| | |done].
    + by eapply removal_preserves.
    + by eapply plan_ids.
  - split; [|done]. by eapply failed_outcome.
Qed.

Lemma publish_output env st inputIDs ids paths merged fs :
  compactable st inputIDs -> plan st inputIDs = Ok (ids, paths, merged) ->
  (forall name, name <> outputFileName ids -> open_path fs name = open_path (st_files st) name) ->
  validateOutput fs (outputFileName ids) merged = None ->
  let '(st', r) :=
    match ReplaceTables (st_vs st) (ce_publish env) ids (outputFileName ids) with
    | (vs, Err _) => (MkStore vs (remove env fs (outputFileName ids)) (st_tracker st), Err ErrPublish)
    | (vs, Ok newID) =>
        (retire_all env (MkStore vs fs (st_tracker st)) paths, Ok (MkResult newID (outputFileName ids) ids))
    end in
  compact_outcome st st' inputIDs r /\ (fe_fault (ce_publish env) = None -> is_ok r = true).
Proof.
  intros Hcp Hplan Hfs Hval. destruct (cp_next _ _ Hcp) as [Hpos Hn]. pose proof (plan_ids _ _ _ _ _ Hcp Hplan) as Eids.
  assert (name_ok (outputFileName ids)) as Hname by (rewrite Eids; apply (cp_out_ok _ _ Hcp)).
  destruct (ReplaceTables _ _ _ _) as [vs' r] eqn:Er.
  destruct (ReplaceTables_step _ _ _ _ _ _ (cp_step _ _ Hcp) Hname Hn (cp_size _ _ Hcp) Er) as (Hin' & Ht & Hf).
  destruct r as [id|err].
  - destruct Ht as [-> Ht]. destruct (retire_all_spec env (MkStore vs' fs (st_tracker st)) paths) as [Evs _].
    split; [|done]. unfold compact_outcome. rewrite Evs. cbn [st_vs OutputID OutputFileName TablesRemoved].
    split_and!; [done|by eapply replacement_preserves|done|]. by rewrite (proj2 (Z.eqb_neq _ 0)) by lia.
  - split; [|done]. eapply failed_outcome; [done..|]. cbn. intros name Hne. rewrite open_path_remove by done. by apply Hfs.
Qed.

(** C12. Compaction is invisible and all-or-nothing: when the inputs are the
    newest tables, each opens and reads as a sorted table, the tables have
    distinct names, and the output's name is free and fits the manifest,
    every key reads the same before and after [Compact], whatever fails in
    between; the version set stays in step with its manifest; an error leaves
    the active set as it was; success replaces exactly the inputs, by the one
    output table or, if nothing was left to write, by none; and with nothing
    going wrong outside it does succeed. *)
Theorem Compact_preserves_view (env : compact_env) (st : store) (inputIDs : list Z) :
  compactable st inputIDs ->
  let '(st', r) := Compact env st inputIDs in
  compact_outcome st st' inputIDs r /\
  (calm env st inputIDs -> inputIDs <> [] -> NoDup inputIDs ->
   (forall id, id ∈ inputIDs -> is_Some (vs_tables (st_vs st) !! id)) -> is_ok r = true).
Proof.
  intros Hcp. pose proof (cp_step _ _ Hcp) as Hin. unfold Compact.
  destruct (plan st inputIDs) as [[[ids paths] merged]|e] eqn:Hplan.
  2: { split; [done|]. intros _ Hne Hnd Ha. destruct (plan_succeeds _ _ Hcp Hne Hnd Ha) as (? & ? & ? & E). congruence. }
  case_bool_decide as Hm.
  { pose proof (publish_removal env _ _ _ _ _ Hcp Hplan Hm) as Hp. revert Hp.
    destruct (RemoveTables _ _ _) as [? []]; intros [Hp1 Hp2]; (split; [exact Hp1|]; intros (_ & Hf & _) _ _ _; by apply Hp2). }
  cbv zeta. pose proof (fun name => build_output_other env (st_files st) (outputFileName ids) merged name) as Hother.
  assert (calm env st inputIDs -> exists fs, build_output env (st_files st) (outputFileName ids) merged = (fs, Ok tt) /\
    validateOutput fs (outputFileName ids) merged = None) as Hacc by (intros; by eapply output_accepted).
  destruct (build_output _ _ _ _) as [fs rb] eqn:Eb. cbn [fst] in Hother. destruct rb as [u|eb].
  2: { split; [by eapply failed_outcome|]. intros Hc. by destruct (Hacc Hc) as (? & ? & _). }
  destruct (validateOutput fs _ merged) as [ev|] eqn:Ev.
  { split; [eapply failed_outcome; [done..|]; intros name Hne; cbn; by rewrite open_path_remove, Hother|].
    intros Hc. destruct (Hacc Hc) as (? & [= <-] & ?). congruence. }
  pose proof (publish_output env _ _ _ _ _ fs Hcp Hplan Hother Ev) as Hp. revert Hp.
  destruct (ReplaceTables _ _ _ _) as [? []]; intros [Hp1 Hp2]; (split; [exact Hp1|]; intros (_ & Hf & _) _ _ _; by apply Hp2).
Qed.

Lemma deleted_tables : vs_tables (st_vs deleted) = <[1 := [x31]]> (<[2 := [x32]]> (<[3 := [x33]]> ∅)).
Proof. vm_compute. reflexivity. Qed.

Lemma deleted_lookup id name :
  vs_tables (st_vs deleted) !! id = Some name -> (id = 1 /\ name = [x31]) \/ (id = 2 /\ name = [x32]) \/ (id = 3 /\ name = [x33]).
Proof.
  rewrite deleted_tables. intros [[<- <-]|[_ [[<- <-]|[_ [[<- <-]|[_ H]]%lookup_insert_Some]]%lookup_insert_Some]]%lookup_insert_Some;
    [auto..|]. by rewrite lookup_empty in H.
Qed.

Lemma deleted_compactable : compactable deleted [3; 2].
Proof.
  split.
  - split; [|vm_compute; reflexivity]. split; [vm_compute; split; congruence| |vm_compute; congruence].
    intros id name [[-> ->]|[[-> ->]|[-> ->]]]%deleted_lookup; vm_compute; repeat split; congruence.
  - vm_compute. split; congruence.
  - vm_compute. congruence.
  - intros id id' name Ha Hb. apply deleted_lookup in Ha, Hb. naive_solver.
  - intros id Hl. apply deleted_lookup in Hl. vm_compute in Hl. naive_solver.
  - vm_compute. split; congruence.
  - intros id id' Hid [name Hl] Hn. apply deleted_lookup in Hl. apply elem_of_cons in Hid as [->|Hid%list_elem_of_singleton];
      [|subst id]; destruct Hl as [[-> _]|[[-> _]|[-> _]]]; try lia; exfalso; apply Hn; rewrite !elem_of_cons; auto.
  - intros id name Hid Hl. apply deleted_lookup in Hl as [[-> ->]|[[-> ->]|[-> ->]]].
    + by apply elem_of_cons in Hid as [?|?%list_elem_of_singleton].
    + exists (reader_of [put_entry x61 x32]), [put_entry x61 x32].
      split; [vm_compute; reflexivity|]. split; [split; [vm_compute; reflexivity|repeat constructor]|].
      repeat constructor; vm_compute; congruence.
    + exists (reader_of [del_entry x61]), [del_entry x61].
      split; [vm_compute; reflexivity|]. split; [split; [vm_compute; reflexivity|repeat constructor]|].
      repeat constructor; vm_compute; congruence.
Qed.

Example Compact_preserves_view_witness :
  let '(st', r) := Compact quiet deleted [3; 2] in
  compact_outcome deleted st' [3; 2] r /\
  (calm quiet deleted [3; 2] -> [3; 2] <> [] -> NoDup [3; 2] ->
   (forall id, id ∈ [3; 2] -> is_Some (vs_tables (st_vs deleted) !! id)) -> is_ok r = true).
Proof. apply (Compact_preserves_view quiet deleted [3; 2]). apply deleted_compactable. Defined.

(** It runs: tables 2 and 3 become table 4, which keeps the tombstone
    because table 1 is older. *)
Example compaction_runs :
  let '(st', r) := Compact quiet deleted [3; 2] in
  r = Ok (MkResult 4 (outputFileName [2; 3]) [2; 3]) /\ view st' [x61] = None /\ view st' [x62] = Some [x31] /\
  Current (st_vs st') = [(1, [x31]); (4, outputFileName [2; 3])] /\ open_path (st_files st') [x32] = None.
Proof. vm_compute. repeat split. Qed.

(** The output's name grows with the number of inputs: beyond the
    manifest's limit the publication is reported as done, and the manifest
    it wrote cannot be opened again. *)
Example wide_compaction_unreadable :
  let ids := Z.of_nat <$> seq 1 1100 in
  let vs := MkVS (MkFile None None None) 1101 (list_to_map ((fun id => (id, [x61])) <$> ids)) in
  let '(vs', r) := ReplaceTables vs (MkFileEnv None true) ids (outputFileName ids) in
  r = Ok 1101 /\ (Open (vs_manifest vs') (MkFileEnv None true)).2 = Err Manifest.ErrCorrupt.
Proof. vm_compute. split; reflexivity. Qed.
