(* ===== verification/Transport.v ===== *)
(** * Transports

    internal/raft/transport.go: the interface to the three RPCs and the
    in-memory transport with its partitions. *)

From S2P Require Import Prelude Bytes RaftLog RaftFormat RaftPersist RaftNode RaftElection.
From stdpp Require Import base tactics numbers gmap list.
From Stdlib Require Import Strings.Byte.
From Stdlib Require Import ZArith Lia.
#[local] Open Scope Z_scope.

(** The receiving side: whatever processes the three RPCs. *)
Class RPCHandler (H : Type) := {
  on_vote : H -> faults -> RequestVoteArgs -> H * RequestVoteReply;
  on_append : H -> faults -> AppendEntriesArgs -> H * AppendEntriesReply;
  on_snapshot : H -> faults -> InstallSnapshotArgs -> H * InstallSnapshotReply }.

#[export] Instance Node_handler : RPCHandler Node := {
  on_vote := HandleRequestVote; on_append := HandleAppendEntries; on_snapshot := HandleInstallSnapshot }.

(** ** The in-memory transport *)

Section InMemory.
Context {H : Type} `{RPCHandler H}.

Record InMemoryTransport := MkMem {
  handlers : gmap bytes H;
  isolated : gset bytes;
  groupOf : gmap bytes nat }.

Definition NewInMemoryTransport : InMemoryTransport := MkMem ∅ ∅ ∅.

Definition Register (t : InMemoryTransport) (id : bytes) (h : H) : InMemoryTransport :=
  MkMem (<[id := h]> (handlers t)) (isolated t) (groupOf t).
Definition Partition (t : InMemoryTransport) (id : bytes) : InMemoryTransport :=
  MkMem (handlers t) ({[id]} ∪ isolated t) (groupOf t).
Definition Heal (t : InMemoryTransport) (id : bytes) : InMemoryTransport :=
  MkMem (handlers t) (isolated t ∖ {[id]}) (groupOf t).

Fixpoint assign (i : nat) (groups : list (list bytes)) (g : gmap bytes nat) : gmap bytes nat :=
  match groups with
  | [] => g
  | group :: groups => assign (S i) groups (fold_left (fun g id => <[id := i]> g) group g)
  end.

Definition PartitionGroups (t : InMemoryTransport) (groups : list (list bytes)) : InMemoryTransport :=
  MkMem (handlers t) (isolated t) (assign 0 groups ∅).
Definition HealPartitions (t : InMemoryTransport) : InMemoryTransport :=
  MkMem (handlers t) (isolated t) ∅.

Definition resolve (t : InMemoryTransport) (from to : bytes) : option H :=
  if bool_decide (from ∈ isolated t) || bool_decide (to ∈ isolated t) then None
  else if bool_decide (0 < size (groupOf t))%nat &&
          match groupOf t !! from, groupOf t !! to with
          | Some gf, Some gt => negb (bool_decide (gf = gt))
          | _, _ => false
          end
  then None
  else handlers t !! to.

(** The target's handler runs in the caller's goroutine. *)
Definition deliver {A R} (t : InMemoryTransport) (from to : bytes) (run : H -> A -> H * R) (args : A) :
    InMemoryTransport * option R :=
  match resolve t from to with
  | None => (t, None)
  | Some h => let '(h, reply) := run h args in (Register t to h, Some reply)
  end.

Definition SendRequestVote t (f : faults) (target : bytes) (args : RequestVoteArgs) :=
  deliver t (rv_CandidateID args) target (fun h => on_vote h f) args.
Definition SendAppendEntries t (f : faults) (target : bytes) (args : AppendEntriesArgs) :=
  deliver t (ae_LeaderID args) target (fun h => on_append h f) args.
Definition SendInstallSnapshot t (f : faults) (target : bytes) (args : InstallSnapshotArgs) :=
  deliver t (is_LeaderID args) target (fun h => on_snapshot h f) args.

(** ** What partitions do *)

Inductive control := CPartition (id : bytes) | CHeal (id : bytes) | CGroups (groups : list (list bytes)) | CHealGroups.

Definition control_step (t : InMemoryTransport) (c : control) : InMemoryTransport :=
  match c with
  | CPartition id => Partition t id
  | CHeal id => Heal t id
  | CGroups groups => PartitionGroups t groups
  | CHealGroups => HealPartitions t
  end.

(** Reference definitions, over the history of controls, latest first. *)
Fixpoint cut_off (history : list control) (id : bytes) : bool :=
  match history with
  | [] => false
  | CPartition i :: history => bool_decide (i = id) || cut_off history id
  | CHeal i :: history => negb (bool_decide (i = id)) && cut_off history id
  | _ :: history => cut_off history id
  end.

Fixpoint groups_now (history : list control) : list (list bytes) :=
  match history with
  | [] | CHealGroups :: _ => []
  | CGroups groups :: _ => groups
  | _ :: history => groups_now history
  end.

(** The last group that names a node is its own. *)
Fixpoint last_group (i : nat) (groups : list (list bytes)) (id : bytes) : option nat :=
  match groups with
  | [] => None
  | group :: groups =>
      match last_group (S i) groups id with
      | Some j => Some j
      | None => if bool_decide (id ∈ group) then Some i else None
      end
  end.

Definition separated (groups : list (list bytes)) (a b : bytes) : bool :=
  match last_group 0 groups a, last_group 0 groups b with
  | Some i, Some j => negb (bool_decide (i = j))
  | _, _ => false
  end.

Definition linked (history : list control) (a b : bytes) : bool :=
  negb (cut_off history a) && negb (cut_off history b) && negb (separated (groups_now history) a b).

Lemma assign_one i group g id :
  fold_left (fun (g : gmap bytes nat) id => <[id := i]> g) group g !! id =
  if bool_decide (id ∈ group) then Some i else g !! id.
Proof.
  revert g. induction group as [|x group IH]; intros g; simpl; [done|]. rewrite IH.
  destruct (decide (id ∈ group)) as [Hin|Hin]; [rewrite !bool_decide_true by set_solver; done|].
  rewrite (bool_decide_false (id ∈ group)) by done.
  destruct (decide (id = x)) as [->|Hne]; [rewrite lookup_insert_eq, bool_decide_true by set_solver; done|].
  rewrite lookup_insert_ne, bool_decide_false by set_solver. done.
Qed.

Lemma assign_spec i groups g id :
  assign i groups g !! id = match last_group i groups id with Some j => Some j | None => g !! id end.
Proof.
  revert i g. induction groups as [|group groups IH]; intros i g; simpl; [done|]. rewrite IH, assign_one.
  destruct (last_group (S i) groups id); [done|]. by case_bool_decide.
Qed.

Lemma controls_spec (t : InMemoryTransport) (history : list control) :
  isolated t = ∅ -> groupOf t = ∅ ->
  let t' := fold_right (fun c t => control_step t c) t history in
  handlers t' = handlers t /\ (forall id, id ∈ isolated t' <-> cut_off history id = true) /\
  (forall id, groupOf t' !! id = last_group 0 (groups_now history) id).
Proof.
  intros Hi Hg. induction history as [|c history (IH1 & IH2 & IH3)]; simpl.
  { split_and!; [done| |]; intros id; [rewrite Hi; set_solver|by rewrite Hg]. }
  destruct c; simpl; (split; [done|split; [intros x|intros x; try apply IH3]]); try apply IH2.
  - rewrite elem_of_union, elem_of_singleton, IH2, orb_true_iff, bool_decide_eq_true. naive_solver.
  - rewrite elem_of_difference, elem_of_singleton, IH2, andb_true_iff, negb_true_iff, bool_decide_eq_false. naive_solver.
  - rewrite assign_spec. by destruct (last_group 0 _ x).
  - by rewrite lookup_empty.
Qed.

Lemma resolve_spec (t : InMemoryTransport) history a b :
  isolated t = ∅ -> groupOf t = ∅ ->
  let t' := fold_right (fun c t => control_step t c) t history in
  resolve t' a b = if linked history a b then handlers t !! b else None.
Proof.
  intros Hi Hg t'. destruct (controls_spec t history Hi Hg) as (H1 & H2 & H3). fold t' in H1, H2, H3.
  unfold resolve, linked, separated.
  assert (forall id, bool_decide (id ∈ isolated t') = cut_off history id) as Hcut.
  { intros id. case_bool_decide as Hid; [by apply H2 in Hid|]. symmetry. apply not_true_iff_false. by rewrite <- H2. }
  rewrite !Hcut, !H3, H1. destruct (cut_off history a), (cut_off history b); simpl; try done.
  destruct (last_group 0 (groups_now history) a) as [i|] eqn:Ea; [|by rewrite andb_false_r].
  destruct (last_group 0 (groups_now history) b) as [j|] eqn:Eb; [|by rewrite andb_false_r].
  rewrite bool_decide_true; [by destruct (negb _)|].
  assert (groupOf t' !! a = Some i) as Hai by by rewrite H3.
  destruct (decide (size (groupOf t') = 0%nat)) as [Hz|]; [|lia].
  apply map_size_empty_inv in Hz. rewrite Hz in Hai. by rewrite lookup_empty in Hai.
Qed.
End InMemory.
Arguments InMemoryTransport : clear implicits.

(** ** Theorems *)

(** The in-memory transport's partitions mean what they say: after any
    sequence of [Partition], [Heal], [PartitionGroups] and [HealPartitions],
    a message from one node reaches another exactly when the last word on
    neither of them was to isolate it and the latest grouping does not put
    them in different groups, and then the target's handler processes the
    very message; otherwise nothing changes and the send fails. *)
Theorem delivery_follows_partitions (t : InMemoryTransport Node) history f target args :
  isolated t = ∅ -> groupOf t = ∅ ->
  let t' := fold_right (fun c t => control_step t c) t history in
  SendAppendEntries t' f target args =
    match handlers t !! target with
    | Some h => if linked history (ae_LeaderID args) target
                then (Register t' target (HandleAppendEntries h f args).1, Some (HandleAppendEntries h f args).2)
                else (t', None)
    | None => (t', None)
    end /\
  linked history (ae_LeaderID args) target = linked history target (ae_LeaderID args).
Proof.
  intros Hi Hg t'. split.
  - unfold SendAppendEntries, deliver. unfold t'. rewrite (resolve_spec t history _ _ Hi Hg).
    destruct (handlers t !! target) as [h|]; destruct (linked _ _ _); try done. simpl.
    by destruct (HandleAppendEntries h f args).
  - unfold linked, separated. destruct (last_group _ _ (ae_LeaderID args)), (last_group _ _ target);
      rewrite (andb_comm (negb (cut_off history (ae_LeaderID args)))); try done.
    f_equal. f_equal. f_equal. by apply bool_decide_ext.
Qed.

(** ** Witnesses *)

Definition pair_transport : InMemoryTransport Node :=
  Register (Register NewInMemoryTransport na (fresh_node na)) nb (fresh_node nb).
Definition heartbeat : AppendEntriesArgs := MkAEA 1 na 0 0 [] 0.

Example delivery_follows_partitions_witness :
  linked [CHealGroups; CGroups [[na]; [nb]]] na nb = true /\
  is_Some (SendAppendEntries (control_step (control_step pair_transport (CGroups [[na]; [nb]])) CHealGroups) calm_faults nb heartbeat).2.
Proof.
  split; [vm_compute; reflexivity|].
  pose proof (delivery_follows_partitions pair_transport [CHealGroups; CGroups [[na]; [nb]]] calm_faults nb heartbeat
    eq_refl eq_refl) as [E _].
  change (is_Some (SendAppendEntries (fold_right (fun c t => control_step t c) pair_transport [CHealGroups; CGroups [[na]; [nb]]]) calm_faults nb heartbeat).2).
  rewrite E. vm_compute. eauto.
Defined.
