(* ===== verification/Grpc.v ===== *)
(** * The gRPC transport

    internal/transport: convert.go, grpc_server.go and grpc_transport.go. What
    the network does with one call is a parameter ([fate]); the protobuf
    messages are records with the fields of api/proto/raft.proto, and the
    sizes of their encodings, which the library computes, are a class with
    the bounds that the encoding gives. *)

From S2P Require Import Prelude Bytes RaftLog RaftFormat RaftPersist RaftNode RaftElection RaftDurable RaftCommit Transport.
From stdpp Require Import base tactics numbers gmap list relations.
From Stdlib Require Import Strings.Byte.
From Stdlib Require Import ZArith Lia.
#[local] Open Scope Z_scope.

(** ** Protobuf messages: convert.go

    A nil pointer is [None]. *)

Record pb_LogEntry := PbLogEntry { pb_Index : Z; pb_Term : Z; pb_Command : bytes }.
Record pb_RequestVoteRequest := PbVoteReq {
  pbv_Term : Z; pbv_CandidateId : bytes; pbv_LastLogIndex : Z; pbv_LastLogTerm : Z }.
Record pb_RequestVoteReply := PbVoteRep { pbvr_Term : Z; pbvr_VoteGranted : bool }.
Record pb_AppendEntriesRequest := PbAppReq {
  pba_Term : Z; pba_LeaderId : bytes; pba_PrevLogIndex : Z; pba_PrevLogTerm : Z;
  pba_Entries : list pb_LogEntry; pba_LeaderCommit : Z }.
Record pb_AppendEntriesReply := PbAppRep { pbar_Term : Z; pbar_Success : bool }.
Record pb_InstallSnapshotRequest := PbSnapReq {
  pbs_Term : Z; pbs_LeaderId : bytes; pbs_LastIncludedIndex : Z; pbs_LastIncludedTerm : Z; pbs_Data : bytes;
  pbs_Chunked : bool; pbs_Offset : Z; pbs_Final : bool; pbs_TotalSize : Z; pbs_Checksum : Z }.
Record pb_InstallSnapshotReply := PbSnapRep { pbsr_Term : Z; pbsr_Success : bool }.

Definition requestVoteArgsToProto (a : RequestVoteArgs) : option pb_RequestVoteRequest :=
  Some (PbVoteReq (rv_Term a) (rv_CandidateID a) (rv_LastLogIndex a) (rv_LastLogTerm a)).
Definition requestVoteArgsFromProto (r : option pb_RequestVoteRequest) : RequestVoteArgs :=
  match r with
  | None => MkRVA 0 [] 0 0
  | Some r => MkRVA (pbv_Term r) (pbv_CandidateId r) (pbv_LastLogIndex r) (pbv_LastLogTerm r)
  end.
Definition requestVoteReplyToProto (r : RequestVoteReply) : option pb_RequestVoteReply :=
  Some (PbVoteRep (rvr_Term r) (rvr_VoteGranted r)).
Definition requestVoteReplyFromProto (r : option pb_RequestVoteReply) : RequestVoteReply :=
  match r with None => MkRVR 0 false | Some r => MkRVR (pbvr_Term r) (pbvr_VoteGranted r) end.

Definition logEntriesToProto (entries : list LogEntry) : list pb_LogEntry :=
  (fun e => PbLogEntry (e_Index e) (e_Term e) (e_Command e)) <$> entries.
Definition logEntriesFromProto (entries : list pb_LogEntry) : list LogEntry :=
  (fun e => MkEntry (pb_Index e) (pb_Term e) (pb_Command e)) <$> entries.

Definition appendEntriesArgsToProto (a : AppendEntriesArgs) : option pb_AppendEntriesRequest :=
  Some (PbAppReq (ae_Term a) (ae_LeaderID a) (ae_PrevLogIndex a) (ae_PrevLogTerm a)
          (logEntriesToProto (ae_Entries a)) (ae_LeaderCommit a)).
Definition appendEntriesArgsFromProto (r : option pb_AppendEntriesRequest) : AppendEntriesArgs :=
  match r with
  | None => MkAEA 0 [] 0 0 [] 0
  | Some r => MkAEA (pba_Term r) (pba_LeaderId r) (pba_PrevLogIndex r) (pba_PrevLogTerm r)
                (logEntriesFromProto (pba_Entries r)) (pba_LeaderCommit r)
  end.
Definition appendEntriesReplyToProto (r : AppendEntriesReply) : option pb_AppendEntriesReply :=
  Some (PbAppRep (aer_Term r) (aer_Success r)).
Definition appendEntriesReplyFromProto (r : option pb_AppendEntriesReply) : AppendEntriesReply :=
  match r with None => MkAER 0 false | Some r => MkAER (pbar_Term r) (pbar_Success r) end.

Definition installSnapshotArgsToProto (a : InstallSnapshotArgs) : option pb_InstallSnapshotRequest :=
  Some (PbSnapReq (is_Term a) (is_LeaderID a) (is_LastIncludedIndex a) (is_LastIncludedTerm a) (is_Data a)
          (is_Chunked a) (is_Offset a) (is_Final a) (is_TotalSize a) (is_Checksum a)).
Definition installSnapshotArgsFromProto (r : option pb_InstallSnapshotRequest) : InstallSnapshotArgs :=
  match r with
  | None => MkISA 0 [] 0 0 [] false 0 false 0 0
  | Some r => MkISA (pbs_Term r) (pbs_LeaderId r) (pbs_LastIncludedIndex r) (pbs_LastIncludedTerm r) (pbs_Data r)
                (pbs_Chunked r) (pbs_Offset r) (pbs_Final r) (pbs_TotalSize r) (pbs_Checksum r)
  end.
Definition installSnapshotReplyToProto (r : InstallSnapshotReply) : option pb_InstallSnapshotReply :=
  Some (PbSnapRep (isr_Term r) (isr_Success r)).
Definition installSnapshotReplyFromProto (r : option pb_InstallSnapshotReply) : InstallSnapshotReply :=
  match r with None => MkISR 0 false | Some r => MkISR (pbsr_Term r) (pbsr_Success r) end.

(** What the entries of a request carry. *)
Definition payload (entries : list LogEntry) : Z := foldr (fun e n => zlen (e_Command e) + n) 0 entries.

(** The size of a request's encoding: at least what it carries, and little
    more where that is one byte string. *)
Class Wire := {
  vote_size : option pb_RequestVoteRequest -> Z;
  append_size : option pb_AppendEntriesRequest -> Z;
  snapshot_size : option pb_InstallSnapshotRequest -> Z;
  append_size_law r : payload (logEntriesFromProto (pba_Entries r)) <= append_size (Some r);
  snapshot_size_law r : snapshot_size (Some r) <= zlen (pbs_Data r) + zlen (pbs_LeaderId r) + 128 }.

(** ** Options *)

Record Options := MkOptions { DialTimeout : Z; RPCTimeout : Z; MaxMessageBytes : Z }.
Definition DefaultDialTimeout : Z := 5 * 10 ^ 9.
Definition DefaultRPCTimeout : Z := 2 * 10 ^ 9.
Definition DefaultMaxMessageBytes : Z := 64 * 2 ^ 20.

Definition withDefaults (o : Options) : Options :=
  MkOptions (if DialTimeout o <=? 0 then DefaultDialTimeout else DialTimeout o)
    (if RPCTimeout o <=? 0 then DefaultRPCTimeout else RPCTimeout o)
    (if MaxMessageBytes o <=? 0 then DefaultMaxMessageBytes else MaxMessageBytes o).

(** ** The server: grpc_server.go *)

Section Grpc.
Context {H : Type} `{RPCHandler H} `{Wire}.

Record Server := MkServer { handler : H; sv_opts : Options }.
Definition NewServer (h : H) (opts : Options) : Server := MkServer h (withDefaults opts).

(** [None] is an RPC error. *)
Definition RequestVote (s : Server) (f : faults) (r : option pb_RequestVoteRequest) :
    Server * option (option pb_RequestVoteReply) :=
  match r with
  | None => (s, None)
  | Some _ => let '(h, reply) := on_vote (handler s) f (requestVoteArgsFromProto r) in
              (MkServer h (sv_opts s), Some (requestVoteReplyToProto reply))
  end.
Definition AppendEntries (s : Server) (f : faults) (r : option pb_AppendEntriesRequest) :
    Server * option (option pb_AppendEntriesReply) :=
  match r with
  | None => (s, None)
  | Some _ => let '(h, reply) := on_append (handler s) f (appendEntriesArgsFromProto r) in
              (MkServer h (sv_opts s), Some (appendEntriesReplyToProto reply))
  end.
Definition InstallSnapshot (s : Server) (f : faults) (r : option pb_InstallSnapshotRequest) :
    Server * option (option pb_InstallSnapshotReply) :=
  match r with
  | None => (s, None)
  | Some _ => let '(h, reply) := on_snapshot (handler s) f (installSnapshotArgsFromProto r) in
              (MkServer h (sv_opts s), Some (installSnapshotReplyToProto reply))
  end.

(** [Serve], with what [net.Listen] returns: the bound address or an error. *)
Definition Serve {E} (listen : bytes -> result E bytes) (addr : bytes) : result E bytes :=
  match listen addr with Err e => Err e | Ok bound => Ok bound end.

(** ** The client: grpc_transport.go *)

(** [g_conns] holds the peers a connection object exists for. *)
Record GRPCTransport := MkGrpc { g_opts : Options; g_addrs : gmap bytes bytes; g_conns : gset bytes }.

Definition NewGRPCTransport (addrs : gmap bytes bytes) (opts : Options) : GRPCTransport :=
  MkGrpc (withDefaults opts) addrs ∅.

(** Why a send failed; every one is reported as [raft.ErrPeerUnreachable]. *)
Inductive cause := ErrUnknownPeer | ErrDial | ErrTooLarge | ErrRPC.
Inductive send_error := PeerUnreachable (target : bytes) (c : cause).
Definition unreachable (target : bytes) (c : cause) : send_error := PeerUnreachable target c.

(** What the network makes of one call; a reply that is refused is lost. *)
Inductive fate := DialFails | NotDelivered | ReplyLost | Delivered.

Definition clientFor (t : GRPCTransport) (d : fate) (id : bytes) : GRPCTransport * result cause unit :=
  if bool_decide (id ∈ g_conns t) then (t, Ok tt)
  else match g_addrs t !! id with
       | None => (t, Err ErrUnknownPeer)
       | Some _ => match d with
                   | DialFails => (t, Err ErrDial)
                   | _ => (MkGrpc (g_opts t) (g_addrs t) ({[id]} ∪ g_conns t), Ok tt)
                   end
       end.

(** The three sends differ in the server's method and the conversions. The
    sender refuses a request over its limit, the receiver one over its own. *)
Definition grpc_call {A P Q R} (size : P -> Z) (to : A -> P) (serve : Server -> P -> Server * option Q) (from : Q -> R)
    (t : GRPCTransport) (d : fate) (peer : Server) (target : bytes) (args : A) :
    GRPCTransport * Server * result send_error R :=
  match clientFor t d target with
  | (t, Err c) => (t, peer, Err (unreachable target c))
  | (t, Ok _) =>
      if (size (to args) >? MaxMessageBytes (g_opts t)) || (size (to args) >? MaxMessageBytes (sv_opts peer))
      then (t, peer, Err (unreachable target ErrTooLarge))
      else match d with
           | DialFails | NotDelivered => (t, peer, Err (unreachable target ErrRPC))
           | ReplyLost => (t, (serve peer (to args)).1, Err (unreachable target ErrRPC))
           | Delivered => let '(peer, reply) := serve peer (to args) in
                          (t, peer, match reply with Some q => Ok (from q) | None => Err (unreachable target ErrRPC) end)
           end
  end.

Definition grpc_SendRequestVote t d (f : faults) peer target args :=
  grpc_call vote_size requestVoteArgsToProto (fun s => RequestVote s f) requestVoteReplyFromProto t d peer target args.
Definition grpc_SendAppendEntries t d (f : faults) peer target args :=
  grpc_call append_size appendEntriesArgsToProto (fun s => AppendEntries s f) appendEntriesReplyFromProto t d peer target args.
Definition grpc_SendInstallSnapshot t d (f : faults) peer target args :=
  grpc_call snapshot_size installSnapshotArgsToProto (fun s => InstallSnapshot s f) installSnapshotReplyFromProto t d peer target args.

(** [Close]: the connections in the order the map gives them, and which of
    them fail to close; the first failure is reported. *)
Definition Close (t : GRPCTransport) (order : list bytes) (fails : bytes -> bool) : GRPCTransport * option bytes :=
  (MkGrpc (g_opts t) (g_addrs t) ∅,
   fold_left (fun first id => match first with None => if fails id then Some id else None | _ => first end) order None).

(** ** What a call amounts to *)

(** A call of the peer's handler, seen or not. *)
Definition remote {A R} (run : H -> A -> H * R) (d : fate) (h : H) (args : A) : H * option R :=
  match d with
  | DialFails | NotDelivered => (h, None)
  | ReplyLost => ((run h args).1, None)
  | Delivered => ((run h args).1, Some (run h args).2)
  end.

Definition to_option {E R} (r : result E R) : option R := match r with Ok x => Some x | Err _ => None end.

Lemma logEntries_roundtrip entries : logEntriesFromProto (logEntriesToProto entries) = entries.
Proof using Type. induction entries as [|[] entries IH]; [done|]. cbn. f_equal. exact IH. Qed.

Definition fits {P} (size : P -> Z) (t : GRPCTransport) (peer : Server) (r : P) : Prop :=
  size r <= MaxMessageBytes (g_opts t) /\ size r <= MaxMessageBytes (sv_opts peer).

Lemma grpc_call_remote {A P Q R} (size : P -> Z) (to : A -> P) (serve : Server -> P -> Server * option Q) (from : Q -> R)
    run t d peer target args :
  (forall s, (let '(s', q) := serve s (to args) in (s', from <$> q)) =
             (MkServer (run (handler s) args).1 (sv_opts s), Some (run (handler s) args).2)) ->
  is_Some (g_addrs t !! target) -> fits size t peer (to args) ->
  let '(_, peer', reply) := grpc_call size to serve from t d peer target args in
  (handler peer', to_option reply) = remote run d (handler peer) args.
Proof using Type.
  intros Hrun [addr Ha] [Ht Hp]. unfold grpc_call, clientFor, remote. specialize (Hrun peer). rewrite Ha.
  destruct (serve peer (to args)) as [s' q]. destruct q as [q|]; simplify_eq/=.
  case_bool_decide; destruct d; simpl;
    repeat match goal with |- context[?a >? ?b] => destruct (a >? b) eqn:?; zbool; [lia|] end; simpl; congruence.
Qed.

(** An oversized request goes nowhere. *)
Lemma grpc_call_too_large {A P Q R} (size : P -> Z) (to : A -> P) (serve : Server -> P -> Server * option Q) (from : Q -> R)
    t d peer target args :
  MaxMessageBytes (g_opts t) < size (to args) ->
  exists t' c, grpc_call size to serve from t d peer target args = (t', peer, Err (unreachable target c)).
Proof using Type.
  intros Hl. unfold grpc_call. destruct (clientFor t d target) as [t' [[]|c]] eqn:E; [|by eauto].
  assert (g_opts t' = g_opts t) as ->.
  { unfold clientFor in E. case_bool_decide; [by injection E as <-|]. destruct (g_addrs t !! target); [|by injection E as <-].
    destruct d; by injection E as <-. }
  exists t', ErrTooLarge. destruct (_ >? MaxMessageBytes (g_opts t)) eqn:G; [done|]. zbool. lia.
Qed.
End Grpc.
Arguments Server : clear implicits.

(** ** A follower that is far behind *)

(** What the next AppendEntries to a peer carries: everything the peer has
    not acknowledged. *)
Definition backlog (n : Node) (p : bytes) : Z := payload (ae_Entries (append_args n p)).

(** The steps of a node that stays leader of its term: proposals, ticks and
    the other peers' replies. *)
Inductive leads (p : bytes) (n : Node) : Node -> Prop :=
| ld_propose f command : leads p n (Propose n f command).1.1
| ld_tick f : leads p n (Tick n f).1
| ld_reply f q term args reply :
    q <> p -> aer_Term reply <= currentTerm n -> leads p n (onAppendEntriesReply n f q term args reply).1.

Lemma payload_nonneg es : 0 <= payload es.
Proof. unfold payload. induction es as [|e es IH]; cbn; [lia|]. pose proof (zlen_nonneg (e_Command e)). lia. Qed.

Lemma payload_app es es' : payload (es ++ es') = payload es + payload es'.
Proof. unfold payload. induction es as [|e es IH]; cbn; [done|]. rewrite IH. lia. Qed.

Lemma Slice_app l k from : l <> [] -> exists more, Slice (l ++ k) from = Slice l from ++ more.
Proof.
  intros Hl. unfold Slice. rewrite base_app by done. set (o := u64 (_ - base l)).
  assert (0 <= o) by apply u64_range. clearbody o.
  destruct (o >=? zlen l) eqn:E; [by eexists|]. rewrite zlen_app. zbool. pose proof (zlen_nonneg k).
  destruct (o >=? zlen l + _) eqn:E2; zbool; [lia|].
  exists k. rewrite drop_app_le; [done|]. unfold zlen in E. lia.
Qed.

(** Such a node as far as the peer is concerned. *)
Record same_lead (p : bytes) (n n' : Node) : Prop := {
  sl_role : role n' = role n;
  sl_next : next_of n' p = next_of n p;
  sl_log : exists more, log n' = log n ++ more }.

Lemma advance_leads p n : same_lead p n (maybeAdvanceCommitIndexLocked n).
Proof.
  destruct (commit_rule n) as [(N & _ & _ & _ & ->)|[_ ->]]; split; try done; exists []; by rewrite app_nil_r.
Qed.

Lemma same_lead_trans p a b c : same_lead p a b -> same_lead p b c -> same_lead p a c.
Proof.
  intros [R1 N1 (m1 & L1)] [R2 N2 (m2 & L2)]. split; [congruence..|]. exists (m1 ++ m2). by rewrite L2, L1, app_assoc.
Qed.

Ltac same_now := split; [done|done|by exists []; rewrite app_nil_r].

Lemma leads_same p n n' : role n = Leader -> leads p n n' -> same_lead p n n'.
Proof.
  intros Hr [f command|f|f q term args reply Hq Ht].
  - unfold Propose, persistLocked, log_Append. rewrite Hr. cbn [negb bool_decide]. destruct (fail_state f); [same_now|].
    cbn [broadcastAppendEntriesLocked fst]. eapply same_lead_trans; [|apply advance_leads]. split; [done|done|by eexists].
  - unfold Tick. rewrite Hr. case_if; [|same_now]. cbn [broadcastAppendEntriesLocked fst].
    eapply same_lead_trans; [|apply advance_leads]. same_now.
  - unfold onAppendEntriesReply. destruct (_ >? _) eqn:E; zbool; [lia|]. case_if; [same_now|].
    assert (forall m x, next_of (set_progress n (<[q := x]> (nextIndex n)) m) p = next_of n p) as Hn.
    { intros m x. unfold next_of. cbn. by rewrite lookup_insert_ne. }
    case_if; cbn [fst].
    + eapply same_lead_trans; [|apply advance_leads]. split; [done|case_if; [apply Hn|done]|by exists []; rewrite app_nil_r].
    + case_if; [|same_now]. split; [done|apply Hn|by exists []; rewrite app_nil_r].
Qed.

Lemma leads_run p n n' : role n = Leader -> rtc (leads p) n n' -> same_lead p n n'.
Proof.
  intros Hr Hrun. induction Hrun as [n|n n1 n' Hs _ IH]; [same_now|]. pose proof (leads_same _ _ _ Hr Hs) as H1.
  eapply same_lead_trans; [done|]. apply IH. by rewrite (sl_role _ _ _ H1).
Qed.

Lemma backlog_grows p n n' : log n <> [] -> same_lead p n n' -> backlog n p <= backlog n' p /\ base (log n') = base (log n).
Proof.
  intros Hl [_ En (more & El)]. unfold backlog, append_args. cbn [ae_Entries]. rewrite En, El.
  destruct (Slice_app (log n) more (u64 (u64 (next_of n p - 1) + 1)) Hl) as (k & ->). rewrite payload_app.
  pose proof (payload_nonneg k). split; [lia|by apply base_app].
Qed.

(** ** Theorems *)

(** The transport is transparent: a call to a configured peer that fits both
    sides' message limits has exactly the effect of calling that peer's
    handler with the same arguments, and the reply that comes back, when one
    does, is the handler's own; every failure leaves the peer's state as the
    handler, run or not, left it and reports no reply. *)
Theorem grpc_is_transparent `{Wire} (t : GRPCTransport) d f (peer : Server Node) target :
  is_Some (g_addrs t !! target) ->
  (forall args, fits vote_size t peer (requestVoteArgsToProto args) ->
     let '(_, peer', reply) := grpc_SendRequestVote t d f peer target args in
     (handler peer', to_option reply) = remote (fun n => HandleRequestVote n f) d (handler peer) args) /\
  (forall args, fits append_size t peer (appendEntriesArgsToProto args) ->
     let '(_, peer', reply) := grpc_SendAppendEntries t d f peer target args in
     (handler peer', to_option reply) = remote (fun n => HandleAppendEntries n f) d (handler peer) args) /\
  (forall args, fits snapshot_size t peer (installSnapshotArgsToProto args) ->
     let '(_, peer', reply) := grpc_SendInstallSnapshot t d f peer target args in
     (handler peer', to_option reply) = remote (fun n => HandleInstallSnapshot n f) d (handler peer) args).
Proof.
  intros Ha. split_and!; intros args Hfit; (eapply grpc_call_remote; [|done|done]); intros s; destruct args; simpl.
  - by destruct (HandleRequestVote (handler s) f _) as [? []].
  - rewrite logEntries_roundtrip. by destruct (HandleAppendEntries (handler s) f _) as [? []].
  - by destruct (HandleInstallSnapshot (handler s) f _) as [? []].
Qed.

(** Snapshots of any size get through: every chunk a leader cuts from a
    snapshot, at any offset, fits the message limits of both sides when the
    chunk size leaves room for the other fields, so a call that the network
    delivers runs the follower's handler on it. *)
Theorem snapshot_chunks_fit `{Wire} (t : GRPCTransport) d f (peer : Server Node) target n term snap offset :
  is_Some (g_addrs t !! target) -> 0 <= offset -> 0 < c_snapshotChunkSize (cfg n) ->
  offset + c_snapshotChunkSize (cfg n) < 2 ^ 64 ->
  c_snapshotChunkSize (cfg n) + zlen (id n) + 128 <= MaxMessageBytes (g_opts t) ->
  c_snapshotChunkSize (cfg n) + zlen (id n) + 128 <= MaxMessageBytes (sv_opts peer) ->
  let args := snapshot_chunk n term snap offset in
  let '(_, peer', reply) := grpc_SendInstallSnapshot t d f peer target args in
  (handler peer', to_option reply) = remote (fun n => HandleInstallSnapshot n f) d (handler peer) args.
Proof.
  intros Ha Ho Hc Hu Ht Hp args. eapply grpc_call_remote; [|done|].
  - intros s. destruct args. simpl. by destruct (HandleInstallSnapshot (handler s) f _) as [? []].
  - assert (zlen (is_Data args) <= c_snapshotChunkSize (cfg n)) as Hl.
    { unfold args, snapshot_chunk. cbn [is_Data]. unfold slice, zlen. rewrite length_take, length_drop.
      rewrite (u64_small (offset + _)) by (unfold is_u64; lia). case_if; zbool; unfold zlen in *; lia. }
    pose proof (snapshot_size_law (PbSnapReq (is_Term args) (is_LeaderID args) (is_LastIncludedIndex args) (is_LastIncludedTerm args) (is_Data args)
          (is_Chunked args) (is_Offset args) (is_Final args) (is_TotalSize args) (is_Checksum args))) as Hs.
    cbn [pbs_Data pbs_LeaderId] in Hs. change (is_LeaderID args) with (id n) in Hs.
    unfold fits, installSnapshotArgsToProto. change (is_LeaderID args) with (id n). lia.
Qed.

(** A follower that falls too far behind never catches up: an AppendEntries
    carries everything the follower has not acknowledged, in one message, so
    once that is more than the transport's limit every further request to it
    is refused before it is sent, whatever the network does, for as long as
    the leader leads and takes no snapshot; the follower's state does not
    change. *)
Theorem backlog_never_delivered `{Wire} (t : GRPCTransport) d f (peer : Server Node) p n n' :
  role n = Leader -> log n <> [] -> base (log n) < next_of n p -> MaxMessageBytes (g_opts t) < backlog n p ->
  rtc (leads p) n n' ->
  rpc_for n' p = RpcAppendEntries p (append_args n' p) /\
  exists t' c, grpc_SendAppendEntries t d f peer p (append_args n' p) = (t', peer, Err (unreachable p c)).
Proof.
  intros Hr Hl Hb Hm Hrun. pose proof (leads_run _ _ _ Hr Hrun) as Hs. destruct (backlog_grows _ _ _ Hl Hs) as [Hg Eb].
  split.
  - unfold rpc_for. rewrite (sl_next _ _ _ Hs), Eb. destruct (_ <=? _) eqn:E; [zbool; lia|done].
  - apply grpc_call_too_large. eapply Z.lt_le_trans; [exact Hm|]. etrans; [exact Hg|].
    unfold backlog. set (args := append_args n' p).
    pose proof (append_size_law (PbAppReq (ae_Term args) (ae_LeaderID args) (ae_PrevLogIndex args) (ae_PrevLogTerm args)
          (logEntriesToProto (ae_Entries args)) (ae_LeaderCommit args))) as Ha.
    cbn [pba_Entries] in Ha. by rewrite logEntries_roundtrip in Ha.
Qed.

(** [Close] tries every connection, reports the first that fails to close and
    forgets them all; but a transport that is closed still works: a later
    send to a configured peer opens a connection again, which nothing
    closes. *)
Theorem Close_does_not_last `{Wire} (t : GRPCTransport) order fails d f (peer : Server Node) target args :
  order ≡ₚ elements (g_conns t) -> is_Some (g_addrs t !! target) -> d <> DialFails ->
  let '(t', err) := Close t order fails in
  (err = None <-> forall id, id ∈ g_conns t -> fails id = false) /\
  (forall id, err = Some id -> fails id = true /\ exists before after,
     order = before ++ id :: after /\ Forall (fun id => fails id = false) before) /\
  g_conns t' = ∅ /\ target ∈ g_conns (grpc_SendAppendEntries t' d f peer target args).1.1.
Proof.
  intros Ho [addr Ha] Hd. unfold Close.
  assert (forall l acc, fold_left (fun first id => match first with None => if fails id then Some id else None | _ => first end) l acc =
    match acc with Some _ => acc | None => list_find (fun id => fails id = true) l ≫= (fun x => Some x.2) end) as Hf.
  { induction l as [|x l IH]; intros acc; cbn; [by destruct acc|]. rewrite IH. destruct acc; [done|].
    destruct (fails x) eqn:E; cbn; [by rewrite decide_True by done|]. rewrite decide_False by congruence.
    by destruct (list_find _ l) as [[]|]. }
  rewrite Hf. split_and!.
  - destruct (list_find _ order) as [[k x]|] eqn:E; cbn.
    + split; [done|]. intros Hall. apply list_find_Some in E as (Hk & Hx & _). apply list_elem_of_lookup_2 in Hk.
      rewrite Ho, elem_of_elements in Hk. by rewrite Hall in Hx.
    + split; [|done]. intros _ id Hid. rewrite list_find_None, Forall_forall in E. apply not_true_is_false, E.
      by rewrite Ho, elem_of_elements.
  - intros id. destruct (list_find _ order) as [[k x]|] eqn:E; cbn; [|done]. intros [= <-].
    apply list_find_Some in E as (Hk & Hx & Hb). split; [done|]. exists (take k order), (drop (S k) order).
    split; [by rewrite take_drop_middle|]. apply Forall_forall. intros y Hy. apply list_elem_of_lookup in Hy as [j Hj].
    apply lookup_take_Some in Hj as [Hj Hlt]. apply not_true_is_false. by eapply Hb.
  - done.
  - unfold grpc_SendAppendEntries, grpc_call, clientFor. cbn [g_conns g_addrs g_opts]. rewrite bool_decide_eq_false_2 by set_solver.
    rewrite Ha. destruct d; [done|..]; case_if; cbn [fst g_conns]; try set_solver;
      destruct (AppendEntries _ _ _); cbn [fst g_conns]; set_solver.
Qed.

(** ** Witnesses *)

#[local] Instance plain_wire : Wire.
Proof.
  refine {| vote_size := fun _ => 16;
            append_size := fun r => match r with Some r => 16 + payload (logEntriesFromProto (pba_Entries r)) | None => 0 end;
            snapshot_size := fun r => match r with Some r => zlen (pbs_Data r) + zlen (pbs_LeaderId r) + 64 | None => 0 end |};
    intros r; lia.
Defined.

Definition to_b : GRPCTransport := NewGRPCTransport {[nb := [x62]]} (MkOptions 0 0 0).
Definition server_b : Server Node := NewServer (fresh_node nb) (MkOptions 0 0 0).

Example snapshot_chunks_fit_witness :
  let args := snapshot_chunk (fresh_node na) 1 (MkSnapshot 3 1 [x01; x02; x03; x04; x05; x06]) 4 in
  is_Data args = [x05; x06] /\
  let '(_, peer', reply) := grpc_SendInstallSnapshot to_b Delivered calm_faults server_b nb args in
  (handler peer', to_option reply) = remote (fun n => HandleInstallSnapshot n calm_faults) Delivered (fresh_node nb) args.
Proof.
  split; [vm_compute; reflexivity|].
  refine (snapshot_chunks_fit to_b Delivered calm_faults server_b nb (fresh_node na) 1
    (MkSnapshot 3 1 [x01; x02; x03; x04; x05; x06]) 4 _ _ _ _ _ _);
    try (vm_compute; congruence). vm_compute. eauto.
Defined.

(** A leader with two commands to replicate over a transport whose limit is
    eight bytes. *)
Definition behind : Node := (Propose (Propose a2 calm_faults [x01; x02; x03; x04; x05]).1.1 calm_faults [x01; x02; x03; x04; x05]).1.1.
Definition narrow : GRPCTransport := NewGRPCTransport {[nb := [x62]]} (MkOptions 0 0 8).

Example backlog_never_delivered_witness :
  backlog behind nb = 10 /\
  exists t' c, grpc_SendAppendEntries narrow Delivered calm_faults server_b nb (append_args (Tick behind calm_faults).1 nb) =
    (t', server_b, Err (unreachable nb c)).
Proof.
  split; [vm_compute; reflexivity|].
  refine (proj2 (backlog_never_delivered narrow Delivered calm_faults server_b nb behind (Tick behind calm_faults).1 _ _ _ _ _));
    [vm_compute; reflexivity|vm_compute; discriminate|vm_compute; reflexivity|vm_compute; reflexivity|].
  apply rtc_once, ld_tick.
Defined.

Example Close_does_not_last_witness :
  let '(t', err) := Close (MkGrpc (g_opts to_b) (g_addrs to_b) {[nb]}) [nb] (fun _ => false) in
  err = None /\ nb ∈ g_conns (grpc_SendAppendEntries t' Delivered calm_faults server_b nb (append_args behind nb)).1.1.
Proof.
  pose proof (Close_does_not_last (MkGrpc (g_opts to_b) (g_addrs to_b) {[nb]}) [nb] (fun _ => false) Delivered calm_faults server_b nb
    (append_args behind nb)) as Hc. unfold Close in *. destruct Hc as (He & _ & _ & Hin).
  - cbn [g_conns]. by rewrite elements_singleton.
  - vm_compute. eauto.
  - discriminate.
  - split; [by apply He|exact Hin].
Defined.
