(* ===== verification/Gateway.v ===== *)
(** * The leader-following gateway

    internal/gateway/proxy.go: an HTTP proxy in front of a fixed set of
    nodes that keeps looking for the one that does not answer 421. What the
    network does with a request is a parameter. *)

From S2P Require Import Prelude Bytes Http Json.
From stdpp Require Import base tactics numbers sets list.
From Stdlib Require Import Strings.Byte.
From Stdlib Require Import ZArith Lia.
From Stdlib Require String.
Import String.StringSyntax.
#[local] Open Scope Z_scope.

(** ** Requests and responses *)

Record backend_request := MkBackendRequest {
  b_method : bytes; b_target : bytes; b_header : header; b_body : bytes }.
Record response := MkResponse { status : Z; resp_header : header; resp_body : bytes }.

Definition StatusMisdirectedRequest : Z := 421.
Definition DefaultMaxBodyBytes : Z := 4 * 2 ^ 20.
Definition maxAttempts : nat := 8.

Definition excludedHeaders : list bytes :=
  [lit "Connection"; lit "Proxy-Connection"; lit "Keep-Alive"; lit "Transfer-Encoding";
   lit "Te"; lit "Trailer"; lit "Upgrade"; lit "Proxy-Authenticate"; lit "Proxy-Authorization";
   lit "Content-Length"; lit "Host"].

Definition isExcludedHeader (name : bytes) : bool := existsb (fun h => EqualFold h name) excludedHeaders.

(** Copying into an empty header. *)
Definition copyHeader (src : header) : header := filter (fun kv => isExcludedHeader kv.1 = false) src.

(** ** The proxy *)

Record Proxy := MkProxy { backends : list bytes; maxBodyBytes : Z; guess : bytes }.

Definition NewProxy (bs : list bytes) (maxBody : option Z) : Proxy :=
  MkProxy bs (match maxBody with Some n => if n >? 0 then n else DefaultMaxBodyBytes | None => DefaultMaxBodyBytes end) [].

Definition isTrustedBackend (p : Proxy) (addr : bytes) : bool := existsb (fun b => bool_decide (b = addr)) (backends p).

Definition candidateOrder (p : Proxy) : list bytes :=
  (if bool_decide (guess p = []) then [] else [guess p]) ++ filter (fun b => b <> guess p) (backends p).

(** [limit + 1] wraps to the least int64, for which [io.LimitReader] is at its
    end at once. *)
Definition LimitReader_max (limit : Z) : Z := if limit =? 2 ^ 63 - 1 then 0 else limit + 1.

Definition readLimited (body : option bytes) (limit : Z) : option bytes :=
  match body with
  | None => None
  | Some b =>
      let data := take (Z.to_nat (LimitReader_max limit)) b in
      if zlen data >? limit then None else Some data
  end.

(** The request [forward] sends to [addr]. *)
Definition forward_request (addr : bytes) (orig : request) (body : bytes) : backend_request :=
  let target := TrimRight_slash addr ++ r_path orig in
  let target := if bool_decide (r_query orig = []) then target else target ++ [x3f] ++ r_query orig in
  MkBackendRequest (r_method orig) target (copyHeader (r_header orig)) body.

Definition writeResponse (r : response) : response := MkResponse (status r) (copyHeader (resp_header r)) (resp_body r).

Inductive gateway_error := RequestTooLarge | NoLeaderAvailable | NoBackendReachable.

Definition error_status (e : gateway_error) : Z :=
  match e with RequestTooLarge => 413 | NoLeaderAvailable => 503 | NoBackendReachable => 502 end.

Definition error_code (e : gateway_error) : bytes :=
  match e with
  | RequestTooLarge => lit "request_too_large"
  | NoLeaderAvailable => lit "no_leader_available"
  | NoBackendReachable => lit "no_backend_reachable"
  end.

(** A map's members are written in the order of their names. *)
Definition writeGatewayError (e : gateway_error) (detail : bytes) : response :=
  MkResponse (error_status e) [(lit "Content-Type", [lit "application/json; charset=utf-8"])]
    (Encode (JObj [(lit "detail", JStr detail); (lit "error", JStr (error_code e))])).

(** A response relayed from a node, or the gateway's own error. *)
Inductive reply := Relayed (r : response) | GatewayError (e : gateway_error).

(** ** Hints *)

Record notLeaderBody := MkNotLeaderBody { nl_Error : bytes; nl_LeaderID : bytes; nl_LeaderHTTP : bytes }.
Definition notLeaderBody_fields : fields notLeaderBody :=
  [(lit "error", at_field nl_Error (fun v n => MkNotLeaderBody v (nl_LeaderID n) (nl_LeaderHTTP n)) decode_string);
   (lit "leader_id", at_field nl_LeaderID (fun v n => MkNotLeaderBody (nl_Error n) v (nl_LeaderHTTP n)) decode_string);
   (lit "leader_http", at_field nl_LeaderHTTP (fun v n => MkNotLeaderBody (nl_Error n) (nl_LeaderID n) v) decode_string)].

(** The field of a 421 body; [None] when json.Unmarshal fails. *)
Definition leader_http (body : bytes) : option bytes :=
  nl_LeaderHTTP <$> Unmarshal (decode_struct notLeaderBody_fields) body (MkNotLeaderBody [] [] []).

Definition parseLeaderHint (body : bytes) : bytes :=
  match leader_http body with
  | None => []
  | Some h =>
      let hint := TrimSpace h in
      if bool_decide (hint = []) then []
      else if Contains hint (lit "://") then hint
      else lit "http://" ++ hint
  end.

Section Serve.
(** [client.Do], with the building of the request and the reading of the
    response: [None] when one of them fails. That a node gave no answer does
    not mean that it did nothing: the request may have reached it, and its
    answer have come too late or been lost. The gateway cannot tell, and
    EndToEnd.v says what the nodes have done in each case. *)
Context (do : bytes -> backend_request -> option response).

Definition forward (addr : bytes) (orig : request) (body : bytes) : option response :=
  do addr (forward_request addr orig body).

(** The state of the loop: the guess, the backends tried so far (latest
    first) and what they answered. *)
Record serve_state := MkServe { ss_guess : bytes; ss_tried : list bytes; ss_err : bool; ss_notLeader : bool }.

Fixpoint serve_loop (attempts : nat) (p : Proxy) (order : list bytes) (orig : request) (body : bytes) (s : serve_state) :
    serve_state * option response :=
  match attempts, order with
  | O, _ | _, [] => (s, None)
  | S attempts, addr :: order =>
      if bool_decide (addr ∈ ss_tried s) then serve_loop attempts p order orig body s
      else
        let tried := addr :: ss_tried s in
        match forward addr orig body with
        | None => serve_loop attempts p order orig body (MkServe (ss_guess s) tried true (ss_notLeader s))
        | Some r =>
            if status r =? StatusMisdirectedRequest then
              let hint := parseLeaderHint (resp_body r) in
              if negb (bool_decide (hint = [])) && negb (bool_decide (hint ∈ tried)) && isTrustedBackend p hint
              then serve_loop attempts p (hint :: order) orig body (MkServe hint tried (ss_err s) true)
              else serve_loop attempts p order orig body (MkServe (ss_guess s) tried (ss_err s) true)
            else (MkServe addr tried (ss_err s) (ss_notLeader s), Some r)
        end
  end.

(** One request: the proxy afterwards, the backends contacted (latest
    first) and the reply. *)
Definition ServeHTTP (p : Proxy) (r : request) : Proxy * list bytes * reply :=
  match readLimited (r_body r) (maxBodyBytes p) with
  | None => (p, [], GatewayError RequestTooLarge)
  | Some body =>
      match serve_loop maxAttempts p (candidateOrder p) r body (MkServe (guess p) [] false false) with
      | (s, Some resp) => (MkProxy (backends p) (maxBodyBytes p) (ss_guess s), ss_tried s, Relayed (writeResponse resp))
      | (s, None) =>
          (MkProxy (backends p) (maxBodyBytes p) (ss_guess s), ss_tried s,
           GatewayError (if ss_notLeader s then NoLeaderAvailable
                         else if ss_err s then NoBackendReachable else NoLeaderAvailable))
      end
  end.

End Serve.

(** ** Bodies and headers *)

Lemma readLimited_ok b limit :
  0 <= limit < 2 ^ 63 - 1 -> readLimited (Some b) limit = if zlen b >? limit then None else Some b.
Proof.
  intros Hl. unfold readLimited, LimitReader_max. rewrite (proj2 (Z.eqb_neq _ _)) by lia.
  destruct (Z_le_gt_dec (zlen b) limit) as [?|?].
  - rewrite take_ge; [done|]. unfold zlen in *. lia.
  - assert (zlen (take (Z.to_nat (limit + 1)) b) = limit + 1) as ->
      by (unfold zlen in *; rewrite length_take; lia).
    repeat case_if; zbool; lia || done.
Qed.

(** A body within the limit is sent on as it came. *)
Lemma readLimited_all b limit body : readLimited (Some b) limit = Some body -> 0 <= limit < 2 ^ 63 - 1 -> body = b.
Proof. intros H Hl. rewrite readLimited_ok in H by done. destruct (zlen b >? limit); congruence. Qed.

(** ** The loop *)

Lemma isTrustedBackend_spec p a : isTrustedBackend p a = true <-> a ∈ backends p.
Proof.
  unfold isTrustedBackend. rewrite existsb_exists. setoid_rewrite bool_decide_eq_true.
  setoid_rewrite <-list_elem_of_In. naive_solver.
Qed.

Section Loop.
Context (do : bytes -> backend_request -> option response).
Context (p : Proxy) (orig : request) (body : bytes).

#[local] Abbreviation fwd addr := (forward do addr orig body).
#[local] Abbreviation loop := (serve_loop do).

(** A backend that has turned the request down. *)
Definition declined (addr : bytes) : Prop :=
  match fwd addr with None => True | Some r => status r = StatusMisdirectedRequest end.

(** What holds of the backends tried so far, and of the guess. *)
Definition loop_ok (order : list bytes) (s : serve_state) : Prop :=
  NoDup (ss_tried s) /\ (forall a, a ∈ ss_tried s ++ order -> a ∈ backends p) /\
  (ss_guess s = [] \/ ss_guess s ∈ backends p) /\ Forall declined (ss_tried s).

(** The loop's whole outcome: the trail of backends contacted has no
    repetition, stays inside the configured set, and every one of them but
    the one whose answer is relayed declined. *)
Lemma serve_loop_spec attempts : forall order s s' o,
  loop_ok order s -> loop attempts p order orig body s = (s', o) ->
  (length (ss_tried s') <= length (ss_tried s) + attempts)%nat /\ NoDup (ss_tried s') /\
  (forall a, a ∈ ss_tried s' -> a ∈ backends p) /\ (ss_guess s' = [] \/ ss_guess s' ∈ backends p) /\
  match o with
  | None => Forall declined (ss_tried s')
  | Some r => exists addr before, ss_tried s' = addr :: before /\ ss_guess s' = addr /\ Forall declined before /\
      fwd addr = Some r /\ status r <> StatusMisdirectedRequest
  end.
Proof.
  induction attempts as [|n IH]; intros [|addr order] s s' o (Hnd & Hin & Hg & Hd) E; simpl in E;
    try (simplify_eq; split_and!; [lia|done|set_solver|done|done]).
  case_bool_decide as Ht.
  { apply IH in E as [??]; [split; [lia|done]|]. split_and!; [done|set_solver|done|done]. }
  assert (Hnd' : NoDup (addr :: ss_tried s)) by by constructor.
  assert (Hin' : forall a, a ∈ (addr :: ss_tried s) ++ order -> a ∈ backends p) by set_solver.
  destruct (fwd addr) as [r|] eqn:Ef.
  2: { apply IH in E as [??]; [simpl in *; split; [lia|done]|]. split_and!; [done..|].
       constructor; [unfold declined; by rewrite Ef|done]. }
  destruct (status r =? StatusMisdirectedRequest) eqn:Es; zbool.
  - assert (Hd' : Forall declined (addr :: ss_tried s)) by (constructor; [unfold declined; by rewrite Ef|done]).
    destruct (_ && _ && _) eqn:Eh; (apply IH in E as [??]; [simpl in *; split; [lia|done]|]); split_and!; try done.
    + apply andb_true_iff in Eh as [_ Eh%isTrustedBackend_spec]. simpl. set_solver.
    + apply andb_true_iff in Eh as [_ Eh%isTrustedBackend_spec]. by right.
  - simplify_eq. simpl. split_and!; [lia|done|set_solver|right; set_solver|]. by exists addr, (ss_tried s).
Qed.

(** The backends other than [g] not tried yet. *)
Definition untried (g : bytes) (tried : list bytes) : nat :=
  length (filter (fun b => b ∉ tried /\ b <> g) (backends p)).

Lemma filter_length_mono {A} (P Q : A -> Prop) `{!forall x, Decision (P x)} `{!forall x, Decision (Q x)} l :
  (forall x, P x -> Q x) -> (length (filter P l) <= length (filter Q l))%nat.
Proof.
  intros HPQ. induction l as [|x l IH]; [done|]. rewrite !filter_cons.
  repeat case_decide; simpl; try lia. naive_solver.
Qed.

Lemma filter_length_strict {A} (P Q : A -> Prop) `{!forall x, Decision (P x)} `{!forall x, Decision (Q x)} l a :
  (forall x, P x -> Q x) -> a ∈ l -> Q a -> ~ P a -> (S (length (filter P l)) <= length (filter Q l))%nat.
Proof.
  intros HPQ Ha HQ HP. induction Ha as [a l|a b l Ha IH]; rewrite !filter_cons.
  - rewrite decide_False, decide_True by done. simpl. pose proof (filter_length_mono P Q l HPQ). lia.
  - specialize (IH HQ HP). repeat case_decide; simpl; try lia. naive_solver.
Qed.

Lemma untried_cons g tried a :
  a ∈ backends p -> a ∉ tried -> a <> g -> (S (untried g (a :: tried)) <= untried g tried)%nat.
Proof. intros Ha Ht Hg. apply (filter_length_strict _ _ _ a); set_solver. Qed.

(** A backend [g] that takes the request and still stands in the order, after
    [pre], is reached: every hint costs a turn but also uses up an untried
    backend. *)
Lemma serve_loop_finds g r attempts : fwd g = Some r -> status r <> StatusMisdirectedRequest ->
  forall pre post s, g ∉ ss_tried s -> g ∉ pre -> (forall a, a ∈ pre -> a ∈ backends p) ->
  (length pre + 1 + (untried g (ss_tried s) - 1) <= attempts)%nat ->
  snd (loop attempts p (pre ++ g :: post) orig body s) <> None.
Proof.
  intros Hf Hr. induction attempts as [|n IH]; intros pre post s Hg Hgp Hpre Hn; [lia|].
  destruct pre as [|a pre]; simpl in *.
  { rewrite bool_decide_false, Hf by done. by rewrite (proj2 (Z.eqb_neq _ _)). }
  case_bool_decide as Ht; [apply IH; set_solver by lia|].
  assert (a <> g /\ a ∈ backends p) as [Hag Ha] by set_solver.
  pose proof (untried_cons g (ss_tried s) a Ha Ht Hag) as Hu.
  destruct (fwd a) as [r'|]; [|apply IH; simpl; set_solver by lia].
  destruct (status r' =? StatusMisdirectedRequest) eqn:Es; [|done].
  destruct (_ && _ && _) eqn:Eh; [|apply IH; simpl; set_solver by lia].
  zbool. set (h := parseLeaderHint (resp_body r')) in *.
  destruct (decide (h = g)) as [->|Hhg].
  - apply (IH [] (pre ++ g :: post)); simpl; set_solver by lia.
  - rewrite isTrustedBackend_spec in *.
    pose proof (untried_cons g (a :: ss_tried s) h ltac:(done) ltac:(done) Hhg).
    apply (IH (h :: pre) post); simpl; set_solver by lia.
Qed.

End Loop.

(** ** The handler *)

(** The guess is empty or a configured backend. *)
Definition proxy_ok (p : Proxy) : Prop := guess p = [] \/ guess p ∈ backends p.

Lemma candidateOrder_backends p a : proxy_ok p -> a ∈ candidateOrder p -> a ∈ backends p.
Proof.
  unfold candidateOrder. rewrite elem_of_app, list_elem_of_filter. intros Hp [H|[_ H]]; [|done].
  case_bool_decide; [by apply not_elem_of_nil in H|]. apply list_elem_of_singleton in H as ->. by destruct Hp.
Qed.

Lemma candidateOrder_elem p a : a <> [] -> a ∈ backends p -> a ∈ candidateOrder p.
Proof.
  intros Hne Ha. unfold candidateOrder. rewrite elem_of_app, list_elem_of_filter.
  destruct (decide (a = guess p)) as [->|]; [|by right]. case_bool_decide; [done|]. left. by apply list_elem_of_singleton.
Qed.

Lemma candidateOrder_length p : proxy_ok p -> (length (candidateOrder p) <= length (backends p))%nat.
Proof.
  intros Hp. unfold candidateOrder. rewrite length_app. case_bool_decide as E; simpl.
  - apply length_filter.
  - destruct Hp as [?|Hp]; [done|]. apply (length_filter_lt _ _ (guess p)); naive_solver.
Qed.

Lemma copyHeader_spec k v h : (k, v) ∈ copyHeader h <-> (k, v) ∈ h /\ isExcludedHeader k = false.
Proof. unfold copyHeader. rewrite list_elem_of_filter. simpl. tauto. Qed.

Lemma Authorization_forwarded k : EqualFold Authorization k = true -> isExcludedHeader k = false.
Proof.
  unfold isExcludedHeader, EqualFold. rewrite bool_decide_eq_true. intros Hk.
  apply not_true_iff_false. rewrite existsb_exists. intros (h & Hin & Hh).
  apply bool_decide_eq_true in Hh. rewrite <-Hk in Hh.
  assert (HF : Forall (fun h => lower <$> h <> lower <$> Authorization) excludedHeaders)
    by (repeat constructor; vm_compute; discriminate).
  rewrite List.Forall_forall in HF. exact (HF h Hin Hh).
Qed.

(** The node gave no usable answer, or answered 421. *)
Definition turned_down do p r (a : bytes) : Prop :=
  exists body, readLimited (r_body r) (maxBodyBytes p) = Some body /\ declined do r body a.

(** The trail of a request. *)
Lemma ServeHTTP_trail do p r p' contacted rep :
  proxy_ok p -> ServeHTTP do p r = (p', contacted, rep) ->
  proxy_ok p' /\ backends p' = backends p /\
  NoDup contacted /\ (length contacted <= maxAttempts)%nat /\ (forall a, a ∈ contacted -> a ∈ backends p) /\
  match rep with
  | GatewayError _ => Forall (turned_down do p r) contacted
  | Relayed resp => exists addr before body raw, contacted = addr :: before /\ Forall (turned_down do p r) before /\
      readLimited (r_body r) (maxBodyBytes p) = Some body /\ guess p' = addr /\
      do addr (forward_request addr r body) = Some raw /\ status raw <> StatusMisdirectedRequest /\ resp = writeResponse raw
  end.
Proof.
  intros Hp E. unfold ServeHTTP in E.
  destruct (readLimited _ _) as [body|] eqn:Eb; [|simplify_eq; split_and!; try done; [constructor|simpl; lia|set_solver]].
  destruct (serve_loop _ _ _ _ _ _ _) as [s o] eqn:El.
  apply serve_loop_spec in El as (Hl & Hnd & Hin & Hg & Ho);
    [|split_and!; [constructor|intros a; apply candidateOrder_backends, Hp|exact Hp|constructor]].
  assert (Hdown : forall l, Forall (declined do r body) l -> Forall (turned_down do p r) l).
  { intros l Hdl. eapply Forall_impl; [exact Hdl|]. intros a Ha. by exists body. }
  destruct o as [raw|]; simplify_eq; split_and!; try done; [|by apply Hdown].
  destruct Ho as (addr & before & -> & ? & ? & ? & ?). exists addr, before, body, raw.
  by repeat (split; [by auto|]).
Qed.


(** C22. With at most five nodes, as long as one of them would take the
    request the gateway relays an answer: neither stale guesses, nor
    unreachable nodes, nor misleading hints exhaust its eight attempts. *)
Theorem ServeHTTP_finds_leader do p r body g raw :
  proxy_ok p -> (length (backends p) <= 5)%nat ->
  readLimited (r_body r) (maxBodyBytes p) = Some body ->
  g ∈ backends p -> g <> [] -> do g (forward_request g r body) = Some raw -> status raw <> StatusMisdirectedRequest ->
  exists p' contacted resp, ServeHTTP do p r = (p', contacted, Relayed resp).
Proof.
  intros Hp Hn Hb Hg Hne Hd Hs. unfold ServeHTTP. rewrite Hb.
  destruct (serve_loop _ _ _ _ _ _ _) as [s o] eqn:El.
  destruct (list_elem_of_split_l _ _ (candidateOrder_elem p g Hne Hg)) as (pre & post & Eo & Hpre).
  assert (o <> None); [|destruct o; [by eauto|done]].
  change o with (snd (s, o)). rewrite <-El, Eo.
  pose proof (candidateOrder_length p Hp) as Hl. rewrite Eo, length_app in Hl. simpl in Hl.
  apply (serve_loop_finds do p r body g raw _ Hd Hs); cbn [ss_tried]; [by apply not_elem_of_nil|exact Hpre| |].
  - intros a Ha. apply candidateOrder_backends; [done|]. rewrite Eo. apply elem_of_app. by left.
  - assert (S (untried p g []) <= length (backends p))%nat; [|unfold maxAttempts; lia].
    apply (length_filter_lt _ _ g); [exact Hg|tauto].
Qed.

(** Three nodes, named by one byte each; the third leads, and the second
    hints at a node that is not configured. *)
Definition hinting (addr : bytes) : bytes := Encode (JObj [(lit "leader_http", JStr addr)]).
Definition three : Proxy := NewProxy [[x61]; [x62]; [x63]] None.
Definition three_do (a : bytes) (_ : backend_request) : option response :=
  if bool_decide (a = [x61]) then None
  else if bool_decide (a = [x62]) then Some (MkResponse 421 [] (hinting [x7a]))
  else Some (MkResponse 200 [] []).
Definition get : request := MkRequest MethodGet [x2f] [] [(Authorization, [[x74]])] (Some []).


Lemma ServeHTTP_finds_leader_witness :
  exists p' contacted resp, ServeHTTP three_do three get = (p', contacted, Relayed resp).
Proof.
  apply (ServeHTTP_finds_leader three_do three get [] [x63] (MkResponse 200 [] [])); try reflexivity; try done.
  - by left.
  - simpl. lia.
  - vm_compute. repeat constructor.
Defined.

(** With six nodes the attempts can run out before the leader, the last of
    them, is reached: a turn spent skipping a node that was already tried
    counts as an attempt. *)
Example six_nodes_miss_the_leader :
  let p := NewProxy ((fun b => [x68; x3a; x2f; x2f; b]) <$> [x61; x62; x63; x64; x65; x66]) None in
  let next b := byte_of (byte_val b + 1) in
  let do a (_ : backend_request) :=
    match a with
    | [_; _; _; _; b] => if bool_decide (b = x66) then Some (MkResponse 200 [] [])
                         else if bool_decide (b = x65) then Some (MkResponse 421 [] [])
                         else Some (MkResponse 421 [] (hinting [x68; x3a; x2f; x2f; next b]))
    | _ => None
    end in
  let '(_, contacted, rep) := ServeHTTP do p get in
  rep = GatewayError NoLeaderAvailable /\ bool_decide ([x68; x3a; x2f; x2f; x66] ∈ contacted) = false /\ length contacted = 5%nat.
Proof. vm_compute. by split_and!. Qed.

(** The gateway rebuilds the target from the decoded path, so a key with
    an escaped question mark is cut: the request for the key "a?b" is sent to
    the node as the very bytes of a request for the key "a". *)
Theorem forward_truncates_key addr m (h : header) body : exists r1 r2,
  r_path r1 <> r_path r2 /\ r_method r1 = m /\ r_method r2 = m /\ r_header r1 = h /\ r_header r2 = h /\ r_query r1 = [] /\
  r_path r1 = lit "/kv/a?b" /\ r_path r2 = lit "/kv/a" /\
  forward_request addr r1 body = forward_request addr r2 body.
Proof.
  exists (MkRequest m (lit "/kv/a?b") [] h (Some body)), (MkRequest m (lit "/kv/a") [x62] h (Some body)).
  split_and!; try done. unfold forward_request; simpl. by rewrite <-app_assoc.
Qed.
