(* ===== verification/Configuration.v ===== *)
(** * Configuration

    internal/config: load.go, gateway.go, config.go and node.go. The
    environment is a function from names to values, empty when unset;
    [time.ParseDuration] is a parameter of [Load]. *)

From S2P Require Import Prelude Bytes Http RaftLog RaftFormat RaftPersist RaftNode RaftElection Gateway.
From stdpp Require Import base tactics numbers gmap fin_sets sorting list.
From Stdlib Require Import Strings.Byte.
From Stdlib Require Import ZArith Lia.
From Stdlib Require String.
Import String.StringSyntax.
#[local] Open Scope Z_scope.

(** ** Splitting strings *)

(** [strings.Split] on a single byte. *)
Fixpoint Split (b : byte) (s : bytes) : list bytes :=
  match s with
  | [] => [[]]
  | x :: s =>
      if bool_decide (x = b) then [] :: Split b s
      else match Split b s with f :: fs => (x :: f) :: fs | [] => [[x]] end
  end.

(** [strings.LastIndexByte], as the text before and after the last match. *)
Definition cut_last (b : byte) (s : bytes) : option (bytes * bytes) :=
  match cut_at b (reverse s) with Some (r, l) => Some (reverse l, reverse r) | None => None end.

(** [net.SplitHostPort]: the host and the port. *)
Definition SplitHostPort (hostport : bytes) : option (bytes * bytes) :=
  match cut_last x3a hostport with
  | None => None
  | Some (before, port) =>
      match hostport with
      | x5b :: inside =>
          match cut_at x5d inside with
          | None => None
          | Some (host, after) =>
              match after with
              | x3a :: port' =>
                  if bool_decide (x3a ∈ port') || bool_decide (x5b ∈ inside) || bool_decide (x5d ∈ after) then None
                  else Some (host, port')
              | _ => None
              end
          end
      | _ => if bool_decide (x3a ∈ before) || bool_decide (x5b ∈ hostport) || bool_decide (x5d ∈ hostport) then None
             else Some (before, port)
      end
  end.

(** [strconv.ParseInt(v, 10, 64)]. *)
Fixpoint digits (acc : Z) (s : bytes) : option Z :=
  match s with
  | [] => Some acc
  | b :: s => if (48 <=? byte_val b) && (byte_val b <=? 57) then digits (acc * 10 + (byte_val b - 48)) s else None
  end.

Definition ParseInt (s : bytes) : option Z :=
  let '(sign, s) := match s with x2b :: s => (1, s) | x2d :: s => (-1, s) | _ => (1, s) end in
  match s with
  | [] => None
  | _ => match digits 0 s with
         | Some n => let v := sign * n in if (- 2 ^ 63 <=? v) && (v <? 2 ^ 63) then Some v else None
         | None => None
         end
  end.

(** [strconv.ParseBool]. *)
Definition ParseBool (s : bytes) : option bool :=
  if bool_decide (s ∈ [lit "1"; lit "t"; lit "T"; lit "true"; lit "TRUE"; lit "True"]) then Some true
  else if bool_decide (s ∈ [lit "0"; lit "f"; lit "F"; lit "false"; lit "FALSE"; lit "False"]) then Some false
  else None.

(** ** The roster *)

Record PeerNode := MkPeer { p_ID : bytes; p_HTTP : bytes; p_GRPC : bytes }.

Inductive config_error := ErrPeersEntry | ErrNodeID | ErrAPIToken | ErrMaxValueBytes | ErrAddr | ErrDataDir | ErrEmptyPeerID
| ErrDuplicateID | ErrDuplicateGRPC | ErrSelfAddr | ErrParse | ErrGateway.

(** One entry, already trimmed and not empty. *)
Definition parse_peer (field : bytes) : result config_error PeerNode :=
  match cut_at x3d field with
  | None => Err ErrPeersEntry
  | Some (l, r) =>
      let id := TrimSpace l in
      let addr := TrimSpace r in
      if bool_decide (id = []) || bool_decide (addr = []) then Err ErrPeersEntry
      else match cut_at x7c addr with
           | None => Ok (MkPeer id [] addr)
           | Some (g, h) =>
               let grpcAddr := TrimSpace g in
               if bool_decide (grpcAddr = []) then Err ErrPeersEntry
               else Ok (MkPeer id (TrimSpace h) grpcAddr)
           end
  end.

Fixpoint parse_peers (fields : list bytes) : result config_error (list PeerNode) :=
  match fields with
  | [] => Ok []
  | field :: fields =>
      let field := TrimSpace field in
      if bool_decide (field = []) then parse_peers fields
      else match parse_peer field with
           | Err e => Err e
           | Ok p => match parse_peers fields with Ok ps => Ok (p :: ps) | Err e => Err e end
           end
  end.

Definition ParsePeers (raw : bytes) : result config_error (list PeerNode) :=
  let raw := TrimSpace raw in
  if bool_decide (raw = []) then Ok [] else parse_peers (Split x2c raw).

Definition parseCORSOrigins (raw : bytes) : list bytes :=
  let raw := TrimSpace raw in
  if bool_decide (raw = []) then [] else filter (fun o => o <> []) (TrimSpace <$> Split x2c raw).

(** ** Node configuration *)

Record NodeConfig := MkNodeConfig {
  NodeID : bytes; HTTP : bytes; GRPC : bytes; DataDir : bytes; APIToken : bytes; Peers : list PeerNode;
  LogLevel : bytes; MetricsEnabled : bool; MetricsAddr : bytes; RPCTimeout : Z; TickInterval : Z;
  MaxValueBytes : Z; CORSOrigins : list bytes }.

Definition DefaultMaxValueBytes : Z := 2 ^ 20.

Definition validateAddr (addr : bytes) : result config_error unit :=
  if bool_decide (addr = []) then Err ErrAddr
  else match SplitHostPort addr with None => Err ErrAddr | Some _ => Ok tt end.

Definition isWildcardHost (host : bytes) : bool :=
  bool_decide (host = []) || bool_decide (host = lit "0.0.0.0") || bool_decide (host = lit "::").

Definition checkSelfAddrCoherent (selfPeerAddr bindAddr : bytes) : result config_error unit :=
  match SplitHostPort selfPeerAddr with
  | None => Err ErrSelfAddr
  | Some (peerHost, peerPort) =>
      match SplitHostPort bindAddr with
      | None => Err ErrSelfAddr
      | Some (bindHost, bindPort) =>
          if negb (bool_decide (peerPort = bindPort)) then Err ErrSelfAddr
          else if negb (isWildcardHost bindHost) && negb (isWildcardHost peerHost) && negb (bool_decide (bindHost = peerHost))
          then Err ErrSelfAddr else Ok tt
      end
  end.

(** The loop over the peers: the identifiers and addresses seen, and this
    node's own entry. *)
Fixpoint validate_peers (self : bytes) (peers : list PeerNode) (seenID : gset bytes) (seenGRPC : gmap bytes bytes)
    (selfEntry : option PeerNode) : result config_error (option PeerNode) :=
  match peers with
  | [] => Ok selfEntry
  | p :: peers =>
      if bool_decide (p_ID p = []) then Err ErrEmptyPeerID
      else if bool_decide (p_ID p ∈ seenID) then Err ErrDuplicateID
      else match validateAddr (p_GRPC p) with
           | Err e => Err e
           | Ok _ =>
               if match seenGRPC !! p_GRPC p with Some owner => negb (bool_decide (owner = p_ID p)) | None => false end
               then Err ErrDuplicateGRPC
               else validate_peers self peers ({[p_ID p]} ∪ seenID) (<[p_GRPC p := p_ID p]> seenGRPC)
                      (if bool_decide (p_ID p = self) then Some p else selfEntry)
           end
  end.

Definition Validate (c : NodeConfig) : result config_error unit :=
  if bool_decide (NodeID c = []) then Err ErrNodeID
  else if bool_decide (APIToken c = []) then Err ErrAPIToken
  else if MaxValueBytes c <=? 0 then Err ErrMaxValueBytes
  else match validateAddr (HTTP c) with
       | Err e => Err e
       | Ok _ =>
           match validateAddr (GRPC c) with
           | Err e => Err e
           | Ok _ =>
               if bool_decide (DataDir c = []) then Err ErrDataDir
               else match validate_peers (NodeID c) (Peers c) ∅ ∅ None with
                    | Err e => Err e
                    | Ok None => Ok tt
                    | Ok (Some p) => checkSelfAddrCoherent (p_GRPC p) (GRPC c)
                    end
           end
       end.

Section Load.
Context (ParseDuration : bytes -> option Z) (Getenv : bytes -> bytes).

Definition getenvDefault (key def : bytes) : bytes :=
  let v := Getenv key in if bool_decide (v = []) then def else v.

(** A variable that is parsed when set. *)
Definition getenvParse {A} (key : bytes) (parse : bytes -> option A) (def : A) : result config_error A :=
  let v := Getenv key in
  if bool_decide (v = []) then Ok def else match parse v with Some a => Ok a | None => Err ErrParse end.

Definition Load : result config_error NodeConfig :=
  peers ← ParsePeers (Getenv (lit "PEERS"));
  metrics ← getenvParse (lit "METRICS_ENABLED") ParseBool true;
  rpc ← getenvParse (lit "RPC_TIMEOUT") ParseDuration 0;
  tick ← getenvParse (lit "TICK_INTERVAL") ParseDuration 0;
  maxValue ← getenvParse (lit "MAX_VALUE_BYTES") ParseInt DefaultMaxValueBytes;
  let cfg := MkNodeConfig (Getenv (lit "NODE_ID")) (getenvDefault (lit "HTTP_ADDR") (lit ":8080"))
               (getenvDefault (lit "GRPC_ADDR") (lit ":9090")) (getenvDefault (lit "DATA_DIR") (lit "data"))
               (Getenv (lit "FORGEDB_API_TOKEN")) peers (getenvDefault (lit "LOG_LEVEL") (lit "info")) metrics
               (Getenv (lit "METRICS_ADDR")) rpc tick maxValue (parseCORSOrigins (Getenv (lit "FORGEDB_CORS_ORIGINS"))) in
  _ ← Validate cfg;
  mret cfg.

(** *** The gateway's configuration *)

Record GatewayConfig := MkGatewayConfig { ga_Addr : bytes; ga_Backends : list bytes; ga_MaxBodyBytes : Z }.

Definition httpURL (addr : bytes) : bytes := if Contains addr (lit "://") then addr else lit "http://" ++ addr.

Definition LoadGateway : result config_error GatewayConfig :=
  let addr := getenvDefault (lit "GATEWAY_ADDR") (lit ":8090") in
  if bool_decide (addr = []) then Err ErrGateway
  else
    maxBody ← getenvParse (lit "GATEWAY_MAX_BODY_BYTES") (fun v => n ← ParseInt v; if n <=? 0 then None else Some n) (2 ^ 22);
    peers ← ParsePeers (Getenv (lit "PEERS"));
    let backends := httpURL <$> filter (fun h => h <> []) (p_HTTP <$> peers) in
    if bool_decide (backends = []) then Err ErrGateway else mret (MkGatewayConfig addr backends maxBody).
End Load.

(** ** What the rest of the program is given *)

Definition PeerIDs (c : NodeConfig) : list bytes :=
  merge_sort ble (p_ID <$> filter (fun p => p_ID p <> NodeID c) (Peers c)).
Definition PeerGRPCAddrs (c : NodeConfig) : gmap bytes bytes :=
  fold_left (fun m p => <[p_ID p := p_GRPC p]> m) (filter (fun p => p_ID p <> NodeID c) (Peers c)) ∅.
Definition PeerHTTPAddrs (c : NodeConfig) : gmap bytes bytes :=
  fold_left (fun m p => <[p_ID p := p_HTTP p]> m) (filter (fun p => p_HTTP p <> []) (Peers c)) ∅.

(** ** Trimming *)

(** Nothing at the front, nothing at the end to trim. *)
Definition front_clean (table : list bytes) (l : bytes) : Prop := Forall (fun s => take (length s) l <> s) table.
Definition clean (l : bytes) : Prop := front_clean spaces l /\ front_clean (reverse <$> spaces) (reverse l).

Lemma strip_one_None table l : strip_one table l = None <-> front_clean table l.
Proof.
  induction table as [|s table IH]; simpl; [split; [constructor|done]|].
  unfold front_clean in *. rewrite Forall_cons, <- IH. case_bool_decide; naive_solver.
Qed.

Lemma strip_one_Some table l l' : strip_one table l = Some l' -> exists s, s ∈ table /\ l = s ++ l'.
Proof.
  induction table as [|s table IH]; simpl; [done|]. case_bool_decide as Hs.
  - intros [= <-]. exists s. split; [left|]. rewrite <- (take_drop (length s) l) at 1. by rewrite Hs.
  - intros (s' & Hs' & ->)%IH. exists s'. split; [by right|done].
Qed.

Lemma strip_all_spec table n l :
  Forall (fun s => s <> []) table -> (length l <= n)%nat ->
  front_clean table (strip_all n table l) /\ exists p, l = p ++ strip_all n table l.
Proof.
  intros Ht. revert l. induction n as [|n IH]; intros l Hl; simpl.
  - destruct l; [|simpl in Hl; lia]. split; [|by exists []].
    eapply Forall_impl; [exact Ht|]. intros s Hs. by rewrite take_nil.
  - destruct (strip_one table l) as [l'|] eqn:E; [|split; [by apply strip_one_None|by exists []]].
    apply strip_one_Some in E as (s & Hs & ->). pose proof (proj1 (Forall_forall _ _) Ht s Hs) as Hne.
    rewrite length_app in Hl. destruct (IH l') as [H1 [p Hp]]; [destruct s; [done|simpl in Hl; lia]|].
    split; [done|]. exists (s ++ p). by rewrite <- app_assoc, <- Hp.
Qed.

Lemma strip_all_clean table n l : front_clean table l -> strip_all n table l = l.
Proof. intros Hc. destruct n; [done|]. simpl. by rewrite (proj2 (strip_one_None _ _) Hc). Qed.

Lemma front_clean_prefix table l k : front_clean table (l ++ k) -> front_clean table l.
Proof.
  intros Hc. eapply Forall_impl; [exact Hc|]. intros s Hs E. apply Hs.
  rewrite take_app_le; [done|]. rewrite <- E at 1. rewrite length_take. lia.
Qed.

Lemma spaces_nonempty : Forall (fun s => s <> []) spaces /\ Forall (fun s => s <> []) (reverse <$> spaces).
Proof. split; repeat constructor; discriminate. Qed.

Lemma TrimSpace_clean l : clean (TrimSpace l).
Proof.
  unfold TrimSpace. destruct spaces_nonempty as [H1 H2].
  destruct (strip_all_spec spaces (length l) l H1 ltac:(done)) as [Hc _].
  set (u := strip_all (length l) spaces l) in *.
  destruct (strip_all_spec (reverse <$> spaces) (length u) (reverse u) H2) as [Hc' [p Hp]].
  { by rewrite length_reverse. }
  split; [|by rewrite reverse_involutive].
  apply (front_clean_prefix _ _ (reverse p)). by rewrite <- reverse_app, <- Hp, reverse_involutive.
Qed.

Lemma clean_TrimSpace l : clean l -> TrimSpace l = l.
Proof.
  intros [H1 H2]. unfold TrimSpace. rewrite (strip_all_clean _ _ _ H1), (strip_all_clean _ _ _ H2).
  apply reverse_involutive.
Qed.

Lemma clean_nil : clean [].
Proof. split; repeat constructor; discriminate. Qed.

(** A byte that is no part of any white space. *)
Definition solid (b : byte) : Prop := Forall (fun s => b ∉ s) spaces.

Lemma front_clean_sep table a b r :
  Forall (fun s => b ∉ s) table -> front_clean table a -> front_clean table (a ++ b :: r).
Proof.
  intros Hb Ha. apply Forall_forall. intros s Hs E.
  pose proof (proj1 (Forall_forall _ _) Hb s Hs) as Hbs. pose proof (proj1 (Forall_forall _ _) Ha s Hs) as Has.
  cbn beta in *. destruct (decide (length s <= length a)%nat) as [Hl|Hl].
  - rewrite take_app_le in E by done. done.
  - apply Hbs. rewrite <- E. rewrite take_app_ge by lia. apply elem_of_app. right.
    destruct (length s - length a)%nat eqn:En; [lia|]. simpl. left.
Qed.

Lemma solid_reverse b : solid b -> Forall (fun s => b ∉ s) (reverse <$> spaces).
Proof.
  intros Hb. apply Forall_fmap. eapply Forall_impl; [exact Hb|]. intros s Hs. cbn. by rewrite elem_of_reverse.
Qed.

Lemma clean_sep a b r : solid b -> clean a -> clean r -> clean (a ++ b :: r).
Proof.
  intros Hb [Ha _] [_ Hr]. split; [by apply front_clean_sep|].
  rewrite reverse_app, reverse_cons, <- app_assoc. apply front_clean_sep; [by apply solid_reverse|done].
Qed.

(** ** Reading back a roster *)

Lemma Split_sep b f r : b ∉ f -> Split b (f ++ b :: r) = f :: Split b r.
Proof.
  induction f as [|x f IH]; simpl; intros Hf; [by rewrite bool_decide_true|].
  rewrite bool_decide_false by set_solver. by rewrite IH by set_solver.
Qed.

Lemma Split_one b f : b ∉ f -> Split b f = [f].
Proof.
  induction f as [|x f IH]; simpl; intros Hf; [done|].
  rewrite bool_decide_false by set_solver. by rewrite IH by set_solver.
Qed.

(** The text of a roster, the format ParsePeers documents. *)
Definition print_peer (p : PeerNode) : bytes :=
  p_ID p ++ x3d :: (p_GRPC p ++ (if bool_decide (p_HTTP p = []) then [] else x7c :: p_HTTP p)).

Fixpoint print_peers (ps : list PeerNode) : bytes :=
  match ps with
  | [] => []
  | [p] => print_peer p
  | p :: ps => print_peer p ++ x2c :: print_peers ps
  end.

(** Parts without the separators, without white space around them, and the
    mandatory ones not empty. *)
Record peer_ok (p : PeerNode) : Prop := {
  ok_id : p_ID p <> [] /\ clean (p_ID p) /\ x3d ∉ p_ID p;
  ok_grpc : p_GRPC p <> [] /\ clean (p_GRPC p) /\ x7c ∉ p_GRPC p;
  ok_http : clean (p_HTTP p);
  ok_comma : x2c ∉ p_ID p ++ p_GRPC p ++ p_HTTP p }.

Lemma solid_separators : solid x2c /\ solid x3d /\ solid x7c.
Proof. split_and!; apply (bool_decide_unpack _); vm_compute; exact I. Qed.

Lemma clean_addr p :
  peer_ok p -> clean (p_GRPC p ++ (if bool_decide (p_HTTP p = []) then [] else x7c :: p_HTTP p)).
Proof.
  intros [_ (_ & Hg & _) Hh _]. case_bool_decide; [by rewrite app_nil_r|].
  apply clean_sep; [apply solid_separators|done..].
Qed.

Lemma clean_print_peer p : peer_ok p -> clean (print_peer p).
Proof. intros Hp. apply clean_sep; [apply solid_separators|apply (ok_id _ Hp)|by apply clean_addr]. Qed.

Lemma print_peer_no_comma p : peer_ok p -> x2c ∉ print_peer p.
Proof.
  intros [_ _ _ Hc]. unfold print_peer. rewrite !not_elem_of_app in Hc. destruct Hc as (H1 & H2 & H3).
  rewrite not_elem_of_app, not_elem_of_cons, not_elem_of_app. split_and!; try done.
  case_bool_decide; [apply not_elem_of_nil|]. rewrite not_elem_of_cons. by split.
Qed.

Lemma parse_print_peer p : peer_ok p -> parse_peer (print_peer p) = Ok p.
Proof.
  intros Hp. pose proof (clean_addr p Hp) as Hc. destruct Hp as [(Hi1 & Hi2 & Hi3) (Hg1 & Hg2 & Hg3) Hh _].
  unfold parse_peer, print_peer. rewrite (cut_at_app _ _ _ Hi3). rewrite (clean_TrimSpace _ Hi2), (clean_TrimSpace _ Hc).
  rewrite (bool_decide_false (p_ID p = [])) by done. rewrite bool_decide_false by (by destruct (p_GRPC p)). simpl.
  case_bool_decide as Eh.
  - rewrite app_nil_r. rewrite (proj2 (cut_at_None _ _) Hg3). destruct p; simpl in *. by rewrite Eh.
  - rewrite (cut_at_app _ _ _ Hg3), (clean_TrimSpace _ Hg2), (clean_TrimSpace _ Hh).
    rewrite bool_decide_false by done. by destruct p.
Qed.

Lemma parse_print_peers ps :
  ps <> [] -> Forall peer_ok ps -> parse_peers (Split x2c (print_peers ps)) = Ok ps /\ clean (print_peers ps) /\ print_peers ps <> [].
Proof.
  intros Hne Hps. induction Hps as [|p ps Hp Hps IH]; [done|].
  assert (Hpp : print_peer p <> []) by (unfold print_peer; destruct (p_ID p); done).
  pose proof (clean_print_peer p Hp) as Hcp. pose proof (parse_print_peer p Hp) as Hpr.
  pose proof (print_peer_no_comma p Hp) as Hnc.
  destruct ps as [|q ps].
  - cbn [print_peers]. split_and!; try done. rewrite (Split_one _ _ Hnc). simpl. rewrite (clean_TrimSpace _ Hcp).
    by rewrite bool_decide_false, Hpr by done.
  - destruct IH as (IH1 & IH2 & IH3); [done|].
    change (print_peers (p :: q :: ps)) with (print_peer p ++ x2c :: print_peers (q :: ps)). split_and!.
    + rewrite (Split_sep _ _ _ Hnc). cbn [parse_peers]. rewrite (clean_TrimSpace _ Hcp).
      rewrite bool_decide_false by done. by rewrite Hpr, IH1.
    + apply clean_sep; [apply solid_separators|done..].
    + by destruct (print_peer p).
Qed.

(** Every part of a roster that was read is trimmed, and the identifiers and
    gRPC addresses are not empty. *)
Lemma parse_peers_clean fields ps :
  parse_peers fields = Ok ps -> Forall (fun p => p_ID p <> [] /\ p_GRPC p <> [] /\ clean (p_HTTP p)) ps.
Proof.
  revert ps. induction fields as [|f fields IH]; intros ps; simpl; [by intros [= <-]|].
  case_bool_decide; [apply IH|]. unfold parse_peer.
  destruct (cut_at x3d (TrimSpace f)) as [[l r]|]; [|done]. case_if; [done|]. zbool.
  destruct (cut_at x7c (TrimSpace r)) as [[g h]|]; [case_bool_decide; [done|]|];
    (destruct (parse_peers fields) as [ps'|]; [|done]; intros [= <-]; constructor; [|by apply IH]); simpl;
    split_and!; try done; [apply TrimSpace_clean|apply clean_nil].
Qed.

Lemma ParsePeers_clean raw ps :
  ParsePeers raw = Ok ps -> Forall (fun p => p_ID p <> [] /\ p_GRPC p <> [] /\ clean (p_HTTP p)) ps.
Proof. unfold ParsePeers. case_bool_decide; [by intros [= <-]|apply parse_peers_clean]. Qed.

(** ** What validation guarantees *)

Lemma validate_peers_spec self peers : forall seenID seenGRPC e e',
  (forall a o, seenGRPC !! a = Some o -> o ∈ seenID) ->
  validate_peers self peers seenID seenGRPC e = Ok e' ->
  NoDup (p_ID <$> peers) /\ NoDup (p_GRPC <$> peers) /\
  Forall (fun p => p_ID p <> [] /\ p_ID p ∉ seenID /\ seenGRPC !! p_GRPC p = None /\ validateAddr (p_GRPC p) = Ok tt) peers.
Proof.
  induction peers as [|p peers IH]; intros seenID seenGRPC e e' Hinv; simpl.
  { intros _. split_and!; constructor. }
  case_bool_decide as Hne; [done|]. case_bool_decide as Hid; [done|].
  destruct (validateAddr (p_GRPC p)) as [[]|] eqn:Ea; [|done].
  destruct (seenGRPC !! p_GRPC p) as [o|] eqn:Eg.
  { assert (o <> p_ID p) by (intros ->; by apply Hinv in Eg). by rewrite bool_decide_false. }
  intros Hv. apply IH in Hv as (H1 & H2 & H3).
  2: { intros a o. rewrite lookup_insert_Some. intros [[_ <-]|[_ Ho]]; [set_solver|]. apply Hinv in Ho. set_solver. }
  rewrite Forall_forall in H3. split_and!.
  - constructor; [|done]. intros (q & Eq & Hq)%list_elem_of_fmap. destruct (H3 q Hq) as (_ & Hs & _). set_solver.
  - constructor; [|done]. intros (q & Eq & Hq)%list_elem_of_fmap. destruct (H3 q Hq) as (_ & _ & Hs & _).
    rewrite <- Eq, lookup_insert_eq in Hs. done.
  - constructor; [done|]. apply Forall_forall. intros q Hq. destruct (H3 q Hq) as (Hq1 & Hq2 & Hq3 & Hq4).
    split_and!; try done; [set_solver|]. by apply lookup_insert_None in Hq3 as [? _].
Qed.

Lemma Validate_peers c :
  Validate c = Ok tt ->
  NodeID c <> [] /\ APIToken c <> [] /\ 0 < MaxValueBytes c /\
  NoDup (p_ID <$> Peers c) /\ NoDup (p_GRPC <$> Peers c) /\ Forall (fun p => p_ID p <> []) (Peers c).
Proof.
  unfold Validate. case_bool_decide; [done|]. case_bool_decide; [done|]. case_if; [done|]. zbool.
  destruct (validateAddr (HTTP c)); [|done]. destruct (validateAddr (GRPC c)); [|done].
  case_bool_decide; [done|]. destruct (validate_peers _ _ _ _ _) as [e|] eqn:Ev; [|done]. intros _.
  apply validate_peers_spec in Ev as (H1' & H2' & H3'); [|intros *; by rewrite lookup_empty].
  split_and!; try done. eapply Forall_impl; [exact H3'|]. by intros ? [? _].
Qed.

(** What main passes on to the Raft node. *)
Definition raft_config (c : NodeConfig) : Config := MkConfig (NodeID c) (PeerIDs c) 10 20 2 (2 ^ 20).

Lemma PeerIDs_perm c : PeerIDs c ≡ₚ filter (fun i => i <> NodeID c) (p_ID <$> Peers c).
Proof.
  unfold PeerIDs. rewrite merge_sort_Permutation. apply reflexive_eq.
  induction (Peers c) as [|p ps IH]; [done|]. rewrite fmap_cons, !filter_cons. case_decide; [|done].
  rewrite fmap_cons. by f_equal.
Qed.

Lemma addrs_of_list (f : PeerNode -> bytes) ps m p :
  NoDup (p_ID <$> ps) -> p ∈ ps ->
  fold_left (fun (m : gmap bytes bytes) p => <[p_ID p := f p]> m) ps m !! p_ID p = Some (f p).
Proof.
  revert m. induction ps as [|q ps IH]; intros m Hnd Hp; [by apply not_elem_of_nil in Hp|].
  apply NoDup_cons in Hnd as [Hq Hnd]. simpl. apply elem_of_cons in Hp as [->|Hp]; [|by apply IH].
  assert (Hkeep : forall m, p_ID q ∉ p_ID <$> ps -> fold_left (fun (m : gmap bytes bytes) p => <[p_ID p := f p]> m) ps m !! p_ID q = m !! p_ID q).
  { clear. induction ps as [|r ps IH]; intros m Hq; simpl; [done|]. rewrite fmap_cons, not_elem_of_cons in Hq.
    rewrite IH by tauto. rewrite lookup_insert_ne; [done|]. intros E. by apply (proj1 Hq). }
  rewrite Hkeep by done. apply lookup_insert_eq.
Qed.

Lemma addrs_in_list (f : PeerNode -> bytes) ps m i a :
  fold_left (fun (m : gmap bytes bytes) p => <[p_ID p := f p]> m) ps m !! i = Some a ->
  m !! i = Some a \/ exists p, p ∈ ps /\ p_ID p = i /\ f p = a.
Proof.
  revert m. induction ps as [|q ps IH]; intros m; simpl; [by left|]. intros [Hm|(p & Hp & H)]%IH.
  - apply lookup_insert_Some in Hm as [[<- <-]|[_ Hm]]; [|by left]. right. exists q. split; [left|done].
  - right. exists p. split; [by right|done].
Qed.

(** ** Theorems *)

(** A roster that passes validation on every node is a proper Raft
    membership: when all members are configured with the same PEERS list and
    every one of them passes [Validate], each node's peers are exactly the
    others, once each, so that the whole cluster agrees on who is in it and
    on the size of a majority; the gRPC addresses a node dials belong to
    distinct nodes. *)
Theorem validated_roster_is_membership (peers : list PeerNode) (conf : bytes -> NodeConfig) :
  (forall i, i ∈ p_ID <$> peers -> NodeID (conf i) = i /\ Peers (conf i) = peers /\ Validate (conf i) = Ok tt) ->
  let members : gset bytes := list_to_set (p_ID <$> peers) in
  forall i, i ∈ members ->
    (c_id (raft_config (conf i)) = i /\ i <> []) /\
    NoDup (i :: c_peers (raft_config (conf i))) /\ list_to_set (i :: c_peers (raft_config (conf i))) = members /\
    (forall p, p ∈ peers -> p_ID p <> i -> PeerGRPCAddrs (conf i) !! p_ID p = Some (p_GRPC p)) /\
    (forall j k a, PeerGRPCAddrs (conf i) !! j = Some a -> PeerGRPCAddrs (conf i) !! k = Some a -> j = k).
Proof.
  intros Hconf members i Hi. apply elem_of_list_to_set in Hi. destruct (Hconf i Hi) as (Hid & Hps & Hv).
  apply Validate_peers in Hv as (Hne & _ & _ & Hnd & Hndg & _). rewrite Hid in Hne. rewrite Hps in Hnd, Hndg.
  assert (c_peers (raft_config (conf i)) ≡ₚ filter (fun j => j <> i) (p_ID <$> peers)) as Hp.
  { cbn. by rewrite PeerIDs_perm, Hid, Hps. }
  assert (Hf : NoDup (p_ID <$> filter (fun p => p_ID p <> i) peers)).
  { eapply sublist_NoDup; [exact Hnd|]. apply fmap_sublist, sublist_filter. }
  split_and!; [done|done| | | |].
  - rewrite Hp. constructor; [|by apply NoDup_filter]. rewrite list_elem_of_filter. naive_solver.
  - apply set_eq. intros j. unfold members. rewrite !elem_of_list_to_set, elem_of_cons, Hp, list_elem_of_filter.
    destruct (decide (j = i)) as [->|]; naive_solver.
  - intros p Hpp Hpi. unfold PeerGRPCAddrs. rewrite Hid, Hps. apply addrs_of_list; [done|].
    by apply list_elem_of_filter.
  - unfold PeerGRPCAddrs. rewrite Hid, Hps. intros j k a Hj Hk.
    apply addrs_in_list in Hj as [Hj|(p & Hp1 & <- & Hp2)]; [by rewrite lookup_empty in Hj|].
    apply addrs_in_list in Hk as [Hk|(q & Hq1 & <- & Hq2)]; [by rewrite lookup_empty in Hk|].
    apply list_elem_of_filter in Hp1 as [_ Hp1]. apply list_elem_of_filter in Hq1 as [_ Hq1].
    apply list_elem_of_lookup in Hp1 as [x Hx]. apply list_elem_of_lookup in Hq1 as [y Hy].
    assert (x = y) as ->; [|by simplify_eq].
    eapply NoDup_lookup; [exact Hndg|rewrite list_lookup_fmap, Hx; reflexivity|].
    rewrite list_lookup_fmap, Hy. simpl. congruence.
Qed.

(** The text of a roster reads back as the roster, for every list of
    peers whose parts are trimmed and free of the separators. *)
Theorem ParsePeers_print (ps : list PeerNode) : Forall peer_ok ps -> ParsePeers (print_peers ps) = Ok ps.
Proof.
  intros Hps. unfold ParsePeers. destruct ps as [|p ps]; [done|].
  destruct (parse_print_peers (p :: ps) ltac:(done) Hps) as (H1 & H2 & H3).
  by rewrite (clean_TrimSpace _ H2), bool_decide_false.
Qed.

(** The gateway follows the hints of the nodes it fronts: when it is
    started with the nodes' own roster, whatever address a node's "not the
    leader" answer names is one the gateway trusts, and it is the address the
    gateway was configured with for that member. *)
Theorem leader_hints_are_trusted Getenv (gw : GatewayConfig) (c : NodeConfig) body leader http :
  LoadGateway Getenv = Ok gw -> ParsePeers (Getenv (lit "PEERS")) = Ok (Peers c) ->
  PeerHTTPAddrs c !! leader = Some http -> leader_http body = Some http ->
  let p := NewProxy (ga_Backends gw) (Some (ga_MaxBodyBytes gw)) in
  parseLeaderHint body = httpURL http /\ isTrustedBackend p (parseLeaderHint body) = true /\
  exists peer, peer ∈ Peers c /\ p_ID peer = leader /\ p_HTTP peer = http.
Proof.
  intros Hgw Hps Hl Hb p. apply addrs_in_list in Hl as [Hl|(q & Hq & Hid & Hh)]; [by rewrite lookup_empty in Hl|].
  apply list_elem_of_filter in Hq as [Hne Hq]. rewrite Hh in Hne.
  pose proof (proj1 (Forall_forall _ _) (ParsePeers_clean _ _ Hps) q Hq) as (_ & _ & Hc). rewrite Hh in Hc.
  assert (parseLeaderHint body = httpURL http) as Hhint.
  { unfold parseLeaderHint. rewrite Hb, (clean_TrimSpace _ Hc). by rewrite bool_decide_false. }
  split; [done|]. split; [|by exists q].
  rewrite Hhint. apply isTrustedBackend_spec. unfold LoadGateway in Hgw. rewrite Hps in Hgw. case_bool_decide; [done|].
  destruct (getenvParse _ _ _) as [n|]; [|done]. cbn in Hgw.
  case_bool_decide; [done|]. injection Hgw as <-. unfold p, NewProxy. cbn [backends ga_Backends]. apply list_elem_of_fmap. exists http. split; [done|].
  apply list_elem_of_filter. split; [done|]. rewrite <- Hh. by apply list_elem_of_fmap_2.
Qed.

(** ** Witnesses *)

Definition trio_env (self k : bytes) : bytes :=
  if bool_decide (k = lit "PEERS") then lit "a=h1:9091|h1:8081,b=h2:9092|h2:8082,c=h3:9093|h3:8083"
  else if bool_decide (k = lit "NODE_ID") then self
  else if bool_decide (k = lit "GRPC_ADDR") then
    (if bool_decide (self = na) then lit ":9091" else if bool_decide (self = nb) then lit ":9092" else lit ":9093")
  else if bool_decide (k = lit "FORGEDB_API_TOKEN") then lit "secret"
  else [].

Definition trio_peer_list : list PeerNode :=
  [MkPeer na (lit "h1:8081") (lit "h1:9091"); MkPeer nb (lit "h2:8082") (lit "h2:9092");
   MkPeer nc (lit "h3:8083") (lit "h3:9093")].
Definition trio_config (self : bytes) : NodeConfig :=
  match Load (fun _ => None) (trio_env self) with
  | Ok c => c
  | Err _ => MkNodeConfig [] [] [] [] [] [] [] false [] 0 0 0 []
  end.

Example Load_trio :
  is_ok (Load (fun _ => None) (trio_env na)) = true /\ Peers (trio_config na) = trio_peer_list /\
  PeerIDs (trio_config nb) = [na; nc] /\ MaxValueBytes (trio_config na) = 2 ^ 20 /\
  Load (fun _ => None) (fun k => if bool_decide (k = lit "FORGEDB_API_TOKEN") then [] else trio_env na k) = Err ErrAPIToken.
Proof. split_and!; vm_compute; reflexivity. Qed.

Lemma trio_loads i :
  i ∈ p_ID <$> trio_peer_list ->
  NodeID (trio_config i) = i /\ Peers (trio_config i) = trio_peer_list /\ Validate (trio_config i) = Ok tt.
Proof.
  change (p_ID <$> trio_peer_list) with [na; nb; nc]. rewrite !elem_of_cons, elem_of_nil.
  intros [->|[->|[->|[]]]]; split_and!; vm_compute; reflexivity.
Qed.

Example validated_roster_is_membership_witness :
  Validate (trio_config na) = Ok tt /\ NoDup (na :: PeerIDs (trio_config na)).
Proof.
  split; [vm_compute; reflexivity|].
  destruct (validated_roster_is_membership trio_peer_list trio_config trio_loads na) as (_ & H & _); [|exact H].
  apply elem_of_list_to_set. left.
Defined.

Lemma trio_peers_ok : Forall peer_ok trio_peer_list.
Proof.
  assert (Hc : forall l, bool_decide (clean l) = true -> clean l) by (intros l; apply bool_decide_eq_true).
  repeat constructor; cbn [p_ID p_GRPC p_HTTP]; try discriminate; try apply Hc; try (vm_compute; reflexivity);
    apply (bool_decide_unpack _); vm_compute; exact I.
Qed.

Example ParsePeers_print_witness :
  Forall peer_ok trio_peer_list /\ ParsePeers (print_peers trio_peer_list) = Ok trio_peer_list.
Proof. split; [exact trio_peers_ok|]. exact (ParsePeers_print trio_peer_list trio_peers_ok). Defined.

Example leader_hints_are_trusted_witness :
  exists gw, LoadGateway (trio_env na) = Ok gw /\
  isTrustedBackend (NewProxy (ga_Backends gw) (Some (ga_MaxBodyBytes gw))) (parseLeaderHint (hinting (lit "h2:8082"))) = true.
Proof.
  eexists. split; [vm_compute; reflexivity|].
  apply (leader_hints_are_trusted (trio_env na) _ (trio_config na) (hinting (lit "h2:8082")) nb (lit "h2:8082"));
    vm_compute; reflexivity.
Defined.

(** A node that is not on its own roster passes validation: it takes the
    cluster for one larger than the others do. *)
Example stranger_is_accepted :
  let c := trio_config na in
  let stranger := MkNodeConfig (lit "z") (HTTP c) (GRPC c) (DataDir c) (APIToken c) (Peers c) [] true [] 0 0 (MaxValueBytes c) [] in
  Validate stranger = Ok tt /\ PeerIDs stranger = [na; nb; nc] /\ length (PeerIDs c) = 2%nat.
Proof. vm_compute. by split_and!. Qed.
