(* ===== verification/DbNode.v ===== *)
(** * One database node

    internal/dbnode/node.go and observability.go, with internal/raft's
    observability.go: the composition of a Raft node, a state machine over a
    store and an applier. [MemStore] is the store [Open] creates. Calls that
    take the node's lock more than once run among the process's other
    goroutines; what those do in between is a function of the whole process
    state [W], which [Hosts] relates to the node. Metrics and log lines are
    left out. *)

From S2P Require Import Prelude Bytes Codec Wal SkipList MemStore Command StateMachine AtomicFile.
From S2P Require Import SmSnapshot RaftLog RaftFormat RaftPersist RaftNode RaftElection RaftDurable RaftCommit Applier.
From stdpp Require Import base tactics list numbers gmap.
From Stdlib Require Import Strings.Byte.
From Stdlib Require Import ZArith Lia.
#[local] Open Scope Z_scope.

(** ** Opening *)

Record DbConfig := MkDbConfig {
  d_ID : bytes;
  d_Peers : list bytes;
  d_hasTransport : bool;
  d_RaftDir : bytes;
  d_KVDir : bytes;
  d_ElectionTickMin : Z;
  d_ElectionTickMax : Z;
  d_HeartbeatTick : Z }.

Inductive open_error := ErrConfig | ErrOpenKV (e : store_error) | ErrOpenRaft (e : raft_error).

(** [db_closed] is the result of the first [Close]. *)
Record DbNode := MkDb {
  db_id : bytes;
  db_applier : Applier MemStore;
  db_closed : option bool }.

Definition db_raft (d : DbNode) : Node := ap_node (db_applier d).
Definition db_sm (d : DbNode) : KVStateMachine MemStore := ap_sm (db_applier d).
Definition db_store (d : DbNode) : MemStore := sm_store (db_sm d).
Definition with_applier (d : DbNode) (a : Applier MemStore) : DbNode := MkDb (db_id d) a (db_closed d).
Definition with_raft (d : DbNode) (n : Node) : DbNode := with_applier d (MkApplier n (db_sm d)).

(** [content] is the write-ahead log found in [KVDir], [p] the files in
    [RaftDir], [flips] and [r] the coins of the skip list and of the election
    timer. *)
Definition Open (c : DbConfig) (content : bytes) (flips : list (list bool)) (p : FilePersister) (r : Z) :
    result open_error DbNode :=
  if bool_decide (d_ID c = []) then Err ErrConfig
  else if negb (d_hasTransport c) then Err ErrConfig
  else if bool_decide (d_RaftDir c = []) then Err ErrConfig
  else if bool_decide (d_KVDir c = []) then Err ErrConfig
  else match NewMemStore flips content with
       | Err e => Err (ErrOpenKV e)
       | Ok store =>
           match NewNode (d_ID c) (d_Peers c) (d_ElectionTickMin c) (d_ElectionTickMax c) (d_HeartbeatTick c) 0 p r with
           | Err e => Err (ErrOpenRaft e)
           | Ok n => Ok (MkDb (d_ID c) (MkApplier n (NewKVStateMachine store)) None)
           end
       end.

(** ** Operations *)

Inductive propose_error := ErrEncodeCommand | ErrRaft (e : raft_error).

Definition Propose (d : DbNode) (f : faults) (cmd : Command) : DbNode * list Rpc * result propose_error (Z * Z) :=
  match Encode cmd with
  | Err _ => (d, [], Err ErrEncodeCommand)
  | Ok encoded =>
      match RaftNode.Propose (db_raft d) f encoded with
      | (n, rpcs, Ok it) => (with_raft d n, rpcs, Ok it)
      | (n, rpcs, Err e) => (with_raft d n, rpcs, Err (ErrRaft e))
      end
  end.

Definition IsLeader (d : DbNode) : bool := bool_decide (role (db_raft d) = Leader).

Definition Tick (d : DbNode) (f : faults) : DbNode * list Rpc :=
  let '(n, rpcs) := RaftNode.Tick (db_raft d) f in (with_raft d n, rpcs).

Definition ApplyAvailable (d : DbNode) (w : surroundings store_env) : DbNode * Z * result applier_error unit :=
  let '(a, k, r) := Applier.ApplyAvailable (db_applier d) w in (with_applier d a, k, r).

Definition CreateSnapshot (d : DbNode) (w : surroundings store_env) (f : faults) (order : list (bytes * dedupEntry))
    (index : Z) : DbNode * result applier_error unit :=
  let '(a, r) := Applier.CreateSnapshot (db_applier d) w f order index in (with_applier d a, r).

Definition SnapshotIndex (d : DbNode) : Z := base (log (db_raft d)).

(** [closing] is whether the store's [Close] fails; only the first call
    closes anything. *)
Definition Close (d : DbNode) (closing : bool) : DbNode * bool :=
  match db_closed d with
  | Some r => (d, r)
  | None => (MkDb (db_id d) (db_applier d) (Some closing), closing)
  end.

(** ** Waiting *)

(** A process state that holds a node. *)
Class Hosts (W : Type) := {
  node_in : W -> DbNode;
  put_node : W -> DbNode -> W;
  node_in_put w d : node_in (put_node w d) = d }.

#[export] Instance DbNode_hosts : Hosts DbNode := {
  node_in d := d; put_node _ d := d; node_in_put _ _ := eq_refl }.

(** Which branch of the [select] is taken. *)
Inductive wake := Signalled | ContextDone.

Section Waiting.
Context {W : Type} `{Hosts W}.

Definition raft_in (w : W) : Node := db_raft (node_in w).

(** Receiving from [AppliedCh]. *)
Definition receive (w : W) : W :=
  let d := node_in w in put_node w (with_raft d (set_applied (db_raft d) (lastApplied (db_raft d)) false)).

(** Each element says what the other goroutines do while the call blocks and
    which event ends that; the signal can only be taken when there is one.
    Every caller's context has a deadline, so the call ends when the list
    does. *)
Fixpoint WaitApplied (w : W) (wakes : list ((W -> W) * wake)) (target : Z) : W * bool :=
  if lastApplied (raft_in w) >=? target then (w, true)
  else match wakes with
       | (others, Signalled) :: wakes =>
           let w := others w in
           if appliedCh (raft_in w) then WaitApplied (receive w) wakes target else (w, false)
       | (others, ContextDone) :: _ => (others w, false)
       | [] => (w, false)
       end.

Inductive read_error := ErrReadRaft (e : raft_error) | ErrDeadline | ErrReadStore (e : store_error).

(** What a read meets: the confirmation round and how many nodes, the leader
    included, acknowledged it; the waiting; and what happens up to the read
    of the store. *)
Record read_surroundings := MkReads {
  rs_confirm : W -> W;
  rs_acked : Z;
  rs_start : W -> W;
  rs_wakes : list ((W -> W) * wake);
  rs_get : W -> W }.

Definition ConsistentGet (w : W) (s : read_surroundings) (key : bytes) : W * result read_error bytes :=
  match ReadIndex_begin (raft_in w) with
  | Err e => (w, Err (ErrReadRaft e))
  | Ok r =>
      let w := rs_confirm s w in
      match ReadIndex_end (raft_in w) r (rs_acked s) with
      | Err e => (w, Err (ErrReadRaft e))
      | Ok readIndex =>
          match WaitApplied (rs_start s w) (rs_wakes s) readIndex with
          | (w, false) => (w, Err ErrDeadline)
          | (w, true) =>
              let w := rs_get s w in
              (w, match store_Get (db_store (node_in w)) key with Ok v => Ok v | Err e => Err (ErrReadStore e) end)
          end
      end
  end.
End Waiting.
Arguments read_surroundings : clear implicits.

(** ** Diagnostics *)

Record RaftStatus := MkRaftStatus {
  st_NodeID : bytes; st_Role : Role; st_Term : Z; st_LeaderID : bytes; st_CommitIndex : Z; st_LastApplied : Z;
  st_LastLogIndex : Z; st_LastLogTerm : Z; st_SnapshotIndex : Z; st_SnapshotTerm : Z; st_Peers : list bytes }.

Record PeerStatus := MkPeerStatus { ps_PeerID : bytes; ps_NextIndex : Z; ps_MatchIndex : Z; ps_Lag : Z }.

Definition raft_Status (n : Node) : RaftStatus :=
  MkRaftStatus (id n) (role n) (currentTerm n) (leaderID n) (commitIndex n) (lastApplied n)
    (LastIndex (log n)) (LastTerm (log n)) (base (log n)) (e_Term (log n !!! 0%nat)) (peers n).

Definition PeerStatuses (n : Node) : list PeerStatus :=
  if negb (bool_decide (role n = Leader)) then []
  else (fun p =>
          let m := match_of n p in
          MkPeerStatus p (next_of n p) m (if LastIndex (log n) >? m then u64 (LastIndex (log n) - m) else 0)) <$> peers n.

Record DbStatus := MkDbStatus {
  dbst_NodeID : bytes; dbst_Raft : RaftStatus; dbst_Peers : list PeerStatus; dbst_Storage : Z * Z }.

(** The process's uptime apart. *)
Definition Status (d : DbNode) : DbStatus :=
  MkDbStatus (db_id d) (raft_Status (db_raft d)) (PeerStatuses (db_raft d)) (Stats (db_store d)).

(** ** What a read returns *)

Section Reads.
Context {W : Type} `{Hosts W}.
Context (m0 : gmap bytes bytes) (cmds : list Command).

(** The store holds the effect of a prefix of the committed commands that
    covers at least everything marked applied (the applier marks a command
    after it has executed it). *)
Definition store_at (k : Z) (d : DbNode) : Prop :=
  store_inv (db_store d) /\ store_view (db_store d) = (state_at m0 cmds k).1.
Definition db_ok (d : DbNode) : Prop := exists k, lastApplied (db_raft d) <= k /\ store_at k d.

(** What the other goroutines do keeps that, and only advances
    [LastApplied]. *)
Definition keeps (g : W -> W) : Prop :=
  forall w, db_ok (node_in w) ->
    db_ok (node_in (g w)) /\ lastApplied (raft_in w) <= lastApplied (raft_in (g w)).

Lemma synced_db_ok d :
  synced m0 cmds (db_applier d) -> pendingSnapshot (db_raft d) = None -> db_ok d.
Proof.
  intros (Hi & _ & Habs) Hp. specialize (Habs Hp). exists (lastApplied (db_raft d)). split; [lia|].
  split; [exact Hi|]. unfold db_raft in *. by rewrite <- Habs.
Qed.

Lemma receive_ok : keeps receive.
Proof. intros w Hok. unfold receive, raft_in. rewrite node_in_put. split; [exact Hok|]. cbn. lia. Qed.

Lemma WaitApplied_spec wakes target : Forall (fun x => keeps x.1) wakes -> forall w w' r,
  db_ok (node_in w) -> WaitApplied w wakes target = (w', r) ->
  db_ok (node_in w') /\ lastApplied (raft_in w) <= lastApplied (raft_in w') /\
  (r = true -> target <= lastApplied (raft_in w')).
Proof.
  induction 1 as [|[g k] wakes Hg _ IH]; intros w w' r Hok; simpl; (case_if; [intros [= <- <-]; zbool; split_and!; done || lia|]).
  { intros [= <- <-]. split_and!; done || lia. }
  destruct (Hg w Hok) as [Hok1 Hle1]. simpl in *.
  destruct k; [|intros [= <- <-]; split_and!; done || lia].
  case_if; [|intros [= <- <-]; split_and!; done || lia].
  destruct (receive_ok (g w) Hok1) as [Hok2 Hle2]. intros E1. apply IH in E1 as (? & ? & ?); [|done]. split_and!; done || lia.
Qed.

(** The parts of a read that run among other goroutines. *)
Definition reads_keep (s : read_surroundings W) : Prop :=
  keeps (rs_confirm s) /\ keeps (rs_start s) /\ Forall (fun x => keeps x.1) (rs_wakes s) /\ keeps (rs_get s).

Lemma ConsistentGet_spec w s key w' r :
  db_ok (node_in w) -> reads_keep s -> key <> [] -> ConsistentGet w s key = (w', r) ->
  match r with
  | Err (ErrReadStore e) => e = StoreErrKeyNotFound /\
      exists k, commitIndex (raft_in w) <= k /\ (state_at m0 cmds k).1 !! key = None
  | Ok v => exists k, commitIndex (raft_in w) <= k /\ (state_at m0 cmds k).1 !! key = Some v
  | Err ErrDeadline => True
  | Err (ErrReadRaft e) => e = ErrNotLeader <-> role (raft_in w) <> Leader
  end.
Proof.
  intros Hok (Hc & Hs & Hw & Hg) Hk. unfold ConsistentGet, ReadIndex_begin.
  case_bool_decide as Hl; cbn [negb]; [|by intros [= <- <-]].
  destruct (Hc w Hok) as [Hok1 _]. unfold ReadIndex_end. cbn [pr_majority pr_index pr_term].
  set (rd := if _ <=? 1 then _ else _). assert (rd = Ok (commitIndex (raft_in w)) \/ rd = Err ErrReadBarrierUnavailable) as [-> | ->];
    [unfold rd; repeat case_if; auto| |intros [= <- <-]; split; [discriminate|done]].
  destruct (Hs _ Hok1) as [Hok2 _]. destruct (WaitApplied _ _ _) as [w2 [|]] eqn:E; [|by intros [= <- <-]].
  apply WaitApplied_spec in E as (Hok3 & _ & Hla); [|done..]. specialize (Hla eq_refl).
  destruct (Hg _ Hok3) as [(k & Hkk & Hi & Hv) Hle]. fold (raft_in (rs_get s w2)) in Hkk.
  cbv zeta. rewrite (store_Get_law _ key Hi Hk), Hv.
  destruct ((state_at m0 cmds k).1 !! key) as [v|] eqn:Ev; intros [= <- <-]; [|split; [done|]]; exists k; (split; [lia|done]).
Qed.
End Reads.

(** ** Waiting among several waiters

    Any number of goroutines wait in [WaitApplied] on the one channel of the
    node. *)

Inductive waiter := Checking (target : Z) | Blocked (target : Z) | Returned.

Record waiting := MkWaiting { wt_node : Node; wt_waiters : list waiter }.

(** The steps: a waiter re-checks, blocks or receives; the applier marks an
    entry or confirms a snapshot; the node does anything else. *)
Inductive wait_step : waiting -> waiting -> Prop :=
| wait_return n ws i t : ws !! i = Some (Checking t) -> t <= lastApplied n ->
    wait_step (MkWaiting n ws) (MkWaiting n (<[i := Returned]> ws))
| wait_block n ws i t : ws !! i = Some (Checking t) -> lastApplied n < t ->
    wait_step (MkWaiting n ws) (MkWaiting n (<[i := Blocked t]> ws))
| wait_receive n ws i t : ws !! i = Some (Blocked t) -> appliedCh n = true ->
    wait_step (MkWaiting n ws) (MkWaiting (set_applied n (lastApplied n) false) (<[i := Checking t]> ws))
| wait_mark n ws index n' : MarkApplied n index = (n', Ok tt) -> wait_step (MkWaiting n ws) (MkWaiting n' ws)
| wait_confirm n ws index n' : ConfirmSnapshotRestored n index = (n', Ok tt) ->
    wait_step (MkWaiting n ws) (MkWaiting n' ws)
| wait_other n ws n' : lastApplied n' = lastApplied n -> appliedCh n' = appliedCh n ->
    wait_step (MkWaiting n ws) (MkWaiting n' ws).

(** A waiter that sleeps although what it waits for has happened, with no
    signal to wake it. *)
Definition missed (s : waiting) (i : nat) : Prop :=
  exists t, wt_waiters s !! i = Some (Blocked t) /\ t <= lastApplied (wt_node s) /\ appliedCh (wt_node s) = false.

Definition wait_inv (s : waiting) : Prop := length (wt_waiters s) = 1%nat /\ forall i, ~ missed s i.

Lemma single_index {A} (l : list A) i x : length l = 1%nat -> l !! i = Some x -> i = 0%nat /\ l = [x].
Proof. destruct l as [|y [|]]; try done. destruct i; [|done]. by intros _ [= <-]. Qed.

Lemma MarkApplied_ok n index n' : MarkApplied n index = (n', Ok tt) -> n' = set_applied n index true.
Proof. unfold MarkApplied. repeat case_if; congruence. Qed.

Lemma ConfirmSnapshotRestored_wakes n index n' :
  ConfirmSnapshotRestored n index = (n', Ok tt) ->
  (lastApplied n' = lastApplied n /\ appliedCh n' = appliedCh n) \/ appliedCh n' = true.
Proof.
  unfold ConfirmSnapshotRestored. destruct (pendingSnapshot n); [|done]. repeat case_if; try done;
    intros [= <-]; cbn; auto.
Qed.

Lemma wait_inv_step s s' : wait_inv s -> wait_step s s' -> wait_inv s'.
Proof.
  intros [Hl Hm] Hs. unfold wait_inv, missed in *.
  destruct Hs as [n ws i t Hi Ht|n ws i t Hi Ht|n ws i t Hi Ht|n ws k n' Hk|n ws k n' Hk|n ws n' H1 H2]; cbn [wt_node wt_waiters] in *;
    (split; [by rewrite ?length_insert|]); intros j (t' & Hj & Ht' & Hc); cbn [wt_node wt_waiters] in *.
  1-3: destruct (single_index _ _ _ Hl Hi) as [-> ->]; destruct j; simplify_eq/=; lia.
  - apply MarkApplied_ok in Hk as ->. done.
  - destruct (ConfirmSnapshotRestored_wakes _ _ _ Hk) as [[E1 E2]|E2]; [|congruence].
    apply (Hm j). exists t'. rewrite <- E1, <- E2. done.
  - apply (Hm j). exists t'. rewrite <- H1, <- H2. done.
Qed.

(** ** Theorems *)


(** One goroutine waiting in [WaitApplied] is always woken: whatever the
    applier and the node do, once what it waits for is applied it either
    holds a signal or is about to look. *)
Theorem single_waiter_is_woken n target s :
  rtc wait_step (MkWaiting n [Checking target]) s -> forall i, ~ missed s i.
Proof.
  intros Hs. enough (wait_inv s) as [_ ?] by done.
  assert (wait_inv (MkWaiting n [Checking target])) as Hi.
  { split; [done|]. intros [|i] (t & ? & _); simplify_eq/=. }
  induction Hs as [|s1 s2 s3 H1 _ IH]; [done|]. eapply IH, wait_inv_step; eassumption.
Qed.

(** A second waiter can sleep on although its entry is applied: two
    entries are marked applied in a row, their signals merge into one, the
    waiter for the first takes it and returns, and the waiter for the second
    stays blocked until something else is applied or its deadline passes. *)
Theorem second_waiter_is_missed : exists s,
  rtc wait_step (MkWaiting follower1 [Checking 1; Checking 2]) s /\
  wt_waiters s = [Returned; Blocked 2] /\ missed s 1 /\
  lastApplied (wt_node s) = 2 /\ commitIndex (wt_node s) = 2 /\ LastIndex (log (wt_node s)) = 2.
Proof.
  set (n1 := set_applied follower1 1 true). set (n2 := set_applied n1 2 true). set (n3 := set_applied n2 2 false).
  exists (MkWaiting n3 [Returned; Blocked 2]). split.
  - eapply rtc_l; [apply (wait_block _ _ 0 1); vm_compute; reflexivity|].
    eapply rtc_l; [apply (wait_block _ _ 1 2); vm_compute; reflexivity|].
    eapply rtc_l; [apply (wait_mark _ _ 1 n1); vm_compute; reflexivity|].
    eapply rtc_l; [apply (wait_mark _ _ 2 n2); vm_compute; reflexivity|].
    eapply rtc_l; [apply (wait_receive _ _ 0 1); vm_compute; reflexivity|].
    eapply rtc_l; [apply (wait_return _ _ 0 1); vm_compute; congruence || reflexivity|]. reflexivity.
  - split_and!; try (vm_compute; reflexivity). exists 2. split_and!; vm_compute; congruence || reflexivity.
Qed.

(** ** Witnesses *)

(** A node that is a cluster of its own, elected, with one command applied. *)
Definition solo_files : FilePersister := MkFileP (MkFile None None None) (MkFile None None None).
Definition solo0 : DbNode :=
  match Open (MkDbConfig na [] true [x72] [x6b] 1 1 1) [] [] solo_files 0 with
  | Ok d => d
  | Err _ => MkDb [] replica1 None
  end.
Definition solo1 : DbNode := (Tick solo0 calm_faults).1.
Definition solo2 : DbNode := (Propose solo1 calm_faults put1).1.1.
Definition solo3 : DbNode := (ApplyAvailable solo2 quietly).1.1.
Definition quiet_reads : read_surroundings DbNode := MkReads (fun d => d) 1 (fun d => d) [] (fun d => d).

Example solo_runs :
  is_ok (Open (MkDbConfig na [] true [x72] [x6b] 1 1 1) [] [] solo_files 0) = true /\
  IsLeader solo1 = true /\ (Propose solo1 calm_faults put1).2 = Ok (1, 1) /\
  (ApplyAvailable solo2 quietly).2 = Ok tt /\ ConsistentGet solo3 quiet_reads [x6b] = (solo3, Ok [x31]) /\
  st_CommitIndex (dbst_Raft (Status solo3)) = 1 /\ dbst_Storage (Status solo3) = (1, 2).
Proof. split_and!; vm_compute; reflexivity. Qed.

Lemma applied_store_at m0 cmds d sm e c res k :
  sm_inv sm -> abs sm = state_at m0 cmds k -> 0 <= k -> cmds !! Z.to_nat k = Some c ->
  Apply sm e c = (db_sm d, Ok res) -> store_at m0 cmds (k + 1) d.
Proof.
  intros Hi Ha Hk Hc E. apply Apply_spec in E as [Hi' Hsp]; [|done]. split; [exact Hi'|].
  rewrite (state_at_step m0 cmds k c Hk Hc), <- Ha, Hsp. done.
Qed.

Lemma solo3_ok : db_ok ∅ [put1] solo3.
Proof.
  exists (0 + 1). split; [vm_compute; congruence|].
  apply (applied_store_at _ _ _ (NewKVStateMachine sample_store) sample_env put1 (MkResult true false [x6b] [x31] None));
    [exact sample_store_inv|reflexivity|lia|reflexivity|vm_compute; reflexivity].
Qed.

Lemma idle_keeps m0 cmds : keeps m0 cmds (fun d : DbNode => d).
Proof. intros d Hd. split; [exact Hd|lia]. Qed.


Example single_waiter_is_woken_witness :
  lastApplied follower1 = 0 /\ ~ missed (MkWaiting (set_applied follower1 1 true) [Blocked 1]) 0.
Proof.
  split; [vm_compute; reflexivity|].
  apply (single_waiter_is_woken follower1 1).
  eapply rtc_l; [apply (wait_block _ _ 0 1); vm_compute; reflexivity|].
  eapply rtc_l; [apply (wait_mark _ _ 1 (set_applied follower1 1 true)); vm_compute; reflexivity|]. reflexivity.
Defined.
