(* ===== verification/Chaos.v ===== *)
(** * The chaos harness

    chaos/: fault injection around a node's stable storage and its store, the
    event log, the cluster of nodes a scenario drives (crashes, restarts,
    partitions, deterministic scheduling, client calls, bounded waits) and
    random scenarios. What the nodes themselves do is an interface. *)

From S2P Require Import Prelude Bytes Http Format Codec Wal SkipList MemTable MemStore Command StateMachine SmSnapshot.
From S2P Require Import AtomicFile RaftLog RaftFormat RaftPersist RaftNode RaftElection Applier Transport DbNode InvariantTracker.
From stdpp Require Import base tactics list numbers gmap fin_sets sorting.
From Stdlib Require Import Strings.Byte.
From Stdlib Require Import ZArith Lia.
From Stdlib Require String.
Import String.StringSyntax.
#[local] Open Scope Z_scope.

(** ** Fault injection: faults.go *)

Section FaultyPersister.
Context {P Env : Type} `{Persister P Env}.

Record faultyPersister := MkFaultyP {
  inner : P;
  failNextSave : bool;
  failNextSnapshot : bool }.

Definition faulty_FailNextSave (p : faultyPersister) : faultyPersister := MkFaultyP (inner p) true (failNextSnapshot p).
Definition faulty_FailNextSnapshotSave (p : faultyPersister) : faultyPersister := MkFaultyP (inner p) (failNextSave p) true.

Definition faulty_SaveState (p : faultyPersister) (e : Env) (st : PersistentState) :
    faultyPersister * result save_error unit :=
  if failNextSave p then (MkFaultyP (inner p) false (failNextSnapshot p), Err ErrSimulated)
  else let '(i, r) := SaveState (inner p) e st in (MkFaultyP i false (failNextSnapshot p), r).

Definition faulty_SaveSnapshot (p : faultyPersister) (e : Env) (s : Snapshot) :
    faultyPersister * result save_error unit :=
  if failNextSnapshot p then (MkFaultyP (inner p) (failNextSave p) false, Err ErrSimulated)
  else let '(i, r) := SaveSnapshot (inner p) e s in (MkFaultyP i (failNextSave p) false, r).

Definition faulty_LoadState (p : faultyPersister) : result load_error PersistentState := LoadState (inner p).
Definition faulty_LoadSnapshot (p : faultyPersister) : result load_error Snapshot := LoadSnapshot (inner p).

#[export] Instance faulty_Persister : Persister faultyPersister Env := {
  SaveState := faulty_SaveState; LoadState := faulty_LoadState;
  SaveSnapshot := faulty_SaveSnapshot; LoadSnapshot := faulty_LoadSnapshot;
  represents p d := represents (inner p) d }.

(** Faults change nothing of what a persister promises. *)
#[export] Instance faulty_Laws `{!PersisterLaws P Env} : PersisterLaws faultyPersister Env.
Proof.
  split; cbn.
  - intros p e st p' r d Hd Hok Hlen. unfold faulty_SaveState. destruct (failNextSave p); [by intros [= <- <-]|].
    destruct (SaveState (inner p) e st) as [i r'] eqn:E. intros [= <- <-]. by eapply SaveState_law.
  - intros p e s p' r d Hd Hok. unfold faulty_SaveSnapshot. destruct (failNextSnapshot p); [by intros [= <- <-]|].
    destruct (SaveSnapshot (inner p) e s) as [i r'] eqn:E. intros [= <- <-]. by eapply SaveSnapshot_law.
  - intros p d Hd. by apply Load_law.
Qed.
End FaultyPersister.
Arguments faultyPersister : clear implicits.

Section FaultyStore.
Context {St Env : Type} `{Store St Env}.

Record faultyStore := MkFaultyS {
  fs_Store : St;
  failNextPut : bool;
  failNextDrop : bool;
  puts : Z;
  deletes : Z }.

Definition FailNextPut (s : faultyStore) : faultyStore := MkFaultyS (fs_Store s) true (failNextDrop s) (puts s) (deletes s).
Definition FailNextDelete (s : faultyStore) : faultyStore := MkFaultyS (fs_Store s) (failNextPut s) true (puts s) (deletes s).

(** [None] in the error is [errInjectedFault]. *)
Definition faulty_Put (s : faultyStore) (e : Env) (key value : bytes) : faultyStore * result (option store_error) unit :=
  if failNextPut s then (MkFaultyS (fs_Store s) false (failNextDrop s) (puts s) (deletes s), Err None)
  else match store_Put (fs_Store s) e key value with
       | (st, Err err) => (MkFaultyS st false (failNextDrop s) (puts s) (deletes s), Err (Some err))
       | (st, Ok _) => (MkFaultyS st false (failNextDrop s) (puts s + 1) (deletes s), Ok tt)
       end.

Definition faulty_Delete (s : faultyStore) (e : Env) (key : bytes) : faultyStore * result (option store_error) unit :=
  if failNextDrop s then (MkFaultyS (fs_Store s) (failNextPut s) false (puts s) (deletes s), Err None)
  else match store_Delete (fs_Store s) e key with
       | (st, Err err) => (MkFaultyS st (failNextPut s) false (puts s) (deletes s), Err (Some err))
       | (st, Ok _) => (MkFaultyS st (failNextPut s) false (puts s) (deletes s + 1), Ok tt)
       end.

Definition PutCount (s : faultyStore) : Z := puts s.
Definition DeleteCount (s : faultyStore) : Z := deletes s.
End FaultyStore.
Arguments faultyStore : clear implicits.

(** ** The event log: eventlog.go *)

Record Step := MkStep { st_Number : Z; st_Action : bytes; st_Snapshot : ClusterSnapshot }.
Record EventLog := MkEventLog { el_Scenario : bytes; el_Seed : Z; el_Steps : list Step }.

Definition newEventLog (scenario : bytes) (seed : Z) : EventLog := MkEventLog scenario seed [].

Definition record (l : EventLog) (action : bytes) (snap : ClusterSnapshot) : EventLog :=
  MkEventLog (el_Scenario l) (el_Seed l) (el_Steps l ++ [MkStep (zlen (el_Steps l) + 1) action snap]).

Definition Last (l : EventLog) : option Step := last (el_Steps l).

Section Dump.
(** [strconv.Quote]. *)
Context (quote : bytes -> bytes).

Definition nl : bytes := [x0a].

Definition dump_node (n : NodeState) : bytes :=
  lit "  " ++ ns_ID n ++ lit " role=" ++ ns_Role n ++ lit " term=" ++ itoa (ns_Term n) ++ lit " leader="
  ++ quote (ns_LeaderID n) ++ lit " commit=" ++ itoa (ns_CommitIndex n) ++ lit " applied=" ++ itoa (ns_LastApplied n)
  ++ lit " snapshot=" ++ itoa (ns_SnapshotIndex n) ++ lit " lastlog=" ++ itoa (ns_LastLogIndex n)
  ++ lit " [" ++ (if ns_Crashed n then lit "crashed" else lit "running") ++ lit "]" ++ nl.

Definition dump_step (s : Step) : bytes :=
  nl ++ lit "step: " ++ itoa (st_Number s) ++ nl ++ lit "action: " ++ st_Action s ++ nl
  ++ (if bool_decide (cs_Groups (st_Snapshot s) = []) then []
      else lit "partition groups: " ++ brackets (brackets <$> cs_Groups (st_Snapshot s)) ++ nl)
  ++ (if bool_decide (cs_Isolated (st_Snapshot s) = []) then []
      else lit "isolated: " ++ brackets (cs_Isolated (st_Snapshot s)) ++ nl)
  ++ lit "cluster:" ++ nl ++ concat (dump_node <$> cs_Nodes (st_Snapshot s)).

Definition Dump (l : EventLog) : bytes :=
  lit "CHAOS FAILURE" ++ nl ++ lit "scenario: " ++ el_Scenario l ++ nl ++ lit "seed: " ++ itoa (el_Seed l) ++ nl
  ++ lit "total steps: " ++ itoa (zlen (el_Steps l)) ++ nl ++ concat (dump_step <$> el_Steps l).

Definition TailDump (l : EventLog) (n : Z) : bytes :=
  if (n <=? 0) || (n >=? zlen (el_Steps l)) then Dump l
  else Dump (MkEventLog (el_Scenario l) (el_Seed l) (drop (length (el_Steps l) - Z.to_nat n) (el_Steps l))).
End Dump.

(** ** The cluster: cluster.go, observe.go, wait.go

    The nodes, their directories, the fault wrappers around them and the
    network between them are a [Fleet]: the operations of dbnode.Node and of
    the transport, with all they set off. *)

Inductive fault_kind := FaultSave | FaultSnapshotSave | FaultPut | FaultDelete.

Class Fleet (W : Type) := {
  fl_open : W -> bytes -> list bytes -> W * result open_error unit;
  fl_close : W -> bytes -> W * bool;
  fl_tick : W -> bytes -> W;
  fl_drain : W -> bytes -> W;
  fl_apply : W -> bytes -> W * result applier_error unit;
  fl_propose : W -> bytes -> Command -> W * result propose_error (Z * Z);
  fl_get : W -> bytes -> bytes -> W * result read_error bytes;
  fl_create : W -> bytes -> Z -> W * result applier_error unit;
  fl_partition : W -> bytes -> W;
  fl_heal : W -> bytes -> W;
  fl_groups : W -> list (list bytes) -> W;
  fl_heal_groups : W -> W;
  fl_arm : W -> bytes -> fault_kind -> W;
  fl_puts : W -> bytes -> Z;
  fl_raft : W -> bytes -> option Node;
  fl_entries : W -> bytes -> list (bytes * bytes) }.

(** Every failure the methods report. *)
Inductive chaos_error :=
| ErrNumNodes | ErrBaseDir | ErrOpenNode (id : bytes) (e : open_error) | ErrUnknownNode (id : bytes)
| ErrAlreadyCrashed (id : bytes) | ErrNotCrashed (id : bytes) | ErrCloseNode (id : bytes) | ErrNotLive (id : bytes)
| ErrDidNotLead (id : bytes) | ErrNoLeader | ErrNotReached (id : bytes) (index : Z) | ErrDiverged (a b : bytes)
| ErrNoConvergence | ErrPropose (e : propose_error) | ErrGet (e : read_error) | ErrCreateSnapshot (e : applier_error).

Record ChaosConfig := MkChaosConfig {
  cc_NumNodes : Z;
  cc_BaseDir : bytes;
  cc_ElectionTickMin : Z;
  cc_ElectionTickMax : Z;
  cc_HeartbeatTick : Z }.

Definition DefaultElectionTickMin : Z := 5.
Definition DefaultElectionTickMax : Z := 10.
Definition DefaultHeartbeatTick : Z := 1.

Definition with_defaults (c : ChaosConfig) : ChaosConfig :=
  MkChaosConfig (cc_NumNodes c) (cc_BaseDir c) (orDefault (cc_ElectionTickMin c) DefaultElectionTickMin)
    (orDefault (cc_ElectionTickMax c) DefaultElectionTickMax) (orDefault (cc_HeartbeatTick c) DefaultHeartbeatTick).

Section Cluster.
Context {W : Type} `{Fleet W}.

Record Cluster := MkChaos {
  k_fleet : W;
  k_cfg : ChaosConfig;
  k_ids : list bytes;
  k_crashed : gset bytes;
  k_partitioned : gset bytes;
  k_groups : list (list bytes);
  k_Log : EventLog;
  k_Inv : InvariantTracker }.

Definition on_fleet (c : Cluster) (w : W) : Cluster :=
  MkChaos w (k_cfg c) (k_ids c) (k_crashed c) (k_partitioned c) (k_groups c) (k_Log c) (k_Inv c).
Definition set_marks (c : Cluster) (crashed partitioned : gset bytes) (groups : list (list bytes)) : Cluster :=
  MkChaos (k_fleet c) (k_cfg c) (k_ids c) crashed partitioned groups (k_Log c) (k_Inv c).

Definition snapshot (c : Cluster) : ClusterSnapshot :=
  MkClusterSnapshot (omap (fun id => node_state (k_crashed c) id <$> fl_raft (k_fleet c) id) (k_ids c))
    (k_groups c) (filter (fun id => id ∈ k_partitioned c) (k_ids c)).

Definition Observe (c : Cluster) (action : bytes) : Cluster :=
  let snap := snapshot c in
  MkChaos (k_fleet c) (k_cfg c) (k_ids c) (k_crashed c) (k_partitioned c) (k_groups c)
    (record (k_Log c) action snap) (observe (k_Inv c) snap).

Definition peersOf (c : Cluster) (self : bytes) : list bytes := filter (fun id => id <> self) (k_ids c).

Definition openNode (c : Cluster) (id : bytes) : Cluster * result chaos_error unit :=
  match fl_open (k_fleet c) id (peersOf c id) with
  | (w, Err e) => (on_fleet c w, Err (ErrOpenNode id e))
  | (w, Ok _) => (set_marks (on_fleet c w) (k_crashed c ∖ {[id]}) (k_partitioned c) (k_groups c), Ok tt)
  end.

Fixpoint open_all (c : Cluster) (ids : list bytes) : Cluster * result chaos_error unit :=
  match ids with
  | [] => (c, Ok tt)
  | id :: ids => match openNode c id with
                 | (c, Err e) => (c, Err e)
                 | (c, Ok _) => open_all c ids
                 end
  end.

Definition node_name (i : nat) : bytes := lit "node" ++ itoa (Z.of_nat i).

Definition NewCluster (w : W) (scenario : bytes) (seed : Z) (cfg : ChaosConfig) : result chaos_error Cluster :=
  if cc_NumNodes cfg <=? 0 then Err ErrNumNodes
  else if bool_decide (cc_BaseDir cfg = []) then Err ErrBaseDir
  else
    let ids := node_name <$> seq 0 (Z.to_nat (cc_NumNodes cfg)) in
    let c := MkChaos w (with_defaults cfg) ids ∅ ∅ [] (newEventLog scenario seed) newInvariantTracker in
    match open_all c ids with
    | (_, Err e) => Err e
    | (c, Ok _) => Ok (Observe c (lit "StartCluster"))
    end.

Definition IsCrashed (c : Cluster) (id : bytes) : bool := bool_decide (id ∈ k_crashed c).
Definition LiveIDs (c : Cluster) : list bytes := filter (fun id => id ∉ k_crashed c) (k_ids c).

(** [Node]: the live node, by its Raft state. *)
Definition live_node (c : Cluster) (id : bytes) : option Node :=
  if IsCrashed c id then None else fl_raft (k_fleet c) id.

(** [Close]. *)
Definition CloseAll (c : Cluster) : Cluster :=
  on_fleet c (fold_left (fun w id => match fl_raft w id with
                                     | Some _ => if IsCrashed c id then w else (fl_close w id).1
                                     | None => w end) (k_ids c) (k_fleet c)).

Definition paren (name : bytes) (arg : bytes) : bytes := name ++ lit "(" ++ arg ++ lit ")".

(** *** Crashes and partitions *)

Definition CrashNode (c : Cluster) (id : bytes) : Cluster * result chaos_error unit :=
  match fl_raft (k_fleet c) id with
  | None => (c, Err (ErrUnknownNode id))
  | Some _ =>
      if IsCrashed c id then (c, Err (ErrAlreadyCrashed id))
      else
        let c := on_fleet c (fl_partition (k_fleet c) id) in
        let c := set_marks c ({[id]} ∪ k_crashed c) ({[id]} ∪ k_partitioned c) (k_groups c) in
        let '(w, failed) := fl_close (k_fleet c) id in
        let c := Observe (on_fleet c w) (paren (lit "Crash") id) in
        (c, if (failed : bool) then Err (ErrCloseNode id) else Ok tt)
  end.

Definition reset_inv (c : Cluster) (id : bytes) : Cluster :=
  MkChaos (k_fleet c) (k_cfg c) (k_ids c) (k_crashed c) (k_partitioned c) (k_groups c) (k_Log c)
          (resetVolatile (k_Inv c) id).

Definition RestartNode (c : Cluster) (id : bytes) : Cluster * result chaos_error unit :=
  if negb (IsCrashed c id) then (c, Err (ErrNotCrashed id))
  else
    let c := on_fleet c (fl_heal (k_fleet c) id) in
    let c := set_marks c (k_crashed c) (k_partitioned c ∖ {[id]}) (k_groups c) in
    match openNode (reset_inv c id) id with
    | (c, Err e) => (c, Err e)
    | (c, Ok _) => (Observe c (paren (lit "Restart") id), Ok tt)
    end.

Definition Partition (c : Cluster) (id : bytes) : Cluster :=
  let c := on_fleet c (fl_partition (k_fleet c) id) in
  Observe (set_marks c (k_crashed c) ({[id]} ∪ k_partitioned c) (k_groups c)) (paren (lit "Partition") id).

Definition Heal (c : Cluster) (id : bytes) : Cluster :=
  let c := on_fleet c (fl_heal (k_fleet c) id) in
  Observe (set_marks c (k_crashed c) (k_partitioned c ∖ {[id]}) (k_groups c)) (paren (lit "Heal") id).

Definition PartitionGroups (c : Cluster) (groups : list (list bytes)) : Cluster :=
  let c := on_fleet c (fl_groups (k_fleet c) groups) in
  Observe (set_marks c (k_crashed c) (k_partitioned c) groups)
          (paren (lit "PartitionGroups") (brackets (brackets <$> groups))).

Definition HealPartitions (c : Cluster) : Cluster :=
  let c := on_fleet c (fl_heal_groups (k_fleet c)) in
  Observe (set_marks c (k_crashed c) (k_partitioned c) []) (lit "HealPartitions").

(** *** Deterministic scheduling *)

Definition TickAll (c : Cluster) : Cluster := on_fleet c (fold_left fl_tick (LiveIDs c) (k_fleet c)).
Definition DrainAll (c : Cluster) : Cluster := on_fleet c (fold_left fl_drain (LiveIDs c) (k_fleet c)).

Definition ApplyAllAvailable (c : Cluster) : Cluster * gmap bytes applier_error :=
  let '(w, errs) := fold_left (fun '(w, errs) id =>
      match fl_apply w id with
      | (w, Err e) => (w, <[id := e]> errs)
      | (w, Ok _) => (w, errs)
      end) (LiveIDs c) (k_fleet c, ∅) in
  (on_fleet c w, errs).

Definition advance_once (c : Cluster) : Cluster :=
  Observe (ApplyAllAvailable (DrainAll (TickAll c))).1 (lit "Tick").

Definition Advance (c : Cluster) (rounds : Z) : Cluster := Nat.iter (Z.to_nat rounds) advance_once c.
Definition Settle (c : Cluster) : Cluster := Advance c 2.

Definition leads (c : Cluster) (id : bytes) : bool :=
  match live_node c id with Some n => bool_decide (role n = Leader) | None => false end.

Definition ElectLeader (c : Cluster) (id : bytes) : Cluster * result chaos_error unit :=
  match live_node c id with
  | None => (c, Err (ErrNotLive id))
  | Some _ =>
      let w := Nat.iter (Z.to_nat (cc_ElectionTickMax (k_cfg c) + 1)) (fun w => fl_tick w id) (k_fleet c) in
      let c := Observe (on_fleet c (fl_drain w id)) (paren (lit "ElectLeader") id) in
      (c, if match fl_raft (k_fleet c) id with Some n => bool_decide (role n = Leader) | None => false end
          then Ok tt else Err (ErrDidNotLead id))
  end.

(** *** Client operations *)

Section Actions.
(** [strconv.Quote], for the actions' names. *)
Context (quote : bytes -> bytes).

Definition op_String (op : byte) : bytes :=
  if bool_decide (op = OpPut) then lit "Put" else if bool_decide (op = OpDelete) then lit "Delete"
  else lit "Op(" ++ itoa (byte_val op) ++ lit ")".

Definition Propose (c : Cluster) (id : bytes) (cmd : Command) : Cluster * result chaos_error (Z * Z) :=
  match live_node c id with
  | None => (c, Err (ErrNotLive id))
  | Some _ =>
      let '(w, r) := fl_propose (k_fleet c) id cmd in
      (Observe (on_fleet c (fl_drain w id))
         (paren (lit "Propose") (id ++ lit ", " ++ op_String (Op cmd) ++ lit " " ++ quote (Key cmd))),
       match r with Ok it => Ok it | Err e => Err (ErrPropose e) end)
  end.

Definition ConsistentGet (c : Cluster) (id key : bytes) : Cluster * result chaos_error bytes :=
  match live_node c id with
  | None => (c, Err (ErrNotLive id))
  | Some _ =>
      let '(w, r) := fl_get (k_fleet c) id key in
      (Observe (on_fleet c w) (paren (lit "ConsistentGet") (id ++ lit ", " ++ quote key)),
       match r with Ok v => Ok v | Err e => Err (ErrGet e) end)
  end.
End Actions.

Definition CreateSnapshot (c : Cluster) (id : bytes) (index : Z) : Cluster * result chaos_error unit :=
  match live_node c id with
  | None => (c, Err (ErrNotLive id))
  | Some _ =>
      let '(w, r) := fl_create (k_fleet c) id index in
      (Observe (on_fleet c w) (paren (lit "CreateSnapshot") (id ++ lit ", " ++ itoa index)),
       match r with Ok _ => Ok tt | Err e => Err (ErrCreateSnapshot e) end)
  end.

(** [FailNextPersist], [FailNextSnapshotPersist], [FailNextPut] and
    [FailNextDelete]. *)
Definition fail_next (kind : fault_kind) (c : Cluster) (id : bytes) : Cluster * result chaos_error unit :=
  match fl_raft (k_fleet c) id with
  | None => (c, Err (ErrUnknownNode id))
  | Some _ => (on_fleet c (fl_arm (k_fleet c) id kind), Ok tt)
  end.

Definition cluster_PutCount (c : Cluster) (id : bytes) : result chaos_error Z :=
  match fl_raft (k_fleet c) id with
  | None => Err (ErrUnknownNode id)
  | Some _ => Ok (fl_puts (k_fleet c) id)
  end.

(** *** Convergence *)

Definition LogicalState (c : Cluster) (id : bytes) : result chaos_error (gmap bytes bytes) :=
  match live_node c id with
  | None => Err (ErrNotLive id)
  | Some _ => Ok (fold_left (fun m e => <[e.1 := e.2]> m) (fl_entries (k_fleet c) id) ∅)
  end.

(** A missing key reads as the empty string. *)
Definition stateEqual (a b : gmap bytes bytes) : bool :=
  bool_decide (size a = size b) && forallb (fun e => bool_decide (default [] (b !! e.1) = e.2)) (map_to_list a).

Fixpoint all_equal (c : Cluster) (first : bytes) (want : gmap bytes bytes) (ids : list bytes) : result chaos_error unit :=
  match ids with
  | [] => Ok tt
  | id :: ids => match LogicalState c id with
                 | Err e => Err e
                 | Ok got => if stateEqual want got then all_equal c first want ids else Err (ErrDiverged first id)
                 end
  end.

Definition AssertConverged (c : Cluster) (ids : list bytes) : result chaos_error unit :=
  match (if bool_decide (ids = []) then LiveIDs c else ids) with
  | [] => Ok tt
  | id :: ids => match LogicalState c id with
                 | Err e => Err e
                 | Ok want => all_equal c id want ids
                 end
  end.

Definition AssertInvariants (c : Cluster) : option bytes := Check (k_Inv c).

(** *** Bounded waits *)

Definition CurrentLeaderAmong (c : Cluster) (ids : list bytes) : option bytes := head (filter (fun id => leads c id) ids).
Definition CurrentLeader (c : Cluster) : option bytes := CurrentLeaderAmong c (k_ids c).

Fixpoint leader_loop (rounds : nat) (c : Cluster) (ids : list bytes) : Cluster * result chaos_error bytes :=
  match CurrentLeaderAmong c ids with
  | Some id => (c, Ok id)
  | None => match rounds with
            | O => (c, Err ErrNoLeader)
            | S rounds => leader_loop rounds (Advance c 1) ids
            end
  end.

Definition WaitForLeaderAmong (c : Cluster) (maxRounds : Z) (ids : list bytes) : Cluster * result chaos_error bytes :=
  leader_loop (Z.to_nat maxRounds) c ids.
Definition WaitForLeader (c : Cluster) (maxRounds : Z) : Cluster * result chaos_error bytes :=
  leader_loop (Z.to_nat maxRounds) c (k_ids c).

(** [WaitForCommit], [WaitForApplied] and [WaitForSnapshotIndex] differ in
    what they read of the node. *)
Definition reaches (read : Node -> Z) (c : Cluster) (id : bytes) (index : Z) : bool :=
  match live_node c id with Some n => read n >=? index | None => false end.

Fixpoint index_loop (read : Node -> Z) (rounds : nat) (c : Cluster) (id : bytes) (index : Z) :
    Cluster * result chaos_error unit :=
  if reaches read c id index then (c, Ok tt)
  else match rounds with
       | O => (c, Err (ErrNotReached id index))
       | S rounds => index_loop read rounds (Advance c 1) id index
       end.

Definition WaitForCommit c id index maxRounds := index_loop commitIndex (Z.to_nat maxRounds) c id index.
Definition WaitForApplied c id index maxRounds := index_loop lastApplied (Z.to_nat maxRounds) c id index.
Definition WaitForSnapshotIndex c id index maxRounds :=
  index_loop (fun n => base (log n)) (Z.to_nat maxRounds) c id index.

Fixpoint convergence_loop (rounds : nat) (c : Cluster) (ids : list bytes) : Cluster * result chaos_error unit :=
  match AssertConverged c ids with
  | Ok _ => (c, Ok tt)
  | Err _ => match rounds with
             | O => (c, Err ErrNoConvergence)
             | S rounds => convergence_loop rounds (Advance c 1) ids
             end
  end.

Definition WaitForConvergence (c : Cluster) (maxRounds : Z) (ids : list bytes) : Cluster * result chaos_error unit :=
  convergence_loop (Z.to_nat maxRounds) c ids.
End Cluster.
Arguments Cluster : clear implicits.

(** ** Random scenarios: random.go *)

Inductive RandomKind :=
| RandomPut | RandomDelete | RandomGet | RandomCrash | RandomRestart | RandomPartition | RandomHeal | RandomSnapshot.

Record RandomStep := MkRandomStep { rs_Kind : RandomKind; rs_Node : bytes; rs_Key : bytes; rs_Value : bytes }.
Record RandomPlan := MkPlan { pl_Seed : Z; pl_Steps : list RandomStep }.

Definition kinds : list RandomKind :=
  [RandomPut; RandomDelete; RandomGet; RandomCrash; RandomRestart; RandomPartition; RandomHeal; RandomSnapshot].

(** A [*rand.Rand]: its state and [Intn]. *)
Section Random.
Context {R : Type} (Intn : R -> nat -> nat * R).

Definition random_step (ids : list bytes) (r : R) : RandomStep * R :=
  let '(k, r) := Intn r (length kinds) in
  let kind := nth k kinds RandomPut in
  let '(i, r) := Intn r (length ids) in
  let node := nth i ids [] in
  match kind with
  | RandomPut =>
      let '(key, r) := Intn r 5 in
      let '(value, r) := Intn r 1000 in
      (MkRandomStep kind node (lit "k" ++ itoa (Z.of_nat key)) (lit "v" ++ itoa (Z.of_nat value)), r)
  | RandomDelete | RandomGet =>
      let '(key, r) := Intn r 5 in (MkRandomStep kind node (lit "k" ++ itoa (Z.of_nat key)) [], r)
  | _ => (MkRandomStep kind node [] [], r)
  end.

Fixpoint random_steps (numSteps : nat) (ids : list bytes) (r : R) : list RandomStep :=
  match numSteps with
  | O => []
  | S k => let '(step, r) := random_step ids r in step :: random_steps k ids r
  end.

Definition NewRandomPlan (newRand : Z -> R) (seed : Z) (ids : list bytes) (numSteps : Z) : RandomPlan :=
  MkPlan seed (random_steps (Z.to_nat numSteps) ids (newRand seed)).
End Random.

Section RunRandom.
Context {W : Type} `{Fleet W} (quote : bytes -> bytes).

Definition skip (c : Cluster W) (what : bytes) : Cluster W := Observe c (paren (lit "Skip") what).

(** A write goes to whichever node leads. *)
Definition random_write (c : Cluster W) (name key : bytes) (cmd : Command) : Cluster W :=
  match CurrentLeader c with
  | Some leader => (Propose quote c leader cmd).1
  | None => skip c (name ++ lit " " ++ key ++ lit ": no leader")
  end.

Definition runRandomStep (c : Cluster W) (step : RandomStep) (i : Z) : Cluster W :=
  let clientID := lit "rand-client-" ++ itoa i in
  match rs_Kind step with
  | RandomPut => random_write c (lit "Put") (rs_Key step) (NewPutCommand clientID (u64 i) (rs_Key step) (rs_Value step))
  | RandomDelete => random_write c (lit "Delete") (rs_Key step) (NewDeleteCommand clientID (u64 i) (rs_Key step))
  | RandomGet =>
      match live_node c (rs_Node step) with
      | Some _ => (ConsistentGet quote c (rs_Node step) (rs_Key step)).1
      | None => skip c (lit "Get on " ++ rs_Node step ++ lit ": not live")
      end
  | RandomCrash =>
      if IsCrashed c (rs_Node step) then skip c (lit "Crash: already crashed " ++ rs_Node step)
      else (CrashNode c (rs_Node step)).1
  | RandomRestart =>
      if IsCrashed c (rs_Node step) then (RestartNode c (rs_Node step)).1
      else skip c (lit "Restart: not crashed " ++ rs_Node step)
  | RandomPartition => Partition c (rs_Node step)
  | RandomHeal => Heal c (rs_Node step)
  | RandomSnapshot =>
      match live_node c (rs_Node step) with
      | Some n => if lastApplied n >? base (log n) then (CreateSnapshot c (rs_Node step) (lastApplied n)).1
                  else skip c (lit "Snapshot: nothing new to snapshot on " ++ rs_Node step)
      | None => skip c (lit "Snapshot on " ++ rs_Node step ++ lit ": not live")
      end
  end.

Fixpoint run_steps (c : Cluster W) (steps : list RandomStep) (i : Z) : Cluster W :=
  match steps with
  | [] => c
  | step :: steps => run_steps (runRandomStep (Advance c 1) step i) steps (i + 1)
  end.

Definition RunRandomScenario (c : Cluster W) (plan : RandomPlan) : Cluster W := run_steps c (pl_Steps plan) 0.
End RunRandom.

(** ** What the harness records *)

Class FleetLaws (W : Type) `{Fleet W} := {
  fl_arm_raft w id kind i : fl_raft (fl_arm w id kind) i = fl_raft w i }.

Section Records.
Context {W : Type} `{Fleet W, !FleetLaws W} (quote : bytes -> bytes).
Implicit Types c : Cluster W.

(** One call of a scenario. A restart that fails is left out: it has already
    healed the network and reset the tracker, and records nothing. *)
Inductive hstep c : Cluster W -> Prop :=
| hs_observe action : hstep c (Observe c action)
| hs_crash id c' r : CrashNode c id = (c', r) -> hstep c c'
| hs_restart id c' : RestartNode c id = (c', Ok tt) -> hstep c c'
| hs_partition id : hstep c (Partition c id)
| hs_heal id : hstep c (Heal c id)
| hs_groups groups : hstep c (PartitionGroups c groups)
| hs_heal_groups : hstep c (HealPartitions c)
| hs_advance rounds : hstep c (Advance c rounds)
| hs_elect id c' r : ElectLeader c id = (c', r) -> hstep c c'
| hs_propose id cmd c' r : Propose quote c id cmd = (c', r) -> hstep c c'
| hs_get id key c' r : ConsistentGet quote c id key = (c', r) -> hstep c c'
| hs_create id index c' r : CreateSnapshot c id index = (c', r) -> hstep c c'
| hs_fault kind id c' r : fail_next kind c id = (c', r) -> hstep c c'
| hs_wait_leader ids rounds c' r : leader_loop rounds c ids = (c', r) -> hstep c c'
| hs_wait_index read rounds id index c' r : index_loop read rounds c id index = (c', r) -> hstep c c'
| hs_wait_convergence rounds ids c' r : convergence_loop rounds c ids = (c', r) -> hstep c c'.

Definition shown (calls : list tracker_call) : list ClusterSnapshot :=
  omap (fun x => match x with CallObserve snap => Some snap | CallReset _ => None end) calls.

(** The steps are numbered from 1, the tracker has seen exactly the recorded
    snapshots, in order, and the last one is what the cluster looks like
    now. *)
Record watched c : Prop := {
  wa_numbers : st_Number <$> el_Steps (k_Log c) = (fun i => Z.of_nat i + 1) <$> seq 0 (length (el_Steps (k_Log c)));
  wa_seen : exists calls, k_Inv c = fold_left do_call calls newInvariantTracker /\
    shown calls = st_Snapshot <$> el_Steps (k_Log c);
  wa_current : st_Snapshot <$> Last (k_Log c) = Some (snapshot c) }.

(** All but the last. *)
Definition traced c : Prop :=
  st_Number <$> el_Steps (k_Log c) = (fun i => Z.of_nat i + 1) <$> seq 0 (length (el_Steps (k_Log c))) /\
  exists calls, k_Inv c = fold_left do_call calls newInvariantTracker /\
    shown calls = st_Snapshot <$> el_Steps (k_Log c).

Lemma watched_traced c : watched c -> traced c.
Proof using Type. intros [H1 H2 _]. by split. Qed.

Lemma traced_same c c' : k_Log c' = k_Log c -> k_Inv c' = k_Inv c -> traced c -> traced c'.
Proof using Type. unfold traced. intros -> ->. done. Qed.

Lemma Observe_watched c action : traced c -> watched (Observe c action).
Proof using Type.
  intros [Hn (calls & Hi & Hs)]. split; cbn.
  - rewrite length_app, seq_app, !fmap_app, Hn. done.
  - exists (calls ++ [CallObserve (snapshot c)]). rewrite fold_left_app, <- Hi. split; [done|].
    unfold shown. rewrite omap_app, fmap_app. by f_equal.
  - unfold Last. cbn. by rewrite last_snoc.
Qed.

Ltac observed := apply Observe_watched; eapply traced_same; [..|by apply watched_traced]; done.

Lemma advance_watched c : watched c -> watched (advance_once c).
Proof using Type.
  intros Hw. unfold advance_once. apply Observe_watched.
  eapply (traced_same c); [| |by apply watched_traced]; unfold ApplyAllAvailable, DrainAll, TickAll;
    by destruct (fold_left _ _ _) as [w errs].
Qed.

Lemma Advance_watched c rounds : watched c -> watched (Advance c rounds).
Proof using Type.
  intros Hw. unfold Advance. induction (Z.to_nat rounds) as [|k IH]; [done|]. cbn. by apply advance_watched.
Qed.

Lemma leader_loop_watched rounds c ids : watched c -> watched (leader_loop rounds c ids).1.
Proof using Type.
  revert c. induction rounds as [|k IH]; intros c Hw; cbn; destruct (CurrentLeaderAmong c ids); try done.
  by apply IH, advance_watched.
Qed.

Lemma index_loop_watched read rounds c id index : watched c -> watched (index_loop read rounds c id index).1.
Proof using Type.
  revert c. induction rounds as [|k IH]; intros c Hw; cbn; destruct (reaches read c id index); try done.
  by apply IH, advance_watched.
Qed.

Lemma convergence_loop_watched rounds c ids : watched c -> watched (convergence_loop rounds c ids).1.
Proof using Type.
  revert c. induction rounds as [|k IH]; intros c Hw; cbn; destruct (AssertConverged c ids); try done.
  by apply IH, advance_watched.
Qed.

Lemma hstep_watched c c' : watched c -> hstep c c' -> watched c'.
Proof using All.
  intros Hw Hs. destruct Hs as [action|id c' r E|id c' E|id|id|groups| |rounds|id c' r E|id cmd c' r E|id key c' r E
    |id index c' r E|kind id c' r E|ids rounds c' r E|read rounds id index c' r E|rounds ids c' r E].
  - by apply Observe_watched, watched_traced.
  - unfold CrashNode in E. destruct (fl_raft _ _); [|by injection E as <- <-].
    destruct (IsCrashed c id); [by injection E as <- <-|]. destruct (fl_close _ _) as [w failed].
    injection E as <- <-. observed.
  - unfold RestartNode in E. destruct (negb _); [done|]. unfold openNode in E.
    destruct (fl_open _ _ _) as [w [[]|e]]; [|done]. injection E as <-. apply Observe_watched.
    destruct (watched_traced _ Hw) as [Hn (calls & Hi & Hsn)]. split; [done|].
    exists (calls ++ [CallReset id]). rewrite fold_left_app, <- Hi. split; [done|].
    unfold shown. rewrite omap_app. cbn. by rewrite app_nil_r.
  - observed.
  - observed.
  - observed.
  - observed.
  - by apply Advance_watched.
  - unfold ElectLeader in E. destruct (live_node c id); [|by injection E as <- <-]. injection E as <- <-. observed.
  - unfold Propose in E. destruct (live_node c id); [|by injection E as <- <-].
    destruct (fl_propose _ _ _) as [w res]. injection E as <- <-. observed.
  - unfold ConsistentGet in E. destruct (live_node c id); [|by injection E as <- <-].
    destruct (fl_get _ _ _) as [w res]. injection E as <- <-. observed.
  - unfold CreateSnapshot in E. destruct (live_node c id); [|by injection E as <- <-].
    destruct (fl_create _ _ _) as [w res]. injection E as <- <-. observed.
  - unfold fail_next in E. destruct (fl_raft _ _); injection E as <- <-; [|done]. destruct Hw as [H1 H2 H3].
    split; [done|done|]. etrans; [exact H3|]. unfold snapshot. cbn. do 2 f_equal.
    induction (k_ids c) as [|i ids IH]; [done|]. cbn. by rewrite fl_arm_raft, IH.
  - pose proof (leader_loop_watched rounds c ids Hw) as F. by rewrite E in F.
  - pose proof (index_loop_watched read rounds c id index Hw) as F. by rewrite E in F.
  - pose proof (convergence_loop_watched rounds c ids Hw) as F. by rewrite E in F.
Qed.

Lemma openNode_log c id : k_Log (openNode c id).1 = k_Log c /\ k_Inv (openNode c id).1 = k_Inv c.
Proof using Type. unfold openNode. by destruct (fl_open _ _ _) as [w [[]|e]]. Qed.

Lemma open_all_log c ids : k_Log (open_all c ids).1 = k_Log c /\ k_Inv (open_all c ids).1 = k_Inv c.
Proof using Type.
  revert c. induction ids as [|id ids IH]; intros c; [done|]. cbn. destruct (openNode_log c id) as [E1 E2].
  destruct (openNode c id) as [c1 [[]|e]]; [|done]. cbn in *. destruct (IH c1) as [-> ->]. done.
Qed.

Lemma NewCluster_watched w scenario seed cfg c : NewCluster w scenario seed cfg = Ok c -> watched c.
Proof using Type.
  unfold NewCluster. destruct (_ <=? 0); [done|]. case_bool_decide; [done|]. set (c0 := MkChaos _ _ _ _ _ _ _ _).
  destruct (open_all_log c0 (node_name <$> seq 0 (Z.to_nat (cc_NumNodes cfg)))) as [E1 E2].
  destruct (open_all c0 _) as [c1 [[]|e]]; [|done]. intros [= <-]. apply Observe_watched.
  apply (traced_same c0); [done|done|]. split; [done|]. by exists [].
Qed.
End Records.

(** ** Waits *)

Section Waits.
Context {W : Type} `{Fleet W}.
Implicit Types c : Cluster W.

(** The cluster after [k] rounds. *)
Definition after_rounds (k : nat) c : Cluster W := Nat.iter k advance_once c.

Lemma after_rounds_S k c : after_rounds (S k) c = after_rounds k (advance_once c).
Proof using Type. unfold after_rounds. by rewrite Nat.iter_succ_r. Qed.

(** A loop that looks, and advances when it does not see what it wants. *)
Definition waited {A} (look : Cluster W -> option A) (rounds : nat) c c' (r : option A) : Prop :=
  exists k, (k <= rounds)%nat /\ c' = after_rounds k c /\ look c' = r /\
    (forall j, (j < k)%nat -> look (after_rounds j c) = None) /\ (r = None -> k = rounds).

Lemma waited_now {A} (look : Cluster W -> option A) rounds c x : look c = Some x -> waited look rounds c c (Some x).
Proof using Type. intros E. exists 0%nat. split_and!; [lia|done|done|lia|done]. Qed.

Lemma waited_never {A} (look : Cluster W -> option A) c : look c = None -> waited look 0 c c None.
Proof using Type. intros E. exists 0%nat. split_and!; done || lia. Qed.

Lemma waited_later {A} (look : Cluster W -> option A) rounds c c' r :
  look c = None -> waited look rounds (advance_once c) c' r -> waited look (S rounds) c c' r.
Proof using Type.
  intros E (k & Hk & Ec & Er & Hj & Hn). exists (S k). rewrite after_rounds_S. split_and!; [lia|done|done| |].
  - intros [|j] Hjk; [done|]. rewrite after_rounds_S. apply Hj. lia.
  - intros Hr. by rewrite (Hn Hr).
Qed.

Definition sees_index (read : Node -> Z) (id : bytes) (index : Z) c : option unit :=
  if reaches read c id index then Some tt else None.
Definition sees_convergence (ids : list bytes) c : option unit :=
  match AssertConverged c ids with Ok _ => Some tt | Err _ => None end.

Lemma leader_loop_spec rounds c ids c' r :
  leader_loop rounds c ids = (c', r) ->
  waited (fun c => CurrentLeaderAmong c ids) rounds c c' (match r with Ok id => Some id | Err _ => None end).
Proof using Type.
  revert c. induction rounds as [|k IH]; intros c; cbn; destruct (CurrentLeaderAmong c ids) eqn:E; intros Heq.
  - injection Heq as <- <-. by apply waited_now.
  - injection Heq as <- <-. by apply waited_never.
  - injection Heq as <- <-. by apply waited_now.
  - apply waited_later; [done|]. by apply IH.
Qed.

Lemma index_loop_spec read rounds c id index c' r :
  index_loop read rounds c id index = (c', r) ->
  waited (sees_index read id index) rounds c c' (match r with Ok _ => Some tt | Err _ => None end).
Proof using Type.
  revert c. induction rounds as [|k IH]; intros c; cbn; destruct (reaches read c id index) eqn:E; intros Heq.
  - injection Heq as <- <-. apply waited_now. unfold sees_index. by rewrite E.
  - injection Heq as <- <-. apply waited_never. unfold sees_index. by rewrite E.
  - injection Heq as <- <-. apply waited_now. unfold sees_index. by rewrite E.
  - apply waited_later; [unfold sees_index; by rewrite E|]. by apply IH.
Qed.

Lemma convergence_loop_spec rounds c ids c' r :
  convergence_loop rounds c ids = (c', r) ->
  waited (sees_convergence ids) rounds c c' (match r with Ok _ => Some tt | Err _ => None end).
Proof using Type.
  revert c. induction rounds as [|k IH]; intros c; cbn; destruct (AssertConverged c ids) as [[]|e] eqn:E; intros Heq.
  - injection Heq as <- <-. apply waited_now. unfold sees_convergence. by rewrite E.
  - injection Heq as <- <-. apply waited_never. unfold sees_convergence. by rewrite E.
  - injection Heq as <- <-. apply waited_now. unfold sees_convergence. by rewrite E.
  - apply waited_later; [unfold sees_convergence; by rewrite E|]. by apply IH.
Qed.
End Waits.

(** ** Comparing states *)

Lemma stateEqual_spec a b :
  stateEqual a b = true <-> size a = size b /\ forall k v, a !! k = Some v -> default [] (b !! k) = v.
Proof.
  unfold stateEqual. rewrite andb_true_iff, bool_decide_eq_true, forallb_forall.
  split; intros [Hs Hf]; (split; [done|]).
  - intros k v Hk. specialize (Hf (k, v)). rewrite <- list_elem_of_In, elem_of_map_to_list, bool_decide_eq_true in Hf.
    by apply Hf.
  - intros [k v]. rewrite <- list_elem_of_In, elem_of_map_to_list, bool_decide_eq_true. apply Hf.
Qed.

(** Without empty values the comparison is equality. *)
Lemma stateEqual_exact a b : (forall k, a !! k <> Some []) -> stateEqual a b = true <-> a = b.
Proof.
  intros Hne. rewrite stateEqual_spec. split; [|intros ->; split; [done|by intros k v ->]].
  intros [Hs Hf]. assert (a ⊆ b) as Hsub.
  { apply map_subseteq_spec. intros k v Hk. specialize (Hf k v Hk).
    destruct (b !! k) as [w|]; cbn in Hf; [congruence|]. subst v. by apply Hne in Hk. }
  apply map_subseteq_size_eq; [done|lia].
Qed.

(** ** Faults fire once *)

Fixpoint save_all {P Env} `{Persister P Env} (p : P) (ops : list (Env * save_op)) : P * list (result save_error unit) :=
  match ops with
  | [] => (p, [])
  | (e, o) :: ops => let '(p, r) := do_save p e o in let '(p, rs) := save_all p ops in (p, r :: rs)
  end.

Lemma save_all_app {P Env} `{Persister P Env} (p : P) ops1 ops2 :
  save_all p (ops1 ++ ops2) =
  ((save_all (save_all p ops1).1 ops2).1, (save_all p ops1).2 ++ (save_all (save_all p ops1).1 ops2).2).
Proof.
  revert p. induction ops1 as [|[e o] ops1 IH]; intros p; cbn; [by destruct (save_all p ops2)|].
  destruct (do_save p e o) as [p1 r]. rewrite IH. by destruct (save_all p1 ops1).
Qed.

Section Once.
Context {P Env : Type} `{Persister P Env}.

(** The kind of save a flag stands for. *)
Definition hit (a b : bool) (o : save_op) : bool := match o with OpState _ => a | OpSnapshot _ => b end.

Lemma save_through (p : P) a b e o :
  hit a b o = false ->
  do_save (MkFaultyP p a b) e o = (MkFaultyP (do_save p e o).1 a b, (do_save p e o).2).
Proof using Type.
  destruct o as [st|s]; cbn; intros ->; unfold faulty_SaveState, faulty_SaveSnapshot; cbn;
    [by destruct (SaveState p e st)|by destruct (SaveSnapshot p e s)].
Qed.

Lemma save_all_through (p : P) a b ops :
  Forall (fun eo => hit a b eo.2 = false) ops ->
  save_all (MkFaultyP p a b) ops = (MkFaultyP (save_all p ops).1 a b, (save_all p ops).2).
Proof using Type.
  intros Ho. revert p. induction Ho as [|[e o] ops Hh _ IH]; intros p; [done|]. cbn [save_all].
  rewrite (save_through p a b e o Hh). destruct (do_save p e o) as [p1 r]. cbn [fst snd]. rewrite IH.
  by destruct (save_all p1 ops).
Qed.
End Once.

(** ** A fleet in which every message arrives at once *)

Definition lab : Type := InMemoryTransport DbNode.

#[export] Instance DbNode_handler : RPCHandler DbNode := {
  on_vote d f args := let '(n, r) := HandleRequestVote (db_raft d) f args in (with_raft d n, r);
  on_append d f args := let '(n, r) := HandleAppendEntries (db_raft d) f args in (with_raft d n, r);
  on_snapshot d f args := let '(n, r) := HandleInstallSnapshot (db_raft d) f args in (with_raft d n, r) }.

(** A reply is handled, and what that sends is sent next. *)
Definition lab_reply (w : lab) (from : bytes) (handle : Node -> Node * list Rpc) : lab * list Rpc :=
  match handlers w !! from with
  | None => (w, [])
  | Some d => let '(n, rpcs) := handle (db_raft d) in (Register w from (with_raft d n), rpcs)
  end.

Definition lab_send (w : lab) (from : bytes) (r : Rpc) : lab * list Rpc :=
  match r with
  | RpcRequestVote p args =>
      match SendRequestVote w calm_faults p args with
      | (w, None) => (w, [])
      | (w, Some reply) => lab_reply w from (fun n => default (n, []) (onRequestVoteReply n calm_faults p (rv_Term args) reply))
      end
  | RpcAppendEntries p args =>
      match SendAppendEntries w calm_faults p args with
      | (w, None) => (w, [])
      | (w, Some reply) => lab_reply w from (fun n => ((onAppendEntriesReply n calm_faults p (ae_Term args) args reply).1, []))
      end
  | RpcInstallSnapshot _ _ _ => (w, [])
  end.

Fixpoint lab_pump (fuel : nat) (w : lab) (queue : list (bytes * Rpc)) : lab :=
  match fuel, queue with
  | S fuel, (from, r) :: queue =>
      let '(w, rpcs) := lab_send w from r in lab_pump fuel w (((fun r => (from, r)) <$> rpcs) ++ queue)
  | _, _ => w
  end.

Definition lab_with {A} (w : lab) (id : bytes) (f : DbNode -> DbNode * list Rpc * A) (none : A) : lab * A :=
  match handlers w !! id with
  | None => (w, none)
  | Some d => let '(d, rpcs, a) := f d in (lab_pump 40 (Register w id d) ((fun r => (id, r)) <$> rpcs), a)
  end.

Definition lab_open (w : lab) (id : bytes) (peers : list bytes) : lab * result open_error unit :=
  let disk := match handlers w !! id with Some d => persister (db_raft d) | None => empty_disk end in
  let store := match handlers w !! id with Some d => db_store d | None => sample_store end in
  match newNode (MkConfig id peers 5 10 1 (2 ^ 20)) disk 0 with
  | Err e => (w, Err (ErrOpenRaft e))
  | Ok n => (Register w id (MkDb id (MkApplier n (NewKVStateMachine store)) None), Ok tt)
  end.

#[export] Instance lab_fleet : Fleet lab := {
  fl_open := lab_open;
  fl_close w id := lab_with w id (fun d => let '(d, r) := Close d false in (d, [], r)) false;
  fl_tick w id := (lab_with w id (fun d => (DbNode.Tick d calm_faults, tt)) tt).1;
  fl_drain w _ := w;
  fl_apply w id := lab_with w id (fun d => let '(d, _, r) := DbNode.ApplyAvailable d quietly in (d, [], r)) (Ok tt);
  fl_propose w id cmd := lab_with w id (fun d => DbNode.Propose d calm_faults cmd) (Err ErrEncodeCommand);
  fl_get w id key := lab_with w id (fun d => let '(d, r) := DbNode.ConsistentGet d quiet_reads key in (d, [], r)) (Err ErrDeadline);
  fl_create w id index := lab_with w id (fun d => let '(d, r) := DbNode.CreateSnapshot d quietly calm_faults
      (map_to_list (sm_dedup (db_sm d))) index in (d, [], r)) (Ok tt);
  fl_partition := Transport.Partition; fl_heal := Transport.Heal;
  fl_groups := Transport.PartitionGroups; fl_heal_groups := Transport.HealPartitions;
  fl_arm w _ _ := w;
  fl_puts _ _ := 0;
  fl_raft w id := db_raft <$> handlers w !! id;
  fl_entries w id := match handlers w !! id with Some d => store_Snapshot (db_store d) | None => [] end }.

#[export] Instance lab_laws : FleetLaws lab.
Proof. by split. Qed.

Definition three : ChaosConfig := MkChaosConfig 3 (lit "/tmp") 0 0 0.
Definition plain (s : bytes) : bytes := s.
Definition lab0 : result chaos_error (Cluster lab) := NewCluster NewInMemoryTransport (lit "demo") 0 three.
Definition start : Cluster lab := match lab0 with Ok c => c | Err _ => MkChaos NewInMemoryTransport three [] ∅ ∅ [] (newEventLog [] 0) newInvariantTracker end.
Definition node0 : bytes := node_name 0.
Definition node1 : bytes := node_name 1.
Definition node2 : bytes := node_name 2.

Example lab_elects :
  (ElectLeader start node0).2 = Ok tt /\ LiveIDs start = [node0; node1; node2] /\
  AssertInvariants (ElectLeader start node0).1 = None.
Proof. vm_compute. done. Qed.

(** ** Theorems *)

(** The diagnostic record is complete: whatever a scenario does to a cluster
    (crashes, restarts that succeed, partitions, ticks, client calls, faults,
    waits, in any order), the steps of the event log are numbered from 1
    without a gap, the last one shows the cluster as it is, and
    [AssertInvariants] returns nil if and only if the recorded snapshots,
    together with the resets of restarted nodes, are a legal history. *)
Theorem harness_records_everything {W} `{Fleet W, !FleetLaws W} (quote : bytes -> bytes) w scenario seed cfg c0 (c : Cluster W) :
  NewCluster w scenario seed cfg = Ok c0 -> rtc (hstep quote) c0 c ->
  (forall k s, el_Steps (k_Log c) !! k = Some s -> st_Number s = Z.of_nat k + 1) /\
  st_Snapshot <$> Last (k_Log c) = Some (snapshot c) /\
  exists calls, shown calls = st_Snapshot <$> el_Steps (k_Log c) /\
    (AssertInvariants c = None <-> legal (reports calls)).
Proof.
  intros Hc Hr. apply NewCluster_watched in Hc. assert (watched c) as [Hn (calls & Hi & Hs) Hl].
  { clear -Hc Hr FleetLaws0. induction Hr as [c|c c1 c' Hs _ IH]; [done|]. by eapply IH, hstep_watched. }
  split_and!; [|done|].
  - intros k s Hk. pose proof (lookup_lt_Some _ _ _ Hk). apply (f_equal (lookup k)) in Hn.
    rewrite !list_lookup_fmap, Hk, lookup_seq_lt in Hn by done. cbn in Hn. injection Hn as ->. lia.
  - exists calls. split; [done|]. unfold AssertInvariants, Check, Violations. rewrite Hi, calls_track, <- track_exact.
    unfold track. by destruct (violations _).
Qed.

(** Waits are bounded and exact: [WaitForLeader], [WaitForLeaderAmong],
    [WaitForCommit], [WaitForApplied], [WaitForSnapshotIndex] and
    [WaitForConvergence] run at most [maxRounds] rounds of the scheduler,
    stop at the first round that shows what they wait for, and give up only
    when none of the rounds did. *)
Theorem waits_are_bounded {W} `{Fleet W} (c : Cluster W) maxRounds :
  (forall ids c' r, WaitForLeaderAmong c maxRounds ids = (c', r) ->
     waited (fun c => CurrentLeaderAmong c ids) (Z.to_nat maxRounds) c c' (match r with Ok id => Some id | Err _ => None end)) /\
  (forall c' r, WaitForLeader c maxRounds = (c', r) ->
     waited (fun x => CurrentLeaderAmong x (k_ids c)) (Z.to_nat maxRounds) c c' (match r with Ok id => Some id | Err _ => None end)) /\
  (forall id index c' r, WaitForCommit c id index maxRounds = (c', r) ->
     waited (sees_index commitIndex id index) (Z.to_nat maxRounds) c c' (match r with Ok _ => Some tt | Err _ => None end)) /\
  (forall id index c' r, WaitForApplied c id index maxRounds = (c', r) ->
     waited (sees_index lastApplied id index) (Z.to_nat maxRounds) c c' (match r with Ok _ => Some tt | Err _ => None end)) /\
  (forall id index c' r, WaitForSnapshotIndex c id index maxRounds = (c', r) ->
     waited (sees_index (fun n => base (log n)) id index) (Z.to_nat maxRounds) c c'
       (match r with Ok _ => Some tt | Err _ => None end)) /\
  (forall ids c' r, WaitForConvergence c maxRounds ids = (c', r) ->
     waited (sees_convergence ids) (Z.to_nat maxRounds) c c' (match r with Ok _ => Some tt | Err _ => None end)).
Proof.
  split_and!; intros *; [apply leader_loop_spec|apply leader_loop_spec|apply index_loop_spec..|apply convergence_loop_spec].
Qed.

(** An injected fault is exact: after [FailNextSave], of any sequence of
    saves the first save of a state fails with the injected error and never
    reaches the wrapped persister, and every other save, before and after,
    is the wrapped persister's own; likewise for snapshots. *)
Theorem injected_fault_fires_once {P Env} `{Persister P Env} (p : P) ops1 e o ops2 :
  Forall (fun eo => hit (hit true false o) (hit false true o) eo.2 = false) ops1 ->
  save_all (match o with OpState _ => faulty_FailNextSave (MkFaultyP p false false)
                       | OpSnapshot _ => faulty_FailNextSnapshotSave (MkFaultyP p false false) end)
           (ops1 ++ (e, o) :: ops2) =
  (MkFaultyP (save_all p (ops1 ++ ops2)).1 false false,
   (save_all p ops1).2 ++ Err ErrSimulated :: (save_all (save_all p ops1).1 ops2).2).
Proof.
  intros Ho. rewrite !save_all_app. cbn [fst snd].
  assert (forall q : P, save_all (MkFaultyP q false false) ops2 =
    (MkFaultyP (save_all q ops2).1 false false, (save_all q ops2).2)) as Hoff.
  { intros q. apply save_all_through. apply Forall_true. by intros [? []]. }
  destruct o as [st|s].
  - pose proof (save_all_through p true false ops1 Ho) as Hon. unfold faulty_FailNextSave. cbn [inner failNextSnapshot].
    rewrite Hon. cbn [fst snd save_all do_save SaveState faulty_Persister]. unfold faulty_SaveState.
    cbn [inner failNextSave failNextSnapshot]. by rewrite Hoff.
  - pose proof (save_all_through p false true ops1 Ho) as Hon. unfold faulty_FailNextSnapshotSave. cbn [inner failNextSave].
    rewrite Hon. cbn [fst snd save_all do_save SaveSnapshot faulty_Persister]. unfold faulty_SaveSnapshot.
    cbn [inner failNextSave failNextSnapshot]. by rewrite Hoff.
Qed.

(** [AssertConverged] may call different states equal: a key that only the
    first node has, with an empty value, is not missed on the second; with
    no empty values the comparison is equality. *)
Theorem stateEqual_confuses_missing :
  (forall a b, (forall k, a !! k <> Some []) -> stateEqual a b = true <-> a = b) /\
  stateEqual {[ lit "x" := [] ]} {[ lit "y" := lit "1" ]} = true.
Proof. split; [apply stateEqual_exact|vm_compute; reflexivity]. Qed.

(** A crashed node can vote: with two of three nodes crashed nobody can
    be elected, but healing a crashed node's partition, as a random scenario
    may, hands it messages again, and its vote makes a leader while the
    harness counts a single live node. *)
Theorem healed_crash_votes :
  let down := (CrashNode (CrashNode start node1).1 node2).1 in
  let healed := Heal down node1 in
  (ElectLeader down node0).2 = Err (ErrDidNotLead node0) /\
  (ElectLeader healed node0).2 = Ok tt /\
  LiveIDs (ElectLeader healed node0).1 = [node0] /\
  (votedFor <$> fl_raft (k_fleet (ElectLeader healed node0).1) node1) = Some node0.
Proof. vm_compute. done. Qed.

(** The header of a shortened dump gives the length of the excerpt as the
    number of steps. *)
Theorem TailDump_counts_excerpt quote l n :
  0 < n < zlen (el_Steps l) -> exists tail, zlen tail = n /\ TailDump quote l n = Dump quote (MkEventLog (el_Scenario l) (el_Seed l) tail).
Proof.
  intros Hn. unfold TailDump. rewrite (proj2 (Z.leb_gt _ _)), Z.geb_leb, (proj2 (Z.leb_gt _ _)) by lia. cbn.
  eexists. split; [|reflexivity]. unfold zlen in *. rewrite length_drop. lia.
Qed.

(** ** Witnesses *)

Lemma start_opens : NewCluster NewInMemoryTransport (lit "demo") 0 three = Ok start.
Proof.
  assert (match lab0 with Ok _ => true | Err _ => false end = true) as Hok by (vm_compute; reflexivity).
  unfold start. change (NewCluster _ _ _ _) with lab0. by destruct lab0.
Qed.

Example harness_records_everything_witness :
  st_Snapshot <$> Last (k_Log (Heal (Partition start node1) node1)) = Some (snapshot (Heal (Partition start node1) node1)).
Proof.
  destruct (harness_records_everything plain NewInMemoryTransport (lit "demo") 0 three start
    (Heal (Partition start node1) node1) start_opens) as (_ & Hl & _); [|exact Hl].
  eapply rtc_l; [apply hs_partition|]. apply rtc_once, hs_heal.
Defined.

Example injected_fault_fires_once_witness :
  (save_all (faulty_FailNextSave (MkFaultyP NewMemoryPersister false false))
    ([] ++ (tt, OpState (MkState 1 [] [])) :: [(tt, OpState (MkState 2 [] []))])).2 = [Err ErrSimulated; Ok tt].
Proof.
  pose proof (injected_fault_fires_once NewMemoryPersister [] tt (OpState (MkState 1 [] [])) [(tt, OpState (MkState 2 [] []))]
    (Forall_nil_2 _)) as E. cbn [hit] in E. rewrite E. reflexivity.
Defined.
