(* ===== verification/Harness.v ===== *)
(** * The correctness harness

    correctness/harness.go and random.go: running client operations against
    a chaos cluster, each as an invocation and a resolution with their own
    ticks of a shared clock, and bounded random scripts of such operations. *)

From S2P Require Import Prelude Bytes Http Format Codec Wal SkipList MemTable MemStore Command StateMachine SmSnapshot.
From S2P Require Import AtomicFile RaftLog RaftFormat RaftPersist RaftNode RaftElection Applier Transport DbNode.
From S2P Require Import InvariantTracker Chaos Checker.
From stdpp Require Import base tactics list numbers gmap fin_sets sorting.
From Stdlib Require Import Strings.Byte.
From Stdlib Require Import ZArith Lia.
From Stdlib Require String.
Import String.StringSyntax.
#[local] Open Scope Z_scope.

(** ** harness.go *)

Section Harness.
Context {W : Type} `{Fleet W} (quote : bytes -> bytes).
(** The text of an error. *)
Context (err_text : chaos_error -> bytes).

Record Harness := MkHarness {
  h_cluster : Cluster W;
  h_clock : Z;
  h_nextID : Z;
  h_ops : list Operation }.

Record PendingOp := MkPending {
  po_id : Z;
  po_clientID : bytes;
  po_requestID : Z;
  po_kind : OpKind;
  po_node : bytes;
  po_key : bytes;
  po_value : bytes;
  po_invoke : Z }.

Definition NewHarness (c : Cluster W) : Harness := MkHarness c 0 0 [].

Definition with_cluster (h : Harness) (c : Cluster W) : Harness := MkHarness c (h_clock h) (h_nextID h) (h_ops h).

Definition Invoke (h : Harness) (clientID : bytes) (requestID : Z) (kind : OpKind) (node key value : bytes) : Harness * PendingOp :=
  let id := h_nextID h + 1 in
  let tick := h_clock h + 1 in
  (MkHarness (h_cluster h) tick id (h_ops h), MkPending id clientID requestID kind node key value tick).

(** What resolving found out: [Outcome], [Found], [Result] and [Err]. *)
Record finding := MkFinding { f_outcome : Outcome; f_found : bool; f_result : bytes; f_err : option bytes }.

Definition failed_with (e : chaos_error) : finding := MkFinding OutcomeFailed false [] (Some (err_text e)).
Definition incomplete : finding := MkFinding OutcomeIncomplete false [] None.

Definition writeCommand (p : PendingOp) : Command :=
  if bool_decide (po_kind p = Checker.OpPut) then NewPutCommand (po_clientID p) (po_requestID p) (po_key p) (po_value p)
  else NewDeleteCommand (po_clientID p) (po_requestID p) (po_key p).

Definition resolveWrite (c : Cluster W) (p : PendingOp) (maxRounds : Z) : Cluster W * finding :=
  match Chaos.Propose quote c (po_node p) (writeCommand p) with
  | (c, Err e) => (c, failed_with e)
  | (c, Ok (index, _)) =>
      match WaitForApplied c (po_node p) index maxRounds with
      | (c, Err _) => (c, incomplete)
      | (c, Ok _) => (c, MkFinding OutcomeOK false [] None)
      end
  end.

Definition resolveGet (c : Cluster W) (p : PendingOp) : Cluster W * finding :=
  match Chaos.ConsistentGet quote c (po_node p) (po_key p) with
  | (c, Ok val) => (c, MkFinding OutcomeOK true val None)
  | (c, Err (ErrGet (ErrReadStore StoreErrKeyNotFound))) => (c, MkFinding OutcomeOK false [] None)
  | (c, Err e) => (c, failed_with e)
  end.

(** The end of both ways to resolve: the operation takes a tick, and is
    recorded. *)
Definition conclude (h : Harness) (c : Cluster W) (p : PendingOp) (f : finding) : Harness * Operation :=
  let tick := h_clock h + 1 in
  let complete := if bool_decide (f_outcome f = OutcomeIncomplete) then 0 else tick in
  let op := MkOp (po_id p) (po_clientID p) (po_requestID p) (po_kind p) (po_node p) (po_key p) (po_value p)
                 (po_invoke p) complete (f_outcome f) (f_found f) (f_result f) (f_err f) in
  (MkHarness c tick (h_nextID h) (h_ops h ++ [op]), op).

Definition Resolve (h : Harness) (p : PendingOp) (maxRounds : Z) : Harness * Operation :=
  let '(c, f) := match po_kind p with
                 | Checker.OpPut | Checker.OpDelete => resolveWrite (h_cluster h) p maxRounds
                 | OpGet => resolveGet (h_cluster h) p
                 | OpKindOther _ => (h_cluster h, incomplete)
                 end in
  conclude h c p f.

Definition ResolveInterrupted (h : Harness) (p : PendingOp) (interrupt : Cluster W -> Cluster W) : Harness * Operation :=
  let '(c, f) := match po_kind p with
                 | Checker.OpPut | Checker.OpDelete =>
                     match Chaos.Propose quote (h_cluster h) (po_node p) (writeCommand p) with
                     | (c, Err e) => (c, failed_with e)
                     | (c, Ok _) => (interrupt c, incomplete)
                     end
                 | _ => (h_cluster h, incomplete)
                 end in
  conclude h c p f.

Definition Put (h : Harness) (node clientID : bytes) (requestID : Z) (key value : bytes) (maxRounds : Z) : Harness * Operation :=
  let '(h, p) := Invoke h clientID requestID Checker.OpPut node key value in Resolve h p maxRounds.
Definition Delete (h : Harness) (node clientID : bytes) (requestID : Z) (key : bytes) (maxRounds : Z) : Harness * Operation :=
  let '(h, p) := Invoke h clientID requestID Checker.OpDelete node key [] in Resolve h p maxRounds.
Definition Get (h : Harness) (node clientID : bytes) (requestID : Z) (key : bytes) : Harness * Operation :=
  let '(h, p) := Invoke h clientID requestID OpGet node key [] in Resolve h p 0.

(** ** random.go *)

Record RandomCorrectnessOptions := MkOptions {
  ro_Seed : Z;
  ro_NumOps : Z;
  ro_MaxPending : Z;
  ro_MaxApplyRounds : Z;
  ro_Keys : list bytes;
  ro_InjectFaults : bool }.

Context {R : Type} (Intn : R -> nat -> nat * R) (newRand : Z -> R).

Definition randomKind (r : R) : OpKind * R :=
  let '(k, r) := Intn r 3 in
  (match k with 0%nat => Checker.OpPut | 1%nat => Checker.OpDelete | _ => OpGet end, r).

Definition pickNode (c : Cluster W) (r : R) (kind : OpKind) : option bytes * R :=
  if bool_decide (kind = OpGet) then
    match LiveIDs c with
    | [] => (None, r)
    | live => let '(i, r) := Intn r (length live) in (Some (nth i live []), r)
    end
  else (CurrentLeader c, r).

Definition injectRandomFault (c : Cluster W) (r : R) : Cluster W * bool * R :=
  if bool_decide (length (k_ids c) < 2)%nat then (c, false, r)
  else
    let '(i, r) := Intn r (length (k_ids c)) in
    let id := nth i (k_ids c) [] in
    let '(which, r) := Intn r 2 in
    if IsCrashed c id then (c, false, r)
    else match which with
         | 0%nat => match CrashNode c id with
                    | (c, Err _) => (c, false, r)
                    | (c, Ok _) => ((RestartNode (Advance c 3) id).1, true, r)
                    end
         | _ => (Chaos.Heal (Advance (Chaos.Partition c id) 3) id, true, r)
         end.

Record script := MkScript {
  sc_h : Harness;
  sc_rnd : R;
  sc_pending : list PendingOp;
  sc_invoked : Z;
  sc_clientSeq : Z;
  sc_faultsUsed : Z }.

Definition maxFaults : Z := 2.

(** The invocation branch; without a node to send to, the [continue]. *)
Definition script_invoke (keys : list bytes) (s : script) : script :=
  let seq := sc_clientSeq s + 1 in
  let '(kind, r) := randomKind (sc_rnd s) in
  let '(ki, r) := Intn r (length keys) in
  let key := nth ki keys [] in
  let '(node, r) := pickNode (h_cluster (sc_h s)) r kind in
  match node with
  | None => MkScript (sc_h s) r (sc_pending s) (sc_invoked s) seq (sc_faultsUsed s)
  | Some node =>
      let '(value, r) := if bool_decide (kind = Checker.OpPut)
                         then let '(v, r) := Intn r 1000 in (lit "v" ++ itoa (Z.of_nat v), r) else ([], r) in
      let '(h, p) := Invoke (sc_h s) (lit "rand-client-" ++ itoa seq) (u64 seq) kind node key value in
      MkScript h r (sc_pending s ++ [p]) (sc_invoked s + 1) seq (sc_faultsUsed s)
  end.

(** [rand.Intn n] is below [n], so that the [None] case, where Go would
    panic, does not arise. *)
Definition script_resolve (maxApplyRounds : Z) (s : script) : script :=
  let '(idx, r) := Intn (sc_rnd s) (length (sc_pending s)) in
  match sc_pending s !! idx with
  | None => s
  | Some p => MkScript (Resolve (sc_h s) p maxApplyRounds).1 r (take idx (sc_pending s) ++ drop (S idx) (sc_pending s))
                       (sc_invoked s) (sc_clientSeq s) (sc_faultsUsed s)
  end.

Definition script_fault (opts : RandomCorrectnessOptions) (s : script) : script :=
  if ro_InjectFaults opts && (sc_faultsUsed s <? maxFaults) then
    let '(d, r) := Intn (sc_rnd s) 10 in
    if bool_decide (d = 0%nat) then
      let '(c, fired, r) := injectRandomFault (h_cluster (sc_h s)) r in
      MkScript (with_cluster (sc_h s) c) r (sc_pending s) (sc_invoked s) (sc_clientSeq s)
               (if fired then sc_faultsUsed s + 1 else sc_faultsUsed s)
    else MkScript (sc_h s) r (sc_pending s) (sc_invoked s) (sc_clientSeq s) (sc_faultsUsed s)
  else s.

(** One iteration of the loop. *)
Definition script_step (opts : RandomCorrectnessOptions) (maxPending maxApplyRounds : Z) (keys : list bytes) (s : script) : script :=
  let s := MkScript (with_cluster (sc_h s) (Advance (h_cluster (sc_h s)) 1)) (sc_rnd s) (sc_pending s) (sc_invoked s)
                    (sc_clientSeq s) (sc_faultsUsed s) in
  let s := script_fault opts s in
  let canInvoke := (sc_invoked s <? ro_NumOps opts) && (zlen (sc_pending s) <? maxPending) in
  let canResolve := 0 <? zlen (sc_pending s) in
  if canInvoke then
    if negb canResolve then script_invoke keys s
    else let '(coin, r) := Intn (sc_rnd s) 2 in
         let s := MkScript (sc_h s) r (sc_pending s) (sc_invoked s) (sc_clientSeq s) (sc_faultsUsed s) in
         if bool_decide (coin = 0%nat) then script_invoke keys s else script_resolve maxApplyRounds s
  else if canResolve then script_resolve maxApplyRounds s else s.

Fixpoint script_loop (fuel : nat) (opts : RandomCorrectnessOptions) (maxPending maxApplyRounds : Z) (keys : list bytes)
    (s : script) : script :=
  match fuel with
  | O => s
  | S fuel =>
      if (sc_invoked s <? ro_NumOps opts) || (0 <? zlen (sc_pending s))
      then script_loop fuel opts maxPending maxApplyRounds keys (script_step opts maxPending maxApplyRounds keys s)
      else s
  end.

Definition resolve_all (maxApplyRounds : Z) (h : Harness) (ps : list PendingOp) : Harness :=
  fold_left (fun h p => (Resolve h p maxApplyRounds).1) ps h.

(** The cluster is returned as well, since the run changes it. *)
Definition RunRandomCorrectness (c : Cluster W) (opts : RandomCorrectnessOptions) : Cluster W * option History :=
  if ro_NumOps opts <=? 0 then (c, None)
  else
    let maxPending := if ro_MaxPending opts <=? 0 then 3 else ro_MaxPending opts in
    let maxApplyRounds := if ro_MaxApplyRounds opts <=? 0 then 20 else ro_MaxApplyRounds opts in
    let keys := if bool_decide (ro_Keys opts = []) then [lit "k0"; lit "k1"; lit "k2"] else ro_Keys opts in
    let maxSteps := (ro_NumOps opts + maxPending) * 20 in
    let s := script_loop (Z.to_nat maxSteps) opts maxPending maxApplyRounds keys
               (MkScript (NewHarness c) (newRand (ro_Seed opts)) [] 0 0 0) in
    let h := resolve_all maxApplyRounds (sc_h s) (sc_pending s) in
    (h_cluster h, Some (h_ops h)).

(** ** Recording *)

Implicit Types (h : Harness) (p : PendingOp) (s : script).

Definition known (k : OpKind) : Prop := match k with OpKindOther _ => False | _ => True end.

(** The ticks of the clock that operations carry. *)
Definition ticks_of (op : Operation) : list Z := op_Invoke op :: (if bool_decide (op_Outcome op = OutcomeIncomplete) then [] else [op_Complete op]).
Definition ticks (ops : list Operation) : list Z := ops ≫= ticks_of.

(** What holds of a harness with unresolved operations [ps]. *)
Record recording h (ps : list PendingOp) : Prop := {
  re_ids : (op_ID <$> h_ops h) ++ (po_id <$> ps) ≡ₚ seqZ 1 (h_nextID h);
  re_next : 0 <= h_nextID h;
  re_valid : Forall (fun op => validate_op op = None) (h_ops h);
  re_known : Forall (fun p => known (po_kind p)) ps;
  re_fresh : NoDup (ticks (h_ops h) ++ (po_invoke <$> ps));
  re_past : Forall (fun t => t <= h_clock h) (ticks (h_ops h) ++ (po_invoke <$> ps)) }.

Lemma with_cluster_recording h c ps : recording h ps -> recording (with_cluster h c) ps.
Proof using Type. by intros []. Qed.

Lemma not_past {A} (f : A -> Z) clock (l : list A) (ts : list Z) :
  Forall (fun t => t <= clock) (ts ++ (f <$> l)) -> clock + 1 ∉ ts ++ (f <$> l).
Proof using Type. intros Hp Hin. rewrite Forall_forall in Hp. specialize (Hp _ Hin). cbn in Hp. lia. Qed.

Lemma later (ts : list Z) clock : Forall (fun t => t <= clock) ts -> Forall (fun t => t <= clock + 1) ts.
Proof using Type. intros Hp. eapply Forall_impl; [exact Hp|]. cbn. lia. Qed.

Lemma Invoke_recording h ps client req kind node key value :
  known kind -> recording h ps ->
  recording (Invoke h client req kind node key value).1 (ps ++ [(Invoke h client req kind node key value).2]).
Proof using Type.
  intros Hk [Hid Hn Hv Hkn Hf Hp]. split; cbn.
  - rewrite seqZ_app by lia. rewrite fmap_app, app_assoc, Hid. cbn. by rewrite Z.add_comm.
  - lia.
  - done.
  - apply Forall_app. by split; [|constructor].
  - rewrite fmap_app, app_assoc. cbn. rewrite <- Permutation_cons_append. constructor; [by apply not_past|done].
  - rewrite fmap_app, app_assoc. apply Forall_app. split; [by apply later|]. cbn. constructor; [lia|done].
Qed.

(** A finding fits a kind of operation when the history accepts it. *)
Definition fits (k : OpKind) (f : finding) : Prop :=
  match f_outcome f with
  | OutcomeIncomplete => f_err f = None
  | OutcomeFailed => f_err f <> None
  | OutcomeOK => f_err f = None /\ (k = OpGet -> f_found f = false -> f_result f = []) /\ (k <> OpGet -> f_found f = false)
  | OutcomeOther _ => False
  end.

Lemma conclude_valid h c p f :
  known (po_kind p) -> po_invoke p <= h_clock h -> fits (po_kind p) f -> validate_op (conclude h c p f).2 = None.
Proof using Type.
  intros Hk Hi Hf. unfold validate_op, conclude, fits in *. cbn.
  destruct (po_kind p) eqn:Ek; [..|done]; destruct (f_outcome f) eqn:Eo; try done.
  all: rewrite ?bool_decide_eq_false_2 by done; try (rewrite Hf; done).
  all: rewrite (proj2 (Z.leb_gt _ _)) by lia; try done.
  all: try (destruct Hf as (-> & Hg & Hw); cbn).
  1: destruct (f_found f); [done|]; cbn; by rewrite (Hg eq_refl eq_refl).
  all: by rewrite Hw.
Qed.

Lemma conclude_recording h c ps1 p ps2 f :
  fits (po_kind p) f -> recording h (ps1 ++ p :: ps2) -> recording (conclude h c p f).1 (ps1 ++ ps2).
Proof using Type.
  intros Hf [Hid Hn Hv Hkn Hfr Hp]. apply Forall_app in Hkn as [Hk1 Hk2]. apply Forall_cons in Hk2 as [Hk Hk2].
  assert (po_invoke p <= h_clock h) as Hi.
  { rewrite Forall_forall in Hp. apply (Hp (po_invoke p)), elem_of_app. right. apply list_elem_of_fmap. exists p.
    split; [done|]. apply elem_of_app. right. by left. }
  pose proof (conclude_valid h c p f Hk Hi Hf) as Hval.
  assert (ticks (h_ops h) ++ ticks_of (conclude h c p f).2 ++ (po_invoke <$> ps1 ++ ps2) ≡ₚ
    (if bool_decide (f_outcome f = OutcomeIncomplete) then [] else [h_clock h + 1]) ++
    ticks (h_ops h) ++ (po_invoke <$> ps1 ++ p :: ps2)) as Ht.
  { unfold ticks_of. cbn. rewrite !fmap_app. cbn. destruct (bool_decide _); cbn; solve_Permutation. }
  assert (ticks (h_ops h ++ [(conclude h c p f).2]) = ticks (h_ops h) ++ ticks_of (conclude h c p f).2) as Hs.
  { unfold ticks. rewrite bind_app. cbn. by rewrite app_nil_r. }
  split.
  - cbn. rewrite <- Hid, !fmap_app. cbn. solve_Permutation.
  - done.
  - apply Forall_app. split; [done|]. by constructor.
  - by apply Forall_app.
  - change (h_ops (conclude h c p f).1) with (h_ops h ++ [(conclude h c p f).2]). rewrite Hs, <- app_assoc, Ht.
    destruct (bool_decide _); [done|]. constructor; [by apply not_past|done].
  - change (h_ops (conclude h c p f).1) with (h_ops h ++ [(conclude h c p f).2]). rewrite Hs, <- app_assoc, Ht. cbn.
    apply Forall_app. split; [|by apply later]. destruct (bool_decide _); repeat constructor. lia.
Qed.

Lemma resolveWrite_fits c p maxRounds k : fits k (resolveWrite c p maxRounds).2.
Proof using Type.
  unfold resolveWrite. destruct (Chaos.Propose _ _ _ _) as [c1 [[index t]|e]]; [|done].
  by destruct (WaitForApplied _ _ _ _) as [c2 [u|e]].
Qed.

Lemma resolveGet_fits c p : fits OpGet (resolveGet c p).2.
Proof using Type.
  unfold resolveGet. destruct (Chaos.ConsistentGet _ _ _ _) as [c1 [v|e]]; [by split_and!|]. repeat case_match; by simplify_eq.
Qed.

Lemma Resolve_recording h ps1 p ps2 maxRounds :
  recording h (ps1 ++ p :: ps2) -> recording (Resolve h p maxRounds).1 (ps1 ++ ps2).
Proof using Type.
  intros Hr. unfold Resolve.
  assert (fits (po_kind p) match po_kind p with
                 | Checker.OpPut | Checker.OpDelete => resolveWrite (h_cluster h) p maxRounds
                 | OpGet => resolveGet (h_cluster h) p
                 | OpKindOther _ => (h_cluster h, incomplete)
                 end.2) as Hf by (destruct (po_kind p); [apply resolveGet_fits|apply resolveWrite_fits..|done]).
  destruct (match po_kind p with OpGet => _ | _ => _ end) as [c f]. by apply conclude_recording.
Qed.

Lemma resolve_all_recording maxRounds h ps : recording h ps -> recording (resolve_all maxRounds h ps) [].
Proof using Type.
  revert h. induction ps as [|p ps IH]; intros h Hr; [done|]. apply IH. by apply (Resolve_recording h [] p ps).
Qed.

Lemma Resolve_nextID h p maxRounds : h_nextID (Resolve h p maxRounds).1 = h_nextID h.
Proof using Type. unfold Resolve. by destruct (match po_kind p with OpGet => _ | _ => _ end) as [c f]. Qed.

Lemma resolve_all_nextID maxRounds h ps : h_nextID (resolve_all maxRounds h ps) = h_nextID h.
Proof using Type. revert h. induction ps as [|p ps IH]; intros h; [done|]. unfold resolve_all in *. cbn. by rewrite IH, Resolve_nextID. Qed.

(** ** The random script *)

(** The loop's invariant: what is invoked and not recorded is pending. *)
Record scripted (opts : RandomCorrectnessOptions) (maxPending : Z) s : Prop := {
  si_recording : recording (sc_h s) (sc_pending s);
  si_invoked : sc_invoked s = h_nextID (sc_h s);
  si_bound : sc_invoked s <= ro_NumOps opts;
  si_pending : zlen (sc_pending s) <= maxPending;
  si_faults : sc_faultsUsed s <= maxFaults }.

Lemma script_fault_scripted opts maxPending s : scripted opts maxPending s -> scripted opts maxPending (script_fault opts s).
Proof using Type.
  intros [Hr Hi Hb Hp Hf]. unfold script_fault. destruct (_ && _) eqn:E; [|done].
  apply andb_prop in E as [_ E]. apply Z.ltb_lt in E. destruct (Intn _ _) as [d r]. case_bool_decide; [|done].
  destruct (injectRandomFault _ _) as [[c fired] r']. split; [by apply with_cluster_recording|done..|].
  cbn. destruct fired; lia.
Qed.

Lemma script_invoke_scripted opts maxPending keys s :
  sc_invoked s < ro_NumOps opts -> zlen (sc_pending s) < maxPending ->
  scripted opts maxPending s -> scripted opts maxPending (script_invoke keys s).
Proof using Type.
  intros Hn Hm [Hr Hi Hb Hp Hf]. unfold script_invoke, randomKind. destruct (Intn (sc_rnd s) 3) as [k r].
  destruct (Intn r _) as [ki r1]. destruct (pickNode _ _ _) as [[node|] r2]; [|done].
  destruct (if bool_decide _ then _ else _) as [value r3]. set (kind := match k with O => _ | S _ => _ end).
  pose proof (Invoke_recording (sc_h s) (sc_pending s) (lit "rand-client-" ++ itoa (sc_clientSeq s + 1))
    (u64 (sc_clientSeq s + 1)) kind node (nth ki keys []) value) as F.
  split; cbn in *; [|lia|lia| |done].
  - apply F; [|done]. by destruct k as [|[|]].
  - unfold zlen in *. rewrite length_app. cbn. lia.
Qed.

Lemma script_resolve_scripted opts maxPending rounds s :
  scripted opts maxPending s -> scripted opts maxPending (script_resolve rounds s).
Proof using Type.
  intros [Hr Hi Hb Hp Hf]. unfold script_resolve. destruct (Intn _ _) as [idx r].
  destruct (sc_pending s !! idx) as [p|] eqn:E; [|done]. pose proof (take_drop_middle _ _ _ E) as Ed.
  rewrite <- Ed in Hr. split; cbn; [by apply Resolve_recording|by rewrite Resolve_nextID|done| |done].
  unfold zlen in *. rewrite <- Ed in Hp. rewrite length_app in *. cbn in Hp. lia.
Qed.

Lemma script_step_scripted opts maxPending rounds keys s :
  scripted opts maxPending s -> scripted opts maxPending (script_step opts maxPending rounds keys s).
Proof using Type.
  intros Hs. unfold script_step. set (s1 := MkScript _ _ _ _ _ _).
  assert (scripted opts maxPending s1) as H1 by (destruct Hs; split; [by apply with_cluster_recording|done..]).
  apply script_fault_scripted in H1. destruct (script_fault opts s1) as [h r ps inv cl fa]. cbn.
  destruct ((inv <? _) && _) eqn:E.
  - apply andb_prop in E as [E1 E2]. apply Z.ltb_lt in E1, E2. destruct (negb _).
    + by apply script_invoke_scripted.
    + destruct (Intn r 2) as [coin r']. assert (scripted opts maxPending (MkScript h r' ps inv cl fa)) by (by destruct H1).
      case_bool_decide; [by apply script_invoke_scripted|by apply script_resolve_scripted].
  - destruct (0 <? _); [by apply script_resolve_scripted|done].
Qed.

Lemma script_loop_scripted fuel opts maxPending rounds keys s :
  scripted opts maxPending s -> scripted opts maxPending (script_loop fuel opts maxPending rounds keys s).
Proof using Type.
  revert s. induction fuel as [|k IH]; intros s Hs; cbn; [done|]. destruct (_ || _); [|done].
  by apply IH, script_step_scripted.
Qed.

Lemma scripted_start opts maxPending c r : 0 < ro_NumOps opts -> 0 <= maxPending ->
  scripted opts maxPending (MkScript (NewHarness c) r [] 0 0 0).
Proof using Type. intros Hn Hm. repeat split; cbn; try done; [constructor|lia]. Qed.

Lemma validate_from_fresh (ops : list Operation) seen :
  Forall (fun op => validate_op op = None) ops -> NoDup (op_ID <$> ops) -> (forall op, op ∈ ops -> op_ID op ∉ seen) ->
  validate_from seen ops = None.
Proof using Type.
  revert seen. induction ops as [|op ops IH]; intros seen Hv Hn Hs; [done|]. cbn in *.
  apply Forall_cons in Hv as [Ho Hv]. apply NoDup_cons in Hn as [Hni Hn].
  rewrite bool_decide_eq_false_2 by (apply Hs; by left). rewrite Ho. apply IH; [done..|].
  intros op' Hin. rewrite elem_of_union, elem_of_singleton. intros [E|E]; [|eapply Hs; [by right|done]].
  apply Hni. rewrite <- E. by apply list_elem_of_fmap_2.
Qed.

Lemma recorded_history h : recording h [] ->
  Validate (h_ops h) = None /\ (op_ID <$> h_ops h) ≡ₚ seqZ 1 (h_nextID h) /\ NoDup (ticks (h_ops h)).
Proof using Type.
  intros [Hid _ Hv _ Hf _]. rewrite !app_nil_r in *. split_and!; [|done..].
  apply validate_from_fresh; [done| |set_solver]. rewrite Hid. apply NoDup_seqZ.
Qed.
End Harness.

(** ** Theorems *)

(** A random correctness run asks for at least one operation or is
    refused. Otherwise the history it returns is one the checker accepts as
    well-formed: each operation it invoked, numbered from 1 and at most
    [NumOps] of them, is recorded exactly once, whatever the cluster, the
    injected faults and the random choices did, and no two invocations or
    completions share a tick, so that real time orders them. *)
Theorem random_run_records_every_operation {W R} `{Fleet W} (quote : bytes -> bytes) (err_text : chaos_error -> bytes)
    (Intn : R -> nat -> nat * R) (newRand : Z -> R) (c : Cluster W) opts :
  match (RunRandomCorrectness quote err_text Intn newRand c opts).2 with
  | None => ro_NumOps opts <= 0
  | Some ops => 0 < ro_NumOps opts /\ Validate ops = None /\ NoDup (ticks ops) /\
      exists n, 0 <= n <= ro_NumOps opts /\ (op_ID <$> ops) ≡ₚ seqZ 1 n
  end.
Proof.
  unfold RunRandomCorrectness. destruct (_ <=? 0) eqn:E; [by apply Z.leb_le|]. apply Z.leb_gt in E. cbn.
  set (mp := if _ <=? 0 then 3 else _). assert (0 <= mp) as Hmp by (unfold mp; destruct (Z.leb_spec (ro_MaxPending opts) 0); lia).
  set (s := script_loop _ _ _ _ _ _ _ _ _).
  assert (scripted opts mp s) as [Hr Hi Hb _ _] by (by apply script_loop_scripted, scripted_start).
  pose proof (re_next _ _ Hr). apply (resolve_all_recording quote err_text) with (maxRounds := if ro_MaxApplyRounds opts <=? 0 then 20 else ro_MaxApplyRounds opts) in Hr.
  apply recorded_history in Hr as (Hv & Hid & Ht). rewrite resolve_all_nextID in Hid. split_and!; [done..|].
  exists (h_nextID (sc_h s)). split; [lia|done].
Qed.

(** ** A lost write recorded as successful *)

Definition no_text (e : chaos_error) : bytes := lit "error".

(** Node 0 led, was cut off, and is back; node 1 leads and has committed one
    entry of its own. *)
Definition two_leaders : Cluster lab :=
  let c := Advance (ElectLeader (Chaos.Partition (ElectLeader start node0).1 node0) node1).1 1 in
  let c := (Chaos.Propose plain c node1 (NewPutCommand (lit "w") 1 (lit "a") (lit "1"))).1 in
  Chaos.Heal (Advance c 1) node0.

Definition holds_key (key : bytes) (id : bytes) (c : Cluster lab) : bool :=
  match LogicalState c id with Ok m => bool_decide (is_Some (m !! key)) | Err _ => true end.

(** A write is recorded as [OutcomeOK] when its node has applied any
    entry at the index the write was given: a write proposed on a deposed
    leader and overwritten by its successor's entry is recorded as
    successful, although no node ever applies it; the history is then not
    linearizable by the fault of the harness and not of the cluster. *)
Theorem lost_write_recorded_ok :
  let r := Put plain no_text (NewHarness two_leaders) node0 (lit "c") 1 (lit "k") (lit "v") 20 in
  (op_Outcome <$> h_ops r.1 = [OutcomeOK]) /\ AssertInvariants (h_cluster r.1) = None /\
  ((fun id => holds_key (lit "k") id (h_cluster r.1)) <$> [node0; node1; node2]) = [false; false; false] /\
  ((fun id => holds_key (lit "a") id (h_cluster r.1)) <$> [node0; node1; node2]) = [true; true; true].
Proof. intros r. unfold r. split_and!; vm_compute; reflexivity. Qed.
