(* ===== verification/Api.v ===== *)
(** * The HTTP API

    internal/api: auth.go, cors.go, kv.go and server.go. A [Server] is the
    source's struct with the node it serves; a handler is a function from the
    process state and the request to the new state and the response, and
    [gap]s are what the process's other goroutines (other requests included)
    do between two of its steps. Requests are those [http.ServeMux] does not
    redirect, their path being clean. The metrics, which the [instrument]
    wrapper adds, are in the file Observability; the access log is left out. *)

From S2P Require Import Prelude Bytes Codec Wal SkipList MemStore Command StateMachine Http.
From S2P Require Import SmSnapshot RaftLog RaftFormat RaftPersist RaftNode RaftElection RaftDurable RaftCommit.
From S2P Require Import Applier DbNode.
From stdpp Require Import base tactics list numbers gmap.
From Stdlib Require Import Strings.Byte.
From Stdlib Require Import ZArith Lia.
From Stdlib Require String.
Import String.StringSyntax.
#[local] Open Scope Z_scope.

Record Server := MkServer {
  node : DbNode;
  peerHTTP : gmap bytes bytes;
  clientID : bytes;
  reqSeq : Z;
  apiToken : bytes;
  maxValueBytes : Z;
  corsOrigins : list bytes }.

#[export] Instance Server_hosts : Hosts Server := {
  node_in := node;
  put_node s d := MkServer d (peerHTTP s) (clientID s) (reqSeq s) (apiToken s) (maxValueBytes s) (corsOrigins s);
  node_in_put _ _ := eq_refl }.

Definition kvClientIDPrefix : bytes := lit "forgedb-http-api-".
Definition DefaultMaxValueBytes : Z := 2 ^ 20.

Inductive Option := WithPeerHTTPAddrs (m : gmap bytes bytes) | WithMaxValueBytes (n : Z) | WithCORSOrigins (l : list bytes).

Definition apply_option (s : Server) (o : Option) : Server :=
  match o with
  | WithPeerHTTPAddrs m => MkServer (node s) m (clientID s) (reqSeq s) (apiToken s) (maxValueBytes s) (corsOrigins s)
  | WithMaxValueBytes n =>
      if n >? 0 then MkServer (node s) (peerHTTP s) (clientID s) (reqSeq s) (apiToken s) n (corsOrigins s) else s
  | WithCORSOrigins l => MkServer (node s) (peerHTTP s) (clientID s) (reqSeq s) (apiToken s) (maxValueBytes s) l
  end.

(** [now] is the wall clock, in nanoseconds. *)
Definition NewServer (d : DbNode) (token : bytes) (now : Z) (opts : list Option) : Server :=
  fold_left apply_option opts
    (MkServer d ∅ (kvClientIDPrefix ++ db_id d) (u64 now) token DefaultMaxValueBytes []).

(** ** Responses *)

Inductive api_body :=
| NoBody
| Text (message : bytes)
(** The message, a colon and the error's own text. *)
| Failure (message : bytes)
| Value (value : bytes)
| StatusJSON (what : bytes)
| NotLeaderJSON (leader_id leader_http : bytes)
| ReadUnavailableJSON
| SnapshotJSON (index : Z)
| HealthJSON (node_id : bytes)
| ReadyJSON (node_id : bytes) (ready : bool)
| ClusterJSON (status : DbStatus)
| MetricsText.

Record api_response := MkApi { code : Z; resp_headers : header; body : api_body }.

Definition with_headers (h : header) (r : api_response) : api_response := MkApi (code r) (h ++ resp_headers r) (body r).

Definition Content_Type : bytes := lit "Content-Type".
Definition application_json : bytes := lit "application/json; charset=utf-8".

(** The body's text is in the file ApiJson. *)
Definition writeJSON (c : Z) (b : api_body) : api_response := MkApi c [(Content_Type, [application_json])] b.

(** [http.Error]. *)
Definition text_headers : header :=
  [(Content_Type, [lit "text/plain; charset=utf-8"]); (lit "X-Content-Type-Options", [lit "nosniff"])].
Definition http_Error (msg : bytes) (c : Z) : api_response := MkApi c text_headers (Text msg).
Definition http_Failure (msg : bytes) (c : Z) : api_response := MkApi c text_headers (Failure msg).

(** ** Authentication: auth.go *)

Definition bearerScheme : bytes := lit "Bearer".

(** [subtle.ConstantTimeCompare] is equality. *)
Definition bearerTokenValid (r : request) (token : bytes) : bool :=
  match cut_at x20 (header_Get (r_header r) Authorization) with
  | None => false
  | Some (scheme, credential) =>
      if negb (EqualFold scheme bearerScheme) || bool_decide (credential = []) then false
      else bool_decide (credential = token)
  end.

(** A handler on any state that has a [Server] in it. *)
Definition handler_of (T : Type) : Type := T -> request -> T * api_response.
Abbreviation handler := (handler_of Server).
Class Serves (T : Type) := server_of : T -> Server.
#[export] Instance Server_serves : Serves Server := fun s => s.

Definition authMiddleware {T} (token : bytes) (h : handler_of T) : handler_of T := fun s r =>
  if negb (bearerTokenValid r token)
  then (s, with_headers [(lit "Www-Authenticate", [bearerScheme])] (http_Error (lit "unauthorized") 401))
  else h s r.

(** ** Cross-origin requests: cors.go *)

Definition isAllowedOrigin (s : Server) (origin : bytes) : bool :=
  existsb (fun o => bool_decide (o = origin)) (corsOrigins s).

Definition corsAllowedMethods : bytes := lit "GET, PUT, POST, DELETE, OPTIONS".
Definition corsAllowedHeaders : bytes := lit "Authorization, Content-Type, Accept".
Definition corsMaxAgeSeconds : bytes := lit "600".

Definition cors {T} `{Serves T} (h : handler_of T) : handler_of T := fun s r =>
  let origin := header_Get (r_header r) (lit "Origin") in
  let allowed := negb (bool_decide (origin = [])) && isAllowedOrigin (server_of s) origin in
  let vary := (lit "Vary", [lit "Origin"]) ::
              (if allowed then [(lit "Access-Control-Allow-Origin", [origin])] else []) in
  if bool_decide (r_method r = MethodOptions) then
    (s, MkApi 204 (vary ++ (if allowed then [(lit "Access-Control-Allow-Methods", [corsAllowedMethods]);
                                             (lit "Access-Control-Allow-Headers", [corsAllowedHeaders]);
                                             (lit "Access-Control-Max-Age", [corsMaxAgeSeconds])] else [])) NoBody)
  else let '(s, resp) := h s r in (s, with_headers vary resp).

Definition readOnly {T} (h : handler_of T) : handler_of T := fun s r =>
  if negb (bool_decide (r_method r = MethodGet))
  then (s, with_headers [(lit "Allow", [MethodGet])] (http_Error (lit "method not allowed: this endpoint is read-only") 405))
  else h s r.

(** ** Diagnostics: server.go *)

Definition handleHealth : handler := fun s _ => (s, writeJSON 200 (HealthJSON (db_id (node s)))).

Definition healthCheckKey : bytes := lit "__forgedb_health_check__".

Definition handleReady : handler := fun s _ =>
  match store_Get (db_store (node s)) healthCheckKey with
  | Ok _ | Err StoreErrKeyNotFound => (s, writeJSON 200 (ReadyJSON (db_id (node s)) true))
  | Err _ => (s, writeJSON 503 (ReadyJSON (db_id (node s)) false))
  end.

Definition handleMetrics : handler := fun s _ => (s, MkApi 200 [(Content_Type, [lit "text/plain; version=0.0.4; charset=utf-8"])] MetricsText).
Definition handleCluster : handler := fun s _ => (s, writeJSON 200 (ClusterJSON (Status (node s)))).

(** ** Keys and values: kv.go *)

(** What a request meets: the body reads, the RPCs of a proposal and so on
    are others' doing. *)
Record api_env := MkApiEnv {
  gap_propose : Server -> Server;
  env_faults : faults;
  gap_leader : Server -> Server;
  env_start : Server -> Server;
  env_wakes : list ((Server -> Server) * wake);
  env_reads : read_surroundings Server;
  gap_snapshot : Server -> Server;
  env_snapshot : surroundings store_env;
  env_order : list (bytes * dedupEntry) }.

Definition nextRequestID (s : Server) : Server * Z :=
  let seq := u64 (reqSeq s + 1) in
  (MkServer (node s) (peerHTTP s) (clientID s) seq (apiToken s) (maxValueBytes s) (corsOrigins s), seq).

Definition writeNotLeader (s : Server) : api_response :=
  let leader := leaderID (db_raft (node s)) in
  writeJSON 421 (NotLeaderJSON leader (if bool_decide (leader = []) then [] else default [] (peerHTTP s !! leader))).

(** The route table of [NewServer]. *)
Inductive route := Health | Ready | Metrics | Cluster | KV | AdminSnapshot | NotFound.
#[export] Instance route_eq_dec : EqDecision route.
Proof. solve_decision. Defined.

Section Handlers.
Context (e : api_env).

Definition proposeAndRespond (s : Server) (cmd : Command) : Server * api_response :=
  match Propose (node s) (env_faults e) cmd with
  | (d, _, Err (ErrRaft ErrNotLeader)) =>
      let s := gap_leader e (put_node s d) in (s, writeNotLeader s)
  | (d, _, Err _) => (put_node s d, http_Failure (lit "propose failed") 500)
  | (d, _, Ok (index, _)) =>
      match WaitApplied (env_start e (put_node s d)) (env_wakes e) index with
      | (s, false) => (s, http_Failure (lit "timed out waiting for write to apply") 504)
      | (s, true) => (s, writeJSON 200 (StatusJSON (if bool_decide (Op cmd = OpDelete) then lit "deleted" else lit "ok")))
      end
  end.

Definition handleKVPut (s : Server) (r : request) (key : bytes) : Server * api_response :=
  match r_body r with
  | None => (s, http_Error (lit "request body too large or unreadable") 413)
  | Some value =>
      if zlen value >? maxValueBytes s then (s, http_Error (lit "request body too large or unreadable") 413)
      else let '(s, id) := nextRequestID s in
           proposeAndRespond (gap_propose e s) (NewPutCommand (clientID s) id key value)
  end.

Definition handleKVDelete (s : Server) (key : bytes) : Server * api_response :=
  let '(s, id) := nextRequestID s in
  proposeAndRespond (gap_propose e s) (NewDeleteCommand (clientID s) id key).

Definition handleKVGet (s : Server) (key : bytes) : Server * api_response :=
  match ConsistentGet s (env_reads e) key with
  | (s, Ok value) => (s, MkApi 200 [(Content_Type, [lit "application/octet-stream"])] (Value value))
  | (s, Err (ErrReadStore StoreErrKeyNotFound)) => (s, http_Error (lit "key not found") 404)
  | (s, Err (ErrReadRaft ErrNotLeader)) => let s := gap_leader e s in (s, writeNotLeader s)
  | (s, Err (ErrReadRaft ErrReadBarrierUnavailable)) => (s, writeJSON 503 ReadUnavailableJSON)
  | (s, Err ErrDeadline) => (s, http_Failure (lit "timed out establishing a consistent read") 504)
  | (s, Err _) => (s, http_Failure (lit "read failed") 500)
  end.

(** [strings.TrimPrefix(path, "/kv/")]. *)
Definition key_of (path : bytes) : bytes :=
  if bool_decide (take 4 path = lit "/kv/") then drop 4 path else path.

Definition handleKV : handler := fun s r =>
  let key := key_of (r_path r) in
  if bool_decide (key = []) then (s, http_Error (lit "missing key: expected /kv/{key}") 400)
  else if bool_decide (r_method r = MethodPut) then handleKVPut s r key
  else if bool_decide (r_method r = MethodGet) then handleKVGet s key
  else if bool_decide (r_method r = MethodDelete) then handleKVDelete s key
  else (s, with_headers [(lit "Allow", [lit "GET, PUT, DELETE"])] (http_Error (lit "method not allowed") 405)).

Definition handleAdminSnapshot : handler := fun s r =>
  if negb (bool_decide (r_method r = MethodPost))
  then (s, with_headers [(lit "Allow", [MethodPost])] (http_Error (lit "method not allowed: use POST") 405))
  else
    let index := lastApplied (db_raft (node s)) in
    let s := gap_snapshot e s in
    match CreateSnapshot (node s) (env_snapshot e) (env_faults e) (env_order e) index with
    | (d, Ok _) => (put_node s d, writeJSON 200 (SnapshotJSON index))
    | (d, Err _) => (put_node s d, http_Failure (lit "create snapshot failed") 500)
    end.

Definition route_of (path : bytes) : route :=
  if bool_decide (path = lit "/health") then Health
  else if bool_decide (path = lit "/ready") then Ready
  else if bool_decide (path = lit "/metrics") then Metrics
  else if bool_decide (path = lit "/cluster") then Cluster
  else if bool_decide (take 4 path = lit "/kv/") then KV
  else if bool_decide (path = lit "/admin/snapshot") then AdminSnapshot
  else NotFound.

Definition ServeHTTP : handler := fun s r =>
  match route_of (r_path r) with
  | Health => cors (readOnly handleHealth) s r
  | Ready => cors (readOnly handleReady) s r
  | Metrics => cors (authMiddleware (apiToken s) (readOnly handleMetrics)) s r
  | Cluster => cors (authMiddleware (apiToken s) (readOnly handleCluster)) s r
  | KV => cors (authMiddleware (apiToken s) handleKV) s r
  | AdminSnapshot => cors (authMiddleware (apiToken s) handleAdminSnapshot) s r
  | NotFound => (s, http_Error (lit "404 page not found") 404)
  end.
End Handlers.

(** ** Access control *)

(** Only "Bearer", a space and the exact token, in that order, is let
    through. *)
Lemma bearerTokenValid_spec r token :
  bearerTokenValid r token = true <->
  token <> [] /\ exists scheme, EqualFold scheme bearerScheme = true /\ x20 ∉ scheme /\
    header_Get (r_header r) Authorization = scheme ++ x20 :: token.
Proof.
  unfold bearerTokenValid. destruct (cut_at _ _) as [[scheme cred]|] eqn:E.
  - apply cut_at_spec in E as [E Hs]. rewrite E. split.
    + case_if; [done|]. zbool. intros ->%bool_decide_eq_true. split; [done|]. by exists scheme.
    + intros (Ht & scheme' & Hf & Hs' & E').
      assert (Some (scheme, cred) = Some (scheme', token)) as [= -> ->].
      { rewrite <- (proj2 (cut_at_spec _ _ _ _) (conj E' Hs')). symmetry. by apply cut_at_spec. }
      rewrite Hf. by rewrite (bool_decide_eq_false_2 _ Ht), (bool_decide_eq_true_2 _ eq_refl).
  - split; [done|]. intros (_ & scheme & _ & Hs & E'). by rewrite (proj2 (cut_at_spec _ _ _ _) (conj E' Hs)) in E.
Qed.

Definition protected (rt : route) : bool :=
  match rt with Metrics | Cluster | KV | AdminSnapshot => true | _ => false end.

(** The requests that may change anything. *)
Definition acts (r : request) : Prop :=
  (route_of (r_path r) = KV /\ (r_method r = MethodPut \/ r_method r = MethodGet \/ r_method r = MethodDelete)) \/
  (route_of (r_path r) = AdminSnapshot /\ r_method r = MethodPost).

Definition allow_origin : bytes := lit "Access-Control-Allow-Origin".

(** [h]'s responses leave the cross-origin header to [cors]. *)
Definition plain (h : handler) : Prop := forall s r v, (allow_origin, v) ∉ resp_headers (h s r).2.

Lemma not_allow_origin (v : list bytes) (h : header) : existsb (fun kv => bool_decide (kv.1 = allow_origin)) h = false -> (allow_origin, v) ∉ h.
Proof.
  intros Hh Hin. apply not_true_iff_false in Hh. apply Hh, existsb_exists. exists (allow_origin, v).
  split; [by apply list_elem_of_In|by apply bool_decide_eq_true].
Qed.

Ltac plain_headers := apply not_allow_origin; reflexivity.

Lemma plain_readOnly (h : handler) : plain h -> plain (readOnly h).
Proof. intros Hh s r v. unfold readOnly. case_if; [plain_headers|apply Hh]. Qed.

Lemma plain_auth token (h : handler) : plain h -> plain (authMiddleware token h).
Proof. intros Hh s r v. unfold authMiddleware. case_if; [plain_headers|apply Hh]. Qed.

Lemma plain_handleReady : plain handleReady.
Proof. intros s r v. unfold handleReady. repeat case_match; plain_headers. Qed.

Lemma plain_proposeAndRespond e s cmd v : (allow_origin, v) ∉ resp_headers (proposeAndRespond e s cmd).2.
Proof. unfold proposeAndRespond. repeat case_match; plain_headers. Qed.

Lemma plain_handleKV e : plain (handleKV e).
Proof.
  intros s r v. unfold handleKV. case_if; [plain_headers|]. case_if.
  { unfold handleKVPut. destruct (r_body r); [|plain_headers]. case_if; [plain_headers|]. apply plain_proposeAndRespond. }
  case_if.
  { unfold handleKVGet. repeat case_match; plain_headers. }
  case_if; [apply plain_proposeAndRespond|plain_headers].
Qed.

Lemma plain_handleAdminSnapshot e : plain (handleAdminSnapshot e).
Proof. intros s r v. unfold handleAdminSnapshot. repeat case_match; plain_headers. Qed.

Lemma isAllowedOrigin_spec s o : isAllowedOrigin s o = true <-> o ∈ corsOrigins s.
Proof.
  unfold isAllowedOrigin. rewrite existsb_exists. setoid_rewrite bool_decide_eq_true.
  setoid_rewrite <-list_elem_of_In. naive_solver.
Qed.

(** The origin a browser is told it may read the response from. *)
Definition reflects_allowed (s : Server) (r : request) (resp : api_response) : Prop :=
  forall v, (allow_origin, v) ∈ resp_headers resp ->
    v = [header_Get (r_header r) (lit "Origin")] /\ header_Get (r_header r) (lit "Origin") ∈ corsOrigins s.

Lemma cors_spec (h : handler) s r :
  plain h ->
  reflects_allowed s r (cors h s r).2 /\
  (r_method r = MethodOptions -> (cors h s r).1 = s /\ code (cors h s r).2 = 204) /\
  (r_method r <> MethodOptions -> (cors h s r).1 = (h s r).1 /\ code (cors h s r).2 = code (h s r).2 /\
    body (cors h s r).2 = body (h s r).2).
Proof.
  intros Hh. unfold cors. cbv zeta. set (o := header_Get _ _). set (allowed := _ && _).
  assert (Hvary : forall v, (allow_origin, v) ∈ (lit "Vary", [lit "Origin"]) :: (if allowed then [(allow_origin, [o])] else []) ->
    v = [o] /\ o ∈ corsOrigins s).
  { intros v [Hv|Hv]%elem_of_cons; [discriminate Hv|]. destruct allowed eqn:Ea; [|by apply not_elem_of_nil in Hv].
    apply list_elem_of_singleton in Hv. injection Hv as ->. split; [done|].
    subst allowed. zbool. by apply isAllowedOrigin_spec. }
  case_bool_decide as Hm; (split; [|split; [done|]]); try done.
  - intros v. cbn [resp_headers snd]. rewrite elem_of_app. intros [Hv|Hv]; [by apply Hvary|]. exfalso.
    destruct allowed; [|by apply not_elem_of_nil in Hv]. revert Hv.
    rewrite !elem_of_cons, elem_of_nil. intros [Hv|[Hv|[Hv|[]]]]; discriminate Hv.
  - intros v. pose proof (Hh s r v) as Hp. destruct (h s r) as [s' resp]. cbn [resp_headers snd with_headers] in *.
    rewrite elem_of_app. intros [Hv|Hv]; [by apply Hvary|done].
  - intros _. by destruct (h s r).
Qed.

Lemma readOnly_pure (h : handler) s r : (forall s r, (h s r).1 = s) -> (readOnly h s r).1 = s.
Proof. intros Hh. unfold readOnly. by case_if. Qed.

Lemma handleReady_pure s r : (handleReady s r).1 = s.
Proof. unfold handleReady. by repeat case_match. Qed.

(** The server's handler without the outermost wrapper. *)
Definition inner (e : api_env) (s : Server) (rt : route) : handler :=
  match rt with
  | Health => readOnly handleHealth
  | Ready => readOnly handleReady
  | Metrics => authMiddleware (apiToken s) (readOnly handleMetrics)
  | Cluster => authMiddleware (apiToken s) (readOnly handleCluster)
  | KV => authMiddleware (apiToken s) (handleKV e)
  | AdminSnapshot => authMiddleware (apiToken s) (handleAdminSnapshot e)
  | NotFound => fun s _ => (s, http_Error (lit "404 page not found") 404)
  end.

Lemma ServeHTTP_inner e s r :
  ServeHTTP e s r = match route_of (r_path r) with
                    | NotFound => inner e s NotFound s r
                    | rt => cors (inner e s rt) s r
                    end.
Proof. unfold ServeHTTP. by destruct (route_of _). Qed.

Lemma plain_inner e s rt : plain (inner e s rt).
Proof.
  destruct rt; cbn [inner]; try apply plain_auth; try apply plain_readOnly; try (intros ???; solve [plain_headers]);
    auto using plain_handleReady, plain_handleKV, plain_handleAdminSnapshot.
Qed.

Lemma inner_quiet e s r : ~ acts r -> (inner e s (route_of (r_path r)) s r).1 = s.
Proof.
  intros Ha. unfold acts in Ha. destruct (route_of (r_path r)); cbn [inner]; unfold authMiddleware;
    try case_if; try done; try (apply readOnly_pure; done || apply handleReady_pure).
  - unfold handleKV. repeat case_if; zbool; try done; naive_solver.
  - unfold handleAdminSnapshot. case_if; [done|]. zbool. naive_solver.
Qed.

Lemma inner_denied e s r :
  protected (route_of (r_path r)) = true -> bearerTokenValid r (apiToken s) = false ->
  (inner e s (route_of (r_path r)) s r).1 = s /\ code (inner e s (route_of (r_path r)) s r).2 = 401.
Proof.
  intros Hp Hb. destruct (route_of (r_path r)); try done; cbn [inner]; unfold authMiddleware; by rewrite Hb.
Qed.

Lemma ServeHTTP_denied e s r :
  protected (route_of (r_path r)) = true -> r_method r <> MethodOptions -> bearerTokenValid r (apiToken s) = false ->
  (ServeHTTP e s r).1 = s /\ code (ServeHTTP e s r).2 = 401.
Proof.
  intros Hp Hm Hb. rewrite ServeHTTP_inner. destruct (decide (route_of (r_path r) = NotFound)) as [Hn|Hn]; [by rewrite Hn in Hp|].
  destruct (cors_spec (inner e s (route_of (r_path r))) s r (plain_inner _ _ _)) as (_ & _ & H3).
  destruct (H3 Hm) as (E1 & E2 & _). destruct (inner_denied e s r Hp Hb) as [D1 D2].
  by destruct (route_of (r_path r)); try done; rewrite E1, E2.
Qed.

(** C20. Nothing behind the API is reachable without the token: a request to
    a protected route that does not carry "Bearer" and the exact token gets
    401 and changes nothing (none is let through when the token is empty);
    a preflight gets 204 and changes nothing; only PUT, GET and DELETE on a
    key and POST on the snapshot trigger can change anything at all; and no
    response names a cross-origin reader other than the request's own origin,
    when that is on the configured list. *)
Theorem ServeHTTP_authorised e s r :
  let '(s', resp) := ServeHTTP e s r in
  (protected (route_of (r_path r)) = true -> r_method r <> MethodOptions ->
   ~ (apiToken s <> [] /\ exists scheme, EqualFold scheme bearerScheme = true /\ x20 ∉ scheme /\
        header_Get (r_header r) Authorization = scheme ++ x20 :: apiToken s) ->
   s' = s /\ code resp = 401) /\
  (route_of (r_path r) <> NotFound -> r_method r = MethodOptions -> s' = s /\ code resp = 204) /\
  (~ acts r -> s' = s) /\
  reflects_allowed s r resp.
Proof.
  destruct (ServeHTTP e s r) as [s' resp] eqn:E. rewrite ServeHTTP_inner in E.
  pose proof (inner_quiet e s r) as Hq. pose proof (inner_denied e s r) as Hd.
  destruct (decide (route_of (r_path r) = NotFound)) as [Hn|Hn].
  { rewrite Hn in *. injection E as <- <-. split_and!; try done. intros v Hv. exfalso. revert Hv. by apply not_allow_origin. }
  assert (cors (inner e s (route_of (r_path r))) s r = (s', resp)) as E' by by destruct (route_of (r_path r)).
  destruct (cors_spec (inner e s (route_of (r_path r))) s r (plain_inner _ _ _)) as (H1 & H2 & H3).
  rewrite E' in *. cbn [fst snd] in *. rewrite <- bearerTokenValid_spec, not_true_iff_false. split; [|split; [|split; [|exact H1]]].
  - intros Hp Hm Hb. destruct (H3 Hm) as (-> & -> & _). by apply Hd.
  - intros _ Hm. by apply H2.
  - intros Ha. destruct (decide (r_method r = MethodOptions)) as [Hm|Hm]; [by apply H2|].
    destruct (H3 Hm) as (-> & _). by apply Hq.
Qed.

(** ** What a successful write means *)

(** A client's deduplication record is of one of its commands. *)
Lemma dedup_origin m cmds cid d :
  (spec_run (m, ∅) cmds).1.2 !! cid = Some d ->
  exists i c, cmds !! i = Some c /\ ClientID c = cid /\ RequestID c = d_requestID d.
Proof.
  revert d. induction cmds as [|c cmds IH] using rev_ind; intros d; [cbn; by rewrite lookup_empty|].
  rewrite spec_run_app. cbn [spec_run]. set (s := (spec_run (m, ∅) cmds).1) in *.
  assert (Hold : s.2 !! cid = Some d ->
    exists i c0, (cmds ++ [c]) !! i = Some c0 /\ ClientID c0 = cid /\ RequestID c0 = d_requestID d).
  { intros (i & c0 & Hi & H)%IH. exists i, c0. by rewrite lookup_app_l by (by eapply lookup_lt_Some). }
  assert (Hnew : forall res, (<[ClientID c := record_of c res]> s.2) !! cid = Some d ->
    exists i c0, (cmds ++ [c]) !! i = Some c0 /\ ClientID c0 = cid /\ RequestID c0 = d_requestID d).
  { intros res [[<- <-]|[_ H]]%lookup_insert_Some; [|by apply Hold].
    exists (length cmds), c. by rewrite lookup_app_r, Nat.sub_diag by lia. }
  unfold spec_apply. destruct (spec_execute s.1 c) as [m1 res].
  destruct (s.2 !! ClientID c); [repeat case_if|]; cbn; auto; apply Hnew.
Qed.

(** A command whose client issued only smaller request numbers before it is
    executed. *)
Lemma fresh_command_executes m0 cmds i cmd :
  cmds !! i = Some cmd ->
  (forall j c, (j < i)%nat -> cmds !! j = Some c -> ClientID c = ClientID cmd -> RequestID c < RequestID cmd) ->
  (state_at m0 cmds (Z.of_nat i + 1)).1 = (spec_execute (state_at m0 cmds (Z.of_nat i)).1 cmd).1.
Proof.
  intros Hi Hlt. rewrite (state_at_step m0 cmds (Z.of_nat i) cmd) by (lia || by rewrite Nat2Z.id).
  set (s := state_at m0 cmds (Z.of_nat i)). unfold spec_apply. destruct (spec_execute s.1 cmd) as [m res] eqn:Ex.
  destruct (s.2 !! ClientID cmd) as [d|] eqn:Ed; [|done].
  subst s. unfold state_at in Ed. apply dedup_origin in Ed as (j & c & Hj & Hcid & Hrid).
  rewrite Nat2Z.id in Hj. pose proof (lookup_lt_Some _ _ _ Hj) as Hl. rewrite length_take in Hl.
  rewrite lookup_take_lt in Hj by lia. specialize (Hlt j c ltac:(lia) Hj Hcid).
  rewrite (proj2 (Z.eqb_neq _ _)), (proj2 (Z.ltb_ge _ _)) by lia. done.
Qed.

Section Writes.
Context (m0 : gmap bytes bytes) (cmds : list Command) (e : api_env).

(** The goroutines around a write keep the node's promise. *)
Definition writes_keep : Prop :=
  keeps m0 cmds (gap_propose e) /\ keeps m0 cmds (env_start e) /\ Forall (fun x => keeps m0 cmds x.1) (env_wakes e).

Lemma Propose_frame d f cmd :
  db_sm (Propose d f cmd).1.1 = db_sm d /\ lastApplied (db_raft (Propose d f cmd).1.1) = lastApplied (db_raft d).
Proof.
  unfold Propose. destruct (Encode cmd) as [b|]; [|done]. unfold RaftNode.Propose.
  destruct (role (db_raft d)); try done. cbn [negb bool_decide decide]. destruct (log_Append _ _) as [l i].
  unfold persistLocked. destruct (fail_state f); [done|]. cbn.
  unfold maybeAdvanceCommitIndexLocked. by destruct (advance_loop _ _ _).
Qed.

Lemma Propose_db_ok d f cmd : db_ok m0 cmds d -> db_ok m0 cmds (Propose d f cmd).1.1.
Proof.
  intros (k & Hk & Hs). destruct (Propose_frame d f cmd) as [Hsm Hla]. exists k. split; [by rewrite Hla|].
  unfold store_at, db_store in *. by rewrite Hsm.
Qed.

Lemma proposeAndRespond_applied s cmd s' resp :
  writes_keep -> db_ok m0 cmds (node s) -> proposeAndRespond e s cmd = (s', resp) -> code resp = 200 ->
  exists index term k, (Propose (node s) (env_faults e) cmd).2 = Ok (index, term) /\
    index <= k /\ store_at m0 cmds k (node s').
Proof.
  intros (_ & Hstart & Hwakes) Hok. unfold proposeAndRespond.
  pose proof (Propose_db_ok (node s) (env_faults e) cmd Hok) as Hok1.
  destruct (Propose _ _ _) as [[d rpcs] [[index term]|err]] eqn:Ep.
  2: { repeat case_match; intros [= <- <-]; done. }
  destruct (WaitApplied _ _ _) as [s2 [|]] eqn:Ew; intros [= <- <-]; [|done]. intros _.
  assert (db_ok m0 cmds (node_in (put_node s d))) as Hok1' by exact Hok1.
  destruct (Hstart _ Hok1') as [Hok2 _].
  apply (WaitApplied_spec m0 cmds _ _ Hwakes) in Ew as ((k & Hk & Hs) & _ & Ht); [|done]. specialize (Ht eq_refl).
  exists index, term, k. split; [done|]. split; [|done]. unfold raft_in in Ht. lia.
Qed.
End Writes.

(** A PUT answered with 200 was authorised, and went through
    [proposeAndRespond] with the key and value it carries. *)
Lemma ServeHTTP_put e s r key value s' resp :
  r_method r = MethodPut -> r_path r = lit "/kv/" ++ key -> key <> [] -> r_body r = Some value ->
  ServeHTTP e s r = (s', resp) -> code resp = 200 ->
  bearerTokenValid r (apiToken s) = true /\ exists resp',
    proposeAndRespond e (gap_propose e (nextRequestID s).1) (NewPutCommand (clientID s) (nextRequestID s).2 key value) = (s', resp') /\
    code resp' = 200.
Proof.
  intros Hm Hp Hk Hb E Hc. assert (route_of (r_path r) = KV) as Hr by (rewrite Hp; reflexivity).
  assert (r_method r <> MethodOptions) as Hno by (rewrite Hm; vm_compute; discriminate).
  destruct (bearerTokenValid r (apiToken s)) eqn:Ea.
  2: { destruct (ServeHTTP_denied e s r) as [_ H]; [by rewrite Hr|done|done|]. rewrite E in H. cbn [snd] in H. congruence. }
  split; [done|]. unfold ServeHTTP in E. rewrite Hr in E. unfold cors in E. rewrite (bool_decide_eq_false_2 _ Hno) in E.
  unfold authMiddleware, handleKV in E. rewrite Ea in E. cbn [negb] in E.
  assert (key_of (r_path r) = key) as Hkey by (rewrite Hp; reflexivity). rewrite Hkey in E. rewrite (bool_decide_eq_false_2 _ Hk) in E.
  rewrite (bool_decide_eq_true_2 _ Hm) in E. unfold handleKVPut in E. rewrite Hb in E.
  destruct (zlen value >? maxValueBytes s); [injection E as <- <-; done|].
  unfold nextRequestID in E |- *. cbn [fst snd clientID] in E |- *.
  destruct (proposeAndRespond _ _ _) as [s1 resp1]. injection E as <- <-. by exists resp1.
Qed.

(** A GET that is answered with 200 or 404 was a consistent read of its key. *)
Lemma ServeHTTP_get e s r key s' resp :
  r_method r = MethodGet -> r_path r = lit "/kv/" ++ key -> key <> [] ->
  ServeHTTP e s r = (s', resp) ->
  (code resp = 200 -> exists value, body resp = Value value /\ ConsistentGet s (env_reads e) key = (s', Ok value)) /\
  (code resp = 404 -> ConsistentGet s (env_reads e) key = (s', Err (ErrReadStore StoreErrKeyNotFound))).
Proof.
  intros Hm Hp Hk E. assert (route_of (r_path r) = KV) as Hr by (rewrite Hp; reflexivity).
  assert (r_method r <> MethodOptions) as Hno by (rewrite Hm; vm_compute; discriminate).
  assert (r_method r <> MethodPut) as Hnp by (rewrite Hm; vm_compute; discriminate).
  assert (key_of (r_path r) = key) as Hkey by (rewrite Hp; reflexivity).
  unfold ServeHTTP in E. rewrite Hr in E. unfold cors in E. rewrite (bool_decide_eq_false_2 _ Hno) in E.
  unfold authMiddleware, handleKV in E. destruct (bearerTokenValid r (apiToken s)); cbn [negb] in E; [|injection E as <- <-; done].
  rewrite Hkey, (bool_decide_eq_false_2 _ Hk), (bool_decide_eq_false_2 _ Hnp), (bool_decide_eq_true_2 _ Hm) in E.
  unfold handleKVGet in E. destruct (ConsistentGet s (env_reads e) key) as [s1 [value|[[]| |[]]]];
    injection E as <- <-; (split; intros Hc; try discriminate Hc); [by exists value|done].
Qed.

(** C17. What a node's 200 to a write means, given that the node's store is
    the state after some prefix of the committed commands that covers what is
    marked applied, and that the other goroutines keep this and never lower
    LastApplied (both hold in the runs of [cluster_serves_one_log]): the node
    proposed the command under an index and did not answer before that index
    was applied, so the prefix its store then shows reaches the index. If the
    entry committed at the index is the proposed one and the client's earlier
    commands have smaller numbers, the command was executed there. Without
    those conditions a 200 promises nothing ([superseded_put_acknowledged],
    [overlapping_puts_lose_write]). *)
Theorem acknowledged_write_applied m0 cmds e s cmd s' resp :
  writes_keep m0 cmds e -> db_ok m0 cmds (node s) -> proposeAndRespond e s cmd = (s', resp) -> code resp = 200 ->
  exists index term k, (Propose (node s) (env_faults e) cmd).2 = Ok (index, term) /\
    index <= k /\ store_at m0 cmds k (node s') /\
    forall i, index = Z.of_nat i + 1 -> cmds !! i = Some cmd ->
      (forall j c, (j < i)%nat -> cmds !! j = Some c -> ClientID c = ClientID cmd -> RequestID c < RequestID cmd) ->
      (state_at m0 cmds index).1 = (spec_execute (state_at m0 cmds (Z.of_nat i)).1 cmd).1.
Proof.
  intros Hw Hok E Hc. destruct (proposeAndRespond_applied _ _ _ _ _ _ _ Hw Hok E Hc) as (index & term & k & Hp & Hk & Hs).
  exists index, term, k. split_and!; try done. intros i -> Hi Hlt. by apply fresh_command_executes.
Qed.

(** ** Writes that are acknowledged and lost *)

Definition token : bytes := lit "secret".
Definition req (m path value : bytes) : request :=
  MkRequest m path [] [(Authorization, [lit "Bearer secret"])] (Some value).

(** The applier's goroutine runs while the request waits. *)
Definition applied (s : Server) : Server := put_node s (DbNode.ApplyAvailable (node s) quietly).1.1.
Definition idle (s : Server) : Server := s.
Definition env_with (before_propose waiting : Server -> Server) : api_env :=
  MkApiEnv before_propose calm_faults idle waiting [] (MkReads idle 1 idle [] idle) idle quietly [].

Definition solo_server : Server := NewServer solo1 token 5 [].
Definition other_put (s : Server) : Server * api_response :=
  ServeHTTP (env_with idle applied) s (req MethodPut (lit "/kv/b") [x32]).

(** Two overlapping writes through one node can both be answered 200
    although one of them never happens: a request number is drawn before the
    proposal, so the request that drew the smaller number may propose
    second, and then the state machine drops it as stale, which counts as
    applied. *)
Theorem overlapping_puts_lose_write :
  let '(s, resp) := ServeHTTP (env_with (fun s => (other_put s).1) applied) solo_server (req MethodPut (lit "/kv/a") [x31]) in
  code resp = 200 /\ code (other_put (nextRequestID solo_server).1).2 = 200 /\
  body resp = StatusJSON (lit "ok") /\
  code (ServeHTTP (env_with idle applied) s (req MethodGet (lit "/kv/a") [])).2 = 404 /\
  body (ServeHTTP (env_with idle applied) s (req MethodGet (lit "/kv/b") [])).2 = Value [x32].
Proof. vm_compute. by split_and!. Qed.

(** A leader of a cluster of three, which loses its leadership right after
    the proposal: the next leader's entry replaces the proposed one. *)
Definition trio_server : Server := NewServer (MkDb na (MkApplier a2 (NewKVStateMachine sample_store)) None) token 5 [].
Definition other_command : Command := NewPutCommand [x63] 1 (lit "b") [x32].
Definition superseded (s : Server) : Server :=
  let d := node s in
  applied (put_node s (with_raft d (HandleAppendEntries (db_raft d) calm_faults
    (MkAEA 2 nb 0 0 [MkEntry 1 2 (command_bytes other_command)] 1)).1)).

(** A write can be answered 200 although its entry was thrown away: the
    handler waits for its index to be applied and never looks at the term,
    so another leader's entry at the same index satisfies it. *)
Theorem superseded_put_acknowledged :
  (Propose (node trio_server) calm_faults (NewPutCommand (clientID trio_server) 6 (lit "a") [x31])).2 = Ok (1, 1) /\
  let '(s, resp) := ServeHTTP (env_with idle superseded) trio_server (req MethodPut (lit "/kv/a") [x31]) in
  code resp = 200 /\ body resp = StatusJSON (lit "ok") /\
  role (db_raft (node s)) = Follower /\ lastApplied (db_raft (node s)) = 1 /\
  e_Command (log (db_raft (node s)) !!! 1%nat) = command_bytes other_command /\
  store_Get (db_store (node s)) (lit "a") = Err StoreErrKeyNotFound /\ store_Get (db_store (node s)) (lit "b") = Ok [x32].
Proof. vm_compute. by split_and!. Qed.

(** ** Witness *)

Definition put_a : Command := NewPutCommand (clientID solo_server) 6 (lit "a") [x31].

Definition solo_proposed : Server := put_node solo_server (Propose (node solo_server) calm_faults put_a).1.1.
Definition solo_applied : Server := applied solo_proposed.

(** The applier has run, if it had not already. *)
Definition catch_up (s : Server) : Server :=
  if lastApplied (db_raft (node s)) <=? 1 then put_node s (node solo_applied) else s.

Lemma solo_applied_ok : db_ok ∅ [put_a] (node solo_applied).
Proof.
  exists (0 + 1). split; [vm_compute; congruence|].
  apply (applied_store_at _ _ _ (NewKVStateMachine sample_store) sample_env put_a (MkResult true false (lit "a") [x31] None));
    [exact sample_store_inv|reflexivity|lia|reflexivity|vm_compute; reflexivity].
Qed.

Lemma catch_up_keeps : keeps ∅ [put_a] catch_up.
Proof.
  intros s Hs. unfold catch_up, raft_in. cbn [node_in Server_hosts] in *. case_if; [|by split].
  zbool. assert (lastApplied (db_raft (node solo_applied)) = 1) as E1 by (vm_compute; reflexivity).
  split; [exact solo_applied_ok|]. cbn [put_node Server_hosts node]. lia.
Qed.

Example acknowledged_write_applied_witness :
  code (proposeAndRespond (env_with idle catch_up) solo_server put_a).2 = 200 /\
  exists index term k, (Propose (node solo_server) calm_faults put_a).2 = Ok (index, term) /\ index <= k /\
    store_at ∅ [put_a] k (node (proposeAndRespond (env_with idle catch_up) solo_server put_a).1).
Proof.
  split; [vm_compute; reflexivity|].
  destruct (acknowledged_write_applied ∅ [put_a] (env_with idle catch_up) solo_server put_a
    (proposeAndRespond (env_with idle catch_up) solo_server put_a).1
    (proposeAndRespond (env_with idle catch_up) solo_server put_a).2) as (index & term & k & Hp & Hk & Hs & _).
  - split_and!; [|exact catch_up_keeps|constructor]. intros s Hs. by split.
  - exists (0). split; [vm_compute; congruence|]. split; [exact sample_store_inv|reflexivity].
  - apply surjective_pairing.
  - vm_compute. reflexivity.
  - exists index, term, k. by split_and!.
Defined.
