(* ===== verification/Observability.v ===== *)
(** * Metrics of a running process

    What a ForgeDB process records and shows: internal/dbnode/metrics.go (the
    gauges that read the current node, and [currentNode] itself, with the
    lines of node.go's [Open] and [Close] that set it), and the [instrument]
    wrapper of internal/api/server.go around every route. *)

From S2P Require Import Prelude Bytes Http Format Metrics Codec Wal SkipList MemStore Command StateMachine SmSnapshot.
From S2P Require Import RaftLog RaftFormat RaftPersist RaftNode RaftElection RaftDurable RaftCommit Applier DbNode Api.
From stdpp Require Import base tactics list numbers gmap.
From Stdlib Require Import Strings.Byte.
From Stdlib Require Import Floats.SpecFloat ZArith Lia.
From Stdlib Require String.
Import String.StringSyntax.
#[local] Open Scope Z_scope.

(** ** The gauges: internal/dbnode/metrics.go *)

(** A node that was opened, and whether its store is a plain MemStore. *)
Record opened := MkOpened { op_node : DbNode; op_plain : bool }.

(** What the collectors read: the seconds since the process started, the
    nodes by handle and the [currentNode] pointer. *)
Record ambient := MkAmbient { uptime : float64; nodes : gmap nat opened; currentNode : option nat }.

Definition current (a : ambient) : option opened := currentNode a ≫= fun n => nodes a !! n.

Definition statusFloat (get : RaftStatus -> Z) (a : ambient) : float64 :=
  match current a with
  | None => f_zero
  | Some n => f_of_Z (get (raft_Status (db_raft (op_node n))))
  end.

Definition storageStats (a : ambient) : option (Z * Z) :=
  match current a with
  | None => None
  | Some n => if op_plain n then Some (Stats (db_store (op_node n))) else None
  end.

Definition toLowerRole (r : Role) : bytes :=
  match r with Leader => lit "leader" | Candidate => lit "candidate" | Follower => lit "follower" end.

Definition role_gauge (a : ambient) : gmap bytes float64 :=
  let out := list_to_map [(lit "leader", f_zero); (lit "candidate", f_zero); (lit "follower", f_zero)] in
  match current a with
  | None => out
  | Some n =>
      let role := raft_Status (db_raft (op_node n)) in
      map_imap (fun k v => Some (if bool_decide (k = toLowerRole (st_Role role)) then f_of_Z 1 else v)) out
  end.

Definition log_entries (s : RaftStatus) : Z :=
  if st_LastLogIndex s <=? st_SnapshotIndex s then 0 else u64 (st_LastLogIndex s - st_SnapshotIndex s).

Definition follower_lag (a : ambient) : gmap bytes float64 :=
  match current a with
  | None => ∅
  | Some n => fold_left (fun out p => <[ps_PeerID p := f_of_Z (ps_Lag p)]> out) (PeerStatuses (db_raft (op_node n))) ∅
  end.

Definition storage_gauge (get : Z * Z -> Z) (a : ambient) : float64 :=
  match storageStats a with None => f_zero | Some s => f_of_Z (get s) end.

(** What [registerMetricsOnce] registers, the first time. *)
Definition node_gauges : list (metric_call ambient) :=
  [CallNewGaugeFunc (lit "forgedb_raft_term") (lit "This node's current Raft term.") (statusFloat st_Term);
   CallNewGaugeVecFunc (lit "forgedb_raft_role") (lit "1 for this node's current role, 0 for the others.") (lit "role") role_gauge;
   CallNewGaugeFunc (lit "forgedb_raft_commit_index") (lit "This node's current Raft commit index.") (statusFloat st_CommitIndex);
   CallNewGaugeFunc (lit "forgedb_raft_last_applied") (lit "This node's current Raft last-applied index.") (statusFloat st_LastApplied);
   CallNewGaugeFunc (lit "forgedb_raft_log_entries") (lit "Entries currently retained in this node's Raft log, past its snapshot boundary.") (statusFloat log_entries);
   CallNewGaugeFunc (lit "forgedb_raft_snapshot_index") (lit "The index of this node's most recent Raft snapshot (0 if none).") (statusFloat st_SnapshotIndex);
   CallNewGaugeVecFunc (lit "forgedb_raft_follower_lag_entries") (lit "Entries a follower's matchIndex is behind this leader's last log index.") (lit "peer_id") follower_lag;
   CallNewGaugeFunc (lit "forgedb_storage_memtable_entries") (lit "Live entries currently held in this node's MemTable.") (storage_gauge fst);
   CallNewGaugeFunc (lit "forgedb_storage_memtable_bytes") (lit "Approximate live key+value bytes currently held in this node's MemTable.") (storage_gauge snd)].

(** The process: the default registry, [metricsOnce] and the rest. *)
Record process := MkProcess { pr_metrics : Registry ambient; pr_once : bool; pr_ambient : ambient }.

Definition registerMetricsOnce (p : process) : option process :=
  if pr_once p then Some p
  else match do_metrics (pr_metrics p) node_gauges with
       | Some r => Some (MkProcess r true (pr_ambient p))
       | None => None
       end.

Definition NodeInfo : bytes := lit "forgedb_node_info".

(** What [Open] does with metrics once the node [d] exists, as handle [n]. *)
Definition open_metrics (p : process) (n : nat) (d : DbNode) (plain : bool) : option process :=
  match registerMetricsOnce p with
  | None => None
  | Some p =>
      let a := pr_ambient p in
      Some (MkProcess (on_entry (pr_metrics p) NodeInfo (WithLabelValues_gauge (db_id d) (fun g => Gauge_Set g (f_of_Z 1))))
              (pr_once p) (MkAmbient (uptime a) (<[n := MkOpened d plain]> (nodes a)) (Some n)))
  end.

(** [Close]'s [CompareAndSwap(n, nil)]. *)
Definition close_metrics (p : process) (n : nat) : process :=
  let a := pr_ambient p in
  MkProcess (pr_metrics p) (pr_once p)
    (MkAmbient (uptime a) (nodes a) (if bool_decide (currentNode a = Some n) then None else currentNode a)).

(** The process when its packages are initialised. *)
Definition boot : option process :=
  match do_metrics NewRegistry (catalog uptime) with
  | Some r => Some (MkProcess r false (MkAmbient f_zero ∅ None))
  | None => None
  end.

(** What happens in a process: nodes are opened and closed, nodes and the
    clock run, metrics are updated through their handles. *)
Inductive update := UpCounter (name : bytes) (label : option bytes) (n : Z) | UpGauge (name : bytes) (label : option bytes) (v : float64)
| UpObserve (name : bytes) (label : option bytes) (v : float64) | UpError (component : bytes).

Definition update_call (u : update) : metric_call ambient :=
  match u with
  | UpCounter name label n => CallCounter name label n
  | UpGauge name label v => CallGaugeAdd name label v
  | UpObserve name label v => CallObserve name label v
  | UpError component => CallRecordError component
  end.

Inductive event :=
| EvOpen (n : nat) (d : DbNode) (plain : bool) | EvClose (n : nat) | EvRun (n : nat) (d : DbNode) | EvClock (now : float64)
| EvUpdate (u : update).

Definition do_event (p : process) (ev : event) : option process :=
  let a := pr_ambient p in
  match ev with
  | EvOpen n d plain => open_metrics p n d plain
  | EvClose n => Some (close_metrics p n)
  | EvRun n d => Some (MkProcess (pr_metrics p) (pr_once p)
                   (MkAmbient (uptime a) (alter (fun o => MkOpened d (op_plain o)) n (nodes a)) (currentNode a)))
  | EvClock now => Some (MkProcess (pr_metrics p) (pr_once p) (MkAmbient now (nodes a) (currentNode a)))
  | EvUpdate u => match do_metric (pr_metrics p) (update_call u) with
                  | Some r => Some (MkProcess r (pr_once p) a)
                  | None => None
                  end
  end.

Fixpoint do_events (p : process) (evs : list event) : option process :=
  match evs with
  | [] => Some p
  | ev :: evs => match do_event p ev with Some p => do_events p evs | None => None end
  end.

(** ** Registration never collides *)

(** The name a call registers. *)
Definition new_name {A} (c : metric_call A) : option bytes :=
  match c with
  | CallNewCounter n _ | CallNewGauge n _ | CallNewHistogram n _ _ | CallNewCounterVec n _ _ | CallNewGaugeVec n _ _
  | CallNewHistogramVec n _ _ _ | CallNewGaugeFunc n _ _ | CallNewGaugeVecFunc n _ _ _ => Some n
  | _ => None
  end.

Lemma register_fresh {A} (r : Registry A) e : well_typed r -> e_name e ∉ reg_order r ->
  exists r', register r e = Some r' /\ reg_order r' = reg_order r ++ [e_name e].
Proof.
  intros [_ Hk _] Hn. rewrite Hk in Hn. unfold register. rewrite bool_decide_eq_false_2 by done. by eexists.
Qed.

Lemma do_metric_fresh {A} (r : Registry A) c n : well_typed r -> new_name c = Some n -> n ∉ reg_order r ->
  exists r', do_metric r c = Some r' /\ reg_order r' = reg_order r ++ [n].
Proof.
  intros Hr Hc Hn. destruct c; try done; injection Hc as <-;
    exact (register_fresh r (Metrics.MkEntry _ _ _ _ _) Hr Hn).
Qed.

Lemma do_metrics_fresh {A} (cs : list (metric_call A)) ns r : well_typed r ->
  new_name <$> cs = Some <$> ns -> NoDup (reg_order r ++ ns) ->
  exists r', do_metrics r cs = Some r' /\ well_typed r' /\ reg_order r' = reg_order r ++ ns.
Proof.
  revert ns r. induction cs as [|c cs IH]; intros [|n ns] r Hr Hc Hn; try done.
  { exists r. by rewrite app_nil_r. }
  injection Hc as Hc Hcs. apply NoDup_app in Hn as Hn'. destruct Hn' as (_ & Hd & _).
  destruct (do_metric_fresh r c n Hr Hc) as (r1 & E1 & O1). { intros Hin. apply (Hd n Hin). by left. }
  destruct (IH ns r1) as (r2 & E2 & W2 & O2); [by eapply do_metric_typed|done| |].
  { rewrite O1, <- app_assoc. done. }
  exists r2. cbn. rewrite E1. split_and!; [done|done|]. by rewrite O2, O1, <- app_assoc.
Qed.

Lemma on_entry_order {A} (r : Registry A) name f : reg_order (on_entry r name f) = reg_order r.
Proof. done. Qed.

Lemma update_total (r : Registry ambient) u : exists r', do_metric r (update_call u) = Some r' /\ reg_order r' = reg_order r.
Proof. destruct u as [name [l|] n|name [l|] v|name [l|] v|component]; by eexists. Qed.

Definition catalog_names : list bytes := omap new_name (catalog uptime).
Definition gauge_names : list bytes := omap new_name node_gauges.

Lemma names_distinct : NoDup (catalog_names ++ gauge_names).
Proof. apply (bool_decide_eq_true_1 _). vm_compute. reflexivity. Qed.

Lemma catalog_registers : new_name <$> catalog uptime = Some <$> catalog_names.
Proof. vm_compute. reflexivity. Qed.
Lemma gauges_register : new_name <$> node_gauges = Some <$> gauge_names.
Proof. vm_compute. reflexivity. Qed.
#[local] Opaque catalog node_gauges catalog_names gauge_names.

Record healthy (p : process) : Prop := {
  he_typed : well_typed (pr_metrics p);
  he_order : reg_order (pr_metrics p) = catalog_names ++ if pr_once p then gauge_names else [] }.

Lemma boot_healthy : exists p, boot = Some p /\ healthy p /\ pr_once p = false /\ currentNode (pr_ambient p) = None.
Proof.
  pose proof names_distinct as Hn. apply NoDup_app in Hn as [Hn _].
  destruct (do_metrics_fresh (catalog uptime) catalog_names NewRegistry NewRegistry_typed catalog_registers Hn)
    as (r & E & W & O).
  exists (MkProcess r false (MkAmbient f_zero ∅ None)). unfold boot. rewrite E. split; [reflexivity|].
  split; [|split; reflexivity]. split; [exact W|]. cbn [pr_metrics pr_once]. rewrite app_nil_r. exact O.
Qed.

Lemma registerMetricsOnce_healthy p : healthy p ->
  exists p', registerMetricsOnce p = Some p' /\ healthy p' /\ pr_once p' = true /\ pr_ambient p' = pr_ambient p.
Proof.
  intros [W O]. unfold registerMetricsOnce. destruct (pr_once p) eqn:Eo.
  { exists p. split_and!; try done. split; [done|]. by rewrite Eo. }
  rewrite app_nil_r in O.
  destruct (do_metrics_fresh node_gauges gauge_names (pr_metrics p) W gauges_register) as (r & E & W' & O').
  { rewrite O. apply names_distinct. }
  rewrite E. eexists. split; [reflexivity|]. split; [|split; reflexivity]. split; [exact W'|]. cbn [pr_metrics pr_once].
  by rewrite O', O.
Qed.

(** The node that was opened last, unless it was closed since. *)
Definition shown_node (evs : list event) (n : nat) : Prop :=
  exists evs1 d plain evs2, evs = evs1 ++ EvOpen n d plain :: evs2 /\ EvClose n ∉ evs2 /\
    forall n' d' plain', EvOpen n' d' plain' ∉ evs2.

Definition watched (evs : list event) (p : process) : Prop :=
  healthy p /\ (forall n, currentNode (pr_ambient p) = Some n <-> shown_node evs n) /\
  (pr_once p = true <-> exists n d plain, EvOpen n d plain ∈ evs).

Lemma shown_snoc evs ev n : shown_node (evs ++ [ev]) n <->
  (exists d plain, ev = EvOpen n d plain) \/
  (shown_node evs n /\ ev <> EvClose n /\ forall n' d' plain', ev <> EvOpen n' d' plain').
Proof.
  split.
  - intros (evs1 & d & plain & evs2 & E & Hc & Ho). destruct evs2 as [|ev2 evs2 _] using rev_ind.
    + apply app_inj_tail in E as [-> ->]. left. by exists d, plain.
    + rewrite app_comm_cons, app_assoc in E. apply app_inj_tail in E as [-> ->]. right.
      rewrite elem_of_app, list_elem_of_singleton in Hc. split_and!; [|naive_solver|].
      * exists evs1, d, plain, evs2. split_and!; [done|naive_solver|]. intros n' d' pl Hin. apply (Ho n' d' pl), elem_of_app. by left.
      * intros n' d' pl ->. apply (Ho n' d' pl), elem_of_app. right. by apply list_elem_of_singleton.
  - intros [(d & plain & ->)|((evs1 & d & plain & evs2 & -> & Hc & Ho) & Hnc & Hno)].
    + exists evs, d, plain, []. split_and!; [done|apply not_elem_of_nil|intros; apply not_elem_of_nil].
    + exists evs1, d, plain, (evs2 ++ [ev]). split_and!; [by rewrite <- app_assoc| |].
      * rewrite elem_of_app, list_elem_of_singleton. naive_solver.
      * intros n' d' pl. rewrite elem_of_app, list_elem_of_singleton. naive_solver.
Qed.

Lemma event_watched evs p ev : watched evs p -> exists p', do_event p ev = Some p' /\ watched (evs ++ [ev]) p'.
Proof.
  intros (Hh & Hc & Ho).
  assert (forall p', healthy p' -> pr_once p' = pr_once p -> currentNode (pr_ambient p') = currentNode (pr_ambient p) ->
    (forall n, ev <> EvClose n) -> (forall n d plain, ev <> EvOpen n d plain) -> watched (evs ++ [ev]) p') as Hsame.
  { intros p' Hh' E1 E2 Hn1 Hn2. split_and!; [done| |].
    - intros n. rewrite E2, Hc, shown_snoc. naive_solver.
    - rewrite E1, Ho. setoid_rewrite elem_of_app. setoid_rewrite list_elem_of_singleton. naive_solver. }
  destruct ev as [n d plain|n|n d|now|u]; cbn [do_event].
  - destruct (registerMetricsOnce_healthy p Hh) as (p1 & E1 & [W1 O1] & On1 & A1). unfold open_metrics. rewrite E1.
    eexists. split; [done|]. split_and!.
    + split; cbn; [|done]. apply on_entry_typed; [|done]. by apply (payload_ops_keep _ (fun c => c) _ f_zero).
    + intros m. cbn. rewrite shown_snoc. split; [intros [= ->]; left; by eexists _, _|].
      intros [(d' & pl' & [= -> -> ->])|(_ & _ & Hno)]; [done|by destruct (Hno n d plain)].
    + cbn. split; [|done]. intros _. exists n, d, plain. apply elem_of_app. right. by apply list_elem_of_singleton.
  - eexists. split; [done|]. destruct Hh as [W O]. split_and!; [by split| |].
    + intros m. cbn. rewrite shown_snoc. case_bool_decide as Hn.
      * split; [done|]. intros [(?&?&?)|(Hs & Hnm & _)]; [done|]. apply Hc in Hs. congruence.
      * rewrite Hc. split; [|naive_solver]. intros Hs. right. split_and!; [done| |done].
        intros [= ->]. by apply Hn, Hc.
    + cbn. rewrite Ho. setoid_rewrite elem_of_app. setoid_rewrite list_elem_of_singleton. naive_solver.
  - eexists. split; [done|]. by apply Hsame; [destruct Hh as [W O]; split| ..].
  - eexists. split; [done|]. by apply Hsame; [destruct Hh as [W O]; split| ..].
  - destruct (update_total (pr_metrics p) u) as (r & E & Or). rewrite E. eexists. split; [done|].
    apply Hsame; try done. destruct Hh as [W O]. split; cbn; [by eapply do_metric_typed|by rewrite Or].
Qed.

Lemma events_watched evs0 p0 evs : watched evs0 p0 -> exists p, do_events p0 evs = Some p /\ watched (evs0 ++ evs) p.
Proof.
  revert evs0 p0. induction evs as [|ev evs IH]; intros evs0 p0 Hw; cbn.
  { exists p0. by rewrite app_nil_r. }
  destruct (event_watched evs0 p0 ev Hw) as (p1 & -> & H1). destruct (IH _ _ H1) as (p & E & H2).
  exists p. by rewrite <- app_assoc in H2.
Qed.

Lemma boot_watched : exists p, boot = Some p /\ watched [] p.
Proof.
  destruct boot_healthy as (p & E & Hh & Eo & Ec). exists p. split; [exact E|]. clear E. split_and!; [done| |].
  - intros n. rewrite Ec. split; [done|]. intros (evs1 & d & plain & evs2 & E' & _). by destruct evs1.
  - rewrite Eo. split; [done|]. intros (n & d & plain & Hin). by apply not_elem_of_nil in Hin.
Qed.

(** ** Instrumented routes: internal/api/server.go *)

(** The API server and the default registry. *)
Record edge := MkEdge { ed_server : Server; ed_metrics : Registry ambient }.
#[export] Instance edge_serves : Serves edge := ed_server.

(** A handler that records nothing itself. *)
Definition lift (h : handler) : handler_of edge := fun ed r =>
  let '(s, resp) := h (ed_server ed) r in (MkEdge s (ed_metrics ed), resp).

Definition APIRequestsTotal : bytes := lit "forgedb_api_requests_total".
Definition APIRequestLatency : bytes := lit "forgedb_api_request_latency_seconds".

Definition statusClass (status : Z) : bytes := itoa (Z.quot status 100) ++ lit "xx".
Definition request_label (method route : bytes) (status : Z) : bytes :=
  method ++ lit " " ++ route ++ lit " " ++ statusClass status.

(** What [instrument] records after the handler returned. *)
Definition record_request (elapsed : float64) (method route : bytes) (status : Z) (m : Registry ambient) : Registry ambient :=
  let m := on_entry m APIRequestsTotal (WithLabelValues_counter (request_label method route status) Counter_Inc) in
  let m := on_entry m APIRequestLatency (WithLabelValues_histogram route (fun h => Observe h elapsed)) in
  if status >=? 400 then RecordError m (lit "api") else m.

(** [elapsed] is the handler's duration, in seconds. *)
Definition instrument (elapsed : float64) (route : bytes) (h : handler_of edge) : handler_of edge := fun ed r =>
  let '(ed, resp) := h ed r in
  (MkEdge (ed_server ed) (record_request elapsed (r_method r) route (code resp) (ed_metrics ed)), resp).

(** [handleKV] records an error where [proposeAndRespond] and [handleKVGet]
    answer 500. *)
Definition record_kv (status : Z) (m : Registry ambient) : Registry ambient :=
  if status =? 500 then RecordError m (lit "api") else m.
Definition handleKV_recorded (e : api_env) : handler_of edge := fun ed r =>
  let '(s, resp) := handleKV e (ed_server ed) r in (MkEdge s (record_kv (code resp) (ed_metrics ed)), resp).

(** The routes as [NewServer] wires them. *)
Definition serve (e : api_env) (elapsed : float64) : handler_of edge := fun ed r =>
  let token := apiToken (ed_server ed) in
  match route_of (r_path r) with
  | Health => cors (instrument elapsed (lit "/health") (readOnly (lift handleHealth))) ed r
  | Ready => cors (instrument elapsed (lit "/ready") (readOnly (lift handleReady))) ed r
  | Metrics => cors (authMiddleware token (instrument elapsed (lit "/metrics") (readOnly (lift handleMetrics)))) ed r
  | Cluster => cors (authMiddleware token (instrument elapsed (lit "/cluster") (readOnly (lift handleCluster)))) ed r
  | KV => cors (authMiddleware token (instrument elapsed (lit "/kv") (handleKV_recorded e))) ed r
  | AdminSnapshot => cors (authMiddleware token (instrument elapsed (lit "/admin/snapshot") (lift (handleAdminSnapshot e)))) ed r
  | NotFound => (ed, http_Error (lit "404 page not found") 404)
  end.

Definition route_name (rt : route) : bytes :=
  match rt with
  | Health => lit "/health" | Ready => lit "/ready" | Metrics => lit "/metrics" | Cluster => lit "/cluster"
  | KV => lit "/kv" | AdminSnapshot => lit "/admin/snapshot" | NotFound => []
  end.

(** The requests that reach an instrumented handler. *)
Definition recorded (s : Server) (r : request) : bool :=
  negb (bool_decide (route_of (r_path r) = NotFound)) && negb (bool_decide (r_method r = MethodOptions)) &&
  (negb (protected (route_of (r_path r))) || bearerTokenValid r (apiToken s)).

(** What one request does to the registry. *)
Definition recorded_metrics (elapsed : float64) (r : request) (status : Z) (m : Registry ambient) : Registry ambient :=
  let rt := route_of (r_path r) in
  record_request elapsed (r_method r) (route_name rt) status (if bool_decide (rt = KV) then record_kv status m else m).

(** A wrapped handler against the plain one: the same server and response,
    and the registry [after] a response with this status. *)
Definition mirrors (after : request -> Z -> Registry ambient -> Registry ambient) (h : handler_of edge) (h0 : handler) : Prop :=
  forall ed r, h ed r =
    (MkEdge (h0 (ed_server ed) r).1 (after r (code (h0 (ed_server ed) r).2) (ed_metrics ed)), (h0 (ed_server ed) r).2).

Lemma lift_mirrors h : mirrors (fun _ _ m => m) (lift h) h.
Proof. intros ed r. unfold lift. by destruct (h (ed_server ed) r). Qed.

Lemma readOnly_mirrors h h0 : mirrors (fun _ _ m => m) h h0 -> mirrors (fun _ _ m => m) (readOnly h) (readOnly h0).
Proof. intros Hh ed r. unfold readOnly. destruct (negb _); [by destruct ed|apply Hh]. Qed.

Lemma kv_mirrors e : mirrors (fun _ status m => record_kv status m) (handleKV_recorded e) (handleKV e).
Proof. intros ed r. unfold handleKV_recorded. by destruct (handleKV e (ed_server ed) r). Qed.

Lemma instrument_mirrors after elapsed name h h0 : mirrors after h h0 ->
  mirrors (fun r status m => record_request elapsed (r_method r) name status (after r status m)) (instrument elapsed name h) h0.
Proof. intros Hh ed r. unfold instrument. by rewrite Hh. Qed.

Lemma auth_mirrors after token h h0 : mirrors after h h0 ->
  mirrors (fun r status m => if bearerTokenValid r token then after r status m else m)
          (authMiddleware token h) (authMiddleware token h0).
Proof. intros Hh ed r. unfold authMiddleware. destruct (bearerTokenValid r token); cbn; [apply Hh|by destruct ed]. Qed.

(** Through [cors]: preflights stop there, and the added headers do not
    change the status. *)
Lemma cors_mirrors after h h0 : mirrors after h h0 ->
  mirrors (fun r status m => if bool_decide (r_method r = MethodOptions) then m else after r status m) (cors h) (cors h0).
Proof.
  intros Hh ed r. unfold cors. cbv zeta. change (server_of ed) with (ed_server ed).
  change (server_of (ed_server ed)) with (ed_server ed).
  case_bool_decide; [by destruct ed|]. rewrite Hh. by destruct (h0 (ed_server ed) r).
Qed.

Lemma mirrored after h h0 ed r : mirrors after h h0 ->
  let '(ed', resp) := h ed r in
  (ed_server ed', resp) = h0 (ed_server ed) r /\ ed_metrics ed' = after r (code resp) (ed_metrics ed).
Proof. intros Hh. rewrite Hh. by destruct (h0 (ed_server ed) r). Qed.

(** ** What requests leave in a labelled counter *)

(** The labels of a counter vector and their counts. *)
Definition labels_of (name : bytes) (m : Registry ambient) : option (gmap bytes Counter) :=
  Metrics.entries m !! name ≫= fun e => match e_payload e with OfCounterVec v => Some v | _ => None end.

Lemma labels_on_entry name name' f m :
  labels_of name (on_entry m name' f) =
  if bool_decide (name = name')
  then Metrics.entries m !! name ≫= (fun e => match f (e_payload e) with OfCounterVec v => Some v | _ => None end)
  else labels_of name m.
Proof.
  unfold labels_of, on_entry. cbn. case_bool_decide as E.
  - subst. rewrite lookup_alter_eq. by destruct (Metrics.entries m !! name').
  - by rewrite lookup_alter_ne by congruence.
Qed.

Lemma labels_inc name label f m v : labels_of name m = Some v ->
  labels_of name (on_entry m name (WithLabelValues_counter label f)) = Some (<[label := f (default 0 (v !! label))]> v).
Proof.
  rewrite labels_on_entry, bool_decide_eq_true_2 by done. unfold labels_of.
  destruct (Metrics.entries m !! name) as [e|]; [|done]. cbn. destruct (e_payload e); try done. by intros [= ->].
Qed.

Lemma labels_other name name' f m : name <> name' -> labels_of name (on_entry m name' f) = labels_of name m.
Proof. intros Hn. by rewrite labels_on_entry, bool_decide_eq_false_2 by done. Qed.

Lemma record_request_labels elapsed method route status m v : labels_of APIRequestsTotal m = Some v ->
  labels_of APIRequestsTotal (record_request elapsed method route status m) =
  Some (<[request_label method route status := Counter_Inc (default 0 (v !! request_label method route status))]> v).
Proof.
  intros Hv. unfold record_request, RecordError. destruct (_ >=? _); rewrite ?(labels_other _ ErrorsTotal) by done;
    rewrite (labels_other _ APIRequestLatency) by done; by apply labels_inc.
Qed.

Lemma record_request_errors elapsed method route status m v : labels_of ErrorsTotal m = Some v -> 400 <= status ->
  labels_of ErrorsTotal (record_request elapsed method route status m) =
  Some (<[lit "api" := Counter_Inc (default 0 (v !! lit "api"))]> v).
Proof.
  intros Hv Hs. unfold record_request. rewrite (proj2 (Z.geb_le _ _)) by lia. apply labels_inc.
  by rewrite (labels_other _ APIRequestLatency), (labels_other _ APIRequestsTotal) by done.
Qed.

(** A request to the liveness probe, without credentials. *)
Definition probe (method : bytes) : request := MkRequest method (lit "/health") [] [] None.

Lemma probe_recorded e elapsed ed method v :
  method <> MethodOptions -> labels_of APIRequestsTotal (ed_metrics ed) = Some v ->
  exists status, labels_of APIRequestsTotal (ed_metrics (serve e elapsed ed (probe method)).1) =
    Some (<[request_label method (lit "/health") status :=
              Counter_Inc (default 0 (v !! request_label method (lit "/health") status))]> v).
Proof.
  intros Hm Hv. unfold serve, probe, cors, instrument. cbn [r_path r_method route_of].
  change (route_of (lit "/health")) with Health. cbn [r_method]. rewrite bool_decide_eq_false_2 by done.
  destruct (readOnly (lift handleHealth) ed _) as [ed1 resp] eqn:E. exists (code resp). cbn [fst ed_metrics].
  apply record_request_labels. revert E. unfold readOnly. case_if; by intros [= <- <-].
Qed.

(** Compares the two ways to say which requests are recorded. *)
Ltac mirror M :=
  destruct (cors _ _ _) as [ed' resp]; destruct M as [-> ->]; split; [done|];
  repeat first [rewrite bool_decide_eq_false_2 by done | rewrite bool_decide_eq_true_2 by done];
  destruct (bool_decide _); try destruct (bearerTokenValid _ _).

(** ** Theorems *)

(** Registration never panics, in any process: the packages initialise, and
    any number of nodes can then be opened and closed in any order while
    metrics are updated. The registered metrics are those of the catalog and,
    once a node was opened, the node gauges, each once; the gauges read the
    node that was opened last, unless it was closed since, so that closing
    another node does not blind them. *)
Theorem metrics_survive_reopening (evs : list event) :
  exists p0 p, boot = Some p0 /\ do_events p0 evs = Some p /\
  NoDup (reg_order (pr_metrics p)) /\
  (forall name, name ∈ reg_order (pr_metrics p) <->
     name ∈ catalog_names \/ (name ∈ gauge_names /\ exists n d plain, EvOpen n d plain ∈ evs)) /\
  (forall n, currentNode (pr_ambient p) = Some n <-> shown_node evs n).
Proof.
  destruct boot_watched as (p0 & E0 & H0). destruct (events_watched [] p0 evs H0) as (p & E & [W O] & Hc & Ho).
  exists p0, p. split_and!; [exact E0|exact E|apply W| |exact Hc]. clear E E0. intros name. rewrite O, elem_of_app.
  destruct (pr_once p); [naive_solver|]. rewrite elem_of_nil. naive_solver.
Qed.

(** Metrics are transparent and exact: serving a request through the
    instrumented routes does to the server and answers exactly what the
    plain routes do; the registry is touched only by requests that reach a
    handler (a known route, not a preflight, with the token where one is
    needed), and then by one request count, one latency observation and the
    errors of a failed request. *)
Theorem instrumentation_transparent e elapsed ed r :
  let '(ed', resp) := serve e elapsed ed r in
  (ed_server ed', resp) = ServeHTTP e (ed_server ed) r /\
  ed_metrics ed' = if recorded (ed_server ed) r then recorded_metrics elapsed r (code resp) (ed_metrics ed) else ed_metrics ed.
Proof.
  pose proof (fun after h h0 => mirrored after h h0 ed r) as M. unfold serve, ServeHTTP, recorded, recorded_metrics.
  destruct (route_of (r_path r)); cbn [protected negb orb andb].
  - specialize (M _ _ _ (cors_mirrors _ _ _ (instrument_mirrors _ elapsed (lit "/health") _ _ (readOnly_mirrors _ _ (lift_mirrors handleHealth))))).
    by mirror M.
  - specialize (M _ _ _ (cors_mirrors _ _ _ (instrument_mirrors _ elapsed (lit "/ready") _ _ (readOnly_mirrors _ _ (lift_mirrors handleReady))))).
    by mirror M.
  - specialize (M _ _ _ (cors_mirrors _ _ _ (auth_mirrors _ (apiToken (ed_server ed)) _ _
      (instrument_mirrors _ elapsed (lit "/metrics") _ _ (readOnly_mirrors _ _ (lift_mirrors handleMetrics)))))). by mirror M.
  - specialize (M _ _ _ (cors_mirrors _ _ _ (auth_mirrors _ (apiToken (ed_server ed)) _ _
      (instrument_mirrors _ elapsed (lit "/cluster") _ _ (readOnly_mirrors _ _ (lift_mirrors handleCluster)))))). by mirror M.
  - specialize (M _ _ _ (cors_mirrors _ _ _ (auth_mirrors _ (apiToken (ed_server ed)) _ _
      (instrument_mirrors _ elapsed (lit "/kv") _ _ (kv_mirrors e))))). by mirror M.
  - specialize (M _ _ _ (cors_mirrors _ _ _ (auth_mirrors _ (apiToken (ed_server ed)) _ _
      (instrument_mirrors _ elapsed (lit "/admin/snapshot") _ _ (lift_mirrors (handleAdminSnapshot e)))))). by mirror M.
  - done.
Qed.

(** The request counter's label is not bounded: the method is the client's,
    any token the HTTP server accepts, and the liveness probe needs no
    credentials, so that every new method adds a series to
    forgedb_api_requests_total that is never removed. *)
Theorem methods_multiply_series e elapsed ed methods v :
  MethodOptions ∉ methods -> labels_of APIRequestsTotal (ed_metrics ed) = Some v ->
  exists v', labels_of APIRequestsTotal (ed_metrics (fold_left (fun ed m => (serve e elapsed ed (probe m)).1) methods ed)) = Some v' /\
    dom v ⊆ dom v' /\ forall m, m ∈ methods -> exists status, is_Some (v' !! request_label m (lit "/health") status).
Proof.
  revert ed v. induction methods as [|m ms IH]; intros ed v Hn Hv; [exists v; by split_and!; [..|intros m []%not_elem_of_nil]|].
  apply not_elem_of_cons in Hn as [Hm Hn]. destruct (probe_recorded e elapsed ed m v) as [status Hs]; [done|done|].
  destruct (IH _ _ Hn Hs) as (v' & Hv' & Hd & Hin). exists v'. rewrite dom_insert in Hd. split_and!; [done|set_solver|].
  intros m' [->|Hm']%elem_of_cons; [|by apply Hin]. exists status. apply elem_of_dom. set_solver.
Qed.

(** A key request that fails with 500 is counted twice in
    forgedb_errors_total: by the handler and by its wrapper. *)
Lemma kv_failure_counted_twice e elapsed ed r v :
  route_of (r_path r) = KV -> r_method r <> MethodOptions -> bearerTokenValid r (apiToken (ed_server ed)) = true ->
  labels_of ErrorsTotal (ed_metrics ed) = Some v -> code (serve e elapsed ed r).2 = 500 ->
  labels_of ErrorsTotal (ed_metrics (serve e elapsed ed r).1) =
  Some (<[lit "api" := Counter_Inc (Counter_Inc (default 0 (v !! lit "api")))]> v).
Proof.
  intros Hr Hm Hb Hv. unfold serve. rewrite Hr.
  pose proof (mirrored _ _ _ ed r (cors_mirrors _ _ _ (auth_mirrors _ (apiToken (ed_server ed)) _ _
    (instrument_mirrors _ elapsed (lit "/kv") _ _ (kv_mirrors e))))) as M.
  destruct (cors _ ed r) as [ed' resp]. destruct M as [_ M]. rewrite bool_decide_eq_false_2, Hb in M by done. cbn.
  intros Hc. rewrite M, Hc. erewrite record_request_errors; [|by apply labels_inc|lia].
  by rewrite lookup_insert_eq, insert_insert_eq.
Qed.

(** ** Witnesses *)

Definition quiet_env : api_env :=
  MkApiEnv (fun s => s) calm_faults (fun s => s) (fun s => s) [] (MkReads (fun s => s) 1 (fun s => s) [] (fun s => s))
    (fun s => s) quietly [].
Definition booted : Registry ambient := match boot with Some p => pr_metrics p | None => NewRegistry end.
Definition edge0 : edge := MkEdge (NewServer solo3 (lit "secret") 1 []) booted.

Example methods_multiply_series_witness :
  exists v', labels_of APIRequestsTotal (ed_metrics (fold_left (fun ed m => (serve quiet_env f_zero ed (probe m)).1) [lit "A"; lit "B"] edge0)) = Some v' /\
    dom (∅ : gmap bytes Counter) ⊆ dom v' /\
    forall m, m ∈ [lit "A"; lit "B"] -> exists status, is_Some (v' !! request_label m (lit "/health") status).
Proof.
  apply (methods_multiply_series quiet_env f_zero edge0 [lit "A"; lit "B"] ∅).
  - apply (bool_decide_eq_true_1 _). vm_compute. reflexivity.
  - vm_compute. reflexivity.
Defined.
