(* ===== verification/Client.v ===== *)
(** * The command-line client

    cmd/forge-client/main.go: the arguments, and a request that looks for the
    leader among the addresses it was given and those it is told of. The
    network is a state that every request changes; what it does with a
    request is a parameter. *)

From S2P Require Import Prelude Bytes Http Format Json Configuration.
From stdpp Require Import base tactics list numbers gmap fin_sets.
From Stdlib Require Import Strings.Byte.
From Stdlib Require Import ZArith Lia.
From Stdlib Require String.
Import String.StringSyntax.
#[local] Open Scope Z_scope.

Definition maxAttempts : nat := 6.

(** ** Arguments *)

Definition HasPrefix (s prefix : bytes) : bool := bool_decide (take (length prefix) s = prefix).

(** The arguments without the flag, and its value, [dst] when it is not
    there. *)
Fixpoint extractFlag (args : list bytes) (name dst : bytes) : list bytes * bytes :=
  match args with
  | [] => ([], dst)
  | a :: args =>
      let other :=
        if HasPrefix a (name ++ lit "=") then extractFlag args name (drop (length (name ++ lit "=")) a)
        else let '(out, dst) := extractFlag args name dst in (a :: out, dst) in
      match args with
      | v :: args' => if bool_decide (a = name) then extractFlag args' name v else other
      | [] => other
      end
  end.

Definition splitNonEmpty (s : bytes) : list bytes := filter (fun p => p <> []) (TrimSpace <$> Split x2c s).

(** An argument that has nothing to do with the flag. *)
Definition unrelated (name a : bytes) : Prop := a <> name /\ HasPrefix a (name ++ lit "=") = false.

Lemma extractFlag_skip name dst l rest : Forall (unrelated name) l ->
  extractFlag (l ++ rest) name dst = (l ++ (extractFlag rest name dst).1, (extractFlag rest name dst).2).
Proof.
  induction 1 as [|a l [Ha Hp] _ IH]; [cbn [app]; by destruct (extractFlag rest name dst)|].
  cbn [app extractFlag]. rewrite Hp, IH, bool_decide_eq_false_2 by done. by destruct (l ++ rest).
Qed.

(** A flag may stand anywhere among the arguments, in either form, and is
    taken out of them. *)
Lemma extractFlag_anywhere name dst l1 l2 v : Forall (unrelated name) l1 -> Forall (unrelated name) l2 ->
  extractFlag (l1 ++ name :: v :: l2) name dst = (l1 ++ l2, v) /\
  extractFlag (l1 ++ (name ++ lit "=" ++ v) :: l2) name dst = (l1 ++ l2, v).
Proof.
  intros H1 H2. assert (forall d, extractFlag l2 name d = (l2, d)) as E2.
  { intros d. pose proof (extractFlag_skip name d l2 [] H2) as E. rewrite app_nil_r in E. rewrite E. cbn. by rewrite app_nil_r. }
  rewrite !(extractFlag_skip _ _ l1) by done. split.
  - cbn [extractFlag]. rewrite bool_decide_eq_true_2 by done. by rewrite E2.
  - cbn [extractFlag]. unfold HasPrefix. rewrite app_assoc, take_app_length, drop_app_length, bool_decide_eq_true_2, E2 by done.
    rewrite bool_decide_eq_false_2; [by destruct l2|]. intros E. apply (f_equal length) in E.
    rewrite !length_app in E. cbn in E. lia.
Qed.

(** ** Requests *)

Record client_request := MkClientRequest { cr_url : bytes; cr_method : bytes; cr_auth : bytes; cr_body : option bytes }.

(** What becomes of a request: it cannot be built from its parts, it is not
    answered, its answer cannot be read, or it is answered. *)
Inductive outcome := NotBuilt | NotAnswered | NotRead | Answered (status : Z) (data : bytes).

Inductive client_error := ErrNoAddresses | ErrBuild | ErrRead | ErrExhausted (lastErr : option bytes).

Record notLeaderBody := MkNotLeaderBody { nl_Error : bytes; nl_LeaderID : bytes; nl_LeaderHTTP : bytes }.
Definition notLeaderBody_fields : fields notLeaderBody :=
  [(lit "error", at_field nl_Error (fun v n => MkNotLeaderBody v (nl_LeaderID n) (nl_LeaderHTTP n)) decode_string);
   (lit "leader_id", at_field nl_LeaderID (fun v n => MkNotLeaderBody (nl_Error n) v (nl_LeaderHTTP n)) decode_string);
   (lit "leader_http", at_field nl_LeaderHTTP (fun v n => MkNotLeaderBody (nl_Error n) (nl_LeaderID n) v) decode_string)].

(** The field of a 421 body; [None] when json.Unmarshal fails. *)
Definition leader_http (data : bytes) : option bytes :=
  nl_LeaderHTTP <$> Unmarshal (decode_struct notLeaderBody_fields) data (MkNotLeaderBody [] [] []).

Section Request.
Context {W : Type} (send : W -> client_request -> W * outcome).
Context (addrs : list bytes) (token method key : bytes) (body : option bytes).

Definition request_to (addr : bytes) : client_request :=
  MkClientRequest (TrimRight_slash addr ++ lit "/kv/" ++ key) method (lit "Bearer " ++ token) body.

Definition first_untried (tried : gset bytes) : option bytes := find (fun a => bool_decide (a ∉ tried)) addrs.

(** The next address from a 421 body. *)
Definition hinted (data : bytes) : option bytes :=
  match leader_http data with
  | Some h => if bool_decide (h = []) then None else Some (if Contains h (lit "://") then h else lit "http://" ++ h)
  | None => None
  end.

(** The network afterwards, the addresses tried, in order, and the result. *)
Fixpoint request_loop (attempts : nat) (w : W) (next : bytes) (tried : list bytes) (lastErr : option bytes) :
    W * list bytes * result client_error (Z * bytes) :=
  match attempts with
  | O => (w, tried, Err (ErrExhausted lastErr))
  | S attempts =>
      let seen := list_to_set tried : gset bytes in
      match (if bool_decide (next ∈ seen) then first_untried seen else Some next) with
      | None => (w, tried, Err (ErrExhausted lastErr))
      | Some next =>
          let tried := tried ++ [next] in
          let another := default next (first_untried (list_to_set tried)) in
          match send w (request_to next) with
          | (w, NotBuilt) => (w, tried, Err ErrBuild)
          | (w, NotAnswered) => request_loop attempts w another tried (Some next)
          | (w, NotRead) => (w, tried, Err ErrRead)
          | (w, Answered status data) =>
              if status =? 421 then
                match hinted data with
                | Some leader => request_loop attempts w leader tried lastErr
                | None => request_loop attempts w another tried lastErr
                end
              else (w, tried, Ok (status, data))
          end
      end
  end.

Definition doRequest (w : W) : W * list bytes * result client_error (Z * bytes) :=
  match addrs with
  | [] => (w, [], Err ErrNoAddresses)
  | next :: _ => request_loop maxAttempts w next [] None
  end.
End Request.

(** ** The command *)

(** How the process ends: its exit code and what it printed on standard
    output. *)
Record ending := MkEnding { exit : Z; stdout : bytes }.

Section Main.
Context {W : Type} (send : W -> client_request -> W * outcome).
Context (getenv : bytes -> bytes).

Definition or_env (flag name : bytes) : bytes := if bool_decide (flag = []) then getenv name else flag.

Definition finish (cmd : bytes) (r : result client_error (Z * bytes)) : ending :=
  match r with
  | Err _ => MkEnding 1 []
  | Ok (status, data) =>
      if status =? 404 then MkEnding 1 []
      else if status >=? 400 then MkEnding 1 []
      else MkEnding 0 (data ++ (if bool_decide (cmd = lit "get") then [] else [x0a]))
  end.

Definition main (w : W) (args : list bytes) : W * ending :=
  let '(args, addrsFlag) := extractFlag args (lit "-addrs") [] in
  let '(args, tokenFlag) := extractFlag args (lit "-token") [] in
  let addrsFlag := or_env addrsFlag (lit "FORGE_CLIENT_ADDRS") in
  let token := or_env tokenFlag (lit "FORGE_CLIENT_TOKEN") in
  if bool_decide (addrsFlag = []) then (w, MkEnding 2 [])
  else if bool_decide (token = []) then (w, MkEnding 2 [])
  else
    let addrs := splitNonEmpty addrsFlag in
    if bool_decide (addrs = []) then (w, MkEnding 2 [])
    else match args with
         | cmd :: key :: rest =>
             let run method body := let '(w, _, r) := doRequest send addrs token method key body w in (w, finish cmd r) in
             if bool_decide (cmd = lit "put") then
               match rest with [] => (w, MkEnding 2 []) | value :: _ => run MethodPut (Some value) end
             else if bool_decide (cmd = lit "get") then run MethodGet None
             else if bool_decide (cmd = lit "delete") then run MethodDelete None
             else (w, MkEnding 2 [])
         | _ => (w, MkEnding 2 [])
         end.
End Main.

(** ** What a run asked *)

Section Spec.
Context {W : Type} (send : W -> client_request -> W * outcome).
Context (addrs : list bytes) (token method key : bytes) (body : option bytes).

#[local] Abbreviation to := (request_to token method key body).
#[local] Abbreviation loop := (request_loop send addrs token method key body).

(** Asking a list of addresses one after the other. *)
Fixpoint ask (w : W) (l : list bytes) : W * list outcome :=
  match l with
  | [] => (w, [])
  | a :: l => let '(w, o) := send w (to a) in let '(w, os) := ask w l in (w, o :: os)
  end.

(** An answer after which the client goes on. *)
Definition declined (o : outcome) : Prop := o = NotAnswered \/ exists data, o = Answered 421 data.

(** How the last answer makes the result. *)
Definition concludes (os : list outcome) (r : result client_error (Z * bytes)) : Prop :=
  match r with
  | Ok (status, data) => status <> 421 /\ exists os', os = os' ++ [Answered status data] /\ Forall declined os'
  | Err ErrBuild => exists os', os = os' ++ [NotBuilt] /\ Forall declined os'
  | Err ErrRead => exists os', os = os' ++ [NotRead] /\ Forall declined os'
  | Err (ErrExhausted _) => Forall declined os
  | Err ErrNoAddresses => False
  end.

(** The [i]-th address asked is configured, was asked first, or was named
    by an earlier answer. *)
Definition introduced (next : option bytes) (asked : list bytes) (os : list outcome) : Prop :=
  forall i a, asked !! i = Some a -> a ∈ addrs \/ (i = 0%nat /\ Some a = next) \/
    exists j data, (j < i)%nat /\ os !! j = Some (Answered 421 data) /\ hinted data = Some a.

Lemma concludes_cons o os r : declined o -> concludes os r -> concludes (o :: os) r.
Proof.
  intros Ho. destruct r as [[status data]|[]]; cbn; try done.
  - intros [Hs (os' & -> & Hf)]. split; [done|]. exists (o :: os'). split; [done|by constructor].
  - intros (os' & -> & Hf). exists (o :: os'). split; [done|by constructor].
  - intros (os' & -> & Hf). exists (o :: os'). split; [done|by constructor].
  - by constructor.
Qed.

Lemma first_untried_spec (seen : gset bytes) :
  match first_untried addrs seen with
  | Some a => a ∈ addrs /\ a ∉ seen
  | None => forall a, a ∈ addrs -> a ∈ seen
  end.
Proof.
  unfold first_untried. destruct (find _ _) as [a|] eqn:E.
  - apply find_some in E as [Hin E]. split; [by apply list_elem_of_In|by apply bool_decide_eq_true in E].
  - intros a Ha. apply list_elem_of_In in Ha. eapply find_none in E; [|done]. apply bool_decide_eq_false in E. by apply dec_stable.
Qed.

Lemma introduced_cons next next' a asked o os :
  (Some a = next \/ a ∈ addrs) ->
  (forall b, Some b = next' -> b ∈ addrs \/ exists data, o = Answered 421 data /\ hinted data = Some b) ->
  introduced next' asked os -> introduced next (a :: asked) (o :: os).
Proof.
  intros Ha Hn Hi [|i] b; cbn.
  - intros [= <-]. destruct Ha as [Ha|Ha]; [right; left; by split|by left].
  - intros Hb. destruct (Hi i b Hb) as [H|[[-> H]|(j & data & Hj & Ho & Hh)]]; [by left| |].
    + destruct (Hn b H) as [H'|(data & -> & Hh)]; [by left|]. right. right. exists 0%nat, data. split_and!; [lia|done|done].
    + right. right. exists (S j), data. split_and!; [lia|done|done].
Qed.

(** The address to ask next: the one planned when it is new, otherwise a
    configured one. *)
Definition planned (next : bytes) (tried : list bytes) : option bytes := if bool_decide (next ∈ tried) then None else Some next.

(** What the loop did, from [tried] on. *)
Definition went (attempts : nat) (w : W) (next : option bytes) (tried : list bytes) (w' : W) (tried' : list bytes)
    (r : result client_error (Z * bytes)) : Prop :=
  exists asked os, tried' = tried ++ asked /\ ask w asked = (w', os) /\ NoDup tried' /\ (length asked <= attempts)%nat /\
    concludes os r /\ introduced next asked os /\
    (forall e, r = Err (ErrExhausted e) -> length asked = attempts \/ forall a, a ∈ addrs -> a ∈ tried').

Lemma went_nowhere attempts w next tried e :
  NoDup tried -> attempts = 0%nat \/ (forall a, a ∈ addrs -> a ∈ tried) -> went attempts w next tried w tried (Err (ErrExhausted e)).
Proof.
  intros Hn Hd. exists [], []. rewrite app_nil_r. split_and!; try done; [cbn; lia|constructor|].
  intros _ _. destruct Hd as [->|Hd]; [by left|by right].
Qed.

Lemma went_on k w next tried cur w1 o next' w' tried' r :
  send w (to cur) = (w1, o) -> declined o -> Some cur = next \/ cur ∈ addrs ->
  (forall b, Some b = next' -> b ∈ addrs \/ exists data, o = Answered 421 data /\ hinted data = Some b) ->
  went k w1 next' (tried ++ [cur]) w' tried' r -> went (S k) w next tried w' tried' r.
Proof.
  intros Es Hd Hc Hb (asked & os & -> & Ea & H1 & H2 & H3 & H4 & H5).
  exists (cur :: asked), (o :: os). cbn [ask length]. rewrite Es, Ea, <- app_assoc. rewrite <- app_assoc in H1, H5.
  split_and!; [done|done|done|lia|by apply concludes_cons|by eapply introduced_cons|].
  intros e He. destruct (H5 e He); [left; lia|by right].
Qed.

Lemma went_last k w next tried cur w1 o r :
  send w (to cur) = (w1, o) -> Some cur = next \/ cur ∈ addrs -> NoDup (tried ++ [cur]) ->
  concludes [o] r -> (forall e, r <> Err (ErrExhausted e)) -> went (S k) w next tried w1 (tried ++ [cur]) r.
Proof.
  intros Es Hf Hn Hc Hne. exists [cur], [o]. cbn [ask length]. rewrite Es.
  split_and!; [done|done|done|lia|done| |naive_solver]. intros [|i] a; [|done]. intros [= <-].
  destruct Hf; [right; left; by split|by left].
Qed.

Lemma another_planned tried cur b :
  Some b = planned (default cur (first_untried addrs (list_to_set (tried ++ [cur])))) (tried ++ [cur]) -> b ∈ addrs.
Proof.
  pose proof (first_untried_spec (list_to_set (tried ++ [cur]))) as F. unfold planned.
  destruct (first_untried addrs _) as [a|]; cbn [default].
  - case_bool_decide; [done|]. intros [= ->]. apply F.
  - rewrite bool_decide_eq_true_2 by set_solver. done.
Qed.

Lemma current_planned next tried :
  match (if bool_decide (next ∈ (list_to_set tried : gset bytes)) then first_untried addrs (list_to_set tried) else Some next) with
  | Some cur => cur ∉ tried /\ (Some cur = planned next tried \/ cur ∈ addrs)
  | None => forall a, a ∈ addrs -> a ∈ tried
  end.
Proof.
  unfold planned. rewrite (bool_decide_ext (next ∈ (list_to_set tried : gset bytes)) (next ∈ tried)) by set_solver.
  case_bool_decide as Hin; [|split; [done|by left]]. pose proof (first_untried_spec (list_to_set tried)) as F.
  destruct (first_untried addrs _) as [a|]; [destruct F; split; [set_solver|by right]|].
  intros a Ha. specialize (F a Ha). set_solver.
Qed.

Lemma request_loop_spec attempts w next tried lastErr w' tried' r :
  loop attempts w next tried lastErr = (w', tried', r) -> NoDup tried -> went attempts w (planned next tried) tried w' tried' r.
Proof.
  revert w next tried lastErr. induction attempts as [|k IH]; intros w next tried lastErr; cbn [request_loop].
  { intros [= <- <- <-] Hn. apply went_nowhere; [done|by left]. }
  intros E Hn. pose proof (current_planned next tried) as F. destruct (if bool_decide _ then _ else _) as [cur|].
  2: { injection E as <- <- <-. apply went_nowhere; [done|by right]. }
  destruct F as [Hcur Hfrom]. assert (NoDup (tried ++ [cur])) as Hn'.
  { rewrite <- Permutation_cons_append. by constructor. }
  pose proof (another_planned tried cur) as Hnext. destruct (send w (to cur)) as [w1 [| | |status data]] eqn:Es.
  - injection E as <- <- <-. eapply went_last; [done..|by exists []|done].
  - eapply went_on; [done|by left|done| |by eapply IH]. intros b Hb. left. by apply Hnext.
  - injection E as <- <- <-. eapply went_last; [done..|by exists []|done].
  - destruct (Z.eqb_spec status 421) as [->|Hs].
    + destruct (hinted data) as [h|] eqn:Eh;
        (eapply went_on; [done|right; by exists data|done| |by eapply IH]).
      * unfold planned. case_bool_decide; [done|]. intros b [= ->]. right. by exists data.
      * intros b Hb. left. by apply Hnext.
    + injection E as <- <- <-. eapply went_last; [done..| |done]. split; [done|]. by exists [].
Qed.

Lemma request_loop_first k w next lastErr : head (loop (S k) w next [] lastErr).1.2 = Some next.
Proof.
  assert (forall w' n le, head (loop k w' n [next] le).1.2 = Some next) as Hgo.
  { intros w' n le. destruct (loop k w' n [next] le) as [[w2 tried'] r] eqn:E.
    apply request_loop_spec in E as (asked & os & -> & _); [done|apply NoDup_singleton]. }
  cbn [request_loop]. rewrite bool_decide_eq_false_2 by set_solver. cbn [app].
  destruct (send w (to next)) as [w1 [| | |status data]]; try done. destruct (status =? 421); [|done].
  by destruct (hinted data).
Qed.
End Spec.

(** ** Theorems *)

(** C37. A client request is bounded and never asks twice: it contacts at most
    six distinct addresses, the first configured one first, every other one
    either configured or named by a node that answered 421; it goes on only
    while nodes decline or do not answer, returns the first other answer as
    it came, and gives up only after six nodes or after all configured
    addresses were asked. *)
Theorem doRequest_bounded {W} (send : W -> client_request -> W * outcome) addrs token method key body w :
  let '(w', asked, r) := doRequest send addrs token method key body w in
  exists os, ask send token method key body w asked = (w', os) /\
  NoDup asked /\ (length asked <= 6)%nat /\ (asked <> [] -> head asked = head addrs) /\
  introduced addrs (head addrs) asked os /\
  match r with
  | Err ErrNoAddresses => addrs = []
  | Err (ErrExhausted _) => Forall declined os /\ (length asked = 6%nat \/ forall a, a ∈ addrs -> a ∈ asked)
  | r => concludes os r
  end.
Proof.
  unfold doRequest. destruct addrs as [|next addrs].
  { exists []. split_and!; try done; [constructor|cbn; lia]. }
  pose proof (request_loop_first send (next :: addrs) token method key body 5 w next None) as Hfirst.
  change 6%nat with maxAttempts in Hfirst. destruct (request_loop _ _ _ _ _ _ maxAttempts w next [] None) as [[w' asked] r] eqn:E.
  apply request_loop_spec in E as (asked' & os & -> & Ea & Hn & Hl & Hc & Hi & Hx); [|constructor].
  exists os. cbn [app fst snd head] in *. split_and!; try done.
  destruct r as [[status data]|[]]; try done. split; [done|]. by eapply Hx.
Qed.

(** A key with a question mark is cut short: the URL is built from the key
    as it is, so that what follows the mark becomes the query. *)
Theorem client_truncates_key addr token method k1 k2 body :
  x3f ∉ TrimRight_slash addr -> x3f ∉ k1 ->
  cut_at x3f (cr_url (request_to token method (k1 ++ [x3f] ++ k2) body addr)) =
  Some (cr_url (request_to token method k1 body addr), k2).
Proof.
  intros Ha Hk. unfold request_to. cbn [cr_url]. rewrite !app_assoc, <- (app_assoc _ [x3f] k2). apply cut_at_app.
  rewrite !elem_of_app. intros [[?|H]|?]; [done| |done]. revert H. apply (bool_decide_eq_true_1 _). vm_compute. reflexivity.
Qed.

(** ** A run *)

(** Node b leads; a knows it, c is down. *)
Definition toy_send (w : list client_request) (r : client_request) : list client_request * outcome :=
  (w ++ [r],
   if HasPrefix (cr_url r) (lit "http://a/") then Answered 421 (Encode (JObj [(lit "leader_http", JStr (lit "b"))]))
   else if HasPrefix (cr_url r) (lit "http://b/") then Answered 200 (lit "ok") else NotAnswered).

Example client_finds_leader :
  let '(w, e) := main toy_send (fun _ => []) []
      [lit "-addrs"; lit "http://c, http://a/"; lit "put"; lit "-token=t"; lit "k"; lit "v"] in
  e = MkEnding 0 (lit "ok" ++ [x0a]) /\ (cr_url <$> w) = [lit "http://c/kv/k"; lit "http://a/kv/k"; lit "http://b/kv/k"] /\
  Forall (fun r => cr_auth r = lit "Bearer t" /\ cr_body r = Some (lit "v")) w.
Proof. vm_compute. split_and!; repeat constructor. Qed.
