(* ===== verification/ApiJson.v ===== *)
(** * The texts of the HTTP API

    The bodies that internal/api writes (server.go, kv.go) as the bytes the
    gateway and the command-line client read: JSON through
    [json.NewEncoder(w).Encode], plain texts through [http.Error]. *)

From S2P Require Import Client.
From S2P Require Import Prelude Bytes Codec Wal SkipList MemStore Command StateMachine Http Format Json.
From S2P Require Import SmSnapshot RaftLog RaftFormat RaftPersist RaftNode RaftElection RaftDurable RaftCommit.
From S2P Require Import Applier DbNode Gateway Configuration Api.
From stdpp Require Import base tactics list numbers gmap.
From Stdlib Require Import Strings.Byte.
From Stdlib Require Import ZArith Lia.
From Stdlib Require String.
Import String.StringSyntax.
#[local] Open Scope Z_scope.

(** ** Bodies *)

(** A nil slice is written as null. *)
Definition strings_json (l : list bytes) : json := match l with [] => JNull | _ => JArr (JStr <$> l) end.

Definition notLeaderResponse (leader_id leader_http : bytes) : json :=
  JObj ((lit "error", JStr (lit "not_leader")) :: omit_string (lit "leader_id") leader_id ++
        omit_string (lit "leader_http") leader_http).

Definition healthResponse (node_id : bytes) : json :=
  JObj [(lit "status", JStr (lit "alive")); (lit "node_id", JStr node_id)].

Definition readyResponse (status node_id reason : bytes) : json :=
  JObj ([(lit "status", JStr status); (lit "node_id", JStr node_id)] ++ omit_string (lit "reason") reason).

Definition Role_String (r : Role) : bytes :=
  match r with Follower => lit "Follower" | Candidate => lit "Candidate" | Leader => lit "Leader" end.

Definition RaftStatus_json (s : RaftStatus) : json :=
  JObj [(lit "NodeID", JStr (st_NodeID s)); (lit "Role", JStr (Role_String (st_Role s))); (lit "Term", JInt (st_Term s));
        (lit "LeaderID", JStr (st_LeaderID s)); (lit "CommitIndex", JInt (st_CommitIndex s));
        (lit "LastApplied", JInt (st_LastApplied s)); (lit "LastLogIndex", JInt (st_LastLogIndex s));
        (lit "LastLogTerm", JInt (st_LastLogTerm s)); (lit "SnapshotIndex", JInt (st_SnapshotIndex s));
        (lit "SnapshotTerm", JInt (st_SnapshotTerm s)); (lit "Peers", strings_json (st_Peers s))].

Definition PeerStatus_json (s : PeerStatus) : json :=
  JObj [(lit "PeerID", JStr (ps_PeerID s)); (lit "NextIndex", JInt (ps_NextIndex s));
        (lit "MatchIndex", JInt (ps_MatchIndex s)); (lit "Lag", JInt (ps_Lag s))].

(** [uptime] is the literal of a float64. *)
Definition Status_json (uptime : bytes) (s : DbStatus) : json :=
  JObj ([(lit "node_id", JStr (dbst_NodeID s)); (lit "process_uptime_seconds", JNum uptime);
         (lit "raft", RaftStatus_json (dbst_Raft s))] ++
        (if bool_decide (length (dbst_Peers s) = 0%nat) then [] else [(lit "peers", JArr (PeerStatus_json <$> dbst_Peers s))]) ++
        [(lit "storage", JObj [(lit "memtable_entries", JInt (dbst_Storage s).1); (lit "memtable_bytes", JInt (dbst_Storage s).2)])]).

Definition read_barrier_text : bytes :=
  lit "raft: read barrier unavailable: could not confirm quorum for a linearizable read".

Section Texts.
(** The text of the error at hand, the process's uptime and the rendered
    metrics. *)
Context (detail uptime metrics : bytes).

Definition body_json (b : api_body) : option json :=
  match b with
  | StatusJSON what => Some (JObj [(lit "status", JStr what)])
  | NotLeaderJSON leader_id leader_http => Some (notLeaderResponse leader_id leader_http)
  | ReadUnavailableJSON =>
      Some (JObj [(lit "error", JStr (lit "read_unavailable")); (lit "reason", JStr read_barrier_text)])
  | SnapshotJSON index => Some (JObj [(lit "snapshot_index", JInt index); (lit "status", JStr (lit "ok"))])
  | HealthJSON node_id => Some (healthResponse node_id)
  | ReadyJSON node_id true => Some (readyResponse (lit "ready") node_id [])
  | ReadyJSON node_id false => Some (readyResponse (lit "not_ready") node_id detail)
  | ClusterJSON status => Some (Status_json uptime status)
  | NoBody | Text _ | Failure _ | Value _ | MetricsText => None
  end.

Definition body_text (b : api_body) : bytes :=
  match body_json b with
  | Some j => Encode j
  | None =>
      match b with
      | Text message => message ++ [x0a]
      | Failure message => message ++ lit ": " ++ detail ++ [x0a]
      | Value value => value
      | MetricsText => metrics
      | _ => []
      end
  end.

(** What reaches the caller, apart from the headers net/http adds. *)
Definition sent (r : api_response) : response := MkResponse (code r) (resp_headers r) (body_text (body r)).
End Texts.

(** ** Every JSON body is a JSON text *)

Lemma strings_nested n l : nested (S n) (strings_json l).
Proof. destruct l as [|s l]; [done|]. apply nested_JArr, Forall_fmap, Forall_forall. intros x _. apply nested_JStr. Qed.

Lemma PeerStatus_nested n s : nested (S n) (PeerStatus_json s).
Proof. unfold PeerStatus_json. auto 10 with json. Qed.

Lemma RaftStatus_nested n s : nested (S (S n)) (RaftStatus_json s).
Proof. unfold RaftStatus_json. pose proof (strings_nested n (st_Peers s)). auto 16 with json. Qed.

#[local] Hint Resolve strings_nested PeerStatus_nested RaftStatus_nested : json.

Lemma Status_nested uptime s : read_number uptime = Some (uptime, []) -> nested 3 (Status_json uptime s).
Proof.
  intros Hu. unfold Status_json. apply nested_JObj, Forall_app_2; [auto with json|]. apply Forall_app_2; [|auto 10 with json].
  case_bool_decide; [auto with json|]. apply Forall_cons_2; [|auto with json]. apply nested_member, nested_JArr, Forall_fmap, Forall_forall.
  intros x _. apply PeerStatus_nested.
Qed.

Lemma body_nested detail uptime b j : read_number uptime = Some (uptime, []) -> body_json detail uptime b = Some j -> nested 3 j.
Proof.
  intros Hu. destruct b as [| | | |what|id addr| |index|node_id|node_id []|status|]; intros [= <-]; unfold notLeaderResponse, healthResponse, readyResponse;
    auto 10 with json. by apply Status_nested.
Qed.

(** Every JSON body is a JSON text, and its reader gets the members it was
    written from, up to bytes of its strings that are not UTF-8. *)
Theorem body_text_reads detail uptime metrics b j :
  read_number uptime = Some (uptime, []) -> body_json detail uptime b = Some j ->
  read_json (body_text detail uptime metrics b) = Some (clean_json j).
Proof.
  intros Hu Hj. unfold body_text. rewrite Hj. apply read_Encode, (nested_allowed 3); [lia|]. by eapply body_nested.
Qed.

(** ** Hints come back *)

Lemma notLeader_read leader_id addr :
  read_json (Encode (notLeaderResponse leader_id addr)) =
  Some (JObj ((lit "error", JStr (lit "not_leader")) :: (if bool_decide (leader_id = []) then [] else [(lit "leader_id", JStr (sanitize leader_id))]) ++
              (if bool_decide (addr = []) then [] else [(lit "leader_http", JStr (sanitize addr))]))).
Proof.
  assert (nested 1 (notLeaderResponse leader_id addr)) as Hn by (unfold notLeaderResponse; auto with json).
  rewrite read_Encode by (by apply (nested_allowed 1); [lia|]). unfold notLeaderResponse, omit_string.
  by repeat case_bool_decide.
Qed.

Lemma gateway_leader_http detail uptime metrics leader_id addr :
  leader_http (body_text detail uptime metrics (NotLeaderJSON leader_id addr)) = Some (sanitize addr).
Proof.
  unfold leader_http, Unmarshal, body_text. cbn [body_json]. rewrite notLeader_read.
  repeat case_bool_decide; subst; done.
Qed.

Lemma client_leader_http detail uptime metrics leader_id addr :
  Client.leader_http (body_text detail uptime metrics (NotLeaderJSON leader_id addr)) = Some (sanitize addr).
Proof.
  unfold Client.leader_http, Unmarshal, body_text. cbn [body_json]. rewrite notLeader_read.
  repeat case_bool_decide; subst; done.
Qed.

(** C23. The hint in a "not the leader" answer arrives: when a node of the
    gateway's roster knows the leader's address, the bytes it answers with
    lead the gateway to the very backend it was configured with for that
    member, and the command-line client to the same address. *)
Theorem leader_hint_arrives Getenv (gw : GatewayConfig) (c : NodeConfig) (s : Server) detail uptime metrics http :
  LoadGateway Getenv = Ok gw -> ParsePeers (Getenv (lit "PEERS")) = Ok (Peers c) -> peerHTTP s = PeerHTTPAddrs c ->
  leaderID (db_raft (node s)) <> [] -> PeerHTTPAddrs c !! leaderID (db_raft (node s)) = Some http -> ValidString http = true ->
  let answer := sent detail uptime metrics (writeNotLeader s) in
  status answer = StatusMisdirectedRequest /\ parseLeaderHint (resp_body answer) = httpURL http /\
  isTrustedBackend (NewProxy (ga_Backends gw) (Some (ga_MaxBodyBytes gw))) (httpURL http) = true /\
  Client.hinted (resp_body answer) = Some (httpURL http) /\
  exists peer, peer ∈ Peers c /\ p_ID peer = leaderID (db_raft (node s)) /\ p_HTTP peer = http.
Proof.
  intros Hgw Hps Hpeer Hl Haddr Hv answer.
  assert (resp_body answer = body_text detail uptime metrics (NotLeaderJSON (leaderID (db_raft (node s))) http)) as Hbody.
  { unfold answer, sent, writeNotLeader. cbn [resp_body body writeJSON]. rewrite Hpeer, Haddr. by rewrite bool_decide_eq_false_2. }
  destruct (leader_hints_are_trusted Getenv gw c (resp_body answer) _ http Hgw Hps Haddr) as (H1 & H2 & peer & H3).
  { rewrite Hbody, gateway_leader_http. by rewrite valid_sanitize. }
  rewrite H1 in H2. split_and!; [done|done|done| |by exists peer].
  unfold Client.hinted. rewrite Hbody, client_leader_http, valid_sanitize by done.
  rewrite bool_decide_eq_false_2; [done|]. intros ->. revert H1. rewrite Hbody. unfold parseLeaderHint.
  by rewrite gateway_leader_http.
Qed.

(** ** Witnesses *)

Definition hinting_server : Server :=
  NewServer (node trio_server) token 5 [WithPeerHTTPAddrs (PeerHTTPAddrs (trio_config na))].

Lemma leader_hint_arrives_witness :
  parseLeaderHint (resp_body (sent [] (lit "1.5") [] (writeNotLeader hinting_server))) = lit "http://h1:8081" /\
  Client.hinted (resp_body (sent [] (lit "1.5") [] (writeNotLeader hinting_server))) = Some (lit "http://h1:8081").
Proof.
  destruct (LoadGateway (trio_env na)) as [gw|] eqn:E; [|exfalso; vm_compute in E; discriminate].
  destruct (leader_hint_arrives (trio_env na) gw (trio_config na) hinting_server [] (lit "1.5") [] (lit "h1:8081"))
    as (_ & H1 & _ & H2 & _); [done|vm_compute; reflexivity|reflexivity|vm_compute; discriminate|vm_compute; reflexivity|reflexivity|].
  split; [exact H1|exact H2].
Defined.
