(* ===== verification/EndToEnd.v ===== *)
(** * A request through the gateway

    internal/gateway in front of internal/api: the gateway's requests reach
    the nodes' own handlers, and their answers come back as bytes. A member
    is a node in the state in which the request finds it, with what the
    network does to that exchange; the gateway contacts no node twice, so one
    state per node is enough. *)

From S2P Require Import Prelude Bytes Codec Wal SkipList MemStore Command StateMachine Http Format Json.
From S2P Require Import SmSnapshot RaftLog RaftFormat RaftPersist RaftNode RaftElection RaftDurable RaftCommit.
From S2P Require Import Applier DbNode Api Gateway ApiJson.
From stdpp Require Import base tactics list numbers gmap.
From Stdlib Require Import Strings.Byte.
From Stdlib Require Import ZArith Lia.
From Stdlib Require String.
Import String.StringSyntax.
#[local] Open Scope Z_scope.

(** ** Targets: net/url *)

Definition is_ctl (b : byte) : bool := (byte_val b <? 32) || (byte_val b =? 127).

(** The part before the first [b], and the part after it. *)
Definition before (b : byte) (s : bytes) : bytes := match cut_at b s with Some (l, _) => l | None => s end.
Definition after (b : byte) (s : bytes) : bytes := match cut_at b s with Some (_, r) => r | None => [] end.

(** Escapes in a path. *)
Fixpoint unescape (s : bytes) : option bytes :=
  match s with
  | [] => Some []
  | b :: s =>
      if bool_decide (b = x25) then
        match s with
        | h :: l :: s =>
            match hex_val h, hex_val l with
            | Some h, Some l => match unescape s with Some t => Some (byte_of (h * 16 + l) :: t) | None => None end
            | _, _ => None
            end
        | _ => None
        end
      else match unescape s with Some t => Some (b :: t) | None => None end
  end.

(** [url.Parse] of an absolute target, whose host is a proper one: the path
    that the server decodes, and the raw query. *)
Definition url_Parse (u : bytes) : option (bytes * bytes) :=
  let u := before x23 u in
  if existsb is_ctl u then None
  else match strip (lit "http://") u with
       | None => None
       | Some rest =>
           let path := match cut_at x2f (before x3f rest) with Some (_, p) => x2f :: p | None => [x2f] end in
           match unescape path with Some p => Some (p, after x3f rest) | None => None end
       end.

(** The request the node's handler gets. *)
Definition received (b : backend_request) : option request :=
  match url_Parse (b_target b) with
  | Some (path, query) => Some (MkRequest (b_method b) path query (b_header b) (Some (b_body b)))
  | None => None
  end.

(** ** The nodes *)

Inductive fate := Delivered | Unreachable | AnswerLost.

Record member := MkMember {
  m_server : Server; m_env : api_env; m_fate : fate; m_detail : bytes; m_uptime : bytes; m_metrics : bytes }.

Definition exchange (m : member) (b : backend_request) : Server * option response :=
  match m_fate m, received b with
  | Unreachable, _ | _, None => (m_server m, None)
  | f, Some r =>
      let '(s, resp) := Api.ServeHTTP (m_env m) (m_server m) r in
      (s, match f with AnswerLost => None | _ => Some (sent (m_detail m) (m_uptime m) (m_metrics m) resp) end)
  end.

Definition with_server (m : member) (s : Server) : member :=
  MkMember s (m_env m) (m_fate m) (m_detail m) (m_uptime m) (m_metrics m).

Section Request.
Context (cluster : gmap bytes member).

Definition network (addr : bytes) (b : backend_request) : option response :=
  match cluster !! addr with None => None | Some m => (exchange m b).2 end.

(** One request: the proxy and the nodes afterwards, and the reply. *)
Definition gateway_request (p : Proxy) (r : request) : Proxy * gmap bytes member * reply :=
  let '(p', contacted, rep) := Gateway.ServeHTTP network p r in
  let body := default [] (readLimited (r_body r) (maxBodyBytes p)) in
  (p', map_imap (fun a m => Some (if bool_decide (a ∈ contacted)
                                  then with_server m (exchange m (forward_request a r body)).1 else m)) cluster, rep).
End Request.

(** ** What arrives *)

(** Bytes that mean nothing in a URL but themselves, and those of a host. *)
Definition plain_byte (b : byte) : bool := negb (is_ctl b) && negb (bool_decide (b ∈ [x23; x25; x3f])).
Definition host_byte (b : byte) : bool := plain_byte b && negb (bool_decide (b = x2f)).
Definition query_byte (b : byte) : bool := negb (is_ctl b) && negb (bool_decide (b = x23)).

Definition backend_addr (addr : bytes) : Prop :=
  exists host, addr = lit "http://" ++ host /\ host <> [] /\ forallb host_byte host = true.

Definition plain_path (path : bytes) : Prop := head path = Some x2f /\ forallb plain_byte path = true.

Lemma before_absent b s : b ∉ s -> before b s = s.
Proof. intros Hb. unfold before. by rewrite (proj2 (cut_at_None b s)). Qed.

Lemma before_app b l r : b ∉ l -> before b (l ++ b :: r) = l.
Proof. intros Hb. unfold before. by rewrite cut_at_app. Qed.

Lemma after_absent b s : b ∉ s -> after b s = [].
Proof. intros Hb. unfold after. by rewrite (proj2 (cut_at_None b s)). Qed.

Lemma after_app b l r : b ∉ l -> after b (l ++ b :: r) = r.
Proof. intros Hb. unfold after. by rewrite cut_at_app. Qed.

Lemma forallb_absent (f : byte -> bool) b s : f b = false -> forallb f s = true -> b ∉ s.
Proof. intros Hb Hs Hin. rewrite forallb_forall in Hs. apply list_elem_of_In in Hin. specialize (Hs b Hin). congruence. Qed.

Lemma forallb_mono {A} (f g : A -> bool) s : (forall a, f a = true -> g a = true) -> forallb f s = true -> forallb g s = true.
Proof. intros Hfg. rewrite !forallb_forall. auto. Qed.

Lemma existsb_none {A} (f : A -> bool) s : forallb (fun a => negb (f a)) s = true -> existsb f s = false.
Proof. induction s as [|a s IH]; [done|]. cbn. rewrite andb_true_iff, negb_true_iff. intros [-> Hs]. by apply IH. Qed.

Lemma host_plain b : host_byte b = true -> plain_byte b = true.
Proof. unfold host_byte. by rewrite andb_true_iff; intros []. Qed.

Lemma plain_query b : plain_byte b = true -> query_byte b = true.
Proof.
  unfold plain_byte, query_byte. rewrite !andb_true_iff, !negb_true_iff. intros [-> Hb%bool_decide_eq_false]. split; [done|].
  apply bool_decide_eq_false. set_solver.
Qed.

Lemma query_printable b : query_byte b = true -> negb (is_ctl b) = true.
Proof. unfold query_byte. by rewrite andb_true_iff; intros []. Qed.

Lemma TrimRight_addr addr : backend_addr addr -> TrimRight_slash addr = addr.
Proof.
  intros (host & -> & Hne & Hh). destruct host as [|b host _] using rev_ind; [done|]. rewrite app_assoc. unfold TrimRight_slash.
  rewrite reverse_snoc. cbn [drop_while]. rewrite bool_decide_eq_false_2.
  - by rewrite reverse_cons, reverse_involutive.
  - rewrite forallb_app in Hh. apply andb_true_iff in Hh as [_ Hb]. intros ->. discriminate Hb.
Qed.

Lemma unescape_plain s : forallb plain_byte s = true -> unescape s = Some s.
Proof.
  induction s as [|b s IH]; [done|]. cbn [forallb unescape]. rewrite andb_true_iff. intros [Hb Hs].
  rewrite bool_decide_eq_false_2 by (intros ->; discriminate Hb). by rewrite IH.
Qed.

(** The target the gateway builds is read as the path and the query it was
    built from. *)
Lemma url_Parse_target addr path query : backend_addr addr -> plain_path path -> forallb query_byte query = true ->
  url_Parse (let target := TrimRight_slash addr ++ path in
             if bool_decide (query = []) then target else target ++ [x3f] ++ query) = Some (path, query).
Proof.
  intros Ha [Hp Hpath] Hq. rewrite (TrimRight_addr addr Ha). destruct Ha as (host & -> & _ & Hh).
  destruct path as [|b path]; [done|]. injection Hp as ->.
  assert (forallb plain_byte host = true) as Hhp by (eapply forallb_mono; [apply host_plain|done]).
  assert (forallb plain_byte (host ++ x2f :: path) = true) as Hrest by (rewrite forallb_app, Hhp; done).
  pose proof (forallb_absent plain_byte x3f _ eq_refl Hrest) as Hmark.
  set (rest := host ++ x2f :: path) in *.
  assert (forall tail, (tail = [] /\ query = []) \/ tail = x3f :: query -> url_Parse (lit "http://" ++ rest ++ tail) = Some (x2f :: path, query)) as Hgo.
  { intros tail Ht. assert (forallb query_byte (lit "http://" ++ rest ++ tail) = true) as Hall.
    { rewrite !forallb_app. replace (forallb query_byte rest) with true
        by (symmetry; eapply forallb_mono; [apply plain_query|done]). by destruct Ht as [[-> _]| ->]. }
    unfold url_Parse. rewrite before_absent by (by eapply (forallb_absent query_byte)).
    rewrite existsb_none by (by eapply forallb_mono; [apply query_printable|]).
    change (strip (lit "http://") (lit "http://" ++ rest ++ tail)) with (Some (rest ++ tail)). cbv iota beta.
    assert (before x3f (rest ++ tail) = rest /\ after x3f (rest ++ tail) = query) as [-> ->].
    { destruct Ht as [[-> ->]| ->]; [rewrite app_nil_r; by rewrite before_absent, after_absent|by rewrite before_app, after_app]. }
    unfold rest. rewrite cut_at_app by (by eapply (forallb_absent host_byte)). by rewrite unescape_plain. }
  rewrite <- app_assoc. fold rest. case_bool_decide as Eq; cbv zeta.
  - rewrite <- (app_nil_r rest). apply Hgo. by left.
  - rewrite <- app_assoc. apply Hgo. by right.
Qed.

(** The client's request as a node's handler gets it: without the headers of
    the connection. *)
Definition onward (r : request) (body : bytes) : request :=
  MkRequest (r_method r) (r_path r) (r_query r) (copyHeader (r_header r)) (Some body).

Lemma received_forward addr r body : backend_addr addr -> plain_path (r_path r) -> forallb query_byte (r_query r) = true ->
  received (forward_request addr r body) =
  Some (onward r body).
Proof. intros Ha Hp Hq. unfold received, forward_request. cbn [b_target]. by rewrite url_Parse_target. Qed.

Lemma header_Get_forwarded h : header_Get (copyHeader h) Authorization = header_Get h Authorization.
Proof.
  unfold header_Get, copyHeader, header. induction h as [|[k v] h IH]; [done|]. rewrite filter_cons. cbn [fst].
  destruct (decide (k = Authorization)) as [->|Hk].
  - rewrite decide_True by reflexivity. cbn [find]. by rewrite bool_decide_eq_true_2.
  - cbn [find]. rewrite (bool_decide_eq_false_2 (k = Authorization)) by done.
    case_decide; [|done]. cbn [find fst]. by rewrite bool_decide_eq_false_2.
Qed.

(** ** What a request does to the nodes *)

Section Effects.
Context (cluster : gmap bytes member) (p : Proxy) (r : request).
Context (Hp : proxy_ok p) (Haddrs : Forall backend_addr (backends p)).
Context (Hpath : plain_path (r_path r)) (Hquery : forallb query_byte (r_query r) = true).

Lemma exchange_spec addr m body : addr ∈ backends p ->
  exchange m (forward_request addr r body) =
  match m_fate m with
  | Unreachable => (m_server m, None)
  | f => let '(s, resp) := Api.ServeHTTP (m_env m) (m_server m) (onward r body) in
         (s, match f with AnswerLost => None | _ => Some (sent (m_detail m) (m_uptime m) (m_metrics m) resp) end)
  end.
Proof.
  intros Ha. unfold exchange. rewrite received_forward; [by destruct (m_fate m)| |done|done].
  rewrite Forall_forall in Haddrs. by apply Haddrs.
Qed.

(** An answer the client gets is one node's own, to the client's request. *)
Lemma relayed_by p' cluster' resp : gateway_request cluster p r = (p', cluster', Relayed resp) ->
  exists addr m body s' answer, addr ∈ backends p /\ cluster !! addr = Some m /\
    readLimited (r_body r) (maxBodyBytes p) = Some body /\
    Api.ServeHTTP (m_env m) (m_server m) (onward r body) = (s', answer) /\ cluster' !! addr = Some (with_server m s') /\
    code answer <> 421 /\ resp = writeResponse (sent (m_detail m) (m_uptime m) (m_metrics m) answer).
Proof.
  intros E. unfold gateway_request in E. destruct (Gateway.ServeHTTP _ p r) as [[p1 contacted] rep1] eqn:Eg. injection E as <- <- ->.
  apply ServeHTTP_trail in Eg as (_ & _ & _ & _ & Hin & addr & before & body & raw & -> & _ & Hl & _ & Hd & H421 & ->); [|done].
  assert (addr ∈ backends p) as Ha by (apply Hin; set_solver).
  unfold network in Hd. destruct (cluster !! addr) as [m|] eqn:Hc; [|done].
  pose proof (exchange_spec addr m body Ha) as Hex. destruct (Api.ServeHTTP _ _ _) as [s' answer] eqn:Es.
  destruct (m_fate m); rewrite Hex in Hd; try done. injection Hd as <-.
  exists addr, m, body, s', answer. split_and!; try done.
  rewrite map_lookup_imap, Hc. cbn. rewrite bool_decide_eq_true_2 by set_solver. rewrite Hl.
  change (default [] (Some body)) with body. by rewrite Hex.
Qed.
End Effects.

Lemma bearerTokenValid_forwarded r body token :
  bearerTokenValid (onward r body) token = bearerTokenValid r token.
Proof. unfold bearerTokenValid. cbn [onward r_header]. by rewrite header_Get_forwarded. Qed.

Lemma kv_plain path key : path = lit "/kv/" ++ key -> forallb plain_byte key = true -> plain_path path.
Proof. intros -> Hk. split; [done|]. by rewrite forallb_app, Hk. Qed.

(** C21. No credentials, no effect: a request to a protected route, with a
    method other than OPTIONS (a preflight is answered without a token),
    whose token none of the nodes accepts leaves every node as it was,
    whatever the gateway tries, and an answer the client gets is a node's
    401. The backends are http://host, the path has no control byte, number
    sign, percent sign or question mark and the query no control byte or
    number sign, so that the forwarded URL is the one asked for. *)
Theorem gateway_unauthorised cluster p r p' cluster' rep :
  proxy_ok p -> Forall backend_addr (backends p) -> plain_path (r_path r) -> forallb query_byte (r_query r) = true ->
  protected (route_of (r_path r)) = true -> r_method r <> MethodOptions ->
  (forall a m, cluster !! a = Some m -> bearerTokenValid r (apiToken (m_server m)) = false) ->
  gateway_request cluster p r = (p', cluster', rep) ->
  cluster' = cluster /\ forall resp, rep = Relayed resp -> status resp = 401.
Proof.
  intros Hp Haddrs Hpath Hq Hprot Hm Htok E. unfold gateway_request in E.
  destruct (Gateway.ServeHTTP _ p r) as [[p1 contacted] rep1] eqn:Eg. injection E as <- <- <-.
  apply ServeHTTP_trail in Eg as (_ & _ & _ & _ & Hin & Hrep); [|done].
  assert (forall a m body, a ∈ backends p -> cluster !! a = Some m ->
    (exchange m (forward_request a r body)).1 = m_server m /\
    forall resp, (exchange m (forward_request a r body)).2 = Some resp -> status resp = 401) as Hex.
  { intros a m body Ha Hl. rewrite (exchange_spec p r Haddrs Hpath Hq a m body Ha).
    destruct (ServeHTTP_denied (m_env m) (m_server m) (onward r body)) as [D1 D2]; [done|done| |].
    { rewrite bearerTokenValid_forwarded. by eapply Htok. }
    destruct (Api.ServeHTTP _ _ _) as [s resp0]. cbn [fst snd] in *. subst s.
    destruct (m_fate m); (split; [done|]); intros resp [= <-]; done. }
  split.
  - apply map_eq. intros a. rewrite map_lookup_imap. destruct (cluster !! a) as [m|] eqn:Hl; [|done]. cbn.
    case_bool_decide as Hc; [|done]. destruct (Hex a m (default [] (readLimited (r_body r) (maxBodyBytes p)))) as [-> _]; auto.
    by destruct m.
  - intros resp ->. destruct Hrep as (addr & before & body & raw & -> & _ & _ & _ & Hd & _ & ->).
    unfold network in Hd. destruct (cluster !! addr) as [m|] eqn:Hl; [|done].
    destruct (Hex addr m body) as [_ H]; [apply Hin; set_solver|done|]. by apply H in Hd.
Qed.

(** ** Writes and reads of one log *)

Section Log.
Context (m0 : gmap bytes bytes) (cmds : list Command).

(** A node was given the write and has applied it; the log has it at its
    index, if the entry proposed is the one committed there and the node's
    earlier commands carry smaller request numbers. *)
Definition written_to (cluster cluster' : gmap bytes member) (p : Proxy) (r : request) (key value : bytes) : Prop :=
  exists addr m m' cmd index term k,
    addr ∈ backends p /\ cluster !! addr = Some m /\ cluster' !! addr = Some m' /\
    bearerTokenValid r (apiToken (m_server m)) = true /\
    cmd = NewPutCommand (clientID (m_server m)) (nextRequestID (m_server m)).2 key value /\
    (Propose (node (gap_propose (m_env m) (nextRequestID (m_server m)).1)) (env_faults (m_env m)) cmd).2 = Ok (index, term) /\
    index <= k /\ store_at m0 cmds k (node (m_server m')) /\
    forall i, index = Z.of_nat i + 1 -> cmds !! i = Some cmd ->
      (forall j c, (j < i)%nat -> cmds !! j = Some c -> ClientID c = ClientID cmd -> RequestID c < RequestID cmd) ->
      (state_at m0 cmds index).1 = <[key := value]> (state_at m0 cmds (Z.of_nat i)).1.

(** A node's answer is the key's value in the log, at a point not before what
    the node knew to be committed. *)
Definition read_from (cluster : gmap bytes member) (p : Proxy) (key : bytes) (resp : response) : Prop :=
  exists addr m, addr ∈ backends p /\ cluster !! addr = Some m /\
    (status resp = 200 -> exists k, commitIndex (db_raft (node (m_server m))) <= k /\
      (state_at m0 cmds k).1 !! key = Some (resp_body resp)) /\
    (status resp = 404 -> exists k, commitIndex (db_raft (node (m_server m))) <= k /\
      (state_at m0 cmds k).1 !! key = None).

(** The nodes keep the promise of [DbNode]. *)
Definition member_keeps (m : member) : Prop :=
  writes_keep m0 cmds (m_env m) /\ reads_keep m0 cmds (env_reads (m_env m)) /\ db_ok m0 cmds (node (m_server m)).
Definition all_keep (cluster : gmap bytes member) : Prop := forall a m, cluster !! a = Some m -> member_keeps m.
End Log.

(** A PUT that the client sees answered with 200. *)
Lemma put_through_gateway m0 cmds cluster p r key value p' cluster' resp :
  proxy_ok p -> Forall backend_addr (backends p) -> 0 <= maxBodyBytes p < 2 ^ 63 - 1 ->
  r_method r = MethodPut -> r_path r = lit "/kv/" ++ key -> key <> [] -> forallb plain_byte key = true ->
  forallb query_byte (r_query r) = true -> r_body r = Some value ->
  all_keep m0 cmds cluster ->
  gateway_request cluster p r = (p', cluster', Relayed resp) -> status resp = 200 ->
  written_to m0 cmds cluster cluster' p r key value.
Proof.
  intros Hp Haddrs Hmax Hm Hpath Hk Hkp Hq Hb Hok E H200.
  destruct (relayed_by cluster p r Hp Haddrs (kv_plain _ _ Hpath Hkp) Hq _ _ _ E)
    as (addr & m & body & s' & answer & Ha & Hc & Hl & Es & Hc' & _ & ->).
  assert (body = value) as -> by (rewrite Hb in Hl; by eapply readLimited_all). destruct (Hok addr m Hc) as (Hw & _ & Hdb).
  destruct (ServeHTTP_put _ _ (onward r value) key value _ _ Hm Hpath Hk eq_refl Es H200) as (Hauth & resp1 & Epr & H1).
  rewrite bearerTokenValid_forwarded in Hauth.
  assert (db_ok m0 cmds (node (gap_propose (m_env m) (nextRequestID (m_server m)).1))) as Hdb1.
  { destruct Hw as (Hgap & _). by apply (Hgap (nextRequestID (m_server m)).1). }
  destruct (proposeAndRespond_applied _ _ _ _ _ _ _ Hw Hdb1 Epr H1) as (index & term & k & Hprop & Hik & Hst).
  exists addr, m, (with_server m s'). eexists _, index, term, k. split_and!; [done|done|done|done|reflexivity|done|done|exact Hst|].
  intros i -> Hi Hlt. rewrite (fresh_command_executes _ _ _ _ Hi Hlt). unfold spec_execute. cbn [Key Op Command.Value NewPutCommand].
  by rewrite bool_decide_eq_false_2.
Qed.

(** A GET that the client sees answered. *)
Lemma get_through_gateway m0 cmds cluster p r key p' cluster' resp :
  proxy_ok p -> Forall backend_addr (backends p) ->
  r_method r = MethodGet -> r_path r = lit "/kv/" ++ key -> key <> [] -> forallb plain_byte key = true ->
  forallb query_byte (r_query r) = true ->
  all_keep m0 cmds cluster ->
  gateway_request cluster p r = (p', cluster', Relayed resp) ->
  read_from m0 cmds cluster p key resp.
Proof.
  intros Hp Haddrs Hm Hpath Hk Hkp Hq Hok E.
  destruct (relayed_by cluster p r Hp Haddrs (kv_plain _ _ Hpath Hkp) Hq _ _ _ E)
    as (addr & m & body & s' & answer & Ha & Hc & _ & Es & _ & _ & ->).
  destruct (Hok addr m Hc) as (_ & Hr & Hdb). exists addr, m. split_and!; [done|done|..].
  all: destruct (ServeHTTP_get _ _ (onward r body) key _ _ Hm Hpath Hk Es) as [H200 H404].
  - intros (value & Hv & Hget)%H200. apply (ConsistentGet_spec m0 cmds) in Hget as (k & Hle & Hlk); [|done..].
    exists k. split; [done|]. rewrite Hlk. cbn [writeResponse resp_body sent]. by rewrite Hv.
  - intros Hget%H404. by apply (ConsistentGet_spec m0 cmds) in Hget as [_ ?].
Qed.

(** A write whose answer is lost is sent to the next node, which proposes it
    under its own client name: what another client wrote in between is
    overwritten by the older value, although the two proposals are one
    request. *)
Theorem retried_write_overwrites m0 key v w a b c i j n :
  key <> [] -> a <> b -> a <> c -> b <> c ->
  let cmds := [NewPutCommand a i key v; NewPutCommand c n key w; NewPutCommand b j key v] in
  (state_at m0 cmds 1).1 !! key = Some v /\ (state_at m0 cmds 2).1 !! key = Some w /\ (state_at m0 cmds 3).1 !! key = Some v.
Proof.
  intros Hk Hab Hac Hbc cmds.
  assert (forall x, x ∈ cmds -> Key x = key /\ Op x = OpPut) as Hputs by (unfold cmds; set_solver).
  assert (forall i cmd, cmds !! i = Some cmd -> (state_at m0 cmds (Z.of_nat i + 1)).1 !! key = Some (Command.Value cmd)) as Hgo.
  { intros x cmd Hx. rewrite (fresh_command_executes m0 cmds x cmd Hx).
    - unfold spec_execute. destruct (Hputs cmd) as [-> ->]; [by eapply list_elem_of_lookup_2|].
      rewrite bool_decide_eq_false_2, bool_decide_eq_true_2 by done. apply lookup_insert_eq.
    - intros y d Hy Hd Hcid. exfalso. destruct x as [|[|[|x]]]; [lia|..]; destruct y as [|[|y]]; try lia; try done;
        injection Hx as <-; injection Hd as <-; cbn in Hcid; congruence. }
  split_and!; [apply (Hgo 0%nat (NewPutCommand a i key v))|apply (Hgo 1%nat (NewPutCommand c n key w))|
    apply (Hgo 2%nat (NewPutCommand b j key v))]; reflexivity.
Qed.

(** ** Witnesses *)

Definition pair_proxy : Proxy := NewProxy [lit "http://h0:8080"; lit "http://h1:8081"] None.
Definition pair_member (f : fate) : member := MkMember solo_server (env_with idle catch_up) f [] (lit "1.5") [].
(** The first node cannot be reached. *)
Definition pair_cluster : gmap bytes member :=
  <[lit "http://h0:8080" := pair_member Unreachable]> {[lit "http://h1:8081" := pair_member Delivered]}.

Lemma pair_cluster_elem a m : pair_cluster !! a = Some m -> exists f, m = pair_member f.
Proof. unfold pair_cluster. intros [[_ <-]|[_ [_ <-]%lookup_singleton_Some]]%lookup_insert_Some; by eexists. Qed.

Lemma pair_addrs : Forall backend_addr (backends pair_proxy).
Proof.
  apply Forall_cons_2; [exists (lit "h0:8080"); by split_and!|]. apply Forall_cons_2; [|constructor].
  exists (lit "h1:8081"). by split_and!.
Qed.

Lemma solo_server_ok : db_ok ∅ [put_a] (node solo_server).
Proof. exists (0). split; [vm_compute; congruence|]. split; [exact sample_store_inv|reflexivity]. Qed.

Lemma idle_server_keeps : keeps ∅ [put_a] idle.
Proof. intros s Hs. by split. Qed.

Lemma gateway_unauthorised_witness :
  let r := MkRequest MethodPut (lit "/kv/a") [] [(Authorization, [lit "Bearer guess"])] (Some [x31]) in
  (gateway_request pair_cluster pair_proxy r).1.2 = pair_cluster.
Proof.
  intros r. destruct (gateway_request pair_cluster pair_proxy r) as [[p' cl'] rep] eqn:E.
  destruct (gateway_unauthorised pair_cluster pair_proxy r p' cl' rep) as [H _];
    [by left|exact pair_addrs|by split|done|reflexivity|vm_compute; discriminate| |exact E|exact H].
  by intros a m [f ->]%pair_cluster_elem.
Defined.
