(* ===== verification/ClusterService.v ===== *)
(** * The service over the cluster

    The whole system: the Raft cluster with its replicas ([Replica]), whose
    nodes serve HTTP requests ([Api]) that come through a gateway
    ([EndToEnd]). The handlers' theorems are proved against the promise that
    [DbNode] states of a node and of the goroutines around it; here the
    cluster's runs are shown to keep it. *)

From S2P Require Import Prelude Bytes Codec Wal SkipList MemStore Command StateMachine Http Format Json.
From S2P Require Import SmSnapshot RaftLog RaftFormat RaftPersist RaftNode RaftElection RaftDurable RaftGhost.
From S2P Require Import RaftSafety RaftSteps RaftCommit SnapshotTransfer Applier Replica.
From S2P Require Import DbNode Api Gateway ApiJson EndToEnd.
From stdpp Require Import base tactics list numbers gmap.
From Stdlib Require Import Strings.Byte.
From Stdlib Require Import ZArith Lia.
From Stdlib Require String.
Import String.StringSyntax.
#[local] Open Scope Z_scope.

(** ** Runs, and the nodes in them *)

Abbreviation sys := (system MemStore).

(** A run, its latest state first. *)
Inductive run (members : gset bytes) (cfg_of : bytes -> Config) : list sys -> Prop :=
| run_starts s : sinitial members cfg_of s -> run members cfg_of [s]
| run_goes_on s s' l : run members cfg_of (s :: l) -> sstep s s' -> run members cfg_of (s' :: s :: l).

(** [d] is a node in state [s] that has no snapshot to restore and has caught
    up with what its store kept from before a restart. *)
Definition moment (s : sys) (d : DbNode) : Prop :=
  exists n r, w_nodes (s_world s) !! db_id d = Some n /\ s_reps s !! db_id d = Some r /\
    db_applier d = MkApplier n (r_sm r) /\ pendingSnapshot n = None /\ r_high r <= reached n r.

(** The node has become [d], unless it is further already. *)
Definition jump (d : DbNode) (w : Server) : Server :=
  if lastApplied (db_raft (node w)) <=? lastApplied (db_raft d) then put_node w d else w.

Section Serving.
Context (l : list sys).

(** What the other goroutines do: nothing, or what the run did. *)
Definition passes (g : Server -> Server) : Prop :=
  (forall w, g w = w) \/ exists s d, s ∈ l /\ moment s d /\ forall w, g w = jump d w.

Definition serving (m : member) : Prop :=
  (exists s, s ∈ l /\ moment s (node (m_server m))) /\
  let e := m_env m in
  passes (gap_propose e) /\ passes (env_start e) /\ Forall (fun x => passes x.1) (env_wakes e) /\
  let rs := env_reads e in
  passes (rs_confirm rs) /\ passes (rs_start rs) /\ Forall (fun x => passes x.1) (rs_wakes rs) /\ passes (rs_get rs).
End Serving.

(** ** The cluster keeps the promise *)

Lemma state_at_prefix m0 cmds cmds' k : cmds `prefix_of` cmds' -> k <= Z.of_nat (length cmds) ->
  state_at m0 cmds k = state_at m0 cmds' k.
Proof. intros [rest ->] Hk. unfold state_at. by rewrite take_app_le by lia. Qed.

Lemma commands_prefix C C' : C `prefix_of` C' -> commands C `prefix_of` commands C'.
Proof. intros [rest ->]. exists (commands rest). unfold commands. apply fmap_app. Qed.

Section Cluster.
Context (members : gset bytes) (cfg_of : bytes -> Config).
Context (Hid : forall i, i ∈ members -> c_id (cfg_of i) = i /\ i <> []).
Context (Hpeers : forall i, i ∈ members ->
  NoDup (i :: c_peers (cfg_of i)) /\ list_to_set (i :: c_peers (cfg_of i)) = members).

(** One log for a whole run. *)
Lemma run_log l : run members cfg_of l ->
  exists C, (forall s, head l = Some s -> refines members cfg_of s C) /\
    forall s, s ∈ l -> exists C0, C0 `prefix_of` C /\ refines members cfg_of s C0.
Proof.
  induction 1 as [s Hs|s s' l Hrun (C & Hhead & Hall) Hstep].
  - pose proof (refines_initial members cfg_of Hid s Hs) as H0. exists []. split; [by intros t [= <-]|].
    intros t ->%list_elem_of_singleton. by exists [].
  - destruct (refines_step members cfg_of Hid Hpeers s C s' (Hhead s eq_refl) Hstep) as (C' & Hp & HC').
    exists C'. split; [by intros t [= <-]|]. intros t [->|Ht]%elem_of_cons; [by exists C'|].
    destruct (Hall t Ht) as (C0 & H0 & H1). exists C0. split; [by etrans|done].
Qed.

Lemma moment_db_ok s C0 C d : refines members cfg_of s C0 -> C0 `prefix_of` C -> moment s d -> db_ok ∅ (commands C) d.
Proof.
  intros Hr Hp (n & r & Hn & Hrep & Ha & Hpend & Hh).
  destruct (refines_replica members cfg_of Hid Hpeers s C0 _ n r Hr Hn Hrep) as [_ Hx].
  destruct (Hx Hpend) as [Hb Habs]. specialize (Habs Hh).
  destruct Hr as [_ HS]. destruct (S_reps _ _ (HS C0 (reflexivity C0)) _ _ Hn) as (r0 & Hr0 & Hok).
  rewrite Hrep in Hr0. injection Hr0 as <-. exists (reached n r). unfold db_raft, store_at, db_store, db_sm. rewrite Ha. cbn.
  split; [unfold reached; destruct (r_phase r); lia|]. split; [exact (R_sm _ _ _ Hok)|].
  rewrite <- (state_at_prefix ∅ (commands C0) (commands C)); [by rewrite <- Habs|by apply commands_prefix|].
  unfold commands. rewrite length_fmap. lia.
Qed.

Lemma jump_keeps m0 cmds d : db_ok m0 cmds d -> keeps m0 cmds (jump d).
Proof.
  intros Hd w Hw. unfold jump, raft_in. cbn [node_in Server_hosts] in *.
  destruct (Z.leb_spec (lastApplied (db_raft (node w))) (lastApplied (db_raft d))); [|split; [done|lia]]. by split.
Qed.

(** A node that serves in a run keeps the promise, for the run's log. *)
Lemma serving_keeps l C m :
  (forall s, s ∈ l -> exists C0, C0 `prefix_of` C /\ refines members cfg_of s C0) -> serving l m -> member_keeps ∅ (commands C) m.
Proof.
  intros Hlog (Hm & Hsv).
  assert (forall s d, s ∈ l -> moment s d -> db_ok ∅ (commands C) d) as Hok.
  { intros s d Hs Hd. destruct (Hlog s Hs) as (C0 & Hp & Hr). by eapply moment_db_ok. }
  assert (forall g, passes l g -> keeps ∅ (commands C) g) as Hk.
  { intros g [Hg|(s & d & Hs & Hd & Hg)] w Hw; rewrite Hg; [by split|]. by apply jump_keeps; [eapply Hok|]. }
  assert (forall ws : list ((Server -> Server) * wake), Forall (fun x => passes l x.1) ws ->
    Forall (fun x => keeps ∅ (commands C) x.1) ws) as Hks.
  { intros ws Hws. eapply Forall_impl; [exact Hws|]. intros x Hx. by apply Hk. }
  destruct Hm as (s & Hs & Hd). destruct Hsv as (H1 & H2 & H3 & H4 & H5 & H6 & H7).
  split; [split_and!; auto|]. split; [split_and!; auto|]. by eapply Hok.
Qed.
End Cluster.


(** ** Witness *)

Lemma rtc_run members cfg_of s s' l : run members cfg_of (s :: l) -> rtc sstep s s' -> exists l', run members cfg_of (s' :: l').
Proof.
  intros Hrun Hsteps. revert l Hrun. induction Hsteps as [s|s s1 s' Hs _ IH]; intros l Hrun; [by exists l|].
  eapply IH, run_goes_on; done.
Qed.

(** The node of the run that has applied one command. *)
Definition served : DbNode := MkDb me (MkApplier (MarkApplied solo_node 1).1 one_applied) None.
Definition served_cluster : gmap bytes member :=
  {[lit "http://h1:8081" := MkMember (NewServer served token 5 []) (env_with idle idle) Delivered [] (lit "1.5") []]}.
Definition served_get : request := req MethodGet (lit "/kv/k") [].

Lemma served_moment : moment solo_end served.
Proof.
  exists (MarkApplied solo_node 1).1, (Replica.solo_applied (Applying [])).
  split_and!; [apply lookup_singleton_eq|apply lookup_singleton_eq|reflexivity|vm_compute; reflexivity|vm_compute; congruence].
Qed.

Definition relayed_response (rep : reply) : option response := match rep with Relayed resp => Some resp | GatewayError _ => None end.

