(* ===== verification/Commands.v ===== *)
(** * The processes

    cmd/forgedb, cmd/forge-gateway and cmd/forge-chaos, with
    internal/logging's ParseLevel: how configuration, storage, consensus,
    transport and HTTP are put together, and in which order they are taken
    down. What the operating system does (listening on an address, the files
    found on disk, the clock, when a signal arrives) is a parameter. *)

From S2P Require Import Prelude Bytes Http Format Codec Wal SkipList MemTable MemStore Command StateMachine SmSnapshot.
From S2P Require Import AtomicFile RaftLog RaftFormat RaftPersist RaftNode RaftElection Applier Transport Gateway Configuration.
From S2P Require Import DbNode InvariantTracker Chaos Api.
From stdpp Require Import base tactics list numbers gmap fin_sets.
From Stdlib Require Import Strings.Byte.
From Stdlib Require Import ZArith Lia.
From Stdlib Require String.
Import String.StringSyntax.
#[local] Open Scope Z_scope.

(** ** Log levels: internal/logging *)

Inductive Level := LevelDebug | LevelInfo | LevelWarn | LevelError.

(** [strings.ToLower] on ASCII, which is all the names have. *)
Definition ParseLevel (s : bytes) : Level :=
  let s := lower <$> TrimSpace s in
  if bool_decide (s = lit "debug") then LevelDebug
  else if bool_decide (s = lit "warn") || bool_decide (s = lit "warning") then LevelWarn
  else if bool_decide (s = lit "error") then LevelError
  else LevelInfo.

(** ** cmd/forgedb *)

(** What a process opens and closes. *)
Inductive resource := ResTransport | ResNode | ResGRPC | ResHTTP.
#[export] Instance resource_eq_dec : EqDecision resource.
Proof. solve_decision. Defined.
(** [Release x err]: the call that closes [x] was made, and returned an
    error if [err]. *)
Inductive action := Acquire (x : resource) | Release (x : resource) (err : bool) | RunNode (tick : Z).

(** The resources that no close was called for, last opened first, if each
    close was called before those of the ones opened earlier. *)
Fixpoint open_after (held : list resource) (acts : list action) : option (list resource) :=
  match acts with
  | [] => Some held
  | Acquire x :: acts => open_after (x :: held) acts
  | Release x _ :: acts =>
      match held with
      | y :: held => if bool_decide (x = y) then open_after held acts else None
      | [] => None
      end
  | RunNode _ :: acts => open_after held acts
  end.

(** [se_httpErr], [se_nodeErr] and [se_transportErr]: closing it returns an
    error, as when [Shutdown]'s ten seconds are over. Stopping the RPC server
    returns none. *)
Record startup_env := MkStartup {
  se_join : bytes -> bytes -> bytes;
  se_wal : bytes;
  se_flips : list (list bool);
  se_files : FilePersister;
  se_coin : Z;
  se_listen : bytes -> option bytes;
  se_now : Z;
  se_httpErr : bool;
  se_nodeErr : bool;
  se_transportErr : bool }.

Inductive startup_error := ErrOpenNode (e : open_error) | ErrServeGRPC (addr : bytes) | ErrServeHTTP (addr : bytes).

(** [grpcTrans] is its table of peers. *)
Record server := MkRunning { srv_api : Server; srv_grpcAddr : bytes; srv_httpAddr : bytes; srv_peers : gmap bytes bytes }.

(** The API server's [Start] and [Shutdown]. *)
Definition api_Start (listen : bytes -> option bytes) (addr : bytes) : list action * option bytes :=
  match listen addr with None => ([], None) | Some bound => ([Acquire ResHTTP], Some bound) end.
Definition api_Shutdown (e : startup_env) : list action := [Release ResHTTP (se_httpErr e)].

Definition DefaultTickInterval : Z := 100 * 10 ^ 6.

Definition newServer (e : startup_env) (cfg : NodeConfig) : list action * result startup_error server :=
  let raftDir := se_join e (DataDir cfg) (lit "raft") in
  let kvDir := se_join e (DataDir cfg) (lit "kv") in
  let trans := PeerGRPCAddrs cfg in
  let acts := [Acquire ResTransport] in
  match Open (MkDbConfig (NodeID cfg) (PeerIDs cfg) true raftDir kvDir 0 0 0) (se_wal e) (se_flips e) (se_files e) (se_coin e) with
  | Err err => (acts ++ [Release ResTransport (se_transportErr e)], Err (ErrOpenNode err))
  | Ok node =>
      let acts := acts ++ [Acquire ResNode] in
      match se_listen e (GRPC cfg) with
      | None => (acts ++ [Release ResNode (se_nodeErr e); Release ResTransport (se_transportErr e)], Err (ErrServeGRPC (GRPC cfg)))
      | Some grpcAddr =>
          let tickInterval := if TickInterval cfg <=? 0 then DefaultTickInterval else TickInterval cfg in
          let acts := acts ++ [Acquire ResGRPC; RunNode tickInterval] in
          let apiSrv := NewServer node (APIToken cfg) (se_now e)
                          [WithPeerHTTPAddrs (PeerHTTPAddrs cfg); WithMaxValueBytes (MaxValueBytes cfg); WithCORSOrigins (CORSOrigins cfg)] in
          match api_Start (se_listen e) (HTTP cfg) with
          | (_, None) => (acts ++ [Release ResGRPC false; Release ResNode (se_nodeErr e); Release ResTransport (se_transportErr e)], Err (ErrServeHTTP (HTTP cfg)))
          | (started, Some httpAddr) => (acts ++ started, Ok (MkRunning apiSrv grpcAddr httpAddr trans))
          end
      end
  end.

(** Every step is taken whether or not an earlier one failed. *)
Definition shutdown (e : startup_env) : list action :=
  api_Shutdown e ++ [Release ResGRPC false; Release ResNode (se_nodeErr e); Release ResTransport (se_transportErr e)].

(** The process until it ends, after a signal if it came up: what it did, its
    log level, and its exit code. *)
Definition forgedb_main (load : result config_error NodeConfig) (e : startup_env) : list action * option Level * Z :=
  match load with
  | Err _ => ([], None, 1)
  | Ok cfg =>
      match newServer e cfg with
      | (acts, Err _) => (acts, Some (ParseLevel (LogLevel cfg)), 1)
      | (acts, Ok _) => (acts ++ shutdown e, Some (ParseLevel (LogLevel cfg)), 0)
      end
  end.

(** ** cmd/forge-gateway *)

Definition newGatewayServer (listen : bytes -> option bytes) (cfg : GatewayConfig) : option (Proxy * bytes) :=
  match listen (ga_Addr cfg) with
  | None => None
  | Some addr => Some (NewProxy (ga_Backends cfg) (Some (ga_MaxBodyBytes cfg)), addr)
  end.

(** What ends a running gateway: a signal, or its server. *)
Inductive gateway_end := Signal | ServeEnded (err : bool).

(** Exit code; with a signal, the server is shut down first. *)
Definition gateway_main (load : result config_error GatewayConfig) (listen : bytes -> option bytes) (how : gateway_end) : Z :=
  match load with
  | Err _ => 1
  | Ok cfg => match newGatewayServer listen cfg with
              | None => 1
              | Some _ => match how with ServeEnded true => 1 | _ => 0 end
              end
  end.

(** ** cmd/forge-chaos *)

Inductive verdict := Pass | ExitEarly | Failed (e : option chaos_error).

Section ForgeChaos.
Context {W : Type} `{Fleet W} (quote : bytes -> bytes) {R : Type} (Intn : R -> nat -> nat * R) (newRand : Z -> R).

(** Restarting what is crashed, one after the other. *)
Fixpoint restart_all (c : Chaos.Cluster W) (ids : list bytes) : Chaos.Cluster W * result chaos_error unit :=
  match ids with
  | [] => (c, Ok tt)
  | id :: ids =>
      if IsCrashed c id then
        match RestartNode c id with
        | (c, Err e) => (c, Err e)
        | (c, Ok _) => restart_all c ids
        end
      else restart_all c ids
  end.

Definition closingMarker : Command :=
  NewPutCommand (lit "forge-chaos-closing-marker") 1 (lit "closing-marker") (lit "done").

(** From a cluster just opened to the verdict. *)
Definition chaos_run (c : Chaos.Cluster W) (seed steps convergeRounds : Z) : Chaos.Cluster W * verdict :=
  let c := RunRandomScenario quote c (NewRandomPlan Intn newRand seed (k_ids c) steps) in
  let c := HealPartitions (fold_left Chaos.Heal (k_ids c) c) in
  match restart_all c (k_ids c) with
  | (c, Err e) => (c, Failed (Some e))
  | (c, Ok _) =>
      match WaitForLeader c convergeRounds with
      | (c, Err e) => (c, Failed (Some e))
      | (c, Ok leader) =>
          match Chaos.Propose quote c leader closingMarker with
          | (c, Err e) => (c, Failed (Some e))
          | (c, Ok _) =>
              match WaitForConvergence (Settle c) convergeRounds [] with
              | (c, Err e) => (c, Failed (Some e))
              | (c, Ok _) => match AssertInvariants c with
                             | Some _ => (c, Failed None)
                             | None => (c, Pass)
                             end
              end
          end
      end
  end.

(** [baseDir] is the temporary directory, [None] when there is none. *)
Definition chaos_main (w : W) (baseDir : option bytes) (seed nodes steps convergeRounds : Z) : option (Chaos.Cluster W) * verdict :=
  match baseDir with
  | None => (None, ExitEarly)
  | Some dir =>
      match NewCluster w (lit "forge-chaos") seed (MkChaosConfig nodes dir 0 0 0) with
      | Err _ => (None, ExitEarly)
      | Ok c => let '(c, v) := chaos_run c seed steps convergeRounds in (Some c, v)
      end
  end.
End ForgeChaos.

(** ** Healing leaves every node running *)

Section Marks.
Context {W : Type} `{Fleet W}.
Implicit Types c : Chaos.Cluster W.

(** The harness's own marks: who exists, is crashed or cut off. *)
Definition marks c : list bytes * gset bytes * gset bytes * list (list bytes) := (k_ids c, k_crashed c, k_partitioned c, k_groups c).

Lemma advance_marks c rounds : marks (Advance c rounds) = marks c.
Proof using Type.
  assert (forall x, marks (ApplyAllAvailable x).1 = marks x) as Ha.
  { intros x. unfold ApplyAllAvailable. by destruct (fold_left _ _ _) as [w errs]. }
  unfold Advance. induction (Z.to_nat rounds) as [|k IH]; [done|]. cbn [Nat.iter]. rewrite <- IH.
  by etrans; [apply (Ha (DrainAll (TickAll _)))|].
Qed.

Lemma leader_loop_marks rounds c ids : marks (leader_loop rounds c ids).1 = marks c.
Proof using Type.
  revert c. induction rounds as [|k IH]; intros c; cbn [leader_loop]; destruct (CurrentLeaderAmong c ids); try done.
  by rewrite IH, advance_marks.
Qed.

Lemma convergence_loop_marks rounds c ids : marks (convergence_loop rounds c ids).1 = marks c.
Proof using Type.
  revert c. induction rounds as [|k IH]; intros c; cbn [convergence_loop]; destruct (AssertConverged c ids); try done.
  by rewrite IH, advance_marks.
Qed.

Lemma propose_marks quote c id cmd : marks (Chaos.Propose quote c id cmd).1 = marks c.
Proof using Type. unfold Chaos.Propose. destruct (live_node c id); [|done]. by destruct (fl_propose _ _ _). Qed.

Lemma heal_all_marks c ids :
  let c' := fold_left Chaos.Heal ids c in
  k_ids c' = k_ids c /\ k_crashed c' = k_crashed c /\ k_partitioned c' = k_partitioned c ∖ list_to_set ids.
Proof using Type.
  revert c. induction ids as [|id ids IH]; intros c; cbn; [split_and!; [done..|set_solver]|].
  destruct (IH (Chaos.Heal c id)) as (-> & -> & ->). cbn. split_and!; [done|done|set_solver].
Qed.

Lemma restart_all_marks c ids c' : restart_all c ids = (c', Ok tt) ->
  k_ids c' = k_ids c /\ k_crashed c' = k_crashed c ∖ list_to_set ids /\ k_partitioned c' ⊆ k_partitioned c /\ k_groups c' = k_groups c.
Proof using Type.
  revert c. induction ids as [|id ids IH]; intros c; cbn; [intros [= <-]; split_and!; [done|set_solver|set_solver|done]|].
  unfold IsCrashed. case_bool_decide as Hc.
  - unfold RestartNode, IsCrashed. rewrite bool_decide_eq_true_2 by done. cbn [negb]. unfold openNode.
    destruct (fl_open _ _ _) as [w [[]|e]]; [|done]. intros (E1 & E2 & E3 & E4)%IH. cbn in *.
    rewrite E1, E2, E4. split_and!; [done|set_solver|set_solver|done].
  - intros (-> & -> & E3 & ->)%IH. split_and!; [done|set_solver|done|done].
Qed.

(** Everything heals, restarts and converges before a run passes. *)
Lemma all_equal_spec c first want ids : all_equal c first want ids = Ok tt ->
  forall id, id ∈ ids -> exists got, LogicalState c id = Ok got /\ stateEqual want got = true.
Proof using Type.
  induction ids as [|i ids IH]; cbn; [intros _ id Hid; by apply not_elem_of_nil in Hid|].
  destruct (LogicalState c i) as [got|] eqn:E; [|done]. destruct (stateEqual want got) eqn:Es; [|done].
  intros Hi id [->|Hid]%elem_of_cons; [by exists got|by apply IH].
Qed.

Lemma convergence_loop_ok rounds c ids c' : convergence_loop rounds c ids = (c', Ok tt) -> AssertConverged c' ids = Ok tt.
Proof using Type.
  revert c. induction rounds as [|k IH]; intros c; cbn [convergence_loop];
    destruct (AssertConverged c ids) as [[]|] eqn:E; try done; [by intros [= <-]..|apply IH].
Qed.
End Marks.

Lemma filter_everyone {A} (P : A -> Prop) `{!forall x, Decision (P x)} (l : list A) : (forall x, x ∈ l -> P x) -> filter P l = l.
Proof.
  induction l as [|x l IH]; intros Hl; [done|]. rewrite filter_cons_True by (apply Hl; by left). f_equal.
  apply IH. intros y Hy. apply Hl. by right.
Qed.

Lemma Load_validates ParseDuration Getenv cfg : Load ParseDuration Getenv = Ok cfg -> Validate cfg = Ok tt.
Proof.
  unfold Load. unfold mbind, result_bind. repeat (match goal with |- match ?x with Ok _ => _ | Err _ => _ end = _ -> _ =>
    destruct x as [?|?] eqn:?; [|done] end). match goal with u : () |- _ => destruct u end. by intros [= <-].
Qed.

Lemma Open_id c content flips p r d : Open c content flips p r = Ok d -> db_id d = d_ID c.
Proof.
  unfold Open. repeat (case_bool_decide; [done|]). destruct (negb _); [done|]. repeat (case_bool_decide; [done|]).
  destruct (NewMemStore _ _); [|done]. destruct (NewNode _ _ _ _ _ _ _ _); [|done].
  by intros [= <-].
Qed.

(** The place of a step in a list of steps. *)
Ltac place E :=
  lazymatch type of E with
  | _ :: _ = ?l ++ _ => let l' := fresh "acts" in destruct l as [|? l']; [try discriminate E|injection E as <- E; place E]
  | [] = ?l ++ _ => destruct l; discriminate E
  end.

(** A close that returned an error, among the actions of a list. *)
Ltac failed_close H :=
  repeat (apply elem_of_cons in H as [H|H]; [first [discriminate H|injection H as -> H; by symmetry]|]);
  by apply not_elem_of_nil in H.

(** ** Theorems *)

(** C36. A process leaves nothing open behind. Whichever step of start-up
    fails, the close of every resource acquired before it is called, once and
    in reverse order, and the exit code is 1. A process that came up holds
    exactly its transport, node, RPC server and HTTP server, and ends with
    code 0 after its shutdown has called the close of each, once and in
    reverse order, also when an earlier close returned an error. A close that
    returns an error is one of the three the environment made fail, so with
    none of those nothing stays open. The node starts ticking only when its
    RPC server listens, at a positive interval. *)
Theorem forgedb_releases_everything load e :
  let '(acts, level, code) := forgedb_main load e in
  open_after [] acts = Some [] /\
  (forall x, Release x true ∈ acts -> match x with
     | ResHTTP => se_httpErr e | ResNode => se_nodeErr e | ResTransport => se_transportErr e | ResGRPC => false end = true) /\
  (code = 0 <-> exists cfg srv, load = Ok cfg /\ (newServer e cfg).2 = Ok srv) /\ (code <> 0 -> code = 1) /\
  (forall cfg acts1 srv, load = Ok cfg -> newServer e cfg = (acts1, Ok srv) ->
     open_after [] acts1 = Some [ResHTTP; ResGRPC; ResNode; ResTransport] /\ acts = acts1 ++ shutdown e) /\
  forall acts1 tick acts2, acts = acts1 ++ RunNode tick :: acts2 -> 0 < tick /\ Acquire ResGRPC ∈ acts1.
Proof.
  unfold forgedb_main. destruct load as [cfg|err].
  2: { split_and!; [done|set_solver|naive_solver|done|naive_solver|intros acts1 tick acts2 E; by destruct acts1]. }
  assert (0 < if TickInterval cfg <=? 0 then DefaultTickInterval else TickInterval cfg) as Ht.
  { unfold DefaultTickInterval. destruct (Z.leb_spec (TickInterval cfg) 0); lia. }
  destruct (newServer e cfg) as [acts res] eqn:En.
  assert (let all := acts ++ match res with Ok _ => shutdown e | Err _ => [] end in
    open_after [] all = Some [] /\
    (forall x, Release x true ∈ all -> match x with
       | ResHTTP => se_httpErr e | ResNode => se_nodeErr e | ResTransport => se_transportErr e | ResGRPC => false end = true) /\
    (is_ok res = true -> open_after [] acts = Some [ResHTTP; ResGRPC; ResNode; ResTransport]) /\
    forall acts1 tick acts2, all = acts1 ++ RunNode tick :: acts2 -> 0 < tick /\ Acquire ResGRPC ∈ acts1) as (Hopen & Herr & Hup & Hrun).
  { revert En. unfold newServer, api_Start. cbv zeta. destruct (Open _ _ _ _ _) as [node|err];
      [destruct (se_listen e (GRPC cfg)) as [ga|]; [destruct (se_listen e (HTTP cfg)) as [ha|]|]|];
      intros [= <- <-]; (split; [done|]);
      (split; [intros x Hx; unfold shutdown, api_Shutdown in Hx; cbn in Hx; failed_close Hx|]); (split; [done|]);
      intros acts1 tick acts2 E; unfold shutdown, api_Shutdown in E; cbn in E; place E.
    all: injection E as <- _; split; [done|set_solver]. }
  destruct res as [srv|err]; rewrite ?app_nil_r in *; (split; [done|]; split; [done|]); (split; [|split; [done|split; [|done]]]).
  - split; [intros _|done]. exists cfg, srv. by rewrite En.
  - intros cfg' acts1 srv' [= <-] E. rewrite En in E. injection E as <- <-. split; [by apply Hup|done].
  - split; [done|]. intros (cfg' & srv & [= <-] & E). by rewrite En in E.
  - intros cfg' acts1 srv' [= <-] E. by rewrite En in E.
Qed.

(** What a process serves is what it was configured with: the API of a node
    that came up from a loaded configuration has the configured token, which
    is not empty, its body limit and its origins, and sends clients to its
    roster's addresses, so that no request reaches a protected route without
    the token. *)
Theorem started_server_requires_token ParseDuration Getenv cfg e acts srv env r :
  Load ParseDuration Getenv = Ok cfg -> newServer e cfg = (acts, Ok srv) ->
  let s := srv_api srv in
  apiToken s = APIToken cfg /\ APIToken cfg <> [] /\ maxValueBytes s = MaxValueBytes cfg /\ 0 < maxValueBytes s /\
  corsOrigins s = CORSOrigins cfg /\ peerHTTP s = PeerHTTPAddrs cfg /\ db_id (node s) = NodeID cfg /\
  (protected (route_of (r_path r)) = true -> r_method r <> MethodOptions -> bearerTokenValid r (APIToken cfg) = false ->
   (Api.ServeHTTP env s r).1 = s /\ code (Api.ServeHTTP env s r).2 = 401).
Proof.
  intros Hl En. apply Load_validates, Validate_peers in Hl as (_ & Ht & Hv & _). revert En. unfold newServer, api_Start. cbv zeta.
  destruct (Open _ _ _ _ _) as [d|] eqn:Eo; [|done]. apply Open_id in Eo.
  destruct (se_listen e (GRPC cfg)); [|done]. destruct (se_listen e (HTTP cfg)); [|done]. intros [= <- <-]. cbn [srv_api].
  set (s := NewServer _ _ _ _). assert (s = MkServer d (PeerHTTPAddrs cfg) (kvClientIDPrefix ++ db_id d) (u64 (se_now e))
    (APIToken cfg) (MaxValueBytes cfg) (CORSOrigins cfg)) as ->.
  { unfold s, NewServer. cbn. rewrite (proj2 (Z.gtb_lt _ _)) by lia. done. }
  split_and!; try done. intros Hp Hm Hb. by apply ServeHTTP_denied.
Qed.

(** forge-chaos passes honestly: it reports PASS only when, at the end,
    every node runs, no partition is left, all nodes hold the same data as
    the first one, and no invariant was ever seen violated. *)
Theorem chaos_pass_is_honest {W R} `{Fleet W} quote (Intn : R -> nat -> nat * R) newRand w dir seed nodes steps rounds c :
  chaos_main quote Intn newRand w dir seed nodes steps rounds = (Some c, Pass) ->
  LiveIDs c = k_ids c /\ k_groups c = [] /\ k_partitioned c ∩ list_to_set (k_ids c) = ∅ /\
  AssertInvariants c = None /\
  forall first rest, k_ids c = first :: rest -> exists want, LogicalState c first = Ok want /\
    forall id, id ∈ rest -> exists got, LogicalState c id = Ok got /\ stateEqual want got = true.
Proof.
  unfold chaos_main. destruct dir as [dir|]; [|done]. destruct (NewCluster _ _ _ _) as [c0|]; [|done].
  unfold chaos_run. set (c1 := RunRandomScenario _ _ _). set (c2 := HealPartitions _).
  destruct (restart_all c2 (k_ids c2)) as [c3 [[]|]] eqn:E3; [|done].
  destruct (WaitForLeader c3 rounds) as [c4 [leader|]] eqn:E4; [|done].
  destruct (Chaos.Propose quote c4 leader closingMarker) as [c5 [[]|]] eqn:E5; [|done].
  destruct (WaitForConvergence (Settle c5) rounds []) as [c6 [[]|]] eqn:E6; [|done].
  destruct (AssertInvariants c6) eqn:Ei; [done|]. intros [= <-].
  assert (marks c6 = marks c3) as Hm.
  { pose proof (convergence_loop_marks (Z.to_nat rounds) (Settle c5) []) as M1. unfold WaitForConvergence in E6. rewrite E6 in M1.
    pose proof (propose_marks quote c4 leader closingMarker) as M2. rewrite E5 in M2.
    pose proof (leader_loop_marks (Z.to_nat rounds) c3 (k_ids c3)) as M3. unfold WaitForLeader in E4. rewrite E4 in M3.
    cbn [fst] in *. unfold Settle in M1. rewrite advance_marks in M1. congruence. }
  apply restart_all_marks in E3 as (I3 & C3 & P3 & G3). destruct (heal_all_marks c1 (k_ids c1)) as (I2 & C2 & P2).
  unfold marks in Hm. injection Hm as Hi Hc Hp Hg.
  assert (LiveIDs c6 = k_ids c6) as Hlive.
  { unfold LiveIDs. rewrite Hc, C3, Hi, I3. apply filter_everyone. intros id Hid. set_solver. }
  apply convergence_loop_ok in E6. split_and!; [done|by rewrite Hg, G3| |done|].
  - rewrite Hi, I3, Hp. change (k_partitioned c2) with (k_partitioned (fold_left Chaos.Heal (k_ids c1) c1)) in P3.
    change (k_ids c2) with (k_ids (fold_left Chaos.Heal (k_ids c1) c1)). rewrite I2. rewrite P2 in P3. clear -P3. set_solver.
  - intros first rest Ef. unfold AssertConverged in E6. rewrite bool_decide_eq_true_2, Hlive, Ef in E6 by done.
    destruct (LogicalState c6 first) as [want|] eqn:Ew; [|done]. exists want. split; [done|]. by eapply all_equal_spec.
Qed.

(** ** Witnesses *)

Definition dice (r : nat) (n : nat) : nat * nat := ((r mod n)%nat, S r).
Definition demo_run : option (Chaos.Cluster lab) * verdict :=
  chaos_main Chaos.plain dice Z.to_nat NewInMemoryTransport (Some (lit "/tmp")) 0 3 12 30.
Definition demo_end : Chaos.Cluster lab := match demo_run.1 with Some c => c | None => start end.

Lemma demo_passes : demo_run = (Some demo_end, Pass).
Proof.
  assert (match demo_run with (Some _, Pass) => true | _ => false end = true) as Hok by (vm_compute; reflexivity).
  unfold demo_end. destruct demo_run as [[c|] []]; done.
Qed.

Example chaos_pass_is_honest_witness : LiveIDs demo_end = k_ids demo_end /\ AssertInvariants demo_end = None.
Proof.
  destruct (chaos_pass_is_honest Chaos.plain dice Z.to_nat NewInMemoryTransport (Some (lit "/tmp")) 0 3 12 30 demo_end demo_passes)
    as (H1 & _ & _ & H2 & _).
  exact (conj H1 H2).
Defined.

Definition demo_startup : startup_env := MkStartup (fun a b => a ++ lit "/" ++ b) [] [] solo_files 0 Some 1 true false false.
Definition demo_cfg : NodeConfig := trio_config na.
Definition demo_server : server :=
  match (newServer demo_startup demo_cfg).2 with Ok s => s | Err _ => MkRunning (NewServer solo0 [] 0 []) [] [] ∅ end.

Lemma demo_starts : newServer demo_startup demo_cfg = ((newServer demo_startup demo_cfg).1, Ok demo_server).
Proof.
  assert (is_ok (newServer demo_startup demo_cfg).2 = true) as Hok by (vm_compute; reflexivity).
  unfold demo_server. destruct (newServer demo_startup demo_cfg) as [acts [s|e]]; done.
Qed.

Lemma demo_loads : Load (fun _ => None) (trio_env na) = Ok demo_cfg.
Proof. vm_compute. reflexivity. Qed.

Example started_server_requires_token_witness :
  apiToken (srv_api demo_server) = lit "secret" /\
  code (Api.ServeHTTP (MkApiEnv (fun s => s) calm_faults (fun s => s) (fun s => s) []
      (MkReads (fun s => s) 1 (fun s => s) [] (fun s => s)) (fun s => s) quietly []) (srv_api demo_server)
    (MkRequest MethodGet (lit "/kv/a") [] [] None)).2 = 401.
Proof.
  destruct (started_server_requires_token (fun _ => None) (trio_env na) demo_cfg demo_startup _ demo_server
    (MkApiEnv (fun s => s) calm_faults (fun s => s) (fun s => s) []
      (MkReads (fun s => s) 1 (fun s => s) [] (fun s => s)) (fun s => s) quietly [])
    (MkRequest MethodGet (lit "/kv/a") [] [] None) demo_loads demo_starts) as (H1 & _ & _ & _ & _ & _ & _ & H2).
  split; [rewrite H1; vm_compute; reflexivity|]. apply H2; [vm_compute; reflexivity|discriminate|vm_compute; reflexivity].
Defined.
